(* ===== verification/_CoqProject ===== *)
-Q . S2P
Prelude.v
GoText.v
ApiTypes.v
Schema.v
Discovery.v
Policy.v
GoErrors.v
Prog.v
Json.v
KubeTypes.v
Locks.v
Executor.v
ExecutorSafety.v
Sha256.v
Collector.v
Analyzers.v
Diagnosis.v
DiagnosisSafety.v
Durations.v
DurationProps.v
Numbers.v
Scanner.v
Incidents.v
ScannerProps.v
IncidentProps.v
ScanListing.v
ScanSafety.v
ScanExamples.v
ScanSchema.v
Coordinator.v
EndToEnd.v
Counters.v
Pager.v
Options.v
GoHeap.v
DeepCopy.v
