(* ===== verification/Prelude.v ===== *)
(** * ExitGuard: a verification development

    ExitGuard watches a Kubernetes cluster for objects that are stuck in deletion.
    It runs as one of two processes.  The _scanner_ discovers the resource types that
    the cluster serves, compiles TerminationPolicies against them, lists the objects
    that the policies select, diagnoses those whose deletion is overdue and publishes
    DeletionIncidents with findings, recommended actions and the window in which the
    evidence is valid.  The _executor_ carries out an action once a RemediationApproval
    asks for it: under a per-target lock it checks the approval, the incident, the
    policy and the target again and sends one guarded change.  This development models
    that code and proves what makes it safe to run.

    ** The parts and their files

    Files are listed in the order of their dependencies.

    - Prelude: machine integers, instants and durations, string and sorting
      primitives, lemmas shared by the components.  GoText, GoErrors, Json, Sha256,
      Durations, DurationProps, Numbers: what the sources use of Go's standard library
      (UTF-8, fmt, errors, encoding/json, crypto/sha256, time, strconv), executable.
    - Prog: programs with effects as trees of events, their runs, the program logic
      [spec] (a permission for each event after the history so far, and a
      postcondition) with its soundness, and evaluation against a concrete environment.
    - ApiTypes, KubeTypes: the records and enumerations of api/v1alpha1 and the fields
      of Kubernetes objects that the sources read.  Schema: what the markers of
      api/v1alpha1 say of a status, as predicates.
    - Discovery: internal/discovery/catalog.go.  Building a snapshot from a discovery
      answer, lookup and version order, the catalog and its refresh loop.
    - Policy: internal/policy/engine.go.  Compilation, matching, the winning policy,
      risk and eligibility.
    - Locks: keyedLocks of internal/executor/executor.go as a step system over a heap.
    - Executor, ExecutorSafety: internal/executor/executor.go.  [Reconcile] with every
      read, check, status write, event, metric and retry; its safety.
    - Collector, Analyzers, Diagnosis, DiagnosisSafety: internal/diagnosis.  Evidence
      identifiers and budgets, the analyzers, [Diagnose]; its safety and completeness.
    - Scanner, Incidents: internal/scanner/scanner.go and cycle.go.  Policy compilation
      with its cache, the namespace inventory, the scan scope, listing within the
      budget, the evidence snapshot, persisting diagnoses, the incident lifecycle, the
      degraded path and the cycle that composes them.  ScannerProps, IncidentProps:
      properties of single stages.  ScanListing, ScanSafety: what a cycle lists, writes
      and completes.  ScanExamples: concrete clusters on which the theorems apply.
      ScanSchema: the statuses that a cycle writes are within the schema.
    - Coordinator: the loop of the scanner over its lifetime, composed with Discovery.
    - EndToEnd: the scanner composed with the executor, from the scan that publishes
      an action to the change that carries it out.
    - Counters, Pager: internal/perftest, the harness of the benchmarks.
    - Options: internal/options/options.go and cmd/main.go.  Flags, validation, and the
      process entry point, composed with the constructors of the components.
    - GoHeap: a memory model with interior pointers, slices and maps, and the logic of
      copying routines.  DeepCopy: api/v1alpha1/zz_generated.deepcopy.go in that model.

    ** How code becomes definitions

    A pure function is a function of the same name.  A routine that talks to its
    environment is a program ([prog]) whose events are the calls it makes, in the order
    in which it makes them, with the response of the environment as the answer; the
    theorems quantify over all responses, so they hold against any cluster state, any
    error and any concurrent writer.  Early returns and error paths are those of the
    source; an error is a value of [error].  Dereferencing a nil pointer is an event
    without a response ([EPanic], [DPanic], [SPanic]).  Integers are [Z] with the
    wrap-around of their width where the source computes with them.  Structs are
    records, maps are [gmap]s, slices are lists; only GoHeap and DeepCopy tell nil from
    empty and follow sharing, elsewhere a deep copy is the identity.
    Objects that the source mutates through shared pointers (the scan-scope list of
    incidents) are threaded, so that later stages see the writes of earlier ones.  A
    read of the API returns a new value: the client replaces the object it is given by
    a copy and does not write through pointers taken from it before.

    Specifications do not reuse the code they specify: what a rule names ([ruleNames]),
    what a policy permits ([Permits]), which resources are servable and in which order
    ([servable], [versionBefore]), what a violated option is ([Violation]), what a
    status without evidence is ([NoEvidence]) are stated on their own, and lemmas relate
    the code to them.

    Page loops have no bound in the source: the server decides when the continue token
    ends.  They carry fuel, and running out of it is an event without a response
    ([DDiverge], [SDiverge]).  [Diagnose_terminates] and [cycle_crashes_only] show that
    this needs a server that hands out at least that many tokens, so every amount of
    fuel is enough for servers that stop earlier, and no theorem assumes that it is.

    The workers of a scan share the target budget, the API and the incident list.  The
    calls of one job follow those of another in the model; the answers of the API and
    of the budget are arbitrary ([SReserve]), the order in which results arrive and the
    iteration order of maps are chosen by the environment ([SOrder]), and so is the
    number of jobs handed out before the context ends ([SDispatched]).  Diagnosis jobs
    write to distinct entries of the incident list (those of their own target).  The
    per-target locks of the executor are modelled at the level of their steps.

    ** What stands for code outside the repository

    Classes, with their laws as separate classes where a theorem needs them, and
    instances in the example modules: [SchemaOps] (group/version texts),
    [UnicodeTables], [CaseTables], [LabelOps] (label selectors), [KubeNames] and
    [DiagnosisNames] (constants of other packages), [ApiErrors] (classification of API
    errors), [RetryOps] and [RetryClosures] (retry on conflict), [ScannerLibs],
    [ForeignFlags] (flags that other packages register), [MetaV1] with its law
    [MetaV1Ok] (deep copies of Kubernetes metadata).

    ** What the theorems show

    - The executor mutates only what is authorized: [Reconcile_mutation_authorized],
      [Reconcile_mutation_eligible], [Reconcile_mutates_once], [finalizerPatch_exact];
      every attempt is recorded and the history is kept: [Reconcile_audited],
      [Reconcile_status_writes]; it does not crash, releases its lock and bounds its
      requeues: [Reconcile_no_panic], [Reconcile_releases_and_bounds]; the locks
      exclude each other and make progress: [keyedLocks_mutual_exclusion],
      [keyedLocks_progress].
    - A diagnosis recommends only justified actions and is complete only after every
      listing ended: [Diagnose_actions_justified], [Diagnose_complete_thorough],
      [Diagnose_dismissed], [Diagnose_terminates]; its evidence stays within the budgets
      and its identifiers bind their parts: [collector_complete], [collector_bounds],
      [actionID_binds], [analyzeWebhook_verdict].
    - What the components write is typed: [Reconcile_writes_typed] and
      [cycle_writes_typed] put every status of the executor and of a scan cycle within
      the enumerations, lengths, minima and keys of its schema, given that what they
      read was within it; for the scanner also that finalizers are distinct qualified
      names, and but for SHA-256 collisions and counts beyond 32 bits.
    - The processes together: [mutation_traced_to_scan] traces the change of an executor
      back to a cycle in a run of the scanner: the status that the executor read is one
      that the cycle wrote, and the diagnosis that justifies the action is in the
      events of that cycle.
    - A scan cycle publishes only evidence of its own diagnoses, creates, resolves and
      deletes incidents only for causes that it established, withdraws evidence when it
      cannot complete, and without an error, provided every job was handed out, it has
      done its whole work:
      [cycle_publishes_evidence], [cycle_creates_and_deletes],
      [cycle_resolves_justified], [degraded_withdraws], [cycle_success_complete],
      [cycle_crashes_only]; [scanner_lifetime] extends this to all cycles of a process
      and to the catalogs that discovery publishes.
    - Stages agree with their references: [compilePolicies_cached],
      [selectWinning_reference]; [targetBudget_bound] bounds a scan;
      [persist_quiescent] and [retention_outlives_policy] are the stability of statuses
      and the round trip of the retention.
    - Discovery and policies: [buildSnapshot_correct], [Start_publishes_last_complete],
      [Compile_ready_iff], [Match_iff], [SelectWinning_correct],
      [ActionEligibility_iff].
    - The process: [Validate_iff], [flags_roundtrip], [run_registers_selected]; the
      harness: [Pager_walk]; the generated copies: [deep_copies_isolated], a copy reads
      like its source and shares no memory with it.

    ** Not modelled

    - api/v1alpha1/groupversion_info.go: registration of the types with the scheme of
      another package.
    - Markers of api/v1alpha1 on specifications and on embedded references (names,
      kinds, UIDs), which are copied from objects that the API server validated, and
      those of conditions; defaults and printer columns.
    - internal/scanner/reader.go: two delegations to the dynamic and the metadata
      client, whose calls are the events of the diagnosis.
    - The metrics.go files: registration of collectors; their updates are events or
      counters of the components' states, durations that are observed are not valued.
    - Elapsed time within a cycle: an instant is an input of the cycle, and a context
      that ends shows in the answers ([SCtxErr], [SDispatched], errors of calls).
    - Log lines, except those that accompany the exit of the process. *)
From stdpp Require Export base gmap sets list strings sorting pretty.
From Stdlib Require Export ZArith Lia.

(** ** Machine integers *)

(** Two's-complement reduction of an unbounded result to [w] bits: what Go's
    signed integer operations do on overflow. *)
Definition wrapS (w z : Z) : Z :=
  ((z + 2 ^ (w - 1)) mod 2 ^ w - 2 ^ (w - 1))%Z.

Definition int32 (z : Z) : Z := wrapS 32 z.
Definition int64 (z : Z) : Z := wrapS 64 z.

Definition maxInt64 : Z := (2 ^ 63 - 1)%Z.
Definition minInt64 : Z := (- 2 ^ 63)%Z.

(** ** time.Time and time.Duration

    An instant is a number of nanoseconds since the zero [time.Time] (so
    [IsZero] is [t = 0]); [time.Time] keeps 64-bit seconds, so adding a
    duration never wraps on instants a cluster can produce.  A duration is a
    signed 64-bit number of nanoseconds: sums and products wrap, and
    [Time.Sub] saturates. *)
Abbreviation Time := Z (only parsing).
Abbreviation Duration := Z (only parsing).

Definition Second : Duration := 1000000000%Z.
Definition Minute : Duration := (60 * Second)%Z.

Definition Time_Before (t u : Time) : bool := bool_decide (t < u)%Z.
Definition Time_After (t u : Time) : bool := bool_decide (u < t)%Z.
Definition Time_Add (t : Time) (d : Duration) : Time := (t + d)%Z.
Definition Time_Sub (t u : Time) : Duration :=
  Z.max minInt64 (Z.min maxInt64 (t - u)).
Definition Time_IsZero (t : Time) : bool := bool_decide (t = 0)%Z.

(** ** Strings

    A Go string is a sequence of bytes, as is [string]; [<] compares bytes
    lexicographically, as [String.ltb] does. *)
Definition str_lt (s t : string) : bool := String.ltb s t.

(** [strings.HasPrefix] *)
Fixpoint HasPrefix (s p : string) : bool :=
  match p, s with
  | EmptyString, _ => true
  | String _ _, EmptyString => false
  | String c p', String d s' => bool_decide (c = d) && HasPrefix s' p'
  end.

(** [strings.Contains] *)
Fixpoint strings_Contains (s sub : string) : bool :=
  HasPrefix s sub ||
  match s with
  | EmptyString => false
  | String _ s' => strings_Contains s' sub
  end.

(** [strings.Join] *)
Fixpoint strings_Join (parts : list string) (sep : string) : string :=
  match parts with
  | [] => ""
  | [p] => p
  | p :: rest => p +:+ sep +:+ strings_Join rest sep
  end.

(** ** Sorting

    [sort.Slice], [sort.Strings], [slices.Sort] and [sort.SliceStable] are all
    modelled by the stable insertion sort [sort_by]; where the source uses the
    unstable [sort.Slice] the development proves the result independent of the
    order of the input, so that the choice of algorithm is immaterial. *)
Fixpoint insert_by {A} (less : A → A → bool) (x : A) (l : list A) : list A :=
  match l with
  | [] => [x]
  | y :: l' => if less y x then y :: insert_by less x l' else x :: y :: l'
  end.

Definition sort_by {A} (less : A → A → bool) (l : list A) : list A :=
  foldr (insert_by less) [] l.

Definition sort_strings (l : list string) : list string := sort_by str_lt l.

(** A strict weak order given by a boolean comparison: the contract Go asks of
    a [less] function. *)
Class StrictWeak {A} (less : A → A → bool) : Prop := {
  less_irrefl x : less x x = false;
  less_cotrans x y z : less x z → less x y ∨ less y z;
  less_asym x y : less x y → less y x = false
}.

(** [x] may come before [y] in a sorted list. *)
Definition le_of {A} (less : A → A → bool) (x y : A) : Prop := less y x = false.

(** ** Generic tactics *)

(** Turn boolean tests in hypotheses into propositions. *)
Ltac bool_prop :=
  repeat match goal with
  | H : andb _ _ = true |- _ => apply andb_true_iff in H as [? ?]
  | H : orb _ _ = false |- _ => apply orb_false_iff in H as [? ?]
  | H : negb _ = true |- _ => apply negb_true_iff in H
  | H : negb _ = false |- _ => apply negb_false_iff in H
  | H : bool_decide _ = true |- _ => apply bool_decide_eq_true in H
  | H : bool_decide _ = false |- _ => apply bool_decide_eq_false in H
  | H : Is_true _ |- _ => apply Is_true_eq_true in H
  end.

(** Prove a closed decidable proposition by evaluating its decision. *)
Ltac decide_now := refine (bool_decide_unpack _ _); vm_compute; exact I.

(** ** Lemmas: strings *)

Lemma str_lt_irrefl s : str_lt s s = false.
Proof.
  unfold str_lt, String.ltb.
  destruct (String.compare s s) eqn:E; [done| |done].
  pose proof (String.compare_antisym s s) as H. rewrite E in H. done.
Qed.

Lemma str_lt_leb s t : str_lt s t = negb (String.leb t s).
Proof.
  unfold str_lt, String.ltb, String.leb.
  rewrite (String.compare_antisym t s). by destruct (String.compare s t).
Qed.

Lemma str_lt_asym s t : str_lt s t → str_lt t s = false.
Proof.
  rewrite !str_lt_leb. intros H%negb_prop_elim.
  destruct (String.leb_total s t) as [->|H']; [done|]. by rewrite H' in H.
Qed.

Lemma str_lt_cotrans s t u : str_lt s u → str_lt s t ∨ str_lt t u.
Proof.
  rewrite !str_lt_leb. intros H.
  destruct (String.leb t s) eqn:E1; [|by left].
  destruct (String.leb u t) eqn:E2; [|by right].
  exfalso. assert (String.le u s) as Hle.
  { etrans; [|by apply Is_true_true; exact E1]. by apply Is_true_true. }
  unfold String.le in Hle. apply Is_true_true in Hle. by rewrite Hle in H.
Qed.

(** Strings neither of which is below the other are equal. *)
Lemma str_lt_total s t : str_lt s t = false → str_lt t s = false → s = t.
Proof.
  rewrite !str_lt_leb. intros H1%negb_false_iff H2%negb_false_iff.
  by apply String.leb_antisym.
Qed.

Global Instance str_lt_weak : StrictWeak str_lt.
Proof.
  split; [apply str_lt_irrefl | apply str_lt_cotrans | apply str_lt_asym].
Qed.

(** Comparing through a key is again a strict weak order. *)
Global Instance key_weak {A B} (f : A → B) (less : B → B → bool) `{!StrictWeak less} :
  StrictWeak (λ x y, less (f x) (f y)).
Proof.
  split; intros.
  - apply less_irrefl.
  - by apply less_cotrans.
  - by apply less_asym.
Qed.

(** ** Lemmas: sorting *)
Section sorting.
Context {A : Type} (less : A → A → bool).

Lemma insert_by_perm x l : insert_by less x l ≡ₚ x :: l.
Proof.
  induction l as [|y l IH]; simpl; [done|].
  destruct (less y x); [|done]. rewrite IH. constructor.
Qed.

Lemma sort_by_perm l : sort_by less l ≡ₚ l.
Proof.
  induction l as [|x l IH]; simpl; [done|]. by rewrite insert_by_perm, IH.
Qed.

Lemma elem_of_sort_by x l : x ∈ sort_by less l ↔ x ∈ l.
Proof. by rewrite sort_by_perm. Qed.

Lemma length_sort_by l : length (sort_by less l) = length l.
Proof. by rewrite sort_by_perm. Qed.

Context `{!StrictWeak less}.

Lemma less_trans x y z : less x y → less y z → less x z.
Proof.
  intros Hxy Hyz. destruct (less_cotrans x z y Hxy) as [?|Hzy]; [done|].
  by rewrite (less_asym _ _ Hyz) in Hzy.
Qed.

Global Instance le_of_trans : Transitive (le_of less).
Proof.
  unfold le_of. intros x y z Hxy Hyz.
  destruct (less z x) eqn:E; [|done].
  destruct (less_cotrans z y x) as [H|H]; [by rewrite E | |];
    [by rewrite Hyz in H | by rewrite Hxy in H].
Qed.

Lemma insert_by_sorted x l :
  Sorted (le_of less) l → Sorted (le_of less) (insert_by less x l).
Proof.
  induction 1 as [|y l Hl IH Hhd]; simpl; [repeat constructor|].
  destruct (less y x) eqn:E.
  - constructor; [done|]. destruct l as [|z l]; simpl.
    + constructor. unfold le_of. apply less_asym. by rewrite E.
    + destruct (less z x); constructor; [by inversion Hhd|].
      unfold le_of. apply less_asym. by rewrite E.
  - repeat constructor; done.
Qed.

Lemma sort_by_sorted l : Sorted (le_of less) (sort_by less l).
Proof. induction l; simpl; [constructor | by apply insert_by_sorted]. Qed.

Lemma sort_by_strongly_sorted l : StronglySorted (le_of less) (sort_by less l).
Proof. apply Sorted_StronglySorted, sort_by_sorted. apply _. Qed.

(** A sorted permutation of a list whose incomparable elements are equal is
    unique: the outcome of any comparison sort, whatever the input order. *)
Lemma sort_by_unique l l' :
  (∀ x y, x ∈ l → y ∈ l → less x y = false → less y x = false → x = y) →
  l' ≡ₚ l → Sorted (le_of less) l' → l' = sort_by less l.
Proof.
  intros Htot Hp Hs. apply (Sorted_unique_strong (le_of less)).
  - intros x y Hx Hy Hxy Hyx. rewrite Hp in Hx.
    rewrite elem_of_sort_by in Hy. by apply Htot.
  - done.
  - apply sort_by_sorted.
  - by rewrite sort_by_perm.
Qed.

Lemma sort_by_perm_eq l1 l2 :
  (∀ x y, x ∈ l1 → y ∈ l1 → less x y = false → less y x = false → x = y) →
  l1 ≡ₚ l2 → sort_by less l1 = sort_by less l2.
Proof.
  intros Htot Hp. symmetry. apply sort_by_unique; [done| |apply sort_by_sorted].
  by rewrite sort_by_perm.
Qed.

(** An already sorted list is left alone. *)
Lemma sort_by_id l : Sorted (le_of less) l → sort_by less l = l.
Proof.
  induction 1 as [|x l Hl IH Hhd]; simpl; [done|]. rewrite IH.
  destruct l as [|y l]; simpl; [done|].
  inversion Hhd as [|? ? Hxy]; subst. unfold le_of in Hxy. by rewrite Hxy.
Qed.
End sorting.

(** Stability: elements that a predicate [P] closed under incomparability picks
    out keep their relative order. *)
Section stability.
Context {A : Type} (less : A → A → bool) `{!StrictWeak less}.
Context (P : A → Prop) `{!∀ x, Decision (P x)}.
Hypothesis P_incomparable : ∀ x y, P x → P y → less x y = false.

Lemma insert_by_filter x l :
  filter P (insert_by less x l) = filter P (x :: l).
Proof using P_incomparable.
  induction l as [|y l IH]; simpl; [done|].
  destruct (less y x) eqn:E; [|done].
  rewrite filter_cons, IH, !filter_cons.
  destruct (decide (P y)), (decide (P x)); try done.
  by rewrite P_incomparable in E.
Qed.

Lemma sort_by_stable l : filter P (sort_by less l) = filter P l.
Proof using P_incomparable.
  induction l as [|x l IH]; simpl; [done|].
  rewrite insert_by_filter, !filter_cons. by rewrite IH.
Qed.
End stability.

(** ** Lemmas: loops that fill maps and sets *)

Lemma foldl_ext {A B} (f g : A → B → A) l a :
  (∀ x y, f x y = g x y) → foldl f a l = foldl g a l.
Proof. intros Hfg. revert a. induction l as [|y l IH]; intros a; simpl; [done|]. by rewrite Hfg. Qed.

Section fills.
Context {K V : Type} `{Countable K}.

(** A loop that stores each element of a list under its key. *)
Lemma foldl_insert_lookup (key : V → K) (l : list V) (m : gmap K V) k v :
  NoDup (key <$> l) → (∀ x, x ∈ l → m !! key x = None) →
  foldl (λ m x, <[key x := x]> m) m l !! k = Some v ↔
  (v ∈ l ∧ key v = k) ∨ m !! k = Some v.
Proof.
  revert m. induction l as [|x l IH]; intros m Hnd Hm; simpl; [set_solver|].
  rewrite fmap_cons, NoDup_cons in Hnd. destruct Hnd as [Hx Hnd].
  assert (Hkey : ∀ y, y ∈ l → key y ≠ key x)
    by (intros y Hy Heq; apply Hx; rewrite <-Heq; by apply list_elem_of_fmap_2).
  rewrite IH; [|done|].
  - rewrite elem_of_cons. destruct (decide (key x = k)) as [<-|Hne].
    + rewrite lookup_insert_eq, (Hm x) by set_solver. naive_solver.
    + rewrite lookup_insert_ne by done. naive_solver.
  - intros y Hy. rewrite lookup_insert_ne by naive_solver. apply Hm. set_solver.
Qed.

(** A loop that adds each element of a list to a set. *)
Lemma elem_of_foldl_add (l : list K) (s : gset K) x :
  x ∈ foldl (λ m y, {[ y ]} ∪ m) s l ↔ x ∈ l ∨ x ∈ s.
Proof. revert s. induction l as [|y l IH]; intros s; simpl; [set_solver|]. rewrite IH. set_solver. Qed.

(** A loop that unites a set computed from each element. *)
Lemma elem_of_foldl_union {A} (f : A → gset K) (l : list A) (s : gset K) x :
  x ∈ foldl (λ m y, f y ∪ m) s l ↔ (∃ y, y ∈ l ∧ x ∈ f y) ∨ x ∈ s.
Proof. revert s. induction l as [|y l IH]; intros s; simpl; [set_solver|]. rewrite IH. set_solver. Qed.
End fills.

(** ** Lemmas: lists of messages *)

Lemma bind_nil_iff {A B} (f : A → list B) (l : list A) :
  l ≫= f = [] ↔ ∀ x, x ∈ l → f x = [].
Proof.
  induction l as [|x l IH]; simpl; [set_solver|].
  rewrite app_nil, IH. setoid_rewrite elem_of_cons. naive_solver.
Qed.

Lemma concat_nil_iff {A} (ls : list (list A)) : concat ls = [] ↔ ∀ l, l ∈ ls → l = [].
Proof.
  induction ls as [|l ls IH]; simpl; [set_solver|].
  rewrite app_nil, IH. setoid_rewrite elem_of_cons. naive_solver.
Qed.

Lemma elem_of_imap_iff {A B} (f : nat → A → B) (l : list A) y :
  y ∈ imap f l ↔ ∃ i x, l !! i = Some x ∧ y = f i x.
Proof.
  rewrite list_elem_of_lookup. setoid_rewrite list_lookup_imap_Some. naive_solver.
Qed.

Lemma existsb_true_iff {A} (f : A → bool) (l : list A) :
  existsb f l = true ↔ ∃ x, x ∈ l ∧ f x = true.
Proof. rewrite existsb_exists. by setoid_rewrite list_elem_of_In. Qed.

Lemma sort_strings_nil l : sort_strings l = [] ↔ l = [].
Proof.
  split; [|by intros ->]. intros E. apply Permutation_nil. symmetry.
  unfold sort_strings in E. by rewrite <-E, sort_by_perm.
Qed.
