(* ===== verification/GoText.v ===== *)
(** * Go text primitives

    The parts of Go's [unicode/utf8], [strings], [strconv] and [fmt] that the
    repository uses on text: decoding a byte string into runes as [range] and
    [[]rune(s)] do, encoding runes back, [strings.Map], [strconv.Quote] (the
    [%q] verb) and decimal formatting (the [%d] verb).  The theorems are the
    UTF-8 round trips on which the length bounds of the truncation routines of
    the policy engine and of the evidence collector rest. *)
From S2P Require Import Prelude.

Local Open Scope Z_scope.

(** ** Bytes *)

Definition byteZ (c : Ascii.ascii) : Z := Z.of_N (Ascii.N_of_ascii c).
Definition chr (z : Z) : Ascii.ascii := Ascii.ascii_of_N (Z.to_N z).

Fixpoint bytes_of (zs : list Z) : string :=
  match zs with
  | [] => ""
  | z :: zs' => String (chr z) (bytes_of zs')
  end.

(** [len(s)] of a string: its number of bytes. *)
Definition lenZ (s : string) : Z := Z.of_nat (String.length s).

(** [s[:n]] for [0 <= n <= len(s)]. *)
Definition str_take (n : nat) (s : string) : string := String.substring 0 n s.

(** ** UTF-8 decoding *)

Definition RuneError : Z := 65533.

Definition cont (b : Z) : bool := (128 <=? b) && (b <=? 191).

(** The bounds on the second byte that exclude overlong forms, surrogates and
    code points above U+10FFFF. *)
Definition second3 (b0 b1 : Z) : bool :=
  ((if b0 =? 224 then 160 else 128) <=? b1) && (b1 <=? (if b0 =? 237 then 159 else 191)).
Definition second4 (b0 b1 : Z) : bool :=
  ((if b0 =? 240 then 144 else 128) <=? b1) && (b1 <=? (if b0 =? 244 then 143 else 191)).

Definition is2 (b0 b1 : Z) : bool := (194 <=? b0) && (b0 <=? 223) && cont b1.
Definition is3 (b0 b1 b2 : Z) : bool :=
  (224 <=? b0) && (b0 <=? 239) && second3 b0 b1 && cont b2.
Definition is4 (b0 b1 b2 b3 : Z) : bool :=
  (240 <=? b0) && (b0 <=? 244) && second4 b0 b1 && cont b2 && cont b3.

Definition rune2 (b0 b1 : Z) : Z := (b0 - 192) * 64 + (b1 - 128).
Definition rune3 (b0 b1 b2 : Z) : Z := (b0 - 224) * 4096 + (b1 - 128) * 64 + (b2 - 128).
Definition rune4 (b0 b1 b2 b3 : Z) : Z :=
  (b0 - 240) * 262144 + (b1 - 128) * 4096 + (b2 - 128) * 64 + (b3 - 128).

(** The runes of a string, each with the bytes it was decoded from.  An invalid
    byte yields [RuneError] and consumes that one byte. *)
Fixpoint decode (s : string) : list (Z * string) :=
  match s with
  | EmptyString => []
  | String c0 s1 =>
    let b0 := byteZ c0 in
    let bad := λ _ : unit, (RuneError, String c0 "") :: decode s1 in
    if b0 <? 128 then (b0, String c0 "") :: decode s1 else
    match s1 with
    | EmptyString => bad tt
    | String c1 s2 =>
      let b1 := byteZ c1 in
      if is2 b0 b1 then (rune2 b0 b1, String c0 (String c1 "")) :: decode s2 else
      match s2 with
      | EmptyString => bad tt
      | String c2 s3 =>
        let b2 := byteZ c2 in
        if is3 b0 b1 b2
        then (rune3 b0 b1 b2, String c0 (String c1 (String c2 ""))) :: decode s3 else
        match s3 with
        | EmptyString => bad tt
        | String c3 s4 =>
          let b3 := byteZ c3 in
          if is4 b0 b1 b2 b3
          then (rune4 b0 b1 b2 b3, String c0 (String c1 (String c2 (String c3 ""))))
                 :: decode s4
          else bad tt
        end
      end
    end
  end.

(** [[]rune(s)] *)
Definition runes (s : string) : list Z := fst <$> decode s.

(** ** UTF-8 encoding *)

(** [utf8.ValidRune] *)
Definition valid_rune (r : Z) : bool :=
  ((0 <=? r) && (r <? 55296)) || ((57344 <=? r) && (r <=? 1114111)).

Definition encode_rune (r : Z) : list Z :=
  if negb (valid_rune r) then [239; 191; 189]
  else if r <? 128 then [r]
  else if r <? 2048 then [192 + r / 64; 128 + r mod 64]
  else if r <? 65536 then [224 + r / 4096; 128 + (r / 64) mod 64; 128 + r mod 64]
  else [240 + r / 262144; 128 + (r / 4096) mod 64; 128 + (r / 64) mod 64; 128 + r mod 64].

(** [string(runes)] *)
Definition of_runes (rs : list Z) : string := bytes_of (rs ≫= encode_rune).

(** [strings.Map]: runes sent to [None] (a negative result) are dropped. *)
Definition strings_Map (f : Z → option Z) (s : string) : string :=
  of_runes (omap f (runes s)).

(** ** Formatting *)

(** [%d] and [strconv.FormatInt(_, 10)] *)
Definition fmt_d (z : Z) : string := pretty z.

(** [%t] and [strconv.FormatBool] *)
Definition fmt_t (b : bool) : string := if b then "true" else "false".

Definition hex_digit (d : Z) : Ascii.ascii :=
  if d <? 10 then chr (48 + d) else chr (87 + d).

(** The [n] low-order hexadecimal digits of [z], most significant first. *)
Fixpoint hex (n : nat) (z : Z) : string :=
  match n with
  | O => ""
  | S n' => hex n' (z / 16) +:+ String (hex_digit (z mod 16)) ""
  end.

(** The runes above Latin-1 that [strconv.IsPrint] accepts: a generated table
    of Go's standard library, a parameter here. *)
Class UnicodeTables := { table_IsPrint : Z → bool }.

Section quote.
Context `{UnicodeTables}.

Definition strconv_IsPrint (r : Z) : bool :=
  if r <=? 255 then
    ((32 <=? r) && (r <? 127)) || ((161 <=? r) && negb (r =? 173))
  else table_IsPrint r.

Definition quote_rune (r : Z) : string :=
  if (r =? 34) || (r =? 92) then "\" +:+ of_runes [r]
  else if strconv_IsPrint r then of_runes [r]
  else if r =? 7 then "\a" else if r =? 8 then "\b" else if r =? 12 then "\f"
  else if r =? 10 then "\n" else if r =? 13 then "\r" else if r =? 9 then "\t"
  else if r =? 11 then "\v"
  else if (r <? 32) || (r =? 127) then "\x" +:+ hex 2 r
  else if r <? 65536 then "\u" +:+ hex 4 r
  else "\U" +:+ hex 8 r.

Definition quote_chunk (p : Z * string) : string :=
  match p with
  | (r, String c "") => if r =? RuneError then "\x" +:+ hex 2 (byteZ c) else quote_rune r
  | (r, _) => quote_rune r
  end.

(** [strconv.Quote]: the [%q] verb on a string. *)
Definition fmt_q (s : string) : string :=
  let q := String (chr 34) "" in
  q +:+ strings_Join (quote_chunk <$> decode s) "" +:+ q.
End quote.

(** ** Lemmas *)

Lemma byteZ_bound c : 0 <= byteZ c < 256.
Proof. unfold byteZ. pose proof (Ascii.N_ascii_bounded c). lia. Qed.

Lemma byteZ_chr z : 0 <= z < 256 → byteZ (chr z) = z.
Proof.
  intros Hz. unfold byteZ, chr. rewrite Ascii.N_ascii_embedding; lia.
Qed.

Lemma bytes_of_app l1 l2 : bytes_of (l1 ++ l2) = bytes_of l1 +:+ bytes_of l2.
Proof. induction l1 as [|z l1 IH]; simpl; [done|]. by rewrite IH. Qed.

Lemma of_runes_cons r rs : of_runes (r :: rs) = bytes_of (encode_rune r) +:+ of_runes rs.
Proof. unfold of_runes. simpl. by rewrite bytes_of_app. Qed.

(** Induction on strings by size, for the multi-byte steps of [decode]. *)
Lemma string_size_ind (P : string → Prop) :
  (∀ s, (∀ t, (String.length t < String.length s)%nat → P t) → P s) → ∀ s, P s.
Proof.
  intros H s. remember (String.length s) as n eqn:E. revert s E.
  induction (lt_wf n) as [n _ IH]. intros s ->. apply H. intros t Ht. by eapply IH.
Qed.

(** Case analysis along [decode]: the five shapes of its first step. *)
Ltac decode_step :=
  repeat match goal with
  | |- context [if ?b then _ else _] => let E := fresh "E" in destruct b eqn:E
  | |- context [match ?s with EmptyString => _ | String _ _ => _ end] =>
      destruct s
  end.

Lemma decode_chunks s : strings_Join (snd <$> decode s) "" = s.
Proof.
  assert (Hj : ∀ c l, strings_Join (c :: l) "" = c +:+ strings_Join l "").
  { intros c [|]; simpl; [|done]. induction c as [|a c IH]; [done|].
    change (String a c +:+ "") with (String a (c +:+ "")). by rewrite <-IH. }
  induction s as [s IH] using string_size_ind.
  destruct s as [|c0 s]; [done|]. cbn [decode].
  decode_step; rewrite ?fmap_cons, Hj; cbn [snd]; rewrite IH; simpl; done || lia.
Qed.

(** Every decoded rune is a valid one: an invalid byte decodes to the valid
    code point U+FFFD. *)
Lemma runes_valid s : Forall (λ r, valid_rune r = true) (runes s).
Proof.
  unfold runes. induction s as [s IH] using string_size_ind.
  destruct s as [|c0 s]; [constructor|].
  pose proof (byteZ_bound c0). cbn [decode].
  decode_step; rewrite fmap_cons; constructor; try (apply IH; simpl; lia);
    try done; unfold valid_rune, is2, is3, is4, second3, second4, cont,
      rune2, rune3, rune4 in *; cbn [fst]; repeat case_match; bool_prop; lia.
Qed.

(** Decoding what a valid rune encodes to yields that rune and leaves the rest
    of the string. *)
Lemma runes_encode r s :
  valid_rune r = true → runes (bytes_of (encode_rune r) +:+ s) = r :: runes s.
Proof.
  intros Hv. unfold encode_rune. rewrite Hv. simpl negb. cbv iota.
  unfold runes, valid_rune in *.
  pose proof (Z.div_mod r 64 ltac:(lia)). pose proof (Z.mod_pos_bound r 64 ltac:(lia)).
  pose proof (Z.div_mod (r / 64) 64 ltac:(lia)). pose proof (Z.mod_pos_bound (r / 64) 64 ltac:(lia)).
  pose proof (Z.div_mod (r / 4096) 64 ltac:(lia)). pose proof (Z.mod_pos_bound (r / 4096) 64 ltac:(lia)).
  assert (r / 4096 = r / 64 / 64) by (rewrite Z.div_div; [f_equal|..]; lia).
  assert (r / 262144 = r / 4096 / 64) by (rewrite Z.div_div; [f_equal|..]; lia).
  repeat case_match; simpl; rewrite !byteZ_chr by lia; simpl;
    unfold is2, is3, is4, second3, second4, cont, rune2, rune3, rune4.
  all: repeat match goal with
       | |- context [if ?b then _ else _] =>
           let E := fresh "E" in
           destruct b eqn:E; try (exfalso; repeat case_match; lia)
       end.
  all: simpl; f_equal; try lia.
Qed.

Lemma app_string_assoc s1 s2 s3 : (s1 +:+ s2) +:+ s3 = s1 +:+ (s2 +:+ s3).
Proof.
  induction s1 as [|c s1 IH]; [done|].
  change (String c ((s1 +:+ s2) +:+ s3) = String c (s1 +:+ (s2 +:+ s3))). by rewrite IH.
Qed.

(** Round trip: decoding the encoding of valid runes gives them back, and goes
    on with whatever follows. *)
Lemma runes_of_runes_app rs s :
  Forall (λ r, valid_rune r = true) rs → runes (of_runes rs +:+ s) = rs ++ runes s.
Proof.
  induction 1 as [|r rs Hr Hrs IH]; [done|].
  rewrite of_runes_cons, app_string_assoc, runes_encode by done. simpl. by rewrite IH.
Qed.

(** ** NUL-separated parts *)

Fixpoint nul_free (s : string) : bool :=
  match s with
  | EmptyString => true
  | String c s' => negb (bool_decide (c = chr 0)) && nul_free s'
  end.

Lemma nul_split a b r r' :
  nul_free a = true → nul_free b = true →
  a +:+ String (chr 0) r = b +:+ String (chr 0) r' → a = b ∧ r = r'.
Proof.
  assert (Hcons : ∀ (x : Ascii.ascii) u v, String x u +:+ v = String x (u +:+ v)) by done.
  revert b. induction a as [|c a IH]; intros [|d b]; intros Ha Hb E; rewrite ?Hcons in E; simpl in Ha, Hb.
  - by injection E.
  - injection E as <- _. by rewrite bool_decide_eq_true_2 in Hb.
  - injection E as -> _. by rewrite bool_decide_eq_true_2 in Ha.
  - injection E as -> E. bool_prop. by destruct (IH b) as [-> ->].
Qed.
