(* ===== verification/ApiTypes.v ===== *)
(** * The safety.exitguard.io/v1alpha1 API and the Kubernetes metadata it uses

    The data of [api/v1alpha1]: the string enumerations with their constants,
    the records of policies, incidents and approvals, and the fields of the
    Kubernetes metadata records (object metadata, conditions, label selectors,
    group/resource names) that the program reads or writes.  An enumeration is
    an open Go string type, so it is a [string] here and every [switch] over it
    keeps its default branch.  Slices are lists (nil and empty are not told
    apart), string maps are [gmap]s, pointers are [option]s. *)
From S2P Require Import Prelude.

(** ** Kubernetes metadata *)

Abbreviation UID := string (only parsing).

Record GroupResource := mkGR { gr_Group : string; gr_Resource : string }.

Record GroupVersionResource := mkGVR {
  gvr_Group : string; gvr_Version : string; gvr_Resource : string }.

(** [GroupResource.WithVersion] *)
Definition WithVersion (gr : GroupResource) (version : string) : GroupVersionResource :=
  mkGVR (gr_Group gr) version (gr_Resource gr).

(** [GroupVersionResource.GroupResource] *)
Definition GVR_GroupResource (gvr : GroupVersionResource) : GroupResource :=
  mkGR (gvr_Group gvr) (gvr_Resource gvr).

Record OwnerReference := mkOwnerReference {
  or_APIVersion : string; or_Kind : string; or_Name : string; or_UID : UID }.

Record ObjectMeta := mkObjectMeta {
  om_Name : string;
  om_Namespace : string;
  om_UID : UID;
  om_ResourceVersion : string;
  om_Generation : Z;
  om_CreationTimestamp : Time;
  om_DeletionTimestamp : option Time;
  om_DeletionGracePeriodSeconds : option Z;
  om_Labels : gmap string string;
  om_Annotations : gmap string string;
  om_Finalizers : list string;
  om_OwnerReferences : list OwnerReference
}.

Record LabelSelectorRequirement := mkRequirement {
  lsr_Key : string; lsr_Operator : string; lsr_Values : list string }.

Record LabelSelector := mkLabelSelector {
  ls_MatchLabels : gmap string string;
  ls_MatchExpressions : list LabelSelectorRequirement }.

Abbreviation ConditionStatus := string (only parsing).
Definition ConditionTrue : ConditionStatus := "True".
Definition ConditionFalse : ConditionStatus := "False".
Definition ConditionUnknown : ConditionStatus := "Unknown".

Record Condition := mkCondition {
  c_Type : string;
  c_Status : ConditionStatus;
  c_ObservedGeneration : Z;
  c_LastTransitionTime : Time;
  c_Reason : string;
  c_Message : string
}.

(** ** Enumerations *)

Abbreviation RiskLevel := string (only parsing).
Definition RiskNone : RiskLevel := "None".
Definition RiskLow : RiskLevel := "Low".
Definition RiskMedium : RiskLevel := "Medium".
Definition RiskHigh : RiskLevel := "High".
Definition RiskCritical : RiskLevel := "Critical".

Abbreviation IncidentPhase := string (only parsing).
Definition IncidentPhaseActive : IncidentPhase := "Active".
Definition IncidentPhaseDiagnosisFailed : IncidentPhase := "DiagnosisFailed".
Definition IncidentPhaseResolved : IncidentPhase := "Resolved".

Abbreviation FindingType := string (only parsing).
Definition FindingBlockingFinalizer : FindingType := "BlockingFinalizer".
Definition FindingRemainingResource : FindingType := "RemainingResource".
Definition FindingUnavailableAPIService : FindingType := "UnavailableAPIService".
Definition FindingDiscoveryFailure : FindingType := "DiscoveryFailure".
Definition FindingBlockingWebhook : FindingType := "BlockingWebhook".
Definition FindingMissingFinalizerController : FindingType := "MissingFinalizerController".
Definition FindingDeletionGracePeriodExceeded : FindingType := "DeletionGracePeriodExceeded".
Definition FindingResourceTypeRemoved : FindingType := "ResourceTypeRemoved".
Definition FindingPolicyDisallowsRemediation : FindingType := "PolicyDisallowsRemediation".
Definition FindingUnknown : FindingType := "Unknown".

Abbreviation RemediationActionType := string (only parsing).
Definition ActionRemoveResourceFinalizer : RemediationActionType := "RemoveResourceFinalizer".
Definition ActionRemoveCRDFinalizer : RemediationActionType := "RemoveCRDFinalizer".
Definition ActionForceFinalizeNamespace : RemediationActionType := "ForceFinalizeNamespace".

Abbreviation ApprovalPhase := string (only parsing).
Definition ApprovalPhasePending : ApprovalPhase := "Pending".
Definition ApprovalPhaseRunning : ApprovalPhase := "Running".
Definition ApprovalPhaseSucceeded : ApprovalPhase := "Succeeded".
Definition ApprovalPhaseDryRunSucceeded : ApprovalPhase := "DryRunSucceeded".
Definition ApprovalPhaseFailed : ApprovalPhase := "Failed".
Definition ApprovalPhaseExpired : ApprovalPhase := "Expired".
Definition ApprovalPhaseSuperseded : ApprovalPhase := "Superseded".

Abbreviation ApprovalResult := string (only parsing).
Definition ApprovalResultMutated : ApprovalResult := "Mutated".
Definition ApprovalResultAlreadySatisfied : ApprovalResult := "AlreadySatisfied".
Definition ApprovalResultDryRunValidated : ApprovalResult := "DryRunValidated".
Definition ApprovalResultRejectedByPolicy : ApprovalResult := "RejectedByPolicy".
Definition ApprovalResultTargetReplaced : ApprovalResult := "TargetReplaced".
Definition ApprovalResultTargetChanged : ApprovalResult := "TargetChanged".
Definition ApprovalResultAPIError : ApprovalResult := "APIError".

(** ** References, findings and actions *)

Record TargetReference := mkTargetReference {
  tr_APIGroup : string;
  tr_Version : string;
  tr_Resource : string;
  tr_Kind : string;
  tr_Namespace : string;
  tr_Name : string;
  tr_UID : UID
}.

Record ObjectIdentityReference := mkObjectIdentityReference {
  oi_Name : string; oi_UID : UID }.

Record PolicyReference := mkPolicyReference {
  pr_Name : string; pr_UID : UID; pr_Generation : Z }.

Record ControllerReference := mkControllerReference {
  cr_APIVersion : string; cr_Kind : string; cr_Namespace : string; cr_Name : string }.

Record Finding := mkFinding {
  f_ID : string;
  f_Type : FindingType;
  f_Message : string;
  f_ResourceRef : option TargetReference;
  f_Finalizer : string;
  f_APIService : string;
  f_Webhook : string;
  f_ControllerRef : option ControllerReference;
  f_Count : option Z;
  f_Truncated : bool
}.

Record TargetSnapshot := mkTargetSnapshot {
  ts_ResourceVersion : string;
  ts_MetadataFinalizers : list string;
  ts_NamespaceFinalizers : list string
}.

Record RemediationAction := mkRemediationAction {
  ra_ID : string;
  ra_Type : RemediationActionType;
  ra_Risk : RiskLevel;
  ra_Target : TargetReference;
  ra_Finalizer : string;
  ra_Eligible : bool;
  ra_IneligibleReason : string;
  ra_PreconditionResourceVersion : string;
  ra_Reason : string
}.

(** ** TerminationPolicy *)

Record TargetRule := mkTargetRule {
  APIGroups : list string;
  Resources : list string;
  NamespaceSelector : option LabelSelector;
  ObjectSelector : option LabelSelector;
  ExcludedNamespaces : list string
}.

Record DiagnosisPolicy := mkDiagnosisPolicy {
  CheckAPIServices : bool;
  CheckWebhooks : bool;
  MaxNamespaceObjects : Z;
  MaxCRDInstances : Z
}.

Record FinalizerOwner := mkFinalizerOwner {
  fo_Finalizer : string; fo_ControllerRef : ControllerReference }.

Record RemediationPolicy := mkRemediationPolicy {
  rp_MaxRisk : RiskLevel;
  rp_AllowedFinalizers : list string;
  rp_AllowNamespaceForce : bool;
  rp_ApprovalTTL : Duration
}.

Record RetentionPolicy := mkRetentionPolicy { ret_ResolvedIncidentTTL : Duration }.

Record TerminationPolicySpec := mkTerminationPolicySpec {
  tps_Priority : Z;
  tps_TargetRules : list TargetRule;
  tps_TerminationAge : Duration;
  tps_Diagnosis : DiagnosisPolicy;
  tps_FinalizerOwners : list FinalizerOwner;
  tps_Remediation : RemediationPolicy;
  tps_Retention : RetentionPolicy
}.

Record TerminationPolicyStatus := mkTerminationPolicyStatus {
  tpst_ObservedGeneration : Z;
  tpst_Conditions : list Condition;
  tpst_LastValidatedTime : option Time;
  tpst_ResolvedResourceCount : Z
}.

Record TerminationPolicy := mkTerminationPolicy {
  tp_Meta : ObjectMeta;
  tp_Spec : TerminationPolicySpec;
  tp_Status : TerminationPolicyStatus
}.

(** ** DeletionIncident *)

Record DeletionIncidentSpec := mkDeletionIncidentSpec {
  dis_Target : TargetReference; dis_FirstObservedTime : Time }.

Record DeletionIncidentStatus := mkDeletionIncidentStatus {
  di_Phase : IncidentPhase;
  di_ActivePolicyRef : option PolicyReference;
  di_DeletionTimestamp : option Time;
  di_LastObservedTime : option Time;
  di_ActionEvidenceTime : option Time;
  di_ActionEvidenceExpiresTime : option Time;
  di_ResolvedTime : option Time;
  di_ResolutionReason : string;
  di_TargetSnapshot : TargetSnapshot;
  di_Findings : list Finding;
  di_RecommendedActions : list RemediationAction;
  di_Conditions : list Condition
}.

Record DeletionIncident := mkDeletionIncident {
  inc_Meta : ObjectMeta;
  inc_Spec : DeletionIncidentSpec;
  inc_Status : DeletionIncidentStatus
}.

(** ** RemediationApproval *)

Record RemediationApprovalSpec := mkRemediationApprovalSpec {
  ras_IncidentRef : ObjectIdentityReference;
  ras_ActionID : string;
  ras_DryRun : bool;
  ras_Reason : string
}.

Record RemediationAttempt := mkRemediationAttempt {
  at_Time : Time;
  at_ActionType : RemediationActionType;
  at_DryRun : bool;
  at_ResourceVersionBefore : string;
  at_ResourceVersionAfter : string;
  at_Result : ApprovalResult;
  at_ErrorReason : string;
  at_Message : string
}.

Record RemediationApprovalStatus := mkRemediationApprovalStatus {
  st_Phase : ApprovalPhase;
  st_Result : ApprovalResult;
  st_ObservedGeneration : Z;
  st_StartedTime : option Time;
  st_CompletedTime : option Time;
  st_Action : option RemediationAction;
  st_Attempts : list RemediationAttempt;
  st_Conditions : list Condition
}.

Record RemediationApproval := mkRemediationApproval {
  ap_Meta : ObjectMeta;
  ap_Spec : RemediationApprovalSpec;
  ap_Status : RemediationApprovalStatus
}.

(** ** Decidable equality and countability *)

Global Instance GroupResource_eq_dec : EqDecision GroupResource.
Proof. solve_decision. Defined.
Global Instance GroupVersionResource_eq_dec : EqDecision GroupVersionResource.
Proof. solve_decision. Defined.
Global Instance OwnerReference_eq_dec : EqDecision OwnerReference.
Proof. solve_decision. Defined.
Global Instance LabelSelectorRequirement_eq_dec : EqDecision LabelSelectorRequirement.
Proof. solve_decision. Defined.
Global Instance LabelSelector_eq_dec : EqDecision LabelSelector.
Proof. solve_decision. Defined.
Global Instance Condition_eq_dec : EqDecision Condition.
Proof. solve_decision. Defined.
Global Instance TargetReference_eq_dec : EqDecision TargetReference.
Proof. solve_decision. Defined.
Global Instance PolicyReference_eq_dec : EqDecision PolicyReference.
Proof. solve_decision. Defined.
Global Instance ControllerReference_eq_dec : EqDecision ControllerReference.
Proof. solve_decision. Defined.
Global Instance Finding_eq_dec : EqDecision Finding.
Proof. solve_decision. Defined.
Global Instance TargetSnapshot_eq_dec : EqDecision TargetSnapshot.
Proof. solve_decision. Defined.
Global Instance RemediationAction_eq_dec : EqDecision RemediationAction.
Proof. solve_decision. Defined.
Global Instance TargetRule_eq_dec : EqDecision TargetRule.
Proof. solve_decision. Defined.
Global Instance DiagnosisPolicy_eq_dec : EqDecision DiagnosisPolicy.
Proof. solve_decision. Defined.
Global Instance FinalizerOwner_eq_dec : EqDecision FinalizerOwner.
Proof. solve_decision. Defined.
Global Instance RemediationPolicy_eq_dec : EqDecision RemediationPolicy.
Proof. solve_decision. Defined.
Global Instance RetentionPolicy_eq_dec : EqDecision RetentionPolicy.
Proof. solve_decision. Defined.
Global Instance TerminationPolicySpec_eq_dec : EqDecision TerminationPolicySpec.
Proof. solve_decision. Defined.
Global Instance TerminationPolicyStatus_eq_dec : EqDecision TerminationPolicyStatus.
Proof. solve_decision. Defined.
Global Instance DeletionIncidentStatus_eq_dec : EqDecision DeletionIncidentStatus.
Proof. solve_decision. Defined.
Global Instance RemediationAttempt_eq_dec : EqDecision RemediationAttempt.
Proof. solve_decision. Defined.
Global Instance RemediationApprovalStatus_eq_dec : EqDecision RemediationApprovalStatus.
Proof. solve_decision. Defined.

Global Program Instance GroupResource_countable : Countable GroupResource :=
  inj_countable' (λ g, (gr_Group g, gr_Resource g)) (λ '(a, b), mkGR a b) _.
Next Obligation. by intros []. Qed.
Global Program Instance ControllerReference_countable : Countable ControllerReference :=
  inj_countable' (λ c, (cr_APIVersion c, cr_Kind c, cr_Namespace c, cr_Name c))
    (λ '(a, b, c, d), mkControllerReference a b c d) _.
Next Obligation. by intros []. Qed.

(** Zero values used where the source writes [T{}]. *)
Definition zero_TargetSnapshot : TargetSnapshot := mkTargetSnapshot "" [] [].
Definition zero_Attempt : RemediationAttempt := mkRemediationAttempt 0 "" false "" "" "" "" "".
Definition zero_ApprovalStatus : RemediationApprovalStatus :=
  mkRemediationApprovalStatus "" "" 0 None None None [] [].
Definition zero_IncidentStatus : DeletionIncidentStatus :=
  mkDeletionIncidentStatus "" None None None None None None "" zero_TargetSnapshot [] [] [].
Definition zero_Meta : ObjectMeta :=
  mkObjectMeta "" "" "" "" 0 0 None None ∅ ∅ [] [].
