(* ===== verification/Schema.v ===== *)
(** * The schema of the API types

    The validation markers of [api/v1alpha1], which the API server enforces on
    every write: the closed enumerations, the bounds on lists, texts and counts, the
    keys of lists that are maps, the lists that are sets.  A status that breaks one of
    them is refused as a whole, so the programs that write statuses must stay within
    the schema whatever they read; [ExecutorSafety] and [ScanSchema] prove that they do.

    A maximal length counts characters, as the [maxLength] of a schema does.  The
    markers of metadata types (conditions) and of embedded references
    ([TargetReference], [ControllerReference], [PolicyReference]), which are copied
    from objects that were read, are not restated. *)
From S2P Require Import Prelude GoText ApiTypes.

(** ** Enumerations (the [Enum] markers of [common_types.go]) *)

Definition RiskLevels : list RiskLevel := [RiskNone; RiskLow; RiskMedium; RiskHigh; RiskCritical].
Definition IncidentPhases : list IncidentPhase :=
  [IncidentPhaseActive; IncidentPhaseDiagnosisFailed; IncidentPhaseResolved].
Definition FindingTypes : list FindingType :=
  [FindingBlockingFinalizer; FindingRemainingResource; FindingUnavailableAPIService;
   FindingDiscoveryFailure; FindingBlockingWebhook; FindingMissingFinalizerController;
   FindingDeletionGracePeriodExceeded; FindingResourceTypeRemoved;
   FindingPolicyDisallowsRemediation; FindingUnknown].
Definition RemediationActionTypes : list RemediationActionType :=
  [ActionRemoveResourceFinalizer; ActionRemoveCRDFinalizer; ActionForceFinalizeNamespace].
Definition ApprovalPhases : list ApprovalPhase :=
  [ApprovalPhasePending; ApprovalPhaseRunning; ApprovalPhaseSucceeded; ApprovalPhaseDryRunSucceeded;
   ApprovalPhaseFailed; ApprovalPhaseExpired; ApprovalPhaseSuperseded].
Definition ApprovalResults : list ApprovalResult :=
  [ApprovalResultMutated; ApprovalResultAlreadySatisfied; ApprovalResultDryRunValidated;
   ApprovalResultRejectedByPolicy; ApprovalResultTargetReplaced; ApprovalResultTargetChanged;
   ApprovalResultAPIError].

(** A value of an enumeration; an [omitempty] field may also be empty. *)
Definition inEnum (enum : list string) (v : string) : bool := bool_decide (v ∈ enum).
Definition inEnumOrEmpty (enum : list string) (v : string) : bool := bool_decide (v = "") || inEnum enum v.

(** [MaxLength]: the number of characters. *)
Definition withinLength (n : nat) (s : string) : Prop := length (runes s) ≤ n.

(** The syntax of finalizer names that the API enforces: qualified names, an optional
    DNS subdomain of at most 253 bytes, a slash, and at most 63 bytes. *)
Definition qualifiedByte (c : Ascii.ascii) : bool :=
  let b := byteZ c in
  ((48 <=? b) && (b <=? 57) || (65 <=? b) && (b <=? 90) || (97 <=? b) && (b <=? 122) ||
   (b =? 45) || (b =? 46) || (b =? 47) || (b =? 95))%Z.
Definition qualifiedName (s : string) : bool :=
  forallb qualifiedByte (String.list_ascii_of_string s) && bool_decide (String.length s ≤ 317).

(** ** Records *)

(** [RemediationAction] *)
Record ActionTyped (a : RemediationAction) : Prop := {
  acty_id : ra_ID a ≠ "";
  acty_type : inEnum RemediationActionTypes (ra_Type a) = true;
  acty_risk : inEnum RiskLevels (ra_Risk a) = true;
  acty_ineligible : withinLength 512 (ra_IneligibleReason a);
  acty_reason : withinLength 1024 (ra_Reason a)
}.

(** [RemediationAttempt] *)
Record AttemptTyped (a : RemediationAttempt) : Prop := {
  att_action : inEnum RemediationActionTypes (at_ActionType a) = true;
  att_result : inEnum ApprovalResults (at_Result a) = true;
  att_reason : withinLength 128 (at_ErrorReason a);
  att_message : withinLength 1024 (at_Message a)
}.

(** [RemediationApprovalStatus] *)
Record ApprovalStatusTyped (st : RemediationApprovalStatus) : Prop := {
  ast_phase : inEnumOrEmpty ApprovalPhases (st_Phase st) = true;
  ast_result : inEnumOrEmpty ApprovalResults (st_Result st) = true;
  ast_action a : st_Action st = Some a → ActionTyped a;
  ast_attempts : length (st_Attempts st) ≤ 20;
  ast_attempt : Forall AttemptTyped (st_Attempts st);
  ast_conditions : NoDup (c_Type <$> st_Conditions st)
}.

(** [Finding] *)
Record FindingTyped (f : Finding) : Prop := {
  fty_id : f_ID f ≠ "";
  fty_type : inEnum FindingTypes (f_Type f) = true;
  fty_message : withinLength 1024 (f_Message f);
  fty_count n : f_Count f = Some n → (0 ≤ n)%Z
}.

(** The evidence lists of an incident; a list that is a map has distinct keys. *)
Record EvidenceTyped (findings : list Finding) (actions : list RemediationAction) : Prop := {
  evt_findings : length findings ≤ 513;
  evt_finding : Forall FindingTyped findings;
  evt_distinct : NoDup (f_ID <$> findings);
  evt_actions : length actions ≤ 256;
  evt_action : Forall ActionTyped actions;
  evt_ids : NoDup (ra_ID <$> actions)
}.

(** [DeletionIncidentStatus] *)
Record IncidentStatusTyped (st : DeletionIncidentStatus) : Prop := {
  ist_phase : inEnumOrEmpty IncidentPhases (di_Phase st) = true;
  ist_reason : withinLength 512 (di_ResolutionReason st);
  ist_metadata : NoDup (ts_MetadataFinalizers (di_TargetSnapshot st));
  ist_namespace : NoDup (ts_NamespaceFinalizers (di_TargetSnapshot st));
  ist_evidence : EvidenceTyped (di_Findings st) (di_RecommendedActions st);
  ist_conditions : NoDup (c_Type <$> di_Conditions st)
}.

(** ** Lemmas *)

(** A text of few bytes has few characters. *)
Lemma length_runes s : length (runes s) ≤ String.length s.
Proof.
  unfold runes. rewrite length_fmap.
  induction s as [s IH] using string_size_ind. destruct s as [|c0 s]; [simpl; lia|]. cbn [decode].
  decode_step; cbn [length String.length];
    match goal with |- context [decode ?t] => specialize (IH t) end; simpl in *; lia.
Qed.

Lemma withinLength_bytes n s : String.length s ≤ n → withinLength n s.
Proof. unfold withinLength. pose proof (length_runes s). lia. Qed.

Lemma inEnum_or_empty enum v : inEnum enum v = true → inEnumOrEmpty enum v = true.
Proof. unfold inEnumOrEmpty. intros ->. apply orb_true_r. Qed.

Lemma enum_short v : inEnum RiskLevels v = true → String.length v ≤ 8.
Proof.
  unfold inEnum. intros Hv%bool_decide_eq_true. revert v Hv. apply Forall_forall. repeat constructor.
Qed.

Lemma length_append a b : String.length (a +:+ b) = String.length a + String.length b.
Proof. induction a as [|c a IH]; [done|]. change (S (String.length (a +:+ b)) = S (String.length a + String.length b)). by rewrite IH. Qed.

(** Quoting adds the quotation marks to a qualified name and nothing else. *)
Lemma fmt_q_qualified `{UnicodeTables} s :
  forallb qualifiedByte (String.list_ascii_of_string s) = true → String.length (fmt_q s) = String.length s + 2.
Proof.
  intros Hs. unfold fmt_q. rewrite !length_append.
  assert (Hj : String.length (strings_Join (quote_chunk <$> decode s) "") = String.length s); [|simpl; lia].
  induction s as [|c s IH]; [done|]. simpl in Hs. apply andb_true_iff in Hs as [Hc Hs]. specialize (IH Hs).
  assert (Hjoin : ∀ x l, String.length (strings_Join (x :: l) "") = String.length x + String.length (strings_Join l "")).
  { intros x [|y l]; simpl; [lia|]. by rewrite length_append. }
  unfold qualifiedByte in Hc. cbn [decode]. assert (Hb : (byteZ c <? 128)%Z = true) by (bool_prop; lia). rewrite Hb.
  rewrite fmap_cons, Hjoin, IH. cbn [String.length]. f_equal. unfold quote_chunk, quote_rune, strconv_IsPrint, RuneError.
  repeat case_match; bool_prop; try lia. unfold of_runes, encode_rune, valid_rune. simpl. repeat case_match; bool_prop; simpl; try lia.
Qed.

Lemma qualified_quote `{UnicodeTables} s : qualifiedName s = true → String.length (fmt_q s) ≤ 319.
Proof.
  unfold qualifiedName. intros [Hq Hl%bool_decide_eq_true]%andb_true_iff. rewrite fmt_q_qualified by done. lia.
Qed.
