(* ===== verification/Discovery.v ===== *)
(** * The discovery catalog (internal/discovery/catalog.go)

    Version and resource records, the snapshot with its lookup map and ordered
    list, the construction of a snapshot from a discovery answer, and the
    catalog that publishes snapshots.  The discovery client and the
    group/version parser and printer of k8s.io/apimachinery are parameters. *)
From S2P Require Import Prelude GoText ApiTypes.

(** The parts of k8s.io/apimachinery/pkg/runtime/schema the catalog calls. *)
Class SchemaOps := {
  (** [GroupResource.String] *)
  GroupResource_String : GroupResource → string;
  (** [schema.ParseGroupVersion]: an error text, or the group and the version *)
  ParseGroupVersion : string → string + (string * string)
}.

(** ** Data *)

Record Version := mkVersion {
  v_Version : string; v_Kind : string; v_Namespaced : bool; v_verbs : list string }.

Record Resource := mkResource {
  r_GroupResource : GroupResource;
  r_PreferredVersion : Version;
  r_alternates : list Version
}.

Record Snapshot := mkSnapshot {
  s_resources : gmap GroupResource Resource;
  s_ordered : list Resource
}.

Global Instance Version_eq_dec : EqDecision Version.
Proof. solve_decision. Defined.
Global Instance Resource_eq_dec : EqDecision Resource.
Proof. solve_decision. Defined.

(** What the discovery client answers (metav1.APIGroup, metav1.APIResourceList). *)
Record APIGroup := mkAPIGroup {
  ag_Name : string; ag_PreferredVersion : string; ag_Versions : list string }.

Record APIResource := mkAPIResource {
  ar_Name : string; ar_Kind : string; ar_Namespaced : bool; ar_Verbs : list string }.

Record APIResourceList := mkAPIResourceList {
  arl_GroupVersion : string; arl_APIResources : list APIResource }.

(** ** Copies *)

Definition Verbs (v : Version) : list string := [] ++ v_verbs v.

Definition cloneVersion (v : Version) : Version :=
  mkVersion (v_Version v) (v_Kind v) (v_Namespaced v) ([] ++ v_verbs v).

Definition newResourceOwned (gr : GroupResource) (preferred : Version)
    (alternates : list Version) : Resource :=
  mkResource gr preferred alternates.

Definition newResource (gr : GroupResource) (preferred : Version)
    (alternates : list Version) : Resource :=
  newResourceOwned gr (cloneVersion preferred) (cloneVersion <$> alternates).

Definition cloneResource (r : Resource) : Resource :=
  newResource (r_GroupResource r) (r_PreferredVersion r) (r_alternates r).

Definition cloneResources (rs : list Resource) : list Resource := cloneResource <$> rs.

(** ** Resource methods *)

Definition AlternateVersions (r : Resource) : list Version := [] ++ r_alternates r.

Definition Supports (r : Resource) (verb : string) : bool :=
  bool_decide (verb ∈ v_verbs (r_PreferredVersion r)).

(** The closure [appendVersion] of [OrderedVersions]. *)
Definition appendVersion (versions : list Version) (candidate : Version) : list Version :=
  if bool_decide (v_Version candidate ∈ (v_Version <$> versions))
  then versions else versions ++ [candidate].

Definition OrderedVersions (r : Resource) (requested : string) : list Version :=
  let preferred := r_PreferredVersion r in
  let versions :=
    if decide (requested ≠ "") then
      let versions :=
        if decide (v_Version preferred = requested) then appendVersion [] preferred else [] in
      foldl (λ acc alternate,
        if decide (v_Version alternate = requested) then appendVersion acc alternate else acc)
        versions (r_alternates r)
    else [] in
  foldl appendVersion (appendVersion versions preferred) (r_alternates r).

Definition EligibleForWildcard (r : Resource) : bool :=
  let gr := r_GroupResource r in
  bool_decide (gr_Resource gr ≠ "events") &&
  (bool_decide (gr_Group gr ≠ "coordination.k8s.io") || bool_decide (gr_Resource gr ≠ "leases")).

(** ** Snapshot methods *)

Definition Snapshot_Resources (s : Snapshot) : list Resource := cloneResources (s_ordered s).

Definition Resolve (s : Snapshot) (gr : GroupResource) : option Resource := s_resources s !! gr.

Definition Snapshot_Len (s : Snapshot) : nat := size (s_resources s).

Definition newSnapshot (resources : list Resource) : Snapshot :=
  let byResource :=
    foldl (λ m resource,
      let resource := cloneResource resource in
      <[r_GroupResource resource := resource]> m) ∅ resources in
  mkSnapshot byResource (cloneResources resources).

(** ** Building a snapshot from a discovery answer *)

(** The ranks of one group's versions: the preferred one first, then the others
    in the order the server lists them. *)
Definition groupRanks (group : APIGroup) : gmap string Z * Z :=
  let start :=
    if decide (ag_PreferredVersion group ≠ "")
    then (<[ag_PreferredVersion group := 0%Z]> ∅, 1%Z) else (∅, 0%Z) in
  foldl (λ '(ranks, next) version,
    match ranks !! version with
    | Some _ => (ranks, next)
    | None => (<[version := next]> ranks, (next + 1)%Z)
    end) start (ag_Versions group).

Definition discoveryPreferences (groups : list (option APIGroup)) : gmap string (gmap string Z) :=
  foldl (λ preferences og,
    match og with
    | None => preferences
    | Some group => <[ag_Name group := fst (groupRanks group)]> preferences
    end) {[ "" := {[ "v1" := 0%Z ]} ]} groups.

Definition unknownRank : Z := maxInt64.

Definition versionRank (preference : gmap string Z) (v : Version) : Z :=
  default unknownRank (preference !! v_Version v).

Definition versionLess (preference : gmap string Z) (a b : Version) : bool :=
  let left := versionRank preference a in
  let right := versionRank preference b in
  if decide (left ≠ right) then bool_decide (left < right)%Z
  else str_lt (v_Version a) (v_Version b).

Definition orderVersions (versions : list Version) (preference : gmap string Z) : list Version :=
  sort_by (versionLess preference) versions.

(** The filter on one discovered resource: no subresources, get and list. *)
Definition scanCandidate (ar : APIResource) : bool :=
  negb (strings_Contains (ar_Name ar) "/" ||
        negb (bool_decide ("get" ∈ ar_Verbs ar)) ||
        negb (bool_decide ("list" ∈ ar_Verbs ar))).

Abbreviation VersionMap := (gmap GroupResource (list Version)) (only parsing).

Definition addAPIResource (group version : string) (acc : VersionMap) (ar : APIResource) : VersionMap :=
  if scanCandidate ar then
    let gr := mkGR group (ar_Name ar) in
    <[gr := default [] (acc !! gr) ++
            [mkVersion version (ar_Kind ar) (ar_Namespaced ar) (sort_strings (ar_Verbs ar))]]> acc
  else acc.

(** The answer of [ServerGroupsAndResources]. *)
Abbreviation DiscoveryAnswer :=
  (string + (list (option APIGroup) * list (option APIResourceList)))%type (only parsing).

Section build.
Context `{SchemaOps, UnicodeTables}.

Fixpoint collectVersions (acc : VersionMap) (lists : list (option APIResourceList))
    : string + VersionMap :=
  match lists with
  | [] => inr acc
  | None :: rest => collectVersions acc rest
  | Some l :: rest =>
    match ParseGroupVersion (arl_GroupVersion l) with
    | inl err =>
        inl ("parse discovered groupVersion " +:+ fmt_q (arl_GroupVersion l) +:+ ": " +:+ err)
    | inr (group, version) =>
        collectVersions (foldl (addAPIResource group version) acc (arl_APIResources l)) rest
    end
  end.

Definition resourceLess (a b : Resource) : bool :=
  str_lt (GroupResource_String (r_GroupResource a)) (GroupResource_String (r_GroupResource b)).

(** One iteration of the loop over [versionsByResource]; [versions[0]] exists,
    as [collectVersions] only stores non-empty lists. *)
Definition resourceOf (preferences : gmap string (gmap string Z))
    (entry : GroupResource * list Version) : option Resource :=
  let '(gr, versions) := entry in
  match orderVersions versions (default ∅ (preferences !! gr_Group gr)) with
  | preferred :: alternates => Some (newResourceOwned gr preferred alternates)
  | [] => None
  end.

(** The resources in the iteration order [entries] of the map, then sorted. *)
Definition sortedResources (preferences : gmap string (gmap string Z))
    (entries : list (GroupResource * list Version)) : list Resource :=
  sort_by resourceLess (omap (resourceOf preferences) entries).

Definition buildSnapshot (groups : list (option APIGroup)) (lists : list (option APIResourceList))
    : string + Snapshot :=
  let preferences := discoveryPreferences groups in
  match collectVersions ∅ lists with
  | inl err => inl err
  | inr versionsByResource =>
      inr (newSnapshot (sortedResources preferences (map_to_list versionsByResource)))
  end.

(** ** The catalog *)

Record Catalog := mkCatalog {
  cat_interval : Duration;
  cat_snapshot : Snapshot;
  cat_lastSuccess : Time;
  cat_lastErr : option string;
  cat_refreshes_success : nat;
  cat_refreshes_error : nat;
  cat_discoveredResources : nat
}.

Definition DefaultRefreshInterval : Duration := (5 * Minute)%Z.

Definition NewCatalog (interval : Duration) : Catalog :=
  mkCatalog (if decide (interval = 0%Z) then DefaultRefreshInterval else interval)
    (mkSnapshot ∅ []) 0%Z None 0 0 0.

(** [recordError] and the error counter. *)
Definition refreshFailed (c : Catalog) (err : string) : Catalog :=
  mkCatalog (cat_interval c) (cat_snapshot c) (cat_lastSuccess c) (Some err)
    (cat_refreshes_success c) (S (cat_refreshes_error c)) (cat_discoveredResources c).

Definition publish (c : Catalog) (s : Snapshot) (now : Time) : Catalog :=
  mkCatalog (cat_interval c) s now None
    (S (cat_refreshes_success c)) (cat_refreshes_error c) (Snapshot_Len s).

(** [Refresh]: [client] is [None] for a nil client, otherwise its answer; [now]
    is the time at which the snapshot is published. *)
Definition Refresh (c : Catalog) (client : option DiscoveryAnswer) (now : Time)
    : Catalog * option string :=
  match client with
  | None => let err := "discovery client is required" in (refreshFailed c err, Some err)
  | Some (inl err) => (refreshFailed c err, Some ("discover API resources: " +:+ err))
  | Some (inr (groups, lists)) =>
    match buildSnapshot groups lists with
    | inl err => (refreshFailed c err, Some err)
    | inr snapshot => (publish c snapshot now, None)
    end
  end.

Definition Catalog_Snapshot (c : Catalog) : Snapshot :=
  newSnapshot (cloneResources (s_ordered (cat_snapshot c))).

Definition LastResult (c : Catalog) : Time * option string :=
  (cat_lastSuccess c, cat_lastErr c).

(** [Start]: the guards, then one refresh at once and one per tick until the
    context is cancelled; [ticks] are the answers the client gives. *)
Definition Start (c : Catalog) (hasClient : bool) (ticks : list (DiscoveryAnswer * Time))
    : Catalog * option string :=
  if negb hasClient then (c, Some "discovery client is required")
  else if bool_decide (cat_interval c ≤ 0)%Z
       then (c, Some "discovery refresh interval must be positive")
  else (foldl (λ c '(answer, now), fst (Refresh c (Some answer) now)) c ticks, None).
End build.

(** ** Specifications *)

(** The invariant of a published snapshot: the lookup map and the ordered list
    hold the same resources, each group/resource once, in the catalog order. *)
Record SnapshotOk `{SchemaOps} (s : Snapshot) : Prop := {
  so_resolve gr r : Resolve s gr = Some r ↔ r ∈ s_ordered s ∧ r_GroupResource r = gr;
  so_nodup : NoDup (r_GroupResource <$> s_ordered s);
  so_sorted : Sorted (le_of resourceLess) (s_ordered s)
}.

(** A discovered resource that a scan can use: not a subresource, and both gettable
    and listable. *)
Definition servable (ar : APIResource) : Prop :=
  strings_Contains (ar_Name ar) "/" = false ∧ "get" ∈ ar_Verbs ar ∧ "list" ∈ ar_Verbs ar.
Global Instance servable_dec ar : Decision (servable ar).
Proof. unfold servable. apply _. Defined.

(** Reference definition: the representations of [gr] that the discovery answer
    serves, in the order of the answer. *)
Definition servedIn `{SchemaOps} (gr : GroupResource) (ol : option APIResourceList) : list Version :=
  match ol with
  | None => []
  | Some l =>
    match ParseGroupVersion (arl_GroupVersion l) with
    | inl _ => []
    | inr (group, version) =>
        (λ ar, mkVersion version (ar_Kind ar) (ar_Namespaced ar) (sort_strings (ar_Verbs ar))) <$>
          filter (λ ar, servable ar ∧ mkGR group (ar_Name ar) = gr) (arl_APIResources l)
    end
  end.

Definition servedVersions `{SchemaOps} (lists : list (option APIResourceList)) (gr : GroupResource)
    : list Version := lists ≫= servedIn gr.

(** Reference definition: the versions of a group in the order of preference.  The
    last group of the answer with that name counts: its preferred version, then the
    others as the server lists them; a core group that is not named prefers "v1". *)
Definition preferenceOrder (groups : list (option APIGroup)) (group : string) : list string :=
  match last (filter (λ g, ag_Name g = group) (omap id groups)) with
  | Some g => (if decide (ag_PreferredVersion g = "") then [] else [ag_PreferredVersion g]) ++ ag_Versions g
  | None => if decide (group = "") then ["v1"] else []
  end.

(** [a] occurs in the list, and [b] not before it. *)
Definition precedes (order : list string) (a b : string) : Prop :=
  ∃ l1 l2, order = l1 ++ a :: l2 ∧ b ∉ l1 ∧ b ≠ a.

(** A version goes before another if the group prefers it; versions that the group
    does not name come last, by their names. *)
Definition versionBefore (order : list string) (v w : Version) : Prop :=
  precedes order (v_Version v) (v_Version w) ∨
  (v_Version v ∉ order ∧ v_Version w ∉ order ∧ str_lt (v_Version v) (v_Version w) = true).

(** The last answer from which a complete snapshot could be built. *)
Fixpoint lastComplete `{SchemaOps, UnicodeTables} (ticks : list (DiscoveryAnswer * Time))
    (acc : Snapshot * Time) : Snapshot * Time :=
  match ticks with
  | [] => acc
  | (inr (groups, lists), now) :: rest =>
      match buildSnapshot groups lists with
      | inr s => lastComplete rest (s, now)
      | inl _ => lastComplete rest acc
      end
  | (inl _, _) :: rest => lastComplete rest acc
  end.

(** ** Lemmas: copies and ordered versions *)

Lemma cloneVersion_id v : cloneVersion v = v.
Proof. by destruct v. Qed.

Lemma cloneResource_id r : cloneResource r = r.
Proof.
  destruct r as [gr p alts]. unfold cloneResource, newResource, newResourceOwned; simpl.
  rewrite cloneVersion_id. f_equal. induction alts; [done|].
  rewrite fmap_cons, cloneVersion_id. by f_equal.
Qed.

Lemma cloneResources_id rs : cloneResources rs = rs.
Proof.
  unfold cloneResources. induction rs as [|r rs IH]; [done|].
  by rewrite fmap_cons, cloneResource_id, IH.
Qed.

Lemma appendVersion_nodup l c :
  NoDup (v_Version <$> l) → NoDup (v_Version <$> appendVersion l c).
Proof.
  unfold appendVersion. case_bool_decide; [done|].
  intros. rewrite fmap_app. apply NoDup_app. split_and!; [done| |apply NoDup_singleton].
  set_solver.
Qed.

Lemma appendVersion_elem l c v : v ∈ appendVersion l c → v ∈ l ∨ v = c.
Proof. unfold appendVersion. case_bool_decide; set_solver. Qed.

Lemma appendVersion_versions l c s :
  s ∈ v_Version <$> appendVersion l c ↔ s ∈ v_Version <$> l ∨ s = v_Version c.
Proof.
  unfold appendVersion. case_bool_decide as E; [naive_solver|].
  rewrite fmap_app, elem_of_app. set_solver.
Qed.

Lemma appendVersion_head l c v : head l = Some v → head (appendVersion l c) = Some v.
Proof. unfold appendVersion. case_bool_decide; [done|]. by destruct l. Qed.

(** The conditional loop over the alternates equals the unconditional one over
    the alternates that the condition selects. *)
Lemma foldl_append_filter (Q : Version → Prop) `{!∀ v, Decision (Q v)} l cs :
  foldl (λ acc c, if decide (Q c) then appendVersion acc c else acc) l cs =
  foldl appendVersion l (filter Q cs).
Proof.
  revert l. induction cs as [|c cs IH]; intros l; simpl; [done|].
  rewrite IH, filter_cons. by destruct (decide (Q c)).
Qed.

Lemma foldl_append_nodup l cs :
  NoDup (v_Version <$> l) → NoDup (v_Version <$> foldl appendVersion l cs).
Proof. revert l. induction cs; intros l Hl; simpl; eauto using appendVersion_nodup. Qed.

Lemma foldl_append_elem l cs v : v ∈ foldl appendVersion l cs → v ∈ l ∨ v ∈ cs.
Proof.
  revert l. induction cs as [|c cs IH]; intros l; simpl; [by left|].
  intros [H|H]%IH; [|set_solver]. apply appendVersion_elem in H. set_solver.
Qed.

Lemma foldl_append_versions l cs s :
  s ∈ v_Version <$> foldl appendVersion l cs ↔ s ∈ v_Version <$> l ∨ s ∈ v_Version <$> cs.
Proof.
  revert l. induction cs as [|c cs IH]; intros l; simpl; [set_solver|].
  rewrite IH, appendVersion_versions. set_solver.
Qed.

Lemma foldl_append_head l cs v : head l = Some v → head (foldl appendVersion l cs) = Some v.
Proof. revert l. induction cs; intros l Hl; simpl; eauto using appendVersion_head. Qed.

(** The representations asked for by name, in the order [OrderedVersions] adds
    them; the whole result is one fold over them, the preferred version and the
    alternates. *)
Definition requestedVersions (r : Resource) (requested : string) : list Version :=
  if decide (requested ≠ "")
  then filter (λ v, v_Version v = requested) (r_PreferredVersion r :: r_alternates r) else [].

Lemma OrderedVersions_fold r requested :
  OrderedVersions r requested =
  foldl appendVersion [] (requestedVersions r requested ++ r_PreferredVersion r :: r_alternates r).
Proof.
  unfold OrderedVersions, requestedVersions. rewrite foldl_app. simpl.
  destruct (decide (requested ≠ "")); [|done].
  rewrite (foldl_append_filter (λ v, v_Version v = requested)), filter_cons.
  by destruct (decide (v_Version (r_PreferredVersion r) = requested)).
Qed.

(** There is always a version to try. *)
Lemma OrderedVersions_nonempty r requested : OrderedVersions r requested ≠ [].
Proof.
  rewrite OrderedVersions_fold. destruct (requestedVersions r requested) as [|v vs]; cbn [app foldl];
    intros E; [pose proof (foldl_append_head [r_PreferredVersion r] (r_alternates r) _ eq_refl) as Hh
              |pose proof (foldl_append_head [v] (vs ++ r_PreferredVersion r :: r_alternates r) _ eq_refl) as Hh];
    unfold appendVersion at 2 in E; simpl in E; by rewrite E in Hh.
Qed.

Lemma requestedVersions_sub r requested v :
  v ∈ requestedVersions r requested → v ∈ r_PreferredVersion r :: r_alternates r.
Proof.
  unfold requestedVersions. case_decide; [|set_solver].
  by intros [_ ?]%list_elem_of_filter.
Qed.

(** ** Lemmas: snapshots *)

Section snapshots.
Context `{SchemaOps, UnicodeTables}.

Lemma newSnapshot_ordered rs : s_ordered (newSnapshot rs) = rs.
Proof. simpl. apply cloneResources_id. Qed.

Lemma newSnapshot_resolve rs gr r :
  NoDup (r_GroupResource <$> rs) →
  Resolve (newSnapshot rs) gr = Some r ↔ r ∈ rs ∧ r_GroupResource r = gr.
Proof.
  intros Hnd. unfold Resolve, newSnapshot; simpl.
  rewrite (foldl_ext _ (λ m r, <[r_GroupResource r := r]> m))
    by (intros; by rewrite cloneResource_id).
  rewrite foldl_insert_lookup by (done || intros; apply lookup_empty).
  rewrite lookup_empty. naive_solver.
Qed.

Lemma newSnapshot_ok rs :
  NoDup (r_GroupResource <$> rs) → Sorted (le_of resourceLess) rs → SnapshotOk (newSnapshot rs).
Proof.
  intros Hnd Hs. split; rewrite ?newSnapshot_ordered; try done.
  intros gr r. by apply newSnapshot_resolve.
Qed.

(** Rebuilding a well-formed snapshot from its ordered list gives it back. *)
Lemma newSnapshot_id s : SnapshotOk s → newSnapshot (s_ordered s) = s.
Proof.
  intros [Hr Hnd Hs]. destruct s as [m l]; simpl in *.
  unfold newSnapshot. f_equal; [|apply cloneResources_id].
  apply map_eq. intros gr. apply option_eq. intros r.
  pose proof (newSnapshot_resolve l gr r Hnd) as H1. unfold Resolve, newSnapshot in H1; simpl in H1.
  rewrite H1. symmetry. apply Hr.
Qed.

(** *** The version map *)

Lemma scanCandidate_servable ar : scanCandidate ar = true ↔ servable ar.
Proof.
  unfold scanCandidate, servable.
  rewrite negb_true_iff, !orb_false_iff, !negb_false_iff, !bool_decide_eq_true. tauto.
Qed.

Lemma addAPIResource_lookup g v acc ar gr :
  default [] (addAPIResource g v acc ar !! gr) =
  default [] (acc !! gr) ++
  (if decide (servable ar ∧ mkGR g (ar_Name ar) = gr)
   then [mkVersion v (ar_Kind ar) (ar_Namespaced ar) (sort_strings (ar_Verbs ar))] else []).
Proof.
  pose proof (scanCandidate_servable ar) as Hs. unfold addAPIResource. destruct (scanCandidate ar).
  - rewrite lookup_insert. repeat case_decide; simplify_eq/=; try tauto; by rewrite ?app_nil_r.
  - case_decide as Hd; [|by rewrite app_nil_r]. destruct Hd as [Hd _]. by apply Hs in Hd.
Qed.

Lemma addAPIResources_lookup g v acc ars gr :
  default [] (foldl (addAPIResource g v) acc ars !! gr) =
  default [] (acc !! gr) ++
  ((λ ar, mkVersion v (ar_Kind ar) (ar_Namespaced ar) (sort_strings (ar_Verbs ar))) <$>
     filter (λ ar, servable ar ∧ mkGR g (ar_Name ar) = gr) ars).
Proof.
  revert acc. induction ars as [|ar ars IH]; intros acc; simpl; [by rewrite app_nil_r|].
  rewrite IH, addAPIResource_lookup, filter_cons, <-app_assoc.
  by case_decide.
Qed.

Lemma collectVersions_lookup acc lists m gr :
  collectVersions acc lists = inr m →
  default [] (m !! gr) = default [] (acc !! gr) ++ servedVersions lists gr.
Proof.
  revert acc. induction lists as [|[l|] lists IH]; intros acc; simpl.
  - intros [= ->]. by rewrite app_nil_r.
  - destruct (ParseGroupVersion _) as [|[g v]] eqn:E; [done|].
    intros Hm%IH. by rewrite Hm, addAPIResources_lookup, <-app_assoc.
  - apply IH.
Qed.

(** Only non-empty lists are stored. *)
Definition nonemptyMap (m : VersionMap) : Prop := ∀ gr, m !! gr ≠ Some [].

Lemma addAPIResource_nonempty g v acc ar :
  nonemptyMap acc → nonemptyMap (addAPIResource g v acc ar).
Proof.
  intros Hne gr. unfold addAPIResource. case_match; [|apply Hne].
  rewrite lookup_insert. case_decide; [|apply Hne]. by destruct (default _ _).
Qed.

Lemma collectVersions_nonempty acc lists m :
  nonemptyMap acc → collectVersions acc lists = inr m → nonemptyMap m.
Proof.
  revert acc. induction lists as [|[l|] lists IH]; intros acc Hne; simpl.
  - by intros [= <-].
  - case_match; [done|]. case_match. apply IH. generalize (arl_APIResources l) as ars. intros ars.
    revert acc Hne. induction ars; intros acc Hne; simpl; eauto using addAPIResource_nonempty.
  - by apply IH.
Qed.

Lemma collectVersions_served lists m gr :
  collectVersions ∅ lists = inr m →
  m !! gr = match servedVersions lists gr with [] => None | vs => Some vs end.
Proof.
  intros Hm. pose proof (collectVersions_nonempty _ _ _ ltac:(intros ?; by rewrite lookup_empty) Hm gr) as Hne.
  apply (collectVersions_lookup _ _ _ gr) in Hm. rewrite lookup_empty in Hm. simpl in Hm.
  destruct (m !! gr) as [vs|]; simpl in Hm; subst; [|by rewrite <-Hm].
  by destruct (servedVersions lists gr).
Qed.

(** *** The sorted resources *)

Lemma resourceOf_gr prefs e r : resourceOf prefs e = Some r → r_GroupResource r = fst e.
Proof. destruct e as [gr vs]. simpl. case_match; [done|]. by intros [= <-]. Qed.

Lemma omap_resourceOf_nodup prefs es :
  NoDup es.*1 → NoDup (r_GroupResource <$> omap (resourceOf prefs) es).
Proof.
  induction es as [|e es IH]; simpl; [constructor|].
  intros [Hx Hnd]%NoDup_cons. destruct (resourceOf prefs e) as [r|] eqn:E; [|by apply IH].
  rewrite fmap_cons. apply NoDup_cons. split; [|by apply IH].
  rewrite (resourceOf_gr _ _ _ E). intros (r' & Hr' & (e' & He' & Hin)%list_elem_of_omap)%list_elem_of_fmap.
  apply Hx. rewrite Hr', (resourceOf_gr _ _ _ Hin). by apply list_elem_of_fmap_2.
Qed.

Lemma sortedResources_nodup prefs es :
  NoDup es.*1 → NoDup (r_GroupResource <$> sortedResources prefs es).
Proof.
  intros. unfold sortedResources. rewrite sort_by_perm. by apply omap_resourceOf_nodup.
Qed.

Global Instance resourceLess_weak : StrictWeak resourceLess.
Proof. unfold resourceLess. apply (key_weak (λ r, GroupResource_String (r_GroupResource r)) str_lt). Qed.

Lemma sortedResources_elem prefs es r :
  r ∈ sortedResources prefs es ↔ ∃ e, e ∈ es ∧ resourceOf prefs e = Some r.
Proof. unfold sortedResources. by rewrite elem_of_sort_by, list_elem_of_omap. Qed.
(** *** Version preferences *)

Lemma versionLess_spec prefs a b :
  versionLess prefs a b = true ↔
  (versionRank prefs a < versionRank prefs b)%Z ∨
  (versionRank prefs a = versionRank prefs b ∧ str_lt (v_Version a) (v_Version b) = true).
Proof. unfold versionLess. case_decide; [rewrite bool_decide_eq_true|]; lia || naive_solver lia. Qed.

Global Instance versionLess_weak prefs : StrictWeak (versionLess prefs).
Proof.
  split.
  - intros x. apply not_true_iff_false. rewrite versionLess_spec, str_lt_irrefl. naive_solver lia.
  - intros x y z. rewrite !Is_true_true, !versionLess_spec. intros [?|[? Hs]]; [lia|].
    destruct (decide (versionRank prefs x = versionRank prefs y)); [|lia].
    destruct (str_lt_cotrans _ (v_Version y) _ (Is_true_true_2 _ Hs)) as [Hs'|Hs'];
      apply Is_true_true in Hs'; [left|right]; right; split; congruence || lia.
  - intros x y. rewrite <-not_true_iff_false, Is_true_true, !versionLess_spec.
    intros [?|[? Hs]] [?|[? Hs']]; try lia.
    apply Is_true_true in Hs. rewrite (str_lt_asym _ _ Hs) in Hs'. done.
Qed.

(** The head of the ordered versions has the least rank. *)
Lemma orderVersions_head vs prefs v l w :
  orderVersions vs prefs = v :: l → w ∈ vs → (versionRank prefs v ≤ versionRank prefs w)%Z.
Proof.
  intros E Hw.
  assert (Hs : StronglySorted (le_of (versionLess prefs)) (v :: l))
    by (rewrite <-E; apply sort_by_strongly_sorted, _).
  assert (Hw' : w ∈ v :: l) by (by rewrite <-E; apply elem_of_sort_by).
  apply elem_of_cons in Hw' as [->|Hw']; [done|].
  apply StronglySorted_cons in Hs as [Hall _]. rewrite Forall_forall in Hall.
  specialize (Hall w Hw'). unfold le_of, versionLess in Hall.
  case_decide; [|lia]. case_bool_decide; [done|lia].
Qed.

Definition ranksOk (preferred : string) (st : gmap string Z * Z) : Prop :=
  (1 ≤ snd st)%Z ∧ fst st !! preferred = Some 0%Z ∧
  ∀ v k, fst st !! v = Some k → (0 ≤ k < snd st)%Z ∧ (k = 0%Z → v = preferred).

(** The preferred version of a group has rank 0, and it is the only one. *)
Lemma groupRanks_ok group :
  ag_PreferredVersion group ≠ "" → ranksOk (ag_PreferredVersion group) (groupRanks group).
Proof.
  intros Hne. unfold groupRanks. rewrite decide_True by done.
  set (start := (_, _)).
  assert (Hstart : ranksOk (ag_PreferredVersion group) start).
  { split_and!; simpl; [lia|apply lookup_insert_eq|].
    intros v k [[<- <-]|[_ Hk]]%lookup_insert_Some; [|by rewrite lookup_empty in Hk]. split; [lia|done]. }
  clearbody start. revert start Hstart. generalize (ag_Versions group). intros vs.
  induction vs as [|v vs IH]; intros [ranks next] Hok; simpl; [done|].
  apply IH. destruct (ranks !! v) eqn:E; [done|]. destruct Hok as (Hn & Hp & Hr); simpl in *.
  split_and!; simpl; [lia|rewrite lookup_insert_ne; [done|congruence]|].
  intros v' k [[<- <-]|[_ Hk]]%lookup_insert_Some; [lia|].
  apply Hr in Hk. split; [lia|tauto].
Qed.

Lemma discoveryPreferences_last gs1 g gs2 :
  (∀ g', Some g' ∈ gs2 → ag_Name g' ≠ ag_Name g) →
  discoveryPreferences (gs1 ++ Some g :: gs2) !! ag_Name g = Some (fst (groupRanks g)).
Proof.
  intros Hlast. unfold discoveryPreferences. rewrite foldl_app. simpl.
  set (m := insert _ _ _).
  assert (Hm : m !! ag_Name g = Some (fst (groupRanks g))) by apply lookup_insert_eq.
  clearbody m. revert m Hm. induction gs2 as [|[g'|] gs2 IH]; intros m Hm; simpl; [done| |].
  - apply IH; [set_solver|]. rewrite lookup_insert_ne; [done|]. apply Hlast. left.
  - apply IH; [set_solver|done].
Qed.

(** *** Preference orders *)

Lemma precedes_app l l' a b : a ∈ l → b ∈ l → precedes (l ++ l') a b ↔ precedes l a b.
Proof.
  intros Ha Hb. split; intros (l1 & l2 & E & H1 & H2).
  - apply app_eq_inv in E as [(k & -> & E)|(k & -> & E)].
    + destruct k as [|x k]; simpl in E.
      { exfalso. rewrite app_nil_r in *. done. }
      injection E as -> ->. by exists l1, k.
    + exfalso. apply H1. set_solver.
  - subst l. exists l1, (l2 ++ l'). by rewrite <-app_assoc.
Qed.

Lemma precedes_new l v a : v ∉ l → a ∈ l → precedes (l ++ [v]) a v.
Proof.
  intros Hv (l1 & l2 & ->)%list_elem_of_split. exists l1, (l2 ++ [v]). rewrite <-app_assoc. split; [done|]. set_solver.
Qed.

Lemma not_precedes_new l v b : v ∉ l → b ∈ l ++ [v] → ¬ precedes (l ++ [v]) v b.
Proof.
  intros Hv Hb (l1 & l2 & E & H1 & H2). apply app_eq_inv in E as [(k & -> & E)|(k & -> & E)].
  - destruct k as [|x k]; simpl in E; [rewrite app_nil_r in *|injection E as -> _]; set_solver.
  - set_solver.
Qed.

(** The ranks [ranks], handed out up to [next], are those of the versions in [order]. *)
Record Ranked (order : list string) (ranks : gmap string Z) (next : Z) : Prop := {
  rk_named v : is_Some (ranks !! v) ↔ v ∈ order;
  rk_range v k : ranks !! v = Some k → (0 ≤ k < next)%Z;
  rk_next : (0 ≤ next ≤ Z.of_nat (length order))%Z;
  rk_order a b j k : ranks !! a = Some j → ranks !! b = Some k → (j < k)%Z ↔ precedes order a b
}.

Lemma Ranked_nil : Ranked [] ∅ 0.
Proof.
  split; [intros v|intros v k|done|intros a b j k]; rewrite lookup_empty; [|done|done].
  rewrite is_Some_alt. split; [done|by intros ?%elem_of_nil].
Qed.

Lemma Ranked_next order ranks next v :
  Ranked order ranks next →
  Ranked (order ++ [v]) (match ranks !! v with Some _ => ranks | None => <[v := next]> ranks end)
    (match ranks !! v with Some _ => next | None => next + 1 end).
Proof.
  intros [Hn Hr Hx Ho]. assert (Hin : ∀ u k, ranks !! u = Some k → u ∈ order) by (intros u k E; apply Hn; by eexists).
  destruct (ranks !! v) as [j|] eqn:Ev.
  - pose proof (Hin _ _ Ev). split; [|done|rewrite length_app; simpl; lia|].
    + intros u. rewrite Hn. set_solver.
    + intros a b ja jb Ha Hb. rewrite precedes_app by eauto. by apply Ho.
  - assert (Hv : v ∉ order) by (rewrite <-Hn, Ev; by intros [??]).
    split; [| |rewrite length_app; simpl; lia|].
    + intros u. rewrite lookup_insert_is_Some', Hn. set_solver.
    + intros u k [[<- <-]|[_ Hk%Hr]]%lookup_insert_Some; lia.
    + intros a b ja jb [[<- <-]|[Hne Ha]]%lookup_insert_Some [[<- <-]|[Hne' Hb]]%lookup_insert_Some.
      * split; [lia|]. intros Hp. exfalso. eapply (not_precedes_new order v v); [done|set_solver|done].
      * pose proof (Hr _ _ Hb). split; [lia|]. intros Hp. exfalso.
        eapply (not_precedes_new order v b); [done| |done]. apply elem_of_app. left. eauto.
      * pose proof (Hr _ _ Ha). split; [intros _; apply precedes_new; eauto|lia].
      * rewrite precedes_app by eauto. by apply Ho.
Qed.

Lemma groupRanks_ranked g :
  Ranked ((if decide (ag_PreferredVersion g = "") then [] else [ag_PreferredVersion g]) ++ ag_Versions g)
    (fst (groupRanks g)) (snd (groupRanks g)).
Proof.
  assert (Hfold : ∀ vs order st, Ranked order (fst st) (snd st) →
    let st' := foldl (λ '(ranks, next) version,
      match ranks !! version with
      | Some _ => (ranks, next)
      | None => (<[version := next]> ranks, (next + 1)%Z)
      end) st vs in Ranked (order ++ vs) (fst st') (snd st')).
  { induction vs as [|v vs IH]; intros order [ranks next] Hst; cbn [foldl]; [by rewrite app_nil_r|].
    apply (Ranked_next _ _ _ v) in Hst. rewrite (cons_middle v), (assoc_L app). apply IH. simpl in *.
    by destruct (ranks !! v). }
  unfold groupRanks. apply Hfold. destruct (decide (ag_PreferredVersion g = "")) as [->|Hp].
  - rewrite decide_False by (intros Hn; by apply Hn). apply Ranked_nil.
  - rewrite decide_True by done. exact (Ranked_next [] ∅ 0 (ag_PreferredVersion g) Ranked_nil).
Qed.

Lemma discoveryPreferences_lookup groups group :
  discoveryPreferences groups !! group =
  match last (filter (λ g, ag_Name g = group) (omap id groups)) with
  | Some g => Some (fst (groupRanks g))
  | None => if decide (group = "") then Some {[ "v1" := 0%Z ]} else None
  end.
Proof.
  unfold discoveryPreferences. induction groups as [|og groups IH] using rev_ind.
  - simpl. rewrite lookup_singleton. by repeat case_decide; simplify_eq.
  - rewrite foldl_app, omap_app. simpl. destruct og as [g|]; simpl; [|by rewrite app_nil_r].
    rewrite filter_app, lookup_insert, filter_cons, filter_nil.
    destruct (decide (ag_Name g = group)); [by rewrite last_snoc|by rewrite app_nil_r].
Qed.

(** The groups of an answer have fewer versions than the largest rank, as slices do. *)
Definition groupsFit (groups : list (option APIGroup)) : Prop :=
  ∀ g, Some g ∈ groups → (Z.of_nat (length (ag_Versions g)) < maxInt64)%Z.

Lemma preferences_ranked groups group :
  groupsFit groups → ∃ next, (next ≤ maxInt64)%Z ∧
    Ranked (preferenceOrder groups group) (default ∅ (discoveryPreferences groups !! group)) next.
Proof.
  intros Hfit. rewrite discoveryPreferences_lookup. unfold preferenceOrder.
  destruct (last _) as [g|] eqn:El.
  - exists (snd (groupRanks g)). split; [|apply groupRanks_ranked].
    apply last_Some_elem_of in El. apply list_elem_of_filter in El as [_ Hin].
    apply list_elem_of_omap in Hin as (og & Hin & Eg). simpl in Eg. subst og. specialize (Hfit g Hin).
    pose proof (rk_next _ _ _ (groupRanks_ranked g)) as Hn. rewrite length_app in Hn.
    case_decide; simpl in Hn; lia.
  - destruct (decide (group = "")) as [->|Hg]; simpl.
    + exists 1%Z. split; [done|]. exact (Ranked_next [] ∅ 0 "v1" Ranked_nil).
    + exists 0%Z. split; [done|]. apply Ranked_nil.
Qed.

Lemma versionBefore_less order ranks next v w :
  Ranked order ranks next → (next ≤ maxInt64)%Z → versionBefore order v w → versionLess ranks v w = true.
Proof.
  intros Hr Hn. assert (Hout : ∀ u, u ∉ order → ranks !! u = None).
  { intros u Hu. apply eq_None_not_Some. by rewrite (rk_named _ _ _ Hr). }
  rewrite versionLess_spec. unfold versionRank, unknownRank. intros [Hp|(Hv & Hw & Hs)].
  - left. assert (Hv : v_Version v ∈ order) by (destruct Hp as (l1 & l2 & -> & _); set_solver).
    apply (rk_named _ _ _ Hr) in Hv as [j Hj]. rewrite Hj. pose proof (rk_range _ _ _ Hr _ _ Hj). simpl.
    destruct (ranks !! v_Version w) as [k|] eqn:Ek; simpl; [|lia]. by apply (rk_order _ _ _ Hr _ _ _ _ Hj Ek).
  - right. by rewrite !Hout.
Qed.

(** In a sorted list, what goes before stands before. *)
Lemma sorted_positions {A} (R : A → A → Prop) l i j x y :
  StronglySorted R l → l !! i = Some x → l !! j = Some y → i < j → R x y.
Proof.
  intros Hs. revert i j. induction Hs as [|z l Hs IH Hall]; intros [|i] [|j] Hi Hj Hlt; simpl in *; try done; try lia.
  - injection Hi as ->. rewrite Forall_forall in Hall. apply Hall. by eapply list_elem_of_lookup_2.
  - apply (IH i j); done || lia.
Qed.

Lemma orderVersions_positions vs ranks i j v w :
  orderVersions vs ranks !! i = Some v → orderVersions vs ranks !! j = Some w → versionLess ranks v w = true → i < j.
Proof.
  intros Hi Hj Hlt. destruct (decide (i < j)) as [|Hge]; [done|exfalso].
  destruct (decide (i = j)) as [->|Hne].
  { rewrite Hi in Hj. injection Hj as ->. by rewrite less_irrefl in Hlt. }
  assert (Hle : le_of (versionLess ranks) w v); [|unfold le_of in Hle; congruence].
  eapply sorted_positions; [apply sort_by_strongly_sorted, _|exact Hj|exact Hi|lia].
Qed.

Lemma buildSnapshot_ok groups lists s :
  buildSnapshot groups lists = inr s → SnapshotOk s.
Proof.
  unfold buildSnapshot. case_match; [done|]. intros [= <-].
  apply newSnapshot_ok; [|apply sort_by_sorted, _].
  apply sortedResources_nodup, NoDup_fst_map_to_list.
Qed.

(** What a built snapshot resolves, in closed form. *)
Lemma buildSnapshot_closed groups lists s gr :
  buildSnapshot groups lists = inr s →
  Resolve s gr =
  match orderVersions (servedVersions lists gr)
          (default ∅ (discoveryPreferences groups !! gr_Group gr)) with
  | [] => None
  | preferred :: alternates => Some (mkResource gr preferred alternates)
  end.
Proof.
  unfold buildSnapshot. destruct (collectVersions ∅ lists) as [|m] eqn:Em; [done|]. intros [= <-].
  set (prefs := discoveryPreferences groups).
  assert (Hnd : NoDup (r_GroupResource <$> sortedResources prefs (map_to_list m)))
    by apply sortedResources_nodup, NoDup_fst_map_to_list.
  apply (collectVersions_served _ _ gr) in Em.
  apply option_eq. intros r. rewrite newSnapshot_resolve, sortedResources_elem by done.
  transitivity (∃ vs, m !! gr = Some vs ∧ resourceOf prefs (gr, vs) = Some r).
  { split.
    - intros [([gr' vs] & Hin%elem_of_map_to_list & Hr) <-]. exists vs.
      pose proof (resourceOf_gr _ _ _ Hr) as Hg. simpl in Hg. by rewrite Hg.
    - intros (vs & Hin%elem_of_map_to_list & Hr). split; [by eexists|].
      by apply resourceOf_gr in Hr. }
  rewrite Em. simpl. unfold newResourceOwned.
  destruct (servedVersions lists gr) as [|v vs]; [simpl; naive_solver|].
  split; [|naive_solver]. intros (vs' & [= <-] & Hr). by destruct (orderVersions _ _).
Qed.

(** *** The catalog *)

Lemma emptySnapshot_ok : SnapshotOk (mkSnapshot ∅ []).
Proof.
  split; simpl; [|constructor|constructor].
  intros gr r. unfold Resolve; simpl. rewrite lookup_empty. set_solver.
Qed.

Lemma lastComplete_ok ticks acc :
  SnapshotOk (fst acc) → SnapshotOk (fst (lastComplete ticks acc)).
Proof.
  revert acc. induction ticks as [|[[err|[gs ls]] now] ticks IH]; intros acc Hacc; simpl;
    [done|by apply IH|].
  destruct (buildSnapshot gs ls) eqn:E; apply IH; [done|]. by eapply buildSnapshot_ok.
Qed.

(** Any number of refreshes from a catalog leaves the last complete snapshot
    and its time published. *)
Lemma refreshes_lastComplete ticks c :
  let c' := foldl (λ c '(answer, now), fst (Refresh c (Some answer) now)) c ticks in
  (cat_snapshot c', cat_lastSuccess c') = lastComplete ticks (cat_snapshot c, cat_lastSuccess c).
Proof.
  cbv zeta. revert c. induction ticks as [|[[err|[gs ls]] now] ticks IH]; intros c; simpl; [done|..];
    rewrite IH; [done|by destruct (buildSnapshot gs ls)].
Qed.
End snapshots.

(** ** A concrete schema, for the witnesses

    Group/versions split at the first slash, group/resources printed as
    "resource.group". *)
Module ExampleSchema.
Fixpoint splitSlash (s : string) : string * option string :=
  match s with
  | EmptyString => ("", None)
  | String c s' =>
      if bool_decide (String c "" = "/") then ("", Some s')
      else let '(a, b) := splitSlash s' in (String c a, b)
  end.

Definition parse (s : string) : string + (string * string) :=
  match splitSlash s with
  | (v, None) => inr ("", v)
  | (g, Some v) => if strings_Contains v "/" then inl "unexpected GroupVersion string" else inr (g, v)
  end.

Definition print (gr : GroupResource) : string :=
  if decide (gr_Group gr = "") then gr_Resource gr
  else gr_Resource gr +:+ "." +:+ gr_Group gr.

#[export] Instance schema : SchemaOps :=
  {| GroupResource_String := print; ParseGroupVersion := parse |}.

#[export] Instance tables : UnicodeTables := {| table_IsPrint := λ _, true |}.

Definition podsV1 : APIResource := mkAPIResource "pods" "Pod" true ["list"; "get"; "patch"].
Definition podsStatus : APIResource := mkAPIResource "pods/status" "Pod" true ["get"; "list"].
Definition widgets (k : string) : APIResource := mkAPIResource "widgets" k true ["get"; "list"].

Definition groups : list (option APIGroup) :=
  [Some (mkAPIGroup "example.io" "v1" ["v2"; "v1"]); None].
Definition lists : list (option APIResourceList) :=
  [Some (mkAPIResourceList "v1" [podsV1; podsStatus]);
   Some (mkAPIResourceList "example.io/v2" [widgets "WidgetV2"]);
   None;
   Some (mkAPIResourceList "example.io/v1" [widgets "WidgetV1"])].

Definition widgetGR : GroupResource := mkGR "example.io" "widgets".
Definition widgetResource : Resource :=
  mkResource widgetGR (mkVersion "v1" "WidgetV1" true ["get"; "list"])
    [mkVersion "v2" "WidgetV2" true ["get"; "list"]].
Definition podGR : GroupResource := mkGR "" "pods".
Definition podResource : Resource :=
  mkResource podGR (mkVersion "v1" "Pod" true ["get"; "list"; "patch"]) [].
Definition snapshot : Snapshot := newSnapshot [podResource; widgetResource].
End ExampleSchema.

(** ** Properties *)

Section properties.
Context `{SchemaOps, UnicodeTables}.

(** C23: [OrderedVersions] returns every served representation of a resource
    exactly once, each under the version string it is served with, and starts
    with the requested version when that is served and with the preferred
    version otherwise. *)
Theorem OrderedVersions_correct r requested :
  let l := OrderedVersions r requested in
  let served := r_PreferredVersion r :: r_alternates r in
  NoDup (v_Version <$> l) ∧
  (∀ v, v ∈ l → v ∈ served) ∧
  (∀ s, s ∈ v_Version <$> l ↔ s ∈ v_Version <$> served) ∧
  (∃ v, head l = Some v ∧
     if decide (requested ≠ "" ∧ requested ∈ v_Version <$> served)
     then v_Version v = requested else v = r_PreferredVersion r).
Proof.
  cbv zeta. rewrite OrderedVersions_fold. split_and!.
  - apply foldl_append_nodup. constructor.
  - intros v [Hv|Hv]%foldl_append_elem; [by apply elem_of_nil in Hv|].
    apply elem_of_app in Hv as [Hv%requestedVersions_sub|Hv]; done.
  - intros s. rewrite foldl_append_versions, fmap_app, elem_of_app. split; [|set_solver].
    intros [Hs|[Hs|Hs]]; [by apply elem_of_nil in Hs| |done].
    apply list_elem_of_fmap in Hs as (v & -> & Hv%requestedVersions_sub).
    by apply list_elem_of_fmap_2.
  - destruct (requestedVersions r requested) as [|v vs] eqn:E.
    + exists (r_PreferredVersion r). cbn [app foldl]. split; [by apply foldl_append_head|].
      case_decide as Hs; [|done]. destruct Hs as [Hne (v & Hv & Hin)%list_elem_of_fmap].
      exfalso. apply (not_elem_of_nil v). rewrite <-E. unfold requestedVersions.
      rewrite decide_True by done. by apply list_elem_of_filter.
    + exists v. cbn [app foldl]. split; [by apply foldl_append_head|].
      assert (Hv : v ∈ requestedVersions r requested) by (rewrite E; left).
      unfold requestedVersions in Hv. case_decide; [|by apply elem_of_nil in Hv].
      apply list_elem_of_filter in Hv as [<- Hin].
      rewrite decide_True; [done|]. split; [done|]. by apply list_elem_of_fmap_2.
Qed.

(** C25: a snapshot built from a discovery answer satisfies the snapshot invariant
    (its lookup map and its ordered list hold the same resources, each
    group/resource once, sorted by printed name).  It resolves exactly the
    group/resources of which the answer serves a representation that is not a
    subresource and is both gettable and listable; the preferred and the alternate
    versions of a resource are then all its representations, and a version stands
    before another whenever the group prefers it: the group's preferred version
    first, the others in the order of the answer ("v1" for a core group without an
    entry), versions that the group does not name last, by their names. *)
Theorem buildSnapshot_correct groups lists s :
  buildSnapshot groups lists = inr s → groupsFit groups →
  SnapshotOk s ∧
  Sorted (λ a b, str_lt (GroupResource_String (r_GroupResource b)) (GroupResource_String (r_GroupResource a)) = false)
    (s_ordered s) ∧
  ∀ gr, match Resolve s gr with
    | None => servedVersions lists gr = []
    | Some r =>
        let versions := r_PreferredVersion r :: r_alternates r in
        r_GroupResource r = gr ∧ versions ≡ₚ servedVersions lists gr ∧
        ∀ i j v w, versions !! i = Some v → versions !! j = Some w →
          versionBefore (preferenceOrder groups (gr_Group gr)) v w → i < j
    end.
Proof.
  intros Hb Hfit. pose proof (buildSnapshot_ok _ _ _ Hb) as Hok. split; [done|]. split; [apply (so_sorted _ Hok)|].
  intros gr. rewrite (buildSnapshot_closed _ _ _ _ Hb).
  destruct (preferences_ranked groups (gr_Group gr) Hfit) as (next & Hn & Hr).
  revert Hr. generalize (default ∅ (discoveryPreferences groups !! gr_Group gr)). intros ranks Hr.
  pose proof (sort_by_perm (versionLess ranks) (servedVersions lists gr)) as Hp.
  pose proof (orderVersions_positions (servedVersions lists gr) ranks) as Hpos. unfold orderVersions in *.
  destruct (sort_by _ _) as [|v vs]; [by apply Permutation_nil_l in Hp|]. simpl. split_and!; [done|done|].
  intros i j x y Hi Hj Hlt. by eapply Hpos, versionBefore_less.
Qed.

(** The ordered list does not depend on the iteration order of the version
    map: with an injective group/resource printer every order of its entries
    yields the same list. *)
Theorem sortedResources_order_independent prefs es1 es2 :
  (∀ e1 e2, e1 ∈ es1 → e2 ∈ es1 →
     GroupResource_String (fst e1) = GroupResource_String (fst e2) → fst e1 = fst e2) →
  NoDup es1.*1 → es1 ≡ₚ es2 →
  sortedResources prefs es1 = sortedResources prefs es2.
Proof.
  intros Hinj Hnd Hp. apply sort_by_perm_eq; [apply _| |by rewrite Hp].
  intros x y (e1 & He1 & Hx)%list_elem_of_omap (e2 & He2 & Hy)%list_elem_of_omap Hxy Hyx.
  pose proof (str_lt_total _ _ Hxy Hyx) as Heq.
  rewrite (resourceOf_gr _ _ _ Hx), (resourceOf_gr _ _ _ Hy) in Heq.
  apply Hinj in Heq; [|done..].
  assert (e1 = e2) as ->; [|by simplify_eq].
  destruct e1 as [g v1], e2 as [g2 v2]; simpl in Heq; subst. f_equal.
  apply list_elem_of_lookup in He1 as [i Hi]. apply list_elem_of_lookup in He2 as [j Hj].
  assert (i = j) as ->; [|by simplify_eq].
  eapply NoDup_lookup; [exact Hnd|..]; rewrite list_lookup_fmap; [by rewrite Hi|by rewrite Hj].
Qed.

(** The version a group prefers is the preferred version of every resource of
    the group that serves it. *)
Theorem buildSnapshot_preferred gs1 g gs2 lists s gr r :
  buildSnapshot (gs1 ++ Some g :: gs2) lists = inr s →
  (∀ g', Some g' ∈ gs2 → ag_Name g' ≠ ag_Name g) →
  ag_Name g = gr_Group gr →
  ag_PreferredVersion g ≠ "" →
  ag_PreferredVersion g ∈ v_Version <$> servedVersions lists gr →
  Resolve s gr = Some r →
  v_Version (r_PreferredVersion r) = ag_PreferredVersion g.
Proof.
  intros Hb Hlast Hname Hne (w & Hw & Hin)%list_elem_of_fmap Hr.
  rewrite (buildSnapshot_closed _ _ _ _ Hb), <-Hname, discoveryPreferences_last in Hr by done.
  simpl in Hr. destruct (orderVersions _ _) as [|v l] eqn:E; [done|]. injection Hr as <-. simpl.
  pose proof (orderVersions_head _ _ _ _ _ E Hin) as Hle.
  destruct (groupRanks_ok g Hne) as (_ & Hp & Hok).
  unfold versionRank in Hle. rewrite <-Hw, Hp in Hle. simpl in Hle.
  destruct (fst (groupRanks g) !! v_Version v) as [k|] eqn:Ek; simpl in Hle.
  - apply Hok in Ek. apply Ek. lia.
  - unfold unknownRank, maxInt64 in Hle. lia.
Qed.

(** A catalog as its loop leaves it. *)
Lemma Start_ok interval ticks :
  (0 ≤ interval)%Z →
  let '(c, err) := Start (NewCatalog interval) true ticks in
  err = None ∧
  (cat_snapshot c, cat_lastSuccess c) = lastComplete ticks (mkSnapshot ∅ [], 0%Z) ∧
  SnapshotOk (cat_snapshot c) ∧
  Catalog_Snapshot c = cat_snapshot c.
Proof.
  intros Hi. unfold Start. simpl negb. cbv iota.
  rewrite bool_decide_eq_false_2 by (simpl; case_decide; unfold DefaultRefreshInterval, Minute, Second; lia).
  pose proof (refreshes_lastComplete ticks (NewCatalog interval)) as Hl. cbv zeta in Hl.
  set (c := foldl _ _ _) in *.
  assert (Hok : SnapshotOk (cat_snapshot c)).
  { change (cat_snapshot c) with (fst (cat_snapshot c, cat_lastSuccess c)). rewrite Hl.
    apply lastComplete_ok, emptySnapshot_ok. }
  split_and!; [done|done|done|].
  unfold Catalog_Snapshot. rewrite cloneResources_id. by apply newSnapshot_id.
Qed.

(** C34: whatever sequence of answers the discovery client gives, the catalog
    publishes exactly the snapshot of the last answer that was complete (the
    empty one before the first), with the time of that refresh; the published
    snapshot always satisfies the snapshot invariant, and the copy handed to
    readers equals it. *)
Theorem Start_publishes_last_complete interval ticks :
  (0 ≤ interval)%Z →
  let '(c, err) := Start (NewCatalog interval) true ticks in
  err = None ∧
  (cat_snapshot c, cat_lastSuccess c) = lastComplete ticks (mkSnapshot ∅ [], 0%Z) ∧
  SnapshotOk (cat_snapshot c) ∧
  Catalog_Snapshot c = cat_snapshot c.
Proof.
  apply Start_ok.
Qed.
End properties.

(** ** Witnesses *)

Section witnesses.
Import ExampleSchema.

Lemma buildSnapshot_example : buildSnapshot groups lists = inr snapshot.
Proof. vm_compute. reflexivity. Qed.

Lemma buildSnapshot_correct_witness :
  buildSnapshot groups lists = inr snapshot ∧ SnapshotOk snapshot ∧
  Resolve snapshot widgetGR = Some widgetResource ∧
  Resolve snapshot (mkGR "" "pods/status") = None ∧
  r_PreferredVersion widgetResource :: r_alternates widgetResource ≡ₚ servedVersions lists widgetGR.
Proof.
  assert (Hfit : groupsFit groups).
  { intros g Hg. apply elem_of_cons in Hg as [[= ->]|Hg]; [reflexivity|].
    apply elem_of_cons in Hg as [?|Hg]; [done|by apply elem_of_nil in Hg]. }
  destruct (buildSnapshot_correct groups lists snapshot buildSnapshot_example Hfit) as (Hok & _ & Hr).
  split; [exact buildSnapshot_example|]. split; [exact Hok|]. split; [vm_compute; reflexivity|].
  specialize (Hr widgetGR). vm_compute in Hr |- *. exact (conj eq_refl (proj1 (proj2 Hr))).
Defined.

Lemma sortedResources_order_independent_witness :
  let es := [(widgetGR, [r_PreferredVersion widgetResource]); (podGR, [r_PreferredVersion podResource])] in
  sortedResources ∅ es = sortedResources ∅ (reverse es).
Proof.
  cbv zeta. apply sortedResources_order_independent.
  - intros e1 e2 H1 H2.
    repeat (apply elem_of_cons in H1 as [->|H1]); [| |by apply elem_of_nil in H1];
      repeat (apply elem_of_cons in H2 as [->|H2]); try (by apply elem_of_nil in H2);
      vm_compute; congruence.
  - decide_now.
  - symmetry. apply reverse_Permutation.
Defined.

Lemma buildSnapshot_preferred_witness :
  v_Version (r_PreferredVersion widgetResource) = "v1".
Proof.
  apply (buildSnapshot_preferred [] (mkAPIGroup "example.io" "v1" ["v2"; "v1"]) [None]
           lists snapshot widgetGR widgetResource buildSnapshot_example).
  - intros g' H1. apply elem_of_cons in H1 as [?|H1]; [done|by apply elem_of_nil in H1].
  - reflexivity.
  - discriminate.
  - decide_now.
  - vm_compute. reflexivity.
Defined.

(** A complete answer, then a failing and a malformed one: the first stays. *)
Definition exampleTicks : list (DiscoveryAnswer * Time) :=
  [(inr (groups, lists), 10%Z); (inl "timeout", 20%Z);
   (inr (groups, [Some (mkAPIResourceList "a/b/c" [])]), 30%Z)].

Lemma Start_publishes_last_complete_witness :
  let c := fst (Start (NewCatalog 0) true exampleTicks) in
  cat_snapshot c = snapshot ∧ cat_lastSuccess c = 10%Z ∧ SnapshotOk (cat_snapshot c).
Proof.
  pose proof (Start_publishes_last_complete 0 exampleTicks ltac:(lia)) as H.
  destruct (Start (NewCatalog 0) true exampleTicks) as [c err].
  destruct H as (_ & Hl & Hok & _). simpl. rewrite surjective_pairing in Hl.
  assert (Hc : lastComplete exampleTicks (mkSnapshot ∅ [], 0%Z) = (snapshot, 10%Z))
    by (vm_compute; reflexivity).
  rewrite Hc in Hl. injection Hl as H1 H2. split; [exact H1|]. split; [exact H2|exact Hok].
Defined.
End witnesses.
