(* ===== verification/Policy.v ===== *)
(** * The policy engine (internal/policy/engine.go)

    Compilation of a TerminationPolicy against a catalog snapshot, matching,
    the choice of the winning policy, the fixed risk of an action and its
    eligibility.  A [*CompiledPolicy] that the source allows to be nil is an
    [option].  Label selectors (k8s.io/apimachinery) are a parameter. *)
From S2P Require Import Prelude GoText ApiTypes Discovery.

(** ** Parameters: label selectors and names of other packages *)

(** A compiled [labels.Selector] is used only through [Matches]. *)
Abbreviation Selector := (gmap string string → bool) (only parsing).

Class LabelOps := {
  (** [metav1.LabelSelectorAsSelector]: an error text or a selector *)
  LabelSelectorAsSelector : LabelSelector → string + Selector;
  (** [labels.Everything] *)
  Everything : Selector
}.

(** Documented: [Everything] matches all label sets. *)
Class LabelLaws `{LabelOps} : Prop := { Everything_matches l : Everything l = true }.

(** Finalizer names and the group name exported by other modules. *)
Class KubeNames := {
  (** [metav1.FinalizerDeleteDependents] *)
  FinalizerDeleteDependents : string;
  (** [apiextensionsv1.CustomResourceCleanupFinalizer] *)
  CustomResourceCleanupFinalizer : string;
  (** [apiextensionsv1.GroupName] *)
  apiextensions_GroupName : string
}.

(** ** Constants *)

Definition maxConditionMessageRunes : Z := 32768.
Definition conditionMessageTruncatedSuffix : string := "... (truncated)".
Definition ConditionReady : string := "Ready".
Definition ConditionDiscoveryResolved : string := "DiscoveryResolved".
Definition ConditionSelectorsValid : string := "SelectorsValid".

(** ** Data *)

Record Target := mkTarget {
  t_GroupResource : GroupResource;
  t_Namespaced : bool;
  t_Namespace : string;
  t_Labels : gmap string string;
  t_NamespaceLabels : gmap string string
}.

Record Settings := mkSettings {
  set_TerminationAge : Duration;
  set_Diagnosis : DiagnosisPolicy;
  set_ApprovalTTL : Duration;
  set_ResolvedIncidentTTL : Duration;
  set_MaxRisk : RiskLevel;
  set_AllowNamespaceForce : bool
}.

Record compiledRule := mkCompiledRule {
  rule_resources : gmap GroupResource Resource;
  rule_namespaceSelector : Selector;
  rule_objectSelector : Selector;
  rule_excludedNamespaces : gset string
}.

Record CompiledPolicy := mkCompiledPolicy {
  p_name : string;
  p_uid : UID;
  p_generation : Z;
  p_priority : Z;
  p_ready : bool;
  p_rules : list compiledRule;
  p_owners : gmap string ControllerReference;
  p_allowedFinalizers : gset string;
  p_settings : Settings
}.

Definition zero_Settings : Settings :=
  mkSettings 0 (mkDiagnosisPolicy false false 0 0) 0 0 "" false.

(** ** Risk *)

Definition validRisk (risk : RiskLevel) : bool :=
  bool_decide (risk = RiskNone) || bool_decide (risk = RiskLow) ||
  bool_decide (risk = RiskMedium) || bool_decide (risk = RiskHigh) ||
  bool_decide (risk = RiskCritical).

Definition riskRank (risk : RiskLevel) : Z :=
  if decide (risk = RiskNone) then 0
  else if decide (risk = RiskLow) then 1
  else if decide (risk = RiskMedium) then 2
  else if decide (risk = RiskHigh) then 3
  else if decide (risk = RiskCritical) then 4
  else -1.

Section engine.
Context `{SchemaOps, UnicodeTables, LabelOps, KubeNames}.

Definition isProtectiveFinalizer (finalizer : string) : bool :=
  bool_decide (finalizer = FinalizerDeleteDependents) ||
  bool_decide (finalizer = "kubernetes.io/pv-protection") ||
  bool_decide (finalizer = "kubernetes.io/pvc-protection") ||
  bool_decide (finalizer = CustomResourceCleanupFinalizer).

Definition RiskFor (action : RemediationActionType) (finalizer : string) : RiskLevel :=
  if decide (action = ActionForceFinalizeNamespace) then RiskCritical
  else if decide (action = ActionRemoveCRDFinalizer) then RiskHigh
  else if decide (action = ActionRemoveResourceFinalizer) then
    (if isProtectiveFinalizer finalizer then RiskHigh else RiskMedium)
  else RiskNone.

(** ** Status conditions *)

Definition truncateConditionMessage (message : string) : string :=
  let rs := runes message in
  if decide (Z.of_nat (length rs) ≤ maxConditionMessageRunes)%Z then message
  else
    let suffix := runes conditionMessageTruncatedSuffix in
    of_runes (take (Z.to_nat (maxConditionMessageRunes - Z.of_nat (length suffix))) rs) +:+
      conditionMessageTruncatedSuffix.

Definition condition (conditionType : string) (generation : Z) (transitionTime : Time)
    (valid : bool) (validReason invalidReason : string) (problems : list string) : Condition :=
  if valid
  then mkCondition conditionType ConditionTrue generation transitionTime validReason validReason
  else mkCondition conditionType ConditionFalse generation transitionTime invalidReason
         (truncateConditionMessage (strings_Join problems "; ")).

Definition noErrors (errs : list string) : bool := bool_decide (length errs = 0).

Definition validationStatus (generation : Z) (now : Time)
    (selectorErrors resolutionErrors configurationErrors : list string) (resolved : nat)
    : TerminationPolicyStatus :=
  let selectorCondition :=
    condition ConditionSelectorsValid generation now (noErrors selectorErrors)
      "ValidSelectors" "InvalidSelectors" selectorErrors in
  let discoveryCondition :=
    condition ConditionDiscoveryResolved generation now (noErrors resolutionErrors)
      "ResourcesResolved" "ResourcesUnresolved" resolutionErrors in
  let readyErrors := (([] ++ selectorErrors) ++ resolutionErrors) ++ configurationErrors in
  let readyCondition :=
    condition ConditionReady generation now (noErrors readyErrors)
      "Compiled" "InvalidPolicy" readyErrors in
  mkTerminationPolicyStatus generation
    [readyCondition; discoveryCondition; selectorCondition]
    (Some now) (int32 (Z.of_nat resolved)).

(** ** Rules *)

Definition matchesToken (tokens : list string) (value : string) : bool :=
  bool_decide ("*" ∈ tokens) || bool_decide (value ∈ tokens).

Definition withoutWildcard (values : list string) : list string :=
  filter (λ value, value ≠ "*") values.

Definition formatSelection (index : nat) (group resource : string) : string :=
  let group := if decide (group = "") then "core" else group in
  "rule " +:+ fmt_d (Z.of_nat index) +:+ ": unresolved resource " +:+ group +:+ "/" +:+ resource.

Definition compileRuleSelectors (rule : TargetRule) : compiledRule * list string :=
  let excluded := foldl (λ m namespace, {[ namespace ]} ∪ m) ∅ (ExcludedNamespaces rule) in
  let '(nsSelector, errs) :=
    match NamespaceSelector rule with
    | None => (Everything, [])
    | Some ls =>
      match LabelSelectorAsSelector ls with
      | inl err => (Everything, ["namespaceSelector: " +:+ err])
      | inr selector => (selector, [])
      end
    end in
  let '(objSelector, errs) :=
    match ObjectSelector rule with
    | None => (Everything, errs)
    | Some ls =>
      match LabelSelectorAsSelector ls with
      | inl err => (Everything, errs ++ ["objectSelector: " +:+ err])
      | inr selector => (selector, errs)
      end
    end in
  (mkCompiledRule ∅ nsSelector objSelector excluded, errs).

(** The test of [resolveRule] on one catalog resource. *)
Definition ruleSelects (rule : TargetRule) (resource : Resource) : bool :=
  if negb (matchesToken (APIGroups rule) (gr_Group (r_GroupResource resource))) ||
     negb (matchesToken (Resources rule) (gr_Resource (r_GroupResource resource))) then false
  else if bool_decide ("*" ∈ Resources rule) && negb (EligibleForWildcard resource) then false
  else true.

Definition resolveRule (rule : TargetRule) (resources : list Resource) : list Resource :=
  filter (λ r, ruleSelects rule r = true) resources.

Definition unresolvedSelections (index : nat) (rule : TargetRule) (catalog : Snapshot)
    (resources : list Resource) : list string :=
  let exactGroups := withoutWildcard (APIGroups rule) in
  let exactResources := withoutWildcard (Resources rule) in
  let groupWildcard := bool_decide ("*" ∈ APIGroups rule) in
  let resourceWildcard := bool_decide ("*" ∈ Resources rule) in
  (exactGroups ≫= λ group, exactResources ≫= λ resource,
     match Resolve catalog (mkGR group resource) with
     | Some _ => []
     | None => [formatSelection index group resource]
     end) ++
  (if groupWildcard then
     exactResources ≫= λ resource,
       if existsb (λ c, bool_decide (gr_Resource (r_GroupResource c) = resource)) resources
       then [] else [formatSelection index "*" resource]
   else []) ++
  (if resourceWildcard then
     (exactGroups ≫= λ group,
        if existsb (λ c, bool_decide (gr_Group (r_GroupResource c) = group) && EligibleForWildcard c)
             resources
        then [] else [formatSelection index group "*"]) ++
     (if groupWildcard && negb (existsb EligibleForWildcard resources)
      then [formatSelection index "*" "*"] else [])
   else []).

(** ** Configuration checks *)

Definition guardMsg (bad : bool) (msg : string) : list string := if bad then [msg] else [].

Definition inexactKey (key : string) : bool :=
  bool_decide (key = "") || strings_Contains key "*".

Definition validateConfiguration (spec : TerminationPolicySpec) : list string :=
  sort_strings (
    guardMsg (bool_decide (length (tps_TargetRules spec) = 0)) "at least one target rule is required" ++
    concat (imap (λ index rule,
      guardMsg (bool_decide (length (APIGroups rule) = 0))
        ("rule " +:+ fmt_d (Z.of_nat index) +:+ " has no API groups") ++
      guardMsg (bool_decide (length (Resources rule) = 0))
        ("rule " +:+ fmt_d (Z.of_nat index) +:+ " has no resources")) (tps_TargetRules spec)) ++
    guardMsg (bool_decide (tps_TerminationAge spec ≤ 0)%Z) "terminationAge must be positive" ++
    guardMsg (bool_decide (rp_ApprovalTTL (tps_Remediation spec) ≤ 0)%Z) "approvalTTL must be positive" ++
    guardMsg (bool_decide (ret_ResolvedIncidentTTL (tps_Retention spec) ≤ 0)%Z)
      "resolvedIncidentTTL must be positive" ++
    guardMsg (bool_decide (MaxNamespaceObjects (tps_Diagnosis spec) < 1)%Z ||
              bool_decide (100000 < MaxNamespaceObjects (tps_Diagnosis spec))%Z)
      "maxNamespaceObjects must be between 1 and 100000" ++
    guardMsg (bool_decide (MaxCRDInstances (tps_Diagnosis spec) < 1)%Z ||
              bool_decide (100000 < MaxCRDInstances (tps_Diagnosis spec))%Z)
      "maxCRDInstances must be between 1 and 100000" ++
    guardMsg (negb (validRisk (rp_MaxRisk (tps_Remediation spec))))
      ("unknown maxRisk " +:+ fmt_q (rp_MaxRisk (tps_Remediation spec))) ++
    (tps_FinalizerOwners spec ≫= λ owner,
      guardMsg (inexactKey (fo_Finalizer owner))
        ("finalizer owner " +:+ fmt_q (fo_Finalizer owner) +:+ " must be an exact non-empty key")) ++
    (rp_AllowedFinalizers (tps_Remediation spec) ≫= λ finalizer,
      guardMsg (inexactKey finalizer)
        ("allowed finalizer " +:+ fmt_q finalizer +:+ " must be an exact non-empty key"))).

(** ** Compile *)

(** What one iteration of the loop over the target rules contributes: the
    compiled rule, its selector errors and its unresolved selections. *)
Definition compileRule (catalog : Snapshot) (catalogResources : list Resource)
    (index : nat) (rule : TargetRule) : compiledRule * list string * list string :=
  let '(compiled, selectorErrs) := compileRuleSelectors rule in
  let resources :=
    foldl (λ m resource, <[r_GroupResource resource := resource]> m) (rule_resources compiled)
      (resolveRule rule catalogResources) in
  (mkCompiledRule resources (rule_namespaceSelector compiled) (rule_objectSelector compiled)
     (rule_excludedNamespaces compiled),
   (λ err, "rule " +:+ fmt_d (Z.of_nat index) +:+ ": " +:+ err) <$> selectorErrs,
   unresolvedSelections index rule catalog catalogResources).

Definition settingsOf (spec : TerminationPolicySpec) : Settings :=
  mkSettings (tps_TerminationAge spec) (tps_Diagnosis spec)
    (rp_ApprovalTTL (tps_Remediation spec)) (ret_ResolvedIncidentTTL (tps_Retention spec))
    (rp_MaxRisk (tps_Remediation spec)) (rp_AllowNamespaceForce (tps_Remediation spec)).

Definition Compile (source : option TerminationPolicy) (catalog : Snapshot) (now : Time)
    : CompiledPolicy * TerminationPolicyStatus :=
  match source with
  | None =>
      (mkCompiledPolicy "" "" 0 0 false [] ∅ ∅ zero_Settings,
       validationStatus 0 now [] [] ["policy is nil"] 0)
  | Some source =>
    let spec := tp_Spec source in
    let owners := foldl (λ m owner, <[fo_Finalizer owner := fo_ControllerRef owner]> m) ∅
                    (tps_FinalizerOwners spec) in
    let allowed := foldl (λ m finalizer, {[ finalizer ]} ∪ m) ∅
                     (rp_AllowedFinalizers (tps_Remediation spec)) in
    let catalogResources := Snapshot_Resources catalog in
    let compiled := imap (compileRule catalog catalogResources) (tps_TargetRules spec) in
    let rules := (λ c, c.1.1) <$> compiled in
    let selectorErrors := compiled ≫= λ c, c.1.2 in
    let resolutionErrors := compiled ≫= λ c, c.2 in
    let resolved : gset GroupResource :=
      foldl (λ m rule, dom (rule_resources rule) ∪ m) ∅ rules in
    let configurationErrors := validateConfiguration spec in
    let ready := noErrors selectorErrors && noErrors resolutionErrors &&
                 noErrors configurationErrors in
    (mkCompiledPolicy (om_Name (tp_Meta source)) (om_UID (tp_Meta source))
       (om_Generation (tp_Meta source)) (tps_Priority spec) ready rules owners allowed
       (settingsOf spec),
     validationStatus (om_Generation (tp_Meta source)) now selectorErrors resolutionErrors
       configurationErrors (size resolved))
  end.

(** ** Methods of CompiledPolicy *)

Definition Ready (p : option CompiledPolicy) : bool :=
  match p with None => false | Some p => p_ready p end.

Definition Policy_Settings (p : option CompiledPolicy) : Settings :=
  match p with None => zero_Settings | Some p => p_settings p end.

(** [ResolvedGroupResources]: the union of the rules' resources, sorted.
    [unionGroupResources] is the map it ranges over. *)
Definition unionGroupResources (p : CompiledPolicy) : gset GroupResource :=
  foldl (λ m rule, dom (rule_resources rule) ∪ m) ∅ (p_rules p).

Definition groupResourceLess (a b : GroupResource) : bool :=
  str_lt (GroupResource_String a) (GroupResource_String b).

Definition ResolvedGroupResources (p : option CompiledPolicy) : list GroupResource :=
  match p with
  | Some p' =>
      if negb (Ready p) then [] else sort_by groupResourceLess (elements (unionGroupResources p'))
  | None => []
  end.

Definition FinalizerOwner_ (p : option CompiledPolicy) (finalizer : string)
    : option ControllerReference :=
  match p with None => None | Some p => p_owners p !! finalizer end.

Definition ownerKey (o : ControllerReference) : string :=
  cr_Kind o +:+ "/" +:+ cr_Namespace o +:+ "/" +:+ cr_Name o.

Definition FinalizerOwners (p : option CompiledPolicy) : list ControllerReference :=
  match p with
  | None => []
  | Some p =>
      let unique : gset ControllerReference := list_to_set (map_to_list (p_owners p)).*2 in
      sort_by (λ a b, str_lt (ownerKey a) (ownerKey b)) (elements unique)
  end.

Definition FinalizerAllowed (p : option CompiledPolicy) (finalizer : string) : bool :=
  match p with None => false | Some p => bool_decide (finalizer ∈ p_allowedFinalizers p) end.

(** The body of the loop of [Match] for one rule. *)
Definition ruleMatches (target : Target) (rule : compiledRule) : bool :=
  match rule_resources rule !! t_GroupResource target with
  | None => false
  | Some resource =>
    if negb (Bool.eqb (v_Namespaced (r_PreferredVersion resource)) (t_Namespaced target)) then false
    else if negb (rule_objectSelector rule (t_Labels target)) then false
    else if t_Namespaced target then
      (if bool_decide (t_Namespace target ∈ rule_excludedNamespaces rule) then false
       else rule_namespaceSelector rule (t_NamespaceLabels target))
    else true
  end.

Definition Match (p : option CompiledPolicy) (target : Target) : bool :=
  match p with
  | Some p' => if negb (Ready p) then false else existsb (ruleMatches target) (p_rules p')
  | None => false
  end.

(** The body of the loop of [SelectWinning]. *)
Definition selectStep (target : Target) (winner candidate : option CompiledPolicy)
    : option CompiledPolicy :=
  match candidate with
  | None => winner
  | Some c =>
    if negb (Match candidate target) then winner
    else match winner with
         | None => candidate
         | Some w =>
           if bool_decide (p_priority w < p_priority c)%Z ||
              (bool_decide (p_priority c = p_priority w) && str_lt (p_name c) (p_name w))
           then candidate else winner
         end
  end.

Definition SelectWinning (policies : list (option CompiledPolicy)) (target : Target)
    : option CompiledPolicy := foldl (selectStep target) None policies.

Definition ActionEligibility (p : option CompiledPolicy) (action : RemediationActionType)
    (finalizer : string) : bool * string :=
  if negb (Ready p) then (false, "active policy is not ready")
  else if bool_decide (action = ActionForceFinalizeNamespace) &&
          negb (set_AllowNamespaceForce (Policy_Settings p))
  then (false, "policy does not allow namespace force-finalization")
  else if (bool_decide (action = ActionRemoveResourceFinalizer) ||
           bool_decide (action = ActionRemoveCRDFinalizer)) &&
          negb (FinalizerAllowed p finalizer)
  then (false, "finalizer is not in policy allowedFinalizers")
  else
    let risk := RiskFor action finalizer in
    if decide (risk = RiskNone) then (false, "action type is not supported")
    else if bool_decide (riskRank (set_MaxRisk (Policy_Settings p)) < riskRank risk)%Z
    then (false, "action risk " +:+ risk +:+ " exceeds policy maxRisk " +:+
                 set_MaxRisk (Policy_Settings p))
    else (true, "").
End engine.

Global Arguments Match : simpl never.
Global Arguments ActionEligibility : simpl never.
Global Arguments RiskFor : simpl never.
Global Arguments riskRank : simpl never.

(** ** Specifications

    What the engine promises, in terms of the source policy. *)
Section specs.
Context `{SchemaOps, UnicodeTables, LabelOps, KubeNames}.

(** A selector field that compiles, and what it selects. *)
Definition selectorValid (ols : option LabelSelector) : Prop :=
  match ols with None => True | Some ls => is_Some (
    match LabelSelectorAsSelector ls with inl _ => None | inr s => Some s end) end.

Definition selectorMatches (ols : option LabelSelector) (l : gmap string string) : Prop :=
  match ols with
  | None => True
  | Some ls => ∃ s, LabelSelectorAsSelector ls = inr s ∧ s l = true
  end.

(** What a wildcard never selects: events and leases. *)
Definition wildcardExcluded (gr : GroupResource) : Prop :=
  gr_Resource gr = "events" ∨ (gr_Group gr = "coordination.k8s.io" ∧ gr_Resource gr = "leases").

(** The resources that a rule names, by group and by resource, each exactly or with
    a wildcard; a wildcard for resources leaves out the excluded ones, even those
    that the rule also names. *)
Definition ruleNames (rule : TargetRule) (gr : GroupResource) : Prop :=
  ("*" ∈ APIGroups rule ∨ gr_Group gr ∈ APIGroups rule) ∧
  ("*" ∈ Resources rule ∧ ¬ wildcardExcluded gr ∨ "*" ∉ Resources rule ∧ gr_Resource gr ∈ Resources rule).

(** Every selection of a rule names something the catalog serves. *)
Definition selectionsResolve (catalog : Snapshot) (rule : TargetRule) : Prop :=
  (∀ g r, g ∈ APIGroups rule → r ∈ Resources rule → g ≠ "*" → r ≠ "*" →
     is_Some (Resolve catalog (mkGR g r))) ∧
  ("*" ∈ APIGroups rule → ∀ r, r ∈ Resources rule → r ≠ "*" →
     ∃ c, c ∈ s_ordered catalog ∧ gr_Resource (r_GroupResource c) = r) ∧
  ("*" ∈ Resources rule → ∀ g, g ∈ APIGroups rule → g ≠ "*" →
     ∃ c, c ∈ s_ordered catalog ∧ gr_Group (r_GroupResource c) = g ∧ ¬ wildcardExcluded (r_GroupResource c)) ∧
  ("*" ∈ Resources rule → "*" ∈ APIGroups rule →
     ∃ c, c ∈ s_ordered catalog ∧ ¬ wildcardExcluded (r_GroupResource c)).

Definition exactKey (key : string) : Prop := key ≠ "" ∧ strings_Contains key "*" = false.

(** The bounds a usable specification keeps. *)
Record specValid (spec : TerminationPolicySpec) : Prop := {
  sv_rules : tps_TargetRules spec ≠ [];
  sv_rule rule : rule ∈ tps_TargetRules spec → APIGroups rule ≠ [] ∧ Resources rule ≠ [];
  sv_age : (0 < tps_TerminationAge spec)%Z;
  sv_ttl : (0 < rp_ApprovalTTL (tps_Remediation spec))%Z;
  sv_retention : (0 < ret_ResolvedIncidentTTL (tps_Retention spec))%Z;
  sv_objects : (1 ≤ MaxNamespaceObjects (tps_Diagnosis spec) ≤ 100000)%Z;
  sv_instances : (1 ≤ MaxCRDInstances (tps_Diagnosis spec) ≤ 100000)%Z;
  sv_risk : rp_MaxRisk (tps_Remediation spec) ∈
              [RiskNone; RiskLow; RiskMedium; RiskHigh; RiskCritical];
  sv_owners owner : owner ∈ tps_FinalizerOwners spec → exactKey (fo_Finalizer owner);
  sv_allowed f : f ∈ rp_AllowedFinalizers (tps_Remediation spec) → exactKey f
}.

(** The rule of the source policy that selects a target. *)
Definition ruleAccepts (catalog : Snapshot) (rule : TargetRule) (target : Target) : Prop :=
  ∃ r, Resolve catalog (t_GroupResource target) = Some r ∧
       ruleNames rule (t_GroupResource target) ∧
       v_Namespaced (r_PreferredVersion r) = t_Namespaced target ∧
       selectorMatches (ObjectSelector rule) (t_Labels target) ∧
       (t_Namespaced target = true →
          t_Namespace target ∉ ExcludedNamespaces rule ∧
          selectorMatches (NamespaceSelector rule) (t_NamespaceLabels target)).

(** The order in which policies win. *)
Definition outranks (c w : CompiledPolicy) : Prop :=
  (p_priority w < p_priority c)%Z ∨
  (p_priority c = p_priority w ∧ str_lt (p_name c) (p_name w) = true).

(** *** Lemmas: configuration and selectors *)

Lemma noErrors_true errs : noErrors errs = true ↔ errs = [].
Proof. unfold noErrors. rewrite bool_decide_eq_true. by destruct errs. Qed.

Lemma guardMsg_nil b msg : guardMsg b msg = [] ↔ b = false.
Proof. by destruct b. Qed.

Lemma inexactKey_false key : inexactKey key = false ↔ exactKey key.
Proof. unfold inexactKey, exactKey. rewrite orb_false_iff, bool_decide_eq_false. done. Qed.

Lemma validRisk_true risk :
  validRisk risk = true ↔ risk ∈ [RiskNone; RiskLow; RiskMedium; RiskHigh; RiskCritical].
Proof.
  unfold validRisk. rewrite !orb_true_iff, !bool_decide_eq_true, !elem_of_cons, elem_of_nil. tauto.
Qed.

Lemma validateConfiguration_nil spec : validateConfiguration spec = [] ↔ specValid spec.
Proof.
  unfold validateConfiguration.
  rewrite sort_strings_nil, !app_nil, !guardMsg_nil, concat_nil_iff, !bind_nil_iff,
    !orb_false_iff, !bool_decide_eq_false, negb_false_iff, validRisk_true, length_zero_iff_nil.
  setoid_rewrite guardMsg_nil. setoid_rewrite inexactKey_false.
  assert (Hr : (∀ l, l ∈ imap (λ index rule,
      guardMsg (bool_decide (length (APIGroups rule) = 0))
        ("rule " +:+ fmt_d (Z.of_nat index) +:+ " has no API groups") ++
      guardMsg (bool_decide (length (Resources rule) = 0))
        ("rule " +:+ fmt_d (Z.of_nat index) +:+ " has no resources")) (tps_TargetRules spec) → l = [])
    ↔ ∀ rule, rule ∈ tps_TargetRules spec → APIGroups rule ≠ [] ∧ Resources rule ≠ []).
  { setoid_rewrite elem_of_imap_iff. setoid_rewrite list_elem_of_lookup. split.
    - intros Hl rule [i Hi]. specialize (Hl _ (ex_intro _ i (ex_intro _ rule (conj Hi eq_refl)))).
      rewrite app_nil, !guardMsg_nil, !bool_decide_eq_false, !length_zero_iff_nil in Hl. done.
    - intros Hl l (i & rule & Hi & ->).
      rewrite app_nil, !guardMsg_nil, !bool_decide_eq_false, !length_zero_iff_nil.
      apply Hl. by exists i. }
  rewrite Hr. split.
  - intros (? & ? & ? & ? & ? & [? ?] & [? ?] & ? & ? & ?). by split; auto; lia.
  - intros []. split_and!; auto; lia.
Qed.

Lemma compileRuleSelectors_errs rule :
  snd (compileRuleSelectors rule) = [] ↔
  selectorValid (NamespaceSelector rule) ∧ selectorValid (ObjectSelector rule).
Proof.
  unfold compileRuleSelectors, selectorValid.
  destruct (NamespaceSelector rule) as [ls|], (ObjectSelector rule) as [ls'|]; simpl;
    repeat (destruct (LabelSelectorAsSelector _); simpl);
    rewrite ?is_Some_alt; naive_solver.
Qed.

Lemma compileRuleSelectors_resources rule : rule_resources (fst (compileRuleSelectors rule)) = ∅.
Proof. unfold compileRuleSelectors. by repeat case_match. Qed.

Lemma compileRuleSelectors_excluded rule ns :
  ns ∈ rule_excludedNamespaces (fst (compileRuleSelectors rule)) ↔ ns ∈ ExcludedNamespaces rule.
Proof.
  unfold compileRuleSelectors. repeat case_match; simpl; rewrite elem_of_foldl_add; set_solver.
Qed.

Context `{!LabelLaws}.

(** A selector that compiled selects what the source selector does. *)
Lemma compileRuleSelectors_object rule l :
  selectorValid (ObjectSelector rule) →
  rule_objectSelector (fst (compileRuleSelectors rule)) l = true ↔
  selectorMatches (ObjectSelector rule) l.
Proof.
  unfold compileRuleSelectors, selectorValid, selectorMatches.
  intros Hv. destruct (NamespaceSelector rule) as [ls|], (ObjectSelector rule) as [ls'|]; simpl;
    repeat (destruct (LabelSelectorAsSelector _); simpl);
    rewrite ?Everything_matches; destruct Hv || idtac; naive_solver.
Qed.

Lemma compileRuleSelectors_namespace rule l :
  selectorValid (NamespaceSelector rule) →
  rule_namespaceSelector (fst (compileRuleSelectors rule)) l = true ↔
  selectorMatches (NamespaceSelector rule) l.
Proof.
  unfold compileRuleSelectors, selectorValid, selectorMatches.
  intros Hv. destruct (NamespaceSelector rule) as [ls|], (ObjectSelector rule) as [ls'|]; simpl;
    repeat (destruct (LabelSelectorAsSelector _); simpl);
    rewrite ?Everything_matches; destruct Hv || idtac; naive_solver.
Qed.

(** *** Lemmas: rules *)

Lemma EligibleForWildcard_true r : EligibleForWildcard r = true ↔ ¬ wildcardExcluded (r_GroupResource r).
Proof.
  unfold EligibleForWildcard, wildcardExcluded. cbv zeta. rewrite andb_true_iff, orb_true_iff, !bool_decide_eq_true.
  destruct (decide (gr_Group (r_GroupResource r) = "coordination.k8s.io")); tauto.
Qed.

Lemma matchesToken_true tokens value : matchesToken tokens value = true ↔ "*" ∈ tokens ∨ value ∈ tokens.
Proof. unfold matchesToken. by rewrite orb_true_iff, !bool_decide_eq_true. Qed.

Lemma ruleSelects_true rule r : ruleSelects rule r = true ↔ ruleNames rule (r_GroupResource r).
Proof.
  pose proof (EligibleForWildcard_true r) as He.
  pose proof (matchesToken_true (APIGroups rule) (gr_Group (r_GroupResource r))) as Hg.
  pose proof (matchesToken_true (Resources rule) (gr_Resource (r_GroupResource r))) as Hr.
  unfold ruleSelects, ruleNames.
  destruct (decide ("*" ∈ Resources rule)) as [Hw|Hw];
    [rewrite (bool_decide_eq_true_2 _ Hw)|rewrite (bool_decide_eq_false_2 _ Hw)];
    destruct (matchesToken (APIGroups rule) _), (matchesToken (Resources rule) _), (EligibleForWildcard r);
    simpl; intuition discriminate.
Qed.

Lemma elem_of_withoutWildcard v l : v ∈ withoutWildcard l ↔ v ∈ l ∧ v ≠ "*".
Proof. unfold withoutWildcard. rewrite list_elem_of_filter. tauto. Qed.

Lemma unresolvedSelections_nil index rule catalog :
  unresolvedSelections index rule catalog (s_ordered catalog) = [] ↔
  selectionsResolve catalog rule.
Proof using.
  unfold unresolvedSelections, selectionsResolve. repeat setoid_rewrite <-EligibleForWildcard_true.
  assert (Hif : ∀ (b : bool) (l : list string), (if b then l else []) = [] ↔ (b = true → l = []))
    by (intros [] ?; naive_solver).
  assert (Hneg : ∀ (b : bool) (m : string), (if b then [] else [m]) = [] ↔ b = true)
    by (intros [] ?; naive_solver).
  assert (Hpos : ∀ (b : bool) (m : string), (if b then [m] else []) = [] ↔ b = false)
    by (intros [] ?; naive_solver).
  rewrite !app_nil, !Hif, !bool_decide_eq_true, app_nil, bind_nil_iff.
  repeat setoid_rewrite bind_nil_iff. repeat setoid_rewrite Hneg.
  repeat setoid_rewrite existsb_true_iff. repeat setoid_rewrite elem_of_withoutWildcard.
  assert (Hres : ∀ g r, match Resolve catalog (mkGR g r) with
      | Some _ => [] | None => [formatSelection index g r] end = [] ↔
      is_Some (Resolve catalog (mkGR g r)))
    by (intros; destruct (Resolve _ _); rewrite ?is_Some_alt; naive_solver).
  repeat setoid_rewrite Hres. rewrite Hpos, andb_false_iff, bool_decide_eq_false, negb_false_iff,
    existsb_true_iff.
  repeat setoid_rewrite andb_true_iff. repeat setoid_rewrite bool_decide_eq_true.
  destruct (decide ("*" ∈ APIGroups rule)); naive_solver.
Qed.

Lemma compileRule_resources catalog index rule gr r :
  SnapshotOk catalog →
  rule_resources (compileRule catalog (s_ordered catalog) index rule).1.1 !! gr = Some r ↔
  Resolve catalog gr = Some r ∧ ruleNames rule gr.
Proof using.
  intros Hok. unfold compileRule.
  pose proof (compileRuleSelectors_resources rule) as Hres.
  destruct (compileRuleSelectors rule) as [c errs]; simpl in *. rewrite Hres.
  rewrite foldl_insert_lookup, lookup_empty, (so_resolve _ Hok).
  - unfold resolveRule. rewrite list_elem_of_filter, ruleSelects_true. naive_solver.
  - eapply sublist_NoDup; [apply (so_nodup _ Hok)|]. apply fmap_sublist. apply sublist_filter.
  - intros. apply lookup_empty.
Qed.

Lemma compileRule_errors catalog rs index rule :
  (compileRule catalog rs index rule).1.2 = [] ↔ snd (compileRuleSelectors rule) = [].
Proof using. unfold compileRule. destruct (compileRuleSelectors rule) as [c []]; simpl; naive_solver. Qed.

Lemma compileRule_matches catalog index rule target :
  SnapshotOk catalog →
  selectorValid (NamespaceSelector rule) → selectorValid (ObjectSelector rule) →
  ruleMatches target (compileRule catalog (s_ordered catalog) index rule).1.1 = true ↔
  ruleAccepts catalog rule target.
Proof.
  intros Hok Hns Hobj. unfold ruleAccepts.
  pose proof (compileRule_resources catalog index rule (t_GroupResource target)) as Hres.
  pose proof (compileRuleSelectors_object rule (t_Labels target) Hobj) as Ho.
  pose proof (compileRuleSelectors_namespace rule (t_NamespaceLabels target) Hns) as Hn.
  pose proof (compileRuleSelectors_excluded rule (t_Namespace target)) as He.
  unfold ruleMatches. unfold compileRule in *.
  destruct (compileRuleSelectors rule) as [c errs]; simpl in *.
  destruct (foldl _ _ _ !! t_GroupResource target) as [r|] eqn:E.
  - destruct (proj1 (Hres r Hok) eq_refl) as [Hr Hsel].
    setoid_rewrite <-Ho. setoid_rewrite <-Hn. setoid_rewrite <-He.
    destruct (Bool.eqb _ _) eqn:Eb; simpl.
    + apply Bool.eqb_prop in Eb. destruct (rule_objectSelector c _); simpl; [|naive_solver].
      destruct (t_Namespaced target); [|naive_solver].
      case_bool_decide; naive_solver.
    + apply Bool.eqb_false_iff in Eb. split; [done|]. intros (r' & ? & ? & ? & _). congruence.
  - split; [done|]. intros (r & Hr & Hsel & _).
    assert (None = Some r) as [=]. by apply Hres.
Qed.
End specs.

(** ** Properties: compilation and matching *)

Section compile.
Context `{SchemaOps, UnicodeTables, LabelOps, KubeNames}.

Definition selectorsValid (src : TerminationPolicy) : Prop :=
  ∀ rule, rule ∈ tps_TargetRules (tp_Spec src) →
    selectorValid (NamespaceSelector rule) ∧ selectorValid (ObjectSelector rule).

Definition resourcesResolve (catalog : Snapshot) (src : TerminationPolicy) : Prop :=
  ∀ rule, rule ∈ tps_TargetRules (tp_Spec src) → selectionsResolve catalog rule.

Lemma imap_compileRule_nil {A} (f : nat → TargetRule → A) (g : A → list string) (rules : list TargetRule) :
  imap f rules ≫= g = [] ↔ ∀ i rule, rules !! i = Some rule → g (f i rule) = [].
Proof.
  rewrite bind_nil_iff. setoid_rewrite elem_of_imap_iff. naive_solver.
Qed.

Lemma selectorErrors_nil src catalog :
  (imap (compileRule catalog (Snapshot_Resources catalog)) (tps_TargetRules (tp_Spec src))
     ≫= λ c, c.1.2) = [] ↔ selectorsValid src.
Proof.
  rewrite imap_compileRule_nil. setoid_rewrite compileRule_errors.
  setoid_rewrite compileRuleSelectors_errs. unfold selectorsValid.
  setoid_rewrite list_elem_of_lookup. naive_solver.
Qed.

Lemma resolutionErrors_nil src catalog :
  (imap (compileRule catalog (Snapshot_Resources catalog)) (tps_TargetRules (tp_Spec src))
     ≫= λ c, c.2) = [] ↔ resourcesResolve catalog src.
Proof.
  unfold Snapshot_Resources. rewrite cloneResources_id, imap_compileRule_nil.
  assert (Hc : ∀ i rule, (compileRule catalog (s_ordered catalog) i rule).2 =
                         unresolvedSelections i rule catalog (s_ordered catalog))
    by (intros; unfold compileRule; by destruct (compileRuleSelectors rule)).
  setoid_rewrite Hc. setoid_rewrite unresolvedSelections_nil. unfold resourcesResolve.
  setoid_rewrite list_elem_of_lookup. naive_solver.
Qed.

Lemma Compile_ready src catalog now :
  p_ready (fst (Compile (Some src) catalog now)) = true ↔
  selectorsValid src ∧ resourcesResolve catalog src ∧ specValid (tp_Spec src).
Proof.
  simpl. rewrite !andb_true_iff, !noErrors_true, selectorErrors_nil, resolutionErrors_nil,
    validateConfiguration_nil. tauto.
Qed.

Lemma Compile_rules src catalog now c :
  c ∈ p_rules (fst (Compile (Some src) catalog now)) ↔
  ∃ i rule, tps_TargetRules (tp_Spec src) !! i = Some rule ∧
            c = (compileRule catalog (s_ordered catalog) i rule).1.1.
Proof.
  simpl. unfold Snapshot_Resources. rewrite cloneResources_id, list_elem_of_fmap.
  setoid_rewrite elem_of_imap_iff. naive_solver.
Qed.

(** Truncated or not, a condition message keeps the API limit on runes. *)
Lemma truncateConditionMessage_bound message :
  (Z.of_nat (length (runes (truncateConditionMessage message))) ≤ maxConditionMessageRunes)%Z.
Proof.
  unfold truncateConditionMessage. case_decide; [done|].
  rewrite runes_of_runes_app by (apply Forall_take, runes_valid).
  rewrite length_app, length_take.
  assert (Z.of_nat (length (runes conditionMessageTruncatedSuffix)) = 15%Z) by (vm_compute; done).
  unfold maxConditionMessageRunes in *. lia.
Qed.

Lemma condition_status t g time valid r1 r2 ps :
  c_Status (condition t g time valid r1 r2 ps) = ConditionTrue ↔ valid = true.
Proof. destruct valid; simpl; by split. Qed.

Lemma condition_message t g time valid r1 r2 ps :
  (Z.of_nat (length (runes r1)) ≤ maxConditionMessageRunes)%Z →
  (Z.of_nat (length (runes (c_Message (condition t g time valid r1 r2 ps))))
     ≤ maxConditionMessageRunes)%Z.
Proof. destruct valid; simpl; [done|]. intros. apply truncateConditionMessage_bound. Qed.

(** C22: a compiled policy is ready exactly when all its label selectors compile,
    every selection it names resolves in the catalog, and its specification
    keeps its bounds; it carries the name, UID, generation and priority of its
    source. *)
Theorem Compile_ready_iff src catalog now :
  let p := fst (Compile (Some src) catalog now) in
  (p_ready p = true ↔
     selectorsValid src ∧ resourcesResolve catalog src ∧ specValid (tp_Spec src)) ∧
  p_name p = om_Name (tp_Meta src) ∧ p_uid p = om_UID (tp_Meta src) ∧
  p_generation p = om_Generation (tp_Meta src) ∧
  p_priority p = tps_Priority (tp_Spec src) ∧
  p_settings p = settingsOf (tp_Spec src) ∧
  (∀ f, FinalizerAllowed (Some p) f = true ↔ f ∈ rp_AllowedFinalizers (tps_Remediation (tp_Spec src))).
Proof.
  split; [apply Compile_ready|]. split_and!; try done.
  intros f. simpl. rewrite bool_decide_eq_true, elem_of_foldl_add. set_solver.
Qed.

(** The status written for a policy reports the three outcomes: the Ready
    condition is true exactly for a ready policy, DiscoveryResolved exactly when
    every selection resolves, SelectorsValid exactly when every selector
    compiles; all three carry the observed generation and a message within the
    32768-rune limit of the API. *)
Theorem Compile_status_correct src catalog now :
  let '(p, st) := Compile (Some src) catalog now in
  ∃ ready discovery selectors,
    tpst_Conditions st = [ready; discovery; selectors] ∧
    c_Type ready = ConditionReady ∧ c_Type discovery = ConditionDiscoveryResolved ∧
    c_Type selectors = ConditionSelectorsValid ∧
    (c_Status ready = ConditionTrue ↔ p_ready p = true) ∧
    (c_Status discovery = ConditionTrue ↔ resourcesResolve catalog src) ∧
    (c_Status selectors = ConditionTrue ↔ selectorsValid src) ∧
    Forall (λ c, c_ObservedGeneration c = om_Generation (tp_Meta src) ∧
                 c_LastTransitionTime c = now ∧
                 (Z.of_nat (length (runes (c_Message c))) ≤ maxConditionMessageRunes)%Z)
      [ready; discovery; selectors].
Proof.
  pose proof (selectorErrors_nil src catalog) as Hs. pose proof (resolutionErrors_nil src catalog) as Hr.
  unfold Compile. set (sel := _ ≫= _) in *. set (res := _ ≫= _) in *.
  unfold validationStatus. do 3 eexists. split; [reflexivity|].
  assert (Hc : ∀ t g time valid r1 r2 ps, c_Type (condition t g time valid r1 r2 ps) = t ∧
            c_ObservedGeneration (condition t g time valid r1 r2 ps) = g ∧
            c_LastTransitionTime (condition t g time valid r1 r2 ps) = time)
    by (intros; by destruct valid).
  split_and!; try apply Hc; rewrite ?condition_status, ?noErrors_true; simpl; try done.
  - rewrite !andb_true_iff, !noErrors_true, !app_nil. tauto.
  - repeat constructor; try apply Hc; apply condition_message; vm_compute; done.
Qed.

(** C16: matching is faithful to the source policy: a compiled policy matches a
    target exactly when it is ready and some rule of the source names the group and
    the resource of the target, exactly or with a wildcard (a resource wildcard
    leaves out events and leases), the catalog serves it in the target's scope, the
    object selector of the rule selects the target's labels and, for a namespaced
    target, the namespace is not excluded and the namespace selector selects the
    namespace's labels. *)
Theorem Match_iff `{!LabelLaws} src catalog now target :
  SnapshotOk catalog →
  let p := fst (Compile (Some src) catalog now) in
  Match (Some p) target = true ↔
  p_ready p = true ∧
  ∃ rule, rule ∈ tps_TargetRules (tp_Spec src) ∧ ruleAccepts catalog rule target.
Proof.
  intros Hok p. unfold Match, Ready. destruct (p_ready p) eqn:Er; simpl; [|naive_solver].
  pose proof Er as Hv. unfold p in Hv. rewrite Compile_ready in Hv. destruct Hv as (Hsel & _ & _).
  rewrite existsb_true_iff. unfold p. setoid_rewrite (Compile_rules src catalog now). split.
  - intros (c & (i & rule & Hi & ->) & Hm).
    assert (Hin : rule ∈ tps_TargetRules (tp_Spec src)) by (by eapply list_elem_of_lookup_2).
    destruct (Hsel rule Hin). split; [done|]. exists rule. by rewrite compileRule_matches in Hm.
  - intros [_ (rule & Hin & Ha)]. destruct (Hsel rule Hin).
    apply list_elem_of_lookup in Hin as [i Hi].
    eexists. split; [by exists i, rule|]. by rewrite compileRule_matches.
Qed.
End compile.

(** ** Properties: winning policy, eligibility, resource union *)

Section decisions.
Context `{SchemaOps, UnicodeTables, LabelOps, KubeNames}.

Lemma outranks_bool c w :
  bool_decide (p_priority w < p_priority c)%Z ||
  (bool_decide (p_priority c = p_priority w) && str_lt (p_name c) (p_name w)) = true ↔
  outranks c w.
Proof. unfold outranks. rewrite orb_true_iff, andb_true_iff, !bool_decide_eq_true. tauto. Qed.

Lemma outranks_trans c d w : outranks c d → outranks d w → outranks c w.
Proof.
  unfold outranks. intros [?|[? S1]] [?|[? S2]]; try lia.
  right. split; [lia|]. apply Is_true_true in S1, S2. apply Is_true_true.
  by eapply (less_trans str_lt).
Qed.

Lemma outranks_irrefl c : ¬ outranks c c.
Proof. unfold outranks. rewrite str_lt_irrefl. naive_solver lia. Qed.

(** [w] is what the loop may hold after the candidates [ps]. *)
Definition winnerOf (ps : list (option CompiledPolicy)) (target : Target)
    (winner : option CompiledPolicy) : Prop :=
  match winner with
  | None => ∀ c, Some c ∈ ps → Match (Some c) target = false
  | Some w => Some w ∈ ps ∧ Match (Some w) target = true ∧
              ∀ c, Some c ∈ ps → Match (Some c) target = true → ¬ outranks c w
  end.

Lemma selectStep_winner ps target winner candidate :
  winnerOf ps target winner → winnerOf (ps ++ [candidate]) target (selectStep target winner candidate).
Proof.
  assert (Hin : ∀ c, Some c ∈ ps ++ [candidate] ↔ Some c ∈ ps ∨ candidate = Some c) by set_solver.
  unfold selectStep. destruct candidate as [c|]; [|].
  2: { destruct winner as [w|]; simpl; setoid_rewrite Hin; naive_solver. }
  destruct (Match (Some c) target) eqn:Em; simpl negb; cbv iota.
  2: { destruct winner as [w|]; simpl; setoid_rewrite Hin.
       - intros (? & ? & Hmax). split_and!; [by left|done|]. intros d [?|[= <-]]; [by apply Hmax|congruence].
       - intros Hnone d [?|[= <-]]; [by apply Hnone|done]. }
  destruct winner as [w|]; simpl.
  - intros (Hw & Hmw & Hmax). destruct (_ || _) eqn:Eo; [apply outranks_bool in Eo|].
    + simpl. setoid_rewrite Hin. split_and!; [by right|done|].
      intros d [Hd|[= ->]] Hmd Ho; [|by apply outranks_irrefl in Ho].
      apply (Hmax d Hd Hmd). by eapply outranks_trans.
    + simpl. setoid_rewrite Hin. split_and!; [by left|done|].
      intros d [Hd|[= ->]] Hmd; [by apply Hmax|]. by rewrite <-outranks_bool, Eo.
  - intros Hnone. setoid_rewrite Hin. split_and!; [by right|done|].
    intros d [Hd|[= ->]] Hmd; [|apply outranks_irrefl]. by rewrite Hnone in Hmd.
Qed.

Lemma SelectWinning_winner ps target : winnerOf ps target (SelectWinning ps target).
Proof.
  unfold SelectWinning. cut (∀ done winner, winnerOf done target winner →
    winnerOf (done ++ ps) target (foldl (selectStep target) winner ps)).
  { intros Hc. apply (Hc []). simpl. set_solver. }
  induction ps as [|c ps IH]; intros d winner Hw; simpl; [by rewrite app_nil_r|].
  change (c :: ps) with ([c] ++ ps). rewrite (assoc_L app d [c] ps). by apply IH, selectStep_winner.
Qed.

(** C19: the winning policy is a matching policy that no matching policy outranks
    (none has a higher priority, and none of the same priority has a smaller
    name); there is no winner exactly when no policy matches. *)
Theorem SelectWinning_correct ps target :
  match SelectWinning ps target with
  | None => ∀ c, Some c ∈ ps → Match (Some c) target = false
  | Some w =>
      Some w ∈ ps ∧ Match (Some w) target = true ∧
      ∀ c, Some c ∈ ps → Match (Some c) target = true →
        (p_priority c ≤ p_priority w)%Z ∧
        (p_priority c = p_priority w → str_lt (p_name c) (p_name w) = false)
  end.
Proof.
  pose proof (SelectWinning_winner ps target) as Hw.
  destruct (SelectWinning ps target) as [w|]; simpl in Hw; [|done].
  destruct Hw as (Hin & Hm & Hmax). split_and!; [done|done|].
  intros c Hc Hmc. specialize (Hmax c Hc Hmc). unfold outranks in Hmax.
  split; [lia|]. intros ?. apply not_true_iff_false. tauto.
Qed.

(** *** Eligibility *)

Lemma RiskFor_rank action finalizer :
  RiskFor action finalizer = RiskNone ∨ (2 ≤ riskRank (RiskFor action finalizer))%Z.
Proof. unfold RiskFor. repeat case_decide; [..|by left]; [| |case_match]; right; vm_compute; done. Qed.

(** The finalizers that protect data or dependents. *)
Definition protectiveFinalizers : list string :=
  [FinalizerDeleteDependents; "kubernetes.io/pv-protection"; "kubernetes.io/pvc-protection";
   CustomResourceCleanupFinalizer].

Lemma isProtectiveFinalizer_true f : isProtectiveFinalizer f = true ↔ f ∈ protectiveFinalizers.
Proof.
  unfold isProtectiveFinalizer, protectiveFinalizers.
  rewrite !orb_true_iff, !bool_decide_eq_true, !elem_of_cons, elem_of_nil. tauto.
Qed.

(** What a policy permits: for each type of action its permission, and the maximal
    risks at which it is allowed. *)
Definition Permits (p : CompiledPolicy) (action : RemediationActionType) (finalizer : string) : Prop :=
  let maxRisk := set_MaxRisk (p_settings p) in
  (action = ActionForceFinalizeNamespace ∧ set_AllowNamespaceForce (p_settings p) = true ∧
     maxRisk = RiskCritical) ∨
  (action = ActionRemoveCRDFinalizer ∧ finalizer ∈ p_allowedFinalizers p ∧ maxRisk ∈ [RiskHigh; RiskCritical]) ∨
  (action = ActionRemoveResourceFinalizer ∧ finalizer ∈ p_allowedFinalizers p ∧
     (finalizer ∈ protectiveFinalizers ∧ maxRisk ∈ [RiskHigh; RiskCritical] ∨
      finalizer ∉ protectiveFinalizers ∧ maxRisk ∈ [RiskMedium; RiskHigh; RiskCritical])).

(** The ranks of the risks, from above. *)
Lemma riskRank_critical risk : (4 ≤ riskRank risk)%Z ↔ risk = RiskCritical.
Proof. unfold riskRank. repeat case_decide; subst; split; intros; try done; try lia. Qed.
Lemma riskRank_high risk : (3 ≤ riskRank risk)%Z ↔ risk ∈ [RiskHigh; RiskCritical].
Proof.
  rewrite !elem_of_cons, elem_of_nil. unfold riskRank. repeat case_decide; subst; split; intros; try lia; try naive_solver.
Qed.
Lemma riskRank_medium risk : (2 ≤ riskRank risk)%Z ↔ risk ∈ [RiskMedium; RiskHigh; RiskCritical].
Proof.
  rewrite !elem_of_cons, elem_of_nil. unfold riskRank. repeat case_decide; subst; split; intros; try lia; try naive_solver.
Qed.

(** The last step of the decision: a refusal has a reason. *)
Lemma verdict (refused : bool) (message : string) (P : Prop) :
  message ≠ "" → (refused = false ↔ P) →
  let '(eligible, reason) := if refused then (false, message) else (true, "") in
  (eligible = true ↔ P) ∧ (eligible = true ↔ reason = "").
Proof. intros Hm Hp. destruct refused; [split; split; naive_solver|]. split; [|done]. split; [by intros _; apply Hp|done]. Qed.

Lemma refusal (message : string) (P : Prop) :
  message ≠ "" → ¬ P → (false = true ↔ P) ∧ (false = true ↔ message = "").
Proof. intros Hm Hp. split; split; done. Qed.

Lemma risk_fits mr risk : bool_decide (riskRank mr < riskRank risk)%Z = false ↔ (riskRank risk ≤ riskRank mr)%Z.
Proof. rewrite bool_decide_eq_false. lia. Qed.

Lemma Permits_force c f :
  Permits c ActionForceFinalizeNamespace f ↔
  set_AllowNamespaceForce (p_settings c) = true ∧ set_MaxRisk (p_settings c) = RiskCritical.
Proof. split; [by intros [(_ & ? & ?)|[(? & _)|(? & _)]]|by left]. Qed.
Lemma Permits_crd c f :
  Permits c ActionRemoveCRDFinalizer f ↔
  f ∈ p_allowedFinalizers c ∧ set_MaxRisk (p_settings c) ∈ [RiskHigh; RiskCritical].
Proof. split; [by intros [(? & _)|[(_ & ? & ?)|(? & _)]]|by right; left]. Qed.
Lemma Permits_resource c f :
  Permits c ActionRemoveResourceFinalizer f ↔
  f ∈ p_allowedFinalizers c ∧
  set_MaxRisk (p_settings c) ∈
    (if isProtectiveFinalizer f then [RiskHigh; RiskCritical] else [RiskMedium; RiskHigh; RiskCritical]).
Proof.
  pose proof (isProtectiveFinalizer_true f) as Hp. split.
  - intros [(? & _)|[(? & _)|(_ & ? & [[Hf ?]|[Hf ?]])]]; [done|done|split; [done|]..].
    + by rewrite (proj2 Hp Hf).
    + destruct (isProtectiveFinalizer f); [by destruct Hf; apply Hp|done].
  - intros [? Hm]. right; right. split_and!; [done|done|].
    destruct (isProtectiveFinalizer f); [left|right]; (split; [|done]); [by apply Hp|]. intros Hf. by apply Hp in Hf.
Qed.

(** The decision of a ready policy. *)
Lemma ActionEligibility_permits c action finalizer :
  p_ready c = true →
  let '(eligible, reason) := ActionEligibility (Some c) action finalizer in
  (eligible = true ↔ Permits c action finalizer) ∧ (eligible = true ↔ reason = "").
Proof.
  intros Er. unfold ActionEligibility, RiskFor. simpl. rewrite Er. simpl.
  destruct (decide (action = ActionForceFinalizeNamespace)) as [->|Hf].
  { pose proof (Permits_force c finalizer) as Hp. simpl. destruct (set_AllowNamespaceForce _); simpl.
    - apply verdict; [discriminate|]. rewrite risk_fits, Hp. rewrite <-riskRank_critical. naive_solver.
    - apply refusal; [discriminate|]. rewrite Hp. by intros [? _]. }
  rewrite (bool_decide_eq_false_2 _ Hf). simpl.
  destruct (decide (action = ActionRemoveCRDFinalizer)) as [->|Hc].
  { pose proof (Permits_crd c finalizer) as Hp. simpl. case_bool_decide as Ha; simpl.
    - apply verdict; [discriminate|]. rewrite risk_fits, Hp, <-riskRank_high. naive_solver.
    - apply refusal; [discriminate|]. rewrite Hp. by intros [? _]. }
  rewrite (bool_decide_eq_false_2 _ Hc), orb_false_r.
  destruct (decide (action = ActionRemoveResourceFinalizer)) as [->|Hr]; simpl.
  - pose proof (Permits_resource c finalizer) as Hp. case_bool_decide as Ha; simpl.
    + destruct (isProtectiveFinalizer finalizer); simpl; (apply verdict; [discriminate|]); rewrite risk_fits, Hp;
        [rewrite <-riskRank_high|rewrite <-riskRank_medium]; naive_solver.
    + apply refusal; [discriminate|]. rewrite Hp. by intros [? _].
  - rewrite (bool_decide_eq_false_2 _ Hr). simpl. apply refusal; [discriminate|].
    by intros [(? & _)|[(? & _)|(? & _)]].
Qed.

(** C18: an action is eligible exactly when the policy is ready and permits it: to
    force-finalize a namespace the policy must allow that and its maximal risk be
    Critical; to remove a CRD's cleanup finalizer, or a protective finalizer (of
    dependents, volumes, claims or CRDs), the finalizer must be in the exact
    allowlist and the maximal risk at least High; for any other finalizer of the
    allowlist a maximal risk of Medium is enough; no other type of action is
    eligible.  An action is ineligible exactly when a reason is given. *)
Theorem ActionEligibility_iff p action finalizer :
  let '(eligible, reason) := ActionEligibility p action finalizer in
  (eligible = true ↔ ∃ c, p = Some c ∧ p_ready c = true ∧ Permits c action finalizer) ∧
  (eligible = true ↔ reason = "").
Proof.
  destruct p as [c|]; [|split; [split; [done|by intros (? & ? & _)]|done]].
  destruct (p_ready c) eqn:Er; [|unfold ActionEligibility, Ready; rewrite Er; split; [split; [done|intros (? & [= <-] & ? & _); congruence]|done]].
  pose proof (ActionEligibility_permits c action finalizer Er) as He.
  destruct (ActionEligibility (Some c) action finalizer) as [eligible reason]. destruct He as [He Hr]. split; [|done].
  rewrite He. split; [intros Hp; by exists c|by intros (? & [= <-] & _ & Hp)].
Qed.

(** A policy whose maximum risk is None or Low, or is not a risk level at
    all, makes no action eligible: every supported action carries at least a
    Medium risk. *)
Theorem ActionEligibility_low_risk p action finalizer :
  set_MaxRisk (Policy_Settings p) ∉ [RiskMedium; RiskHigh; RiskCritical] →
  fst (ActionEligibility p action finalizer) = false.
Proof.
  rewrite !not_elem_of_cons. intros (Hm & Hh & Hc & _).
  assert (Hrank : (riskRank (set_MaxRisk (Policy_Settings p)) < 2)%Z)
    by (unfold riskRank; repeat case_decide; naive_solver lia).
  pose proof (RiskFor_rank action finalizer) as Hrisk.
  unfold ActionEligibility. repeat (case_match; [done|]).
  case_decide; [done|]. case_bool_decide; [done|]. destruct Hrisk; [done|lia].
Qed.

(** *** The resources a policy covers *)

Lemma elem_of_ResolvedGroupResources p gr :
  gr ∈ ResolvedGroupResources (Some p) ↔
  p_ready p = true ∧ ∃ c, c ∈ p_rules p ∧ gr ∈ dom (rule_resources c).
Proof.
  unfold ResolvedGroupResources, Ready. destruct (p_ready p); simpl; [|set_solver].
  rewrite elem_of_sort_by, elem_of_elements. unfold unionGroupResources.
  rewrite elem_of_foldl_union. set_solver.
Qed.

(** The resources a compiled policy covers are listed once each, in order,
    and are exactly those that some rule selects in the catalog; a target the
    policy matches is always of a listed resource, so a scan that lists only
    these resources misses no match. *)
Theorem ResolvedGroupResources_correct src catalog now :
  SnapshotOk catalog →
  let p := fst (Compile (Some src) catalog now) in
  let l := ResolvedGroupResources (Some p) in
  NoDup l ∧ Sorted (le_of groupResourceLess) l ∧
  (∀ gr, gr ∈ l ↔ p_ready p = true ∧ ∃ rule r, rule ∈ tps_TargetRules (tp_Spec src) ∧
     Resolve catalog gr = Some r ∧ ruleNames rule gr) ∧
  (∀ target, Match (Some p) target = true → t_GroupResource target ∈ l).
Proof.
  intros Hok p l. split_and!.
  - unfold l, ResolvedGroupResources. destruct (negb _); [constructor|].
    rewrite sort_by_perm. apply NoDup_elements.
  - unfold l, ResolvedGroupResources. destruct (negb _); [constructor|]. apply sort_by_sorted. apply _.
  - intros gr. unfold l. rewrite elem_of_ResolvedGroupResources. unfold p.
    setoid_rewrite (Compile_rules src catalog now). setoid_rewrite elem_of_dom. apply and_iff_compat_l. split.
    + intros (c & (i & rule & Hi & ->) & [r Hr]). apply compileRule_resources in Hr as [Hr Hs]; [|done].
      exists rule, r. split_and!; try done. by eapply list_elem_of_lookup_2.
    + intros (rule & r & [i Hi]%list_elem_of_lookup & Hr & Hs).
      eexists. split; [by exists i, rule|]. exists r. by apply compileRule_resources.
  - intros target Hm. apply elem_of_ResolvedGroupResources. unfold Match, Ready in Hm.
    destruct (p_ready p); [|done]. simpl in Hm. apply existsb_true_iff in Hm as (c & Hc & Hm).
    split; [done|]. exists c. split; [done|]. apply elem_of_dom. unfold ruleMatches in Hm.
    destruct (rule_resources c !! _); [by eexists|done].
Qed.

(** The exact owner mappings: a finalizer's owner is the controller of the
    last mapping that names it, and [FinalizerOwners] lists every mapped
    controller once, whatever the order Go iterates the map in. *)
Theorem FinalizerOwners_correct src catalog now :
  let p := fst (Compile (Some src) catalog now) in
  let l := FinalizerOwners (Some p) in
  NoDup l ∧ Sorted (λ a b, str_lt (ownerKey b) (ownerKey a) = false) l ∧
  (∀ c, c ∈ l ↔ ∃ f, FinalizerOwner_ (Some p) f = Some c) ∧
  (∀ pre f c post, tps_FinalizerOwners (tp_Spec src) = pre ++ mkFinalizerOwner f c :: post →
     f ∉ fo_Finalizer <$> post → FinalizerOwner_ (Some p) f = Some c).
Proof.
  intros p l. split_and!.
  - unfold l. simpl. rewrite sort_by_perm. apply NoDup_elements.
  - unfold l. apply sort_by_sorted. apply (key_weak ownerKey str_lt).
  - intros c. unfold l, FinalizerOwners. rewrite elem_of_sort_by, elem_of_elements, elem_of_list_to_set.
    rewrite list_elem_of_fmap. setoid_rewrite (surjective_pairing (A:=string)). split.
    + intros ([f c'] & -> & Hin). exists f. by apply elem_of_map_to_list in Hin.
    + intros [f Hf]. exists (f, c). split; [done|]. by apply elem_of_map_to_list.
  - intros pre f c post E Hpost. simpl. rewrite E, foldl_app. cbn [foldl].
    set (m := <[_:=_]> _). assert (Hm : m !! f = Some c) by apply lookup_insert_eq. clearbody m. clear -Hm Hpost.
    revert m Hm. induction post as [|o post IH]; intros m Hm; [done|].
    rewrite fmap_cons, not_elem_of_cons in Hpost. destruct Hpost.
    simpl. apply IH; [done|]. by rewrite lookup_insert_ne.
Qed.
End decisions.

(** ** Example instances *)

(** Selectors whose [matchLabels] are all present with the required values, and
    the finalizer names of Kubernetes: instances at which the hypotheses hold. *)
Module ExamplePolicy.
Export ExampleSchema.

#[export] Instance labels : LabelOps :=
  {| LabelSelectorAsSelector := λ ls,
       if decide (ls_MatchExpressions ls = []) then
         inr (λ l, forallb (λ kv, bool_decide (l !! kv.1 = Some kv.2)) (map_to_list (ls_MatchLabels ls)))
       else inl "unsupported operator";
     Everything := λ _, true |}.

#[export] Instance labels_laws : LabelLaws.
Proof. by constructor. Qed.

#[export] Instance names : KubeNames :=
  {| FinalizerDeleteDependents := "foregroundDeletion";
     CustomResourceCleanupFinalizer := "customresourcecleanup.apiextensions.k8s.io";
     apiextensions_GroupName := "apiextensions.k8s.io" |}.

Definition rule : TargetRule :=
  mkTargetRule ["example.io"] ["widgets"] None (Some (mkLabelSelector {["app" := "demo"]} []))
    ["kube-system"].
Definition spec : TerminationPolicySpec :=
  mkTerminationPolicySpec 7 [rule] (10 * Minute) (mkDiagnosisPolicy true true 500 500)
    [mkFinalizerOwner "example.io/cleanup" (mkControllerReference "apps/v1" "Deployment" "ops" "cleaner")]
    (mkRemediationPolicy RiskMedium ["example.io/cleanup"] false (15 * Minute))
    (mkRetentionPolicy (60 * Minute)).
Definition meta : ObjectMeta :=
  mkObjectMeta "widgets" "" "policy-uid" "41" 3 0 None None ∅ ∅ [] [].
Definition source : TerminationPolicy :=
  mkTerminationPolicy meta spec (mkTerminationPolicyStatus 0 [] None 0).
Definition target : Target := mkTarget widgetGR true "team" {["app" := "demo"]} ∅.
Definition now : Time := (1000 * Minute)%Z.
End ExamplePolicy.

(** ** Witnesses *)

Section witnesses.
Import ExamplePolicy.

Lemma snapshot_ok : SnapshotOk snapshot.
Proof. by apply (buildSnapshot_ok groups lists), buildSnapshot_example. Qed.

Lemma Match_iff_witness :
  let p := fst (Compile (Some source) snapshot now) in
  Match (Some p) target = true ∧
  (∃ r, r ∈ tps_TargetRules (tp_Spec source) ∧ ruleAccepts snapshot r target) ∧
  Match (Some p) (mkTarget widgetGR true "kube-system" {["app" := "demo"]} ∅) = false.
Proof.
  assert (Hm : Match (Some (fst (Compile (Some source) snapshot now))) target = true)
    by (vm_compute; reflexivity).
  split; [exact Hm|]. split; [|vm_compute; reflexivity].
  exact (proj2 (proj1 (Match_iff source snapshot now target snapshot_ok) Hm)).
Defined.

Lemma ActionEligibility_low_risk_witness :
  let p := Some (fst (Compile (Some (mkTerminationPolicy meta
             (mkTerminationPolicySpec 7 [rule] Minute (mkDiagnosisPolicy true true 1 1) []
                (mkRemediationPolicy RiskLow ["x"] true Minute) (mkRetentionPolicy Minute))
             (mkTerminationPolicyStatus 0 [] None 0))) snapshot now)) in
  Ready p = true ∧ FinalizerAllowed p "x" = true ∧
  fst (ActionEligibility p ActionRemoveResourceFinalizer "x") = false.
Proof.
  split; [vm_compute; reflexivity|]. split; [vm_compute; reflexivity|].
  apply ActionEligibility_low_risk. vm_compute. intros H.
  repeat (apply elem_of_cons in H as [H|H]; [discriminate H|]). by apply elem_of_nil in H.
Defined.

Lemma ResolvedGroupResources_correct_witness :
  let p := fst (Compile (Some source) snapshot now) in
  ResolvedGroupResources (Some p) = [widgetGR] ∧ t_GroupResource target ∈ ResolvedGroupResources (Some p).
Proof.
  split; [vm_compute; reflexivity|].
  destruct (ResolvedGroupResources_correct source snapshot now snapshot_ok) as (_ & _ & _ & Hm).
  apply Hm. vm_compute. reflexivity.
Defined.
End witnesses.
