(* ===== verification/GoErrors.v ===== *)
(** * Error values

    Go's [error] interface as a data type: the errors the repository builds
    ([errors.New], [fmt.Errorf] with [%w], [errors.Join], the executor's
    [terminalExecutionError]) and those it receives from client libraries.
    [errors.As] and [errors.Is] search the tree of wrapped errors depth-first, as
    the standard library does.  The classification functions of
    k8s.io/apimachinery/pkg/api/errors are a parameter. *)
From S2P Require Import Prelude GoText ApiTypes.

(** An error that a client library returned: its text, and what the
    classifications of the API machinery may inspect. *)
Record ExternalError := mkExternalError {
  x_Text : string;
  x_Reason : string;
  x_Code : Z;
  x_RetryAfterSeconds : option Z;
  x_DeadlineExceeded : bool
}.

(** The executor's record of a safe terminal outcome. *)
Record terminalExecutionError := mkTerminalError {
  te_phase : ApprovalPhase;
  te_result : ApprovalResult;
  te_reason : string;
  te_message : string
}.

Inductive error :=
  | ErrExternal (x : ExternalError)
  | ErrNew (text : string)
  | ErrWrap (prefix : string) (inner : error)
  | ErrJoin (errs : list error)
  | ErrTerminal (t : terminalExecutionError).

(** [err.Error()] *)
Fixpoint Error_text (err : error) : string :=
  match err with
  | ErrExternal x => x_Text x
  | ErrNew text => text
  | ErrWrap prefix inner => prefix +:+ Error_text inner
  | ErrJoin errs => strings_Join (map Error_text errs) (String (chr 10) "")
  | ErrTerminal t => te_message t
  end.

(** [errors.As(err, &terminalErr)] *)
Fixpoint As_terminal (err : error) : option terminalExecutionError :=
  match err with
  | ErrTerminal t => Some t
  | ErrWrap _ inner => As_terminal inner
  | ErrJoin errs =>
      (fix go errs := match errs with
        | [] => None
        | e :: errs' => match As_terminal e with Some t => Some t | None => go errs' end
        end) errs
  | _ => None
  end.

(** [errors.Is(err, context.DeadlineExceeded)] *)
Fixpoint Is_DeadlineExceeded (err : error) : bool :=
  match err with
  | ErrExternal x => x_DeadlineExceeded x
  | ErrWrap _ inner => Is_DeadlineExceeded inner
  | ErrJoin errs => existsb Is_DeadlineExceeded errs
  | _ => false
  end.

(** [errors.Join]: nil errors are discarded, and joining none gives nil. *)
Definition errors_Join (errs : list (option error)) : option error :=
  match omap id errs with
  | [] => None
  | es => Some (ErrJoin es)
  end.

Lemma omap_id_Some {A} (l : list A) : omap id (Some <$> l) = l.
Proof. induction l as [|x l IH]; [done|]. cbn. by f_equal. Qed.
Lemma errors_Join_none errs : errors_Join (Some <$> errs) = None ↔ errs = [].
Proof. unfold errors_Join. rewrite omap_id_Some. by destruct errs. Qed.

(** The functions of k8s.io/apimachinery/pkg/api/errors the repository calls. *)
Class ApiErrors := {
  IsNotFound : error → bool;
  IsGone : error → bool;
  IsConflict : error → bool;
  IsAlreadyExists : error → bool;
  IsTooManyRequests : error → bool;
  IsTimeout : error → bool;
  IsServerTimeout : error → bool;
  IsInternalError : error → bool;
  IsServiceUnavailable : error → bool;
  ReasonForError : error → string;
  (** the suggested number of seconds, when there is one *)
  SuggestsClientDelay : error → option Z
}.

(** [metav1.StatusReasonUnknown] is the empty string. *)
Definition StatusReasonUnknown : string := "".

(** The classifications applied to a possibly nil error; they are documented
    to be false on nil. *)
Definition errIs (f : error → bool) (err : option error) : bool :=
  match err with Some e => f e | None => false end.

(** [apierrors.IsNotFound(err) || apierrors.IsGone(err)] *)
Definition unavailable `{ApiErrors} (err : error) : bool := IsNotFound err || IsGone err.

(** [client.IgnoreNotFound] *)
Definition IgnoreNotFound `{ApiErrors} (err : error) : option error :=
  if IsNotFound err then None else Some err.

(** Case tables of the standard library for non-ASCII runes. *)
Class CaseTables := { table_ToLower : Z → Z }.

(** [unicode.ToLower] and [strings.ToLower] *)
Definition rune_ToLower `{CaseTables} (r : Z) : Z :=
  if (65 <=? r)%Z && (r <=? 90)%Z then (r + 32)%Z
  else if (r <? 128)%Z then r else table_ToLower r.
Definition strings_ToLower `{CaseTables} (s : string) : string :=
  strings_Map (λ r, Some (rune_ToLower r)) s.

(** A concrete classification by reason and status code. *)
Module ExampleErrors.
Fixpoint status (err : error) : option ExternalError :=
  match err with
  | ErrExternal x => Some x
  | ErrWrap _ inner => status inner
  | ErrJoin errs =>
      (fix go errs := match errs with
        | [] => None
        | e :: errs' => match status e with Some t => Some t | None => go errs' end
        end) errs
  | _ => None
  end.
Definition reasonIs (reason : string) (err : error) : bool :=
  match status err with Some x => bool_decide (x_Reason x = reason) | None => false end.

#[export] Instance classify : ApiErrors := {|
  IsNotFound := reasonIs "NotFound";
  IsGone := reasonIs "Gone";
  IsConflict := reasonIs "Conflict";
  IsAlreadyExists := reasonIs "AlreadyExists";
  IsTooManyRequests := reasonIs "TooManyRequests";
  IsTimeout := reasonIs "Timeout";
  IsServerTimeout := reasonIs "ServerTimeout";
  IsInternalError := reasonIs "InternalError";
  IsServiceUnavailable := reasonIs "ServiceUnavailable";
  ReasonForError err := match status err with Some x => x_Reason x | None => "" end;
  SuggestsClientDelay err := status err ≫= x_RetryAfterSeconds
|}.
#[export] Instance lower : CaseTables := {| table_ToLower r := r |}.

Definition api (reason : string) (code : Z) : error :=
  ErrExternal (mkExternalError reason reason code None false).
End ExampleErrors.
