(* ===== verification/Prog.v ===== *)
(** * Programs with effects

    A routine that talks to its environment (the Kubernetes API, the clock, a
    lock, the event recorder) is a tree: it returns a value, or performs an event
    and continues with the environment's response.  Whatever the environment
    answers is covered, so a statement about all runs of a program is a statement
    about every interleaving with other writers.  [spec] is the program logic: it
    tracks the history of events, requires each event to be permitted after the
    history so far, and gives a postcondition on the final history and result. *)
From S2P Require Import Prelude GoErrors.

(** Notations for programs, in a scope of their own. *)
Declare Scope prog_scope.
Delimit Scope prog_scope with prog.

(** ** Syntax *)

Inductive prog {E : Type} (R : E → Type) (A : Type) : Type :=
  | Ret (a : A)
  | Do (e : E) (k : R e → prog R A).
Arguments Ret {E R A} a.
Arguments Do {E R A} e k.

Section monad.
Context {E : Type} {R : E → Type}.

Fixpoint prog_bind {A B} (f : A → prog R B) (p : prog R A) : prog R B :=
  match p with
  | Ret a => f a
  | Do e k => Do e (λ r, prog_bind f (k r))
  end.

Global Instance prog_mret : MRet (prog R) := λ A a, Ret a.
Global Instance prog_mbind : MBind (prog R) := @prog_bind.

(** Perform one event. *)
Definition call (e : E) : prog R (R e) := Do e Ret.

(** A routine that may return early: [inl] is the early return. *)
Definition orElse {A B} (p : prog R (B + A)) (k : A → prog R B) : prog R B :=
  p ≫= λ r, match r with inl b => Ret b | inr a => k a end.
End monad.

Notation "'let?' x := p 'in' k" := (orElse p (λ x, k))
  (at level 100, x name, p at level 99, k at level 200, right associativity) : prog_scope.
Notation "'let?' ' x := p 'in' k" := (orElse p (λ y, match y with x => k end))
  (at level 100, x strict pattern, p at level 99, k at level 200, right associativity) : prog_scope.

(** [retry.RetryOnConflict] of client-go, a parameter.  Documented: the function
    is called again after a Conflict error until the backoff gives up, and any
    other outcome is returned as it is. *)
Section retry.
Context {E : Type} {R : E → Type} `{ApiErrors}.

Fixpoint retry (n : nat) (fn : prog R (option error)) : prog R (option error) :=
  match n with
  | O => fn
  | S n' => err ← fn; if errIs IsConflict err then retry n' fn else mret err
  end.
End retry.

Class RetryOps {E} (R : E → Type) := {
  RetryOnConflict : prog R (option error) → prog R (option error)
}.
Class RetryLaws {E} (R : E → Type) `{ApiErrors, !RetryOps R} : Prop := {
  RetryOnConflict_retries : ∃ n, ∀ fn, RetryOnConflict fn = retry n fn
}.

(** ** Runs and the program logic *)

Section logic.
Context {E : Type} {R : E → Type}.

(** An event with its response; traces are in chronological order. *)
Definition event : Type := {e : E & R e}.
Abbreviation trace := (list event).

Definition evt (e : E) (r : R e) : event := existT e r.

Inductive runs {A} : prog R A → trace → A → Prop :=
  | runs_ret a : runs (Ret a) [] a
  | runs_do e k r tr a : runs (k r) tr a → runs (Do e k) (evt e r :: tr) a.

(** Histories are newest first: [h] is what happened so far. *)
Fixpoint spec {A} (J : trace → E → Prop) (p : prog R A) (h : trace) (Q : trace → A → Prop) : Prop :=
  match p with
  | Ret a => Q h a
  | Do e k => J h e ∧ ∀ r, spec J (k r) (evt e r :: h) Q
  end.

Context (J : trace → E → Prop).

Lemma spec_mono {A} (p : prog R A) h (Q Q' : trace → A → Prop) :
  spec J p h Q → (∀ h' a, Q h' a → Q' h' a) → spec J p h Q'.
Proof.
  revert h. induction p as [a|e k IH]; intros h Hp Hq; simpl in *; [by apply Hq|].
  destruct Hp as [He Hk]. split; [done|]. intros r. by eapply IH.
Qed.

Lemma spec_bind {A B} (f : A → prog R B) (p : prog R A) h Q :
  spec J p h (λ h' a, spec J (f a) h' Q) → spec J (p ≫= f) h Q.
Proof.
  unfold mbind, prog_mbind. revert h.
  induction p as [a|e k IH]; intros h Hp; simpl in *; [done|].
  destruct Hp as [He Hk]. split; [done|]. intros r. by apply IH.
Qed.

(** The rule for calls: a specification of the callee, then the continuation. *)
Lemma spec_call {A B} (Q : trace → A → Prop) (f : A → prog R B) (p : prog R A) h Q' :
  spec J p h Q → (∀ h' a, Q h' a → spec J (f a) h' Q') → spec J (p ≫= f) h Q'.
Proof. intros Hp Hf. apply spec_bind. by eapply spec_mono. Qed.

(** The rules for one event and for a return. *)
Lemma spec_event {B} e (f : R e → prog R B) h Q :
  J h e → (∀ r, spec J (f r) (evt e r :: h) Q) → spec J (call e ≫= f) h Q.
Proof. done. Qed.
Lemma spec_return {A} (a : A) h (Q : trace → A → Prop) : Q h a → spec J (mret a) h Q.
Proof. done. Qed.

(** The rule for a stage that may return early. *)
Lemma spec_orElse {A B} (Q : trace → B + A → Prop) (k : A → prog R B) (p : prog R (B + A)) h Q' :
  spec J p h Q → (∀ h' b, Q h' (inl b) → Q' h' b) → (∀ h' a, Q h' (inr a) → spec J (k a) h' Q') →
  spec J (orElse p k) h Q'.
Proof.
  intros Hp Hl Hr. unfold orElse. eapply spec_call; [exact Hp|].
  intros h' [b|a] Hq; simpl; [by apply Hl | by apply Hr].
Qed.

Lemma spec_conj {A} (p : prog R A) h (Q Q' : trace → A → Prop) :
  spec J p h Q → spec J p h Q' → spec J p h (λ h' a, Q h' a ∧ Q' h' a).
Proof.
  revert h. induction p as [a|e k IH]; intros h; simpl; [done|].
  intros [He H1] [_ H2]. split; [done|]. intros r. by apply IH.
Qed.

(** A postcondition that holds under an assumption. *)
Lemma spec_assume {A} (P : Prop) (p : prog R A) h (Q Q' : trace → A → Prop) :
  spec J p h Q → (P → ∃ J', spec J' p h Q') → spec J p h (λ h' a, Q h' a ∧ (P → Q' h' a)).
Proof.
  revert h. induction p as [a|e k IH]; intros h; simpl.
  - intros Hq Hp. split; [done|]. intros HP. by destruct (Hp HP).
  - intros [He Hk] Hp. split; [done|]. intros r. apply IH; [done|]. intros HP.
    destruct (Hp HP) as (J' & _ & Hk'). by exists J'.
Qed.

(** Soundness: along every run, every event was permitted after the events
    before it, and the result satisfies the postcondition. *)
Lemma spec_sound {A} (p : prog R A) h Q tr a :
  spec J p h Q → runs p tr a →
  Q (reverse tr ++ h) a ∧
  ∀ pre e r post, tr = pre ++ evt e r :: post → J (reverse pre ++ h) e.
Proof.
  intros Hp Hr. revert h Hp. induction Hr as [a|e k r tr a Hr IH]; intros h Hp; simpl in *.
  - split; [done|]. intros [|??] ????; discriminate.
  - destruct Hp as [He Hk]. destruct (IH _ (Hk r)) as [Hq Hj].
    rewrite reverse_cons, <-app_assoc. split; [done|].
    intros [|x pre] e' r' post Heq; simpl in Heq.
    + assert (E1 : e = e') by (by apply (f_equal (fmap projT1)) in Heq; simpl in Heq; injection Heq).
      by subst.
    + injection Heq as <- ->. rewrite reverse_cons, <-app_assoc. by eapply Hj.
Qed.

(** A program that can be interrupted after any event satisfies the same
    permissions: there is no need to run to the end. *)
Inductive steps {A} : prog R A → trace → prog R A → Prop :=
  | steps_refl p : steps p [] p
  | steps_do e k r tr p : steps (k r) tr p → steps (Do e k) (evt e r :: tr) p.

Lemma spec_next {A} (p : prog R A) h Q tr e k :
  spec J p h Q → steps p tr (Do e k) → J (reverse tr ++ h) e.
Proof.
  intros Hp Hs. remember (Do e k) as p' eqn:Ep. revert h Hp. induction Hs as [p|e' k' r tr p Hs IH];
    intros h Hp; simpl in *.
  - subst p. by destruct Hp.
  - destruct Hp as [_ Hk]. rewrite reverse_cons, <-app_assoc. by apply (IH Ep _ (Hk r)).
Qed.
End logic.

Arguments event {E} R.

(** Retrying preserves a specification that each attempt re-establishes. *)
Section retry_spec.
Context {E : Type} {R : E → Type} `{ApiErrors, !RetryOps R, !RetryLaws R}.
Context (J : list (event R) → E → Prop).

Lemma spec_RetryOnConflict fn h (Q : list (event R) → option error → Prop) (I : list (event R) → Prop) :
  I h → (∀ h', I h' → spec J fn h' (λ h'' err, (errIs IsConflict err = true → I h'') ∧ Q h'' err)) →
  spec J (RetryOnConflict fn) h Q.
Proof.
  intros Hi Hfn. destruct RetryOnConflict_retries as [n Hn]. rewrite Hn. clear Hn.
  revert h Hi. induction n as [|n IH]; intros h Hi; simpl.
  - eapply spec_mono; [by apply Hfn|]. naive_solver.
  - eapply spec_call; [by apply Hfn|]. intros h' err [Hc Hq].
    destruct (errIs IsConflict err); [by apply IH, Hc|done].
Qed.
End retry_spec.

(** ** Histories that continue others *)

Definition extends {A} (h h' : list A) : Prop := ∃ l, h' = l ++ h.
Global Instance extends_pre A : PreOrder (extends (A := A)).
Proof.
  split; [by exists []|]. intros a b c [l ->] [l' ->]. exists (l' ++ l). by rewrite app_assoc.
Qed.
Lemma extends_refl {A} (h : list A) : extends h h.
Proof. reflexivity. Qed.
Lemma extends_cons {A} (x : A) h h' : extends h h' → extends h (x :: h').
Proof. intros [l ->]. by exists (x :: l). Qed.
Lemma extends_elem {A} (h h' : list A) x : extends h h' → x ∈ h → x ∈ h'.
Proof. intros [l ->]. set_solver. Qed.

Create HintDb histories.
#[export] Hint Resolve extends_refl extends_cons : histories.

(** Follow the chain of continuations in the context. *)
Ltac ext_solve :=
  intros; cbv beta in *; repeat first
    [ assumption | reflexivity | apply extends_cons
    | match goal with H : extends ?h1 ?h2 |- extends _ ?h2 => transitivity h1; [clear H|exact H] end ].

(** ** Evaluation against a concrete environment *)

Section eval.
Context {E : Type} {R : E → Type} {S : Type}.
Context (handle : S → ∀ e : E, option (R e * S)).

(** The trace, result and final state when the environment [handle] answers;
    [None] when it gives no answer. *)
Fixpoint eval {A} (p : prog R A) (s : S) : option (list (event R) * A * S) :=
  match p with
  | Ret a => Some ([], a, s)
  | Do e k =>
      match handle s e with
      | None => None
      | Some (r, s') =>
          match eval (k r) s' with
          | Some (tr, a, s'') => Some (evt e r :: tr, a, s'')
          | None => None
          end
      end
  end.

Lemma eval_runs {A} (p : prog R A) s tr a s' : eval p s = Some (tr, a, s') → runs p tr a.
Proof.
  revert s tr. induction p as [b|e k IH]; intros s tr; simpl.
  - intros [= <- <- <-]. constructor.
  - destruct (handle s e) as [[r s1]|]; [|done].
    destruct (eval (k r) s1) as [[[tr' a'] s2]|] eqn:Ek; [|done].
    intros [= <- -> ->]. constructor. by eapply IH.
Qed.

(** Run until the next event satisfies [stop]. *)
Fixpoint until {A} (stop : E → bool) (p : prog R A) (s : S) : option (list (event R) * prog R A) :=
  match p with
  | Ret _ => None
  | Do e k =>
      if stop e then Some ([], p)
      else match handle s e with
           | None => None
           | Some (r, s') =>
               match until stop (k r) s' with
               | Some (tr, p') => Some (evt e r :: tr, p')
               | None => None
               end
           end
  end.

Lemma until_steps {A} stop (p : prog R A) s tr p' : until stop p s = Some (tr, p') → steps p tr p'.
Proof.
  revert s tr. induction p as [b|e k IH]; intros s tr; simpl; [done|].
  destruct (stop e); [intros [= <- <-]; constructor|].
  destruct (handle s e) as [[r s1]|]; [|done].
  destruct (until stop (k r) s1) as [[tr' p1]|] eqn:Ek; [|done].
  intros [= <- <-]. constructor. by eapply IH.
Qed.

(** A check that evaluates to [true] on the outcome yields such a run. *)
Definition completes {A} (check : list (event R) → A → bool) (p : prog R A) (s : S) : bool :=
  match eval p s with Some (tr, a, _) => check tr a | None => false end.

Lemma completes_runs {A} check (p : prog R A) s :
  completes check p s = true → ∃ tr a, runs p tr a ∧ check tr a = true.
Proof.
  unfold completes. destruct (eval p s) as [[[tr a] s']|] eqn:Ee; [|done].
  intros Hc. apply eval_runs in Ee. eauto.
Qed.

(** Likewise for a point of the run, with an invariant of the environment. *)
Definition reaches {A} (stop : E → bool) (p : prog R A) (s : S) : bool :=
  match until stop p s with Some (_, Do e _) => stop e | _ => false end.

Lemma reaches_steps {A} stop (Inv : event R → Prop) (p : prog R A) s :
  (∀ s e r s', handle s e = Some (r, s') → Inv (evt e r)) →
  reaches stop p s = true →
  ∃ tr e k, steps p tr (Do e k) ∧ stop e = true ∧ Forall Inv tr.
Proof.
  intros Hinv. unfold reaches. revert s. induction p as [b|e k IH]; intros s; simpl; [done|].
  destruct (stop e) eqn:Es; [intros _; exists [], e, k; split_and!; [constructor|done|constructor]|].
  destruct (handle s e) as [[r s1]|] eqn:Eh; [|done]. specialize (IH r s1).
  destruct (until stop (k r) s1) as [[tr' [a|e' k']]|]; try done.
  intros He. destruct (IH He) as (tr & e1 & k1 & Hs & He1 & Hf).
  exists (evt e r :: tr), e1, k1. split_and!; [by constructor|done|]. constructor; [by eapply Hinv|done].
Qed.
End eval.
