(* ===== verification/Json.v ===== *)
(** * JSON

    Values as [encoding/json] writes them, the bytes [json.Marshal] produces
    (string escaping included, as the persisted-size budget of the diagnosis
    collector counts them), and the JSON Patch semantics of RFC 6902 for the
    two operations the executor sends. *)
From S2P Require Import Prelude GoText.

Inductive json :=
  | JBool (b : bool)
  | JNum (z : Z)
  | JStr (s : string)
  | JArr (l : list json)
  | JObj (fields : list (string * json)).

(** ** Encoding *)

(** The bytes one decoded rune contributes to a JSON string; [chunk] are the
    bytes it came from.  [<], [>] and [&] are escaped for HTML, as both Marshal
    and Encoder do by default. *)
Definition json_rune (rc : Z * string) : string :=
  let '(r, chunk) := rc in
  if (r =? 34)%Z || (r =? 92)%Z then "\" +:+ chunk
  else if (r =? 8)%Z then "\b"
  else if (r =? 12)%Z then "\f"
  else if (r =? 10)%Z then "\n"
  else if (r =? 13)%Z then "\r"
  else if (r =? 9)%Z then "\t"
  else if (r <? 32)%Z || (r =? 60)%Z || (r =? 62)%Z || (r =? 38)%Z then "\u" +:+ hex 4 r
  else if (r =? RuneError)%Z && bool_decide (String.length chunk = 1) then "\ufffd"
  else if (r =? 8232)%Z || (r =? 8233)%Z then "\u" +:+ hex 4 r
  else chunk.

Definition dquote : string := String (chr 34) "".

Definition json_string (s : string) : string :=
  dquote +:+ strings_Join (json_rune <$> decode s) "" +:+ dquote.

(** [json.Marshal] *)
Fixpoint Marshal (v : json) : string :=
  match v with
  | JBool b => fmt_t b
  | JNum z => fmt_d z
  | JStr s => json_string s
  | JArr l => "[" +:+ strings_Join (map Marshal l) "," +:+ "]"
  | JObj fields =>
      "{" +:+ strings_Join (map (λ '(k, v), json_string k +:+ ":" +:+ Marshal v) fields) "," +:+ "}"
  end.

(** ** JSON Pointer and JSON Patch (RFC 6901, RFC 6902) *)

(** The reference tokens of a pointer; the [~] escapes do not occur in the
    pointers of this program. *)
Fixpoint split_tokens (s : string) : list string :=
  match s with
  | EmptyString => [""]
  | String c s' =>
      if bool_decide (c = chr 47) then "" :: split_tokens s'
      else match split_tokens s' with
           | t :: ts => String c t :: ts
           | [] => [String c ""]
           end
  end.

Definition pointer (path : string) : list string := tail (split_tokens path).

Fixpoint field (k : string) (fields : list (string * json)) : option json :=
  match fields with
  | [] => None
  | (k', v) :: fields' => if decide (k' = k) then Some v else field k fields'
  end.

Fixpoint set_field (k : string) (v : json) (fields : list (string * json)) : list (string * json) :=
  match fields with
  | [] => []
  | (k', v') :: fields' => if decide (k' = k) then (k, v) :: fields' else (k', v') :: set_field k v fields'
  end.

(** The position an array token denotes: the decimal form of an index. *)
Definition array_index (token : string) (n : nat) : option nat :=
  head (filter (λ i, fmt_d (Z.of_nat i) = token) (seq 0 n)).

Fixpoint json_at (tokens : list string) (v : json) : option json :=
  match tokens with
  | [] => Some v
  | t :: ts =>
      match v with
      | JObj fields => field t fields ≫= json_at ts
      | JArr l => array_index t (length l) ≫= λ i, l !! i ≫= json_at ts
      | _ => None
      end
  end.

(** Remove the value at a pointer; it must exist. *)
Fixpoint json_remove (tokens : list string) (v : json) : option json :=
  match tokens, v with
  | [t], JObj fields =>
      match field t fields with
      | Some _ => Some (JObj (filter (λ f, f.1 ≠ t) fields))
      | None => None
      end
  | [t], JArr l => (λ i, JArr (delete i l)) <$> array_index t (length l)
  | t :: ts, JObj fields =>
      field t fields ≫= λ v', json_remove ts v' ≫= λ v'', Some (JObj (set_field t v'' fields))
  | t :: ts, JArr l =>
      array_index t (length l) ≫= λ i, l !! i ≫= λ v', json_remove ts v' ≫= λ v'', Some (JArr (<[i:=v'']> l))
  | _, _ => None
  end.

(** Equality of the values a [test] compares; members of objects are compared
    in order (the patches here test strings and arrays of strings only). *)
Fixpoint json_eqb (v w : json) : bool :=
  match v, w with
  | JBool a, JBool b => Bool.eqb a b
  | JNum a, JNum b => (a =? b)%Z
  | JStr a, JStr b => bool_decide (a = b)
  | JArr l, JArr m =>
      (fix go l m := match l, m with
        | [], [] => true
        | a :: l', b :: m' => json_eqb a b && go l' m'
        | _, _ => false
        end) l m
  | JObj l, JObj m =>
      (fix go l m := match l, m with
        | [], [] => true
        | (k, a) :: l', (k', b) :: m' => bool_decide (k = k') && json_eqb a b && go l' m'
        | _, _ => false
        end) l m
  | _, _ => false
  end.

(** One operation object, applied to a document; [None] when it fails. *)
Definition apply_op (op : json) (doc : json) : option json :=
  match op with
  | JObj fields =>
      match field "op" fields, field "path" fields with
      | Some (JStr kind), Some (JStr path) =>
          if decide (kind = "test") then
            match field "value" fields, json_at (pointer path) doc with
            | Some v, Some w => if json_eqb v w then Some doc else None
            | _, _ => None
            end
          else if decide (kind = "remove") then json_remove (pointer path) doc
          else None
      | _, _ => None
      end
  | _ => None
  end.

(** A patch is applied as a whole or not at all. *)
Fixpoint apply_patch (ops : list json) (doc : json) : option json :=
  match ops with
  | [] => Some doc
  | op :: ops' => apply_op op doc ≫= apply_patch ops'
  end.

(** ** Lemmas *)

Lemma json_eqb_str_l s w : json_eqb (JStr s) w = true ↔ w = JStr s.
Proof. destruct w; simpl; rewrite ?bool_decide_eq_true; naive_solver. Qed.

Lemma json_eqb_strs_l ss w : json_eqb (JArr (JStr <$> ss)) w = true ↔ w = JArr (JStr <$> ss).
Proof.
  destruct w as [| | |l|]; simpl; try (split; [done|congruence]).
  split.
  - intros Hl. f_equal. revert l Hl. induction ss as [|s ss IH]; intros [|w l]; simpl; try done.
    rewrite andb_true_iff. intros [Hw Hl]. f_equal; [by apply json_eqb_str_l in Hw|by apply IH].
  - intros [= ->]. induction ss as [|s ss IH]; simpl; [done|].
    rewrite bool_decide_eq_true_2 by done. exact IH.
Qed.

(** Decimal digits contain no slash, so a formatted index is one token. *)
Definition no_slash (s : string) : Prop := split_tokens s = [s].

Lemma no_slash_cons c s : c ≠ chr 47 → no_slash s → no_slash (String c s).
Proof. intros Hc Hs. unfold no_slash in *. simpl. by rewrite bool_decide_eq_false_2, Hs. Qed.

Lemma fmt_d_no_slash n : no_slash (fmt_d (Z.of_nat n)).
Proof.
  unfold fmt_d, pretty, pretty_Z. destruct (Z.of_nat n) as [|x|x] eqn:E; [done| |lia].
  unfold pretty. unfold pretty_positive. unfold pretty, pretty_N. case_decide; [done|].
  cut (∀ m s, no_slash s → no_slash (pretty_N_go m s)); [by intros Hc; apply Hc|].
  intros m. induction (N.lt_wf_0 m) as [m _ IH]. intros s Hs.
  destruct (decide (0 < m)%N).
  - rewrite pretty_N_go_step by done. apply IH; [by apply N.div_lt|].
    apply no_slash_cons; [|done]. unfold pretty_N_char.
    repeat case_match; vm_compute; done.
  - by replace m with 0%N by lia.
Qed.

Lemma split_tokens_app s t :
  no_slash s → split_tokens (s +:+ String (chr 47) t) = s :: split_tokens t.
Proof.
  unfold no_slash. revert t. induction s as [|c s IH]; intros t Hs; [done|].
  simpl in Hs. change (String c s +:+ String (chr 47) t) with (String c (s +:+ String (chr 47) t)).
  cbn [split_tokens]. case_bool_decide; [done|].
  assert (no_slash s) as Hs'.
  { unfold no_slash. destruct (split_tokens s) as [|a [|b l]] eqn:E; [|by injection Hs as ->|done].
    destruct s as [|d s]; simpl in E; [done|]. by repeat case_match. }
  by rewrite IH.
Qed.

Lemma array_index_fmt i n : i < n → array_index (fmt_d (Z.of_nat i)) n = Some i.
Proof.
  intros Hi. unfold array_index.
  assert (Hinj : ∀ j, fmt_d (Z.of_nat j) = fmt_d (Z.of_nat i) ↔ j = i).
  { intros j. split; [|by intros ->]. unfold fmt_d. intros ?%(inj pretty). lia. }
  replace n with (i + S (n - S i)) by lia. rewrite seq_app, filter_app.
  assert (filter (λ j, fmt_d (Z.of_nat j) = fmt_d (Z.of_nat i)) (seq 0 i) = []) as ->.
  { apply elem_of_nil_inv. intros j. rewrite list_elem_of_filter, Hinj, elem_of_seq. lia. }
  simpl. rewrite filter_cons_True; [done|]. by apply Hinj.
Qed.
