(* ===== verification/KubeTypes.v ===== *)
(** * Objects of the Kubernetes API

    The fields of API objects from other modules that the repository reads.  An
    [unstructured.Unstructured] is represented by what its accessors and its
    conversions return: metadata, the [spec.finalizers] string slice, and the
    typed Namespace or CustomResourceDefinition it decodes to. *)
From S2P Require Import Prelude ApiTypes GoErrors.

(** [corev1.Namespace] *)
Record NamespaceCondition := mkNamespaceCondition {
  nc_Type : string; nc_Status : string; nc_Message : string }.
Record Namespace := mkNamespace {
  ns_Meta : ObjectMeta;
  ns_SpecFinalizers : list string;
  ns_Conditions : list NamespaceCondition
}.

(** [apiextensionsv1.CustomResourceDefinition] *)
Record ServiceReference := mkServiceReference { sr_Namespace : string; sr_Name : string }.
Record WebhookClientConfig := mkWebhookClientConfig {
  wcc_URL : option string; wcc_Service : option ServiceReference }.
Record CRDVersion := mkCRDVersion { crdv_Name : string; crdv_Served : bool }.
Record CRDConversion := mkCRDConversion {
  conv_Strategy : string;
  (** [Webhook], and inside it [ClientConfig], are pointers *)
  conv_Webhook : option (option WebhookClientConfig)
}.
Record CustomResourceDefinition := mkCRD {
  crd_Meta : ObjectMeta;
  crd_Group : string;
  crd_Plural : string;
  crd_Kind : string;
  crd_Versions : list CRDVersion;
  crd_Conversion : option CRDConversion
}.

(** [unstructured.Unstructured] *)
Record Unstructured := mkUnstructured {
  u_Meta : ObjectMeta;
  (** [NestedStringSlice(obj, "spec", "finalizers")]: an error, or the slice if found *)
  u_SpecFinalizers : ExternalError + option (list string);
  (** [FromUnstructured] into a Namespace and into a CustomResourceDefinition *)
  u_AsNamespace : ExternalError + Namespace;
  u_AsCRD : ExternalError + CustomResourceDefinition
}.

Definition GetUID (u : Unstructured) : UID := om_UID (u_Meta u).
Definition GetName (u : Unstructured) : string := om_Name (u_Meta u).
Definition GetNamespace (u : Unstructured) : string := om_Namespace (u_Meta u).
Definition GetResourceVersion (u : Unstructured) : string := om_ResourceVersion (u_Meta u).
Definition GetFinalizers (u : Unstructured) : list string := om_Finalizers (u_Meta u).
Definition GetLabels (u : Unstructured) : gmap string string := om_Labels (u_Meta u).
Definition GetDeletionTimestamp (u : Unstructured) : option Time := om_DeletionTimestamp (u_Meta u).
Definition GetDeletionGracePeriodSeconds (u : Unstructured) : option Z :=
  om_DeletionGracePeriodSeconds (u_Meta u).

(** [metav1.PartialObjectMetadataList]: items and the continue token. *)
Record MetadataList := mkMetadataList { ml_Items : list ObjectMeta; ml_Continue : string }.

(** [types.NamespacedName] *)
Abbreviation NamespacedName := (string * string)%type (only parsing).

(** [apiregistrationv1.APIService] *)
Record APIServiceCondition := mkAPIServiceCondition {
  asc_Type : string; asc_Status : string; asc_Message : string }.
Record APIService := mkAPIService {
  as_Name : string; as_Group : string; as_Version : string; as_Conditions : list APIServiceCondition }.

(** [admissionv1] webhook configurations; a mutating and a validating webhook
    have the same fields here. *)
Record RuleWithOperations := mkRuleWithOperations {
  rwo_Operations : list string;
  rwo_APIGroups : list string;
  rwo_APIVersions : list string;
  rwo_Resources : list string;
  rwo_Scope : option string
}.
Record Webhook := mkWebhook {
  wh_Name : string;
  wh_Rules : list RuleWithOperations;
  wh_FailurePolicy : option string;
  wh_MatchPolicy : option string;
  wh_NamespaceSelector : option LabelSelector;
  wh_ObjectSelector : option LabelSelector;
  wh_ClientConfig : WebhookClientConfig;
  (** [len(webhook.MatchConditions)] *)
  wh_MatchConditions : Z
}.
Record WebhookConfiguration := mkWebhookConfiguration {
  wc_Name : string; wc_Webhooks : list Webhook }.

(** [discoveryv1.EndpointSlice]: the readiness condition of each endpoint. *)
Record EndpointSlice := mkEndpointSlice { es_Meta : ObjectMeta; es_Ready : list (option bool) }.

(** [appsv1] workloads: a Deployment or StatefulSet, and a DaemonSet. *)
Record Workload := mkWorkload {
  wl_Meta : ObjectMeta;
  wl_Replicas : option Z;
  wl_ObservedGeneration : Z;
  wl_AvailableReplicas : Z;
  wl_ReadyReplicas : Z
}.
Record DaemonSet := mkDaemonSet {
  ds_Meta : ObjectMeta;
  ds_ObservedGeneration : Z;
  ds_DesiredNumberScheduled : Z;
  ds_NumberReady : Z
}.

(** Constants and printers of other modules that the diagnosis uses. *)
Class DiagnosisNames := {
  (** [apiregistrationv1.Available], [apiregistrationv1.ConditionTrue] *)
  APIService_Available : string;
  APIService_ConditionTrue : string;
  (** [corev1.ConditionTrue] and the namespace condition types *)
  core_ConditionTrue : string;
  NamespaceDeletionDiscoveryFailure : string;
  NamespaceDeletionGVParsingFailure : string;
  NamespaceDeletionContentFailure : string;
  NamespaceContentRemaining : string;
  NamespaceFinalizersRemaining : string;
  (** [admissionv1]: failure and match policies, operations, scopes *)
  admission_Ignore : string;
  admission_Exact : string;
  admission_OperationAll : string;
  admission_Update : string;
  admission_AllScopes : string;
  admission_NamespacedScope : string;
  admission_ClusterScope : string;
  (** [apiextensionsv1.WebhookConverter], [discoveryv1.LabelServiceName] *)
  WebhookConverter : string;
  LabelServiceName : string;
  (** [schema.GroupVersion.String] of a group and a version *)
  GroupVersion_text : string → string → string
}.
