(* ===== verification/Locks.v ===== *)
(** * Keyed locks (keyedLocks in internal/executor/executor.go)

    The reference-counted table of per-target mutexes, as a concurrent step
    system.  A critical section under [locks.mu] is one step; taking and leaving
    the per-key mutex [entry.mu] are steps of their own, so that any
    interleaving of [lock] and [unlock] calls on any keys is a sequence of steps.
    Pointers to entries are locations in a heap: a goroutine that waits keeps the
    pointer it found, whatever happens to the table meanwhile. *)
From S2P Require Import Prelude.

Abbreviation loc := nat (only parsing).
Abbreviation tid := nat (only parsing).

(** ** State *)

Record lockEntry := mkLockEntry { le_locked : bool; le_users : Z }.

(** Where a goroutine stands inside [lock key] or the function it returned. *)
Inductive pc :=
  | Waiting (key : string) (entry : loc)     (* before entry.mu.Lock() *)
  | Holding (key : string) (entry : loc)     (* lock returned *)
  | Releasing (key : string) (entry : loc).  (* after entry.mu.Unlock() *)

Definition pc_key (p : pc) : string :=
  match p with Waiting k _ => k | Holding k _ => k | Releasing k _ => k end.
Definition pc_loc (p : pc) : loc :=
  match p with Waiting _ l => l | Holding _ l => l | Releasing _ l => l end.

Record keyedLocks := mkKeyedLocks {
  kl_entries : gmap string loc;
  kl_heap : gmap loc lockEntry;
  kl_next : loc;                    (* the allocator *)
  kl_threads : gmap tid pc          (* goroutines inside lock/unlock *)
}.

Definition newKeyedLocks : keyedLocks := mkKeyedLocks ∅ ∅ 0 ∅.

(** ** Operations *)

(** [lock], first critical section: find or create the entry, count the user. *)
Definition lock_register (t : tid) (key : string) (s : keyedLocks) : option keyedLocks :=
  match kl_threads s !! t with
  | Some _ => None
  | None =>
      let '(entry, entries, heap, next) :=
        match kl_entries s !! key with
        | Some l => (l, kl_entries s, kl_heap s, kl_next s)
        | None => (kl_next s, <[key := kl_next s]> (kl_entries s),
                   <[kl_next s := mkLockEntry false 0]> (kl_heap s), S (kl_next s))
        end in
      match heap !! entry with
      | Some e => Some (mkKeyedLocks entries (<[entry := mkLockEntry (le_locked e) (le_users e + 1)]> heap)
                          next (<[t := Waiting key entry]> (kl_threads s)))
      | None => None
      end
  end.

(** [entry.mu.Lock()]: possible only while nobody holds the entry. *)
Definition lock_acquire (t : tid) (s : keyedLocks) : option keyedLocks :=
  match kl_threads s !! t with
  | Some (Waiting key l) =>
      match kl_heap s !! l with
      | Some e =>
          if le_locked e then None
          else Some (mkKeyedLocks (kl_entries s) (<[l := mkLockEntry true (le_users e)]> (kl_heap s))
                       (kl_next s) (<[t := Holding key l]> (kl_threads s)))
      | None => None
      end
  | _ => None
  end.

(** [entry.mu.Unlock()] *)
Definition unlock_release (t : tid) (s : keyedLocks) : option keyedLocks :=
  match kl_threads s !! t with
  | Some (Holding key l) =>
      match kl_heap s !! l with
      | Some e => Some (mkKeyedLocks (kl_entries s) (<[l := mkLockEntry false (le_users e)]> (kl_heap s))
                          (kl_next s) (<[t := Releasing key l]> (kl_threads s)))
      | None => None
      end
  | _ => None
  end.

(** The last critical section: drop the user, and the entry with its last one. *)
Definition unlock_unregister (t : tid) (s : keyedLocks) : option keyedLocks :=
  match kl_threads s !! t with
  | Some (Releasing key l) =>
      match kl_heap s !! l with
      | Some e =>
          let users := (le_users e - 1)%Z in
          let entries := if decide (users = 0)%Z then delete key (kl_entries s) else kl_entries s in
          Some (mkKeyedLocks entries (<[l := mkLockEntry (le_locked e) users]> (kl_heap s))
                  (kl_next s) (delete t (kl_threads s)))
      | None => None
      end
  | _ => None
  end.

(** [size] *)
Definition locks_size (s : keyedLocks) : nat := size (kl_entries s).

Inductive lock_step : keyedLocks → keyedLocks → Prop :=
  | step_register t key s s' : lock_register t key s = Some s' → lock_step s s'
  | step_acquire t s s' : lock_acquire t s = Some s' → lock_step s s'
  | step_release t s s' : unlock_release t s = Some s' → lock_step s s'
  | step_unregister t s s' : unlock_unregister t s = Some s' → lock_step s s'.

Definition reachable (s : keyedLocks) : Prop := rtc lock_step newKeyedLocks s.

(** ** Invariant *)

(** The goroutines registered under a key. *)
Definition users_of (key : string) (ts : gmap tid pc) : Z :=
  Z.of_nat (size (filter (λ tp : tid * pc, pc_key tp.2 = key) ts)).

Definition holds (s : keyedLocks) (t : tid) (key : string) : Prop :=
  ∃ l, kl_threads s !! t = Some (Holding key l).

Record LocksOk (s : keyedLocks) : Prop := {
  lo_entry t p : kl_threads s !! t = Some p → kl_entries s !! pc_key p = Some (pc_loc p);
  lo_heap key l : kl_entries s !! key = Some l →
    ∃ e, kl_heap s !! l = Some e ∧ le_users e = users_of key (kl_threads s) ∧ (0 < le_users e)%Z ∧
         (le_locked e = true ↔ ∃ t, kl_threads s !! t = Some (Holding key l));
  lo_inj k1 k2 l : kl_entries s !! k1 = Some l → kl_entries s !! k2 = Some l → k1 = k2;
  lo_next key l : kl_entries s !! key = Some l → l < kl_next s;
  lo_mutex t1 t2 key : holds s t1 key → holds s t2 key → t1 = t2
}.

Lemma users_of_insert t p key ts :
  ts !! t = None →
  users_of key (<[t := p]> ts) = (users_of key ts + if decide (pc_key p = key) then 1 else 0)%Z.
Proof.
  intros Ht. unfold users_of. rewrite map_filter_insert. simpl.
  destruct (decide (pc_key p = key)).
  - rewrite map_size_insert_None; [lia|]. by rewrite map_lookup_filter, Ht.
  - rewrite delete_id by done. lia.
Qed.

Lemma users_of_delete t p key ts :
  ts !! t = Some p →
  users_of key (delete t ts) = (users_of key ts - if decide (pc_key p = key) then 1 else 0)%Z.
Proof.
  intros Ht. rewrite <-(insert_delete_id ts t p Ht) at 2.
  rewrite users_of_insert by apply lookup_delete_eq. lia.
Qed.

Lemma users_of_update t p p' key ts :
  ts !! t = Some p → pc_key p' = pc_key p → users_of key (<[t := p']> ts) = users_of key ts.
Proof.
  intros Ht Hk. rewrite <-insert_delete_eq, users_of_insert by apply lookup_delete_eq.
  rewrite (users_of_delete _ p), Hk by done. lia.
Qed.

Lemma users_of_pos t p ts : ts !! t = Some p → (0 < users_of (pc_key p) ts)%Z.
Proof.
  intros Ht. pose proof (users_of_delete t p (pc_key p) ts Ht) as Hd.
  rewrite decide_True in Hd by done. unfold users_of in *. lia.
Qed.

Lemma users_of_zero key ts t p : users_of key ts = 0%Z → ts !! t = Some p → pc_key p ≠ key.
Proof. intros Hz Ht <-. apply users_of_pos in Ht. lia. Qed.

(** ** Preservation *)

Lemma newKeyedLocks_ok : LocksOk newKeyedLocks.
Proof. split; simpl; intros; unfold holds in *; simpl in *; set_solver. Qed.

(** A goroutine that moves between the stages of one key, with the mutex of its
    entry set accordingly. *)
Lemma move_ok s t p p' e locked :
  LocksOk s → kl_threads s !! t = Some p → kl_heap s !! pc_loc p = Some e →
  pc_key p' = pc_key p → pc_loc p' = pc_loc p →
  let ts := <[t := p']> (kl_threads s) in
  let s' := mkKeyedLocks (kl_entries s) (<[pc_loc p := mkLockEntry locked (le_users e)]> (kl_heap s))
              (kl_next s) ts in
  (locked = true ↔ ∃ t', ts !! t' = Some (Holding (pc_key p) (pc_loc p))) →
  (∀ t1 t2, holds s' t1 (pc_key p) → holds s' t2 (pc_key p) → t1 = t2) →
  LocksOk s'.
Proof.
  intros Hok Ht He Hk Hl ts s' Hlock Hmut. pose proof (lo_entry _ Hok _ _ Ht) as Hent.
  assert (Hold : ∀ t' key l, key ≠ pc_key p →
            ts !! t' = Some (Holding key l) ↔ kl_threads s !! t' = Some (Holding key l)).
  { intros t' key l Hne. unfold ts. rewrite lookup_insert_Some. split; [|].
    - intros [[-> Hp]|[? ?]]; [|done]. by rewrite Hp in Hk.
    - intros Ht'. right. split; [|done]. intros ->. rewrite Ht in Ht'. by injection Ht' as ->. }
  split; simpl.
  - intros t' q. unfold ts. rewrite lookup_insert_Some. intros [[-> <-]|[_ Hq]].
    + by rewrite Hk, Hl.
    + by eapply (lo_entry _ Hok).
  - intros key l Hkey. destruct (lo_heap _ Hok _ _ Hkey) as (e' & He' & Hu & Hpos & Hlk).
    destruct (decide (key = pc_key p)) as [->|Hne].
    + assert (l = pc_loc p) as -> by congruence. assert (e' = e) as -> by congruence.
      eexists. rewrite lookup_insert_eq. split_and!; [done| |done|done].
      simpl. unfold ts. by rewrite (users_of_update _ p).
    + assert (l ≠ pc_loc p) by (intros ->; apply Hne; by eapply (lo_inj _ Hok)).
      exists e'. rewrite lookup_insert_ne by done. split_and!; [done| |done|].
      * unfold ts. by rewrite (users_of_update _ p).
      * rewrite Hlk. by setoid_rewrite (Hold _ key l Hne).
  - apply (lo_inj _ Hok).
  - apply (lo_next _ Hok).
  - intros t1 t2 key. destruct (decide (key = pc_key p)) as [->|Hne]; [by apply Hmut|].
    intros [l1 H1] [l2 H2]. apply (lo_mutex _ Hok t1 t2 key).
    + exists l1. by apply Hold.
    + exists l2. by apply Hold.
Qed.

Lemma lock_acquire_ok s s' t : LocksOk s → lock_acquire t s = Some s' → LocksOk s'.
Proof.
  intros Hok. unfold lock_acquire. destruct (kl_threads s !! t) as [[key l| |]|] eqn:Ht; try done.
  destruct (kl_heap s !! l) as [e|] eqn:He; [|done]. destruct (le_locked e) eqn:Hfree; [done|].
  intros [= <-]. pose proof (lo_entry _ Hok _ _ Ht) as Hent. simpl in Hent.
  destruct (lo_heap _ Hok _ _ Hent) as (e' & He' & _ & _ & Hlk).
  assert (e' = e) as -> by congruence. rewrite Hfree in Hlk.
  assert (Hnone : ∀ t' l', kl_threads s !! t' ≠ Some (Holding key l')).
  { intros t' l' Ht'. pose proof (lo_entry _ Hok _ _ Ht') as Hent'. simpl in Hent'.
    rewrite Hent in Hent'. injection Hent' as <-. discriminate (proj2 Hlk (ex_intro _ t' Ht')). }
  apply (move_ok s t (Waiting key l)); try done; simpl.
  - split; [|done]. intros _. exists t. by rewrite lookup_insert_eq.
  - intros t1 t2 [l1 H1] [l2 H2]. simpl in *. rewrite lookup_insert_Some in H1, H2.
    destruct H1 as [[-> _]|[_ H1]]; [|by destruct (Hnone _ _ H1)].
    destruct H2 as [[-> _]|[_ H2]]; [done|by destruct (Hnone _ _ H2)].
Qed.

Lemma unlock_release_ok s s' t : LocksOk s → unlock_release t s = Some s' → LocksOk s'.
Proof.
  intros Hok. unfold unlock_release. destruct (kl_threads s !! t) as [[|key l|]|] eqn:Ht; try done.
  destruct (kl_heap s !! l) as [e|] eqn:He; [|done]. intros [= <-].
  assert (Hnone : ∀ t' l', t' ≠ t → kl_threads s !! t' ≠ Some (Holding key l')).
  { intros t' l' Hne Ht'. apply Hne. apply (lo_mutex _ Hok t' t key); by eexists. }
  assert (Hnone' : ∀ t' l', <[t := Releasing key l]> (kl_threads s) !! t' ≠ Some (Holding key l')).
  { intros t' l'. rewrite lookup_insert_Some. intros [[_ ?]|[? ?]]; [done|]. by eapply Hnone. }
  apply (move_ok s t (Holding key l)); try done; simpl.
  - split; [done|]. intros [t' Ht']. by destruct (Hnone' t' l).
  - intros t1 t2 [l1 H1]. by destruct (Hnone' t1 l1).
Qed.

(** Registering does not change who holds what. *)
Lemma holding_insert_waiting s t key l0 t' k' l' :
  kl_threads s !! t = None →
  <[t := Waiting key l0]> (kl_threads s) !! t' = Some (Holding k' l') ↔
  kl_threads s !! t' = Some (Holding k' l').
Proof.
  intros Ht. rewrite lookup_insert_Some. split; [by intros [[_ ?]|[_ ?]]|].
  intros Ht'. right. split; [|done]. intros ->. congruence.
Qed.

Lemma register_found_ok s t key l e :
  LocksOk s → kl_threads s !! t = None → kl_entries s !! key = Some l → kl_heap s !! l = Some e →
  LocksOk (mkKeyedLocks (kl_entries s) (<[l := mkLockEntry (le_locked e) (le_users e + 1)]> (kl_heap s))
             (kl_next s) (<[t := Waiting key l]> (kl_threads s))).
Proof.
  intros Hok Ht Hkey He. split; simpl.
  - intros t' p. rewrite lookup_insert_Some. intros [[_ <-]|[_ Hp]]; [done|by eapply (lo_entry _ Hok)].
  - intros k l' Hk. destruct (lo_heap _ Hok _ _ Hk) as (e' & He' & Hu & Hpos & Hlk).
    rewrite users_of_insert by done. simpl. setoid_rewrite holding_insert_waiting; [|done].
    destruct (decide (key = k)) as [<-|Hne].
    + simplify_eq. eexists. rewrite lookup_insert_eq. 
      split; [done|]. simpl. split_and!; [lia|lia|done].
    + exists e'. rewrite lookup_insert_ne by (intros ->; apply Hne; by eapply (lo_inj _ Hok)).
      split_and!; [done|lia|done|done].
  - apply (lo_inj _ Hok).
  - apply (lo_next _ Hok).
  - intros t1 t2 k [l1 H1] [l2 H2]. simpl in *. rewrite holding_insert_waiting in H1, H2 by done.
    apply (lo_mutex _ Hok t1 t2 k); by eexists.
Qed.

Lemma register_fresh_ok s t key :
  LocksOk s → kl_threads s !! t = None → kl_entries s !! key = None →
  LocksOk (mkKeyedLocks (<[key := kl_next s]> (kl_entries s))
             (<[kl_next s := mkLockEntry false 1]> (kl_heap s)) (S (kl_next s))
             (<[t := Waiting key (kl_next s)]> (kl_threads s))).
Proof.
  intros Hok Ht Hkey.
  assert (Hfresh : ∀ k l, kl_entries s !! k = Some l → l ≠ kl_next s)
    by (intros k l Hk ->; apply (lo_next _ Hok) in Hk; lia).
  assert (Hnokey : ∀ t' p, kl_threads s !! t' = Some p → pc_key p ≠ key)
    by (intros t' p Hp <-; apply (lo_entry _ Hok) in Hp; congruence).
  assert (Hzero : users_of key (kl_threads s) = 0%Z).
  { unfold users_of. rewrite (proj2 (map_size_empty_iff _)); [done|]. apply map_empty.
    intros t'. apply map_lookup_filter_None. right. intros p Hp Hkp. by eapply Hnokey. }
  split; simpl.
  - intros t' p. rewrite lookup_insert_Some. intros [[_ <-]|[_ Hp]]; [by rewrite lookup_insert_eq|].
    rewrite lookup_insert_ne by (symmetry; by eapply Hnokey). by eapply (lo_entry _ Hok).
  - intros k l'. rewrite users_of_insert by done. simpl. setoid_rewrite holding_insert_waiting; [|done].
    rewrite lookup_insert_Some. intros [[<- <-]|[Hne Hk]].
    + eexists. rewrite lookup_insert_eq. split; [done|]. simpl. rewrite decide_True by done.
      split_and!; [lia|lia|]. split; [done|]. intros [t' Ht'].
      by destruct (Hnokey _ _ Ht').
    + rewrite decide_False by done. destruct (lo_heap _ Hok _ _ Hk) as (e' & He' & Hu & Hpos & Hlk).
      exists e'. rewrite lookup_insert_ne by (symmetry; by eapply Hfresh).
      split_and!; [done|lia|done|done].
  - intros k1 k2 l. rewrite !lookup_insert_Some.
    intros [[<- <-]|[? H1]] [[<- H2]|[? H2]]; [done| | |by eapply (lo_inj _ Hok)].
    + by destruct (Hfresh _ _ H2).
    + subst l. by destruct (Hfresh _ _ H1).
  - intros k l. rewrite lookup_insert_Some. intros [[_ <-]|[_ Hk]]; [lia|].
    apply (lo_next _ Hok) in Hk. lia.
  - intros t1 t2 k [l1 H1] [l2 H2]. simpl in *. rewrite holding_insert_waiting in H1, H2 by done.
    apply (lo_mutex _ Hok t1 t2 k); by eexists.
Qed.

Lemma lock_register_ok s s' t key : LocksOk s → lock_register t key s = Some s' → LocksOk s'.
Proof.
  intros Hok. unfold lock_register. destruct (kl_threads s !! t) as [|] eqn:Ht; [done|].
  destruct (kl_entries s !! key) as [l|] eqn:Hkey.
  - destruct (kl_heap s !! l) as [e|] eqn:He; [|done]. intros [= <-]. by apply register_found_ok.
  - rewrite lookup_insert_eq. intros [= <-]. simpl. rewrite insert_insert_eq. by apply register_fresh_ok.
Qed.

Lemma unlock_unregister_ok s s' t : LocksOk s → unlock_unregister t s = Some s' → LocksOk s'.
Proof.
  intros Hok. unfold unlock_unregister. destruct (kl_threads s !! t) as [[| |key l]|] eqn:Ht; try done.
  destruct (kl_heap s !! l) as [e|] eqn:He; [|done]. intros [= <-].
  pose proof (lo_entry _ Hok _ _ Ht) as Hent. simpl in Hent.
  destruct (lo_heap _ Hok _ _ Hent) as (e' & He' & Hu & Hpos & Hlk). assert (e' = e) as -> by congruence.
  set (users := (le_users e - 1)%Z). set (entries := if decide (users = 0)%Z then _ else _).
  assert (Hcount : users_of key (delete t (kl_threads s)) = users).
  { rewrite (users_of_delete _ (Releasing key l)), decide_True by done. lia. }
  assert (Hkeep : ∀ k l', entries !! k = Some l' ↔
            kl_entries s !! k = Some l' ∧ (k = key → users ≠ 0%Z)).
  { intros k l'. unfold entries. case_decide; [rewrite lookup_delete_Some|]; naive_solver. }
  assert (Hhold : ∀ t' k' l', delete t (kl_threads s) !! t' = Some (Holding k' l') ↔
                    kl_threads s !! t' = Some (Holding k' l')).
  { intros t' k' l'. rewrite lookup_delete_Some. split; [tauto|].
    intros Ht'. split; [|done]. intros <-. congruence. }
  split; simpl.
  - intros t' p. rewrite lookup_delete_Some. intros [Hne Hp]. apply Hkeep.
    split; [by eapply (lo_entry _ Hok)|]. intros Hk Hz. rewrite <-Hcount in Hz.
    by eapply users_of_zero; [exact Hz|by rewrite lookup_delete_ne|].
  - intros k l'. rewrite Hkeep. intros [Hk Hz]. setoid_rewrite Hhold.
    destruct (decide (k = key)) as [->|Hne].
    + simplify_eq. eexists. rewrite lookup_insert_eq. split; [done|]. simpl. rewrite Hcount.
      split_and!; [done| |done]. specialize (Hz eq_refl). lia.
    + destruct (lo_heap _ Hok _ _ Hk) as (e' & He2 & Hu' & Hpos' & Hlk').
      exists e'. rewrite lookup_insert_ne by (intros ->; apply Hne; by eapply (lo_inj _ Hok)).
      rewrite (users_of_delete _ (Releasing key l)), decide_False by done.
      split_and!; [done|lia|done|done].
  - intros k1 k2 l'. rewrite !Hkeep. intros [H1 _] [H2 _]. by eapply (lo_inj _ Hok).
  - intros k l'. rewrite Hkeep. intros [H1 _]. by eapply (lo_next _ Hok).
  - intros t1 t2 k [l1 H1] [l2 H2]. simpl in *. rewrite Hhold in H1, H2.
    apply (lo_mutex _ Hok t1 t2 k); by eexists.
Qed.

Lemma reachable_ok s : reachable s → LocksOk s.
Proof.
  unfold reachable. intros Hr. cut (∀ s0, LocksOk s0 → rtc lock_step s0 s → LocksOk s).
  { intros Hc. apply (Hc newKeyedLocks); [apply newKeyedLocks_ok|done]. }
  clear Hr. intros s0 H0 Hr. revert H0. induction Hr as [|x y z Hxy Hyz IH]; [done|].
  intros Hx. apply IH. destruct Hxy; eauto using lock_register_ok, lock_acquire_ok,
    unlock_release_ok, unlock_unregister_ok.
Qed.

(** ** Properties *)

(** C24: in every reachable state of any number of goroutines, at most one has
    returned from [lock] for a given key and not yet unlocked it. *)
Theorem keyedLocks_mutual_exclusion s t1 t2 key :
  reachable s → holds s t1 key → holds s t2 key → t1 = t2.
Proof. intros Hr. apply (lo_mutex _ (reachable_ok _ Hr)). Qed.

(** The table leaks nothing and loses nothing: it has an entry for a key
    exactly while some goroutine is between entering [lock] and leaving the
    unlock function for that key, its user count is the number of those
    goroutines, and the size is zero when there are none. *)
Theorem keyedLocks_no_leak s :
  reachable s →
  (∀ key, key ∈ dom (kl_entries s) ↔ ∃ t p, kl_threads s !! t = Some p ∧ pc_key p = key) ∧
  (∀ key l, kl_entries s !! key = Some l →
     le_users <$> (kl_heap s !! l) = Some (users_of key (kl_threads s))) ∧
  (locks_size s = 0 ↔ kl_threads s = ∅).
Proof.
  intros Hok%reachable_ok.
  assert (Hdom : ∀ key, key ∈ dom (kl_entries s) ↔ ∃ t p, kl_threads s !! t = Some p ∧ pc_key p = key).
  { intros key. rewrite elem_of_dom. split.
    - intros [l Hl]. destruct (lo_heap _ Hok _ _ Hl) as (e & _ & Hu & Hpos & _).
      rewrite Hu in Hpos. unfold users_of in Hpos.
      destruct (map_choose (filter (λ tp : tid * pc, pc_key tp.2 = key) (kl_threads s)))
        as (t & p & Hp); [by intros Hempty; rewrite Hempty in Hpos|].
      apply map_lookup_filter_Some in Hp. naive_solver.
    - intros (t & p & Hp & <-). exists (pc_loc p). by eapply (lo_entry _ Hok). }
  split_and!; [done| |].
  - intros key l Hl. destruct (lo_heap _ Hok _ _ Hl) as (e & -> & Hu & _). simpl. by rewrite Hu.
  - unfold locks_size. rewrite map_size_empty_iff, <-dom_empty_iff_L. split.
    + intros Hempty. apply map_empty. intros t. destruct (kl_threads s !! t) as [p|] eqn:Hp; [|done].
      assert (pc_key p ∈ dom (kl_entries s)) as Hin by (apply Hdom; eauto). set_solver.
    + intros Hempty. rewrite Hempty in Hdom. apply set_eq. set_solver.
Qed.

(** C35: no deadlock and no lost wake-up: the goroutine that holds a key can
    always unlock it, one that has unlocked can always leave, and one that
    waits can either proceed or some goroutine holds or can take that very
    key. *)
Theorem keyedLocks_progress s t p :
  reachable s → kl_threads s !! t = Some p →
  match p with
  | Waiting key l => is_Some (lock_acquire t s) ∨ ∃ t', t' ≠ t ∧ holds s t' key
  | Holding key l => is_Some (unlock_release t s)
  | Releasing key l => is_Some (unlock_unregister t s)
  end.
Proof.
  intros Hok%reachable_ok Hp. destruct (lo_heap _ Hok _ _ (lo_entry _ Hok _ _ Hp)) as (e & He & _ & _ & Hlk).
  unfold lock_acquire, unlock_release, unlock_unregister. rewrite Hp.
  destruct p as [key l|key l|key l]; simpl in *; rewrite He; [|by eexists|by eexists].
  destruct (le_locked e); [|left; by eexists]. right.
  destruct (proj1 Hlk eq_refl) as [t' Ht']. exists t'. split; [|by exists l]. intros ->. congruence.
Qed.

(** ** Witnesses *)

Definition exampleRun : option keyedLocks :=
  s1 ← lock_register 1 "a" newKeyedLocks; s2 ← lock_acquire 1 s1;
  s3 ← lock_register 2 "a" s2; s4 ← lock_register 3 "b" s3; lock_acquire 3 s4.

Lemma exampleRun_reachable s : exampleRun = Some s → reachable s.
Proof.
  unfold exampleRun. intros (s1 & H1 & (s2 & H2 & (s3 & H3 & (s4 & H4 & H5)%bind_Some)%bind_Some)%bind_Some)%bind_Some.
  eapply rtc_l; [eapply step_register, H1|]. eapply rtc_l; [eapply step_acquire, H2|].
  eapply rtc_l; [eapply step_register, H3|]. eapply rtc_l; [eapply step_register, H4|].
  eapply rtc_l; [eapply step_acquire, H5|]. apply rtc_refl.
Qed.

Lemma keyedLocks_mutual_exclusion_witness :
  match exampleRun with
  | Some s => holds s 1 "a" ∧ (holds s 2 "a" → 1 = 2)
  | None => False
  end.
Proof.
  destruct exampleRun as [s|] eqn:E; [|vm_compute in E; discriminate E].
  assert (Hh : holds s 1 "a").
  { vm_compute in E. injection E as <-. exists 0. vm_compute. reflexivity. }
  split; [exact Hh|]. intros H2.
  exact (keyedLocks_mutual_exclusion s 1 2 "a" (exampleRun_reachable s E) Hh H2).
Defined.

Lemma keyedLocks_no_leak_witness :
  match exampleRun with
  | Some s => locks_size s = 2 ∧ "a" ∈ dom (kl_entries s)
  | None => False
  end.
Proof.
  destruct exampleRun as [s|] eqn:E; [|vm_compute in E; discriminate E].
  split; [vm_compute in E; injection E as <-; vm_compute; reflexivity|].
  apply (keyedLocks_no_leak s (exampleRun_reachable s E)). exists 2, (Waiting "a" 0).
  vm_compute in E. injection E as <-. split; vm_compute; reflexivity.
Defined.

Lemma keyedLocks_progress_witness :
  match exampleRun with
  | Some s => is_Some (lock_acquire 2 s) ∨ ∃ t', t' ≠ 2 ∧ holds s t' "a"
  | None => False
  end.
Proof.
  destruct exampleRun as [s|] eqn:E; [|vm_compute in E; discriminate E].
  apply (keyedLocks_progress s 2 (Waiting "a" 0) (exampleRun_reachable s E)).
  vm_compute in E. injection E as <-. vm_compute. reflexivity.
Defined.
