(* ===== verification/Executor.v ===== *)
(** * The remediation executor (internal/executor/executor.go)

    [Reconcile] and everything it calls, as a program whose events are the calls
    the source makes to its environment: reads and writes of the API, the clock,
    the catalog snapshot, the per-target lock, the event recorder and the metric.
    Dereferencing a nil pointer is the event [EPanic], which has no response. *)
From S2P Require Import Prelude GoText ApiTypes Discovery Policy GoErrors Prog Json KubeTypes.

Local Open Scope prog_scope.

(** ** Constants *)

Definition maxAuditAttempts : Z := 20.
Definition retryDelay : Duration := (5 * Second)%Z.
Definition apiFailureMessage : string := "Kubernetes API request failed".

(** ** Environment *)

Inductive ev :=
  | EGetApproval (key : NamespacedName)
  | EGetIncident (name : string)
  | EGetPolicy (name : string)
  | EDynGet (gvr : GroupVersionResource) (namespace name : string)
  | ENow
  | ESnapshot
  | ELock (key : string)
  | EUnlock (key : string)
  | EPatchApproval (base current : RemediationApproval)   (* writer.Patch, merge from base *)
  | EUpdateStatus (current : RemediationApproval)         (* writer.Status().Update *)
  | EPatch (gvr : GroupVersionResource) (namespace name : string) (patch : string) (dryRun : bool)
  | EFinalize (namespace : Namespace) (dryRun : bool)
  | EEvent (eventtype reason action note : string)
  | EMetric (labels : list string)
  | EPanic.

Definition resp (e : ev) : Type :=
  match e with
  | EGetApproval _ => ExternalError + RemediationApproval
  | EGetIncident _ => ExternalError + DeletionIncident
  | EGetPolicy _ => ExternalError + TerminationPolicy
  | EDynGet _ _ _ => ExternalError + Unstructured
  | ENow => Time
  | ESnapshot => Snapshot
  | ELock _ | EUnlock _ => unit
  | EPatchApproval _ _ | EUpdateStatus _ => option ExternalError
  | EPatch _ _ _ _ _ => ExternalError + Unstructured
  | EFinalize _ _ => ExternalError + Namespace
  | EEvent _ _ _ _ | EMetric _ => unit
  | EPanic => Empty_set
  end%type.

(** [json.Marshal] of an approval status (its timestamps are marshalled by
    metav1.Time, which is not part of the repository), and the group version
    string of the API. *)
Class ExecutorEnv := {
  status_Marshal : RemediationApprovalStatus → string;
  GroupVersion_String : string
}.

(** [ctrl.Result] *)
Record Result := mkResult { RequeueAfter : Duration }.
Definition noResult : Result := mkResult 0.
Abbreviation ret := (Result * option error)%type.

(** [NewReconciler]: which dependencies are given, and the attempt bound; the
    result is the bound the reconciler keeps. *)
Definition NewReconciler (reader writer dynamicClient kubeClient catalog recorder : bool)
    (maxAttempts : Z) : error + Z :=
  if negb reader || negb writer || negb dynamicClient || negb kubeClient || negb catalog || negb recorder
  then inl (ErrNew "executor reader, writer, dynamic client, kubernetes client, catalog, and recorder are required")
  else if bool_decide (maxAttempts ≤ 0)%Z || bool_decide (5 < maxAttempts)%Z
  then inl (ErrNew "executor max attempts must be between 1 and 5")
  else inr maxAttempts.

(** ** Pure helpers *)

Definition terminal (phase : ApprovalPhase) : bool :=
  bool_decide (phase = ApprovalPhaseSucceeded) || bool_decide (phase = ApprovalPhaseDryRunSucceeded) ||
  bool_decide (phase = ApprovalPhaseFailed) || bool_decide (phase = ApprovalPhaseExpired) ||
  bool_decide (phase = ApprovalPhaseSuperseded).

Fixpoint findAction (actions : list RemediationAction) (id : string) : option RemediationAction :=
  match actions with
  | [] => None
  | a :: actions' => if decide (ra_ID a = id) then Some a else findAction actions' id
  end.

Definition actionEvidenceCurrent (status : DeletionIncidentStatus) (now : Time) : bool :=
  match di_ActionEvidenceTime status, di_ActionEvidenceExpiresTime status with
  | Some t, Some expires => negb (Time_Before expires t) && Time_Before now expires
  | _, _ => false
  end.

Definition sameTargetIdentity (left right : TargetReference) : bool :=
  bool_decide (tr_UID left = tr_UID right) && bool_decide (tr_APIGroup left = tr_APIGroup right) &&
  bool_decide (tr_Resource left = tr_Resource right) &&
  bool_decide (tr_Namespace left = tr_Namespace right) && bool_decide (tr_Name left = tr_Name right).

Definition actionBelongsToIncident (action : option RemediationAction) (incidentTarget : TargetReference)
    : bool :=
  match action with
  | None => false
  | Some action =>
    if sameTargetIdentity (ra_Target action) incidentTarget then true
    else
      bool_decide (tr_APIGroup incidentTarget = "") && bool_decide (tr_Resource incidentTarget = "namespaces") &&
      bool_decide (tr_Namespace incidentTarget = "") &&
      bool_decide (ra_Type action = ActionRemoveResourceFinalizer) &&
      bool_decide (tr_Namespace (ra_Target action) = tr_Name incidentTarget) &&
      bool_decide (tr_UID (ra_Target action) ≠ "") && bool_decide (tr_Name (ra_Target action) ≠ "") &&
      bool_decide (tr_Resource (ra_Target action) ≠ "")
  end.

Definition targetKey (target : TargetReference) : string :=
  strings_Join [tr_APIGroup target; tr_Resource target; tr_Namespace target; tr_Name target; tr_UID target]
    (String (chr 0) "").

Definition appendBounded (attempts : list RemediationAttempt) (attempt : RemediationAttempt)
    : list RemediationAttempt :=
  let attempts := attempts ++ [attempt] in
  if bool_decide (maxAuditAttempts < Z.of_nat (length attempts))%Z
  then drop (Z.to_nat (Z.of_nat (length attempts) - maxAuditAttempts)) attempts
  else attempts.

Definition sanitize (value : string) (maximum : Z) : string :=
  let value := strings_Map (λ r, if (r <? 32)%Z && negb (r =? 32)%Z then None else Some r) value in
  if bool_decide (maximum < lenZ value)%Z then str_take (Z.to_nat maximum) value else value.

Section executor.
Context `{SchemaOps, UnicodeTables, LabelOps, KubeNames, ApiErrors, CaseTables, ExecutorEnv, !RetryOps resp}.

Abbreviation P := (prog resp).

Definition errorReason (err : error) : string :=
  match As_terminal err with
  | Some t => te_reason t
  | None =>
      let reason := ReasonForError err in
      if decide (reason ≠ StatusReasonUnknown) then sanitize reason 128 else "APIError"
  end.

Definition transient (err : error) : bool :=
  match As_terminal err with
  | Some _ => false
  | None =>
      let text := strings_ToLower (Error_text err) in
      Is_DeadlineExceeded err || IsConflict err || IsTooManyRequests err || IsTimeout err ||
      IsServerTimeout err || IsInternalError err || IsServiceUnavailable err ||
      strings_Contains text "webhook" || strings_Contains text "timeout"
  end.

Definition statusesEqual (left right : RemediationApprovalStatus) : bool :=
  bool_decide (status_Marshal left = status_Marshal right).

(** The operations of the finalizer patch; [finalizerPatch] marshals them.  The
    keys of a Go map are written in order. *)
Definition patchOperations (object : Unstructured) (index : nat) : list json :=
  [JObj [("op", JStr "test"); ("path", JStr "/metadata/uid"); ("value", JStr (GetUID object))];
   JObj [("op", JStr "test"); ("path", JStr "/metadata/resourceVersion");
         ("value", JStr (GetResourceVersion object))];
   JObj [("op", JStr "test"); ("path", JStr "/metadata/finalizers");
         ("value", JArr (JStr <$> GetFinalizers object))];
   JObj [("op", JStr "remove"); ("path", JStr ("/metadata/finalizers/" +:+ fmt_d (Z.of_nat index)))]].

Definition finalizerPatch (object : Unstructured) (index : nat) : string :=
  Marshal (JArr (patchOperations object index)).

(** [slices.Index] *)
Fixpoint slices_Index (l : list string) (x : string) : option nat :=
  match l with
  | [] => None
  | y :: l' => if decide (y = x) then Some 0 else S <$> slices_Index l' x
  end.

(** ** Environment calls *)

(** Errors that clients return never wrap an error of this package. *)
Definition apiResult {A} (r : ExternalError + A) : error + A :=
  match r with inl x => inl (ErrExternal x) | inr a => inr a end.

Definition getApproval (key : NamespacedName) : P (error + RemediationApproval) :=
  r ← call (EGetApproval key); mret (apiResult r).
Definition getIncident (name : string) : P (error + DeletionIncident) :=
  r ← call (EGetIncident name); mret (apiResult r).
Definition getPolicy (name : string) : P (error + TerminationPolicy) :=
  r ← call (EGetPolicy name); mret (apiResult r).
Definition dynGet (gvr : GroupVersionResource) (namespace name : string) : P (error + Unstructured) :=
  r ← call (EDynGet gvr namespace name); mret (apiResult r).
Definition now : P Time := call ENow.
Definition snapshot : P Snapshot := call ESnapshot.
Definition panic {A} : P A := Do EPanic (λ r : resp EPanic, match r with end).

(** A pointer the source dereferences. *)
Definition deref {A} (p : option A) : P A := match p with Some a => mret a | None => panic end.

(** ** Status updates *)

Definition with_status (a : RemediationApproval) (st : RemediationApprovalStatus) : RemediationApproval :=
  mkRemediationApproval (ap_Meta a) (ap_Spec a) st.

Definition with_owners (m : ObjectMeta) (owners : list OwnerReference) : ObjectMeta :=
  mkObjectMeta (om_Name m) (om_Namespace m) (om_UID m) (om_ResourceVersion m) (om_Generation m)
    (om_CreationTimestamp m) (om_DeletionTimestamp m) (om_DeletionGracePeriodSeconds m) (om_Labels m)
    (om_Annotations m) (om_Finalizers m) owners.

Definition updateStatus (name : string)
    (mutate : RemediationApprovalStatus → Z → P RemediationApprovalStatus) : P (option error) :=
  RetryOnConflict (
    res ← getApproval ("", name);
    match res with
    | inl err => mret (Some err)
    | inr current =>
        let before := ap_Status current in
        st ← mutate before (om_Generation (ap_Meta current));
        if statusesEqual before st then mret None
        else r ← call (EUpdateStatus (with_status current st)); mret (ErrExternal <$> (r : option ExternalError))
    end).

Definition markRunning (approval : RemediationApproval) (action : RemediationAction) : P (option error) :=
  updateStatus (om_Name (ap_Meta approval)) (λ status generation,
    started ← match st_StartedTime status with
              | Some t => mret t
              | None => now
              end;
    t ← now;
    mret (mkRemediationApprovalStatus ApprovalPhaseRunning (st_Result status) generation
            (Some started) (st_CompletedTime status)
            (Some (default action (st_Action status)))
            (st_Attempts status)
            [mkCondition "Running" ConditionTrue generation t "ExecutionStarted"
               "approval execution is in progress"])).

Definition recordRetryAttempt (name : string) (attempt : RemediationAttempt) : P (option error) :=
  updateStatus name (λ status _,
    mret (mkRemediationApprovalStatus ApprovalPhaseRunning (at_Result attempt) (st_ObservedGeneration status)
            (st_StartedTime status) (st_CompletedTime status) (st_Action status)
            (appendBounded (st_Attempts status) attempt) (st_Conditions status))).

Definition recordTerminalAttempt (name : string) (attempt : RemediationAttempt) (phase : ApprovalPhase)
    (result : ApprovalResult) : P (option error) :=
  updateStatus name (λ status generation,
    let value := at_Time attempt in
    mret (mkRemediationApprovalStatus phase result generation
            (st_StartedTime status) (Some value) (st_Action status)
            (appendBounded (st_Attempts status) attempt)
            [mkCondition "Completed" ConditionTrue generation value result
               "approval execution completed"])).

Definition finishByName (name : string) (phase : ApprovalPhase) (result : ApprovalResult)
    (reason message : string) : P (option error) :=
  updateStatus name (λ status generation,
    t ← now;
    mret (mkRemediationApprovalStatus phase result generation
            (st_StartedTime status) (Some t) (st_Action status) (st_Attempts status)
            [mkCondition "Completed" ConditionTrue generation t (sanitize reason 128)
               (sanitize message 1024)])).

Definition finish (approval : RemediationApproval) (phase : ApprovalPhase) (result : ApprovalResult)
    (reason message : string) : P ret :=
  err ← finishByName (om_Name (ap_Meta approval)) phase result reason message;
  match err with
  | None =>
      call (EEvent "Warning" "ApprovalRejected" "RejectApproval"
              (sanitize reason 128 +:+ ": " +:+ sanitize message 768)) ;; mret (noResult, None)
  | Some e => mret (noResult, Some e)
  end.

(** [return r.finish(...)] inside a stage. *)
Definition reject {A} (approval : RemediationApproval) (phase : ApprovalPhase) (result : ApprovalResult)
    (reason message : string) : P (ret + A) :=
  r ← finish approval phase result reason message; mret (inl r).

(** [return ctrl.Result{}, err] inside a stage. *)
Definition fail {A} (err : option error) : P (ret + A) := mret (inl (noResult, err)).

Definition ensureOwnerReference (name : string) (incident : DeletionIncident) : P (option error) :=
  RetryOnConflict (
    res ← getApproval ("", name);
    match res with
    | inl err => mret (Some err)
    | inr current =>
        if existsb (λ owner, bool_decide (or_UID owner = om_UID (inc_Meta incident)))
             (om_OwnerReferences (ap_Meta current))
        then mret None
        else
          let owner := mkOwnerReference GroupVersion_String "DeletionIncident"
                         (om_Name (inc_Meta incident)) (om_UID (inc_Meta incident)) in
          r ← call (EPatchApproval current
            (mkRemediationApproval
               (with_owners (ap_Meta current) (om_OwnerReferences (ap_Meta current) ++ [owner]))
               (ap_Spec current) (ap_Status current)));
          mret (ErrExternal <$> (r : option ExternalError))
    end).

(** ** Reading the target *)

(** The loop over the versions a resource is served under; [last] is the
    [lastUnavailable] error so far. *)
Fixpoint getVersions (target : TargetReference) (groupResource : GroupResource) (versions : list Version)
    (last : option error) : P (option Unstructured * GroupVersionResource * option error) :=
  match versions with
  | [] => mret (None, WithVersion groupResource (tr_Version target), last)
  | version :: versions' =>
      let gvr := WithVersion groupResource (v_Version version) in
      res ← dynGet gvr (tr_Namespace target) (tr_Name target);
      match res with
      | inr current => mret (Some current, gvr, None)
      | inl err =>
          if negb (IsNotFound err) && negb (IsGone err) then mret (None, gvr, Some err)
          else getVersions target groupResource versions' (Some err)
      end
  end.

Definition getCurrent (target : TargetReference)
    : P (option Unstructured * GroupVersionResource * option error) :=
  let groupResource := mkGR (tr_APIGroup target) (tr_Resource target) in
  catalog ← snapshot;
  match Resolve catalog groupResource with
  | None =>
      let gvr := WithVersion groupResource (tr_Version target) in
      res ← dynGet gvr (tr_Namespace target) (tr_Name target);
      match res with
      | inr current => mret (Some current, gvr, None)
      | inl err => mret (None, gvr, Some err)
      end
  | Some resource => getVersions target groupResource (OrderedVersions resource (tr_Version target)) None
  end.

Definition emptyAttempt : RemediationAttempt := zero_Attempt.
Definition attemptBefore (rv : string) : RemediationAttempt :=
  mkRemediationAttempt 0 "" false rv "" "" "" "".
Definition with_after (a : RemediationAttempt) (rv : string) : RemediationAttempt :=
  mkRemediationAttempt (at_Time a) (at_ActionType a) (at_DryRun a) (at_ResourceVersionBefore a) rv
    (at_Result a) (at_ErrorReason a) (at_Message a).

Definition verifySatisfied (action : RemediationAction) (dryRun : bool)
    : P (RemediationAttempt * ApprovalResult * bool * option error) :=
  if dryRun then mret (emptyAttempt, ApprovalResultTargetChanged, false, None)
  else
    '(current, _, err) ← getCurrent (ra_Target action);
    if errIs IsNotFound err || errIs IsGone err
    then mret (emptyAttempt, ApprovalResultAlreadySatisfied, true, None)
    else match err with
    | Some e => mret (emptyAttempt, "", false, Some e)
    | None =>
      current ← deref current;
      let attempt := attemptBefore (GetResourceVersion current) in
      if negb (bool_decide (GetUID current = tr_UID (ra_Target action)))
      then mret (attempt, ApprovalResultTargetReplaced, false, None)
      else if bool_decide (ra_Type action = ActionRemoveResourceFinalizer) ||
              bool_decide (ra_Type action = ActionRemoveCRDFinalizer)
      then mret (attempt, ApprovalResultAlreadySatisfied,
                 negb (bool_decide (ra_Finalizer action ∈ GetFinalizers current)), None)
      else if bool_decide (ra_Type action = ActionForceFinalizeNamespace) then
        match u_SpecFinalizers current with
        | inl e => mret (attempt, "", false, Some (ErrExternal e))
        | inr finalizers =>
            mret (attempt, ApprovalResultAlreadySatisfied,
                  bool_decide (length (default [] finalizers) = 0), None)
        end
      else mret (attempt, ApprovalResultRejectedByPolicy, false, None)
    end.

(** The namespace labels the policy is evaluated on. *)
Definition targetNamespaceLabels (resource : Resource) (incidentTarget : TargetReference)
    : P (error + gmap string string) :=
  if v_Namespaced (r_PreferredVersion resource) then
    res ← dynGet (mkGVR "" "v1" "namespaces") "" (tr_Namespace incidentTarget);
    match res with
    | inl err => mret (inl (ErrWrap "get target namespace: " err))
    | inr namespace => mret (inr (GetLabels namespace))
    end
  else mret (inr ∅).

Definition currentPolicyMatches (current : Unstructured) (action : RemediationAction)
    (incidentTarget : option TargetReference) (policy : option CompiledPolicy) : P (bool * option error) :=
  match policy, incidentTarget with
  | Some _, Some incidentTarget =>
    let groupResource := mkGR (tr_APIGroup incidentTarget) (tr_Resource incidentTarget) in
    catalog ← snapshot;
    match Resolve catalog groupResource with
    | None => mret (false, None)
    | Some resource =>
      let? policyObject :=
        (if sameTargetIdentity (ra_Target action) incidentTarget then mret (inr current)
         else
           '(policyObject, _, err) ← getCurrent incidentTarget;
           if errIs IsNotFound err || errIs IsGone err then mret (inl (false, None))
           else match err with
           | Some e => mret (inl (false, Some (ErrWrap "get incident target: " e)))
           | None =>
             policyObject ← deref policyObject;
             if negb (bool_decide (GetUID policyObject = tr_UID incidentTarget))
             then mret (inl (false, None)) else mret (inr policyObject)
           end) in
      labels ← targetNamespaceLabels resource incidentTarget;
      match labels with
      | inl err => mret (false, Some err)
      | inr namespaceLabels =>
          mret (Match policy (mkTarget groupResource (v_Namespaced (r_PreferredVersion resource))
                  (tr_Namespace incidentTarget) (GetLabels policyObject) namespaceLabels), None)
      end
    end
  | _, _ => mret (false, Some (ErrNew "compiled policy and incident target are required"))
  end.

(** ** Executing an approved action *)

Abbreviation outcome := (RemediationAttempt * ApprovalResult * option error)%type.

(** A terminal outcome of [execute]. *)
Definition stop (attempt : RemediationAttempt) (returned : ApprovalResult) (phase : ApprovalPhase)
    (result : ApprovalResult) (reason message : string) : P outcome :=
  mret (attempt, returned, Some (ErrTerminal (mkTerminalError phase result reason message))).

(** The case of [execute] for the two finalizer actions. *)
Definition executeFinalizer (action : RemediationAction) (current : Unstructured)
    (gvr : GroupVersionResource) (attempt : RemediationAttempt) (dryRun : bool) : P outcome :=
  if bool_decide (ra_Type action = ActionRemoveCRDFinalizer) &&
     (negb (bool_decide (tr_APIGroup (ra_Target action) = "apiextensions.k8s.io")) ||
      negb (bool_decide (tr_Resource (ra_Target action) = "customresourcedefinitions")))
  then stop attempt "" ApprovalPhaseFailed ApprovalResultRejectedByPolicy "InvalidAction"
         "CRD finalizer action target is invalid"
  else match slices_Index (GetFinalizers current) (ra_Finalizer action) with
  | None => mret (attempt, ApprovalResultAlreadySatisfied, None)
  | Some index =>
    if negb (bool_decide (GetResourceVersion current = ra_PreconditionResourceVersion action))
    then stop attempt ApprovalResultTargetChanged ApprovalPhaseSuperseded ApprovalResultTargetChanged
           "TargetChanged" "target resourceVersion changed"
    else
      let patch := finalizerPatch current index in
      res ← call (EPatch gvr (tr_Namespace (ra_Target action)) (tr_Name (ra_Target action)) patch dryRun);
      match res with
      | inl err => mret (attempt, "", Some (ErrExternal err))
      | inr updated =>
          mret (with_after attempt (GetResourceVersion updated),
                if dryRun then ApprovalResultDryRunValidated else ApprovalResultMutated, None)
      end
  end.

(** The case of [execute] for namespace force-finalization. *)
Definition executeNamespace (action : RemediationAction) (current : Unstructured)
    (attempt : RemediationAttempt) (dryRun : bool) : P outcome :=
  if negb (bool_decide (tr_APIGroup (ra_Target action) = "")) ||
     negb (bool_decide (tr_Resource (ra_Target action) = "namespaces")) ||
     negb (bool_decide (tr_Namespace (ra_Target action) = ""))
  then stop attempt "" ApprovalPhaseFailed ApprovalResultRejectedByPolicy "InvalidAction"
         "namespace finalize target is invalid"
  else match u_SpecFinalizers current with
  | inl nestedErr => mret (attempt, "", Some (ErrExternal nestedErr))
  | inr finalizers =>
    if bool_decide (length (default [] finalizers) = 0)
    then mret (attempt, ApprovalResultAlreadySatisfied, None)
    else if negb (bool_decide (GetResourceVersion current = ra_PreconditionResourceVersion action))
    then stop attempt ApprovalResultTargetChanged ApprovalPhaseSuperseded ApprovalResultTargetChanged
           "TargetChanged" "target resourceVersion changed"
    else
      let namespace :=
        mkNamespace (mkObjectMeta (GetName current) "" (GetUID current) (GetResourceVersion current)
                       0 0 None None ∅ ∅ [] []) [] [] in
      res ← call (EFinalize namespace dryRun);
      match res with
      | inl err => mret (attempt, "", Some (ErrExternal err))
      | inr updated =>
          mret (with_after attempt (om_ResourceVersion (ns_Meta updated)),
                if dryRun then ApprovalResultDryRunValidated else ApprovalResultMutated, None)
      end
  end.

Definition execute (action : RemediationAction) (incidentTarget : option TargetReference)
    (policy : option CompiledPolicy) (dryRun : bool) : P outcome :=
  '(current, gvr, err) ← getCurrent (ra_Target action);
  if errIs IsNotFound err || errIs IsGone err
  then mret (emptyAttempt, ApprovalResultAlreadySatisfied, None)
  else match err with
  | Some e => mret (emptyAttempt, "", Some e)
  | None =>
    current ← deref current;
    let attempt := attemptBefore (GetResourceVersion current) in
    if negb (bool_decide (GetUID current = tr_UID (ra_Target action)))
    then stop attempt ApprovalResultTargetReplaced ApprovalPhaseSuperseded ApprovalResultTargetReplaced
           "TargetReplaced" "target UID changed"
    else
      '(matches, err) ← currentPolicyMatches current action incidentTarget policy;
      match err with
      | Some e => mret (attempt, "", Some e)
      | None =>
        if negb matches
        then stop attempt ApprovalResultRejectedByPolicy ApprovalPhaseSuperseded
               ApprovalResultRejectedByPolicy "PolicyNoLongerMatches" "current policy no longer selects target"
        else if bool_decide (ra_Type action = ActionRemoveResourceFinalizer) ||
                bool_decide (ra_Type action = ActionRemoveCRDFinalizer)
        then executeFinalizer action current gvr attempt dryRun
        else if bool_decide (ra_Type action = ActionForceFinalizeNamespace)
        then executeNamespace action current attempt dryRun
        else stop attempt "" ApprovalPhaseFailed ApprovalResultRejectedByPolicy "UnsupportedAction"
               "action type is not supported"
      end
  end.

(** ** Reconcile, stage by stage *)

(** Read the incident and check its UID. *)
Definition loadIncident (approval : RemediationApproval) : P (ret + DeletionIncident) :=
  res ← getIncident (oi_Name (ras_IncidentRef (ap_Spec approval)));
  match res with
  | inl err =>
      if IsNotFound err
      then reject approval ApprovalPhaseSuperseded ApprovalResultTargetChanged "IncidentNotFound"
             "referenced incident no longer exists"
      else fail (Some err)
  | inr incident =>
      if negb (bool_decide (om_UID (inc_Meta incident) = oi_UID (ras_IncidentRef (ap_Spec approval))))
      then reject approval ApprovalPhaseSuperseded ApprovalResultTargetChanged "IncidentReplaced"
             "referenced incident UID does not match"
      else mret (inr incident)
  end.

(** The approved action and whether only a replay may be verified, before the
    incident's phase is considered. *)
Definition chooseAction (approval : RemediationApproval) (incident : DeletionIncident)
    : option RemediationAction * bool :=
  let currentAction := findAction (di_RecommendedActions (inc_Status incident)) (ras_ActionID (ap_Spec approval)) in
  match st_Action (ap_Status approval) with
  | Some recorded => (Some recorded, bool_decide (currentAction = None) ||
                                     negb (bool_decide (currentAction = Some recorded)))
  | None => (currentAction, false)
  end.

Definition selectAction (approval : RemediationApproval) (incident : DeletionIncident)
    : P (ret + RemediationAction * bool) :=
  let '(action, replayVerification) := chooseAction approval incident in
  match action with
  | Some action =>
    if negb (bool_decide (ra_ID action = ras_ActionID (ap_Spec approval)))
    then reject approval ApprovalPhaseSuperseded ApprovalResultTargetChanged "ActionChanged"
           "approved action is not current"
    else if negb (actionBelongsToIncident (Some action) (dis_Target (inc_Spec incident)))
    then reject approval ApprovalPhaseSuperseded ApprovalResultTargetChanged "ActionTargetChanged"
           "approved action is not bound to the incident target"
    else
      let inactive :=
        negb (bool_decide (di_Phase (inc_Status incident) = IncidentPhaseActive)) ||
        bool_decide (di_ActivePolicyRef (inc_Status incident) = None) in
      if inactive && (negb (bool_decide (st_Phase (ap_Status approval) = ApprovalPhaseRunning)) ||
                      bool_decide (st_Action (ap_Status approval) = None))
      then reject approval ApprovalPhaseSuperseded ApprovalResultTargetChanged "IncidentInactive"
             "incident is not active"
      else
        let replayVerification := if inactive then true else replayVerification in
        if replayVerification then mret (inr (action, true))
        else
          t ← now;
          if negb (actionEvidenceCurrent (inc_Status incident) t)
          then reject approval ApprovalPhaseSuperseded ApprovalResultTargetChanged "EvidenceExpired"
                 "the diagnosis evidence backing the approved action is stale"
          else mret (inr (action, false))
  | None =>
      reject approval ApprovalPhaseSuperseded ApprovalResultTargetChanged "ActionChanged"
        "approved action is not current"
  end.

(** Check the active policy before waiting for the target lock; the result is
    the pinned policy revision and the expiry of the approval. *)
Definition validatePolicy (approval : RemediationApproval) (incident : DeletionIncident)
    (action : RemediationAction) : P (ret + PolicyReference * Time) :=
  policyRef ← deref (di_ActivePolicyRef (inc_Status incident));
  res ← getPolicy (pr_Name policyRef);
  match res with
  | inl err =>
      if IsNotFound err
      then reject approval ApprovalPhaseFailed ApprovalResultRejectedByPolicy "PolicyNotFound"
             "active policy no longer exists"
      else fail (Some err)
  | inr source =>
    if negb (bool_decide (om_UID (tp_Meta source) = pr_UID policyRef)) ||
       negb (bool_decide (om_Generation (tp_Meta source) = pr_Generation policyRef))
    then reject approval ApprovalPhaseSuperseded ApprovalResultRejectedByPolicy "PolicyChanged"
           "active policy revision changed"
    else
      catalog ← snapshot;
      t0 ← now;
      let policy := Some (fst (Compile (Some source) catalog t0)) in
      if negb (Ready policy) then fail (Some (ErrNew "current policy cannot be safely compiled"))
      else
        let expires := Time_Add (om_CreationTimestamp (ap_Meta approval)) (set_ApprovalTTL (Policy_Settings policy)) in
        t ← now;
        if negb (Time_Before t expires)
        then reject approval ApprovalPhaseExpired ApprovalResultRejectedByPolicy "ApprovalExpired"
               "approval TTL elapsed"
        else if negb (ra_Eligible action)
        then reject approval ApprovalPhaseFailed ApprovalResultRejectedByPolicy "ActionIneligible"
               "action is not eligible"
        else
          let '(eligible, reason) := ActionEligibility policy (ra_Type action) (ra_Finalizer action) in
          if negb eligible
          then reject approval ApprovalPhaseFailed ApprovalResultRejectedByPolicy "RejectedByPolicy" reason
          else if negb (bool_decide (RiskFor (ra_Type action) (ra_Finalizer action) = ra_Risk action))
          then reject approval ApprovalPhaseSuperseded ApprovalResultRejectedByPolicy "RiskChanged"
                 "action risk does not match operator classification"
          else mret (inr (policyRef, expires))
  end.

Definition stamp (attempt : RemediationAttempt) (t : Time) (action : RemediationAction) (dryRun : bool)
    : RemediationAttempt :=
  mkRemediationAttempt t (ra_Type action) dryRun (at_ResourceVersionBefore attempt)
    (at_ResourceVersionAfter attempt) (at_Result attempt) (at_ErrorReason attempt) (at_Message attempt).
Definition with_result (a : RemediationAttempt) (result reason message : string) : RemediationAttempt :=
  mkRemediationAttempt (at_Time a) (at_ActionType a) (at_DryRun a) (at_ResourceVersionBefore a)
    (at_ResourceVersionAfter a) result reason message.

Definition remediationMetric (action : RemediationAction) (result : ApprovalResult) (dryRun : bool) : P unit :=
  call (EMetric [ra_Type action; ra_Risk action; result; fmt_t dryRun]).

(** The replay branch: verify that the recorded action is already satisfied. *)
Definition replayApproval (approval : RemediationApproval) (incident : DeletionIncident)
    (action : RemediationAction) (lockedIncident : error + DeletionIncident) : P ret :=
  if negb (bool_decide (st_Phase (ap_Status approval) = ApprovalPhaseRunning)) ||
     negb (bool_decide (st_Action (ap_Status approval) = Some action))
  then finish approval ApprovalPhaseSuperseded ApprovalResultTargetChanged "ReplayStateChanged"
         "durable action snapshot is unavailable"
  else if match lockedIncident with
          | inr locked => negb (bool_decide (om_UID (inc_Meta locked) = om_UID (inc_Meta incident)))
          | inl _ => false
          end
  then finish approval ApprovalPhaseSuperseded ApprovalResultTargetChanged "IncidentReplaced"
         "referenced incident changed during replay"
  else
    let dryRun := ras_DryRun (ap_Spec approval) in
    '(attempt, outcome, satisfied, err) ← verifySatisfied action dryRun;
    t ← now;
    let attempt := stamp attempt t action dryRun in
    match err with
    | Some e => mret (noResult, Some e)
    | None =>
      if negb satisfied
      then finish approval ApprovalPhaseSuperseded outcome "ReplayNotSatisfied"
             "incident changed and the approved action is not already satisfied"
      else
        err ← recordTerminalAttempt (om_Name (ap_Meta approval))
                (with_result attempt outcome (at_ErrorReason attempt) (at_Message attempt))
                ApprovalPhaseSucceeded outcome;
        match err with
        | Some e => mret (noResult, Some e)
        | None => remediationMetric action outcome dryRun ;; mret (noResult, None)
        end
    end.

(** The checks repeated under the target lock, on freshly read objects; the
    result is the locked action and incident, the recompiled policy and the
    expiry. *)
Definition confirmIncident (approval : RemediationApproval) (incident : DeletionIncident)
    (action : RemediationAction) (policyRef : PolicyReference) (expires : Time)
    (lockedIncident : error + DeletionIncident) : P (ret + DeletionIncident * RemediationAction) :=
  t ← now;
  if negb (Time_Before t expires)
  then reject approval ApprovalPhaseExpired ApprovalResultRejectedByPolicy "ApprovalExpired"
         "approval TTL elapsed while waiting for target lock"
  else
    let changed := reject approval ApprovalPhaseSuperseded ApprovalResultTargetChanged "IncidentChanged"
                     "incident changed while waiting for target lock" in
    match lockedIncident with
    | inl _ => changed
    | inr locked =>
      if negb (bool_decide (om_UID (inc_Meta locked) = om_UID (inc_Meta incident))) ||
         negb (bool_decide (di_Phase (inc_Status locked) = IncidentPhaseActive)) ||
         negb (bool_decide (di_ActivePolicyRef (inc_Status locked) = Some policyRef))
      then changed
      else
        t ← now;
        if negb (actionEvidenceCurrent (inc_Status locked) t)
        then reject approval ApprovalPhaseSuperseded ApprovalResultTargetChanged "EvidenceExpired"
               "diagnosis evidence expired while waiting for the target lock"
        else
          match findAction (di_RecommendedActions (inc_Status locked)) (ras_ActionID (ap_Spec approval)) with
          | Some lockedAction =>
              if negb (bool_decide (lockedAction = action))
              then reject approval ApprovalPhaseSuperseded ApprovalResultTargetChanged "ActionChanged"
                     "incident action changed while waiting for target lock"
              else mret (inr (locked, lockedAction))
          | None =>
              reject approval ApprovalPhaseSuperseded ApprovalResultTargetChanged "ActionChanged"
                "incident action changed while waiting for target lock"
          end
    end.

Definition confirmPolicy (approval : RemediationApproval) (policyRef : PolicyReference)
    : P (ret + CompiledPolicy * Time) :=
  res ← getPolicy (pr_Name policyRef);
  match res with
  | inl err =>
      if IsNotFound err
      then reject approval ApprovalPhaseFailed ApprovalResultRejectedByPolicy "PolicyNotFound"
             "active policy no longer exists"
      else fail (Some err)
  | inr lockedSource =>
    if negb (bool_decide (om_UID (tp_Meta lockedSource) = pr_UID policyRef)) ||
       negb (bool_decide (om_Generation (tp_Meta lockedSource) = pr_Generation policyRef))
    then reject approval ApprovalPhaseSuperseded ApprovalResultRejectedByPolicy "PolicyChanged"
           "active policy revision changed while waiting for target lock"
    else
      catalog ← snapshot;
      t0 ← now;
      let policy := fst (Compile (Some lockedSource) catalog t0) in
      if negb (Ready (Some policy))
      then fail (Some (ErrNew "current policy cannot be safely compiled after target lock"))
      else
        let expires := Time_Add (om_CreationTimestamp (ap_Meta approval))
                         (set_ApprovalTTL (Policy_Settings (Some policy))) in
        t ← now;
        if negb (Time_Before t expires)
        then reject approval ApprovalPhaseExpired ApprovalResultRejectedByPolicy "ApprovalExpired"
               "approval TTL elapsed during final validation"
        else mret (inr (policy, expires))
  end.

Context (maxAttempts : Z).

(** The delay before the next attempt. *)
Definition requeueDelay (err : error) (remaining : Duration) : Duration :=
  let delay :=
    match SuggestsClientDelay err with
    | Some seconds =>
        let suggestedDelay := int64 (seconds * Second) in
        if bool_decide (retryDelay < suggestedDelay)%Z then suggestedDelay else retryDelay
    | None => retryDelay
    end in
  if bool_decide (remaining < delay)%Z then remaining else delay.

(** What [Reconcile] does with the outcome of [execute]. *)
Definition settleAttempt (approval : RemediationApproval) (action : RemediationAction) (expires : Time)
    (attempt : RemediationAttempt) (outcome : ApprovalResult) (err : option error) : P ret :=
  let name := om_Name (ap_Meta approval) in
  let dryRun := ras_DryRun (ap_Spec approval) in
  match err with
  | None =>
      let phase := if dryRun then ApprovalPhaseDryRunSucceeded else ApprovalPhaseSucceeded in
      statusErr ← recordTerminalAttempt name
        (with_result attempt outcome (at_ErrorReason attempt) (at_Message attempt)) phase outcome;
      match statusErr with
      | Some e => mret (noResult, Some e)
      | None =>
          remediationMetric action outcome dryRun ;;
          call (EEvent "Normal" "RemediationCompleted" "ExecuteRemediation"
                  (ra_Type action +:+ " completed with " +:+ outcome)) ;;
          mret (noResult, None)
      end
  | Some err =>
    match As_terminal err with
    | Some terminalErr =>
      statusErr ← recordTerminalAttempt name
        (with_result attempt (te_result terminalErr) (te_reason terminalErr)
           (sanitize (te_message terminalErr) 1024)) (te_phase terminalErr) (te_result terminalErr);
      match statusErr with
      | Some e => mret (noResult, Some e)
      | None =>
          remediationMetric action (te_result terminalErr) dryRun ;;
          call (EEvent "Warning" "RemediationRejected" "ExecuteRemediation"
                  (ra_Type action +:+ " ended with " +:+ te_result terminalErr)) ;;
          mret (noResult, None)
      end
    | None =>
      statusErr ← recordRetryAttempt name
        (with_result attempt ApprovalResultAPIError (errorReason err) apiFailureMessage);
      match statusErr with
      | Some e => mret (noResult, Some e)
      | None =>
        remediationMetric action ApprovalResultAPIError dryRun ;;
        if negb (transient err) ||
           bool_decide (maxAttempts ≤ Z.of_nat (length (st_Attempts (ap_Status approval))) + 1)%Z
        then
          e ← finishByName name ApprovalPhaseFailed ApprovalResultAPIError (errorReason err) "remediation failed";
          mret (noResult, e)
        else
          t ← now;
          let remaining := Time_Sub expires t in
          if bool_decide (remaining ≤ 0)%Z
          then
            e ← finishByName name ApprovalPhaseExpired ApprovalResultAPIError "ApprovalExpired"
                  "approval expired after a failed attempt";
            mret (noResult, e)
          else mret (mkResult (requeueDelay err remaining), None)
      end
    end
  end.

(** One recorded attempt: mark the approval running, execute, settle. *)
Definition attemptAction (approval : RemediationApproval) (locked : DeletionIncident)
    (action : RemediationAction) (policy : CompiledPolicy) (expires : Time) : P ret :=
  if bool_decide (maxAttempts ≤ Z.of_nat (length (st_Attempts (ap_Status approval))))%Z
  then finish approval ApprovalPhaseFailed ApprovalResultAPIError "AttemptsExhausted"
         "maximum remediation attempts exhausted"
  else
    running ← markRunning approval action;
    match running with
    | Some e => mret (noResult, Some e)
    | None =>
        let dryRun := ras_DryRun (ap_Spec approval) in
        '(attempt, outcome, err) ← execute action (Some (dis_Target (inc_Spec locked))) (Some policy) dryRun;
        t ← now;
        settleAttempt approval action expires (stamp attempt t action dryRun) outcome err
    end.

(** What runs between [lock] and the deferred [unlock]; [pinned] is [None] when
    only a replay is verified. *)
Definition reconcileLocked (request : NamespacedName) (incident : DeletionIncident)
    (action : RemediationAction) (pinned : option (PolicyReference * Time)) : P ret :=
  res ← getApproval request;
  match res with
  | inl err => mret (noResult, IgnoreNotFound err)
  | inr approval =>
    if terminal (st_Phase (ap_Status approval)) then mret (noResult, None)
    else
      lockedIncident ← getIncident (oi_Name (ras_IncidentRef (ap_Spec approval)));
      if match lockedIncident with inl err => negb (IsNotFound err) | inr _ => false end
      then mret (noResult, match lockedIncident with inl err => Some err | inr _ => None end)
      else match pinned with
      | None => replayApproval approval incident action lockedIncident
      | Some (policyRef, expires) =>
          let? '(locked, lockedAction) :=
            confirmIncident approval incident action policyRef expires lockedIncident in
          let? '(policy, expires) := confirmPolicy approval policyRef in
          attemptAction approval locked lockedAction policy expires
      end
  end.

(** [policyRef] and [expires] stay nil and zero unless the policy is validated. *)
Definition pin (r : ret + PolicyReference * Time) : ret + option (PolicyReference * Time) :=
  match r with inl x => inl x | inr v => inr (Some v) end.

Definition Reconcile (request : NamespacedName) : P ret :=
  res ← getApproval request;
  match res with
  | inl err => mret (noResult, IgnoreNotFound err)
  | inr approval =>
    if terminal (st_Phase (ap_Status approval)) then mret (noResult, None)
    else
      let? incident := loadIncident approval in
      ownerErr ← ensureOwnerReference (om_Name (ap_Meta approval)) incident;
      match ownerErr with
      | Some e => mret (noResult, Some e)
      | None =>
        let? '(action, replayVerification) := selectAction approval incident in
        let? pinned :=
          (if replayVerification : bool then mret (inr None)
           else r ← validatePolicy approval incident action; mret (pin r)) in
        call (ELock (targetKey (ra_Target action))) ;;
        result ← reconcileLocked request incident action pinned;
        call (EUnlock (targetKey (ra_Target action))) ;;
        mret result
      end
  end.
End executor.

(** ** Properties of the helpers *)

Section helpers.
Context `{SchemaOps, UnicodeTables, LabelOps, KubeNames, ApiErrors, CaseTables, ExecutorEnv, !RetryOps resp}.

Lemma slices_Index_Some l x i :
  slices_Index l x = Some i ↔ ∃ l1 l2, l = l1 ++ x :: l2 ∧ x ∉ l1 ∧ i = length l1.
Proof using.
  revert i. induction l as [|y l IH]; intros i; simpl.
  { split; [done|]. by intros ([|] & ? & ? & _). }
  case_decide as Hy.
  - subst y. split.
    + intros [= <-]. exists [], l. split_and!; [done|apply not_elem_of_nil|done].
    + intros ([|z l1] & l2 & E1 & Hx & ->); [done|]. injection E1 as -> ->. by destruct Hx; left.
  - rewrite fmap_Some. setoid_rewrite IH. split.
    + intros (j & (l1 & l2 & -> & Hx & ->) & ->). exists (y :: l1), l2. rewrite not_elem_of_cons. done.
    + intros ([|z l1] & l2 & E1 & Hx & ->); injection E1 as -> ->; [done|].
      apply not_elem_of_cons in Hx as [_ Hx]. exists (length l1). split; [|done]. eauto.
Qed.

Lemma finalizer_pointer i :
  pointer ("/metadata/finalizers/" +:+ fmt_d (Z.of_nat i)) = ["metadata"; "finalizers"; fmt_d (Z.of_nat i)].
Proof using.
  unfold pointer. change ("/metadata/finalizers/" +:+ ?s) with
    ("" +:+ String (chr 47) ("metadata" +:+ String (chr 47) ("finalizers" +:+ String (chr 47) s))).
  rewrite !split_tokens_app by done. simpl. f_equal. f_equal. apply fmt_d_no_slash.
Qed.

Lemma apply_remove path doc :
  apply_op (JObj [("op", JStr "remove"); ("path", JStr path)]) doc = json_remove (pointer path) doc.
Proof using. done. Qed.

(** A test of a metadata field either leaves the document alone or fails. *)
Lemma apply_metadata_test path k v doc meta :
  pointer path = ["metadata"; k] → field "metadata" doc = Some (JObj meta) →
  apply_op (JObj [("op", JStr "test"); ("path", JStr path); ("value", v)]) (JObj doc) =
  match field k meta with Some w => if json_eqb v w then Some (JObj doc) else None | None => None end.
Proof using.
  intros Hp Hm. cbn [apply_op field]. simpl. rewrite Hp. cbn [json_at]. rewrite Hm. simpl.
  by destruct (field k meta).
Qed.

Lemma field_test_Some v (ow : option json) (doc : json) (rest : json → option json) doc' :
  (∀ w, json_eqb v w = true ↔ w = v) →
  (match ow with Some w => if json_eqb v w then Some doc else None | None => None end ≫= rest) = Some doc' ↔
  ow = Some v ∧ rest doc = Some doc'.
Proof using.
  intros Hv. destruct ow as [w|]; simpl; [|naive_solver].
  destruct (json_eqb v w) eqn:E; simpl.
  - apply Hv in E as ->. naive_solver.
  - split; [done|]. intros [[= ->] _]. rewrite (proj2 (Hv v) eq_refl) in E. done.
Qed.

(** C23: the patch the executor sends is exact under RFC 6902: the API can apply
    it only to a document whose UID, resource version and complete finalizer list
    are those just read, and the result is that document with the first
    occurrence of the approved finalizer removed and nothing else changed. *)
Theorem finalizerPatch_exact object finalizer index doc meta doc' :
  slices_Index (GetFinalizers object) finalizer = Some index →
  field "metadata" doc = Some (JObj meta) →
  apply_patch (patchOperations object index) (JObj doc) = Some doc' ↔
  field "uid" meta = Some (JStr (GetUID object)) ∧
  field "resourceVersion" meta = Some (JStr (GetResourceVersion object)) ∧
  field "finalizers" meta = Some (JArr (JStr <$> GetFinalizers object)) ∧
  ∃ l1 l2, GetFinalizers object = l1 ++ finalizer :: l2 ∧ finalizer ∉ l1 ∧
    doc' = JObj (set_field "metadata"
             (JObj (set_field "finalizers" (JArr (JStr <$> (l1 ++ l2))) meta)) doc).
Proof.
  intros Hi Hm. pose proof Hi as (l1 & l2 & Hl & Hnot & ->)%slices_Index_Some.
  unfold patchOperations. cbn [apply_patch].
  rewrite (apply_metadata_test _ "uid" _ _ meta), field_test_Some by (done || apply json_eqb_str_l).
  rewrite (apply_metadata_test _ "resourceVersion" _ _ meta), field_test_Some by (done || apply json_eqb_str_l).
  rewrite (apply_metadata_test _ "finalizers" _ _ meta), field_test_Some by (done || apply json_eqb_strs_l).
  rewrite apply_remove, finalizer_pointer. cbn [json_remove]. rewrite Hm. cbn [json_remove mbind option_bind].
  split.
  - intros (Hu & Hr & Hf & E). split_and!; try done. exists l1, l2. split_and!; try done.
    rewrite Hf in E. cbn [json_remove mbind option_bind] in E.
    rewrite length_fmap, array_index_fmt in E by (rewrite Hl, length_app; simpl; lia).
    rewrite Hl, fmap_app, fmap_cons, <-(length_fmap JStr l1) in E.
    cbn in E. rewrite delete_middle, <-fmap_app in E. by injection E as <-.
  - intros (Hu & Hr & Hf & l1' & l2' & Hl' & Hnot' & ->). split_and!; try done. rewrite Hf.
    assert (Hi' : slices_Index (GetFinalizers object) finalizer = Some (length l1'))
      by (apply slices_Index_Some; eauto).
    rewrite Hi in Hi'. injection Hi' as Hlen. rewrite Hl in Hl'.
    apply app_inj_1 in Hl' as [-> [= ->]]; [|done].
    cbn [json_remove mbind option_bind].
    rewrite length_fmap, array_index_fmt by (rewrite Hl, length_app; simpl; lia).
    rewrite Hl, fmap_app, fmap_cons, <-(length_fmap JStr l1').
    cbn. by rewrite delete_middle, <-fmap_app.
Qed.

(** *** Lock keys *)

(** The lock key identifies the target: two references whose components
    contain no NUL byte (as no Kubernetes name, group or UID does) share a lock
    exactly when they name the same object identity. *)
Theorem targetKey_identifies t1 t2 :
  Forall (λ s, nul_free s = true)
    [tr_APIGroup t1; tr_Resource t1; tr_Namespace t1; tr_Name t1; tr_UID t1;
     tr_APIGroup t2; tr_Resource t2; tr_Namespace t2; tr_Name t2; tr_UID t2] →
  targetKey t1 = targetKey t2 ↔ sameTargetIdentity t1 t2 = true.
Proof.
  rewrite !Forall_cons. intros (? & ? & ? & ? & ? & ? & ? & ? & ? & ? & _).
  unfold sameTargetIdentity. rewrite !andb_true_iff, !bool_decide_eq_true. unfold targetKey. cbn [strings_Join].
  change (String (chr 0) "" +:+ ?r) with (String (chr 0) r). split.
  - intros E. apply nul_split in E as [E1 E]; [|done..]. apply nul_split in E as [E2 E]; [|done..].
    apply nul_split in E as [E3 E]; [|done..]. apply nul_split in E as [E4 E]; [|done..]. done.
  - intros ((((-> & ->) & ->) & ->) & ->). done.
Qed.

(** *** Text that goes into statuses and events *)

Lemma bytes_of_list zs : String.list_ascii_of_string (bytes_of zs) = chr <$> zs.
Proof using. induction zs as [|z zs IH]; simpl; [done|]. by rewrite IH. Qed.

Lemma encode_rune_printable r :
  (32 ≤ r)%Z → Forall (λ z, 32 ≤ z < 256)%Z (encode_rune r).
Proof using.
  intros Hr. unfold encode_rune, valid_rune.
  destruct (_ || _) eqn:E; simpl; [|repeat constructor; lia].
  apply orb_true_iff in E. rewrite !andb_true_iff, !Z.leb_le, !Z.ltb_lt in E.
  repeat case_match; repeat constructor; rewrite ?Z.ltb_lt, ?Z.ltb_ge in *;
    repeat match goal with |- context [(?a / ?b)%Z] => pose proof (Z.div_mod a b); generalize dependent (a / b)%Z; intros end;
    Z.to_euclidean_division_equations; nia.
Qed.

Lemma str_take_length n s : String.length (str_take n s) ≤ n.
Proof using. revert s. induction n as [|n IH]; intros [|c s]; simpl; [lia..|]. specialize (IH s). unfold str_take in IH. lia. Qed.

Lemma str_take_list n s :
  String.list_ascii_of_string (str_take n s) = take n (String.list_ascii_of_string s).
Proof using.
  unfold str_take. revert s. induction n as [|n IH]; intros [|c s]; simpl; [done..|]. by rewrite IH.
Qed.

(** Sanitized text is bounded and free of control characters: at most
    [maximum] bytes, each of them at least 0x20, whatever the input bytes. *)
Theorem sanitize_bounds value maximum :
  (0 ≤ maximum)%Z →
  (lenZ (sanitize value maximum) ≤ maximum)%Z ∧
  Forall (λ c, 32 ≤ byteZ c)%Z (String.list_ascii_of_string (sanitize value maximum)).
Proof.
  intros Hmax. unfold sanitize. set (mapped := strings_Map _ _). split.
  - case_bool_decide as E; [|lia]. unfold lenZ. pose proof (str_take_length (Z.to_nat maximum) mapped). lia.
  - assert (Hm : Forall (λ c, 32 ≤ byteZ c)%Z (String.list_ascii_of_string mapped)).
    { unfold mapped, strings_Map, of_runes. rewrite bytes_of_list. apply Forall_fmap, Forall_bind, Forall_forall.
      intros r Hr. apply list_elem_of_omap in Hr as (r' & _ & Er). destruct (_ && _) eqn:Eb; [done|]. injection Er as ->.
      assert (32 ≤ r)%Z
        by (apply andb_false_iff in Eb as [Eb|Eb]; [apply Z.ltb_ge in Eb|apply negb_false_iff, Z.eqb_eq in Eb]; lia).
      eapply Forall_impl; [by apply encode_rune_printable|].
      intros z Hz. simpl in *. rewrite byteZ_chr; lia. }
    case_bool_decide; [|done]. rewrite str_take_list. by apply Forall_take.
Qed.

(** *** Attempts and actions *)

(** The audit trail keeps the newest attempts: after recording an attempt
    there are at most twenty, the newest is last, and they are the tail of the
    trail with the attempt appended. *)
Theorem appendBounded_correct attempts attempt :
  let l := appendBounded attempts attempt in
  (Z.of_nat (length l) ≤ maxAuditAttempts)%Z ∧ last l = Some attempt ∧
  (∃ dropped, attempts ++ [attempt] = dropped ++ l) ∧
  ((Z.of_nat (length attempts) < maxAuditAttempts)%Z → l = attempts ++ [attempt]).
Proof.
  unfold appendBounded, maxAuditAttempts. case_bool_decide as E; rewrite length_app in *; simpl in *.
  - split_and!.
    + rewrite length_drop, length_app. simpl. lia.
    + rewrite drop_app_le by lia. by rewrite last_snoc.
    + eexists. symmetry. apply take_drop.
    + lia.
  - split_and!; [lia|by rewrite last_snoc|by exists []|done].
Qed.

(** An action belongs to an incident exactly when its target is the incident
    target, or when the incident is about a namespace and the action removes a
    finalizer from an identified object in that namespace. *)
Theorem actionBelongsToIncident_iff action incidentTarget :
  let t := ra_Target action in
  actionBelongsToIncident (Some action) incidentTarget = true ↔
  (tr_UID t = tr_UID incidentTarget ∧ tr_APIGroup t = tr_APIGroup incidentTarget ∧
   tr_Resource t = tr_Resource incidentTarget ∧ tr_Namespace t = tr_Namespace incidentTarget ∧
   tr_Name t = tr_Name incidentTarget) ∨
  (tr_APIGroup incidentTarget = "" ∧ tr_Resource incidentTarget = "namespaces" ∧
   tr_Namespace incidentTarget = "" ∧ ra_Type action = ActionRemoveResourceFinalizer ∧
   tr_Namespace t = tr_Name incidentTarget ∧ tr_UID t ≠ "" ∧ tr_Name t ≠ "" ∧ tr_Resource t ≠ "").
Proof.
  cbv zeta. unfold actionBelongsToIncident, sameTargetIdentity.
  destruct (_ && _) eqn:E; rewrite ?andb_true_iff, ?bool_decide_eq_true in *; [tauto|].
  apply not_true_iff_false in E. rewrite !andb_true_iff, !bool_decide_eq_true in E. tauto.
Qed.
End helpers.

(** ** Witnesses *)

Section witnesses.

Definition exampleObject : Unstructured :=
  mkUnstructured (mkObjectMeta "w1" "team" "widget-uid" "7" 1 0 None None ∅ ∅ ["keep"; "drop"; "drop"] [])
    (inr None) (inl (mkExternalError "" "" 0 None false)) (inl (mkExternalError "" "" 0 None false)).
Definition exampleMeta (finalizers : list string) : list (string * json) :=
  [("name", JStr "w1"); ("uid", JStr "widget-uid"); ("resourceVersion", JStr "7");
   ("finalizers", JArr (JStr <$> finalizers))].
Definition exampleDoc (finalizers : list string) : list (string * json) :=
  [("kind", JStr "Widget"); ("metadata", JObj (exampleMeta finalizers))].

Lemma finalizerPatch_exact_witness :
  apply_patch (patchOperations exampleObject 1) (JObj (exampleDoc ["keep"; "drop"; "drop"])) =
  Some (JObj (exampleDoc ["keep"; "drop"])).
Proof.
  apply (finalizerPatch_exact exampleObject "drop" 1 _ (exampleMeta ["keep"; "drop"; "drop"])).
  - vm_compute. reflexivity.
  - vm_compute. reflexivity.
  - split; [reflexivity|]. split; [reflexivity|]. split; [reflexivity|].
    exists ["keep"], ["drop"]. split; [reflexivity|]. split; [|reflexivity]. decide_now.
Defined.

Lemma targetKey_identifies_witness :
  let t1 := mkTargetReference "" "v1" "pods" "Pod" "a" "b" "u" in
  let t2 := mkTargetReference "" "v2" "pods" "Pod" "a" "b" "u" in
  let t3 := mkTargetReference "" "v1" "pods" "Pod" "ab" "" "u" in
  targetKey t1 = targetKey t2 ∧ sameTargetIdentity t1 t3 = false.
Proof.
  split; [|vm_compute; reflexivity].
  apply targetKey_identifies; [|vm_compute; reflexivity].
  repeat (apply Forall_cons; split; [vm_compute; reflexivity|]). apply Forall_nil. exact I.
Defined.

Lemma sanitize_bounds_witness :
  (lenZ (sanitize ("reason" +:+ String (chr 10) "more") 8) ≤ 8)%Z ∧
  sanitize ("reason" +:+ String (chr 10) "more") 8 = "reasonmo".
Proof. split; [apply sanitize_bounds; lia|vm_compute; reflexivity]. Defined.
End witnesses.
