(* ===== verification/ExecutorSafety.v ===== *)
(** * Safety of the executor

    What every run of [Reconcile] guarantees, whatever the API, the clock and
    concurrent writers do: each mutating call is authorized by objects read under
    the target lock, status writes follow the audit discipline, no pointer is
    dereferenced when nil, the lock is released, and a requeue never outlasts the
    approval.  Histories are newest first. *)
From S2P Require Import Prelude GoText ApiTypes Schema Discovery Policy GoErrors Prog Json KubeTypes Executor.

Local Open Scope prog_scope.

(** ** Histories *)

Abbreviation hist := (list (event resp)).
(** An event of the executor with its response. *)
Definition did (e : ev) (r : resp e) : event resp := evt e r.

Definition lockEvent (e : ev) : bool :=
  match e with ELock _ | EUnlock _ => true | _ => false end.
Definition mutates (e : ev) : bool :=
  match e with EPatch _ _ _ _ _ | EFinalize _ _ => true | _ => false end.

(** The events since the last lock was taken, and those before it. *)
Fixpoint sinceLock (h : hist) : hist :=
  match h with
  | [] => []
  | x :: h' => if lockEvent (projT1 x) then [] else x :: sinceLock h'
  end.
Fixpoint beforeLock (h : hist) : hist :=
  match h with
  | [] => []
  | x :: h' => if lockEvent (projT1 x) then h' else beforeLock h'
  end.
(** The key of the lock that is held. *)
Fixpoint heldLock (h : hist) : option string :=
  match h with
  | [] => None
  | x :: h' =>
      match projT1 x with
      | ELock key => Some key
      | EUnlock _ => None
      | _ => heldLock h'
      end
  end.

(** [h'] extends [h] without lock events, respectively also without mutations. *)
Definition calm (h h' : hist) : Prop :=
  ∃ l, h' = l ++ h ∧ Forall (λ x : event resp, lockEvent (projT1 x) = false) l.
Definition quiet (h h' : hist) : Prop :=
  ∃ l, h' = l ++ h ∧ Forall (λ x : event resp, lockEvent (projT1 x) = false ∧ mutates (projT1 x) = false) l.

Global Instance calm_pre : PreOrder calm.
Proof.
  split; [by intros h; exists []|]. intros h1 h2 h3 (l & -> & Hl) (l' & -> & Hl').
  exists (l' ++ l). rewrite <-app_assoc, Forall_app. done.
Qed.
Global Instance quiet_pre : PreOrder quiet.
Proof.
  split; [by intros h; exists []|]. intros h1 h2 h3 (l & -> & Hl) (l' & -> & Hl').
  exists (l' ++ l). rewrite <-app_assoc, Forall_app. done.
Qed.

Create HintDb hist.

Lemma quiet_refl h : quiet h h.
Proof. reflexivity. Qed.
Lemma calm_refl h : calm h h.
Proof. reflexivity. Qed.
Lemma quiet_cons h h' x :
  lockEvent (projT1 x) = false → mutates (projT1 x) = false → quiet h h' → quiet h (x :: h').
Proof. intros H1 H2 (l & -> & Hl). exists (x :: l). by repeat constructor. Qed.
Lemma calm_cons h h' x : lockEvent (projT1 x) = false → calm h h' → calm h (x :: h').
Proof. intros H1 (l & -> & Hl). exists (x :: l). by repeat constructor. Qed.
Lemma quiet_calm h h' : quiet h h' → calm h h'.
Proof. intros (l & -> & Hl). exists l. split; [done|]. eapply Forall_impl; [done|]. naive_solver. Qed.

Lemma calm_elem h h' x : calm h h' → x ∈ h → x ∈ h'.
Proof. intros (l & -> & _). set_solver. Qed.

Lemma calm_since h h' x : calm h h' → x ∈ sinceLock h → x ∈ sinceLock h'.
Proof.
  intros (l & -> & Hl) Hx. induction Hl as [|y l Hy Hl IH]; simpl; [done|]. rewrite Hy. set_solver.
Qed.
Lemma calm_before h h' : calm h h' → beforeLock h' = beforeLock h.
Proof. intros (l & -> & Hl). induction Hl as [|y l Hy Hl IH]; simpl; [done|]. by rewrite Hy. Qed.
Lemma calm_held h h' : calm h h' → heldLock h' = heldLock h.
Proof.
  intros (l & -> & Hl). induction Hl as [|[e r] l Hy Hl IH]; simpl in *; [done|]. by destruct e.
Qed.

Definition unmutated (h : hist) : Prop := ∀ x : event resp, x ∈ h → mutates (projT1 x) = false.

Lemma quiet_unmutated h h' : quiet h h' → unmutated h → unmutated h'.
Proof.
  intros (l & -> & Hl) Hh x. rewrite Forall_forall in Hl. rewrite elem_of_app. intros [Hx|Hx].
  - by apply Hl.
  - by apply Hh.
Qed.

#[export] Hint Resolve quiet_refl calm_refl quiet_cons calm_cons quiet_calm : hist.
#[export] Hint Extern 1 (lockEvent _ = false) => reflexivity : hist.
#[export] Hint Extern 1 (mutates _ = false) => reflexivity : hist.

(** Chase a chain of extensions back to its start. *)
Ltac hist_solve :=
  intros; repeat first
    [ reflexivity | assumption | by auto with hist
    | apply quiet_cons; [reflexivity|reflexivity|] | apply calm_cons; [reflexivity|]
    | match goal with
      | H : quiet ?h1 ?h2 |- quiet _ ?h2 => transitivity h1; [clear H|exact H]
      | H : calm ?h1 ?h2 |- calm _ ?h2 => transitivity h1; [clear H|exact H]
      | H : quiet ?h1 ?h2 |- calm _ ?h2 => transitivity h1; [clear H|exact (quiet_calm _ _ H)]
      end ].

(** ** What is permitted *)

Section permissions.
Context `{SchemaOps, UnicodeTables, LabelOps, KubeNames, ApiErrors, CaseTables, ExecutorEnv, !RetryOps resp}.

(** A status was saved: the mutated status was written, or the stored one
    already has the same encoding. *)
Definition Saved (h : hist) (name : string) (st : RemediationApprovalStatus) : Prop :=
  ∃ current, did (EGetApproval ("", name)) (inr current) ∈ h ∧
    (status_Marshal (ap_Status current) = status_Marshal st ∨
     did (EUpdateStatus (with_status current st)) None ∈ h).

(** An action as it was read: recommended by an incident or recorded in an approval. *)
Definition Known (h : hist) (a : RemediationAction) : Prop :=
  (∃ name i, did (EGetIncident name) (inr i) ∈ h ∧ a ∈ di_RecommendedActions (inc_Status i)) ∨
  (∃ key approval, did (EGetApproval key) (inr approval) ∈ h ∧ st_Action (ap_Status approval) = Some a).

(** The record of an attempt at an action: its type, a result of the schema, and
    bounded texts. *)
Record AttemptAt (action : RemediationAction) (a : RemediationAttempt) : Prop := {
  aa_action : at_ActionType a = ra_Type action;
  aa_result : inEnum ApprovalResults (at_Result a) = true;
  aa_reason : withinLength 128 (at_ErrorReason a);
  aa_message : withinLength 1024 (at_Message a)
}.

(** How one status may follow another, given the actions that are known. *)
Record StatusStep (K : RemediationAction → Prop) (before after : RemediationApprovalStatus) : Prop := {
  ss_phase : st_Phase after = ApprovalPhaseRunning ∨ terminal (st_Phase after) = true;
  ss_completed : terminal (st_Phase after) = true → is_Some (st_CompletedTime after);
  ss_action a : st_Action before = Some a → st_Action after = Some a;
  ss_recorded : st_Action after = st_Action before ∨ ∃ a, st_Action after = Some a ∧ K a;
  ss_attempts : st_Attempts after = st_Attempts before ∨
                ∃ action a, st_Attempts after = appendBounded (st_Attempts before) a ∧ K action ∧ AttemptAt action a;
  ss_result : st_Result after = st_Result before ∨ inEnum ApprovalResults (st_Result after) = true;
  ss_conditions : st_Conditions after = st_Conditions before ∨ ∃ c, st_Conditions after = [c]
}.

Lemma Known_calm h h' a : calm h h' → Known h a → Known h' a.
Proof using.
  intros Hc [(n & i & ? & ?)|(k & ap & ? & ?)]; [left|right]; eauto 6 using calm_elem.
Qed.

Lemma StatusStep_mono (K K' : RemediationAction → Prop) before after :
  (∀ a, K a → K' a) → StatusStep K before after → StatusStep K' before after.
Proof using. intros Hk [? ? ? Hr Ha ? ?]. split; [done..| | |done|done]; [destruct Hr|destruct Ha]; naive_solver. Qed.

(** Such a step stays within the schema. *)
Lemma AttemptAt_typed action a : ActionTyped action → AttemptAt action a → AttemptTyped a.
Proof using. intros Ht [Ha ? ? ?]. split; [|done..]. rewrite Ha. by apply acty_type. Qed.

Lemma appendBounded_typed attempts attempt :
  Forall AttemptTyped attempts → AttemptTyped attempt →
  length (appendBounded attempts attempt) ≤ 20 ∧ Forall AttemptTyped (appendBounded attempts attempt).
Proof using.
  intros Hall Ha. destruct (appendBounded_correct attempts attempt) as (Hlen & _ & [dropped Hd] & _).
  unfold maxAuditAttempts in Hlen. split; [lia|].
  assert (Hf : Forall AttemptTyped (attempts ++ [attempt])) by (apply Forall_app; by rewrite Forall_singleton).
  rewrite Hd, Forall_app in Hf. by destruct Hf.
Qed.

Lemma terminal_enum phase : terminal phase = true → inEnum ApprovalPhases phase = true.
Proof using.
  unfold terminal, inEnum. intros Ht. apply bool_decide_eq_true.
  repeat (apply orb_true_iff in Ht as [Ht|Ht]); apply bool_decide_eq_true in Ht as ->; by vm_compute; set_solver.
Qed.

Lemma StatusStep_typed (K : RemediationAction → Prop) before after :
  (∀ a, K a → ActionTyped a) → StatusStep K before after → ApprovalStatusTyped before → ApprovalStatusTyped after.
Proof using.
  intros HK [Hp _ _ Hrec Ha Hr Hc] [? Hbr Hba ? ? ?].
  assert (Hat : st_Attempts after = st_Attempts before ∨ ∃ a, st_Attempts after = appendBounded (st_Attempts before) a ∧ AttemptTyped a).
  { destruct Ha as [?|(action & a & ? & ? & ?)]; [by left|right]. exists a. split; [done|]. eapply AttemptAt_typed; eauto. }
  split.
  - apply inEnum_or_empty. destruct Hp as [->|Hp]; [done|by apply terminal_enum].
  - destruct Hr as [->|Hr]; [done|by apply inEnum_or_empty].
  - intros a E. destruct Hrec as [E'|(b & E' & Hb)]; rewrite E' in E; [by apply Hba|]. injection E as <-. by apply HK.
  - destruct Hat as [->|(a & -> & Hat)]; [done|by apply appendBounded_typed].
  - destruct Hat as [->|(a & -> & Hat)]; [done|by apply appendBounded_typed].
  - destruct Hc as [->|[c ->]]; [done|]. simpl. apply NoDup_singleton.
Qed.

Definition StatusWrite (h : hist) (a : RemediationApproval) : Prop :=
  ∃ name current, did (EGetApproval ("", name)) (inr current) ∈ h ∧
    ap_Meta a = ap_Meta current ∧ ap_Spec a = ap_Spec current ∧
    StatusStep (Known h) (ap_Status current) (ap_Status a).

(** The owner patch adds the incident to the owners of the approval read. *)
Definition OwnerWrite (h : hist) (base current : RemediationApproval) : Prop :=
  ∃ name incident owner, did (EGetApproval ("", name)) (inr base) ∈ h ∧
    did (EGetIncident incident) (inr owner) ∈ h ∧
    ap_Spec current = ap_Spec base ∧ ap_Status current = ap_Status base ∧
    ap_Meta current = with_owners (ap_Meta base)
      (om_OwnerReferences (ap_Meta base) ++
       [mkOwnerReference GroupVersion_String "DeletionIncident" (om_Name (inc_Meta owner)) (om_UID (inc_Meta owner))]).

(** The policy selects the incident's target, judged on objects read since the
    lock was taken. *)
Definition PolicySelects (under : hist) (policy : CompiledPolicy) (incidentTarget : TargetReference)
    (action : RemediationAction) (current : Unstructured) : Prop :=
  ∃ target object, Match (Some policy) target = true ∧
    t_GroupResource target = mkGR (tr_APIGroup incidentTarget) (tr_Resource incidentTarget) ∧
    t_Namespace target = tr_Namespace incidentTarget ∧
    t_Labels target = GetLabels object ∧
    (object = current ∧ sameTargetIdentity (ra_Target action) incidentTarget = true ∨
     GetUID object = tr_UID incidentTarget ∧
     ∃ gvr, did (EDynGet gvr (tr_Namespace incidentTarget) (tr_Name incidentTarget)) (inr object) ∈ under) ∧
    (t_Namespaced target = true → ∃ namespace,
       did (EDynGet (mkGVR "" "v1" "namespaces") "" (tr_Namespace incidentTarget)) (inr namespace) ∈ under ∧
       t_NamespaceLabels target = GetLabels namespace).

(** The call that carries out an action on the object [current] just read. *)
Definition ActionCall (action : RemediationAction) (current : Unstructured) (gvr : GroupVersionResource)
    (dryRun : bool) (e : ev) : Prop :=
  (∃ index, ra_Type action ∈ [ActionRemoveResourceFinalizer; ActionRemoveCRDFinalizer] ∧
     slices_Index (GetFinalizers current) (ra_Finalizer action) = Some index ∧
     e = EPatch gvr (tr_Namespace (ra_Target action)) (tr_Name (ra_Target action))
           (finalizerPatch current index) dryRun) ∨
  (ra_Type action = ActionForceFinalizeNamespace ∧
   (tr_APIGroup (ra_Target action) = "" ∧ tr_Resource (ra_Target action) = "namespaces" ∧
    tr_Namespace (ra_Target action) = "") ∧
   e = EFinalize (mkNamespace (mkObjectMeta (GetName current) "" (GetUID current) (GetResourceVersion current)
                                 0 0 None None ∅ ∅ [] []) [] []) dryRun).

Context (request : NamespacedName) (maxAttempts : Z).

(** Checked before the lock was requested: the incident is the one the approval
    names, the action is bound to it, and the policy revision makes it eligible
    at the operator's own risk. *)
Record Preapproved (before : hist) (incident : DeletionIncident) (action : RemediationAction)
    (policyRef : PolicyReference) : Prop := {
  pa_incident : ∃ approval,
    did (EGetApproval request) (inr approval) ∈ before ∧
    terminal (st_Phase (ap_Status approval)) = false ∧
    did (EGetIncident (oi_Name (ras_IncidentRef (ap_Spec approval)))) (inr incident) ∈ before ∧
    om_UID (inc_Meta incident) = oi_UID (ras_IncidentRef (ap_Spec approval));
  pa_bound : actionBelongsToIncident (Some action) (dis_Target (inc_Spec incident)) = true;
  pa_flag : ra_Eligible action = true;
  pa_risk : RiskFor (ra_Type action) (ra_Finalizer action) = ra_Risk action;
  pa_eligible : ∃ source catalog t,
    did (EGetPolicy (pr_Name policyRef)) (inr source) ∈ before ∧
    om_UID (tp_Meta source) = pr_UID policyRef ∧ om_Generation (tp_Meta source) = pr_Generation policyRef ∧
    did ESnapshot catalog ∈ before ∧
    fst (ActionEligibility (Some (fst (Compile (Some source) catalog t)))
           (ra_Type action) (ra_Finalizer action)) = true
}.

(** Read again under the lock. *)
Record ConfirmedIncident (under : hist) (approval : RemediationApproval) (incident locked : DeletionIncident)
    (action : RemediationAction) (policyRef : PolicyReference) : Prop := {
  ci_approval : did (EGetApproval request) (inr approval) ∈ under;
  ci_open : terminal (st_Phase (ap_Status approval)) = false;
  ci_read : did (EGetIncident (oi_Name (ras_IncidentRef (ap_Spec approval)))) (inr locked) ∈ under;
  ci_same : om_UID (inc_Meta locked) = om_UID (inc_Meta incident);
  ci_active : di_Phase (inc_Status locked) = IncidentPhaseActive;
  ci_policyRef : di_ActivePolicyRef (inc_Status locked) = Some policyRef;
  ci_evidence : ∃ t, did ENow t ∈ under ∧ actionEvidenceCurrent (inc_Status locked) t = true;
  ci_action : findAction (di_RecommendedActions (inc_Status locked)) (ras_ActionID (ap_Spec approval)) = Some action
}.

Record ConfirmedPolicy (under : hist) (approval : RemediationApproval) (policyRef : PolicyReference)
    (policy : CompiledPolicy) (expires : Time) : Prop := {
  cp_source : ∃ source catalog t0,
    did (EGetPolicy (pr_Name policyRef)) (inr source) ∈ under ∧
    om_UID (tp_Meta source) = pr_UID policyRef ∧ om_Generation (tp_Meta source) = pr_Generation policyRef ∧
    did ESnapshot catalog ∈ under ∧ policy = fst (Compile (Some source) catalog t0);
  cp_ready : p_ready policy = true;
  cp_expires : expires = (om_CreationTimestamp (ap_Meta approval) + set_ApprovalTTL (p_settings policy))%Z;
  cp_alive : ∃ t, did ENow t ∈ under ∧ (t < expires)%Z
}.

(** The object about to be changed is the approved one, unchanged since the
    diagnosis, and the policy still selects it. *)
Record ConfirmedTarget (under : hist) (action : RemediationAction) (incidentTarget : TargetReference)
    (policy : CompiledPolicy) (dryRun : bool) (e : ev) : Prop := {
  ct_current : ∃ current gvr,
    did (EDynGet gvr (tr_Namespace (ra_Target action)) (tr_Name (ra_Target action))) (inr current) ∈ under ∧
    GVR_GroupResource gvr = mkGR (tr_APIGroup (ra_Target action)) (tr_Resource (ra_Target action)) ∧
    GetUID current = tr_UID (ra_Target action) ∧
    GetResourceVersion current = ra_PreconditionResourceVersion action ∧
    PolicySelects under policy incidentTarget action current ∧
    ActionCall action current gvr dryRun e
}.

(** Durable evidence of the attempt, saved before anything is changed. *)
Definition RunningSaved (under : hist) (approval : RemediationApproval) (action : RemediationAction) : Prop :=
  ∃ st, Saved under (om_Name (ap_Meta approval)) st ∧
    st_Phase st = ApprovalPhaseRunning ∧ is_Some (st_Action st).

Definition Authorized (h : hist) (e : ev) : Prop :=
  unmutated h ∧
  ∃ approval incident locked action policyRef policy expires,
    heldLock h = Some (targetKey (ra_Target action)) ∧
    Preapproved (beforeLock h) incident action policyRef ∧
    ConfirmedIncident (sinceLock h) approval incident locked action policyRef ∧
    ConfirmedPolicy (sinceLock h) approval policyRef policy expires ∧
    (Z.of_nat (length (st_Attempts (ap_Status approval))) < maxAttempts)%Z ∧
    RunningSaved (sinceLock h) approval action ∧
    ConfirmedTarget (sinceLock h) action (dis_Target (inc_Spec locked)) policy
      (ras_DryRun (ap_Spec approval)) e.

Definition permitted (h : hist) (e : ev) : Prop :=
  match e with
  | EPatch _ _ _ _ _ | EFinalize _ _ => Authorized h e
  | EUpdateStatus a => StatusWrite h a
  | EPatchApproval base current => OwnerWrite h base current
  | EPanic => False
  | _ => True
  end.
End permissions.

(** The records move along calm extensions of a history. *)
Section transport.
Context `{SchemaOps, UnicodeTables, LabelOps, KubeNames, ApiErrors, CaseTables, ExecutorEnv, !RetryOps resp}.
Context (u u' : hist) (Hsub : ∀ x, x ∈ u → x ∈ u').

Lemma Saved_mono name st : Saved u name st → Saved u' name st.
Proof using Hsub. intros (c & Hc & [Hs|Hs]); exists c; auto. Qed.
Lemma RunningSaved_mono approval action : RunningSaved u approval action → RunningSaved u' approval action.
Proof using Hsub. intros (st & Hs & Hp). exists st. split; [by apply Saved_mono|done]. Qed.
Lemma ConfirmedIncident_mono request approval incident locked action ref :
  ConfirmedIncident request u approval incident locked action ref →
  ConfirmedIncident request u' approval incident locked action ref.
Proof using Hsub. intros []. split; auto. naive_solver. Qed.
Lemma ConfirmedPolicy_mono approval ref policy expires :
  ConfirmedPolicy u approval ref policy expires → ConfirmedPolicy u' approval ref policy expires.
Proof using Hsub. intros []. split; auto; naive_solver. Qed.
Lemma PolicySelects_mono policy t action current :
  PolicySelects u policy t action current → PolicySelects u' policy t action current.
Proof using Hsub.
  intros (tg & o & ? & ? & ? & ? & Ho & Hns). exists tg, o. split_and!; try done; naive_solver.
Qed.
End transport.

(** ** Rules for the executor's calls *)

Section stages.
Context `{SchemaOps, UnicodeTables, LabelOps, KubeNames, ApiErrors, CaseTables, ExecutorEnv, !RetryOps resp, !RetryLaws resp}.
Context (request : NamespacedName) (maxAttempts : Z).

Abbreviation J := (permitted request maxAttempts).
Abbreviation P := (prog resp).

Section rules.
Context {B : Type} (h : hist) (Q : hist → B → Prop).

Lemma sp_ret (b : B) : Q h b → spec J (mret b : P B) h Q.
Proof using. done. Qed.
Lemma sp_call e (f : resp e → P B) :
  J h e → (∀ r, spec J (f r) (did e r :: h) Q) → spec J (call e ≫= f) h Q.
Proof using. done. Qed.
Lemma sp_now (f : Time → P B) : (∀ t, spec J (f t) (did ENow t :: h) Q) → spec J (now ≫= f) h Q.
Proof using. by intros Hf; split. Qed.
Lemma sp_snapshot (f : Snapshot → P B) :
  (∀ s, spec J (f s) (did ESnapshot s :: h) Q) → spec J (snapshot ≫= f) h Q.
Proof using. by intros Hf; split. Qed.
Lemma sp_getApproval key (f : error + RemediationApproval → P B) :
  (∀ r, spec J (f (apiResult r)) (did (EGetApproval key) r :: h) Q) → spec J (getApproval key ≫= f) h Q.
Proof using. by intros Hf; split. Qed.
Lemma sp_getIncident name (f : error + DeletionIncident → P B) :
  (∀ r, spec J (f (apiResult r)) (did (EGetIncident name) r :: h) Q) → spec J (getIncident name ≫= f) h Q.
Proof using. by intros Hf; split. Qed.
Lemma sp_getPolicy name (f : error + TerminationPolicy → P B) :
  (∀ r, spec J (f (apiResult r)) (did (EGetPolicy name) r :: h) Q) → spec J (getPolicy name ≫= f) h Q.
Proof using. by intros Hf; split. Qed.
Lemma sp_dynGet gvr ns name (f : error + Unstructured → P B) :
  (∀ r, spec J (f (apiResult r)) (did (EDynGet gvr ns name) r :: h) Q) → spec J (dynGet gvr ns name ≫= f) h Q.
Proof using. by intros Hf; split. Qed.
Lemma sp_mret_bind {A} (a : A) (f : A → P B) : spec J (f a) h Q → spec J (mret a ≫= f) h Q.
Proof using. done. Qed.
Lemma sp_deref {A} (a : A) (f : A → P B) : spec J (f a) h Q → spec J (deref (Some a) ≫= f) h Q.
Proof using. done. Qed.
End rules.

(** One step of symbolic execution: a call, or a return. *)
Ltac sp_step :=
  cbv beta zeta;
  match goal with
  | |- spec _ (mret _) _ _ => apply sp_ret
  | |- spec _ (mret _ ≫= _) _ _ => apply sp_mret_bind
  | |- spec _ (now ≫= _) _ _ => apply sp_now; intros ?t
  | |- spec _ (snapshot ≫= _) _ _ => apply sp_snapshot; intros ?catalog
  | |- spec _ (getApproval _ ≫= _) _ _ => apply sp_getApproval; intros [?x|?approval]; cbn [apiResult]
  | |- spec _ (getIncident _ ≫= _) _ _ => apply sp_getIncident; intros [?x|?incident]; cbn [apiResult]
  | |- spec _ (getPolicy _ ≫= _) _ _ => apply sp_getPolicy; intros [?x|?source]; cbn [apiResult]
  | |- spec _ (dynGet _ _ _ ≫= _) _ _ => apply sp_dynGet; intros [?x|?object]; cbn [apiResult]
  | |- spec _ (deref _ ≫= _) _ _ => apply sp_deref
  end.

(** Case analysis on the guard of the next conditional. *)
Ltac sp_if :=
  cbv beta zeta;
  match goal with
  | |- spec _ (if ?b then _ else _) _ _ => let E := fresh "E" in destruct b eqn:E; bool_prop
  | |- spec _ (match ?x with _ => _ end) _ _ => let E := fresh "E" in destruct x eqn:E
  end.

Lemma since_cons (x : event resp) h : lockEvent (projT1 x) = false → sinceLock (x :: h) = x :: sinceLock h.
Proof using. intros E. simpl. by rewrite E. Qed.

(** *** Status updates *)

Lemma updateStatus_spec name mutate h (M : RemediationApprovalStatus → RemediationApprovalStatus → Prop) :
  (∀ h1 st g, quiet h h1 → spec J (mutate st g) h1 (λ h2 st', quiet h1 h2 ∧ M st st')) →
  (∀ st st', M st st' → StatusStep (Known h) st st') →
  spec J (updateStatus name mutate) h (λ h' err, quiet h h' ∧
    (err = None → ∃ before st, M before st ∧ Saved (sinceLock h') name st)).
Proof.
  intros Hm Hstep. unfold updateStatus. apply (spec_RetryOnConflict _ _ _ _ (quiet h)); [reflexivity|].
  intros h1 Hq. sp_step; [sp_step; split; [hist_solve|split; [hist_solve|done]]|].
  eapply spec_call; [apply Hm; hist_solve|]. intros h2 st [Hq2 HM].
  assert (Hin : did (EGetApproval ("", name)) (inr approval) ∈ h2)
    by (apply (calm_elem _ _ _ (quiet_calm _ _ Hq2)); set_solver).
  assert (Hin' : did (EGetApproval ("", name)) (inr approval) ∈ sinceLock h2).
  { apply (calm_since _ _ _ (quiet_calm _ _ Hq2)). rewrite since_cons by done. set_solver. }
  unfold statusesEqual. case_bool_decide as Heq.
  - sp_step. split; [hist_solve|]. split; [hist_solve|]. intros _.
    exists (ap_Status approval), st. split; [done|]. exists approval. eauto.
  - apply sp_call.
    { exists name, approval. split_and!; try done. eapply StatusStep_mono; [|by apply Hstep].
      intros a. apply Known_calm. hist_solve. }
    intros [x|]; sp_step; (split; [hist_solve|split; [hist_solve|]]); [done|]. intros _.
    exists (ap_Status approval), st. split; [done|]. exists approval.
    rewrite since_cons by done. set_solver.
Qed.

Lemma markRunning_spec approval action h :
  Known h action →
  spec J (markRunning approval action) h (λ h' err, quiet h h' ∧
    (err = None → RunningSaved (sinceLock h') approval action)).
Proof.
  intros Hk. eapply spec_mono; [apply (updateStatus_spec _ _ _ (λ st st', st_Phase st' = ApprovalPhaseRunning ∧
    st_Action st' = Some (default action (st_Action st)) ∧ st_Attempts st' = st_Attempts st ∧
    st_Result st' = st_Result st ∧ ∃ c, st_Conditions st' = [c]))|].
  - intros h1 st g Hq. destruct (st_StartedTime st); sp_step; sp_step; sp_step;
      (split; [hist_solve|simpl; eauto 10]).
  - intros st st' (Hp & Ha & Ht & Hr & Hc). split; rewrite ?Hp; [by left|done| | |by left|by left|by right].
    + intros a E. by rewrite Ha, E.
    + destruct (st_Action st) as [a|]; [by left|]. right. by exists action.
  - intros h' err [Hq Hs]. split; [done|]. intros E. destruct (Hs E) as (st & st' & (Hp & Ha & _) & Hsv).
    exists st'. rewrite Ha. eauto.
Qed.

Lemma recordRetryAttempt_spec name action attempt h :
  Known h action → AttemptAt action attempt →
  spec J (recordRetryAttempt name attempt) h (λ h' _, quiet h h').
Proof.
  intros Hk Hty.
  eapply spec_mono; [apply (updateStatus_spec _ _ _ (λ st st', st_Phase st' = ApprovalPhaseRunning ∧
    st_Action st' = st_Action st ∧ st_Attempts st' = appendBounded (st_Attempts st) attempt ∧
    st_Result st' = at_Result attempt ∧ st_Conditions st' = st_Conditions st))|].
  - intros h1 st g Hq. sp_step. split; [hist_solve|done].
  - intros st st' (Hp & Ha & Ht & Hr & Hc). split; rewrite ?Hp, ?Ha, ?Hr; [by left|done|done|by left| | |by left].
    + right. by exists action, attempt.
    + right. apply (aa_result _ _ Hty).
  - by intros h' err [Hq _].
Qed.

Lemma recordTerminalAttempt_spec name action attempt phase result h :
  Known h action → terminal phase = true → AttemptAt action attempt → inEnum ApprovalResults result = true →
  spec J (recordTerminalAttempt name attempt phase result) h (λ h' err, quiet h h' ∧
    (err = None → ∃ before st, Saved (sinceLock h') name st ∧ st_Phase st = phase ∧ st_Result st = result ∧
       st_Attempts st = appendBounded (st_Attempts before) attempt)).
Proof.
  intros Hk Hterm Hty Hres.
  eapply spec_mono; [apply (updateStatus_spec _ _ _ (λ st st', st_Phase st' = phase ∧ st_Result st' = result ∧
    st_Action st' = st_Action st ∧ st_Attempts st' = appendBounded (st_Attempts st) attempt ∧
    is_Some (st_CompletedTime st') ∧ ∃ c, st_Conditions st' = [c]))|].
  - intros h1 st g Hq. sp_step. split; [hist_solve|]. simpl. eauto 10.
  - intros st st' (Hp & Hr & Ha & Ht & Hc & Hcond). split; rewrite ?Hp, ?Ha, ?Hr; [by right|done|done|by left| |by right|by right].
    right. by exists action, attempt.
  - intros h' err [Hq Hs]. split; [done|]. intros E. destruct (Hs E) as (st & st' & (? & ? & _ & ? & _) & ?).
    eauto 10.
Qed.

(** How an approval may end: a terminal phase and a result of the schema. *)
Definition ends (phase : ApprovalPhase) (result : ApprovalResult) : bool :=
  terminal phase && inEnum ApprovalResults result.

Lemma finishByName_spec name phase result reason message h :
  ends phase result = true →
  spec J (finishByName name phase result reason message) h (λ h' _, quiet h h').
Proof.
  unfold ends. intros [Hterm Hres]%andb_true_iff.
  eapply spec_mono; [apply (updateStatus_spec _ _ _ (λ st st', st_Phase st' = phase ∧ st_Result st' = result ∧
    st_Action st' = st_Action st ∧ st_Attempts st' = st_Attempts st ∧ is_Some (st_CompletedTime st') ∧
    ∃ c, st_Conditions st' = [c]))|].
  - intros h1 st g Hq. sp_step. sp_step. split; [hist_solve|]. simpl. eauto 10.
  - intros st st' (Hp & Hr & Ha & Ht & Hc & Hcond). split; rewrite ?Hp, ?Ha, ?Hr; [by right|done|done|by left|by left|by right|by right].
  - by intros h' err [Hq _].
Qed.

(** Every rejection writes a terminal phase and asks for no requeue. *)
Lemma sp_finish approval phase result reason message h (Q : hist → ret → Prop) :
  ends phase result = true → (∀ h' err, quiet h h' → Q h' (noResult, err)) →
  spec J (finish approval phase result reason message) h Q.
Proof.
  intros Hterm HQ. unfold finish. eapply spec_call; [by apply finishByName_spec|].
  intros h' [e|] Hq; [by apply sp_ret, HQ|]. apply sp_call; [done|]. intros []. apply sp_ret, HQ.
  hist_solve.
Qed.

Lemma sp_reject {A} approval phase result reason message h (Q : hist → ret + A → Prop) :
  ends phase result = true → (∀ h' err, quiet h h' → Q h' (inl (noResult, err))) →
  spec J (reject approval phase result reason message) h Q.
Proof.
  intros Hterm HQ. unfold reject. apply spec_bind. apply sp_finish; [done|]. intros h' err Hq.
  by apply sp_ret, HQ.
Qed.

Lemma sp_fail {A} err h (Q : hist → ret + A → Prop) :
  Q h (inl (noResult, err)) → spec J (fail err) h Q.
Proof. done. Qed.

Lemma ensureOwnerReference_spec name incident iname h :
  did (EGetIncident iname) (inr incident) ∈ h →
  spec J (ensureOwnerReference name incident) h (λ h' _, quiet h h').
Proof.
  intros Hin. unfold ensureOwnerReference. apply (spec_RetryOnConflict _ _ _ _ (quiet h)); [reflexivity|].
  intros h1 Hq. sp_step; [sp_step; split; hist_solve|].
  destruct (existsb _ _); [sp_step; split; hist_solve|].
  apply sp_call.
  - exists name, iname, incident. split_and!; try done; [set_solver|].
    apply elem_of_cons. right. by apply (calm_elem _ _ _ (quiet_calm _ _ Hq)).
  - intros r. sp_step. split; hist_solve.
Qed.

(** *** Reading the target *)

(** What [getCurrent] returns: an object just read from the API under the
    target's name, or an error of a client. *)
Definition CurrentRead (target : TargetReference) (h h' : hist)
    (r : option Unstructured * GroupVersionResource * option error) : Prop :=
  let '(current, gvr, err) := r in
  quiet h h' ∧
  match err with
  | Some e => As_terminal e = None
  | None => ∃ c, current = Some c ∧
      GVR_GroupResource gvr = mkGR (tr_APIGroup target) (tr_Resource target) ∧
      did (EDynGet gvr (tr_Namespace target) (tr_Name target)) (inr c) ∈ sinceLock h'
  end.

Lemma getVersions_spec target versions last h h0 :
  quiet h0 h → (versions ≠ [] ∨ last ≠ None) → (∀ e, last = Some e → As_terminal e = None) →
  spec J (getVersions target (mkGR (tr_APIGroup target) (tr_Resource target)) versions last) h
    (CurrentRead target h0).
Proof.
  revert last h. induction versions as [|v versions IH]; intros last h Hq Hne Hlast; cbn [getVersions].
  - sp_step. simpl. split; [done|]. destruct last; [by apply Hlast|]. naive_solver.
  - sp_step.
    + destruct (_ && _); [sp_step; simpl; hist_solve|].
      apply IH; [hist_solve|by right|]. by intros e [= <-].
    + sp_step. simpl. split; [hist_solve|]. eexists. split_and!; [done|done|]. by left.
Qed.

Lemma getCurrent_spec target h : spec J (getCurrent target) h (CurrentRead target h).
Proof.
  unfold getCurrent. sp_step. destruct (Resolve _ _) as [resource|].
  - apply getVersions_spec; [hist_solve|left; apply OrderedVersions_nonempty|done].
  - sp_step; sp_step; simpl; (split; [hist_solve|]); [done|].
    eexists. split_and!; [done|done|]. by left.
Qed.

(** An outcome that may be recorded: the attempt has no texts yet, and without an
    error the result is one of the schema. *)
Definition blank (a : RemediationAttempt) : bool :=
  bool_decide (at_ErrorReason a = "") && bool_decide (at_Message a = "").
Definition reportable (attempt : RemediationAttempt) (outcome : ApprovalResult) (err : option error) : bool :=
  blank attempt && match err with Some _ => true | None => inEnum ApprovalResults outcome end.

Lemma verifySatisfied_spec action dryRun h :
  spec J (verifySatisfied action dryRun) h
    (λ h' '(attempt, outcome, _, err), quiet h h' ∧ reportable attempt outcome err = true).
Proof.
  unfold verifySatisfied. destruct dryRun; [sp_step; split; [hist_solve|done]|].
  eapply spec_call; [apply getCurrent_spec|]. intros h' [[current gvr] err] [Hq He].
  sp_if; [sp_step; split; [hist_solve|done]|]. destruct err as [e|]; [sp_step; split; [hist_solve|done]|].
  destruct He as (c & -> & _ & _). sp_step.
  repeat (sp_if; try (sp_step; split; [hist_solve|done])).
Qed.

Lemma targetNamespaceLabels_spec resource incidentTarget h :
  spec J (targetNamespaceLabels resource incidentTarget) h (λ h' r, quiet h h' ∧
    match r with
    | inl e => As_terminal e = None
    | inr labels => v_Namespaced (r_PreferredVersion resource) = true → ∃ namespace,
        did (EDynGet (mkGVR "" "v1" "namespaces") "" (tr_Namespace incidentTarget)) (inr namespace)
          ∈ sinceLock h' ∧ labels = GetLabels namespace
    end).
Proof.
  unfold targetNamespaceLabels. destruct (v_Namespaced _); [|by sp_step; split; [hist_solve|]].
  sp_step; sp_step; (split; [hist_solve|]); [done|]. intros _. eexists. split; [by left|done].
Qed.

Lemma currentPolicyMatches_spec current action incidentTarget policy h :
  spec J (currentPolicyMatches current action (Some incidentTarget) (Some policy)) h
    (λ h' '(matches, err), quiet h h' ∧
       match err with
       | Some e => As_terminal e = None
       | None => matches = true → PolicySelects (sinceLock h') policy incidentTarget action current
       end).
Proof.
  unfold currentPolicyMatches. sp_step. destruct (Resolve _ _) as [resource|];
    [|by sp_step; split; [hist_solve|]].
  set (h1 := _ :: h). assert (Hq1 : quiet h h1) by (unfold h1; hist_solve). clearbody h1.
  eapply (spec_orElse _ (λ h2 r, quiet h h2 ∧ match r with
    | inl (matches, err) => matches = false ∧ ∀ e, err = Some e → As_terminal e = None
    | inr object => object = current ∧ sameTargetIdentity (ra_Target action) incidentTarget = true ∨
        GetUID object = tr_UID incidentTarget ∧ ∃ gvr,
          did (EDynGet gvr (tr_Namespace incidentTarget) (tr_Name incidentTarget)) (inr object) ∈ sinceLock h2
    end)).
  - destruct (sameTargetIdentity _ _) eqn:Esame; [sp_step; eauto|].
    eapply spec_call; [apply getCurrent_spec|]. intros h2 [[object gvr] err] [Hq He].
    sp_if; [sp_step; split; [hist_solve|done]|].
    destruct err as [e|]; [sp_step; split; [hist_solve|]; split; [done|]; by intros ? [= <-]|].
    destruct He as (c & -> & _ & Hin). sp_step. sp_if; sp_step; (split; [hist_solve|]); [done|eauto].
  - intros h2 [matches err] [Hq [-> He]]. split; [done|]. destruct err; [by apply He|done].
  - intros h2 object [Hq Ho]. eapply spec_call; [apply targetNamespaceLabels_spec|].
    intros h3 [e|labels] [Hq3 Hl]; sp_step; (split; [hist_solve|]); [done|]. intros Hm.
    eexists _, object. split; [exact Hm|]. simpl. split_and!; try done.
    { destruct Ho as [Ho|(Hu & gvr & Hin)]; [by left|right; split; [done|]]. exists gvr.
      by apply (calm_since _ _ _ (quiet_calm _ _ Hq3)). }
Qed.

(** *** Executing *)

(** Errors [execute] returns: terminal ones carry a terminal phase, a result of
    the schema and a short reason. *)
Definition terminalOk (phase : ApprovalPhase) (result : ApprovalResult) (reason : string) : bool :=
  ends phase result && bool_decide (String.length reason ≤ 128).
Definition executeError (e : error) : Prop :=
  ∀ t, As_terminal e = Some t → terminalOk (te_phase t) (te_result t) (te_reason t) = true.

Lemma external_executeError e : As_terminal e = None → executeError e.
Proof. unfold executeError. congruence. Qed.

(** A mutating call that the API accepted. *)
Definition accepted (x : event resp) : bool :=
  match x with
  | existT e r =>
      match e return resp e → bool with
      | EPatch _ _ _ _ _ => λ r, match r with inl _ => false | inr _ => true end
      | EFinalize _ _ => λ r, match r with inl _ => false | inr _ => true end
      | _ => λ _, false
      end r
  end.
Definition changed (h : hist) : Prop := ∃ x : event resp, x ∈ h ∧ accepted x = true.

Lemma accepted_mutates x : accepted x = true → mutates (projT1 x) = true.
Proof. by destruct x as [[] r]. Qed.

Lemma unmutated_unchanged h : unmutated h → ¬ changed h.
Proof. intros Hu (x & Hin & Ha%accepted_mutates). by rewrite Hu in Ha. Qed.

Lemma changed_cons x h : changed (x :: h) ↔ accepted x = true ∨ changed h.
Proof. unfold changed. setoid_rewrite elem_of_cons. naive_solver. Qed.

Lemma changed_quiet h h' : quiet h h' → changed h' → changed h.
Proof.
  intros (l & -> & Hl). induction Hl as [|x l [_ Hx] Hl IH]; simpl; [done|]. rewrite changed_cons.
  intros [Ha%accepted_mutates|Hc]; [congruence|by apply IH].
Qed.

Definition changeResult (dryRun : bool) : ApprovalResult :=
  if dryRun then ApprovalResultDryRunValidated else ApprovalResultMutated.

(** The outcome of one attempt. *)
Definition ExecuteOutcome (dryRun : bool) (h h' : hist) (r : RemediationAttempt * ApprovalResult * option error) : Prop :=
  let '(attempt, outcome, err) := r in
  calm h h' ∧
  (∀ e, err = Some e → executeError e) ∧
  (changed h' → err = None ∧ outcome = changeResult dryRun) ∧
  reportable attempt outcome err = true.

Lemma quiet_outcome dryRun h h' attempt outcome err :
  unmutated h → quiet h h' → (∀ e, err = Some e → executeError e) → reportable attempt outcome err = true →
  ExecuteOutcome dryRun h h' (attempt, outcome, err).
Proof.
  intros Hu Hq He Hr. split_and!; [hist_solve|done| |done]. intros Hc.
  by destruct (unmutated_unchanged _ (quiet_unmutated _ _ Hq Hu)).
Qed.

Lemma sp_stop attempt returned phase result reason message h dryRun h0 :
  unmutated h0 → quiet h0 h → terminalOk phase result reason = true → blank attempt = true →
  spec J (stop attempt returned phase result reason message) h (ExecuteOutcome dryRun h0).
Proof.
  intros Hu Hq Ht Hb. apply sp_ret. apply quiet_outcome; [done|done| |].
  - intros e [= <-] t [= <-]. done.
  - unfold reportable. by rewrite Hb.
Qed.

(** The hypotheses of the two mutating cases: everything is confirmed except the
    resource version and the presence of something to remove. *)
Section mutate.
Context (h0 : hist) (approval : RemediationApproval) (incident locked : DeletionIncident)
  (action : RemediationAction) (policyRef : PolicyReference) (policy : CompiledPolicy) (expires : Time).
Hypothesis Hheld : heldLock h0 = Some (targetKey (ra_Target action)).
Hypothesis Hpre : Preapproved request (beforeLock h0) incident action policyRef.
Hypothesis Hinc : ConfirmedIncident request (sinceLock h0) approval incident locked action policyRef.
Hypothesis Hpol : ConfirmedPolicy (sinceLock h0) approval policyRef policy expires.
Hypothesis Hatt : (Z.of_nat (length (st_Attempts (ap_Status approval))) < maxAttempts)%Z.
Hypothesis Hrun : RunningSaved (sinceLock h0) approval action.
Hypothesis Hun : unmutated h0.
Abbreviation dry := (ras_DryRun (ap_Spec approval)).
Abbreviation target := (dis_Target (inc_Spec locked)).

Lemma authorized h e :
  quiet h0 h → ConfirmedTarget (sinceLock h) action target policy dry e →
  Authorized request maxAttempts h e.
Proof using Hheld Hpre Hinc Hpol Hatt Hrun Hun.
  intros Hq Ht. pose proof (quiet_calm _ _ Hq) as Hc. split; [by eapply quiet_unmutated|].
  exists approval, incident, locked, action, policyRef, policy, expires.
  rewrite (calm_held _ _ Hc), (calm_before _ _ Hc).
  pose proof (λ x, calm_since _ _ x Hc) as Hs.
  split_and!; eauto using ConfirmedIncident_mono, ConfirmedPolicy_mono, RunningSaved_mono.
Qed.

Context (current : Unstructured) (gvr : GroupVersionResource) (h : hist) (attempt : RemediationAttempt).
Hypothesis Hq : quiet h0 h.
Hypothesis Hblank : blank attempt = true.
Hypothesis Hread :
  did (EDynGet gvr (tr_Namespace (ra_Target action)) (tr_Name (ra_Target action))) (inr current) ∈ sinceLock h.
Hypothesis Hgvr : GVR_GroupResource gvr = mkGR (tr_APIGroup (ra_Target action)) (tr_Resource (ra_Target action)).
Hypothesis Huid : GetUID current = tr_UID (ra_Target action).
Hypothesis Hsel : PolicySelects (sinceLock h) policy target action current.

(** After the call: a failure is an error of the API, a success the outcome. *)
Lemma refused_outcome x outcome err :
  lockEvent (projT1 x) = false → accepted x = false →
  ExecuteOutcome dry h0 (x :: h) (attempt, outcome, Some (ErrExternal err)).
Proof using Hq Hun Hblank.
  intros Hl Ha. split_and!; [hist_solve|intros e [= <-]; by apply external_executeError| |unfold reportable; by rewrite Hblank].
  rewrite changed_cons, Ha. intros [?|Hc]; [done|].
  by destruct (unmutated_unchanged _ (quiet_unmutated _ _ Hq Hun)).
Qed.

Lemma accepted_outcome x attempt' :
  lockEvent (projT1 x) = false → blank attempt' = true →
  ExecuteOutcome dry h0 (x :: h) (attempt', changeResult dry, None).
Proof using Hq.
  intros Hl Hb. split_and!; [hist_solve|done|done|]. unfold reportable. rewrite Hb. by destruct dry.
Qed.

(** Nothing to change: the state asked for is already there. *)
Lemma satisfied_outcome : ExecuteOutcome dry h0 h (attempt, ApprovalResultAlreadySatisfied, None).
Proof using Hq Hun Hblank. apply quiet_outcome; [done|done|done|]. unfold reportable. by rewrite Hblank. Qed.

Lemma executeFinalizer_spec :
  ra_Type action ∈ [ActionRemoveResourceFinalizer; ActionRemoveCRDFinalizer] →
  spec J (executeFinalizer action current gvr attempt dry) h (ExecuteOutcome dry h0).
Proof using Hq Hblank Hun Hheld Hpre Hinc Hpol Hatt Hrun Hread Hgvr Huid Hsel.
  intros Htype. unfold executeFinalizer. sp_if; [by apply sp_stop|].
  destruct (slices_Index _ _) as [index|] eqn:Ei; [|sp_step; apply satisfied_outcome].
  sp_if; [by apply sp_stop|]. cbv zeta. apply sp_call.
  - apply authorized; [done|]. split. exists current, gvr. split_and!; try done.
    left. eauto.
  - intros [err|u]; sp_step; [by apply refused_outcome|by apply accepted_outcome].
Qed.

Lemma executeNamespace_spec :
  ra_Type action = ActionForceFinalizeNamespace →
  spec J (executeNamespace action current attempt dry) h (ExecuteOutcome dry h0).
Proof using Hq Hblank Hun Hheld Hpre Hinc Hpol Hatt Hrun Hread Hgvr Huid Hsel.
  intros Htype. unfold executeNamespace. sp_if; [by apply sp_stop|].
  destruct (u_SpecFinalizers current) as [err|finalizers].
  { sp_step. apply quiet_outcome; [done|done| |unfold reportable; by rewrite Hblank].
    intros e [= <-]. by apply external_executeError. }
  sp_if; [sp_step; apply satisfied_outcome|]. sp_if; [by apply sp_stop|]. cbv zeta. apply sp_call.
  - apply authorized; [done|]. split. exists current, gvr. split_and!; try done.
    right. by split_and!.
  - intros [err|u]; sp_step; [by apply refused_outcome|by apply accepted_outcome].
Qed.
End mutate.

Lemma execute_spec h approval incident locked action policyRef policy expires :
  heldLock h = Some (targetKey (ra_Target action)) →
  Preapproved request (beforeLock h) incident action policyRef →
  ConfirmedIncident request (sinceLock h) approval incident locked action policyRef →
  ConfirmedPolicy (sinceLock h) approval policyRef policy expires →
  (Z.of_nat (length (st_Attempts (ap_Status approval))) < maxAttempts)%Z →
  RunningSaved (sinceLock h) approval action → unmutated h →
  let dryRun := ras_DryRun (ap_Spec approval) in
  spec J (execute action (Some (dis_Target (inc_Spec locked))) (Some policy) dryRun) h
    (ExecuteOutcome dryRun h).
Proof.
  intros Hheld Hpre Hinc Hpol Hatt Hrun Hun dryRun. unfold execute.
  eapply spec_call; [apply getCurrent_spec|]. intros h1 [[current gvr] err] [Hq He].
  sp_if; [sp_step; by apply quiet_outcome|].
  destruct err as [e|].
  { sp_step. apply quiet_outcome; [done|done| |done]. intros ? [= <-]. by apply external_executeError. }
  destruct He as (c & -> & Hgvr & Hin). sp_step. cbv zeta. sp_if; [by apply sp_stop|].
  eapply spec_call; [apply currentPolicyMatches_spec|]. intros h2 [matches err] [Hq2 Hm].
  assert (Hq02 : quiet h h2) by hist_solve.
  destruct err as [e|].
  { sp_step. apply quiet_outcome; [done|done| |done]. intros ? [= <-]. by apply external_executeError. }
  sp_if; [by apply sp_stop|]. specialize (Hm ltac:(done)).
  assert (Hin2 : did (EDynGet gvr (tr_Namespace (ra_Target action)) (tr_Name (ra_Target action))) (inr c)
                   ∈ sinceLock h2) by (by apply (calm_since _ _ _ (quiet_calm _ _ Hq2))).
  destruct (bool_decide (ra_Type action = ActionRemoveResourceFinalizer) || _) eqn:Etype.
  - eapply executeFinalizer_spec; eauto.
    rewrite !elem_of_cons. apply orb_true_iff in Etype. rewrite !bool_decide_eq_true in Etype. tauto.
  - sp_if; [by eapply executeNamespace_spec|by apply sp_stop].
Qed.

(** *** Outcomes *)

(** A requeue is positive and does not outlast the approval it is for. *)
Definition RequeueOk (h : hist) (r : ret) : Prop :=
  RequeueAfter r.1 = 0%Z ∨
  r.2 = None ∧ ∃ approval policyRef policy expires t,
    did (EGetApproval request) (inr approval) ∈ h ∧
    ConfirmedPolicy h approval policyRef policy expires ∧ did ENow t ∈ h ∧
    (0 < RequeueAfter r.1)%Z ∧ (t + RequeueAfter r.1 ≤ expires)%Z.

(** A change that happened is on record, unless the reconcile returns an error
    (and is run again by the controller). *)
Definition AuditOk (h : hist) (r : ret) : Prop :=
  changed h → r.2 = None →
  ∃ approval st, did (EGetApproval request) (inr approval) ∈ h ∧
    Saved h (om_Name (ap_Meta approval)) st ∧
    let dryRun := ras_DryRun (ap_Spec approval) in
    st_Phase st = (if dryRun then ApprovalPhaseDryRunSucceeded else ApprovalPhaseSucceeded) ∧
    st_Result st = changeResult dryRun.

Definition OutcomeOk (h : hist) (r : ret) : Prop := RequeueOk h r ∧ AuditOk h r.

Lemma since_sub h x : x ∈ sinceLock h → x ∈ h.
Proof. induction h as [|y h IH]; simpl; [done|]. destruct (lockEvent _); set_solver. Qed.

(** An early end without a change. *)
Lemma quiet_OutcomeOk h h' err : unmutated h → quiet h h' → OutcomeOk h' (noResult, err).
Proof.
  intros Hu Hq. split; [by left|]. intros Hc.
  by destruct (unmutated_unchanged _ (quiet_unmutated _ _ Hq Hu)).
Qed.

(** An end with an error needs no record. *)
Lemma error_OutcomeOk h e : OutcomeOk h (noResult, Some e).
Proof. split; [by left|]. by intros ?. Qed.

Lemma requeueDelay_bounds err remaining :
  (0 < remaining)%Z → (0 < requeueDelay err remaining ≤ remaining)%Z.
Proof.
  intros Hr. unfold requeueDelay, retryDelay, Second.
  destruct (SuggestsClientDelay err); repeat case_bool_decide; lia.
Qed.

(** *** The attempts that are recorded *)

Lemma settled_attempt_typed action attempt outcome :
  at_ActionType attempt = ra_Type action → blank attempt = true → inEnum ApprovalResults outcome = true →
  AttemptAt action (with_result attempt outcome (at_ErrorReason attempt) (at_Message attempt)).
Proof using.
  unfold blank. intros Ha [Hr Hm]%andb_true_iff Ho. bool_prop. split; simpl; [done|done|..]; rewrite ?Hr, ?Hm;
    apply withinLength_bytes; simpl; lia.
Qed.

Lemma sanitized value maximum : (0 ≤ maximum)%Z → withinLength (Z.to_nat maximum) (sanitize value maximum).
Proof using.
  intros Hm. apply withinLength_bytes. destruct (sanitize_bounds value maximum Hm) as [Hlen _].
  unfold lenZ in Hlen. lia.
Qed.

Lemma terminal_attempt_typed action attempt t :
  at_ActionType attempt = ra_Type action → inEnum ApprovalResults (te_result t) = true → String.length (te_reason t) ≤ 128 →
  AttemptAt action (with_result attempt (te_result t) (te_reason t) (sanitize (te_message t) 1024)).
Proof using.
  intros Ha Hr Hl. split; simpl; [done|done|by apply withinLength_bytes|]. by apply (sanitized _ 1024).
Qed.

Lemma failed_attempt_typed action attempt err :
  at_ActionType attempt = ra_Type action → As_terminal err = None →
  AttemptAt action (with_result attempt ApprovalResultAPIError (errorReason err) apiFailureMessage).
Proof using.
  intros Ha Et. split; simpl; [done|done| |by apply withinLength_bytes; vm_compute; lia].
  unfold errorReason. rewrite Et. case_decide; [by apply (sanitized _ 128)|].
  apply withinLength_bytes. simpl. lia.
Qed.

Section settle.
Context (approval : RemediationApproval) (policyRef : PolicyReference) (policy : CompiledPolicy) (expires : Time).
Context (h0 : hist).
Hypothesis Happ : did (EGetApproval request) (inr approval) ∈ sinceLock h0.
Hypothesis Hpol : ConfirmedPolicy (sinceLock h0) approval policyRef policy expires.

Lemma settleAttempt_spec action attempt outcome err h :
  Known h action → at_ActionType attempt = ra_Type action → calm h0 h → (∀ e, err = Some e → executeError e) →
  (changed h → err = None ∧ outcome = changeResult (ras_DryRun (ap_Spec approval))) →
  reportable attempt outcome err = true →
  spec J (settleAttempt maxAttempts approval action expires attempt outcome err) h
    (λ h' r, calm h0 h' ∧ OutcomeOk h' r).
Proof.
  intros Hk Hat Hc He Hch [Hb Hout]%andb_true_iff. unfold settleAttempt. cbv zeta. destruct err as [err|].
  - assert (Hno : ¬ changed h) by (intros [? _]%Hch; done).
    assert (Hquiet : ∀ h' r, quiet h h' → RequeueOk h' r → calm h0 h' ∧ OutcomeOk h' r).
    { intros h' r Hq Hr. split; [hist_solve|]. split; [done|]. intros Hc'.
      by destruct (Hno (changed_quiet _ _ Hq Hc')). }
    destruct (As_terminal err) as [t|] eqn:Et.
    + specialize (He _ eq_refl t Et). unfold terminalOk, ends in He. bool_prop.
      eapply spec_call; [by apply (recordTerminalAttempt_spec _ action); [..|apply terminal_attempt_typed|]|].
      intros h1 [e|] [Hq _].
      { sp_step. apply Hquiet; [done|by left]. }
      apply sp_call; [done|]. intros []. apply sp_call; [done|]. intros []. sp_step.
      apply Hquiet; [hist_solve|by left].
    + eapply spec_call; [by apply (recordRetryAttempt_spec _ action); [|apply failed_attempt_typed]|]. cbv beta. intros h1 [e|] Hq.
      { sp_step. apply Hquiet; [done|by left]. }
      apply sp_call; [done|]. intros []. sp_if.
      { eapply spec_call; [by apply finishByName_spec|]. cbv beta. intros h2 e Hq2. sp_step.
        apply Hquiet; [hist_solve|by left]. }
      sp_step. sp_if.
      { eapply spec_call; [by apply finishByName_spec|]. cbv beta. intros h2 e Hq2. sp_step.
        apply Hquiet; [hist_solve|by left]. }
      sp_step. assert (Hqt : quiet h (did ENow t :: did (EMetric [ra_Type action; ra_Risk action;
        ApprovalResultAPIError; fmt_t (ras_DryRun (ap_Spec approval))]) tt :: h1)) by hist_solve.
      apply Hquiet; [exact Hqt|]. right. split; [done|].
      assert (Hsub : ∀ x, x ∈ sinceLock h0 → x ∈ did ENow t :: did (EMetric [ra_Type action; ra_Risk action;
        ApprovalResultAPIError; fmt_t (ras_DryRun (ap_Spec approval))]) tt :: h1).
      { intros x Hx. eapply calm_elem; [|by apply since_sub]. hist_solve. }
      exists approval, policyRef, policy, expires, t. split_and!; [by apply Hsub| |by left|..].
      { eapply ConfirmedPolicy_mono; [exact Hsub|done]. }
      all: assert (Hrem : (0 < Time_Sub expires t)%Z) by lia;
        pose proof (requeueDelay_bounds err _ Hrem); unfold Time_Sub, minInt64, maxInt64 in *; simpl; lia.
  - eapply spec_call; [by apply (recordTerminalAttempt_spec _ action); [|destruct (ras_DryRun _)|apply settled_attempt_typed|]|].
    intros h1 [e|] [Hq Hs]; [sp_step; split; [hist_solve|apply error_OutcomeOk]|].
    destruct (Hs eq_refl) as (before & st & Hsv & Hph & Hres & _).
    apply sp_call; [done|]. intros []. apply sp_call; [done|]. intros []. sp_step.
    split; [hist_solve|]. split; [by left|]. intros Hch' _.
    assert (Hch1 : changed h). { eapply changed_quiet; [|exact Hch']. hist_solve. }
    destruct (Hch Hch1) as [_ ->]. exists approval, st. split; [|split; [|done]].
    + eapply calm_elem; [|by apply since_sub]. hist_solve.
    + eapply Saved_mono; [|exact Hsv]. intros x Hx%since_sub. set_solver.
Qed.
End settle.

Lemma findAction_elem actions id a : findAction actions id = Some a → a ∈ actions ∧ ra_ID a = id.
Proof.
  induction actions as [|b actions IH]; simpl; [done|]. case_decide as E; [intros [= ->]; split; [by left|done]|].
  intros Hf. destruct (IH Hf). split; [by right|done].
Qed.

(** *** Under the lock *)

Lemma attemptAction_spec h approval incident locked action policyRef policy expires :
  heldLock h = Some (targetKey (ra_Target action)) →
  Preapproved request (beforeLock h) incident action policyRef →
  ConfirmedIncident request (sinceLock h) approval incident locked action policyRef →
  ConfirmedPolicy (sinceLock h) approval policyRef policy expires → unmutated h →
  spec J (attemptAction maxAttempts approval locked action policy expires) h
    (λ h' r, calm h h' ∧ OutcomeOk h' r).
Proof.
  intros Hheld Hpre Hinc Hpol Hun. unfold attemptAction. sp_if.
  { apply sp_finish; [done|]. intros h' err Hq. split; [hist_solve|by eapply quiet_OutcomeOk]. }
  assert (Hk : Known h action).
  { left. do 2 eexists. split; [apply since_sub, (ci_read _ _ _ _ _ _ _ Hinc)|].
    eapply findAction_elem; apply (ci_action _ _ _ _ _ _ _ Hinc). }
  eapply spec_call; [by apply markRunning_spec|]. cbv beta. intros h1 [e|] [Hq Hrun].
  { sp_step. split; [hist_solve|apply error_OutcomeOk]. }
  specialize (Hrun eq_refl). pose proof (quiet_calm _ _ Hq) as Hc.
  pose proof (λ x, calm_since _ _ x Hc) as Hs. cbv zeta.
  eapply spec_call.
  - eapply execute_spec; rewrite ?(calm_held _ _ Hc), ?(calm_before _ _ Hc);
      eauto using ConfirmedIncident_mono, ConfirmedPolicy_mono; [lia|by eapply quiet_unmutated].
  - cbv beta. intros h2 [[attempt outcome] err] (Hc2 & He & Hch & Hrep). sp_step.
    eapply spec_mono; [eapply (settleAttempt_spec _ policyRef policy _ h)|].
    + apply (ci_approval _ _ _ _ _ _ _ Hinc).
    + done.
    + eapply Known_calm; [|exact Hk]. hist_solve.
    + done.
    + hist_solve.
    + done.
    + intros Hch'. apply Hch. eapply changed_quiet; [|exact Hch']. hist_solve.
    + exact Hrep.
    + done.
Qed.

(** The stages before the attempt end quietly or hand on what they confirmed. *)
Definition StagePost {A} (h : hist) (Q : hist → A → Prop) (h' : hist) (r : ret + A) : Prop :=
  quiet h h' ∧ match r with inl r => RequeueAfter r.1 = 0%Z | inr a => Q h' a end.

Ltac sp_done :=
  first [ apply sp_reject; [done|intros ? ? ?; split; [hist_solve|done]]
        | apply sp_fail; split; [hist_solve|done] ].

Lemma confirmIncident_spec approval incident action policyRef expires lockedIncident h :
  did (EGetApproval request) (inr approval) ∈ sinceLock h →
  terminal (st_Phase (ap_Status approval)) = false →
  (∀ locked, lockedIncident = inr locked →
     did (EGetIncident (oi_Name (ras_IncidentRef (ap_Spec approval)))) (inr locked) ∈ sinceLock h) →
  spec J (confirmIncident approval incident action policyRef expires lockedIncident) h
    (StagePost h (λ h' '(locked, lockedAction), lockedAction = action ∧
       ConfirmedIncident request (sinceLock h') approval incident locked action policyRef)).
Proof.
  intros Happ Hopen Hlocked. unfold confirmIncident. sp_step. sp_if; [sp_done|]. cbv zeta.
  destruct lockedIncident as [err|locked]; [sp_done|].
  sp_if; [sp_done|]. bool_prop. sp_step. sp_if; [sp_done|].
  destruct (findAction _ _) as [lockedAction|] eqn:Ef; [|sp_done]. sp_if; [sp_done|]. subst lockedAction.
  sp_step. split; [hist_solve|]. split; [done|].
  assert (Hsub : ∀ x, x ∈ sinceLock h → x ∈ sinceLock (did ENow t0 :: did ENow t :: h))
    by (intros x Hx; rewrite !since_cons by done; set_solver).
  split; eauto. exists t0. rewrite since_cons by done. split; [by left|done].
Qed.

Lemma confirmPolicy_spec approval policyRef h :
  spec J (confirmPolicy approval policyRef) h
    (StagePost h (λ h' '(policy, expires), ConfirmedPolicy (sinceLock h') approval policyRef policy expires)).
Proof.
  unfold confirmPolicy. sp_step; [sp_if; sp_done|]. sp_if; [sp_done|]. bool_prop.
  sp_step. sp_step. cbv zeta. sp_if; [sp_done|]. sp_step. sp_if; [sp_done|]. sp_step.
  split; [hist_solve|]. rewrite !since_cons by done. split.
  - exists source, catalog, t. split_and!; try done; set_solver.
  - done.
  - done.
  - exists t0. split; [by left|]. unfold Time_Before in *. bool_prop. done.
Qed.

Lemma replayApproval_spec approval incident action lockedIncident h :
  unmutated h → did (EGetApproval request) (inr approval) ∈ sinceLock h →
  spec J (replayApproval approval incident action lockedIncident) h (λ h' r, calm h h' ∧ OutcomeOk h' r).
Proof.
  intros Hun Happ. unfold replayApproval.
  assert (Hfin : ∀ h1 p res reason message, quiet h h1 → ends p res = true →
            spec J (finish approval p res reason message) h1 (λ h' r, calm h h' ∧ OutcomeOk h' r)).
  { intros h1 p res reason message Hq Hp. apply sp_finish; [done|]. intros h' err Hq'.
    split; [hist_solve|]. eapply quiet_OutcomeOk; [done|]. hist_solve. }
  assert (Hret : ∀ h1 err, quiet h h1 →
            spec J (mret (noResult, err)) h1 (λ h' r, calm h h' ∧ OutcomeOk h' r)).
  { intros h1 err Hq. sp_step. split; [hist_solve|by eapply quiet_OutcomeOk]. }
  sp_if; [by apply Hfin|]. sp_if; [by apply Hfin|]. cbv zeta.
  assert (Hk : Known h action) by (right; exists request, approval; split; [by apply since_sub|by bool_prop]).
  eapply spec_call; [apply verifySatisfied_spec|]. cbv beta.
  intros h1 [[[attempt outcome] satisfied] err] [Hq [Hb Hout]%andb_true_iff]. sp_step.
  destruct err as [e|]; [apply Hret; hist_solve|].
  sp_if; [apply Hfin; [hist_solve|unfold ends; by rewrite Hout]|].
  eapply spec_call.
  { apply (recordTerminalAttempt_spec _ action); [|done|by apply settled_attempt_typed|done].
    eapply Known_calm; [|exact Hk]. hist_solve. }
  cbv beta. intros h2 [e|] [Hq2 _].
  { apply Hret. hist_solve. }
  apply sp_call; [done|]. intros []. apply Hret. hist_solve.
Qed.

Lemma reconcileLocked_spec incident action pinned h :
  sinceLock h = [] → heldLock h = Some (targetKey (ra_Target action)) → unmutated h →
  (∀ policyRef expires, pinned = Some (policyRef, expires) →
     Preapproved request (beforeLock h) incident action policyRef) →
  spec J (reconcileLocked maxAttempts request incident action pinned) h
    (λ h' r, calm h h' ∧ OutcomeOk h' r).
Proof.
  intros Hs Hheld Hun Hpre. unfold reconcileLocked.
  assert (Hret : ∀ h1 err, quiet h h1 →
            spec J (mret (noResult, err)) h1 (λ h' r, calm h h' ∧ OutcomeOk h' r)).
  { intros h1 err Hq. sp_step. split; [hist_solve|by eapply quiet_OutcomeOk]. }
  sp_step; [apply Hret; hist_solve|]. sp_if; [apply Hret; hist_solve|].
  assert (Hbody : ∀ lockedIncident h1, quiet h h1 →
    did (EGetApproval request) (inr approval) ∈ sinceLock h1 →
    (∀ locked, lockedIncident = inr locked →
       did (EGetIncident (oi_Name (ras_IncidentRef (ap_Spec approval)))) (inr locked) ∈ sinceLock h1) →
    spec J (match pinned with
      | None => replayApproval approval incident action lockedIncident
      | Some (policyRef, expires) =>
          let? '(locked, lockedAction) :=
            confirmIncident approval incident action policyRef expires lockedIncident in
          let? '(policy, expires) := confirmPolicy approval policyRef in
          attemptAction maxAttempts approval locked lockedAction policy expires
      end) h1 (λ h' r, calm h h' ∧ OutcomeOk h' r)).
  { intros lockedIncident h1 Hq Happ Hl. destruct pinned as [[policyRef expires]|].
    2: { eapply spec_mono; [apply replayApproval_spec; [by eapply quiet_unmutated|done]|].
         intros h' r [Hc Ho]. split; [hist_solve|done]. }
    eapply spec_orElse; [by apply confirmIncident_spec| |].
    { intros h2 [[d] e] [Hq2 Hr]. simpl in Hr. subst d. split; [hist_solve|].
      eapply quiet_OutcomeOk; [exact Hun|hist_solve]. }
    intros h2 [locked lockedAction] [Hq2 [-> Hci]].
    eapply spec_orElse; [apply confirmPolicy_spec| |].
    { intros h3 [[d] e] [Hq3 Hr]. simpl in Hr. subst d. split; [hist_solve|].
      eapply quiet_OutcomeOk; [exact Hun|hist_solve]. }
    intros h3 [policy expires'] [Hq3 Hcp].
    assert (Hc3 : calm h h3) by hist_solve. pose proof (quiet_calm _ _ Hq3) as Hc23.
    eapply spec_mono; [eapply attemptAction_spec|].
    - by rewrite (calm_held _ _ Hc3).
    - rewrite (calm_before _ _ Hc3). by eapply Hpre.
    - eapply ConfirmedIncident_mono; [|exact Hci]. intros x. by apply calm_since.
    - exact Hcp.
    - eapply quiet_unmutated; [|exact Hun]. hist_solve.
    - intros h4 r [Hc4 Ho]. split; [hist_solve|done]. }
  sp_step; cbv iota.
  - sp_if; [apply Hret; hist_solve|]. apply Hbody; [hist_solve| |done].
    rewrite !since_cons by done. set_solver.
  - apply Hbody; [hist_solve| |].
    + rewrite !since_cons by done. set_solver.
    + intros locked [= <-]. rewrite !since_cons by done. set_solver.
Qed.

(** *** Before the lock *)

Lemma loadIncident_spec approval h :
  spec J (loadIncident approval) h (StagePost h (λ h' incident,
    did (EGetIncident (oi_Name (ras_IncidentRef (ap_Spec approval)))) (inr incident) ∈ h' ∧
    om_UID (inc_Meta incident) = oi_UID (ras_IncidentRef (ap_Spec approval)))).
Proof.
  unfold loadIncident. sp_step; [sp_if; sp_done|]. sp_if; [sp_done|]. sp_step.
  split; [hist_solve|]. split; [by left|done].
Qed.

Lemma selectAction_spec approval incident h :
  spec J (selectAction approval incident) h (StagePost h (λ h' '(action, replay),
    actionBelongsToIncident (Some action) (dis_Target (inc_Spec incident)) = true ∧
    (replay = false → is_Some (di_ActivePolicyRef (inc_Status incident))))).
Proof.
  unfold selectAction. destruct (chooseAction _ _) as [[action|] replay]; [|sp_done].
  sp_if; [sp_done|]. sp_if; [sp_done|]. cbv zeta. set (inactive := _ || _).
  destruct (inactive && _) eqn:Ei; [sp_done|].
  destruct inactive eqn:Einact; cbv iota; [by sp_step; split; [hist_solve|]|].
  assert (Hsome : is_Some (di_ActivePolicyRef (inc_Status incident))).
  { apply not_eq_None_Some. subst inactive. by bool_prop. }
  destruct replay; [by sp_step; split; [hist_solve|]|]. sp_step. sp_if; [sp_done|].
  sp_step. split; [hist_solve|]. done.
Qed.

Lemma validatePolicy_spec approval incident action h :
  did (EGetApproval request) (inr approval) ∈ h →
  terminal (st_Phase (ap_Status approval)) = false →
  did (EGetIncident (oi_Name (ras_IncidentRef (ap_Spec approval)))) (inr incident) ∈ h →
  om_UID (inc_Meta incident) = oi_UID (ras_IncidentRef (ap_Spec approval)) →
  actionBelongsToIncident (Some action) (dis_Target (inc_Spec incident)) = true →
  is_Some (di_ActivePolicyRef (inc_Status incident)) →
  spec J (validatePolicy approval incident action) h
    (StagePost h (λ h' '(policyRef, expires), Preapproved request h' incident action policyRef)).
Proof.
  intros Happ Hopen Hinc Huid Hb [policyRef Href]. unfold validatePolicy. rewrite Href. sp_step.
  sp_step; [sp_if; sp_done|]. sp_if; [sp_done|]. sp_step. sp_step. sp_if; [sp_done|].
  sp_step. sp_if; [sp_done|]. sp_if; [sp_done|].
  destruct (ActionEligibility _ _ _) as [eligible reason] eqn:Eel. sp_if; [sp_done|]. sp_if; [sp_done|].
  bool_prop. sp_step. split; [hist_solve|]. split; try done.
  - exists approval. split_and!; try done; set_solver.
  - exists source, catalog, t. rewrite Eel. split_and!; try done; set_solver.
Qed.

(** *** The whole reconcile *)

Lemma Reconcile_spec :
  spec J (Reconcile maxAttempts request) [] (λ h r, heldLock h = None ∧ OutcomeOk h r).
Proof.
  assert (Hun : unmutated []) by (intros x Hx; by apply elem_of_nil in Hx).
  assert (Hend : ∀ h err, quiet [] h → heldLock h = None ∧ OutcomeOk h (noResult, err)).
  { intros h err Hq. split; [|by eapply quiet_OutcomeOk]. by rewrite (calm_held _ _ (quiet_calm _ _ Hq)). }
  unfold Reconcile. sp_step; [sp_step; apply Hend; hist_solve|].
  sp_if; [sp_step; apply Hend; hist_solve|].
  eapply spec_orElse; [apply loadIncident_spec| |].
  { intros h [[d] e] [Hq Hr]. simpl in Hr. subst d. apply Hend. hist_solve. }
  intros h1 incident [Hq1 [Hinc Huid]].
  eapply spec_call; [by eapply ensureOwnerReference_spec|]. cbv beta. intros h2 [e|] Hq2.
  { sp_step. apply Hend. hist_solve. }
  eapply spec_orElse; [apply selectAction_spec| |].
  { intros h [[d] e] [Hq Hr]. simpl in Hr. subst d. apply Hend. hist_solve. }
  intros h3 [action replay] [Hq3 [Hb Href]].
  eapply (spec_orElse _ (StagePost h3 (λ h' pinned, ∀ policyRef expires, pinned = Some (policyRef, expires) →
            Preapproved request h' incident action policyRef))).
  - destruct replay; [by sp_step; split; [hist_solve|]|].
    assert (Hc23 : calm h1 h3) by hist_solve.
    assert (Hc03 : calm [did (EGetApproval request) (inr approval)] h3) by hist_solve.
    eapply spec_call; [apply validatePolicy_spec; eauto|].
    + apply (calm_elem _ _ _ Hc03). by left.
    + by apply (calm_elem _ _ _ Hc23).
    + intros h4 [r|[policyRef expires]] [Hq4 Hv]; sp_step; (split; [hist_solve|]); [done|].
      by intros ? ? [= -> ->].
  - intros h [[d] e] [Hq Hr]. simpl in Hr. subst d. apply Hend. hist_solve.
  - intros h4 pinned [Hq4 Hp]. apply sp_call; [done|]. intros [].
    eapply spec_call; [apply reconcileLocked_spec; try done|].
    + intros x [->|Hx]%elem_of_cons; [done|].
      assert (Hq04 : quiet [] h4) by hist_solve. by eapply (quiet_unmutated [] h4).
    + cbv beta. intros h5 r [Hc Ho]. apply sp_call; [done|]. intros []. sp_step. split; [done|].
      destruct Ho as [Hr Ha]. split.
      * destruct Hr as [Hr|(Er & app & ref & pol & ex & t & ? & Hcp & ? & ?)]; [by left|right].
        split; [done|]. exists app, ref, pol, ex, t. split_and!; [by right| |by right|tauto|tauto].
        eapply ConfirmedPolicy_mono; [|exact Hcp]. intros x Hx. by right.
      * intros Hch Er. rewrite changed_cons in Hch. destruct Hch as [Hch|Hch]; [done|].
        destruct (Ha Hch Er) as (app & st & ? & Hsv & ?). exists app, st. split; [by right|split; [|done]].
        eapply Saved_mono; [|exact Hsv]. intros x Hx. by right.
Qed.
End stages.

(** ** Properties *)

Section properties.
Context `{SchemaOps, UnicodeTables, LabelOps, KubeNames, ApiErrors, CaseTables, ExecutorEnv, !RetryOps resp, !RetryLaws resp}.
Context (request : NamespacedName) (maxAttempts : Z).
Abbreviation P := (prog resp).

Lemma Reconcile_next tr e k :
  steps (Reconcile maxAttempts request) tr (Do e k) → permitted request maxAttempts (reverse tr) e.
Proof.
  intros Hs. pose proof (spec_next _ _ _ _ _ _ _ (Reconcile_spec request maxAttempts) Hs) as Hn.
  by rewrite app_nil_r in Hn.
Qed.

Lemma Reconcile_outcome tr r :
  runs (Reconcile maxAttempts request) tr r →
  heldLock (reverse tr) = None ∧ OutcomeOk request (reverse tr) r.
Proof.
  intros Hr. destruct (spec_sound _ _ _ _ _ _ (Reconcile_spec request maxAttempts) Hr) as [Hq _].
  by rewrite app_nil_r in Hq.
Qed.

(** C1: whatever the API answers and however other writers interleave, the
    executor changes a target only when authorized: nothing was changed before in
    this reconcile; the lock of the action's target is held; since it was taken,
    the approval was read and is not terminal and has attempts left, the incident
    has the approved UID, is active, has unexpired evidence and still recommends
    exactly the approved action, the policy revision pinned by the incident was
    read, is ready and its approval TTL has not elapsed, the Running phase was
    saved, and the object read back has the approved UID and resource version and
    is still selected by the policy; before the lock, the incident was the one
    the approval names, the action was bound to it and eligible at the operator's
    own risk.  The call is exactly the one the action describes, with the dry-run
    flag of the approval. *)
Theorem Reconcile_mutation_authorized tr e k :
  steps (Reconcile maxAttempts request) tr (Do e k) → mutates e = true →
  Authorized request maxAttempts (reverse tr) e.
Proof. intros Hs%Reconcile_next Hm. by destruct e. Qed.

(** C10: at most one mutating call is made per reconcile. *)
Theorem Reconcile_mutates_once tr r :
  runs (Reconcile maxAttempts request) tr r →
  length (filter (λ x : event resp, mutates (projT1 x) = true) tr) ≤ 1.
Proof.
  intros Hr. destruct (spec_sound _ _ _ _ _ _ (Reconcile_spec request maxAttempts) Hr) as [_ Hj].
  destruct (filter _ tr) as [|x [|y l]] eqn:Ef; simpl; [lia|lia|].
  assert (Hsplit : ∃ pre e r' post, tr = pre ++ evt e r' :: post ∧ mutates e = true ∧ ¬ unmutated pre).
  { clear Hr Hj. revert x y l Ef. induction tr as [|z tr IH]; intros x y l; [done|].
    rewrite filter_cons. case_decide as Hz.
    - intros [= <- Ef]. assert (Hy : y ∈ filter (λ x : event resp, mutates (projT1 x) = true) tr)
        by (rewrite Ef; by left).
      apply list_elem_of_filter in Hy as [Hy (pre & post & ->)%list_elem_of_split].
      destruct y as [e r']. exists (z :: pre), e, r', post. split_and!; [done|done|].
      intros Hu. rewrite (Hu z) in Hz by (by left). done.
    - intros Ef. destruct (IH _ _ _ Ef) as (pre & e & r' & post & -> & He & Hu).
      exists (z :: pre), e, r', post. split_and!; [done|done|].
      intros Hu'. apply Hu. intros w Hw. apply Hu'. by right. }
  destruct Hsplit as (pre & e & r' & post & -> & He & Hu).
  specialize (Hj pre e r' post eq_refl). rewrite app_nil_r in Hj. exfalso. apply Hu.
  assert (Ha : Authorized request maxAttempts (reverse pre) e) by (by destruct e).
  destruct Ha as [Hun _]. intros w Hw. apply Hun. by rewrite elem_of_reverse.
Qed.

(** C12: audit discipline: every status the executor writes extends a status read
    from the API: metadata and spec are untouched, the phase becomes Running or a
    terminal one (then with a completion time), an action snapshot once recorded
    is never replaced and one that is recorded was read, and the attempts are kept or
    extended by one, an attempt at an action that was read. *)
Theorem Reconcile_status_writes tr a k :
  steps (Reconcile maxAttempts request) tr (Do (EUpdateStatus a) k) → StatusWrite (reverse tr) a.
Proof. apply Reconcile_next. Qed.

(** C13: the executor never leaves the schema of the API: if every approval it read
    has a status within the schema (phases and results of the enumerations, a durable
    action within the schema, at most twenty attempts, each with an action type and a
    result of the enumerations and bounded texts, distinct condition types) and every
    incident it read recommends actions within the schema, then so has every status
    it writes, whatever errors the API returned and however long their texts. *)
Theorem Reconcile_writes_typed tr a k :
  steps (Reconcile maxAttempts request) tr (Do (EUpdateStatus a) k) →
  (∀ key current, did (EGetApproval key) (inr current) ∈ tr → ApprovalStatusTyped (ap_Status current)) →
  (∀ name i, did (EGetIncident name) (inr i) ∈ tr → Forall ActionTyped (di_RecommendedActions (inc_Status i))) →
  ApprovalStatusTyped (ap_Status a).
Proof.
  intros Hs Hread Hinc. destruct (Reconcile_next _ _ _ Hs) as (name & current & Hin & _ & _ & Hstep).
  eapply StatusStep_typed; [|exact Hstep|eapply Hread; by apply elem_of_reverse].
  intros action [(n & i & Hi & Ha)|(key & ap & Hi & Ha)]; rewrite elem_of_reverse in Hi.
  - apply Hinc in Hi. rewrite Forall_forall in Hi. by apply Hi.
  - by eapply ast_action; [eapply Hread|].
Qed.

(** C33: no nil pointer is dereferenced: the policy reference of an active
    incident and the object a read returned are always there when used. *)
Theorem Reconcile_no_panic tr k : ~ steps (Reconcile maxAttempts request) tr (Do EPanic k).
Proof. intros Hs. apply (Reconcile_next _ _ _ Hs). Qed.

(** C32: when a reconcile returns, the target lock has been released, and the
    requested delay is zero or positive and ends no later than the approval's own
    expiry (its creation time plus the TTL of the pinned policy revision). *)
Theorem Reconcile_releases_and_bounds tr r :
  runs (Reconcile maxAttempts request) tr r →
  heldLock (reverse tr) = None ∧ RequeueOk request (reverse tr) r.
Proof. intros Hr. destruct (Reconcile_outcome _ _ Hr) as [Hh [Ho _]]. done. Qed.

(** C11: no silent change: if the API accepted a change and the reconcile returns
    without an error, the approval's saved status carries the succeeded phase and
    result of that change (the dry-run ones for a dry run). *)
Theorem Reconcile_audited tr r :
  runs (Reconcile maxAttempts request) tr r → AuditOk request (reverse tr) r.
Proof. intros Hr. by destruct (Reconcile_outcome _ _ Hr) as [_ [_ Ha]]. Qed.
End properties.

(** ** The allowlist holds at the moment of the change *)

Section eligible.
Context `{SchemaOps, UnicodeTables, LabelOps, KubeNames, ApiErrors, CaseTables, ExecutorEnv, !RetryOps resp, !RetryLaws resp}.
Context (request : NamespacedName) (maxAttempts : Z).

(** Eligibility depends on the specification only, once the policy is ready. *)
Lemma ActionEligibility_spec src1 src2 catalog1 catalog2 t1 t2 action finalizer :
  tp_Spec src1 = tp_Spec src2 →
  let p1 := fst (Compile (Some src1) catalog1 t1) in
  let p2 := fst (Compile (Some src2) catalog2 t2) in
  p_ready p1 = true → p_ready p2 = true →
  ActionEligibility (Some p1) action finalizer = ActionEligibility (Some p2) action finalizer.
Proof.
  intros Hs p1 p2 Hr1 Hr2. unfold ActionEligibility, Ready. rewrite Hr1, Hr2.
  assert (Hset : Policy_Settings (Some p1) = Policy_Settings (Some p2)) by (simpl; by rewrite Hs).
  assert (Hall : FinalizerAllowed (Some p1) finalizer = FinalizerAllowed (Some p2) finalizer)
    by (simpl; by rewrite Hs).
  by rewrite Hset, Hall.
Qed.

Lemma eligible_ready p action finalizer :
  fst (ActionEligibility (Some p) action finalizer) = true → p_ready p = true.
Proof. unfold ActionEligibility. simpl. by destruct (p_ready p). Qed.

(** C7: provided the API changes a policy's generation whenever its specification
    changes, every mutating call carries out an action that the policy read and
    compiled under the lock makes eligible: the finalizer it removes is in that
    policy's allowlist, or the policy allows namespace force-finalization, and the
    risk is within the policy's maximum. *)
Theorem Reconcile_mutation_eligible tr e k :
  steps (Reconcile maxAttempts request) tr (Do e k) → mutates e = true →
  (∀ n1 n2 s1 s2, did (EGetPolicy n1) (inr s1) ∈ tr → did (EGetPolicy n2) (inr s2) ∈ tr →
     om_UID (tp_Meta s1) = om_UID (tp_Meta s2) → om_Generation (tp_Meta s1) = om_Generation (tp_Meta s2) →
     tp_Spec s1 = tp_Spec s2) →
  ∃ action policy current gvr dryRun name source catalog t,
    ActionCall action current gvr dryRun e ∧
    did (EGetPolicy name) (inr source) ∈ sinceLock (reverse tr) ∧
    policy = fst (Compile (Some source) catalog t) ∧
    fst (ActionEligibility (Some policy) (ra_Type action) (ra_Finalizer action)) = true ∧
    (ra_Type action ≠ ActionForceFinalizeNamespace →
       FinalizerAllowed (Some policy) (ra_Finalizer action) = true).
Proof.
  intros Hs Hm Hgen. pose proof (Reconcile_next _ _ _ _ _ Hs) as Hp.
  assert (Ha : Authorized request maxAttempts (reverse tr) e) by (by destruct e). clear Hp.
  destruct Ha as (_ & approval & incident & locked & action & ref & policy & expires & _ & Hpre & _ & Hpol & _ & _ & [Ht]).
  destruct (pa_eligible _ _ _ _ _ Hpre) as (src0 & cat0 & t0 & Hin0 & Hu0 & Hg0 & _ & Hel).
  destruct (cp_source _ _ _ _ _ Hpol) as (src & cat & t & Hin & Hu & Hg & _ & Epol).
  destruct Ht as (current & gvr & _ & _ & _ & _ & _ & Hcall).
  assert (Hbefore : ∀ h x, x ∈ beforeLock h → x ∈ h).
  { intros h x. induction h as [|y h IH]; simpl; [done|]. destruct (lockEvent _); set_solver. }
  assert (Hspec : tp_Spec src0 = tp_Spec src).
  { eapply Hgen; [apply Hbefore in Hin0; by rewrite elem_of_reverse in Hin0
                 |apply since_sub in Hin; by rewrite elem_of_reverse in Hin|congruence|congruence]. }
  assert (Hel' : fst (ActionEligibility (Some policy) (ra_Type action) (ra_Finalizer action)) = true).
  { rewrite Epol, <-(ActionEligibility_spec src0 src cat0 cat t0 t); [done|done|by eapply eligible_ready|].
    rewrite <-Epol. apply (cp_ready _ _ _ _ _ Hpol). }
  exists action, policy, current, gvr, (ras_DryRun (ap_Spec approval)), (pr_Name ref), src, cat, t.
  split_and!; try done. intros Hf. destruct Hcall as [(index & Htype & _)|[? _]]; [|done].
  unfold ActionEligibility in Hel'. simpl in Hel'. destruct (p_ready policy); [|done]. simpl in Hel'.
  rewrite (bool_decide_eq_false_2 (ra_Type action = ActionForceFinalizeNamespace)) in Hel' by done. simpl in Hel'.
  assert (Hor : bool_decide (ra_Type action = ActionRemoveResourceFinalizer) ||
                bool_decide (ra_Type action = ActionRemoveCRDFinalizer) = true).
  { rewrite orb_true_iff, !bool_decide_eq_true. rewrite !elem_of_cons, elem_of_nil in Htype. tauto. }
  rewrite Hor in Hel'. simpl in Hel'. simpl. by destruct (bool_decide (ra_Finalizer action ∈ _)).
Qed.
End eligible.

(** ** A concrete cluster *)

Module ExampleCluster.
Export ExamplePolicy ExampleErrors.

#[export] Instance executorEnv : ExecutorEnv :=
  {| status_Marshal st := st_Phase st +:+ "/" +:+ st_Result st +:+ "/" +:+
                          fmt_d (Z.of_nat (length (st_Attempts st)));
     GroupVersion_String := "safety.exitguard.io/v1alpha1" |}.
#[export] Instance retryOps : RetryOps resp := {| RetryOnConflict fn := retry 4 fn |}.
#[export] Instance retryLaws : RetryLaws resp.
Proof. constructor. by exists 4. Qed.

Definition widgetRef : TargetReference :=
  mkTargetReference "example.io" "v1" "widgets" "WidgetV1" "team" "w1" "widget-uid".
Definition action : RemediationAction :=
  mkRemediationAction "action-1" ActionRemoveResourceFinalizer RiskMedium widgetRef "example.io/cleanup"
    true "" "7" "remove".
Definition objectMeta (name uid rv : string) (created : Time) : ObjectMeta :=
  mkObjectMeta name "" uid rv 1 created None None {["app" := "demo"]} ∅ ["other"; "example.io/cleanup"] [].
Definition incident : DeletionIncident :=
  mkDeletionIncident (objectMeta "inc" "inc-uid" "1" 0)
    (mkDeletionIncidentSpec widgetRef 0)
    (mkDeletionIncidentStatus IncidentPhaseActive (Some (mkPolicyReference "widgets" "policy-uid" 3))
       None None (Some ExamplePolicy.now) (Some (ExamplePolicy.now + 10 * Minute)%Z) None "" zero_TargetSnapshot [] [action] []).
Definition approval : RemediationApproval :=
  mkRemediationApproval (objectMeta "ok" "ok-uid" "1" (ExamplePolicy.now - Minute)%Z)
    (mkRemediationApprovalSpec (mkObjectIdentityReference "inc" "inc-uid") "action-1" false "ticket")
    zero_ApprovalStatus.
Definition widget : Unstructured :=
  mkUnstructured (objectMeta "w1" "widget-uid" "7" 0) (inr None)
    (inl (mkExternalError "not a namespace" "" 0 None false)) (inl (mkExternalError "not a CRD" "" 0 None false)).

(** An API that always answers with these objects and accepts every write. *)
Definition handle (s : unit) (e : ev) : option (resp e * unit) :=
  match e return option (resp e * unit) with
  | EGetApproval _ => Some (inr approval, tt)
  | EGetIncident _ => Some (inr incident, tt)
  | EGetPolicy _ => Some (inr source, tt)
  | EDynGet _ _ _ => Some (inr widget, tt)
  | ENow => Some (ExamplePolicy.now, tt)
  | ESnapshot => Some (ExampleSchema.snapshot, tt)
  | ELock _ => Some (tt, tt)
  | EUnlock _ => Some (tt, tt)
  | EPatchApproval _ _ => Some (None, tt)
  | EUpdateStatus _ => Some (None, tt)
  | EPatch _ _ _ _ _ => Some (inr widget, tt)
  | EFinalize n _ => Some (inr n, tt)
  | EEvent _ _ _ _ => Some (tt, tt)
  | EMetric _ => Some (tt, tt)
  | EPanic => None
  end.

Definition isUpdate (e : ev) : bool := match e with EUpdateStatus _ => true | _ => false end.

(** Every policy this API returns is the same object. *)
Definition policyIs (s : TerminationPolicy) (x : event resp) : Prop :=
  match x with
  | existT e r =>
      match e return resp e → Prop with
      | EGetPolicy _ => λ r, match r with inr s' => s' = s | inl _ => True end
      | _ => λ _, True
      end r
  end.

Lemma handle_policy s e r s' : handle s e = Some (r, s') → policyIs source (evt e r).
Proof. destruct e; simpl; try done. by intros [= <-]. Qed.

(** The example run really changes the target, writes statuses and completes. *)
Lemma example_changes : ∃ tr e k,
  steps (Reconcile 3 ("", "ok")) tr (Do e k) ∧ mutates e = true ∧ Forall (policyIs source) tr.
Proof. apply (reaches_steps handle _ _ _ tt handle_policy). vm_compute. reflexivity. Qed.

Lemma example_writes : ∃ tr e k,
  steps (Reconcile 3 ("", "ok")) tr (Do e k) ∧ isUpdate e = true ∧ Forall (policyIs source) tr.
Proof. apply (reaches_steps handle _ _ _ tt handle_policy). vm_compute. reflexivity. Qed.

(** Every approval this API returns is the same object, and every incident. *)
Definition readsAre (a : RemediationApproval) (i : DeletionIncident) (x : event resp) : Prop :=
  match x with
  | existT e r =>
      match e return resp e → Prop with
      | EGetApproval _ => λ r, match r with inr a' => a' = a | inl _ => True end
      | EGetIncident _ => λ r, match r with inr i' => i' = i | inl _ => True end
      | _ => λ _, True
      end r
  end.

Lemma handle_reads s e r s' : handle s e = Some (r, s') → readsAre approval incident (evt e r).
Proof. destruct e; simpl; try done; by intros [= <-]. Qed.

Lemma example_writes_reads : ∃ tr e k,
  steps (Reconcile 3 ("", "ok")) tr (Do e k) ∧ isUpdate e = true ∧ Forall (readsAre approval incident) tr.
Proof. apply (reaches_steps handle _ _ _ tt handle_reads). vm_compute. reflexivity. Qed.

Lemma approval_typed : ApprovalStatusTyped (ap_Status approval).
Proof. split; simpl; [done|done|done|lia|constructor|constructor]. Qed.
Lemma action_typed : ActionTyped action.
Proof. split; [done|done|done|apply withinLength_bytes; simpl; lia..]. Qed.

Definition cleanChange (tr : list (event resp)) (r : ret) : bool :=
  existsb accepted tr && match r.2 with None => true | Some _ => false end.

Lemma example_completes : ∃ tr r, runs (Reconcile 3 ("", "ok")) tr r ∧ cleanChange tr r = true.
Proof. apply (completes_runs handle _ _ tt). vm_compute. reflexivity. Qed.
End ExampleCluster.

Section witnesses.
Import ExampleCluster.

Lemma Reconcile_mutation_authorized_witness :
  ∃ tr e, mutates e = true ∧ Authorized ("", "ok") 3 (reverse tr) e.
Proof.
  destruct example_changes as (tr & e & k & Hs & Hm & _). exists tr, e. split; [exact Hm|].
  exact (Reconcile_mutation_authorized ("", "ok") 3 tr e k Hs Hm).
Defined.

Lemma Reconcile_status_writes_witness : ∃ tr a, StatusWrite (reverse tr) a.
Proof.
  destruct example_writes as (tr & e & k & Hs & Hm & _).
  destruct e; try discriminate Hm. exists tr, current.
  exact (Reconcile_status_writes ("", "ok") 3 tr current k Hs).
Defined.

Lemma Reconcile_writes_typed_witness :
  ∃ tr a k, steps (Reconcile 3 ("", "ok")) tr (Do (EUpdateStatus a) k) ∧ ApprovalStatusTyped (ap_Status a).
Proof.
  destruct example_writes_reads as (tr & e & k & Hs & Hm & Hap). rewrite Forall_forall in Hap.
  destruct e; try discriminate Hm. exists tr, current, k. split; [exact Hs|].
  apply (Reconcile_writes_typed ("", "ok") 3 tr current k Hs).
  - intros key c Hin. apply Hap in Hin. simpl in Hin. rewrite Hin. exact approval_typed.
  - intros name i Hin. apply Hap in Hin. simpl in Hin. rewrite Hin. constructor; [exact action_typed|constructor].
Defined.

Lemma Reconcile_no_panic_witness :
  ∃ tr p, steps (Reconcile 3 ("", "ok")) tr p ∧ tr ≠ [] ∧ ∀ k, p ≠ Do EPanic k.
Proof.
  destruct example_writes as (tr & e & k & Hs & Hm & _). exists tr, (Do e k). split; [exact Hs|]. split.
  - intros ->. inversion Hs; subst. discriminate Hm.
  - intros k' Ek. rewrite Ek in Hs. exact (Reconcile_no_panic ("", "ok") 3 tr k' Hs).
Defined.

Lemma Reconcile_mutates_once_witness :
  ∃ tr r, runs (Reconcile 3 ("", "ok")) tr r ∧ existsb accepted tr = true ∧
    length (filter (λ x : event resp, mutates (projT1 x) = true) tr) ≤ 1.
Proof.
  destruct example_completes as (tr & r & Hr & Hc). exists tr, r. split; [exact Hr|].
  split; [by unfold cleanChange in Hc; bool_prop|]. exact (Reconcile_mutates_once ("", "ok") 3 tr r Hr).
Defined.

Lemma Reconcile_releases_and_bounds_witness :
  ∃ tr r, runs (Reconcile 3 ("", "ok")) tr r ∧ heldLock (reverse tr) = None ∧ RequeueOk ("", "ok") (reverse tr) r.
Proof.
  destruct example_completes as (tr & r & Hr & _). exists tr, r. split; [exact Hr|].
  exact (Reconcile_releases_and_bounds ("", "ok") 3 tr r Hr).
Defined.

Lemma Reconcile_audited_witness :
  ∃ tr, existsb accepted tr = true ∧
    ∃ a st, did (EGetApproval ("", "ok")) (inr a) ∈ reverse tr ∧ Saved (reverse tr) (om_Name (ap_Meta a)) st ∧
      st_Result st = changeResult (ras_DryRun (ap_Spec a)).
Proof.
  destruct example_completes as (tr & r & Hr & Hc). exists tr.
  unfold cleanChange in Hc. apply andb_true_iff in Hc as [Ha Hn]. split; [exact Ha|].
  assert (Hch : changed (reverse tr)).
  { apply existsb_true_iff in Ha as (x & Hx & Hax). exists x. by rewrite elem_of_reverse. }
  assert (Hnone : r.2 = None) by (destruct (r.2); [discriminate Hn|reflexivity]).
  destruct (Reconcile_audited ("", "ok") 3 tr r Hr Hch Hnone) as (a & st & Hin & Hs & _ & Hres).
  exists a, st. split; [exact Hin|]. split; [exact Hs|exact Hres].
Defined.

Lemma Reconcile_mutation_eligible_witness :
  ∃ action policy e gvr current dryRun, mutates e = true ∧ ActionCall action current gvr dryRun e ∧
    fst (ActionEligibility (Some policy) (ra_Type action) (ra_Finalizer action)) = true.
Proof.
  destruct example_changes as (tr & e & k & Hs & Hm & Hpol). rewrite Forall_forall in Hpol.
  destruct (Reconcile_mutation_eligible ("", "ok") 3 tr e k Hs Hm) as
    (act & policy & current & gvr & dryRun & name & src & catalog & t & Hcall & _ & _ & Hel & _).
  - intros n1 n2 s1 s2 Hi1 Hi2 _ _. apply Hpol in Hi1. apply Hpol in Hi2. simpl in Hi1, Hi2. congruence.
  - exists act, policy, e, gvr, current, dryRun. split; [exact Hm|]. split; [exact Hcall|exact Hel].
Defined.
End witnesses.
