(* ===== verification/Sha256.v ===== *)
(** * SHA-256 and hexadecimal encoding (crypto/sha256, encoding/hex)

    The standard library's digest, executable on bytes, as the diagnosis engine
    uses it for finding and action identifiers.  Words are 32-bit: every sum is
    reduced modulo 2^32. *)
From S2P Require Import Prelude GoText.

Local Open Scope Z_scope.

Definition word (z : Z) : Z := z mod 4294967296.
Definition rotr (n x : Z) : Z := word (Z.lor (Z.shiftr x n) (Z.shiftl x (32 - n))).

(** The constants of the standard are the first 32 bits of the fractional parts of
    the cube roots (round constants) and square roots (initial state) of the first
    primes. *)
Definition isPrime (n : Z) : bool :=
  forallb (λ d, negb (n mod Z.of_nat d =? 0)) (seq 2 (Z.to_nat n - 2)).
Definition primes : list Z :=
  Eval vm_compute in filter (λ n, Is_true (isPrime n)) (Z.of_nat <$> seq 2 310).

(** The integer cube root below [2^bits]: one bit at a time. *)
Fixpoint icbrt (bits : nat) (root n : Z) : Z :=
  match bits with
  | O => root
  | S bits' =>
      let candidate := root + 2 ^ Z.of_nat bits' in
      icbrt bits' (if candidate * candidate * candidate <=? n then candidate else root) n
  end.

Definition K : list Z :=
  Eval vm_compute in (λ p, word (icbrt 40 0 (p * 2 ^ 96))) <$> primes.

(** The initial state. *)
Definition H0 : Z * Z * Z * Z * Z * Z * Z * Z :=
  Eval vm_compute in
    let r p := word (Z.sqrt (p * 2 ^ 64)) in
    (r 2, r 3, r 5, r 7, r 11, r 13, r 17, r 19).

Example constants_count : length K = 64%nat /\ hd 0 K = 0x428a2f98 /\ last K = Some 0xc67178f2.
Proof. vm_compute. done. Qed.

(** ** Padding *)

(** [n] bytes of a number, most significant first. *)
Fixpoint be_bytes (n : nat) (z : Z) : list Z :=
  match n with O => [] | S n' => be_bytes n' (z / 256) ++ [z mod 256] end.

Definition pad (msg : list Z) : list Z :=
  let len := Z.of_nat (length msg) in
  msg ++ [128] ++ replicate (Z.to_nat ((55 - len) mod 64)) 0 ++ be_bytes 8 (len * 8).

(** ** Compression *)

Definition sigma0 (x : Z) : Z := Z.lxor (rotr 7 x) (Z.lxor (rotr 18 x) (Z.shiftr x 3)).
Definition sigma1 (x : Z) : Z := Z.lxor (rotr 17 x) (Z.lxor (rotr 19 x) (Z.shiftr x 10)).
Definition Sigma0 (x : Z) : Z := Z.lxor (rotr 2 x) (Z.lxor (rotr 13 x) (rotr 22 x)).
Definition Sigma1 (x : Z) : Z := Z.lxor (rotr 6 x) (Z.lxor (rotr 11 x) (rotr 25 x)).
Definition Ch (e f g : Z) : Z := Z.lxor (Z.land e f) (Z.land (Z.lxor e 4294967295) g).
Definition Maj (a b c : Z) : Z := Z.lxor (Z.land a b) (Z.lxor (Z.land a c) (Z.land b c)).

(** The next word of the message schedule, from the previous sixteen (oldest
    first). *)
Definition next_word (w : list Z) : Z :=
  let g i := nth i w 0 in
  word (sigma1 (g 14%nat) + g 9%nat + sigma0 (g 1%nat) + g 0%nat).

(** One round per constant: the window of sixteen schedule words slides along. *)
Fixpoint rounds (ks : list Z) (w : list Z) (st : Z * Z * Z * Z * Z * Z * Z * Z)
    : Z * Z * Z * Z * Z * Z * Z * Z :=
  match ks with
  | [] => st
  | k :: ks' =>
      let '(a, b, c, d, e, f, g, h) := st in
      let t1 := h + Sigma1 e + Ch e f g + k + hd 0 w in
      let t2 := Sigma0 a + Maj a b c in
      rounds ks' (tl w ++ [next_word w]) (word (t1 + t2), a, b, c, word (d + t1), e, f, g)
  end.

Fixpoint words_of (bs : list Z) : list Z :=
  match bs with
  | a :: b :: c :: d :: rest => (((a * 256 + b) * 256 + c) * 256 + d) :: words_of rest
  | _ => []
  end.

Definition block (st : Z * Z * Z * Z * Z * Z * Z * Z) (bs : list Z) : Z * Z * Z * Z * Z * Z * Z * Z :=
  let '(a, b, c, d, e, f, g, h) := st in
  let '(a', b', c', d', e', f', g', h') := rounds K (words_of bs) st in
  (word (a + a'), word (b + b'), word (c + c'), word (d + d'), word (e + e'), word (f + f'),
   word (g + g'), word (h + h')).

(** [n] blocks of 64 bytes. *)
Fixpoint blocks (n : nat) (bs : list Z) (st : Z * Z * Z * Z * Z * Z * Z * Z)
    : Z * Z * Z * Z * Z * Z * Z * Z :=
  match n with
  | O => st
  | S n' => blocks n' (drop 64 bs) (block st (take 64 bs))
  end.

(** The 32 bytes of the digest. *)
Definition sha256 (msg : list Z) : list Z :=
  let padded := pad msg in
  let '(a, b, c, d, e, f, g, h) :=
    blocks (length padded / 64) padded H0 in
  [a; b; c; d; e; f; g; h] ≫= be_bytes 4.

(** ** Hexadecimal *)

(** [hex.EncodeToString] *)
Fixpoint EncodeToString (bs : list Z) : string :=
  match bs with
  | [] => ""
  | b :: bs' => String (hex_digit (b / 16)) (String (hex_digit (b mod 16)) (EncodeToString bs'))
  end.

(** The bytes of a Go string. *)
Definition string_bytes (s : string) : list Z := byteZ <$> String.list_ascii_of_string s.

(** ** Lemmas *)

Lemma be_bytes_length n z : length (be_bytes n z) = n.
Proof. revert z. induction n as [|n IH]; intros z; simpl; [done|]. rewrite length_app, IH. simpl. lia. Qed.

Lemma be_bytes_range n z : Forall (λ b, 0 <= b < 256) (be_bytes n z).
Proof.
  revert z. induction n as [|n IH]; intros z; simpl; [constructor|]. apply Forall_app.
  split; [apply IH|]. repeat constructor; apply Z.mod_pos_bound; lia.
Qed.

Lemma sha256_shape msg : length (sha256 msg) = 32%nat ∧ Forall (λ b, 0 <= b < 256) (sha256 msg).
Proof.
  unfold sha256. destruct (blocks _ _ _) as [[[[[[[a b] c] d] e] f] g] h]. split.
  - done.
  - apply Forall_bind, Forall_forall. intros w _. apply be_bytes_range.
Qed.

Lemma hex_digit_inj a b : 0 <= a < 16 → 0 <= b < 16 → hex_digit a = hex_digit b → a = b.
Proof.
  intros Ha Hb E. apply (f_equal byteZ) in E. unfold hex_digit in E.
  destruct (a <? 10) eqn:Ea, (b <? 10) eqn:Eb; rewrite !byteZ_chr in E by lia; lia.
Qed.

Lemma EncodeToString_length bs : String.length (EncodeToString bs) = (2 * length bs)%nat.
Proof. induction bs as [|b bs IH]; simpl; [done|]. rewrite IH. lia. Qed.

Lemma EncodeToString_inj bs bs' :
  Forall (λ b, 0 <= b < 256) bs → Forall (λ b, 0 <= b < 256) bs' →
  EncodeToString bs = EncodeToString bs' → bs = bs'.
Proof.
  intros Hbs. revert bs'. induction Hbs as [|b bs Hb Hbs IH]; intros [|b' bs'] Hbs' E; try done.
  inversion_clear Hbs' as [|? ? Hb' Hrest]. cbn [EncodeToString] in E. injection E as E1 E2 E3.
  apply hex_digit_inj in E1; [|Z.to_euclidean_division_equations; lia..].
  apply hex_digit_inj in E2; [|apply Z.mod_pos_bound; lia..].
  f_equal; [|by apply IH]. pose proof (Z.div_mod b 16). pose proof (Z.div_mod b' 16). lia.
Qed.

Lemma string_bytes_inj s t : string_bytes s = string_bytes t → s = t.
Proof.
  unfold string_bytes. revert t. induction s as [|c s IH]; intros [|d t]; simpl; try done.
  intros [= E1 E2]. f_equal; [|by apply IH]. unfold byteZ in E1.
  rewrite <-(Ascii.ascii_N_embedding c), <-(Ascii.ascii_N_embedding d). f_equal. lia.
Qed.

(** The published test vectors. *)
Example sha256_empty :
  EncodeToString (sha256 []) = "e3b0c44298fc1c149afbf4c8996fb92427ae41e4649b934ca495991b7852b855".
Proof. vm_compute. reflexivity. Qed.
Example sha256_abc :
  EncodeToString (sha256 (string_bytes "abc")) =
  "ba7816bf8f01cfea414140de5dae2223b00361a396177a9cb410ff61f20015ad".
Proof. vm_compute. reflexivity. Qed.
Example sha256_two_blocks :
  EncodeToString (sha256 (string_bytes "abcdbcdecdefdefgefghfghighijhijkijkljklmklmnlmnomnopnopq")) =
  "248d6a61d20638b8e5c026930c3e6039a33ce45964ff2167f6ecedd419db06c1".
Proof. vm_compute. reflexivity. Qed.
