(* ===== verification/Collector.v ===== *)
(** * Evidence collection (internal/diagnosis/engine.go)

    Identifiers of findings and actions (SHA-256 over their parts), the JSON size
    of what would be persisted, and the collector that keeps evidence within the
    budgets of the incident status. *)
From S2P Require Import Prelude GoText ApiTypes Schema Discovery Policy Json Sha256.

Definition maxPersistedEvidenceBytes : Z := (384 * 1024)%Z.
Definition maxPersistedFindings : Z := 512.
Definition maxPersistedActions : Z := 256.

(** ** Identifiers *)

(** [digest]: SHA-256 over the parts separated by NUL bytes, in hexadecimal. *)
Definition nul : string := String (chr 0) "".
Definition digest (parts : list string) : string :=
  EncodeToString (sha256 (string_bytes (strings_Join parts nul))).

Definition actionID (actionType : RemediationActionType) (uid : UID) (finalizer resourceVersion : string)
    (policyUID : UID) (policyGeneration : Z) : string :=
  "action-" +:+ digest [actionType; uid; finalizer; resourceVersion; policyUID; fmt_d policyGeneration].

(** The parts that identify a finding. *)
Definition findingParts (finding : Finding) : list string :=
  let parts := [f_Type finding; f_Message finding; f_Finalizer finding; f_APIService finding; f_Webhook finding] in
  let parts := parts ++
    match f_ResourceRef finding with
    | None => []
    | Some r => [tr_APIGroup r; tr_Version r; tr_Resource r; tr_Namespace r; tr_Name r; tr_UID r]
    end in
  let parts := parts ++
    match f_ControllerRef finding with
    | None => []
    | Some r => [cr_APIVersion r; cr_Kind r; cr_Namespace r; cr_Name r]
    end in
  let parts := parts ++ match f_Count finding with None => [] | Some n => [fmt_d n] end in
  parts ++ [fmt_t (f_Truncated finding)].

Definition findingID (finding : Finding) : string := "finding-" +:+ digest (findingParts finding).

Definition truncateRunes (value : string) (maximum : Z) : string :=
  let rs := runes value in
  if decide (Z.of_nat (length rs) ≤ maximum)%Z then value
  else of_runes (take (Z.to_nat maximum) rs).

Definition sortedCopy (values : list string) : list string := sort_strings values.

(** ** Persisted size *)

(** A string member that is left out when empty. *)
Definition omitempty (k v : string) : list (string * json) :=
  if decide (v = "") then [] else [(k, JStr v)].

Definition json_TargetReference (t : TargetReference) : json :=
  JObj (omitempty "apiGroup" (tr_APIGroup t) ++
        [("version", JStr (tr_Version t)); ("resource", JStr (tr_Resource t)); ("kind", JStr (tr_Kind t))] ++
        omitempty "namespace" (tr_Namespace t) ++
        [("name", JStr (tr_Name t)); ("uid", JStr (tr_UID t))]).

Definition json_ControllerReference (c : ControllerReference) : json :=
  JObj [("apiVersion", JStr (cr_APIVersion c)); ("kind", JStr (cr_Kind c));
        ("namespace", JStr (cr_Namespace c)); ("name", JStr (cr_Name c))].

Definition json_Finding (f : Finding) : json :=
  JObj ([("id", JStr (f_ID f)); ("type", JStr (f_Type f)); ("message", JStr (f_Message f))] ++
        match f_ResourceRef f with None => [] | Some r => [("resourceRef", json_TargetReference r)] end ++
        omitempty "finalizer" (f_Finalizer f) ++ omitempty "apiService" (f_APIService f) ++
        omitempty "webhook" (f_Webhook f) ++
        match f_ControllerRef f with None => [] | Some r => [("controllerRef", json_ControllerReference r)] end ++
        match f_Count f with None => [] | Some n => [("count", JNum n)] end ++
        (if f_Truncated f then [("truncated", JBool true)] else [])).

Definition json_RemediationAction (a : RemediationAction) : json :=
  JObj ([("id", JStr (ra_ID a)); ("type", JStr (ra_Type a)); ("risk", JStr (ra_Risk a));
         ("target", json_TargetReference (ra_Target a))] ++
        omitempty "finalizer" (ra_Finalizer a) ++ [("eligible", JBool (ra_Eligible a))] ++
        omitempty "ineligibleReason" (ra_IneligibleReason a) ++
        omitempty "preconditionResourceVersion" (ra_PreconditionResourceVersion a) ++
        [("reason", JStr (ra_Reason a))]).

(** [jsonSizeWriter]: starting at -1 it counts the encoded bytes and the newline
    the encoder appends; values made of strings, numbers and booleans encode
    without error. *)
Definition jsonSizeWriter_Write (bytes : Z) (encoded : string) : Z := (bytes + lenZ encoded)%Z.
Definition encodedSize (v : json) : Z :=
  jsonSizeWriter_Write (-1) (Marshal v +:+ String (chr 10) "").

(** ** The collector *)

Record collector := mkCollector {
  col_policy : option CompiledPolicy;
  col_findings : gmap string Finding;
  col_actions : gmap string RemediationAction;
  col_persistedBytes : Z;
  col_omittedFindings : Z;
  col_omittedActions : Z
}.

Definition newCollector (policy : option CompiledPolicy) : collector := mkCollector policy ∅ ∅ 0 0 0.

Definition with_id (f : Finding) (id message : string) : Finding :=
  mkFinding id (f_Type f) message (f_ResourceRef f) (f_Finalizer f) (f_APIService f) (f_Webhook f)
    (f_ControllerRef f) (f_Count f) (f_Truncated f).

Definition addFinding (finding : Finding) (c : collector) : collector :=
  let finding := with_id finding (f_ID finding) (truncateRunes (f_Message finding) 1024) in
  let finding := with_id finding (findingID finding) (f_Message finding) in
  match col_findings c !! f_ID finding with
  | Some _ => c
  | None =>
    let size := encodedSize (json_Finding finding) in
    if bool_decide (maxPersistedFindings ≤ Z.of_nat (base.size (col_findings c)))%Z ||
       bool_decide (maxPersistedEvidenceBytes < col_persistedBytes c + size)%Z
    then mkCollector (col_policy c) (col_findings c) (col_actions c) (col_persistedBytes c)
           (col_omittedFindings c + 1) (col_omittedActions c)
    else mkCollector (col_policy c) (<[f_ID finding := finding]> (col_findings c)) (col_actions c)
           (col_persistedBytes c + size) (col_omittedFindings c) (col_omittedActions c)
  end.

Definition addAction (action : RemediationAction) (c : collector) : collector :=
  match col_actions c !! ra_ID action with
  | Some _ => c
  | None =>
    let size := encodedSize (json_RemediationAction action) in
    if bool_decide (maxPersistedActions ≤ Z.of_nat (base.size (col_actions c)))%Z ||
       bool_decide (maxPersistedEvidenceBytes < col_persistedBytes c + size)%Z
    then mkCollector (col_policy c) (col_findings c) (col_actions c) (col_persistedBytes c)
           (col_omittedFindings c) (col_omittedActions c + 1)
    else mkCollector (col_policy c) (col_findings c) (<[ra_ID action := action]> (col_actions c))
           (col_persistedBytes c + size) (col_omittedFindings c) (col_omittedActions c)
  end.

(** The summary finding appended when evidence was omitted. *)
Definition overflowSummary (omitted : Z) : Finding :=
  let summary := mkFinding "" FindingUnknown "diagnostic evidence exceeded the persisted status budget"
                   None "" "" "" None (Some (int32 omitted)) true in
  with_id summary (findingID summary) (f_Message summary).

Definition overflowed (c : collector) : bool :=
  bool_decide (0 < col_omittedFindings c)%Z || bool_decide (0 < col_omittedActions c)%Z.

Definition collector_sorted (c : collector) : list Finding * list RemediationAction * bool :=
  let overflow := overflowed c in
  let findings := (map_to_list (col_findings c)).*2 ++
    (if overflow then [overflowSummary (col_omittedFindings c + col_omittedActions c)] else []) in
  let actions := (map_to_list (col_actions c)).*2 in
  (sort_by (λ a b, str_lt (f_ID a) (f_ID b)) findings,
   sort_by (λ a b, str_lt (ra_ID a) (ra_ID b)) actions, overflow).

Section actions.
Context `{LabelOps, KubeNames}.

Definition newAction (policy : CompiledPolicy) (actionType : RemediationActionType) (target : TargetReference)
    (finalizer resourceVersion reason : string) : RemediationAction :=
  let '(eligible, ineligibleReason) := ActionEligibility (Some policy) actionType finalizer in
  mkRemediationAction
    (actionID actionType (tr_UID target) finalizer resourceVersion (p_uid policy) (p_generation policy))
    actionType (RiskFor actionType finalizer) target finalizer eligible ineligibleReason resourceVersion reason.
End actions.

(** ** Invariant *)

(** A piece of evidence offered to the collector. *)
Inductive evidence := EvFinding (f : Finding) | EvAction (a : RemediationAction).

Definition offer (c : collector) (e : evidence) : collector :=
  match e with EvFinding f => addFinding f c | EvAction a => addAction a c end.

(** What analyzers may offer: a type of the enumeration; a count only on a truncated
    finding; and a truncated finding of unknown type is left to the overflow summary. *)
Definition offerable (f : Finding) : bool :=
  inEnum FindingTypes (f_Type f) &&
  (negb (bool_decide (f_Type f = FindingUnknown)) || negb (f_Truncated f)) &&
  match f_Count f with None => true | Some _ => f_Truncated f end.
Definition offeredOk (e : evidence) : bool :=
  match e with EvFinding f => offerable f | EvAction _ => true end.

(** A collector that is reached from another by offering evidence that satisfies
    [P]. *)
Definition gathers (P : evidence → Prop) (c c' : collector) : Prop :=
  ∃ es, Forall P es ∧ c' = foldl offer c es.
Abbreviation collects := (gathers (λ _, True)).

(** What a finding becomes when it is persisted. *)
Definition persisted (f : Finding) : Finding :=
  let f := with_id f (f_ID f) (truncateRunes (f_Message f) 1024) in
  with_id f (findingID f) (f_Message f).

Definition findingsSize (m : gmap string Finding) : Z :=
  map_fold (λ _ f n, encodedSize (json_Finding f) + n)%Z 0%Z m.
Definition actionsSize (m : gmap string RemediationAction) : Z :=
  map_fold (λ _ a n, encodedSize (json_RemediationAction a) + n)%Z 0%Z m.

Record CollectorOk (c : collector) : Prop := {
  co_finding id f : col_findings c !! id = Some f → f_ID f = id ∧ ∃ f0, f = persisted f0;
  co_action id a : col_actions c !! id = Some a → ra_ID a = id;
  co_bytes : col_persistedBytes c = (findingsSize (col_findings c) + actionsSize (col_actions c))%Z;
  co_budget : (col_persistedBytes c ≤ maxPersistedEvidenceBytes)%Z;
  co_findings : (Z.of_nat (size (col_findings c)) ≤ maxPersistedFindings)%Z;
  co_actions : (Z.of_nat (size (col_actions c)) ≤ maxPersistedActions)%Z;
  co_omitted : (0 ≤ col_omittedFindings c)%Z ∧ (0 ≤ col_omittedActions c)%Z
}.

Lemma newCollector_ok policy : CollectorOk (newCollector policy).
Proof.
  split; simpl; try done; intros; rewrite ?lookup_empty in *; try done;
    unfold maxPersistedEvidenceBytes, maxPersistedFindings, maxPersistedActions; rewrite ?map_size_empty; lia.
Qed.

Lemma addFinding_ok f c : CollectorOk c → CollectorOk (addFinding f c).
Proof.
  intros []. unfold addFinding. fold (persisted f). cbv zeta.
  change (with_id _ _ _) with (persisted f).
  destruct (col_findings c !! f_ID (persisted f)) eqn:El; [done|].
  destruct (_ || _) eqn:Eo; [split; simpl; try done; lia|]. bool_prop. split; simpl; try done.
  - intros id f'. rewrite lookup_insert_Some. intros [[<- <-]|[_ ?]]; [eauto|by apply co_finding0].
  - rewrite co_bytes0. unfold findingsSize at 2. rewrite map_fold_insert_L; [|intros; lia|done].
    fold (findingsSize (col_findings c)). lia.
  - lia.
  - rewrite map_size_insert_None by done. lia.
Qed.

Lemma addAction_ok a c : CollectorOk c → CollectorOk (addAction a c).
Proof.
  intros []. unfold addAction. destruct (col_actions c !! ra_ID a) eqn:El; [done|]. cbv zeta.
  destruct (_ || _) eqn:Eo; [split; simpl; try done; lia|]. bool_prop. split; simpl; try done.
  - intros id a'. rewrite lookup_insert_Some. intros [[<- <-]|[_ ?]]; [done|by apply co_action0].
  - rewrite co_bytes0. unfold actionsSize at 2. rewrite map_fold_insert_L; [|intros; lia|done].
    fold (actionsSize (col_actions c)). lia.
  - lia.
  - rewrite map_size_insert_None by done. lia.
Qed.

Lemma gathers_ok P c c' : CollectorOk c → gathers P c c' → CollectorOk c'.
Proof.
  intros Hc (es & _ & ->). revert c Hc. induction es as [|[f|a] es IH]; intros c Hc; simpl; [done| |];
    apply IH; [by apply addFinding_ok|by apply addAction_ok].
Qed.

Global Instance gathers_pre P : PreOrder (gathers P).
Proof.
  split; [by exists []|]. intros c1 c2 c3 (es & H1 & ->) (es' & H2 & ->). exists (es ++ es').
  rewrite Forall_app, foldl_app. done.
Qed.
Lemma gathers_refl P c : gathers P c c.
Proof. reflexivity. Qed.
Lemma gathers_finding (P : evidence → Prop) f c c' :
  P (EvFinding f) → gathers P c c' → gathers P c (addFinding f c').
Proof. intros Hf Hc. transitivity c'; [done|]. exists [EvFinding f]. by repeat constructor. Qed.
Lemma gathers_action (P : evidence → Prop) a c c' :
  P (EvAction a) → gathers P c c' → gathers P c (addAction a c').
Proof. intros Hf Hc. transitivity c'; [done|]. exists [EvAction a]. by repeat constructor. Qed.
Lemma gathers_mono (P Q : evidence → Prop) c c' : (∀ e, P e → Q e) → gathers P c c' → gathers Q c c'.
Proof. intros HPQ (es & Hes & ->). exists es. split; [|done]. by eapply Forall_impl. Qed.

(** A loop whose body gathers evidence does so as a whole. *)
Lemma gathers_foldl {A} (P : evidence → Prop) (f : collector → A → collector) (l : list A) c :
  (∀ c x, x ∈ l → gathers P c (f c x)) → gathers P c (foldl f c l).
Proof.
  revert c. induction l as [|x l IH]; intros c Hf; simpl; [reflexivity|].
  transitivity (f c x); [apply Hf; by left|]. apply IH. intros c' y Hy. apply Hf. by right.
Qed.

(** Only offered actions are collected. *)
Lemma gathers_actions P policy c a id :
  gathers P (newCollector policy) c → col_actions c !! id = Some a → P (EvAction a).
Proof.
  intros (es & Hes & ->). revert a id. induction es as [|e es IH] using rev_ind; intros a id; simpl.
  { by rewrite lookup_empty. }
  rewrite Forall_app, Forall_singleton in Hes. destruct Hes as [Hes He]. specialize (IH Hes).
  rewrite foldl_app. simpl. destruct e as [f|a']; simpl.
  - unfold addFinding. cbv zeta. destruct (col_findings _ !! _); [by apply IH|].
    destruct (_ || _); simpl; apply IH.
  - unfold addAction. cbv zeta. destruct (col_actions _ !! ra_ID a'); [by apply IH|].
    destruct (_ || _); simpl; [apply IH|]. rewrite lookup_insert_Some. intros [[_ Ea]|[_ ?]]; [congruence|by eapply IH].
Qed.

(** A collected finding is an offered one as it is persisted. *)
Lemma gathers_findings P policy c f id :
  gathers P (newCollector policy) c → col_findings c !! id = Some f →
  ∃ f0, f = persisted f0 ∧ P (EvFinding f0).
Proof.
  intros (es & Hes & ->). revert f id. induction es as [|e es IH] using rev_ind; intros f id; simpl.
  { by rewrite lookup_empty. }
  rewrite Forall_app, Forall_singleton in Hes. destruct Hes as [Hes He]. specialize (IH Hes).
  rewrite foldl_app. simpl. destruct e as [f'|a]; simpl.
  - unfold addFinding. cbv zeta. change (with_id (with_id f' _ _) _ _) with (persisted f').
    destruct (col_findings _ !! f_ID (persisted f')); [apply IH|].
    destruct (_ || _); simpl; [apply IH|]. rewrite lookup_insert_Some.
    intros [[_ <-]|[_ ?]]; [eauto|by eapply IH].
  - unfold addAction. cbv zeta. destruct (col_actions _ !! ra_ID a); [apply IH|].
    destruct (_ || _); simpl; apply IH.
Qed.

Create HintDb evidence.
#[export] Hint Resolve gathers_refl gathers_finding gathers_action : evidence.
#[export] Hint Extern 1 (offerable _ = true) => reflexivity : evidence.

(** *** Nothing is lost silently *)

Definition kept (c : collector) (e : evidence) : Prop :=
  match e with
  | EvFinding f => is_Some (col_findings c !! f_ID (persisted f))
  | EvAction a => is_Some (col_actions c !! ra_ID a)
  end.

(** Offering evidence keeps what is there, and either keeps the new piece or
    counts it as omitted. *)
Lemma offer_kept c e :
  (0 ≤ col_omittedFindings c)%Z → (0 ≤ col_omittedActions c)%Z →
  (∀ e', kept c e' → kept (offer c e) e') ∧
  (col_omittedFindings c ≤ col_omittedFindings (offer c e))%Z ∧
  (col_omittedActions c ≤ col_omittedActions (offer c e))%Z ∧
  (overflowed (offer c e) = false → kept (offer c e) e).
Proof.
  intros Hf Ha. unfold overflowed, offer. destruct e as [f|a].
  - unfold addFinding. cbv zeta. change (with_id _ _ _) with (persisted f).
    destruct (col_findings c !! f_ID (persisted f)) eqn:El; simpl; [split_and!; eauto; lia|].
    destruct (_ || _) eqn:Eo; simpl.
    + split_and!; [done|lia|lia|]. rewrite bool_decide_eq_true_2 by lia. done.
    + split_and!; [|lia|lia|intros _; rewrite lookup_insert_eq; by eexists].
      intros [f'|a']; simpl; [|done]. rewrite lookup_insert_is_Some'. by right.
  - unfold addAction. cbv zeta.
    destruct (col_actions c !! ra_ID a) eqn:El; simpl; [split_and!; eauto; lia|].
    destruct (_ || _) eqn:Eo; simpl.
    + split_and!; [done|lia|lia|]. rewrite (bool_decide_eq_true_2 (0 < col_omittedActions c + 1)%Z) by lia.
      by rewrite orb_true_r.
    + split_and!; [|lia|lia|intros _; rewrite lookup_insert_eq; by eexists].
      intros [f'|a']; simpl; [done|]. rewrite lookup_insert_is_Some'. by right.
Qed.

Lemma overflowed_mono c c' :
  (0 ≤ col_omittedFindings c ≤ col_omittedFindings c')%Z →
  (0 ≤ col_omittedActions c ≤ col_omittedActions c')%Z →
  overflowed c' = false → overflowed c = false.
Proof.
  unfold overflowed. rewrite !orb_false_iff, !bool_decide_eq_false. lia.
Qed.

Lemma collect_kept es c :
  (0 ≤ col_omittedFindings c)%Z → (0 ≤ col_omittedActions c)%Z →
  let c' := foldl offer c es in
  (∀ e, kept c e → kept c' e) ∧
  (col_omittedFindings c ≤ col_omittedFindings c')%Z ∧ (col_omittedActions c ≤ col_omittedActions c')%Z ∧
  (overflowed c' = false → ∀ e, e ∈ es → kept c' e).
Proof.
  revert c. induction es as [|e es IH]; intros c Hf Ha; simpl; [by split_and!; try set_solver|].
  destruct (offer_kept c e Hf Ha) as (Hk & Hof & Hoa & Hnew).
  destruct (IH (offer c e)) as (Hk' & Hof' & Hoa' & Hall); [lia|lia|].
  split_and!; [eauto|lia|lia|]. intros Ho e' [->|Hin]%elem_of_cons; [|by apply Hall].
  apply Hk', Hnew. eapply overflowed_mono; [..|exact Ho]; lia.
Qed.

(** *** Sorting *)

Lemma truncateRunes_bound value maximum :
  (0 ≤ maximum)%Z → (Z.of_nat (length (runes (truncateRunes value maximum))) ≤ maximum)%Z.
Proof.
  intros Hmax. unfold truncateRunes. case_decide as E; [done|].
  set (rs := take _ _). assert (Hv : Forall (λ r, valid_rune r = true) rs) by (apply Forall_take, runes_valid).
  pose proof (runes_of_runes_app rs "" Hv) as Hr. rewrite app_nil_r in Hr.
  assert (Happ : of_runes rs +:+ "" = of_runes rs).
  { generalize (of_runes rs). intros s. induction s as [|c s IHs]; [done|].
    change (String c s +:+ "") with (String c (s +:+ "")). by rewrite IHs. }
  rewrite Happ in Hr. rewrite Hr. unfold rs. rewrite length_take. lia.
Qed.

Section by_id.
Context {A : Type} (id : A → string).

Lemma map_ids_nodup (m : gmap string A) :
  (∀ k a, m !! k = Some a → id a = k) → NoDup (id <$> (map_to_list m).*2).
Proof.
  intros Hid. rewrite <-list_fmap_compose.
  assert (E : (id ∘ snd) <$> map_to_list m = (map_to_list m).*1).
  { apply list_fmap_ext. intros i [k a] Hi. simpl. apply Hid, elem_of_map_to_list. by eapply list_elem_of_lookup_2. }
  rewrite E. apply NoDup_fst_map_to_list.
Qed.
End by_id.

Lemma length_map_values {A} (m : gmap string A) : length (map_to_list m).*2 = size m.
Proof. by rewrite length_fmap, length_map_to_list. Qed.

(** What was collected shows in the sorted evidence. *)
Definition shown (findings : list Finding) (actions : list RemediationAction) (e : evidence) : Prop :=
  match e with
  | EvFinding f => f_ID (persisted f) ∈ f_ID <$> findings
  | EvAction a => ra_ID a ∈ ra_ID <$> actions
  end.

Lemma kept_shown c e :
  CollectorOk c → kept c e → let '(findings, actions, _) := collector_sorted c in shown findings actions e.
Proof.
  intros Hok. unfold collector_sorted. destruct e as [f|a]; simpl.
  - intros [f' Hf]. rewrite sort_by_perm, fmap_app. apply elem_of_app. left. apply list_elem_of_fmap. exists f'. split.
    + by destruct (co_finding _ Hok _ _ Hf) as [-> _].
    + apply list_elem_of_fmap. exists (f_ID (persisted f), f'). split; [done|]. by apply elem_of_map_to_list.
  - intros [a' Ha]. rewrite sort_by_perm, list_elem_of_fmap. exists a'. split.
    + by rewrite (co_action _ Hok _ _ Ha).
    + apply list_elem_of_fmap. exists (ra_ID a, a'). split; [done|]. by apply elem_of_map_to_list.
Qed.

(** Sorted actions are collected actions. *)
Lemma elem_of_sorted_actions c a :
  a ∈ snd (fst (collector_sorted c)) → ∃ id, col_actions c !! id = Some a.
Proof.
  unfold collector_sorted. simpl. rewrite elem_of_sort_by. intros ([id a'] & -> & Ha)%list_elem_of_fmap.
  exists id. by apply elem_of_map_to_list.
Qed.

(** A collector covers a piece of evidence when it keeps it unless it overflowed;
    what is covered stays covered. *)
Definition covers (c : collector) (e : evidence) : Prop := overflowed c = false → kept c e.

Lemma covers_gathers P c c' e : CollectorOk c → gathers P c c' → covers c e → covers c' e.
Proof.
  intros Hok (es & _ & ->) Hc Ho. destruct (co_omitted _ Hok) as [Hf Ha].
  destruct (collect_kept es c Hf Ha) as (Hk & Hof & Hoa & _). apply Hk, Hc.
  eapply overflowed_mono; [..|exact Ho]; lia.
Qed.
Lemma covers_finding f c : CollectorOk c → covers (addFinding f c) (EvFinding f).
Proof. intros Hok Ho. destruct (co_omitted _ Hok) as [Hf Ha]. by apply (offer_kept c (EvFinding f) Hf Ha). Qed.
Lemma covers_action a c : CollectorOk c → covers (addAction a c) (EvAction a).
Proof. intros Hok Ho. destruct (co_omitted _ Hok) as [Hf Ha]. by apply (offer_kept c (EvAction a) Hf Ha). Qed.

(** What the body of a loop covers for one element, the loop covers. *)
Lemma covers_foldl {A} (f : collector → A → collector) (l : list A) c x e :
  (∀ c x, x ∈ l → collects c (f c x)) → CollectorOk c → x ∈ l →
  (∀ c, CollectorOk c → covers (f c x) e) → covers (foldl f c l) e.
Proof.
  revert c. induction l as [|y l IH]; intros c Hf Hok Hx He; [by apply elem_of_nil in Hx|]. simpl.
  assert (Hy : CollectorOk (f c y)) by (eapply gathers_ok; [exact Hok|apply Hf; by left]).
  apply elem_of_cons in Hx as [->|Hx].
  - eapply covers_gathers; [exact Hy|apply gathers_foldl|by apply He]. intros c' z Hz. apply Hf. by right.
  - apply IH; try done. intros c' z Hz. apply Hf. by right.
Qed.

(** *** Identifiers *)

(** The message that [digest] hashes. *)
Definition hashed (parts : list string) : list Z := string_bytes (strings_Join parts nul).

Lemma digest_collision p q :
  digest p = digest q → strings_Join p nul ≠ strings_Join q nul →
  hashed p ≠ hashed q ∧ sha256 (hashed p) = sha256 (hashed q).
Proof.
  intros E Hne. unfold hashed. split.
  - intros Es. by apply Hne, string_bytes_inj.
  - apply EncodeToString_inj in E; [done| |]; apply sha256_shape.
Qed.

Lemma digest_length p : String.length (digest p) = 64.
Proof. unfold digest. rewrite EncodeToString_length. destruct (sha256_shape (string_bytes (strings_Join p nul))) as [-> _]. done. Qed.

Lemma nul_join_inj p q :
  length p = length q →
  Forall (λ s, nul_free s = true) (removelast p) → Forall (λ s, nul_free s = true) (removelast q) →
  strings_Join p nul = strings_Join q nul → p = q.
Proof.
  revert q. induction p as [|a p IH]; intros [|b q] Hl Hp Hq E; simpl in Hl; try done.
  destruct p as [|a' p], q as [|b' q]; simpl in Hl; try done.
  - simpl in E. by rewrite E.
  - change (removelast (a :: a' :: p)) with (a :: removelast (a' :: p)) in Hp.
    change (removelast (b :: b' :: q)) with (b :: removelast (b' :: q)) in Hq.
    inversion_clear Hp. inversion_clear Hq.
    change (strings_Join (a :: a' :: p) nul) with (a +:+ String (chr 0) (strings_Join (a' :: p) nul)) in E.
    change (strings_Join (b :: b' :: q) nul) with (b +:+ String (chr 0) (strings_Join (b' :: q) nul)) in E.
    apply nul_split in E as [-> E]; [|done..]. f_equal. apply IH; try done. simpl. lia.
Qed.

(** Two findings with different messages to hash and the same digest. *)
Definition Collides (f g : Finding) : Prop :=
  hashed (findingParts f) ≠ hashed (findingParts g) ∧ sha256 (hashed (findingParts f)) = sha256 (hashed (findingParts g)).

(** A count that does not fit 32 bits became negative when it was converted. *)
Definition Wrapped (f : Finding) : Prop := f_Truncated f = true ∧ ∃ n, f_Count f = Some n ∧ (n < 0)%Z.

Lemma bytes_app s t : string_bytes (s +:+ t) = string_bytes s ++ string_bytes t.
Proof. unfold string_bytes. induction s as [|a s IH]; simpl; [done|]. f_equal. exact IH. Qed.

Lemma Join_snoc l x : ∃ s, strings_Join (l ++ [x]) nul = s +:+ x.
Proof.
  induction l as [|a [|b l] IH]; [by exists ""|exists (a +:+ nul); simpl; by rewrite app_string_assoc|].
  destruct IH as [s Hs]. exists (a +:+ nul +:+ s).
  change (strings_Join ((a :: b :: l) ++ [x]) nul) with (a +:+ nul +:+ strings_Join ((b :: l) ++ [x]) nul).
  by rewrite Hs, !app_string_assoc.
Qed.

(** An offered finding has other parts than the summary: their texts begin with the
    type and end with the truncation flag. *)
Lemma summary_parts f n :
  offerable f = true → strings_Join (findingParts f) nul ≠ strings_Join (findingParts (overflowSummary n)) nul.
Proof.
  unfold offerable. intros [[Ht Hu]%andb_true_iff _]%andb_true_iff E.
  assert (Hsplit : ∀ g, ∃ rest, strings_Join (findingParts g) nul = f_Type g +:+ String (chr 0) rest) by (intros g; by eexists).
  destruct (Hsplit f) as [r1 E1], (Hsplit (overflowSummary n)) as [r2 E2]. pose proof E as E0. rewrite E1, E2 in E0.
  apply nul_split in E0 as [Etype _]; [| |done].
  2: { clear - Ht. unfold inEnum in Ht. apply bool_decide_eq_true in Ht. revert Ht. generalize (f_Type f).
       apply Forall_forall. by repeat constructor. }
  simpl in Etype. rewrite (bool_decide_eq_true_2 _ Etype) in Hu. apply negb_true_iff in Hu.
  assert (Hend : ∀ g, ∃ s, strings_Join (findingParts g) nul = s +:+ fmt_t (f_Truncated g)) by (intros g; apply Join_snoc).
  destruct (Hend f) as [s1 E3], (Hend (overflowSummary n)) as [s2 E4]. rewrite E3, E4, Hu in E. simpl fmt_t in E.
  apply (f_equal string_bytes) in E. rewrite !bytes_app in E. apply (f_equal reverse) in E. rewrite !reverse_app in E. discriminate E.
Qed.

Lemma summary_fresh f n :
  offerable f = true → f_ID (persisted f) = f_ID (overflowSummary n) → Collides (persisted f) (overflowSummary n).
Proof.
  intros Ho E. change ("finding-" +:+ digest (findingParts (persisted f)) = "finding-" +:+ digest (findingParts (overflowSummary n))) in E.
  assert (Hd : ∀ a b, "finding-" +:+ a = "finding-" +:+ b → a = b) by (intros a b Hab; by injection Hab).
  apply Hd in E. apply digest_collision; [done|]. by apply summary_parts.
Qed.

(** ** Properties *)

(** *** The evidence stays within the schema *)

(** The sizes of the sorted evidence. *)
Lemma sorted_bounds c :
  CollectorOk c →
  let '(findings, actions, overflow) := collector_sorted c in
  (Z.of_nat (length findings) ≤ maxPersistedFindings + (if overflow then 1 else 0))%Z ∧
  (Z.of_nat (length actions) ≤ maxPersistedActions)%Z ∧
  Forall (λ f, Z.of_nat (length (runes (f_Message f))) ≤ 1024)%Z findings ∧
  NoDup (ra_ID <$> actions).
Proof.
  intros Hok. unfold collector_sorted. set (overflow := overflowed c). split_and!.
  - rewrite length_sort_by, length_app, length_map_values. pose proof (co_findings _ Hok).
    destruct overflow; simpl; lia.
  - rewrite length_sort_by, length_map_values. apply (co_actions _ Hok).
  - apply Forall_forall. intros f. rewrite elem_of_sort_by, elem_of_app. intros [Hf|Hf].
    + apply list_elem_of_fmap in Hf as ([id f'] & -> & Hf%elem_of_map_to_list).
      apply (co_finding _ Hok) in Hf as [_ [f0 ->]]. apply truncateRunes_bound. lia.
    + destruct overflow; [|by apply elem_of_nil in Hf]. apply list_elem_of_singleton in Hf as ->.
      vm_compute. done.
  - rewrite sort_by_perm. apply map_ids_nodup. apply (co_action _ Hok).
Qed.

(** The identifiers of the findings are distinct, or that of the summary collides. *)
Lemma sorted_findings_nodup P policy c :
  gathers P (newCollector policy) c → (∀ f, P (EvFinding f) → offerable f = true) →
  let findings := fst (fst (collector_sorted c)) in
  let summary := overflowSummary (col_omittedFindings c + col_omittedActions c) in
  NoDup (f_ID <$> findings) ∨ ∃ f, f ∈ findings ∧ summary ∈ findings ∧ Collides f summary.
Proof.
  intros Hg Hoff. cbv zeta. assert (Hok : CollectorOk c) by (eapply gathers_ok; [apply newCollector_ok|exact Hg]).
  unfold collector_sorted. simpl. set (summary := overflowSummary _). set (fs := (map_to_list (col_findings c)).*2).
  assert (Hfs : NoDup (f_ID <$> fs)).
  { apply map_ids_nodup. intros k f Hf. by apply (co_finding _ Hok) in Hf as [? _]. }
  destruct (overflowed c); [|left; by rewrite sort_by_perm, app_nil_r].
  destruct (decide (f_ID summary ∈ f_ID <$> fs)) as [(f & E & Hf)%list_elem_of_fmap|Hn].
  - right. exists f. rewrite !elem_of_sort_by, !elem_of_app. split_and!; [by left|right; by left|].
    apply list_elem_of_fmap in Hf as ([id f'] & -> & Hf%elem_of_map_to_list).
    destruct (gathers_findings _ _ _ _ _ Hg Hf) as (f0 & -> & Hp%Hoff). by apply summary_fresh.
  - left. rewrite sort_by_perm, fmap_app. apply NoDup_app. split_and!; [done| |apply NoDup_singleton].
    intros x Hx ->%list_elem_of_singleton. done.
Qed.

Lemma collector_typed P policy c :
  gathers P (newCollector policy) c →
  (∀ f, P (EvFinding f) → offerable f = true) → (∀ a, P (EvAction a) → ActionTyped a) →
  let '(findings, actions, _) := collector_sorted c in
  EvidenceTyped findings actions ∨ (∃ f g, f ∈ findings ∧ g ∈ findings ∧ Collides f g) ∨ (∃ f, f ∈ findings ∧ Wrapped f).
Proof.
  intros Hg Hoff Hact. assert (Hok : CollectorOk c) by (eapply gathers_ok; [apply newCollector_ok|exact Hg]).
  pose proof (sorted_bounds c Hok) as Hb. pose proof (sorted_findings_nodup _ _ _ Hg Hoff) as Hnd. cbv zeta in Hnd.
  pose proof (elem_of_sorted_actions c) as Hsub.
  assert (Hf : ∀ f, f ∈ fst (fst (collector_sorted c)) → f_ID f ≠ "" ∧ inEnum FindingTypes (f_Type f) = true ∧
    (f_Count f = None ∨ f_Truncated f = true)).
  { unfold collector_sorted. simpl. intros f. rewrite elem_of_sort_by, elem_of_app. intros [Hf|Hf].
    - apply list_elem_of_fmap in Hf as ([id f'] & -> & Hf%elem_of_map_to_list).
      destruct (gathers_findings _ _ _ _ _ Hg Hf) as (f0 & -> & Hp%Hoff).
      unfold offerable in Hp. apply andb_true_iff in Hp as [[? _]%andb_true_iff Hc]. split_and!; [done|done|]. simpl.
      destruct (f_Count f0); [by right|by left].
    - destruct (overflowed c); [|by apply elem_of_nil in Hf]. apply list_elem_of_singleton in Hf as ->. split_and!; [done|done|by right]. }
  destruct (collector_sorted c) as [[findings actions] overflow]. simpl in *.
  destruct Hnd as [Hnd|(f & ? & ? & ?)]; [|right; left; eauto 6].
  destruct (decide (Exists (λ f, f_Truncated f = true ∧ (default 0 (f_Count f) < 0)%Z) findings)) as [Hw|Hw].
  { right. right. apply Exists_exists in Hw as (f & ? & ? & Hn). exists f. split; [done|]. split; [done|].
    destruct (f_Count f) as [n|]; [by exists n|simpl in Hn; lia]. }
  left. rewrite <-Forall_Exists_neg, Forall_forall in Hw.
  unfold maxPersistedFindings, maxPersistedActions in Hb. destruct Hb as (Hn & Ha & Hm & Hids). split; [|..|done].
  - destruct overflow; lia.
  - rewrite Forall_forall in Hm. apply Forall_forall. intros f Hin. destruct (Hf f Hin) as (? & ? & Hc). split; [done|done| |].
    + specialize (Hm f Hin). unfold withinLength. simpl in Hm. lia.
    + intros n E. destruct Hc as [Hc|Hc]; [congruence|]. specialize (Hw f Hin). rewrite E in Hw. simpl in Hw.
      destruct (decide (0 ≤ n)%Z); [done|]. exfalso. apply Hw. split; [done|lia].
  - done.
  - lia.
  - apply Forall_forall. intros a Hin. destruct (Hsub a Hin) as [id Hid].
    by eapply Hact, gathers_actions.
Qed.

(** The encoded size of evidence. *)
Definition encodedTotal (findings : list Finding) (actions : list RemediationAction) : Z :=
  (foldr (λ f n, encodedSize (json_Finding f) + n) 0 findings +
   foldr (λ a n, encodedSize (json_RemediationAction a) + n) 0 actions)%Z.

Lemma sum_perm {A} (size : A → Z) (l l' : list A) :
  l ≡ₚ l' → foldr (λ x n, size x + n)%Z 0%Z l = foldr (λ x n, size x + n)%Z 0%Z l'.
Proof. induction 1; simpl; lia. Qed.
Lemma sum_app {A} (size : A → Z) (l l' : list A) :
  foldr (λ x n, size x + n)%Z 0%Z (l ++ l') = (foldr (λ x n, size x + n) 0 l + foldr (λ x n, size x + n) 0 l')%Z.
Proof. induction l; simpl; lia. Qed.
Lemma sum_map {A} (size : A → Z) (m : gmap string A) :
  map_fold (λ _ x n, size x + n)%Z 0%Z m = foldr (λ x n, size x + n)%Z 0%Z (map_to_list m).*2.
Proof. rewrite map_fold_foldr. induction (map_to_list m) as [|[k x] l IH]; simpl; [done|]. by rewrite IH. Qed.

Lemma sorted_total c :
  CollectorOk c →
  let '(findings, actions, overflow) := collector_sorted c in
  (encodedTotal findings actions ≤ maxPersistedEvidenceBytes +
     (if overflow then encodedSize (json_Finding (overflowSummary (col_omittedFindings c + col_omittedActions c))) else 0))%Z.
Proof.
  intros Hok. pose proof (co_bytes _ Hok) as Hb. pose proof (co_budget _ Hok) as Hle. rewrite Hb in Hle.
  unfold findingsSize, actionsSize in Hle. rewrite !sum_map in Hle. unfold collector_sorted, encodedTotal.
  rewrite (sum_perm _ _ _ (sort_by_perm _ _)), (sum_perm _ _ _ (sort_by_perm _ (map_to_list (col_actions c)).*2)), sum_app.
  destruct (overflowed c); simpl; lia.
Qed.

(** A list sorted by distinct keys does not depend on the order it had before. *)
Lemma sort_by_distinct {A} (id : A → string) (l sorted : list A) :
  NoDup (id <$> sorted) → l ≡ₚ sorted → Sorted (λ a b, str_lt (id b) (id a) = false) sorted →
  sort_by (λ a b, str_lt (id a) (id b)) l = sorted.
Proof.
  intros Hnd Hl Hs. pose proof (key_weak id str_lt) as Hw. symmetry. apply sort_by_unique; [exact Hw| |by symmetry|done].
  intros a b Ha Hb H1 H2. rewrite Hl in Ha, Hb. pose proof (str_lt_total _ _ H1 H2) as E.
  apply list_elem_of_lookup in Ha as [i Hi], Hb as [k Hk].
  assert (i = k) as ->; [|congruence]. eapply NoDup_lookup; [exact Hnd|..]; rewrite list_lookup_fmap; [by rewrite Hi|].
  rewrite Hk. simpl. by rewrite E.
Qed.

(** C26: whatever evidence analyzers offer (findings of known types, with counts only
    on truncated ones), what is persisted stays within the status budget: at most 512
    findings and one overflow summary, 256 actions, and 384 KiB of encoded evidence
    on top of which only the summary comes; every message is within 1024 runes.
    Findings and actions are sorted by identifier.  The identifiers of the actions
    are distinct, and so are those of the findings, unless the summary and a finding
    are a SHA-256 collision; whenever they are distinct, the result does not depend on
    the order in which the maps are iterated. *)
Theorem collector_bounds policy es :
  Forall (λ e, offeredOk e = true) es →
  let c := foldl offer (newCollector policy) es in
  let summary := overflowSummary (col_omittedFindings c + col_omittedActions c) in
  let '(findings, actions, overflow) := collector_sorted c in
  (Z.of_nat (length findings) ≤ maxPersistedFindings + (if overflow then 1 else 0))%Z ∧
  (Z.of_nat (length actions) ≤ maxPersistedActions)%Z ∧
  (encodedTotal findings actions ≤
     maxPersistedEvidenceBytes + (if overflow then encodedSize (json_Finding summary) else 0))%Z ∧
  Forall (λ f, Z.of_nat (length (runes (f_Message f))) ≤ 1024)%Z findings ∧
  Sorted (λ a b, str_lt (ra_ID b) (ra_ID a) = false) actions ∧
  Sorted (λ a b, str_lt (f_ID b) (f_ID a) = false) findings ∧
  NoDup (ra_ID <$> actions) ∧
  (∀ l, l ≡ₚ actions → sort_by (λ a b, str_lt (ra_ID a) (ra_ID b)) l = actions) ∧
  ((NoDup (f_ID <$> findings) ∧ ∀ l, l ≡ₚ findings → sort_by (λ a b, str_lt (f_ID a) (f_ID b)) l = findings) ∨
   ∃ f, f ∈ findings ∧ summary ∈ findings ∧ Collides f summary).
Proof.
  intros Hes c summary. assert (Hg : gathers (λ e, offeredOk e = true) (newCollector policy) c) by (by exists es).
  assert (Hok : CollectorOk c) by (eapply gathers_ok; [apply newCollector_ok|exact Hg]).
  pose proof (sorted_bounds c Hok) as Hb. pose proof (sorted_total c Hok) as Ht.
  pose proof (sorted_findings_nodup _ _ _ Hg (λ f Hf, Hf)) as Hnd. cbv zeta in Hnd.
  assert (Hsa : Sorted (λ a b, str_lt (ra_ID b) (ra_ID a) = false) (snd (fst (collector_sorted c)))).
  { pose proof (key_weak ra_ID str_lt). by apply sort_by_sorted. }
  assert (Hsf : Sorted (λ a b, str_lt (f_ID b) (f_ID a) = false) (fst (fst (collector_sorted c)))).
  { pose proof (key_weak f_ID str_lt). by apply sort_by_sorted. }
  destruct (collector_sorted c) as [[findings actions] overflow]. destruct Hb as (? & ? & ? & ?). simpl in *.
  split_and!; try done.
  - intros l Hl. by apply sort_by_distinct.
  - destruct Hnd as [Hnd|?]; [left|by right]. split; [done|]. intros l Hl. by apply sort_by_distinct.
Qed.

(** Evidence is never dropped silently: unless the overflow flag is raised,
    every finding that was offered is persisted under its identifier and every
    action that was offered is among the actions. *)
Theorem collector_complete policy es :
  let c := foldl offer (newCollector policy) es in
  let '(findings, actions, overflow) := collector_sorted c in
  overflow = false →
  (∀ f, EvFinding f ∈ es → f_ID (persisted f) ∈ f_ID <$> findings) ∧
  (∀ a, EvAction a ∈ es → ra_ID a ∈ ra_ID <$> actions).
Proof.
  intros c. assert (Hok : CollectorOk c) by (eapply (gathers_ok (λ _, True)); [apply newCollector_ok|exists es; split; [by apply Forall_true|done]]).
  unfold collector_sorted. intros Ho.
  destruct (collect_kept es (newCollector policy)) as (_ & _ & _ & Hk); [done|done|]. specialize (Hk Ho).
  split; intros x Hx%Hk; apply (kept_shown c) in Hx; try done; unfold collector_sorted in Hx; by rewrite Ho in *.
Qed.

(** C27: an action identifier pins what was approved: two actions with the same
    identifier agree on type, target UID, finalizer, resource version, policy UID
    and policy generation, unless the two messages hashed for them are themselves a
    SHA-256 collision (parts contain no NUL byte). *)
Theorem actionID_binds type1 uid1 fin1 rv1 puid1 gen1 type2 uid2 fin2 rv2 puid2 gen2 :
  Forall (λ s, nul_free s = true) [type1; uid1; fin1; rv1; puid1; type2; uid2; fin2; rv2; puid2] →
  actionID type1 uid1 fin1 rv1 puid1 gen1 = actionID type2 uid2 fin2 rv2 puid2 gen2 →
  (type1 = type2 ∧ uid1 = uid2 ∧ fin1 = fin2 ∧ rv1 = rv2 ∧ puid1 = puid2 ∧ gen1 = gen2) ∨
  let m1 := hashed [type1; uid1; fin1; rv1; puid1; fmt_d gen1] in
  let m2 := hashed [type2; uid2; fin2; rv2; puid2; fmt_d gen2] in
  m1 ≠ m2 ∧ sha256 m1 = sha256 m2.
Proof.
  rewrite !Forall_cons. intros (? & ? & ? & ? & ? & ? & ? & ? & ? & ? & _) E. unfold actionID in E.
  assert (Hd : ∀ a b, "action-" +:+ a = "action-" +:+ b → a = b) by (intros a b Hab; by injection Hab).
  apply Hd in E.
  set (p := [type1; _; _; _; _; _]) in E. set (q := [type2; _; _; _; _; _]) in E.
  destruct (decide (strings_Join p nul = strings_Join q nul)) as [Ej|Ej]; [left|right; by eapply digest_collision].
  apply nul_join_inj in Ej; [|done|by repeat constructor|by repeat constructor].
  unfold p, q in Ej. injection Ej as -> -> -> -> -> Eg. split_and!; try done. by apply (inj pretty) in Eg.
Qed.

Lemma actionID_binds_witness :
  Forall (λ s, nul_free s = true) ["RemoveResourceFinalizer"; "u-1"; "example.com/f"; "7"; "p-1";
                                   "RemoveResourceFinalizer"; "u-1"; "example.com/f"; "7"; "p-1"] ∧
  (("RemoveResourceFinalizer" = "RemoveResourceFinalizer" ∧ "u-1" = "u-1" ∧ "example.com/f" = "example.com/f" ∧
    "7" = "7" ∧ "p-1" = "p-1" ∧ 3%Z = 3%Z) ∨
   let m := hashed ["RemoveResourceFinalizer"; "u-1"; "example.com/f"; "7"; "p-1"; fmt_d 3] in
   m ≠ m ∧ sha256 m = sha256 m).
Proof.
  split; [by repeat constructor|]. apply actionID_binds; [by repeat constructor|reflexivity].
Defined.

Lemma collector_complete_witness :
  let f := mkFinding "" FindingUnknown "message" None "" "" "" None None false in
  let c := foldl offer (newCollector None) [EvFinding f] in
  let '(findings, _, overflow) := collector_sorted c in
  overflow = false ∧ f_ID (persisted f) ∈ f_ID <$> findings.
Proof.
  intros f c. pose proof (collector_complete None [EvFinding f]) as Hc. cbv zeta in Hc. fold c in Hc.
  assert (Ho : snd (collector_sorted c) = false) by (vm_compute; reflexivity).
  destruct (collector_sorted c) as [[findings actions] overflow]. simpl in Ho. subst overflow.
  split; [reflexivity|]. apply Hc; [reflexivity|]. by left.
Defined.

Lemma collector_bounds_witness :
  let f := mkFinding "" FindingUnknown "message" None "" "" "" None None false in
  let g := mkFinding "" FindingRemainingResource "many" None "" "" "" None (Some 7%Z) true in
  let es := [EvFinding f; EvFinding g; EvFinding f] in
  Forall (λ e, offeredOk e = true) es ∧
  let '(findings, actions, overflow) := collector_sorted (foldl offer (newCollector None) es) in
  length findings = 2 ∧ Sorted (λ a b, str_lt (f_ID b) (f_ID a) = false) findings ∧
  (encodedTotal findings actions ≤ maxPersistedEvidenceBytes)%Z.
Proof.
  intros f g es. assert (Hes : Forall (λ e, offeredOk e = true) es) by (repeat constructor). split; [exact Hes|].
  pose proof (collector_bounds None es Hes) as Hb. cbv zeta in Hb.
  assert (Hl : length (fst (fst (collector_sorted (foldl offer (newCollector None) es)))) = 2) by (vm_compute; reflexivity).
  assert (Ho : snd (collector_sorted (foldl offer (newCollector None) es)) = false) by (vm_compute; reflexivity).
  destruct (collector_sorted (foldl offer (newCollector None) es)) as [[findings actions] overflow]. simpl in Hl, Ho. subst overflow.
  destruct Hb as (_ & _ & Ht & _ & _ & Hs & _). split; [exact Hl|]. split; [exact Hs|]. simpl in Ht. lia.
Defined.
