(* ===== verification/Analyzers.v ===== *)
(** * Analyzers (internal/diagnosis/analyzers.go, engine.go)

    The analyzers that need no further reads: API services, namespace conditions,
    finalizer owners, admission webhooks, CRD conversion, grace periods and
    metadata finalizers.  Each turns snapshot data into evidence for the
    collector. *)
From S2P Require Import Prelude GoText ApiTypes Discovery Policy GoErrors KubeTypes Collector.

(** ** Requests *)

(** [Snapshot] of the diagnosis package: the evidence shared by one scan. *)
Record DiagnosisSnapshot := mkDiagnosisSnapshot {
  sn_Catalog : Snapshot;
  sn_APIServices : list APIService;
  sn_MutatingWebhooks : list WebhookConfiguration;
  sn_ValidatingWebhooks : list WebhookConfiguration;
  sn_Services : list ObjectMeta;
  sn_EndpointSlices : list EndpointSlice;
  sn_Deployments : list Workload;
  sn_StatefulSets : list Workload;
  sn_DaemonSets : list DaemonSet;
  sn_NamespaceLabels : gmap string (gmap string string)
}.

Record Request := mkRequest {
  req_Target : TargetReference;
  req_Policy : CompiledPolicy;
  req_Snapshot : DiagnosisSnapshot;
  req_Now : Time
}.

Definition with_target (r : Request) (t : TargetReference) : Request :=
  mkRequest t (req_Policy r) (req_Snapshot r) (req_Now r).

(** A finding with some fields set, as the source's composite literals. *)
Definition finding0 (type message : string) : Finding :=
  mkFinding "" type message None "" "" "" None None false.
Definition findingRef (type message : string) (ref : TargetReference) : Finding :=
  mkFinding "" type message (Some ref) "" "" "" None None false.
Definition findingWebhook (type message webhook : string) (ref : option TargetReference) : Finding :=
  mkFinding "" type message ref "" "" webhook None None false.

Definition targetReference (base : TargetReference) (object : Unstructured) : TargetReference :=
  mkTargetReference (tr_APIGroup base) (tr_Version base) (tr_Resource base) (tr_Kind base)
    (GetNamespace object) (GetName object) (GetUID object).

Definition isNamespaceTarget (t : TargetReference) : bool :=
  bool_decide (tr_APIGroup t = "") && bool_decide (tr_Resource t = "namespaces").

Section analyzers.
Context `{SchemaOps, UnicodeTables, LabelOps, KubeNames, DiagnosisNames}.

(** ** API services *)

Definition apiServiceAvailable (apiService : APIService) : bool :=
  existsb (λ c, bool_decide (asc_Type c = APIService_Available) &&
                bool_decide (asc_Status c = APIService_ConditionTrue)) (as_Conditions apiService).

(** The first unavailable condition with a message supplies the text. *)
Definition apiServiceMessage (apiService : APIService) : string :=
  match find (λ c, bool_decide (asc_Type c = APIService_Available) &&
                   negb (bool_decide (asc_Status c = APIService_ConditionTrue)) &&
                   negb (bool_decide (asc_Message c = ""))) (as_Conditions apiService) with
  | Some c => "APIService " +:+ fmt_q (as_Name apiService) +:+ " is unavailable: " +:+ asc_Message c
  | None => "APIService " +:+ fmt_q (as_Name apiService) +:+ " is unavailable"
  end.

Definition analyzeAPIServices (request : Request) (c : collector) : collector :=
  let isNamespace := isNamespaceTarget (req_Target request) in
  foldl (λ c apiService,
    if apiServiceAvailable apiService then c
    else if negb isNamespace &&
            (negb (bool_decide (as_Group apiService = tr_APIGroup (req_Target request))) ||
             negb (bool_decide (as_Version apiService = tr_Version (req_Target request)))) then c
    else addFinding (mkFinding "" FindingUnavailableAPIService (apiServiceMessage apiService) None ""
                       (as_Name apiService) "" None None false) c)
    c (sn_APIServices (req_Snapshot request)).

(** ** Namespace conditions *)

Definition namespaceConditionFinding (conditionType : string) : FindingType :=
  if bool_decide (conditionType = NamespaceDeletionDiscoveryFailure) ||
     bool_decide (conditionType = NamespaceDeletionGVParsingFailure) ||
     bool_decide (conditionType = NamespaceDeletionContentFailure) then FindingDiscoveryFailure
  else if bool_decide (conditionType = NamespaceContentRemaining) then FindingRemainingResource
  else if bool_decide (conditionType = NamespaceFinalizersRemaining) then FindingBlockingFinalizer
  else FindingUnknown.

Definition analyzeNamespaceConditions (conditions : list NamespaceCondition) (target : TargetReference)
    (c : collector) : collector :=
  foldl (λ c condition,
    if negb (bool_decide (nc_Status condition = core_ConditionTrue)) then c
    else
      let message := if decide (nc_Message condition = "")
                     then "Namespace condition " +:+ nc_Type condition +:+ " is true"
                     else nc_Message condition in
      addFinding (findingRef (namespaceConditionFinding (nc_Type condition)) message target) c)
    c conditions.

(** ** Backends and owners *)

Definition serviceBackendReady (snapshot : DiagnosisSnapshot) (namespace name : string) : bool * string :=
  if negb (existsb (λ s, bool_decide (om_Namespace s = namespace) && bool_decide (om_Name s = name))
             (sn_Services snapshot))
  then (false, "Service " +:+ namespace +:+ "/" +:+ name +:+ " does not exist")
  else if existsb (λ slice,
            bool_decide (om_Namespace (es_Meta slice) = namespace) &&
            bool_decide (default "" (om_Labels (es_Meta slice) !! LabelServiceName) = name) &&
            existsb (λ ready, match ready with None => true | Some b => b end) (es_Ready slice))
          (sn_EndpointSlices snapshot)
  then (true, "")
  else (false, "Service " +:+ namespace +:+ "/" +:+ name +:+ " has no ready EndpointSlice endpoints").

Definition ownedBy (owner : ControllerReference) (m : ObjectMeta) : bool :=
  bool_decide (om_Namespace m = cr_Namespace owner) && bool_decide (om_Name m = cr_Name owner).

Definition ownerHealthy (snapshot : DiagnosisSnapshot) (owner : ControllerReference) : bool * string :=
  if decide (cr_Kind owner = "Deployment") then
    match find (λ w, ownedBy owner (wl_Meta w)) (sn_Deployments snapshot) with
    | Some w =>
        let desired := default 1%Z (wl_Replicas w) in
        if bool_decide (desired = 0)%Z || bool_decide (wl_ObservedGeneration w < om_Generation (wl_Meta w))%Z ||
           bool_decide (wl_AvailableReplicas w < desired)%Z
        then (false, "Deployment is not fully available at its current generation") else (true, "")
    | None => (false, "Deployment does not exist")
    end
  else if decide (cr_Kind owner = "StatefulSet") then
    match find (λ w, ownedBy owner (wl_Meta w)) (sn_StatefulSets snapshot) with
    | Some w =>
        let desired := default 1%Z (wl_Replicas w) in
        if bool_decide (desired = 0)%Z || bool_decide (wl_ObservedGeneration w < om_Generation (wl_Meta w))%Z ||
           bool_decide (wl_ReadyReplicas w < desired)%Z
        then (false, "StatefulSet is not fully ready at its current generation") else (true, "")
    | None => (false, "StatefulSet does not exist")
    end
  else if decide (cr_Kind owner = "DaemonSet") then
    match find (λ w, ownedBy owner (ds_Meta w)) (sn_DaemonSets snapshot) with
    | Some w =>
        if bool_decide (ds_ObservedGeneration w < om_Generation (ds_Meta w))%Z ||
           bool_decide (ds_DesiredNumberScheduled w = 0)%Z ||
           bool_decide (ds_NumberReady w < ds_DesiredNumberScheduled w)%Z
        then (false, "DaemonSet is not fully ready at its current generation") else (true, "")
    | None => (false, "DaemonSet does not exist")
    end
  else (false, "unsupported owner kind " +:+ fmt_q (cr_Kind owner)).

Definition analyzeFinalizerOwner (request : Request) (finalizer : string) (c : collector) : collector :=
  match FinalizerOwner_ (Some (req_Policy request)) finalizer with
  | None => c
  | Some owner =>
      let '(healthy, reason) := ownerHealthy (req_Snapshot request) owner in
      if healthy : bool then c
      else addFinding (mkFinding "" FindingMissingFinalizerController
             ("configured finalizer owner is unhealthy: " +:+ reason) None finalizer "" "" (Some owner) None false) c
  end.

(** ** Grace period and metadata finalizers *)

Definition analyzeGracePeriod (request : Request) (target : Unstructured) (c : collector) : collector :=
  match GetDeletionGracePeriodSeconds target, GetDeletionTimestamp target with
  | Some grace, Some deletionTimestamp =>
      if negb (Time_After (req_Now request) deletionTimestamp) then c
      else addFinding (findingRef FindingDeletionGracePeriodExceeded
             ("deletion grace period of " +:+ fmt_d grace +:+ " seconds has elapsed")
             (targetReference (req_Target request) target)) c
  | _, _ => c
  end.

Definition analyzeMetadataFinalizers (request : Request) (target : Unstructured) (crd : bool)
    (c : collector) : collector :=
  foldl (λ c finalizer,
    let c := addFinding (mkFinding "" FindingBlockingFinalizer
               ("metadata finalizer " +:+ fmt_q finalizer +:+ " remains")
               (Some (targetReference (req_Target request) target)) finalizer "" "" None None false) c in
    let c := analyzeFinalizerOwner request finalizer c in
    if crd && bool_decide (finalizer = CustomResourceCleanupFinalizer) then c
    else addAction (newAction (req_Policy request) ActionRemoveResourceFinalizer (req_Target request) finalizer
           (GetResourceVersion target) ("remove blocking metadata finalizer " +:+ fmt_q finalizer)) c)
    c (sortedCopy (GetFinalizers target)).

(** ** Admission webhooks *)

Record webhookView := mkWebhookView {
  wv_identity : string;
  wv_rules : list RuleWithOperations;
  wv_failurePolicy : option string;
  wv_matchPolicy : option string;
  wv_namespaceSelector : option LabelSelector;
  wv_objectSelector : option LabelSelector;
  wv_clientConfig : WebhookClientConfig;
  wv_matchConditions : Z
}.

Definition operationMatches (operations : list string) : bool :=
  bool_decide (admission_OperationAll ∈ operations) || bool_decide (admission_Update ∈ operations).

Definition stringRuleMatches (rules : list string) (value : string) : bool :=
  bool_decide ("*" ∈ rules) || bool_decide (value ∈ rules).

Definition admissionTarget (target : TargetReference) : string * string :=
  if isNamespaceTarget target then (tr_Resource target, "finalize") else (tr_Resource target, "").

Definition resourceRuleMatches (rules : list string) (resource subresource : string) : bool :=
  let candidate := if decide (subresource ≠ "") then resource +:+ "/" +:+ subresource else resource in
  existsb (λ rule,
    bool_decide (rule = "*/*") || bool_decide (rule = candidate) ||
    (bool_decide (rule = "*") && bool_decide (subresource = "")) ||
    (bool_decide (subresource ≠ "") && bool_decide (rule = resource +:+ "/*")) ||
    (bool_decide (subresource ≠ "") && bool_decide (rule = "*/" +:+ subresource))) rules.

Definition scopeMatches (scope : option string) (namespaced : bool) : bool :=
  match scope with
  | None => true
  | Some s =>
      if bool_decide (s = admission_AllScopes) then true
      else (namespaced && bool_decide (s = admission_NamespacedScope)) ||
           (negb namespaced && bool_decide (s = admission_ClusterScope))
  end.

(** [ruleMatches] of the diagnosis package. *)
Definition admissionRuleMatches (request : Request) (rule : RuleWithOperations) (matchPolicy : option string)
    : bool :=
  let target := req_Target request in
  let '(targetResource, subresource) := admissionTarget target in
  if negb (operationMatches (rwo_Operations rule)) ||
     negb (stringRuleMatches (rwo_APIGroups rule) (tr_APIGroup target)) ||
     negb (resourceRuleMatches (rwo_Resources rule) targetResource subresource) then false
  else if negb (scopeMatches (rwo_Scope rule) (bool_decide (tr_Namespace target ≠ ""))) then false
  else if stringRuleMatches (rwo_APIVersions rule) (tr_Version target) then true
  else if bool_decide (matchPolicy = Some admission_Exact) then false
  else match Resolve (sn_Catalog (req_Snapshot request)) (mkGR (tr_APIGroup target) (tr_Resource target)) with
       | None => false
       | Some catalogResource =>
           existsb (λ version, stringRuleMatches (rwo_APIVersions rule) version)
             (v_Version (r_PreferredVersion catalogResource) ::
              (v_Version <$> AlternateVersions catalogResource))
       end.

Definition webhookMatches (request : Request) (target : Unstructured) (webhook : webhookView) : bool * string :=
  let ref := req_Target request in
  let rules := (existsb (λ rule, admissionRuleMatches request rule (wv_matchPolicy webhook)) (wv_rules webhook), "") in
  let objects :=
    match wv_objectSelector webhook with
    | None => rules
    | Some ls =>
      match LabelSelectorAsSelector ls with
      | inl err => (false, "matching webhook has an invalid objectSelector: " +:+ err)
      | inr selector => if negb (selector (GetLabels target)) then (false, "") else rules
      end
    end in
  match wv_namespaceSelector webhook with
  | None => objects
  | Some ls =>
    match LabelSelectorAsSelector ls with
    | inl err => (false, "matching webhook has an invalid namespaceSelector: " +:+ err)
    | inr selector =>
        let '(selectedLabels, evaluateSelector) :=
          if isNamespaceTarget ref then (GetLabels target, true)
          else if bool_decide (tr_Namespace ref ≠ "")
          then (default ∅ (sn_NamespaceLabels (req_Snapshot request) !! tr_Namespace ref), true)
          else (∅, false) in
        if evaluateSelector && negb (selector selectedLabels) then (false, "") else objects
    end
  end.

Definition analyzeWebhook (request : Request) (target : Unstructured) (webhook : webhookView) (c : collector)
    : collector :=
  let add type message :=
    addFinding (findingWebhook type message (wv_identity webhook) (Some (req_Target request))) c in
  if bool_decide (wv_failurePolicy webhook = Some admission_Ignore) then c
  else
    let '(matches, uncertain) := webhookMatches request target webhook in
    if negb (bool_decide (uncertain = "")) then add FindingUnknown uncertain
    else if negb matches then c
    else if bool_decide (0 < wv_matchConditions webhook)%Z
    then add FindingUnknown "matching webhook has matchConditions that cannot be evaluated from metadata"
    else match wcc_URL (wv_clientConfig webhook) with
    | Some _ => add FindingUnknown "matching fail-closed webhook URL health is not probed"
    | None =>
      match wcc_Service (wv_clientConfig webhook) with
      | None => add FindingUnknown "matching fail-closed webhook has no Service or URL"
      | Some service =>
          let '(ready, reason) :=
            serviceBackendReady (req_Snapshot request) (sr_Namespace service) (sr_Name service) in
          if negb ready
          then add FindingBlockingWebhook ("matching fail-closed webhook backend is unavailable: " +:+ reason)
          else add FindingUnknown "matching fail-closed webhook backend is ready; TLS behavior was not probed"
      end
    end.

Definition webhookViewOf (configuration : WebhookConfiguration) (webhook : Webhook) : webhookView :=
  mkWebhookView (wc_Name configuration +:+ "/" +:+ wh_Name webhook) (wh_Rules webhook)
    (wh_FailurePolicy webhook) (wh_MatchPolicy webhook) (wh_NamespaceSelector webhook)
    (wh_ObjectSelector webhook) (wh_ClientConfig webhook) (wh_MatchConditions webhook).

Definition analyzeConfigurations (request : Request) (target : Unstructured)
    (configurations : list WebhookConfiguration) (c : collector) : collector :=
  foldl (λ c configuration,
    foldl (λ c webhook, analyzeWebhook request target (webhookViewOf configuration webhook) c)
      c (wc_Webhooks configuration)) c configurations.

Definition analyzeAdmissionWebhooks (request : Request) (target : Unstructured) (c : collector) : collector :=
  analyzeConfigurations request target (sn_ValidatingWebhooks (req_Snapshot request))
    (analyzeConfigurations request target (sn_MutatingWebhooks (req_Snapshot request)) c).

(** ** CRD conversion *)

Definition analyzeCRDConversion (request : Request) (crd : CustomResourceDefinition) (c : collector)
    : bool * collector :=
  let webhook := om_Name (crd_Meta crd) +:+ "/conversion" in
  match crd_Conversion crd with
  | None => (true, c)
  | Some conversion =>
    if negb (bool_decide (conv_Strategy conversion = WebhookConverter)) then (true, c)
    else match conv_Webhook conversion with
    | None => (false, addFinding (finding0 FindingUnknown "CRD conversion webhook configuration is missing") c)
    | Some None =>
        (false, addFinding (findingWebhook FindingUnknown
                  "CRD conversion webhook client configuration is missing" webhook None) c)
    | Some (Some clientConfig) =>
      match wcc_URL clientConfig with
      | Some _ => (false, addFinding (findingWebhook FindingUnknown
                    "CRD conversion URL health is not probed" webhook None) c)
      | None =>
        match wcc_Service clientConfig with
        | None => (false, addFinding (findingWebhook FindingUnknown
                     "CRD conversion webhook has no Service or URL" webhook None) c)
        | Some service =>
            let '(ready, reason) :=
              serviceBackendReady (req_Snapshot request) (sr_Namespace service) (sr_Name service) in
            if negb ready
            then (false, addFinding (findingWebhook FindingBlockingWebhook
                    ("CRD conversion Service is unavailable: " +:+ reason) webhook None) c)
            else (true, c)
        end
      end
    end
  end.
End analyzers.

(** ** The analyzers only offer evidence *)

Section gathering.
Context `{SchemaOps, UnicodeTables, LabelOps, KubeNames, DiagnosisNames}.
Context (P : evidence → Prop) (Hfinding : ∀ f, offerable f = true → P (EvFinding f)).

Lemma gathers_analyzeAPIServices request c : gathers P c (analyzeAPIServices request c).
Proof using Hfinding.
  apply gathers_foldl. intros c' s _. repeat case_match; auto with evidence.
Qed.

Lemma namespaceConditionFinding_offerable conditionType message target :
  offerable (findingRef (namespaceConditionFinding conditionType) message target) = true.
Proof using. unfold namespaceConditionFinding. by repeat case_match. Qed.
Local Hint Resolve namespaceConditionFinding_offerable : evidence.

Lemma gathers_analyzeNamespaceConditions conditions target c :
  gathers P c (analyzeNamespaceConditions conditions target c).
Proof using Hfinding.
  apply gathers_foldl. intros c' s _. destruct (negb _); auto with evidence.
Qed.

Lemma gathers_analyzeFinalizerOwner request finalizer c c' :
  gathers P c c' → gathers P c (analyzeFinalizerOwner request finalizer c').
Proof using Hfinding.
  intros Hc. unfold analyzeFinalizerOwner. destruct (FinalizerOwner_ _ _); [|done].
  destruct (ownerHealthy _ _) as [[] reason]; auto with evidence.
Qed.

Lemma gathers_analyzeGracePeriod request target c : gathers P c (analyzeGracePeriod request target c).
Proof using Hfinding. unfold analyzeGracePeriod. repeat case_match; auto with evidence. Qed.

Lemma gathers_analyzeMetadataFinalizers request target crd c :
  (∀ f, f ∈ GetFinalizers target → (crd && bool_decide (f = CustomResourceCleanupFinalizer) = false) →
     P (EvAction (newAction (req_Policy request) ActionRemoveResourceFinalizer (req_Target request) f
       (GetResourceVersion target) ("remove blocking metadata finalizer " +:+ fmt_q f)))) →
  gathers P c (analyzeMetadataFinalizers request target crd c).
Proof using Hfinding.
  intros Ha. apply gathers_foldl. intros c' f Hf. unfold sortedCopy, sort_strings in Hf. rewrite elem_of_sort_by in Hf.
  cbv zeta. destruct (crd && _) eqn:Ecrd; [|apply gathers_action; [by apply Ha|]];
    apply gathers_analyzeFinalizerOwner; auto with evidence.
Qed.

Lemma gathers_analyzeWebhook request target webhook c :
  gathers P c (analyzeWebhook request target webhook c).
Proof using Hfinding. unfold analyzeWebhook. cbv zeta. repeat case_match; auto with evidence. Qed.

Lemma gathers_analyzeConfigurations request target configurations c :
  gathers P c (analyzeConfigurations request target configurations c).
Proof using Hfinding.
  apply gathers_foldl. intros c' conf _. apply gathers_foldl. intros c'' w _. apply gathers_analyzeWebhook.
Qed.

Lemma gathers_analyzeAdmissionWebhooks request target c :
  gathers P c (analyzeAdmissionWebhooks request target c).
Proof using Hfinding.
  unfold analyzeAdmissionWebhooks. etrans; apply gathers_analyzeConfigurations.
Qed.

Lemma gathers_analyzeCRDConversion request crd c : gathers P c (snd (analyzeCRDConversion request crd c)).
Proof using Hfinding. unfold analyzeCRDConversion. cbv zeta. repeat case_match; simpl; auto with evidence. Qed.
End gathering.

(** ** Properties *)

Section properties.
Context `{SchemaOps, UnicodeTables, LabelOps, KubeNames, DiagnosisNames}.

Lemma serviceBackendReady_true snapshot namespace name :
  fst (serviceBackendReady snapshot namespace name) = true ↔
  (∃ s, s ∈ sn_Services snapshot ∧ om_Namespace s = namespace ∧ om_Name s = name) ∧
  (∃ slice ready, slice ∈ sn_EndpointSlices snapshot ∧ om_Namespace (es_Meta slice) = namespace ∧
     default "" (om_Labels (es_Meta slice) !! LabelServiceName) = name ∧
     ready ∈ es_Ready slice ∧ default true ready = true).
Proof.
  unfold serviceBackendReady.
  assert (Hs : existsb (λ s, bool_decide (om_Namespace s = namespace) && bool_decide (om_Name s = name))
                 (sn_Services snapshot) = true ↔
               ∃ s, s ∈ sn_Services snapshot ∧ om_Namespace s = namespace ∧ om_Name s = name).
  { rewrite existsb_true_iff. setoid_rewrite andb_true_iff. by setoid_rewrite bool_decide_eq_true. }
  destruct (existsb _ (sn_Services snapshot)); simpl; [|naive_solver].
  match goal with |- context [if ?b then _ else _] =>
    assert (He : b = true ↔ ∃ slice ready, slice ∈ sn_EndpointSlices snapshot ∧
      om_Namespace (es_Meta slice) = namespace ∧
      default "" (om_Labels (es_Meta slice) !! LabelServiceName) = name ∧
      ready ∈ es_Ready slice ∧ default true ready = true); [|destruct b; simpl; naive_solver]
  end.
  rewrite existsb_true_iff. setoid_rewrite andb_true_iff. setoid_rewrite andb_true_iff.
  setoid_rewrite bool_decide_eq_true. setoid_rewrite existsb_true_iff. split.
  - intros (slice & Hin & (Hns & Hn) & ready & Hr & Hb). exists slice, ready. by destruct ready.
  - intros (slice & ready & Hin & Hns & Hn & Hr & Hb). exists slice. split_and!; try done.
    exists ready. by destruct ready.
Qed.

(** A fail-closed webhook is never passed over in silence: the analysis adds
    nothing exactly when the webhook ignores failures or certainly does not match;
    otherwise it adds one finding under the webhook's identity for the target, and
    that finding blames the webhook exactly when it certainly matches, has no match
    conditions and its Service has no ready backend. *)
Theorem analyzeWebhook_verdict request target webhook c :
  let '(matches, uncertain) := webhookMatches request target webhook in
  let ignored := bool_decide (wv_failurePolicy webhook = Some admission_Ignore) in
  if ignored || (bool_decide (uncertain = "") && negb matches)
  then analyzeWebhook request target webhook c = c
  else ∃ type message,
    analyzeWebhook request target webhook c =
      addFinding (findingWebhook type message (wv_identity webhook) (Some (req_Target request))) c ∧
    (type = FindingUnknown ∨ type = FindingBlockingWebhook) ∧
    (type = FindingBlockingWebhook ↔
       uncertain = "" ∧ matches = true ∧ (wv_matchConditions webhook ≤ 0)%Z ∧
       wcc_URL (wv_clientConfig webhook) = None ∧
       ∃ s, wcc_Service (wv_clientConfig webhook) = Some s ∧
         fst (serviceBackendReady (req_Snapshot request) (sr_Namespace s) (sr_Name s)) = false).
Proof.
  unfold analyzeWebhook. destruct (webhookMatches request target webhook) as [matches uncertain]. cbv zeta.
  destruct (bool_decide (wv_failurePolicy webhook = _)); simpl; [done|].
  case_bool_decide as Eu; simpl; [|do 2 eexists; split; [done|]; split; [by left|]; split; [done|]; naive_solver].
  destruct matches; simpl; [|done].
  case_bool_decide as Em; [do 2 eexists; split; [done|]; split; [by left|]; split; [done|]; naive_solver lia|].
  destruct (wcc_URL _) as [url|]; [do 2 eexists; split; [done|]; split; [by left|]; split; [done|]; naive_solver|].
  destruct (wcc_Service _) as [s|]; [|do 2 eexists; split; [done|]; split; [by left|]; split; [done|]; naive_solver].
  destruct (serviceBackendReady _ _ _) as [[] reason] eqn:Es; simpl; do 2 eexists; (split; [done|]).
  - split; [by left|]. split; [done|]. intros (_ & _ & _ & _ & s' & [= <-] & Hr). by rewrite Es in Hr.
  - split; [by right|]. split; [|done]. intros _. split_and!; [done|done|lia|done|]. exists s. by rewrite Es.
Qed.

(** CRD conversion counts as complete exactly when no conversion webhook is
    configured or it is served by a Service with a ready endpoint; in every other
    case a finding explains the gap. *)
Theorem analyzeCRDConversion_iff request crd c :
  let '(complete, c') := analyzeCRDConversion request crd c in
  (complete = true ↔
     ∀ conversion, crd_Conversion crd = Some conversion → conv_Strategy conversion = WebhookConverter →
       ∃ config s, conv_Webhook conversion = Some (Some config) ∧ wcc_URL config = None ∧
         wcc_Service config = Some s ∧
         fst (serviceBackendReady (req_Snapshot request) (sr_Namespace s) (sr_Name s)) = true) ∧
  (complete = true → c' = c) ∧ (complete = false → ∃ f, c' = addFinding f c).
Proof.
  unfold analyzeCRDConversion. cbv zeta.
  destruct (crd_Conversion crd) as [conv|]; [|split_and!; [|done|done]; split; [done|done]].
  case_bool_decide as Es; simpl; [|split_and!; [|done|done]; split; [|done]; intros _ ? [= <-] ?; done].
  assert (Hbad : ∀ f, (∀ config s, conv_Webhook conv = Some (Some config) → wcc_URL config = None →
      wcc_Service config = Some s →
      fst (serviceBackendReady (req_Snapshot request) (sr_Namespace s) (sr_Name s)) ≠ true) →
    (false = true ↔ ∀ conversion, Some conv = Some conversion → conv_Strategy conversion = WebhookConverter →
       ∃ config s, conv_Webhook conversion = Some (Some config) ∧ wcc_URL config = None ∧
         wcc_Service config = Some s ∧
         fst (serviceBackendReady (req_Snapshot request) (sr_Namespace s) (sr_Name s)) = true) ∧
    (false = true → addFinding f c = c) ∧ (false = false → ∃ f0, addFinding f c = addFinding f0 c)).
  { intros f Hno. split_and!; [|done|by exists f]. split; [done|]. intros Hall.
    destruct (Hall conv eq_refl Es) as (config & s & ? & ? & ? & Hr). by destruct (Hno config s). }
  destruct (conv_Webhook conv) as [[config|]|] eqn:Ew; [|apply Hbad; naive_solver|apply Hbad; naive_solver].
  destruct (wcc_URL config) eqn:Eurl; [apply Hbad; naive_solver|].
  destruct (wcc_Service config) as [s|] eqn:Esv; [|apply Hbad; naive_solver].
  destruct (serviceBackendReady _ _ _) as [[] reason] eqn:Er; simpl.
  - split_and!; [|done|done]. split; [|done]. intros _ ? [= <-] _. exists config, s. by rewrite Er.
  - apply Hbad. intros config' s' [= <-] _ Hs. rewrite Esv in Hs. injection Hs as <-. by rewrite Er.
Qed.
End properties.
