(* ===== verification/Diagnosis.v ===== *)
(** * The diagnosis engine (internal/diagnosis/engine.go, analyzers.go)

    [Diagnose] and the enumerations that read the API: a program over GET and
    partial-metadata LIST calls.  A listing is a loop with no bound of its own
    (the server decides when the continue token ends), so the page loops carry
    fuel; running out of it is the event [DDiverge], and dereferencing a nil
    pointer the event [DPanic]; neither has a response. *)
From S2P Require Import Prelude GoText ApiTypes Discovery Policy GoErrors Prog KubeTypes Collector Analyzers.

Local Open Scope prog_scope.

Definition metadataPageSize : Z := 500.

Inductive dev :=
  | DGet (gvr : GroupVersionResource) (namespace name : string)
  | DList (gvr : GroupVersionResource) (namespace : string) (limit : Z) (continue : string)
  | DDiverge
  | DPanic.

Definition dresp (e : dev) : Type :=
  match e with
  | DGet _ _ _ => ExternalError + Unstructured
  | DList _ _ _ _ => ExternalError + MetadataList
  | DDiverge | DPanic => Empty_set
  end%type.

(** [Result] *)
Record DiagnosisResult := mkDiagnosisResult {
  res_TargetFound : bool;
  res_UIDMatches : bool;
  res_ThresholdElapsed : bool;
  res_DiagnosisComplete : bool;
  res_TargetSnapshot : TargetSnapshot;
  res_Findings : list Finding;
  res_Actions : list RemediationAction
}.
Definition zero_DiagnosisResult : DiagnosisResult :=
  mkDiagnosisResult false false false false zero_TargetSnapshot [] [].

Section engine.
Context `{SchemaOps, UnicodeTables, LabelOps, KubeNames, DiagnosisNames, ApiErrors}.

Abbreviation D := (prog dresp).

Definition diverge {A} : D A := Do DDiverge (λ r : dresp DDiverge, match r with end).

Definition dpanic {A} : D A := Do DPanic (λ r : dresp DPanic, match r with end).

Definition namespaceResource : GroupVersionResource := mkGVR "" "v1" "namespaces".
Definition crdResource : GroupVersionResource := mkGVR apiextensions_GroupName "v1" "customresourcedefinitions".

(** ** Listing one namespaced resource *)

(** How the pages of one version end. *)
Inductive pages :=
  | PagesDone (items : list ObjectMeta) (truncated : bool)
  | PagesUnavailable (err : error)
  | PagesFailed (err : error).

Fixpoint listPages (fuel : nat) (gvr : GroupVersionResource) (namespace : string) (maximum : Z)
    (items : list ObjectMeta) (continueToken : string) : D pages :=
  let remaining := (maximum - Z.of_nat (length items))%Z in
  if bool_decide (remaining ≤ 0)%Z then mret (PagesDone items true)
  else match fuel with
  | O => diverge
  | S fuel =>
    r ← call (DList gvr namespace (Z.min metadataPageSize remaining) continueToken);
    match r with
    | inl x =>
        if unavailable (ErrExternal x) then mret (PagesUnavailable (ErrExternal x))
        else mret (PagesFailed (ErrExternal x))
    | inr list =>
        let items := items ++ ml_Items list in
        if decide (ml_Continue list = "") then mret (PagesDone items false)
        else listPages fuel gvr namespace maximum items (ml_Continue list)
    end
  end.

(** The loop over versions; the error is [lastUnavailable]. *)
Fixpoint listVersions (fuel : nat) (resource : Resource) (namespace : string) (maximum : Z)
    (versions : list Version) (last : option error)
    : D (list ObjectMeta * Version * bool * option error) :=
  match versions with
  | [] => mret ([], r_PreferredVersion resource, false, last)
  | version :: versions' =>
      p ← listPages fuel (WithVersion (r_GroupResource resource) (v_Version version)) namespace maximum [] "";
      match p with
      | PagesDone items truncated => mret (items, version, truncated, None)
      | PagesFailed err => mret ([], version, false, Some err)
      | PagesUnavailable err => listVersions fuel resource namespace maximum versions' (Some err)
      end
  end.

Definition listNamespaceResource (fuel : nat) (resource : Resource) (namespace : string) (maximum : Z)
    : D (list ObjectMeta * Version * bool * option error) :=
  listVersions fuel resource namespace maximum
    (OrderedVersions resource (v_Version (r_PreferredVersion resource))) None.

(** ** Namespaces *)

Definition addTruncationFinding (observed : Z) (c : collector) : collector :=
  addFinding (mkFinding "" FindingRemainingResource "remaining-resource enumeration reached maxNamespaceObjects"
    None "" "" "" None (Some (int32 observed)) true) c.

Definition hasLaterNamespacedResource (resources : list Resource) : bool :=
  existsb (λ r, v_Namespaced (r_PreferredVersion r)) resources.

Definition metadataReference (resource : Resource) (object : ObjectMeta) : TargetReference :=
  let version := r_PreferredVersion resource in
  mkTargetReference (gr_Group (r_GroupResource resource)) (v_Version version)
    (gr_Resource (r_GroupResource resource)) (v_Kind version) (om_Namespace object) (om_Name object) (om_UID object).

(** [selectedResource]: the resource with the version that was listed as its
    preferred one. *)
Definition selectedResource (resource : Resource) (version : Version) : Resource :=
  mkResource (r_GroupResource resource) version (r_alternates resource).

(** An object that carries nothing but labels. *)
Definition labelled (labels : gmap string string) : Unstructured :=
  mkUnstructured (mkObjectMeta "" "" "" "" 0 0 None None labels ∅ [] []) (inr None)
    (inl (mkExternalError "" "" 0 None false)) (inl (mkExternalError "" "" 0 None false)).

(** The evidence one remaining object contributes: itself, and an action for each
    of its finalizers. *)
Definition remainingFinding (resource : Resource) (version : Version) (item : ObjectMeta) : Finding :=
  findingRef FindingRemainingResource
    (GroupResource_String (r_GroupResource resource) +:+ " " +:+ om_Namespace item +:+ "/" +:+
     om_Name item +:+ " remains in terminating Namespace") (metadataReference (selectedResource resource version) item).

Definition remainingAction (request : Request) (resource : Resource) (version : Version) (item : ObjectMeta)
    (finalizer : string) : RemediationAction :=
  newAction (req_Policy request) ActionRemoveResourceFinalizer (metadataReference (selectedResource resource version) item) finalizer
    (om_ResourceVersion item)
    ("remove finalizer " +:+ fmt_q finalizer +:+ " from object blocking Namespace deletion").

Definition remainingObject (request : Request) (resource : Resource) (version : Version) (c : collector)
    (item : ObjectMeta) : collector :=
  let reference := metadataReference (selectedResource resource version) item in
  let c := addFinding (remainingFinding resource version item) c in
  let c := if CheckWebhooks (set_Diagnosis (p_settings (req_Policy request)))
           then analyzeAdmissionWebhooks (with_target request reference) (labelled (om_Labels item)) c else c in
  foldl (λ c finalizer,
    let c := addFinding (mkFinding "" FindingBlockingFinalizer
               ("remaining object has metadata finalizer " +:+ fmt_q finalizer)
               (Some reference) finalizer "" "" None None false) c in
    let c := analyzeFinalizerOwner request finalizer c in
    addAction (remainingAction request resource version item finalizer) c)
    c (sortedCopy (om_Finalizers item)).

(** The loop over the catalog's resources: the result is the completeness flag
    and the collector. *)
Fixpoint enumerateResources (fuel : nat) (request : Request) (maxObjects : Z) (resources : list Resource)
    (observed : Z) (complete : bool) (c : collector) : D (bool * collector) :=
  match resources with
  | [] => mret (complete, c)
  | resource :: resources' =>
    if negb (v_Namespaced (r_PreferredVersion resource))
    then enumerateResources fuel request maxObjects resources' observed complete c
    else
      let remaining := (maxObjects - observed)%Z in
      if bool_decide (remaining ≤ 0)%Z then mret (false, addTruncationFinding observed c)
      else
        '(items, version, truncated, err) ←
          listNamespaceResource fuel resource (tr_Name (req_Target request)) remaining;
        match err with
        | Some e =>
            enumerateResources fuel request maxObjects resources' observed false
              (addFinding (finding0 FindingDiscoveryFailure
                 ("list " +:+ GroupResource_String (r_GroupResource resource) +:+ " in Namespace " +:+
                  fmt_q (tr_Name (req_Target request)) +:+ ": " +:+ Error_text e)) c)
        | None =>
            let observed := (observed + Z.of_nat (length items))%Z in
            let c := foldl (remainingObject request resource version) c items in
            if truncated || (bool_decide (maxObjects ≤ observed)%Z && hasLaterNamespacedResource resources')
            then mret (false, addTruncationFinding observed c)
            else enumerateResources fuel request maxObjects resources' observed complete c
        end
  end.

Definition enumerateNamespace (fuel : nat) (request : Request) (complete : bool) (c : collector)
    : D (bool * collector) :=
  enumerateResources fuel request (MaxNamespaceObjects (set_Diagnosis (p_settings (req_Policy request))))
    (Snapshot_Resources (sn_Catalog (req_Snapshot request))) 0 complete c.

(** [diagnoseNamespace]: completeness, the namespace finalizers of the target
    snapshot, and the collector. *)
Definition diagnoseNamespace (fuel : nat) (request : Request) (target : Unstructured) (c : collector)
    : D (bool * list string * collector) :=
  match u_AsNamespace target with
  | inl err =>
      mret (false, [], addFinding (finding0 FindingDiscoveryFailure ("decode Namespace target: " +:+ x_Text err)) c)
  | inr namespace =>
      let finalizers := sort_strings (ns_SpecFinalizers namespace) in
      let c := analyzeGracePeriod request target c in
      let c := analyzeMetadataFinalizers request target false c in
      let c := analyzeNamespaceConditions (ns_Conditions namespace) (req_Target request) c in
      '(complete, c) ← enumerateNamespace fuel request true c;
      let c := if complete && bool_decide (ns_SpecFinalizers namespace ≠ [])
               then addAction (newAction (req_Policy request) ActionForceFinalizeNamespace (req_Target request) ""
                      (GetResourceVersion target)
                      "clear Namespace spec.finalizers after reviewing remaining content") c
               else c in
      mret (complete, finalizers, c)
  end.

(** ** Custom resource definitions *)

Definition addCRDTruncationFinding (retained : Z) (c : collector) : collector :=
  addFinding (mkFinding "" FindingRemainingResource "custom-resource enumeration reached maxCRDInstances"
    None "" "" "" None (Some (int32 retained)) true) c.

(** The variables of [enumerateCRDInstances]. *)
Record crdState := mkCrdState {
  cs_seen : gset string;
  cs_retained : Z;
  cs_complete : bool;
  cs_collector : collector
}.

(** The loop over the items of one page; [inl] is the early [return false]. *)
Fixpoint crdItems (crd : CustomResourceDefinition) (version : string) (maxInstances : Z)
    (items : list ObjectMeta) (s : crdState) : collector + crdState :=
  match items with
  | [] => inr s
  | item :: items' =>
    let uid := om_UID item in
    if bool_decide (uid ≠ "") && bool_decide (uid ∈ cs_seen s) then crdItems crd version maxInstances items' s
    else if bool_decide (maxInstances ≤ cs_retained s)%Z
    then inl (addCRDTruncationFinding (cs_retained s) (cs_collector s))
    else
      let retained := (cs_retained s + 1)%Z in
      if bool_decide (uid = "") then
        crdItems crd version maxInstances items'
          (mkCrdState (cs_seen s) retained false
             (addFinding (finding0 FindingUnknown
                ("CRD instance " +:+ om_Namespace item +:+ "/" +:+ om_Name item +:+ " in " +:+
                 GroupVersion_text (crd_Group crd) version +:+ " has no UID")) (cs_collector s)))
      else
        let reference := mkTargetReference (crd_Group crd) version (crd_Plural crd) (crd_Kind crd)
                           (om_Namespace item) (om_Name item) uid in
        crdItems crd version maxInstances items'
          (mkCrdState ({[uid]} ∪ cs_seen s) retained (cs_complete s)
             (addFinding (findingRef FindingRemainingResource
                ("custom resource " +:+ om_Namespace item +:+ "/" +:+ om_Name item +:+ " remains") reference)
                (cs_collector s)))
  end.

(** The pages of one version. *)
Fixpoint crdPages (fuel : nat) (crd : CustomResourceDefinition) (version : string) (maxInstances : Z)
    (nextPage : string) (s : crdState) : D (collector + crdState) :=
  match fuel with
  | O => diverge
  | S fuel =>
    r ← call (DList (mkGVR (crd_Group crd) version (crd_Plural crd)) "" metadataPageSize nextPage);
    match r with
    | inl x =>
        mret (inr (mkCrdState (cs_seen s) (cs_retained s) false
          (addFinding (finding0 FindingDiscoveryFailure
             ("list CRD instances for " +:+ GroupVersion_text (crd_Group crd) version +:+ ": " +:+ x_Text x))
             (cs_collector s))))
    | inr list =>
        match crdItems crd version maxInstances (ml_Items list) s with
        | inl c => mret (inl c)
        | inr s =>
            if decide (ml_Continue list = "") then mret (inr s)
            else crdPages fuel crd version maxInstances (ml_Continue list) s
        end
    end
  end.

Fixpoint crdVersions (fuel : nat) (crd : CustomResourceDefinition) (maxInstances : Z) (versions : list string)
    (s : crdState) : D (bool * collector) :=
  match versions with
  | [] => mret (cs_complete s, cs_collector s)
  | version :: versions' =>
      r ← crdPages fuel crd version maxInstances "" s;
      match r with
      | inl c => mret (false, c)
      | inr s => crdVersions fuel crd maxInstances versions' s
      end
  end.

Definition servedCRDVersions (crd : CustomResourceDefinition) : list string :=
  sort_strings (crdv_Name <$> filter (λ v, crdv_Served v = true) (crd_Versions crd)).

Definition enumerateCRDInstances (fuel : nat) (crd : CustomResourceDefinition) (maxInstances : Z)
    (c : collector) : D (bool * collector) :=
  crdVersions fuel crd maxInstances (servedCRDVersions crd) (mkCrdState ∅ 0 true c).

Definition diagnoseCRD (fuel : nat) (request : Request) (target : Unstructured) (c : collector)
    : D (bool * collector) :=
  match u_AsCRD target with
  | inl err =>
      mret (false, addFinding (finding0 FindingDiscoveryFailure
                     ("decode CustomResourceDefinition target: " +:+ x_Text err)) c)
  | inr crd =>
      let c := analyzeGracePeriod request target c in
      let c := analyzeMetadataFinalizers request target true c in
      let maxInstances := MaxCRDInstances (set_Diagnosis (p_settings (req_Policy request))) in
      '(instancesComplete, c) ← enumerateCRDInstances fuel crd maxInstances c;
      let '(conversionComplete, c) := analyzeCRDConversion request crd c in
      let c := if instancesComplete && conversionComplete &&
                  bool_decide (CustomResourceCleanupFinalizer ∈ om_Finalizers (crd_Meta crd))
               then addAction (newAction (req_Policy request) ActionRemoveCRDFinalizer (req_Target request)
                      CustomResourceCleanupFinalizer (GetResourceVersion target)
                      "remove the CRD cleanup finalizer after complete instance and conversion evidence") c
               else c in
      mret (instancesComplete && conversionComplete, c)
  end.

Definition diagnoseGeneric (request : Request) (target : Unstructured) (c : collector) : collector :=
  analyzeMetadataFinalizers request target false (analyzeGracePeriod request target c).

(** ** Diagnose *)

Definition dGet (gvr : GroupVersionResource) (namespace name : string) : D (error + Unstructured) :=
  r ← call (DGet gvr namespace name);
  mret (match (r : ExternalError + Unstructured) with inl x => inl (ErrExternal x) | inr u => inr u end).

Fixpoint targetVersions (target : TargetReference) (groupResource : GroupResource) (versions : list Version)
    (last : option error) : D (option Unstructured * GroupVersionResource * option error) :=
  match versions with
  | [] => mret (None, WithVersion groupResource (tr_Version target), last)
  | version :: versions' =>
      let gvr := WithVersion groupResource (v_Version version) in
      res ← dGet gvr (tr_Namespace target) (tr_Name target);
      match res with
      | inr current => mret (Some current, gvr, None)
      | inl err =>
          if negb (IsNotFound err) && negb (IsGone err) then mret (None, gvr, Some err)
          else targetVersions target groupResource versions' (Some err)
      end
  end.

Definition getTarget (request : Request) : D (option Unstructured * GroupVersionResource * option error) :=
  let target := req_Target request in
  let groupResource := mkGR (tr_APIGroup target) (tr_Resource target) in
  match Resolve (sn_Catalog (req_Snapshot request)) groupResource with
  | None =>
      let gvr := WithVersion groupResource (tr_Version target) in
      res ← dGet gvr (tr_Namespace target) (tr_Name target);
      match res with
      | inr current => mret (Some current, gvr, None)
      | inl err => mret (None, gvr, Some err)
      end
  | Some resource => targetVersions target groupResource (OrderedVersions resource (tr_Version target)) None
  end.

(** The kind under which the target was read, from the catalog. *)
Definition pinVersion (request : Request) (gvr : GroupVersionResource) : Request :=
  let t := req_Target request in
  let kind :=
    match Resolve (sn_Catalog (req_Snapshot request)) (mkGR (tr_APIGroup t) (tr_Resource t)) with
    | None => tr_Kind t
    | Some resource =>
        match find (λ v, bool_decide (v_Version v = gvr_Version gvr)) (OrderedVersions resource (gvr_Version gvr)) with
        | Some v => v_Kind v
        | None => tr_Kind t
        end
    end in
  with_target request
    (mkTargetReference (tr_APIGroup t) (gvr_Version gvr) (tr_Resource t) kind (tr_Namespace t) (tr_Name t) (tr_UID t)).

(** The analysis of a target whose age passed the threshold. *)
Definition analyzeTarget (fuel : nat) (request : Request) (target : Unstructured) : D DiagnosisResult :=
  let policy := req_Policy request in
  let settings := p_settings policy in
  let c := newCollector (Some policy) in
  let c := if CheckAPIServices (set_Diagnosis settings) then analyzeAPIServices request c else c in
  let c := if CheckWebhooks (set_Diagnosis settings) then analyzeAdmissionWebhooks request target c else c in
  let groupResource := mkGR (tr_APIGroup (req_Target request)) (tr_Resource (req_Target request)) in
  '(complete, namespaceFinalizers, c) ←
    (if decide (groupResource = GVR_GroupResource namespaceResource)
     then diagnoseNamespace fuel request target c
     else if decide (groupResource = GVR_GroupResource crdResource)
     then '(complete, c) ← diagnoseCRD fuel request target c; mret (complete, [], c)
     else mret (true, [], diagnoseGeneric request target c));
  let '(findings, actions, evidenceOverflow) := collector_sorted c in
  let complete := if evidenceOverflow : bool then false else complete in
  mret (mkDiagnosisResult true true true complete
          (mkTargetSnapshot (GetResourceVersion target) (sortedCopy (GetFinalizers target)) namespaceFinalizers)
          findings (if negb complete then [] else actions)).

(** [Diagnose]; [reader] tells whether the engine has one.  The policy pointer of
    the request is checked here and not nil below. *)
Definition Diagnose (fuel : nat) (reader : bool) (target : TargetReference) (policy : option CompiledPolicy)
    (snapshot : DiagnosisSnapshot) (now : Time) : D (DiagnosisResult * option error) :=
  if negb reader then mret (zero_DiagnosisResult, Some (ErrNew "diagnosis reader is required"))
  else match policy with
  | None => mret (zero_DiagnosisResult, Some (ErrNew "compiled policy is required"))
  | Some p =>
    if negb (Ready policy) then mret (zero_DiagnosisResult, Some (ErrNew "compiled policy must be ready"))
    else if Time_IsZero now then mret (zero_DiagnosisResult, Some (ErrNew "diagnosis time is required"))
    else
      let request := mkRequest target p snapshot now in
      '(object, gvr, err) ← getTarget request;
      match err, object with
      | Some e, _ =>
          if unavailable e
          then mret (mkDiagnosisResult false false false true zero_TargetSnapshot [] [], None)
          else mret (zero_DiagnosisResult, Some (ErrWrap "get diagnosis target: " e))
      | None, None => dpanic
      | None, Some object =>
        let request := pinVersion request gvr in
        if negb (bool_decide (GetUID object = tr_UID (req_Target request)))
        then mret (mkDiagnosisResult true false false true zero_TargetSnapshot [] [], None)
        else
          let snapshot := mkTargetSnapshot (GetResourceVersion object) (sortedCopy (GetFinalizers object)) [] in
          match GetDeletionTimestamp object with
          | None => mret (mkDiagnosisResult true true false true snapshot [] [], None)
          | Some deletionTimestamp =>
            if Time_Before now (Time_Add deletionTimestamp (set_TerminationAge (p_settings p)))
            then mret (mkDiagnosisResult true true false true snapshot [] [], None)
            else result ← analyzeTarget fuel request object; mret (result, None)
          end
      end
  end.
End engine.
