(* ===== verification/DiagnosisSafety.v ===== *)
(** * Properties of the diagnosis engine

    What every run of [Diagnose] guarantees, whatever the API answers: actions are
    recommended only on complete evidence and each is justified by what was read;
    completeness means that every listing ran to its last page; and the engine
    terminates unless the server keeps handing out continue tokens. *)
From S2P Require Import Prelude GoText ApiTypes Schema Discovery Policy GoErrors Prog KubeTypes Collector Analyzers Diagnosis.

Local Open Scope prog_scope.

Abbreviation dhist := (list (event dresp)).
Definition dlisted (gvr : GroupVersionResource) (ns : string) (limit : Z) (continue : string)
    (l : MetadataList) : event dresp := evt (DList gvr ns limit continue) (inr l).

(** Some page of the listing had the item. *)
Definition Listed (h : dhist) (gvr : GroupVersionResource) (ns : string) (item : ObjectMeta) : Prop :=
  ∃ limit continue l, dlisted gvr ns limit continue l ∈ h ∧ item ∈ ml_Items l.

(** Following the continue tokens from [token], the listing reached its last page;
    [items] are the items of the pages on the way. *)
Inductive PagesFrom (h : dhist) (gvr : GroupVersionResource) (ns : string) : string → list ObjectMeta → Prop :=
  | pages_last limit token l :
      dlisted gvr ns limit token l ∈ h → ml_Continue l = "" → PagesFrom h gvr ns token (ml_Items l)
  | pages_more limit token l items :
      dlisted gvr ns limit token l ∈ h → ml_Continue l ≠ "" → PagesFrom h gvr ns (ml_Continue l) items →
      PagesFrom h gvr ns token (ml_Items l ++ items).

(** A listing from the beginning to the end. *)
Abbreviation Completed h gvr ns items := (PagesFrom h gvr ns "" items).

(** A page that asks for another one. *)
Definition nonfinal (x : event dresp) : bool :=
  match x with
  | existT e r =>
      match e return dresp e → bool with
      | DList _ _ _ _ => λ r, match r with inr l => negb (bool_decide (ml_Continue l = "")) | inl _ => false end
      | _ => λ _, false
      end r
  end.
Definition nonfinalPages (h : dhist) : nat := length (filter (λ x, nonfinal x = true) h).

(** The engine may give up only after [fuel] such pages, and never dereferences a
    nil pointer. *)
Definition dpermitted (fuel : nat) (h : dhist) (e : dev) : Prop :=
  match e with
  | DDiverge => fuel ≤ nonfinalPages h
  | DPanic => False
  | _ => True
  end.

Lemma Listed_mono h h' gvr ns item : extends h h' → Listed h gvr ns item → Listed h' gvr ns item.
Proof. intros He (a & b & l & Hin & Hi). exists a, b, l. split; [by eapply extends_elem|done]. Qed.
Lemma PagesFrom_mono h h' gvr ns token items :
  extends h h' → PagesFrom h gvr ns token items → PagesFrom h' gvr ns token items.
Proof.
  intros He. induction 1; [eapply pages_last|eapply pages_more]; try done; by eapply extends_elem.
Qed.
Lemma PagesFrom_listed h gvr ns token items item :
  PagesFrom h gvr ns token items → item ∈ items → Listed h gvr ns item.
Proof.
  induction 1 as [|limit token l items Hl Hc Hp IH]; [intros ?; by eexists _, _, _|].
  intros [Hi|Hi]%elem_of_app; [by eexists _, _, _|by apply IH].
Qed.

Section proofs.
Context `{SchemaOps, UnicodeTables, LabelOps, KubeNames, DiagnosisNames, ApiErrors}.
Context (fuel : nat).
Abbreviation J := (dpermitted fuel).
Abbreviation D := (prog dresp).

(** *** Listing *)

Lemma listPages_spec n gvr ns maximum items token h :
  fuel ≤ nonfinalPages h + n →
  spec J (listPages n gvr ns maximum items token) h (λ h' p, extends h h' ∧
    match p with
    | PagesDone items' truncated => ∃ more, items' = items ++ more ∧
        (∀ i, i ∈ more → Listed h' gvr ns i) ∧ (truncated = false → PagesFrom h' gvr ns token more)
    | _ => True
    end).
Proof.
  revert items token h. induction n as [|n IH]; intros items token h Hn; cbn [listPages]; cbv zeta;
    (case_bool_decide; [split; [ext_solve|]; exists []; rewrite app_nil_r; by split_and!; [|set_solver|]|]).
  - split; [simpl; lia|]. intros [].
  - apply spec_event; [done|]. intros [x|l].
    + destruct (unavailable (ErrExternal x)); apply spec_return; (split; [ext_solve|done]).
    + cbv zeta. destruct (decide (ml_Continue l = "")) as [Ec|Ec].
      * apply spec_return. split; [ext_solve|]. exists (ml_Items l). split; [done|].
        assert (Hp : PagesFrom (evt (DList gvr ns (Z.min metadataPageSize (maximum - Z.of_nat (length items))) token)
          (inr l : dresp (DList _ _ _ _)) :: h) gvr ns token (ml_Items l)) by (eapply pages_last; [by left|done]).
        split; [|done]. intros i. by apply PagesFrom_listed with token.
      * eapply spec_mono; [apply IH|].
        { unfold nonfinalPages. rewrite filter_cons_True; [simpl; unfold nonfinalPages in Hn; lia|].
          simpl. by rewrite bool_decide_eq_false_2. }
        intros h' p [He Hp]. split; [ext_solve|]. destruct p as [items' tr| |]; [|done|done].
        destruct Hp as (more & -> & Hi & Hc). exists (ml_Items l ++ more). rewrite app_assoc. split; [done|].
        assert (Hin : evt (DList gvr ns (Z.min metadataPageSize (maximum - Z.of_nat (length items))) token)
          (inr l : dresp (DList _ _ _ _)) ∈ h') by (eapply extends_elem; [exact He|by left]).
        split; [|intros Et; eapply pages_more; [exact Hin|done|by apply Hc]].
        intros i [Hl|Hl]%elem_of_app; [by eexists _, _, l|by apply Hi].
Qed.

(** What listing one resource gives: on success, items that were listed under the
    returned version, which is one of those tried, and a listing from beginning to
    end unless truncated. *)
Lemma listVersions_spec resource ns maximum versions last h :
  (versions ≠ [] ∨ last ≠ None) →
  spec J (listVersions fuel resource ns maximum versions last) h (λ h' '(items, version, truncated, err),
    extends h h' ∧
    (err = None → version ∈ versions ∧
       let gvr := WithVersion (r_GroupResource resource) (v_Version version) in
       (truncated = false → Completed h' gvr ns items) ∧ ∀ i, i ∈ items → Listed h' gvr ns i)).
Proof.
  revert last h. induction versions as [|v versions IH]; intros last h Hne; cbn [listVersions].
  { apply spec_return. split; [ext_solve|]. intros ->. naive_solver. }
  eapply spec_call; [apply listPages_spec; lia|]. cbv beta. intros h1 [items tr|err|err] [He Hp].
  - apply spec_return. split; [done|]. intros _. destruct Hp as (more & -> & Hi & Hc). split; [by left|]. done.
  - eapply spec_mono; [apply IH; by right|]. intros h2 [[[items v'] tr] e] [He2 Hq]. split; [ext_solve|].
    intros E. destruct (Hq E) as (? & ?). split; [by right|done].
  - apply spec_return. split; [done|]. done.
Qed.

(** *** Namespace enumeration *)

Definition resourceGVR (resource : Resource) (version : Version) : GroupVersionResource :=
  WithVersion (r_GroupResource resource) (v_Version version).

(** The resource was listed from beginning to end in one of its versions, and [K]
    has every listed object and an action for each of its finalizers. *)
Definition ResourceCovered (h : dhist) (request : Request) (K : evidence → Prop) (resource : Resource) : Prop :=
  ∃ version items,
    version ∈ OrderedVersions resource (v_Version (r_PreferredVersion resource)) ∧
    Completed h (resourceGVR resource version) (tr_Name (req_Target request)) items ∧
    ∀ item, item ∈ items →
      K (EvFinding (remainingFinding resource version item)) ∧
      ∀ finalizer, finalizer ∈ om_Finalizers item →
        K (EvAction (remainingAction request resource version item finalizer)).

Definition namespaced (resource : Resource) : Prop := v_Namespaced (r_PreferredVersion resource) = true.

(** An action that removes a finalizer of an object listed in the namespace. *)
Definition RemainingAction (h : dhist) (request : Request) (resources : list Resource) (a : RemediationAction)
    : Prop :=
  ∃ resource version item finalizer,
    resource ∈ resources ∧ namespaced resource ∧
    Listed h (resourceGVR resource version) (tr_Name (req_Target request)) item ∧
    finalizer ∈ om_Finalizers item ∧
    a = remainingAction request resource version item finalizer.

Definition remainingEvidence (h : dhist) (request : Request) (resources : list Resource) (e : evidence) : Prop :=
  match e with EvFinding f => offerable f = true | EvAction a => RemainingAction h request resources a end.

Lemma ResourceCovered_mono h h' request (K K' : evidence → Prop) resource :
  extends h h' → (∀ e, K e → K' e) → ResourceCovered h request K resource → ResourceCovered h' request K' resource.
Proof.
  intros He HK (version & items & Hv & Hp & Hi). exists version, items.
  split_and!; [done|by eapply PagesFrom_mono|]. intros item Hin. destruct (Hi item Hin). split; eauto.
Qed.

Lemma remainingEvidence_weaken h request r resources e :
  remainingEvidence h request resources e → remainingEvidence h request (r :: resources) e.
Proof.
  destruct e as [f|a]; [done|]. intros (r' & v & i & f & Hr & Hrest). exists r', v, i, f. split; [by right|done].
Qed.

Lemma remainingObject_gathers h request resources resource version c item :
  resource ∈ resources → namespaced resource →
  Listed h (resourceGVR resource version) (tr_Name (req_Target request)) item →
  gathers (remainingEvidence h request resources) c (remainingObject request resource version c item).
Proof.
  intros Hr Hn Hl. unfold remainingObject. cbv zeta.
  etrans; last apply gathers_foldl.
  - destruct (CheckWebhooks _); [|apply gathers_finding; [done|reflexivity]].
    etrans; last (by apply gathers_analyzeAdmissionWebhooks).
    apply gathers_finding; [done|reflexivity].
  - intros c' f Hf. unfold sortedCopy, sort_strings in Hf. rewrite elem_of_sort_by in Hf.
    apply gathers_action; [|apply gathers_analyzeFinalizerOwner; [done|apply gathers_finding; [done|reflexivity]]].
    by exists resource, version, item, f.
Qed.

Lemma remainingObject_collects request resource version c item :
  collects c (remainingObject request resource version c item).
Proof.
  unfold remainingObject. cbv zeta. etrans; last apply gathers_foldl.
  - destruct (CheckWebhooks _); [|apply gathers_finding; [done|reflexivity]].
    etrans; last (by apply gathers_analyzeAdmissionWebhooks). apply gathers_finding; [done|reflexivity].
  - intros c' f Hf. apply gathers_action; [done|]. apply gathers_analyzeFinalizerOwner; auto with evidence.
Qed.

Lemma remainingObject_covers request resource version c item :
  CollectorOk c →
  covers (remainingObject request resource version c item) (EvFinding (remainingFinding resource version item)) ∧
  ∀ f, f ∈ om_Finalizers item →
    covers (remainingObject request resource version c item)
      (EvAction (remainingAction request resource version item f)).
Proof.
  intros Hok. unfold remainingObject. cbv zeta.
  set (c1 := addFinding _ c). assert (Hok1 : CollectorOk c1) by (by apply addFinding_ok).
  set (c2 := if CheckWebhooks _ then _ else c1).
  assert (Hg : collects c1 c2) by (unfold c2; destruct (CheckWebhooks _); [by apply gathers_analyzeAdmissionWebhooks|done]).
  assert (Hok2 : CollectorOk c2) by (by eapply gathers_ok).
  set (body := λ c finalizer, _).
  assert (Hbody : ∀ c f, collects c (addFinding (mkFinding "" FindingBlockingFinalizer
      ("remaining object has metadata finalizer " +:+ fmt_q f)
      (Some (metadataReference (selectedResource resource version) item)) f "" "" None None false) c))
    by (intros; apply gathers_finding; [done|reflexivity]).
  assert (Hloop : ∀ c f, f ∈ sortedCopy (om_Finalizers item) → collects c (body c f)).
  { intros c' f _. apply gathers_action; [done|]. by apply gathers_analyzeFinalizerOwner. }
  split.
  - eapply covers_gathers; [exact Hok2|by apply gathers_foldl|].
    eapply covers_gathers; [exact Hok1|exact Hg|]. by apply covers_finding.
  - intros f Hf. eapply covers_foldl; [done|done|unfold sortedCopy, sort_strings; by rewrite elem_of_sort_by|].
    intros c' Hc'. apply covers_action. eapply (gathers_ok (λ _, True)); [exact Hc'|]. by apply gathers_analyzeFinalizerOwner.
Qed.

(** Enumerating the catalog: evidence is of listed objects, and a complete
    enumeration covers every namespaced resource. *)
Lemma enumerateResources_spec request maxObjects resources observed complete c h :
  CollectorOk c →
  spec J (enumerateResources fuel request maxObjects resources observed complete c) h
    (λ h' '(complete', c'), extends h h' ∧ gathers (remainingEvidence h' request resources) c c' ∧
       (complete' = true → complete = true ∧
          ∀ r, r ∈ resources → namespaced r → ResourceCovered h' request (covers c') r)).
Proof.
  revert observed complete c h.
  induction resources as [|r resources IH]; intros observed complete c h Hok; cbn [enumerateResources].
  { apply spec_return. split; [ext_solve|]. split; [reflexivity|]. intros ->. split; [done|].
    intros r Hr. by apply elem_of_nil in Hr. }
  pose proof (λ h e, remainingEvidence_weaken h request r resources e) as Hweak.
  destruct (v_Namespaced (r_PreferredVersion r)) eqn:Ens; simpl negb; cbv iota.
  2: { eapply spec_mono; [by apply IH|]. intros h' [complete' c'] (He & Hg & Hc).
       split_and!; [done|eapply gathers_mono; [apply Hweak|exact Hg]|]. intros Et. destruct (Hc Et) as [-> Hr]. split; [done|].
       intros r' [->|Hin]%elem_of_cons Hn; [by unfold namespaced in Hn; rewrite Ens in Hn|by apply Hr]. }
  case_bool_decide.
  { apply spec_return. split_and!; [ext_solve|apply gathers_finding; [done|reflexivity]|done]. }
  unfold listNamespaceResource. eapply spec_call; [apply listVersions_spec; left; apply OrderedVersions_nonempty|].
  cbv beta. intros h1 [[[items version] truncated] [e|]] [He Hl].
  { eapply spec_mono; [by apply IH, addFinding_ok|]. intros h' [complete' c'] (He' & Hg & Hc). split_and!; [ext_solve| |].
    - etrans; [|eapply gathers_mono; [apply Hweak|exact Hg]]. apply gathers_finding; [done|reflexivity].
    - intros Et. by destruct (Hc Et). }
  destruct (Hl eq_refl) as (Hv & Hcomp & Hitems).
  set (c1 := foldl (remainingObject request r version) c items).
  assert (Hgather : ∀ h', extends h1 h' → gathers (remainingEvidence h' request (r :: resources)) c c1).
  { intros h' Hext. apply gathers_foldl. intros c' i Hi. apply remainingObject_gathers; [by left|done|].
    eapply Listed_mono; [exact Hext|by apply Hitems]. }
  cbv zeta. destruct (truncated || _) eqn:Etr.
  { apply spec_return. split_and!; [done| |done]. apply gathers_finding; [done|]. by apply Hgather. }
  bool_prop. assert (Hok1 : CollectorOk c1) by (by eapply gathers_ok, (Hgather h1)).
  eapply spec_mono; [by apply IH|]. intros h' [complete' c'] (He' & Hg & Hc).
  split_and!; [ext_solve| |].
  - etrans; [by apply Hgather|]. eapply gathers_mono; [apply Hweak|exact Hg].
  - intros Et. destruct (Hc Et) as [-> Hr]. split; [done|]. intros r' [->|Hin]%elem_of_cons Hn; [|by apply Hr].
    exists version, items. split_and!; [done|eapply PagesFrom_mono; [exact He'|by apply Hcomp]|]. intros item Hi.
    assert (Hcov : ∀ e, (∀ c, CollectorOk c → covers (remainingObject request r version c item) e) → covers c' e).
    { intros e Hitem. eapply covers_gathers; [exact Hok1|exact Hg|]. eapply covers_foldl; [|done|exact Hi|exact Hitem].
      intros; apply remainingObject_collects. }
    split; [apply Hcov; intros; by apply remainingObject_covers|].
    intros f Hf. apply Hcov. intros c0 Hc0. by apply (remainingObject_covers request r version c0 item Hc0).
Qed.

(** *** CRD instances *)

Definition crdGVR (crd : CustomResourceDefinition) (version : string) : GroupVersionResource :=
  mkGVR (crd_Group crd) version (crd_Plural crd).

(** [K] has a remaining-resource finding for the object with this UID. *)
Definition UIDReported (K : evidence → Prop) (uid : UID) : Prop :=
  ∃ f, f_Type f = FindingRemainingResource ∧ tr_UID <$> f_ResourceRef f = Some uid ∧ K (EvFinding f).

Lemma UIDReported_mono (K K' : evidence → Prop) uid : (∀ e, K e → K' e) → UIDReported K uid → UIDReported K' uid.
Proof. intros HK (f & ? & ? & ?). exists f. eauto. Qed.

(** The invariant of the instance loop. *)
Record crdOk (maxInstances : Z) (s : crdState) : Prop := {
  crd_collector : CollectorOk (cs_collector s);
  crd_seen : (Z.of_nat (size (cs_seen s)) ≤ cs_retained s)%Z;
  crd_bound : (cs_retained s ≤ Z.max 0 maxInstances)%Z;
  crd_reported uid : uid ∈ cs_seen s → UIDReported (covers (cs_collector s)) uid
}.

Definition onlyFindings (e : evidence) : Prop := ∃ f, e = EvFinding f ∧ offerable f = true.

(** What the items of a page do to the state. *)
Definition crdStep (items : list ObjectMeta) (s s' : crdState) : Prop :=
  gathers onlyFindings (cs_collector s) (cs_collector s') ∧ cs_seen s ⊆ cs_seen s' ∧
  (cs_complete s' = true → cs_complete s = true ∧
     ∀ item, item ∈ items → om_UID item ≠ "" ∧ om_UID item ∈ cs_seen s').

Lemma crdStep_app items items' s s1 s' :
  crdStep items s s1 → crdStep items' s1 s' → crdStep (items ++ items') s s'.
Proof.
  intros (Hg & Hs & Hc) (Hg' & Hs' & Hc'). split_and!; [by etrans|set_solver|].
  intros E. destruct (Hc' E) as [E' Hi]. destruct (Hc E') as [E'' Hi']. split; [done|].
  intros i [Hin|?]%elem_of_app; [|by apply Hi]. destruct (Hi' i Hin) as [? ?]. set_solver.
Qed.

Lemma crdReported_add s f (uids : gset string) :
  CollectorOk (cs_collector s) → (∀ uid, uid ∈ uids → UIDReported (covers (cs_collector s)) uid) →
  ∀ uid, uid ∈ uids → UIDReported (covers (addFinding f (cs_collector s))) uid.
Proof.
  intros Hok Hr uid Hu. eapply UIDReported_mono; [|by apply Hr]. intros e.
  eapply (covers_gathers (λ _, True)); [done|]. apply gathers_finding; [done|reflexivity].
Qed.

Lemma crdItems_spec crd version maxInstances items s :
  crdOk maxInstances s →
  match crdItems crd version maxInstances items s with
  | inl c => gathers onlyFindings (cs_collector s) c
  | inr s' => crdOk maxInstances s' ∧ crdStep items s s'
  end.
Proof.
  revert s. induction items as [|item items IH]; intros s Hok; cbn [crdItems].
  { split; [done|]. split_and!; [reflexivity|done|]. intros ->. split; [done|]. intros i Hi. by apply elem_of_nil in Hi. }
  cbv zeta.
  assert (Hstep : ∀ s1, crdOk maxInstances s1 → crdStep [item] s s1 →
    match crdItems crd version maxInstances items s1 with
    | inl c => gathers onlyFindings (cs_collector s) c
    | inr s' => crdOk maxInstances s' ∧ crdStep (item :: items) s s'
    end).
  { intros s1 Hok1 Hs1. specialize (IH s1 Hok1). destruct (crdItems _ _ _ _ s1) as [c|s'].
    - etrans; [apply Hs1|exact IH].
    - destruct IH as [? ?]. split; [done|]. by eapply (crdStep_app [item]). }
  destruct (bool_decide (om_UID item ≠ "") && _) eqn:Eseen.
  { bool_prop. apply Hstep; [done|]. split_and!; [reflexivity|done|]. intros ->. split; [done|].
    intros i ->%list_elem_of_singleton. done. }
  clear Eseen. destruct (bool_decide (maxInstances ≤ cs_retained s)%Z) eqn:Em; bool_prop; [apply gathers_finding; [by eexists|reflexivity]|].
  destruct Hok as [Hc Hs Hb Hr].
  destruct (bool_decide (om_UID item = "")) eqn:Eu; bool_prop; apply Hstep; try (split; simpl; [by apply addFinding_ok|..]).
  - lia.
  - lia.
  - by apply crdReported_add.
  - split_and!; [apply gathers_finding; [by eexists|reflexivity]|done|done].
  - rewrite size_union_alt, size_singleton. assert (size (cs_seen s ∖ {[om_UID item]}) ≤ size (cs_seen s)) by (apply subseteq_size; set_solver). lia.
  - lia.
  - intros uid [->%elem_of_singleton|Hu]%elem_of_union; [|by eapply crdReported_add].
    eexists. split; [|split; [|by apply covers_finding]]; done.
  - split_and!; simpl; [apply gathers_finding; [by eexists|reflexivity]|set_solver|]. intros ->. split; [done|].
    intros i ->%list_elem_of_singleton. split; [done|set_solver].
Qed.

Lemma crdPages_spec n crd version maxInstances token s h :
  fuel ≤ nonfinalPages h + n → crdOk maxInstances s →
  spec J (crdPages n crd version maxInstances token s) h (λ h' r, extends h h' ∧
    match r with
    | inl c => gathers onlyFindings (cs_collector s) c
    | inr s' => crdOk maxInstances s' ∧ ∃ items, crdStep items s s' ∧
        (cs_complete s' = true → PagesFrom h' (crdGVR crd version) "" token items)
    end).
Proof.
  revert token s h. induction n as [|n IH]; intros token s h Hn Hok; cbn [crdPages].
  { split; [simpl; lia|]. intros []. }
  apply spec_event; [done|]. intros [x|l].
  { apply spec_return. split; [ext_solve|]. destruct Hok as [Hc Hs Hb Hr]. split.
    - split; simpl; [by apply addFinding_ok|done|done|by apply crdReported_add].
    - exists []. split; [|done]. split_and!; simpl; [apply gathers_finding; [by eexists|reflexivity]|done|done]. }
  pose proof (crdItems_spec crd version maxInstances (ml_Items l) s Hok) as Hi.
  destruct (crdItems _ _ _ _ s) as [c|s1]; [apply spec_return; split; [ext_solve|done]|].
  destruct Hi as [Hok1 Hstep]. destruct (decide (ml_Continue l = "")) as [Ec|Ec].
  - apply spec_return. split; [ext_solve|]. split; [done|]. exists (ml_Items l). split; [done|].
    intros _. eapply pages_last; [by left|done].
  - eapply spec_mono; [apply IH; [|done]|].
    { unfold nonfinalPages. rewrite filter_cons_True; [simpl; unfold nonfinalPages in Hn; lia|].
      simpl. by rewrite bool_decide_eq_false_2. }
    intros h' [c|s'] [He Hp]; (split; [ext_solve|]).
    + etrans; [apply Hstep|done].
    + destruct Hp as (Hok' & items & Hstep' & Hpages). split; [done|]. exists (ml_Items l ++ items).
      split; [by eapply crdStep_app|]. intros Et.
      eapply pages_more; [eapply extends_elem; [exact He|by left]|done|by apply Hpages].
Qed.

(** Every served version was listed from beginning to end, every instance has a
    UID, and [K] has a finding for each of the (boundedly many) UIDs. *)
Definition InstancesEnumerated (h : dhist) (crd : CustomResourceDefinition) (maxInstances : Z)
    (K : evidence → Prop) : Prop :=
  ∃ uids : gset UID, (Z.of_nat (size uids) ≤ Z.max 0 maxInstances)%Z ∧ (∀ uid, uid ∈ uids → UIDReported K uid) ∧
    ∀ version, version ∈ servedCRDVersions crd →
      ∃ items, Completed h (crdGVR crd version) "" items ∧
        ∀ item, item ∈ items → om_UID item ≠ "" ∧ om_UID item ∈ uids.

Lemma crdVersions_spec crd maxInstances versions s h :
  crdOk maxInstances s →
  spec J (crdVersions fuel crd maxInstances versions s) h (λ h' '(complete, c'), extends h h' ∧
    gathers onlyFindings (cs_collector s) c' ∧
    (complete = true → ∃ s', cs_collector s' = c' ∧ crdOk maxInstances s' ∧ cs_seen s ⊆ cs_seen s' ∧
       cs_complete s = true ∧ ∀ version, version ∈ versions →
         ∃ items, Completed h' (crdGVR crd version) "" items ∧
           ∀ item, item ∈ items → om_UID item ≠ "" ∧ om_UID item ∈ cs_seen s')).
Proof.
  revert s h. induction versions as [|v versions IH]; intros s h Hok; cbn [crdVersions].
  { apply spec_return. split_and!; [ext_solve|reflexivity|]. intros E. exists s. split_and!; try done.
    intros v Hv. by apply elem_of_nil in Hv. }
  eapply spec_call; [apply crdPages_spec; [lia|done]|]. cbv beta. intros h1 [c|s1] [He Hp].
  { apply spec_return. done. }
  destruct Hp as (Hok1 & items & (Hg & Hs & Hc) & Hpages).
  eapply spec_mono; [by apply IH|]. intros h' [complete c'] (He' & Hg' & Hc').
  split_and!; [ext_solve|by etrans|]. intros Et.
  destruct (Hc' Et) as (s' & <- & Hok' & Hs' & E1 & Hv). destruct (Hc E1) as [E0 Hi].
  exists s'. split_and!; [done|done|set_solver|done|]. intros v' [->|Hin]%elem_of_cons; [|by apply Hv].
  exists items. split; [eapply PagesFrom_mono; [exact He'|by apply Hpages]|].
  intros item Hit. destruct (Hi item Hit). split; [done|set_solver].
Qed.

Lemma enumerateCRDInstances_spec crd maxInstances c h :
  CollectorOk c →
  spec J (enumerateCRDInstances fuel crd maxInstances c) h (λ h' '(complete, c'), extends h h' ∧
    gathers onlyFindings c c' ∧ (complete = true → InstancesEnumerated h' crd maxInstances (covers c'))).
Proof.
  intros Hok. eapply spec_mono; [apply crdVersions_spec|].
  { split; cbn [cs_collector cs_seen cs_retained]; [done|rewrite size_empty; lia|lia|set_solver]. }
  intros h' [complete c'] (He & Hg & Hc). split_and!; [done|done|]. intros Et.
  destruct (Hc Et) as (s' & <- & Hok' & _ & _ & Hv). exists (cs_seen s').
  split_and!; [pose proof (crd_seen _ _ Hok'); pose proof (crd_bound _ _ Hok'); lia|apply (crd_reported _ _ Hok')|done].
Qed.

(** *** Analysis of a target *)

Definition targetGroupResource (request : Request) : GroupResource :=
  mkGR (tr_APIGroup (req_Target request)) (tr_Resource (req_Target request)).
Definition isNamespace (request : Request) : Prop := targetGroupResource request = GVR_GroupResource namespaceResource.
Definition isCRD (request : Request) : Prop := targetGroupResource request = GVR_GroupResource crdResource.
Abbreviation diagnosisSettings request := (set_Diagnosis (p_settings (req_Policy request))).
Abbreviation catalogResources request := (Snapshot_Resources (sn_Catalog (req_Snapshot request))).

(** Every namespaced resource of the catalog was listed and is covered by [K]. *)
Definition NamespaceEnumerated (h : dhist) (request : Request) (K : evidence → Prop) : Prop :=
  ∀ r, r ∈ catalogResources request → namespaced r → ResourceCovered h request K r.

(** The action that removes a metadata finalizer of the target; [K] has one for
    each of them (on a CRD, the cleanup finalizer is not one of them). *)
Definition metadataAction (request : Request) (target : Unstructured) (finalizer : string) : RemediationAction :=
  newAction (req_Policy request) ActionRemoveResourceFinalizer (req_Target request) finalizer
    (GetResourceVersion target) ("remove blocking metadata finalizer " +:+ fmt_q finalizer).
Definition MetadataCovered (request : Request) (target : Unstructured) (K : evidence → Prop) : Prop :=
  ∀ f, f ∈ GetFinalizers target → (isCRD request → f ≠ CustomResourceCleanupFinalizer) →
    K (EvAction (metadataAction request target f)).

(** What justifies recommending an action on the target as it was read. *)
Inductive Justified (h : dhist) (request : Request) (target : Unstructured) : RemediationAction → Prop :=
  | just_metadata finalizer :
      finalizer ∈ GetFinalizers target → (isCRD request → finalizer ≠ CustomResourceCleanupFinalizer) →
      Justified h request target (metadataAction request target finalizer)
  | just_remaining a :
      isNamespace request → RemainingAction h request (catalogResources request) a → Justified h request target a
  | just_finalize namespace :
      isNamespace request → u_AsNamespace target = inr namespace → ns_SpecFinalizers namespace ≠ [] →
      NamespaceEnumerated h request (λ _, True) →
      Justified h request target
        (newAction (req_Policy request) ActionForceFinalizeNamespace (req_Target request) ""
           (GetResourceVersion target) "clear Namespace spec.finalizers after reviewing remaining content")
  | just_crd crd :
      isCRD request → u_AsCRD target = inr crd → CustomResourceCleanupFinalizer ∈ om_Finalizers (crd_Meta crd) →
      InstancesEnumerated h crd (MaxCRDInstances (diagnosisSettings request)) (λ e, True) →
      (∀ c, fst (analyzeCRDConversion request crd c) = true) →
      Justified h request target
        (newAction (req_Policy request) ActionRemoveCRDFinalizer (req_Target request) CustomResourceCleanupFinalizer
           (GetResourceVersion target) "remove the CRD cleanup finalizer after complete instance and conversion evidence").

Definition justifiedEvidence (h : dhist) (request : Request) (target : Unstructured) (e : evidence) : Prop :=
  match e with EvFinding f => offerable f = true | EvAction a => Justified h request target a end.

Lemma analyzeCRDConversion_independent request crd c c' :
  fst (analyzeCRDConversion request crd c) = fst (analyzeCRDConversion request crd c').
Proof. unfold analyzeCRDConversion. cbv zeta. repeat case_match; done. Qed.

Lemma InstancesEnumerated_mono h crd maxInstances (K K' : evidence → Prop) :
  (∀ e, K e → K' e) → InstancesEnumerated h crd maxInstances K → InstancesEnumerated h crd maxInstances K'.
Proof.
  intros HK (uids & Hs & Hr & Hv). exists uids. split_and!; [done| |done]. intros uid Hu.
  eapply UIDReported_mono; [exact HK|by apply Hr].
Qed.

Lemma NamespaceEnumerated_mono h request (K K' : evidence → Prop) :
  (∀ e, K e → K' e) → NamespaceEnumerated h request K → NamespaceEnumerated h request K'.
Proof. intros HK Hn r Hr Hns. eapply ResourceCovered_mono; [reflexivity|exact HK|by apply Hn]. Qed.

Lemma analyzeMetadataFinalizers_covers request target crd c f :
  CollectorOk c → f ∈ GetFinalizers target → crd && bool_decide (f = CustomResourceCleanupFinalizer) = false →
  covers (analyzeMetadataFinalizers request target crd c) (EvAction (metadataAction request target f)).
Proof.
  intros Hok Hf Hn. unfold analyzeMetadataFinalizers.
  eapply covers_foldl; [|done|unfold sortedCopy, sort_strings; by rewrite elem_of_sort_by|].
  - intros c' f' _. cbv zeta. destruct (crd && bool_decide (f' = _)); [|apply gathers_action; [done|]];
      (apply gathers_analyzeFinalizerOwner; [done|]; apply gathers_finding; [done|reflexivity]).
  - intros c' Hc'. cbv zeta. rewrite Hn. apply covers_action. eapply (gathers_ok (λ _, True)); [exact Hc'|].
    apply gathers_analyzeFinalizerOwner; [done|]. apply gathers_finding; [done|reflexivity].
Qed.

Lemma MetadataCovered_mono request target (K K' : evidence → Prop) :
  (∀ e, K e → K' e) → MetadataCovered request target K → MetadataCovered request target K'.
Proof. intros HK Hm f Hf Hn. by apply HK, Hm. Qed.

Lemma diagnoseNamespace_spec request target c h :
  CollectorOk c → isNamespace request →
  spec J (diagnoseNamespace fuel request target c) h (λ h' '(complete, fs, c'), extends h h' ∧
    (fs = [] ∨ ∃ namespace, u_AsNamespace target = inr namespace ∧ fs = sort_strings (ns_SpecFinalizers namespace)) ∧
    gathers (justifiedEvidence h' request target) c c' ∧
    (complete = true → (∃ namespace, u_AsNamespace target = inr namespace) ∧
       NamespaceEnumerated h' request (covers c') ∧ MetadataCovered request target (covers c'))).
Proof.
  intros Hok Hns. unfold diagnoseNamespace. destruct (u_AsNamespace target) as [err|namespace] eqn:Ens.
  { apply spec_return. split_and!; [ext_solve|by left|apply gathers_finding; [done|reflexivity]|done]. }
  cbv zeta. set (c0 := analyzeGracePeriod request target c).
  assert (Hok0 : CollectorOk c0) by (eapply (gathers_ok (λ _, True)); [exact Hok|by apply gathers_analyzeGracePeriod]).
  set (c1 := analyzeNamespaceConditions _ _ _).
  assert (Hg1 : ∀ h', gathers (justifiedEvidence h' request target) c c1).
  { intros h'. etrans; [|by apply gathers_analyzeNamespaceConditions].
    etrans; [by apply gathers_analyzeGracePeriod|]. apply gathers_analyzeMetadataFinalizers; [done|].
    intros f Hf _. apply just_metadata; [done|]. intros Hcrd. unfold isCRD, isNamespace in *. by rewrite Hns in Hcrd. }
  assert (Hok1 : CollectorOk c1) by (by eapply gathers_ok, (Hg1 h)).
  assert (Hm1 : MetadataCovered request target (covers c1)).
  { intros f Hf _. eapply (covers_gathers (λ _, True) (analyzeMetadataFinalizers request target false c0)); [..|by apply analyzeMetadataFinalizers_covers].
    - eapply (gathers_ok (λ _, True)); [exact Hok0|]. by apply gathers_analyzeMetadataFinalizers.
    - by apply (gathers_analyzeNamespaceConditions (λ _, True)). }
  eapply spec_call; [by apply enumerateResources_spec|]. cbv beta. intros h1 [complete c2] (He & Hg2 & Hc).
  apply spec_return.
  assert (Hm2 : MetadataCovered request target (covers c2)).
  { eapply MetadataCovered_mono; [|exact Hm1]. intros e. by eapply covers_gathers. }
  assert (Hj : gathers (justifiedEvidence h1 request target) c c2).
  { etrans; [by apply Hg1|]. eapply gathers_mono; [|exact Hg2]. intros [f|a]; [done|]. by apply just_remaining. }
  assert (Hok2 : CollectorOk c2) by (by eapply gathers_ok).
  destruct (complete && _) eqn:Eadd.
  - bool_prop. subst complete. destruct (Hc eq_refl) as [_ Hall]. split_and!; [done|right; by exists namespace| |].
    + apply gathers_action; [|done]. apply just_finalize with namespace; try done.
      by eapply NamespaceEnumerated_mono; [|exact Hall].
    + intros _. split; [by exists namespace|]. set (c3 := addAction _ c2).
      assert (Hcov : ∀ e, covers c2 e → covers c3 e).
      { intros e. eapply (covers_gathers (λ _, True)); [done|]. apply gathers_action; [done|reflexivity]. }
      split; [by eapply NamespaceEnumerated_mono|by eapply MetadataCovered_mono].
  - split_and!; [done|right; by exists namespace|done|]. intros ->. split; [by exists namespace|]. by destruct (Hc eq_refl).
Qed.

Lemma diagnoseCRD_spec request target c h :
  CollectorOk c → isCRD request →
  spec J (diagnoseCRD fuel request target c) h (λ h' '(complete, c'), extends h h' ∧
    gathers (justifiedEvidence h' request target) c c' ∧
    (complete = true → ∃ crd, u_AsCRD target = inr crd ∧
       InstancesEnumerated h' crd (MaxCRDInstances (diagnosisSettings request)) (covers c') ∧
       MetadataCovered request target (covers c'))).
Proof.
  intros Hok Hcrd. unfold diagnoseCRD. destruct (u_AsCRD target) as [err|crd] eqn:Ecrd.
  { apply spec_return. split_and!; [ext_solve|apply gathers_finding; [done|reflexivity]|done]. }
  cbv zeta. set (c0 := analyzeGracePeriod request target c).
  assert (Hok0 : CollectorOk c0) by (eapply (gathers_ok (λ _, True)); [exact Hok|by apply gathers_analyzeGracePeriod]).
  set (c1 := analyzeMetadataFinalizers _ _ _ _).
  assert (Hg1 : ∀ h', gathers (justifiedEvidence h' request target) c c1).
  { intros h'. etrans; [by apply gathers_analyzeGracePeriod|]. apply gathers_analyzeMetadataFinalizers; [done|].
    intros f Hf Hn. apply just_metadata; [done|]. intros _ ->. simpl in Hn. by rewrite bool_decide_eq_true_2 in Hn. }
  assert (Hok1 : CollectorOk c1) by (by eapply gathers_ok, (Hg1 h)).
  eapply spec_call; [by apply enumerateCRDInstances_spec|]. cbv beta. intros h1 [instances c2] (He & Hg2 & Hc).
  assert (Hj : gathers (justifiedEvidence h1 request target) c c2).
  { etrans; [by apply Hg1|]. eapply gathers_mono; [|exact Hg2]. by intros e (f & -> & Hf). }
  assert (Hok2 : CollectorOk c2) by (by eapply gathers_ok).
  pose proof (gathers_analyzeCRDConversion (justifiedEvidence h1 request target) (λ f Hf, Hf) request crd c2) as Hg3.
  pose proof (analyzeCRDConversion_independent request crd c2) as Hind.
  destruct (analyzeCRDConversion request crd c2) as [conversion c3]. simpl in Hg3, Hind.
  apply spec_return. destruct (instances && conversion) eqn:Eboth.
  2: { split_and!; [done|by etrans|done]. }
  bool_prop. subst instances conversion. simpl. specialize (Hc eq_refl).
  assert (Hok3 : CollectorOk c3) by (by eapply gathers_ok).
  assert (Henum : ∀ c4, gathers (justifiedEvidence h1 request target) c3 c4 →
    InstancesEnumerated h1 crd (MaxCRDInstances (diagnosisSettings request)) (covers c4) ∧
    MetadataCovered request target (covers c4)).
  { intros c4 Hg4. assert (Hcov : ∀ e, covers c2 e → covers c4 e).
    { intros e He'. eapply covers_gathers; [exact Hok3|exact Hg4|].
      eapply covers_gathers; [exact Hok2|exact Hg3|exact He']. }
    split; [by eapply InstancesEnumerated_mono|]. intros f Hf Hn. apply Hcov.
    eapply covers_gathers; [exact Hok1|exact Hg2|]. apply analyzeMetadataFinalizers_covers; [done|done|].
    simpl. by apply bool_decide_eq_false_2, Hn. }
  case_bool_decide as Efin.
  - assert (Hact : justifiedEvidence h1 request target (EvAction (newAction (req_Policy request)
      ActionRemoveCRDFinalizer (req_Target request) CustomResourceCleanupFinalizer (GetResourceVersion target)
      "remove the CRD cleanup finalizer after complete instance and conversion evidence"))).
    { apply just_crd with crd; [done|done|done|by eapply InstancesEnumerated_mono; [|exact Hc]|].
      intros c'. by rewrite <-Hind. }
    split_and!; [done|apply gathers_action; [done|by etrans]|].
    intros _. exists crd. split; [done|]. apply Henum. apply gathers_action; [done|reflexivity].
  - split_and!; [done|by etrans|]. intros _. exists crd. split; [done|]. by apply Henum.
Qed.

(** The result shows this evidence. *)
Abbreviation Reported res := (shown (res_Findings res) (res_Actions res)).

(** What the evidence of a complete diagnosis covers. *)
Record Thorough (h : dhist) (request : Request) (target : Unstructured) (res : DiagnosisResult) : Prop := {
  thorough_metadata : MetadataCovered request target (Reported res);
  thorough_namespace : isNamespace request → NamespaceEnumerated h request (Reported res);
  thorough_crd : isCRD request → ∃ crd, u_AsCRD target = inr crd ∧
    InstancesEnumerated h crd (MaxCRDInstances (diagnosisSettings request)) (Reported res)
}.

(** The findings and actions are what a collector sorted of evidence that this
    diagnosis justifies; an incomplete one has no actions. *)
Definition Collected (h : dhist) (request : Request) (target : Unstructured) (res : DiagnosisResult) : Prop :=
  ∃ c, gathers (justifiedEvidence h request target) (newCollector (Some (req_Policy request))) c ∧
    let '(findings, actions, _) := collector_sorted c in
    res_Findings res = findings ∧ (res_Actions res = [] ∨ res_Actions res = actions).

(** The finalizers of the snapshot are those of the object read, sorted. *)
Definition SnapshotOf (object : Unstructured) (s : TargetSnapshot) : Prop :=
  ts_MetadataFinalizers s = sortedCopy (GetFinalizers object) ∧
  (ts_NamespaceFinalizers s = [] ∨
   ∃ namespace, u_AsNamespace object = inr namespace ∧ ts_NamespaceFinalizers s = sort_strings (ns_SpecFinalizers namespace)).

(** The result of an analysis, in terms of the collected evidence. *)
Lemma analyzed_result (h : dhist) request target complete finalizers c :
  gathers (justifiedEvidence h request target) (newCollector (Some (req_Policy request))) c →
  let '(findings, actions, overflow) := collector_sorted c in
  let complete' := if overflow : bool then false else complete in
  let res := mkDiagnosisResult true true true complete'
    (mkTargetSnapshot (GetResourceVersion target) (sortedCopy (GetFinalizers target)) finalizers)
    findings (if negb complete' then [] else actions) in
  (∀ a, a ∈ res_Actions res → res_DiagnosisComplete res = true ∧ Justified h request target a) ∧
  (res_DiagnosisComplete res = true → complete = true ∧ ∀ e, covers c e → Reported res e) ∧
  Collected h request target res.
Proof.
  intros Hg.
  assert (Hty : ∀ f a, fst (collector_sorted c) = (f, a) → ∀ res, res_Findings res = f →
    (res_Actions res = [] ∨ res_Actions res = a) → Collected h request target res).
  { intros f a E res Ef Ea. exists c. split; [done|]. destruct (collector_sorted c) as [[??]?]. by injection E as -> ->. }
  assert (Hok : CollectorOk c) by (eapply gathers_ok; [apply newCollector_ok|exact Hg]).
  pose proof (λ e, kept_shown c e Hok) as Hshown. pose proof (elem_of_sorted_actions c) as Hact.
  assert (Ho : snd (collector_sorted c) = overflowed c) by done.
  destruct (collector_sorted c) as [[findings actions] overflow]. simpl in *. subst overflow.
  specialize (Hty _ _ eq_refl).
  destruct (overflowed c) eqn:Eo; simpl; [split_and!; [set_solver|done|apply Hty; auto]|].
  destruct complete; simpl; [|split_and!; [set_solver|done|apply Hty; auto]]. split_and!; [| |apply Hty; auto].
  - intros a Ha. split; [done|]. destruct (Hact a Ha) as [id Hid]. exact (gathers_actions _ _ _ _ _ Hg Hid).
  - intros _. split; [done|]. intros e Hc. by apply Hshown, Hc.
Qed.

Lemma analyzeTarget_spec request target h :
  spec J (analyzeTarget fuel request target) h (λ h' res, extends h h' ∧
    res_TargetFound res = true ∧ res_UIDMatches res = true ∧ res_ThresholdElapsed res = true ∧
    (∀ a, a ∈ res_Actions res → res_DiagnosisComplete res = true ∧ Justified h' request target a) ∧
    (res_DiagnosisComplete res = true → Thorough h' request target res) ∧
    Collected h' request target res ∧ SnapshotOf target (res_TargetSnapshot res)).
Proof.
  unfold analyzeTarget. cbv zeta.
  set (c1 := if CheckAPIServices _ then _ else _). set (c2 := if CheckWebhooks _ then _ else c1).
  assert (Hg2 : ∀ h', gathers (justifiedEvidence h' request target) (newCollector (Some (req_Policy request))) c2).
  { intros h'. transitivity c1; [unfold c1|unfold c2].
    - destruct (CheckAPIServices _); [by apply gathers_analyzeAPIServices|done].
    - destruct (CheckWebhooks _); [by apply gathers_analyzeAdmissionWebhooks|done]. }
  assert (Hok2 : CollectorOk c2) by (eapply gathers_ok; [apply newCollector_ok|apply (Hg2 h)]).
  eapply (spec_call _ (λ h' '(complete, fs, c'), extends h h' ∧
    (fs = [] ∨ ∃ namespace, u_AsNamespace target = inr namespace ∧ fs = sort_strings (ns_SpecFinalizers namespace)) ∧
    gathers (justifiedEvidence h' request target) c2 c' ∧
    (complete = true → MetadataCovered request target (covers c') ∧
       (isNamespace request → NamespaceEnumerated h' request (covers c')) ∧
       (isCRD request → ∃ crd, u_AsCRD target = inr crd ∧
          InstancesEnumerated h' crd (MaxCRDInstances (diagnosisSettings request)) (covers c'))))).
  - destruct (decide (_ = GVR_GroupResource namespaceResource)) as [Hns|Hns].
    { assert (Hnc : ¬ isCRD request) by (unfold isCRD, targetGroupResource; rewrite Hns; done).
      eapply spec_mono; [by apply diagnoseNamespace_spec|]. intros h' [[complete fs] c'] (He & Hfs & Hg & Hc).
      split_and!; [done|done|done|]. intros Et. destruct (Hc Et) as (_ & ? & ?). done. }
    destruct (decide (_ = GVR_GroupResource crdResource)) as [Hcrd|Hcrd].
    { eapply spec_call; [by apply diagnoseCRD_spec|]. intros h' [complete c'] (He & Hg & Hc). apply spec_return.
      split_and!; [done|by left|done|]. intros Et. destruct (Hc Et) as (crd & ? & ? & ?). split_and!; [done|done|].
      intros _. by exists crd. }
    apply spec_return. split_and!; [ext_solve|by left| |].
    + etrans; [by apply gathers_analyzeGracePeriod|]. apply gathers_analyzeMetadataFinalizers; [done|].
      intros f Hf _. by apply just_metadata.
    + intros _. split_and!; [|done|done]. intros f Hf Hn. apply analyzeMetadataFinalizers_covers; [|done|done].
      eapply (gathers_ok (λ _, True)); [exact Hok2|by apply gathers_analyzeGracePeriod].
  - intros h' [[complete finalizers] c3] (He & Hfs & Hg & Hc).
    pose proof (analyzed_result h' request target complete finalizers c3 (transitivity (Hg2 h') Hg)) as Hres.
    destruct (collector_sorted c3) as [[findings actions] overflow]. cbv zeta in Hres.
    apply spec_return. destruct Hres as (Hja & Hthor & Hty). split_and!; [done|done|done|done|done| |done|by split].
    intros Et. destruct (Hthor Et) as [E Hrep]. destruct (Hc E) as (Hm & Hn & Hcrd). split.
    + by eapply MetadataCovered_mono.
    + intros Hns. eapply NamespaceEnumerated_mono; [exact Hrep|by apply Hn].
    + intros Hc'. destruct (Hcrd Hc') as (crd & ? & ?). exists crd. split; [done|]. by eapply InstancesEnumerated_mono.
Qed.

(** *** Diagnose *)

(** The target was read as [object] under [gvr], a version of its resource. *)
Definition ReadAs (h : dhist) (target : TargetReference) (gvr : GroupVersionResource) (object : Unstructured) : Prop :=
  evt (DGet gvr (tr_Namespace target) (tr_Name target)) (inr object : dresp (DGet _ _ _)) ∈ h ∧
  GVR_GroupResource gvr = mkGR (tr_APIGroup target) (tr_Resource target).

Lemma ReadAs_mono h h' target gvr object : extends h h' → ReadAs h target gvr object → ReadAs h' target gvr object.
Proof. intros He [? ?]. split; [by eapply extends_elem|done]. Qed.

(** A read of the target failed with this error. *)
Definition ReadFailed (h : dhist) (target : TargetReference) (e : error) : Prop :=
  ∃ gvr x, e = ErrExternal x ∧
    evt (DGet gvr (tr_Namespace target) (tr_Name target)) (inl x : dresp (DGet _ _ _)) ∈ h ∧
    GVR_GroupResource gvr = mkGR (tr_APIGroup target) (tr_Resource target).

Lemma ReadFailed_mono h h' target e : extends h h' → ReadFailed h target e → ReadFailed h' target e.
Proof. intros He (gvr & x & -> & ? & ?). exists gvr, x. split_and!; [done|by eapply extends_elem|done]. Qed.

Lemma dGet_spec gvr ns name h :
  spec J (dGet gvr ns name) h (λ h' r, extends h h' ∧
    match r with
    | inl e => ∃ x, e = ErrExternal x ∧ evt (DGet gvr ns name) (inl x : dresp (DGet _ _ _)) ∈ h'
    | inr u => evt (DGet gvr ns name) (inr u : dresp (DGet _ _ _)) ∈ h'
    end).
Proof. split; [done|]. intros [x|u]; simpl; (split; [ext_solve|]); [exists x; split; [done|by left]|by left]. Qed.

Lemma targetVersions_spec target versions last h :
  (versions ≠ [] ∨ last ≠ None) → (∀ e, last = Some e → ReadFailed h target e) →
  spec J (targetVersions target (mkGR (tr_APIGroup target) (tr_Resource target)) versions last) h
    (λ h' '(object, gvr, err), extends h h' ∧
       (err = None → ∃ o, object = Some o ∧ ReadAs h' target gvr o) ∧ (∀ e, err = Some e → ReadFailed h' target e)).
Proof.
  revert last h. induction versions as [|v versions IH]; intros last h Hne Hlast; cbn [targetVersions]; cbv zeta.
  { apply spec_return. split_and!; [ext_solve|naive_solver|done]. }
  eapply spec_call; [apply dGet_spec|]. intros h1 [err|o] [He Hr].
  - assert (Hf : ReadFailed h1 target err) by (destruct Hr as (x & -> & ?); by eexists _, x).
    destruct (negb _ && negb _); [apply spec_return; split_and!; [done|done|by intros e [= <-]]|].
    eapply spec_mono; [apply IH; [by right|by intros e [= <-]]|].
    intros h' [[o gvr] e] (He' & Hp & Hq). split_and!; [ext_solve|done|done].
  - apply spec_return. split_and!; [done| |done]. intros _. by exists o.
Qed.

Lemma getTarget_spec request h :
  spec J (getTarget request) h (λ h' '(object, gvr, err), extends h h' ∧
    (err = None → ∃ o, object = Some o ∧ ReadAs h' (req_Target request) gvr o) ∧
    (∀ e, err = Some e → ReadFailed h' (req_Target request) e)).
Proof.
  unfold getTarget. cbv zeta. destruct (Resolve _ _) as [resource|].
  - apply targetVersions_spec; [left; apply OrderedVersions_nonempty|done].
  - eapply spec_call; [apply dGet_spec|]. intros h1 [err|o] [He Hr]; apply spec_return; split_and!; try done.
    + intros e [= <-]. destruct Hr as (x & -> & ?). by eexists _, x.
    + intros _. by exists o.
Qed.

(** The analysis of an overdue target. *)
Definition Analyzed (h : dhist) (target : TargetReference) (policy : option CompiledPolicy)
    (snapshot : DiagnosisSnapshot) (now : Time) (res : DiagnosisResult) : Prop :=
  ∃ p gvr object deleted,
    policy = Some p ∧ Ready policy = true ∧ ReadAs h target gvr object ∧ GetUID object = tr_UID target ∧
    GetDeletionTimestamp object = Some deleted ∧
    Time_Before now (Time_Add deleted (set_TerminationAge (p_settings p))) = false ∧
    let request := pinVersion (mkRequest target p snapshot now) gvr in
    (∀ a, a ∈ res_Actions res → res_DiagnosisComplete res = true ∧ Justified h request object a) ∧
    (res_DiagnosisComplete res = true → Thorough h request object res) ∧
    Collected h request object res ∧ SnapshotOf object (res_TargetSnapshot res).

(** The other outcomes, which carry no evidence. *)
Definition Dismissed (h : dhist) (target : TargetReference) (policy : option CompiledPolicy) (now : Time)
    (res : DiagnosisResult) (err : option error) : Prop :=
  res_ThresholdElapsed res = false ∧ res_Findings res = [] ∧ res_Actions res = [] ∧
  (res_TargetSnapshot res = zero_TargetSnapshot ∨
   ∃ gvr object, ReadAs h target gvr object ∧ SnapshotOf object (res_TargetSnapshot res)) ∧
  match err with
  | Some _ => res = zero_DiagnosisResult
  | None => res_DiagnosisComplete res = true ∧
      (res_TargetFound res = false → ∃ e, ReadFailed h target e ∧ unavailable e = true) ∧
      (res_TargetFound res = true → ∃ gvr object, ReadAs h target gvr object ∧
         (res_UIDMatches res = true ↔ GetUID object = tr_UID target) ∧
         (res_UIDMatches res = true →
            ts_ResourceVersion (res_TargetSnapshot res) = GetResourceVersion object ∧
            (GetDeletionTimestamp object = None ∨ ∃ p deleted, policy = Some p ∧
               GetDeletionTimestamp object = Some deleted ∧
               Time_Before now (Time_Add deleted (set_TerminationAge (p_settings p))) = true)))
  end.

Lemma Diagnose_spec reader target policy snapshot now :
  spec J (Diagnose fuel reader target policy snapshot now) [] (λ h '(res, err),
    Dismissed h target policy now res err ∨
    err = None ∧ res_TargetFound res = true ∧ res_UIDMatches res = true ∧ res_ThresholdElapsed res = true ∧
    Analyzed h target policy snapshot now res).
Proof.
  assert (Hzero : ∀ h e, Dismissed h target policy now zero_DiagnosisResult (Some e)) by (intros; split_and!; try done; by left).
  unfold Diagnose. destruct reader; simpl negb; cbv iota; [|left; apply Hzero].
  destruct policy as [p|]; [|left; apply Hzero]. destruct (Ready (Some p)) eqn:Er; simpl negb; cbv iota; [|left; apply Hzero].
  destruct (Time_IsZero now); [left; apply Hzero|]. cbv zeta.
  eapply spec_call; [apply getTarget_spec|]. cbv beta. intros h [[object gvr] [e|]] (He & Hg & Hf).
  { destruct (unavailable e) eqn:Eu; apply spec_return; left; [|apply Hzero]. split_and!; try done; [by left|].
    intros _. exists e. split; [|done]. by apply Hf. }
  destruct (Hg eq_refl) as (o & -> & Hread). simpl req_Target in Hread. simpl tr_UID.
  case_bool_decide as Euid; simpl negb; cbv iota.
  2: { apply spec_return. left. split_and!; try done; [by left|]. intros _. exists gvr, o. by split_and!. }
  assert (Hsnap : ∃ gvr object, ReadAs h target gvr object ∧
    SnapshotOf object (mkTargetSnapshot (GetResourceVersion o) (sortedCopy (GetFinalizers o)) []))
    by (exists gvr, o; split; [done|]; split; [done|by left]).
  destruct (GetDeletionTimestamp o) as [deleted|] eqn:Ed.
  2: { apply spec_return. left. split_and!; try done; [by right|]. intros _. exists gvr, o. split_and!; [done|done|].
       intros _. split; [done|by left]. }
  destruct (Time_Before now _) eqn:Et.
  { apply spec_return. left. split_and!; try done; [by right|]. intros _. exists gvr, o. split_and!; [done|done|]. intros _.
    split; [done|]. right. by exists p, deleted. }
  eapply spec_call; [apply analyzeTarget_spec|]. intros h' res (He' & ? & ? & ? & Hj & Ht & Hty & Hs). apply spec_return. right.
  split_and!; try done. exists p, gvr, o, deleted. split_and!; try done. by eapply ReadAs_mono.
Qed.

(** ** Properties *)

Context (reader : bool) (target : TargetReference) (policy : option CompiledPolicy).
Context (snapshot : DiagnosisSnapshot) (now : Time).

(** C2: an action is recommended only on complete evidence: when [Diagnose] returns
    an action there is no error, the diagnosis is complete, a ready policy was
    given, and the target was read under its own UID with a deletion timestamp
    older than the policy's threshold.  The action removes a metadata finalizer the
    target really has, or one of an object listed in the terminating Namespace; or
    it force-finalizes a Namespace whose every namespaced resource was listed to
    the last page; or it removes the CRD cleanup finalizer after all instances of
    all served versions were listed and conversion is known to work.  The resource
    version it pins is the one that was read. *)
Theorem Diagnose_actions_justified tr res err a :
  runs (Diagnose fuel reader target policy snapshot now) tr (res, err) → a ∈ res_Actions res →
  err = None ∧ res_DiagnosisComplete res = true ∧
  ∃ p gvr object deleted,
    policy = Some p ∧ Ready policy = true ∧ ReadAs (reverse tr) target gvr object ∧
    GetUID object = tr_UID target ∧ GetDeletionTimestamp object = Some deleted ∧
    Time_Before now (Time_Add deleted (set_TerminationAge (p_settings p))) = false ∧
    Justified (reverse tr) (pinVersion (mkRequest target p snapshot now) gvr) object a.
Proof.
  intros Hr Ha. destruct (spec_sound _ _ _ _ _ _ (Diagnose_spec _ _ _ _ _) Hr) as [Hq _].
  rewrite app_nil_r in Hq. destruct Hq as [(_ & _ & E & _)|(-> & _ & _ & _ & p & gvr & o & dt & Hp)].
  { rewrite E in Ha. by apply elem_of_nil in Ha. }
  destruct Hp as (-> & Hready & Hread & Hu & Hd & Ht & Hj & _). destruct (Hj a Ha) as [Hc Hja].
  split_and!; [done|done|]. by exists p, gvr, o, dt.
Qed.

(** C9: completeness is not claimed lightly: when an overdue target's diagnosis is
    complete, the result has an action for every metadata finalizer of the target
    (the CRD cleanup finalizer apart); for a Namespace, every namespaced resource
    of the catalog was listed along its continue tokens to the last page and the
    result shows each listed object and an action for each of its finalizers; for
    a CRD, every served version was listed likewise, every instance has a UID, at
    most maxCRDInstances UIDs occur and the result shows each of them. *)
Theorem Diagnose_complete_thorough tr res err :
  runs (Diagnose fuel reader target policy snapshot now) tr (res, err) →
  res_ThresholdElapsed res = true → res_DiagnosisComplete res = true →
  ∃ p gvr object, policy = Some p ∧ ReadAs (reverse tr) target gvr object ∧ GetUID object = tr_UID target ∧
    Thorough (reverse tr) (pinVersion (mkRequest target p snapshot now) gvr) object res.
Proof.
  intros Hr Het Hc. destruct (spec_sound _ _ _ _ _ _ (Diagnose_spec _ _ _ _ _) Hr) as [Hq _].
  rewrite app_nil_r in Hq. destruct Hq as [(E & _)|(_ & _ & _ & _ & p & gvr & o & dt & Hp)]; [congruence|].
  destruct Hp as (-> & _ & Hread & Hu & _ & _ & _ & Ht & _). exists p, gvr, o. by split_and!; [..|apply Ht].
Qed.

(** The verdict flags mean what they say: a result without the threshold flag
    has no findings and no actions; with an error it is the zero result; without
    one it is complete, a target reported as absent was answered NotFound or Gone,
    and a target reported as found was read, its UID flag
    tells whether the UID read is the target's, and if it is, the object is not
    being deleted or its deletion is younger than the policy's threshold. *)
Theorem Diagnose_dismissed tr res err :
  runs (Diagnose fuel reader target policy snapshot now) tr (res, err) →
  res_ThresholdElapsed res = false → Dismissed (reverse tr) target policy now res err.
Proof.
  intros Hr Hth. destruct (spec_sound _ _ _ _ _ _ (Diagnose_spec _ _ _ _ _) Hr) as [Hq _].
  rewrite app_nil_r in Hq. destruct Hq as [?|(_ & _ & _ & E & _)]; [done|congruence].
Qed.

(** C28: the engine terminates and does not crash: along every run no nil pointer is
    dereferenced, and the page loops exhaust their fuel only when the server has
    handed out at least that many continue tokens; with fewer, [Diagnose] ends. *)
Theorem Diagnose_terminates tr e k :
  steps (Diagnose fuel reader target policy snapshot now) tr (Do e k) →
  e ≠ DPanic ∧ (e = DDiverge → fuel ≤ nonfinalPages tr).
Proof.
  intros Hs. pose proof (spec_next _ _ _ _ _ _ _ (Diagnose_spec _ _ _ _ _) Hs) as Hp. rewrite app_nil_r in Hp.
  destruct e; simpl in Hp; (split; [done|]); try done. intros _. unfold nonfinalPages in *.
  by rewrite reverse_Permutation in Hp.
Qed.
End proofs.

(** ** A concrete cluster *)

Module ExampleDiagnosis.
Export ExamplePolicy ExampleErrors.

#[export] Instance diagnosisNames : DiagnosisNames := {|
  APIService_Available := "Available"; APIService_ConditionTrue := "True"; core_ConditionTrue := "True";
  NamespaceDeletionDiscoveryFailure := "NamespaceDeletionDiscoveryFailure";
  NamespaceDeletionGVParsingFailure := "NamespaceDeletionGroupVersionParsingFailure";
  NamespaceDeletionContentFailure := "NamespaceDeletionContentFailure";
  NamespaceContentRemaining := "NamespaceContentRemaining";
  NamespaceFinalizersRemaining := "NamespaceFinalizersRemaining";
  admission_Ignore := "Ignore"; admission_Exact := "Exact"; admission_OperationAll := "*";
  admission_Update := "UPDATE"; admission_AllScopes := "*"; admission_NamespacedScope := "Namespaced";
  admission_ClusterScope := "Cluster"; WebhookConverter := "Webhook";
  LabelServiceName := "kubernetes.io/service-name";
  GroupVersion_text := λ g v, if decide (g = "") then v else g +:+ "/" +:+ v |}.

Definition policy : CompiledPolicy := fst (Compile (Some source) ExampleSchema.snapshot ExamplePolicy.now).
Definition shared : DiagnosisSnapshot :=
  mkDiagnosisSnapshot ExampleSchema.snapshot [] [] [] [] [] [] [] [] ∅.
Definition teamRef : TargetReference := mkTargetReference "" "v1" "namespaces" "Namespace" "" "team" "ns-uid".
Definition team : Unstructured :=
  let meta := mkObjectMeta "team" "" "ns-uid" "9" 0 0 (Some 0%Z) None ∅ ∅ [] [] in
  mkUnstructured meta (inr (Some ["kubernetes"]))
    (inr (mkNamespace meta ["kubernetes"] [mkNamespaceCondition "NamespaceContentRemaining" "True" "1 widget left"]))
    (inl (mkExternalError "not a CRD" "" 0 None false)).
Definition widget : ObjectMeta :=
  mkObjectMeta "w1" "team" "widget-uid" "7" 0 0 (Some 0%Z) None ∅ ∅ ["example.io/cleanup"] [].

(** An API with one widget in the namespace, listed on the second of two pages. *)
Definition handle (s : unit) (e : dev) : option (dresp e * unit) :=
  match e return option (dresp e * unit) with
  | DGet _ _ _ => Some (inr team, tt)
  | DList gvr _ _ token =>
      Some (inr (if decide (gvr_Resource gvr = "widgets")
                 then if decide (token = "") then mkMetadataList [] "next" else mkMetadataList [widget] ""
                 else mkMetadataList [] ""), tt)
  | DDiverge | DPanic => None
  end.

(** An API that never ends a listing. *)
Definition endless (s : unit) (e : dev) : option (dresp e * unit) :=
  match e return option (dresp e * unit) with
  | DGet _ _ _ => Some (inr team, tt)
  | DList _ _ _ _ => Some (inr (mkMetadataList [] "next"), tt)
  | DDiverge | DPanic => None
  end.

Abbreviation run now := (Diagnose 10 true teamRef (Some policy) shared now).

Definition recommends (tr : list (event dresp)) (r : DiagnosisResult * option error) : bool :=
  bool_decide (length (res_Actions r.1) = 2) && res_DiagnosisComplete r.1 && res_ThresholdElapsed r.1.
Lemma example_recommends : ∃ tr r, runs (run ExamplePolicy.now) tr r ∧ recommends tr r = true.
Proof. apply (completes_runs handle _ _ tt). vm_compute. reflexivity. Qed.

Definition early (tr : list (event dresp)) (r : DiagnosisResult * option error) : bool :=
  negb (res_ThresholdElapsed r.1) && res_UIDMatches r.1.
Lemma example_early : ∃ tr r, runs (run Minute) tr r ∧ early tr r = true.
Proof. apply (completes_runs handle _ _ tt). vm_compute. reflexivity. Qed.

Definition diverges (e : dev) : bool := match e with DDiverge => true | _ => false end.
Lemma example_diverges : ∃ tr e k,
  steps (run ExamplePolicy.now) tr (Do e k) ∧ diverges e = true ∧ Forall (λ _, True) tr.
Proof. apply (reaches_steps endless _ _ _ tt); [done|]. vm_compute. reflexivity. Qed.
End ExampleDiagnosis.

Section witnesses.
Import ExampleDiagnosis.

Lemma Diagnose_actions_justified_witness : ∃ tr res err a,
  runs (run ExamplePolicy.now) tr (res, err) ∧ a ∈ res_Actions res ∧ err = None ∧ res_DiagnosisComplete res = true.
Proof.
  destruct example_recommends as (tr & [res err] & Hr & Hc). unfold recommends in Hc. bool_prop. simpl in *.
  destruct (res_Actions res) as [|a l] eqn:Ea; [discriminate|]. exists tr, res, err, a.
  assert (Ha : a ∈ res_Actions res) by (rewrite Ea; by left).
  destruct (Diagnose_actions_justified _ _ _ _ _ _ _ _ _ _ Hr Ha) as (He & Hd & _).
  split; [exact Hr|]. split; [exact Ha|]. split; [exact He|exact Hd].
Defined.

Lemma Diagnose_complete_thorough_witness : ∃ tr res err gvr object,
  runs (run ExamplePolicy.now) tr (res, err) ∧ length (res_Actions res) = 2 ∧
  Thorough (reverse tr) (pinVersion (mkRequest teamRef policy shared ExamplePolicy.now) gvr) object res.
Proof.
  destruct example_recommends as (tr & [res err] & Hr & Hc). unfold recommends in Hc. bool_prop. simpl in *.
  destruct (Diagnose_complete_thorough _ _ _ _ _ _ _ _ _ Hr) as (p & gvr & o & Ep & _ & _ & Ht); [done|done|].
  injection Ep as <-. exists tr, res, err, gvr, o. split; [exact Hr|]. split; [done|exact Ht].
Defined.

Lemma Diagnose_dismissed_witness : ∃ tr res err,
  runs (run Minute) tr (res, err) ∧ res_UIDMatches res = true ∧
  Dismissed (reverse tr) teamRef (Some policy) Minute res err.
Proof.
  destruct example_early as (tr & [res err] & Hr & Hc). unfold early in Hc. bool_prop. simpl in *.
  exists tr, res, err. split; [exact Hr|]. split; [done|]. by apply (Diagnose_dismissed _ _ _ _ _ _ _ _ _ Hr).
Defined.

Lemma Diagnose_terminates_witness : ∃ tr k,
  steps (run ExamplePolicy.now) tr (Do DDiverge k) ∧ 10 ≤ nonfinalPages tr.
Proof.
  destruct example_diverges as (tr & e & k & Hs & Hd & _). destruct e; try discriminate Hd.
  exists tr, k. split; [exact Hs|]. by apply (Diagnose_terminates _ _ _ _ _ _ _ _ _ Hs).
Defined.
End witnesses.
