(* ===== verification/Durations.v ===== *)
(** * Durations as text (time.Duration.String, time.ParseDuration)

    The standard library's textual form of durations, which the scanner keeps in
    the retention annotation of incidents.  The fraction of a number is scaled in
    float64 by the library; the few operations it uses are defined here on positive
    numbers with rounding to nearest, ties to even. *)
From S2P Require Import Prelude GoText.

Local Open Scope Z_scope.

Definition Nanosecond : Duration := 1.
Definition Microsecond : Duration := 1000.
Definition Millisecond : Duration := 1000000.
Definition Hour : Duration := 60 * Minute.

(** ** float64 on positive numbers *)

(** [m * 2^e]. *)
Record f64 := mkF64 { f_m : Z; f_e : Z }.

(** The float nearest to [num / den] (both positive, far from the range limits). *)
Definition f64_ratio (num den : Z) : f64 :=
  let e0 := Z.log2 num - Z.log2 den - 53 in
  let scaled e := if 0 <=? e then (num, den * 2 ^ e) else (num * 2 ^ (- e), den) in
  (* one of the two neighbouring exponents gives a 53-bit quotient *)
  let e := let '(n, d) := scaled e0 in if n / d <? 2 ^ 53 then e0 else e0 + 1 in
  let '(n, d) := scaled e in
  let q := n / d in
  let r := n mod d in
  let q := if (2 * r >? d) || ((2 * r =? d) && Z.odd q) then q + 1 else q in
  mkF64 q e.

Definition f64_of (z : Z) : f64 := if z =? 0 then mkF64 0 0 else f64_ratio z 1.
Definition f64_num (x : f64) : Z := if 0 <=? f_e x then f_m x * 2 ^ f_e x else f_m x.
Definition f64_den (x : f64) : Z := if 0 <=? f_e x then 1 else 2 ^ (- f_e x).
Definition f64_div (x y : f64) : f64 := f64_ratio (f64_num x * f64_den y) (f64_den x * f64_num y).
Definition f64_mul (x y : f64) : f64 :=
  if f_m x * f_m y =? 0 then mkF64 0 0 else f64_ratio (f64_num x * f64_num y) (f64_den x * f64_den y).
(** [uint64(x)] *)
Definition f64_trunc (x : f64) : Z := f64_num x / f64_den x.

(** ** Printing *)

(** [fmtFrac]: the last [prec] decimal digits of [v], without trailing zeros and
    with a point if any remain ([print] tells whether a digit was kept), and the
    rest of the number. *)
Fixpoint fmtFrac (prec : nat) (v : Z) (print : bool) (acc : string) : string * Z :=
  match prec with
  | O => (if print then "." +:+ acc else acc, v)
  | S prec' =>
      let digit := v mod 10 in
      let print := print || negb (digit =? 0) in
      fmtFrac prec' (v / 10) print (if print then String (chr (48 + digit)) acc else acc)
  end.

(** The text of [u] nanoseconds, without a sign. *)
Definition absText (u : Z) : string :=
  if u <? Second then
    if u =? 0 then "0s"
    else if u <? Microsecond then fmt_d u +:+ "ns"
    else if u <? Millisecond then let '(frac, v) := fmtFrac 3 u false "" in fmt_d v +:+ frac +:+ "µs"
    else let '(frac, v) := fmtFrac 6 u false "" in fmt_d v +:+ frac +:+ "ms"
  else
    let '(frac, secs) := fmtFrac 9 u false "" in
    let mins := secs / 60 in
    let hours := mins / 60 in
    (if 0 <? mins then
       (if 0 <? hours then fmt_d hours +:+ "h" else "") +:+ fmt_d (mins mod 60) +:+ "m"
     else "") +:+ fmt_d (secs mod 60) +:+ frac +:+ "s".

Definition Duration_String (d : Duration) : string :=
  if d <? 0 then "-" +:+ absText (Z.abs d) else absText (Z.abs d).

(** ** Parsing *)

Definition isDigit (c : Ascii.ascii) : bool := (48 <=? byteZ c) && (byteZ c <=? 57).

(** [leadingInt]: [None] on overflow. *)
Fixpoint leadingInt (s : string) (x : Z) : option (Z * string) :=
  match s with
  | String c s' =>
      if negb (isDigit c) then Some (x, s)
      else if 2 ^ 63 / 10 <? x then None
      else let x := x * 10 + (byteZ c - 48) in
           if 2 ^ 63 <? x then None else leadingInt s' x
  | EmptyString => Some (x, s)
  end.

(** [leadingFraction]: the digits read, their scale and the rest; digits that do
    not fit are skipped. *)
Fixpoint leadingFraction (s : string) (x : Z) (scale : Z) (overflow : bool) : Z * Z * string :=
  match s with
  | String c s' =>
      if negb (isDigit c) then (x, scale, s)
      else if overflow then leadingFraction s' x scale true
      else if (2 ^ 63 - 1) / 10 <? x then leadingFraction s' x scale true
      else let y := x * 10 + (byteZ c - 48) in
           if 2 ^ 63 <? y then leadingFraction s' x scale true else leadingFraction s' y (scale * 10) false
  | EmptyString => (x, scale, s)
  end.

(** The unit: everything up to the next digit or point. *)
Fixpoint takeUnit (s : string) : string * string :=
  match s with
  | String c s' =>
      if (byteZ c =? 46) || isDigit c then ("", s)
      else let '(u, rest) := takeUnit s' in (String c u, rest)
  | EmptyString => ("", "")
  end.

Definition unitOf (u : string) : option Z :=
  if decide (u = "ns") then Some Nanosecond
  else if decide (u = "us") then Some Microsecond
  else if decide (u = "µs") then Some Microsecond
  else if decide (u = "μs") then Some Microsecond
  else if decide (u = "ms") then Some Millisecond
  else if decide (u = "s") then Some Second
  else if decide (u = "m") then Some Minute
  else if decide (u = "h") then Some Hour
  else None.

(** The fraction after the integer: its digits, their scale, the rest, and whether
    there were any. *)
Definition parseFraction (s : string) : Z * Z * string * bool :=
  match s with
  | String c s' =>
      if (byteZ c =? 46) then
        let '(f, scale, rest) := leadingFraction s' 0 1 false in
        (f, scale, rest, negb (bool_decide (String.length rest = String.length s')))
      else (0, 1, s, false)
  | EmptyString => (0, 1, s, false)
  end.

(** One number with its unit: its value in nanoseconds and the rest. *)
Definition parseTerm (s : string) : option (Z * string) :=
  match s with
  | EmptyString => None
  | String c _ =>
    if negb ((byteZ c =? 46) || isDigit c) then None
    else
      '(v, s1) ← leadingInt s 0;
      let pre := negb (bool_decide (String.length s1 = String.length s)) in
      let '(f, scale, s2, post) := parseFraction s1 in
      if negb pre && negb post then None
      else
        let '(u, rest) := takeUnit s2 in
        if bool_decide (u = "") then None
        else
          unit ← unitOf u;
          if 2 ^ 63 / unit <? v then None
          else
            let v := v * unit in
            let v := if 0 <? f then v + f64_trunc (f64_mul (f64_of f) (f64_div (f64_of unit) (f64_of scale))) else v in
            if 2 ^ 63 <? v then None else Some (v, rest)
  end.

(** The loop; each term consumes a byte at least, so the length bounds it. *)
Fixpoint parseTerms (n : nat) (s : string) (d : Z) : option Z :=
  match s with
  | EmptyString => Some d
  | _ =>
      match n with
      | O => None
      | S n' =>
          '(v, rest) ← parseTerm s;
          if 2 ^ 63 <? d + v then None else parseTerms n' rest (d + v)
      end
  end.

(** [ParseDuration]; [None] is its error. *)
Definition ParseDuration (orig : string) : option Duration :=
  let '(neg, s) :=
    match orig with
    | String c s' =>
        if (byteZ c =? 45) then (true, s')
        else if (byteZ c =? 43) then (false, s') else (false, orig)
    | EmptyString => (false, orig)
    end in
  if bool_decide (s = "0") then Some 0
  else if bool_decide (s = "") then None
  else
    d ← parseTerms (String.length s) s 0;
    if neg : bool then Some (int64 (- d))
    else if 2 ^ 63 - 1 <? d then None else Some d.

(** Documented examples. *)
Example String_hours : Duration_String (72 * Hour + 3 * Minute + 500 * Millisecond) = "72h3m0.5s".
Proof. vm_compute. reflexivity. Qed.
Example String_small : Duration_String 1500 = "1.5µs" ∧ Duration_String 0 = "0s" ∧ Duration_String (60 * Minute) = "1h0m0s".
Proof. vm_compute. done. Qed.
Example Parse_mixed : ParseDuration "1h15m30.918s" = Some (1 * Hour + 15 * Minute + 30 * Second + 918 * Millisecond).
Proof. vm_compute. reflexivity. Qed.
Example Parse_negative : ParseDuration "-1.5h" = Some (- 90 * Minute) ∧ ParseDuration "3" = None ∧ ParseDuration "1d" = None.
Proof. vm_compute. done. Qed.
Example Parse_limits : ParseDuration "9223372036854775807ns" = Some (2 ^ 63 - 1) ∧ ParseDuration "9223372036854775808ns" = None.
Proof. vm_compute. done. Qed.
