(* ===== verification/DurationProps.v ===== *)
(** * Durations survive their textual form

    [ParseDuration] reads back what [Duration_String] writes, for every 64-bit
    duration: decimal texts, the exactness of the float64 scaling on the fractions
    that are printed, and the terms of a duration. *)
From S2P Require Import Prelude GoText Durations.

Local Open Scope Z_scope.

(** ** Decimal texts *)

Definition digit (d : Z) : Prop := 0 ≤ d ≤ 9.
Definition step (x d : Z) : Z := x * 10 + d.
Definition value (l : list Z) : Z := foldl step 0 l.

Fixpoint text (l : list Z) : string :=
  match l with [] => "" | d :: l' => String (chr (48 + d)) (text l') end.

(** A text that no number continues. *)
Definition stops (s : string) : Prop := match s with String c _ => isDigit c = false | EmptyString => True end.

Lemma byteZ_digit d : digit d → byteZ (chr (48 + d)) = 48 + d.
Proof. intros Hd. apply byteZ_chr. unfold digit in Hd. lia. Qed.
Lemma isDigit_digit d : digit d → isDigit (chr (48 + d)) = true.
Proof. intros Hd. unfold isDigit. rewrite (byteZ_digit d Hd). unfold digit in Hd. lia. Qed.

Lemma text_app l l' : text (l ++ l') = text l +:+ text l'.
Proof. induction l as [|d l IH]; simpl; [done|]. by rewrite IH. Qed.
Lemma str_app_nil (s : string) : s +:+ "" = s.
Proof. induction s as [|c s IH]; [done|]. apply (f_equal (String c)), IH. Qed.

Lemma foldl_step_ge l x : Forall digit l → 0 ≤ x → x ≤ foldl step x l.
Proof.
  intros Hl. revert x. induction Hl as [|d l Hd _ IH]; intros x Hx; simpl; [lia|].
  unfold digit in Hd. pose proof (IH (step x d)). unfold step in *. lia.
Qed.
Lemma foldl_step_split l x : foldl step x l = x * 10 ^ Z.of_nat (length l) + value l.
Proof.
  unfold value. assert (Hgen : ∀ a b, foldl step (a + b) l = a * 10 ^ Z.of_nat (length l) + foldl step b l).
  { induction l as [|d l IH]; intros a b; simpl; [lia|]. unfold step at 2 4.
    replace ((a + b) * 10 + d) with (a * 10 + (b * 10 + d)) by lia. rewrite IH, Nat2Z.inj_succ, Z.pow_succ_r by lia. lia. }
  specialize (Hgen x 0). by rewrite Z.add_0_r in Hgen.
Qed.
Lemma value_cons d l : value (d :: l) = d * 10 ^ Z.of_nat (length l) + value l.
Proof. unfold value at 1. simpl. rewrite foldl_step_split. unfold step. lia. Qed.
Lemma value_bound l : Forall digit l → 0 ≤ value l < 10 ^ Z.of_nat (length l).
Proof.
  intros Hl. induction Hl as [|d l Hd Hl IH]; [done|]. rewrite value_cons. simpl length.
  rewrite Nat2Z.inj_succ, Z.pow_succ_r by lia. unfold digit in Hd. nia.
Qed.

(** What [fmt_d] prints. *)
Lemma pretty_N_go_text (x : N) s : ∃ l, Forall digit l ∧ pretty_N_go x s = text l +:+ s ∧
  value l = Z.of_N x ∧ (x = 0%N → l = []) ∧ ((0 < x)%N → ∃ d l', l = d :: l' ∧ 0 < d).
Proof.
  revert s. induction (N.lt_wf_0 x) as [x _ IH]; intros s.
  assert (x = 0 ∨ 0 < x)%N as [->|Hx] by lia.
  { exists []. rewrite pretty_N_go_0. split_and!; [done|done|done|done|intros ?; lia]. }
  rewrite pretty_N_go_step by done.
  destruct (IH (x `div` 10)%N ltac:(by apply N.div_lt) (String (pretty_N_char (x `mod` 10)) s)) as (l & Hl & -> & Hv & Hz & Hp).
  pose proof (N.mod_lt x 10 ltac:(done)) as Hm. pose proof (N.div_mod x 10 ltac:(done)) as Ex.
  set (m := (x `mod` 10)%N) in *. clearbody m. exists (l ++ [Z.of_N m]). split_and!.
  - apply Forall_app. split; [done|]. constructor; [unfold digit; lia|done].
  - rewrite text_app, app_string_assoc. f_equal. simpl. f_equal.
    clear -Hm.
    assert (m = 0 ∨ m = 1 ∨ m = 2 ∨ m = 3 ∨ m = 4 ∨ m = 5 ∨ m = 6 ∨ m = 7 ∨ m = 8 ∨ m = 9)%N as Hc by lia.
    by repeat destruct Hc as [->|Hc]; [..|subst m].
  - unfold value in *. rewrite foldl_app. simpl. rewrite Hv. unfold step. lia.
  - lia.
  - intros _. destruct (decide (x `div` 10 = 0)%N) as [E0|E0].
    + rewrite (Hz E0). eexists _, []. split; [done|]. lia.
    + destruct Hp as (d & l' & -> & Hd); [lia|]. by exists d, (l' ++ [Z.of_N m]).
Qed.

Lemma fmt_d_lead v : 0 < v → ∃ d l, Forall digit (d :: l) ∧ 0 < d ∧ fmt_d v = text (d :: l) ∧ value (d :: l) = v.
Proof.
  intros Hv. unfold fmt_d. destruct v as [|p|p]; [lia| |lia].
  destruct (pretty_N_go_text (N.pos p) "") as (l & Hl & E & Hval & _ & Hne). destruct Hne as (d & l' & -> & Hd); [lia|].
  exists d, l'. split_and!; [done|done| |done].
  change (pretty (Z.pos p)) with (pretty_N_go (N.pos p) ""). by rewrite E, str_app_nil.
Qed.

Lemma fmt_d_text v : 0 ≤ v → ∃ l, Forall digit l ∧ fmt_d v = text l ∧ value l = v ∧ l ≠ [].
Proof.
  intros Hv. destruct (decide (v = 0)) as [->|Hne].
  - exists [0]. split_and!; try done. constructor; [unfold digit; lia|done].
  - destruct (fmt_d_lead v ltac:(lia)) as (d & l & Hl & _ & E & Ev). by exists (d :: l).
Qed.

(** ** Reading numbers *)

Lemma leadingInt_stops s x : stops s → leadingInt s x = Some (x, s).
Proof. destruct s as [|c s]; simpl; [done|]. by intros ->. Qed.

Lemma leadingInt_text l s x : Forall digit l → stops s → 0 ≤ x → foldl step x l ≤ 2 ^ 63 →
  leadingInt (text l +:+ s) x = Some (foldl step x l, s).
Proof.
  intros Hl Hs. revert x. induction Hl as [|d l Hd Hl IH]; intros x Hx Hb; [by apply leadingInt_stops|].
  change (text (d :: l) +:+ s) with (String (chr (48 + d)) (text l +:+ s)). cbn [leadingInt]. rewrite (isDigit_digit d Hd), (byteZ_digit d Hd). simpl negb. cbv iota zeta.
  replace (x * 10 + (48 + d - 48)) with (step x d) by (unfold step; lia).
  assert (Hsd : 0 ≤ step x d) by (unfold step, digit in *; lia).
  pose proof (foldl_step_ge l (step x d) Hl Hsd) as Hge. simpl in Hb.
  assert (Hx10 : x * 10 ≤ 2 ^ 63) by (unfold step, digit in *; lia).
  rewrite (proj2 (Z.ltb_ge _ _)) by (apply Z.div_le_lower_bound; lia).
  rewrite (proj2 (Z.ltb_ge _ _)) by lia. by apply IH.
Qed.

Lemma leadingFraction_text l s x scale : Forall digit l → stops s → 0 ≤ x → foldl step x l ≤ 10 ^ 9 →
  leadingFraction (text l +:+ s) x scale false = (foldl step x l, scale * 10 ^ Z.of_nat (length l), s).
Proof.
  intros Hl Hs. revert x scale. induction Hl as [|d l Hd Hl IH]; intros x scale Hx Hb.
  { simpl. rewrite Z.mul_1_r. destruct s as [|c s]; [done|]. simpl in *. by rewrite Hs. }
  change (text (d :: l) +:+ s) with (String (chr (48 + d)) (text l +:+ s)). cbn [leadingFraction]. rewrite (isDigit_digit d Hd), (byteZ_digit d Hd). simpl negb. cbv iota zeta.
  replace (x * 10 + (48 + d - 48)) with (step x d) by (unfold step; lia).
  assert (Hsd : 0 ≤ step x d) by (unfold step, digit in *; lia).
  pose proof (foldl_step_ge l (step x d) Hl Hsd) as Hge. simpl in Hb.
  rewrite (proj2 (Z.ltb_ge _ _)) by (apply Z.div_le_lower_bound; unfold step, digit in *; lia).
  rewrite (proj2 (Z.ltb_ge _ _)) by lia. rewrite IH by done. f_equal. f_equal.
  simpl length. rewrite Nat2Z.inj_succ, Z.pow_succ_r by lia. lia.
Qed.

(** ** Exact float64 results *)

(** [x] is exactly the integer [n]. *)
Definition exactly (x : f64) (n : Z) : Prop := f64_num x = n * f64_den x ∧ 0 < f64_den x.

Lemma f64_ratio_exact n den : 0 < den → 0 < n < 2 ^ 53 → exactly (f64_ratio (n * den) den) n.
Proof.
  intros Hden Hn. unfold f64_ratio. set (e0 := Z.log2 (n * den) - Z.log2 den - 53).
  assert (He0 : e0 ≤ 0).
  { unfold e0. pose proof (Z.log2_mul_above n den ltac:(lia) ltac:(lia)).
    assert (Z.log2 n < 53) by (apply Z.log2_lt_pow2; lia). lia. }
  assert (Hsc : ∀ e, e ≤ 0 → (if 0 <=? e then (n * den, den * 2 ^ e) else (n * den * 2 ^ (- e), den)) = (n * 2 ^ (- e) * den, den)).
  { intros e He. destruct (0 <=? e) eqn:E; [|f_equal; lia]. assert (e = 0) as -> by lia. simpl. f_equal; lia. }
  rewrite (Hsc e0 He0). rewrite Z.div_mul by lia.
  set (e := if n * 2 ^ (- e0) <? 2 ^ 53 then e0 else e0 + 1).
  assert (He : e ≤ 0).
  { unfold e. destruct (_ <? _) eqn:E; [lia|]. assert (e0 ≠ 0); [|lia]. intros ->. simpl in E. lia. }
  rewrite (Hsc e He), Z.div_mul, Z.mod_mul by lia.
  replace (2 * 0 >? den) with false by lia. replace (2 * 0 =? den) with false by lia. simpl orb. cbv iota.
  assert (Hp : 0 < 2 ^ (- e)) by (apply Z.pow_pos_nonneg; lia).
  unfold exactly, f64_num, f64_den. simpl. destruct (0 <=? e) eqn:E; [|lia].
  assert (e = 0) as -> by lia. simpl. lia.
Qed.

Lemma f64_of_exact n : 0 < n < 2 ^ 53 → exactly (f64_of n) n.
Proof.
  intros Hn. unfold f64_of. rewrite (proj2 (Z.eqb_neq n 0)) by lia.
  rewrite <-(Z.mul_1_r n) at 1. apply f64_ratio_exact; lia.
Qed.

Lemma f64_div_exact x y n m : exactly x (n * m) → exactly y m → 0 < m → 0 < n < 2 ^ 53 → exactly (f64_div x y) n.
Proof.
  intros [Ex ?] [Ey ?] Hm Hn. unfold f64_div. rewrite Ex, Ey.
  replace (n * m * f64_den x * f64_den y) with (n * (f64_den x * (m * f64_den y))) by lia.
  apply f64_ratio_exact; [|done]. nia.
Qed.

Lemma f64_mul_exact x y n m : exactly x n → exactly y m → 0 < n → 0 < m → n * m < 2 ^ 53 → exactly (f64_mul x y) (n * m).
Proof.
  intros [Ex ?] [Ey ?] Hn Hm Hnm. unfold f64_mul.
  assert (Hpos : ∀ z k, f64_num z = k * f64_den z → 0 < f64_den z → 0 < k → f_m z ≠ 0).
  { intros z k Ez Hz Hk E0. unfold f64_num in Ez. rewrite E0 in Ez. destruct (0 <=? f_e z); nia. }
  pose proof (Hpos x n Ex ltac:(done) Hn). pose proof (Hpos y m Ey ltac:(done) Hm).
  rewrite (proj2 (Z.eqb_neq _ 0)) by nia. rewrite Ex, Ey.
  replace (n * f64_den x * (m * f64_den y)) with (n * m * (f64_den x * f64_den y)) by lia.
  apply f64_ratio_exact; nia.
Qed.

Lemma f64_trunc_exact x n : exactly x n → f64_trunc x = n.
Proof. intros [E ?]. unfold f64_trunc. rewrite E. by rewrite Z.div_mul by lia. Qed.

(** ** Fractions *)

Definition fracText (l : list Z) : string := match l with [] => "" | _ => "." +:+ text l end.

Lemma fmtFrac_text prec v l : Forall digit l → 0 ≤ v →
  ∃ l' k, Forall digit l' ∧ (length l' + k = prec + length l)%nat ∧
    fmtFrac prec v (bool_decide (l ≠ [])) (text l) = (fracText l', v / 10 ^ Z.of_nat prec) ∧
    value l' * 10 ^ Z.of_nat k = (v mod 10 ^ Z.of_nat prec) * 10 ^ Z.of_nat (length l) + value l.
Proof.
  revert v l. induction prec as [|prec IH]; intros v l Hl Hv; cbn [fmtFrac].
  { exists l, 0%nat. split_and!; [done|lia| |]; simpl Z.of_nat; rewrite Z.pow_0_r.
    - rewrite Z.div_1_r. by destruct l.
    - rewrite Z.mod_1_r. lia. }
  assert (Hd : digit (v mod 10)) by (pose proof (Z.mod_pos_bound v 10); unfold digit; lia).
  assert (Hq : 0 ≤ v / 10) by (apply Z.div_pos; lia).
  assert (Hdiv : v / 10 / 10 ^ Z.of_nat prec = v / 10 ^ Z.of_nat (S prec)).
  { rewrite Z.div_div by lia. f_equal. rewrite Nat2Z.inj_succ, Z.pow_succ_r by lia. lia. }
  assert (Hmod : v mod 10 ^ Z.of_nat (S prec) = 10 * ((v / 10) mod 10 ^ Z.of_nat prec) + v mod 10).
  { rewrite Nat2Z.inj_succ, Z.pow_succ_r by lia. rewrite Z.rem_mul_r by lia. lia. }
  destruct (bool_decide (l ≠ []) || negb (v mod 10 =? 0)) eqn:Ep; cbv zeta iota.
  - destruct (IH (v / 10) (v mod 10 :: l)) as (l' & k & Hl' & Hlen & E & Hval); [by constructor|done|].
    rewrite bool_decide_eq_true_2 in E by done. cbn [text] in E. rewrite E. exists l', k. split_and!; [done|simpl in Hlen; lia|by rewrite Hdiv|].
    rewrite Hval, Hmod, value_cons. simpl length. rewrite Nat2Z.inj_succ, Z.pow_succ_r by lia. lia.
  - apply orb_false_iff in Ep as [El Ez]. apply bool_decide_eq_false in El. apply dec_stable in El. subst l.
    destruct (IH (v / 10) []) as (l' & k & Hl' & Hlen & E & Hval); [done|done|].
    simpl in E. simpl text. rewrite E. exists l', (S k). split_and!; [done|simpl in *; lia|by rewrite Hdiv|].
    rewrite Hmod, Nat2Z.inj_succ, Z.pow_succ_r by lia. simpl in Hval. unfold value in *. simpl in *. lia.
Qed.

(** The fraction of [u] below [10 ^ prec]. *)
Lemma fmtFrac_split prec u : 0 ≤ u → ∃ l k, Forall digit l ∧ (length l + k = prec)%nat ∧
  fmtFrac prec u false "" = (fracText l, u / 10 ^ Z.of_nat prec) ∧ value l * 10 ^ Z.of_nat k = u mod 10 ^ Z.of_nat prec.
Proof.
  intros Hu. destruct (fmtFrac_text prec u [] ltac:(done) Hu) as (l & k & Hl & Hlen & E & Hval).
  exists l, k. split_and!; [done|simpl in Hlen; lia|done|]. rewrite Hval. unfold value. simpl. lia.
Qed.

(** ** Terms *)

(** What may follow a term: nothing, or another number. *)
Definition follows (s : string) : Prop := match s with String c _ => isDigit c = true | EmptyString => True end.

Lemma takeUnit_follows s : follows s → takeUnit s = ("", s).
Proof. destruct s as [|c s]; simpl; [done|]. intros ->. by rewrite orb_true_r. Qed.

(** A unit: no digit and no point in it. *)
Definition unitText (u : string) (unit : Z) : Prop :=
  unitOf u = Some unit ∧ u ≠ "" ∧ (∀ s, follows s → takeUnit (u +:+ s) = (u, s)) ∧
  (∀ s, match u +:+ s with String c _ => isDigit c = false ∧ byteZ c ≠ 46 | EmptyString => False end).

Lemma app_length_le s t : (String.length t ≤ String.length (s +:+ t))%nat.
Proof. induction s as [|c s IH]; [done|]. change (String c s +:+ t) with (String c (s +:+ t)). simpl. lia. Qed.
Lemma text_length l : String.length (text l) = length l.
Proof. induction l as [|d l IH]; simpl; [done|]. by rewrite IH. Qed.
Lemma app_length_eq s t : String.length (s +:+ t) = (String.length s + String.length t)%nat.
Proof. induction s as [|c s IH]; [done|]. change (String c s +:+ t) with (String c (s +:+ t)). simpl. lia. Qed.

Lemma parseFraction_text f u unit s :
  Forall digit f → (length f ≤ 9)%nat → unitText u unit →
  ∃ post, parseFraction (fracText f +:+ u +:+ s) = (value f, 10 ^ Z.of_nat (length f), u +:+ s, post).
Proof.
  intros Hf Hlen (_ & _ & _ & Hhead). specialize (Hhead s). destruct f as [|d f].
  - exists false. change (fracText [] +:+ u +:+ s) with (u +:+ s). unfold parseFraction.
    destruct (u +:+ s) as [|c t]; [done|]. destruct Hhead as [_ Hc]. by rewrite (proj2 (Z.eqb_neq _ _) Hc).
  - set (rest := u +:+ s) in *. change (fracText (d :: f) +:+ rest) with (String (chr 46) (text (d :: f) +:+ rest)).
    cbn [parseFraction]. rewrite (byteZ_chr 46) by lia. simpl Z.eqb. cbv iota. rewrite leadingFraction_text.
    + eexists. rewrite Z.mul_1_l. reflexivity.
    + done.
    + unfold stops. destruct rest; [done|]. by destruct Hhead.
    + lia.
    + fold (value (d :: f)). pose proof (value_bound _ Hf).
      assert (10 ^ Z.of_nat (length (d :: f)) ≤ 10 ^ 9) by (apply Z.pow_le_mono_r; lia). lia.
Qed.

Lemma scaled_fraction f unit scale g :
  0 < f < scale → 0 < scale → 0 < g → unit = g * scale → unit < 2 ^ 53 →
  f64_trunc (f64_mul (f64_of f) (f64_div (f64_of unit) (f64_of scale))) = f * g.
Proof.
  intros Hf Hs Hg -> Hu. apply f64_trunc_exact, f64_mul_exact; [|..|lia|lia|nia].
  - apply f64_of_exact. nia.
  - apply (f64_div_exact _ _ _ scale); [apply f64_of_exact; nia|apply f64_of_exact; nia|lia|nia].
Qed.

Lemma parseTerm_text l f u unit g s :
  Forall digit l → l ≠ [] → Forall digit f → (length f ≤ 9)%nat → unitText u unit → follows s →
  unit = g * 10 ^ Z.of_nat (length f) → 0 < unit ≤ Hour → value l * unit + value f * g ≤ 2 ^ 63 →
  parseTerm (text l +:+ fracText f +:+ u +:+ s) = Some (value l * unit + value f * g, s).
Proof.
  intros Hl Hne Hf Hflen (Hu & Hune & Htake & Hhead) Hs Eg Hunit Hb.
  pose proof (value_bound l Hl) as Hvl. pose proof (value_bound f Hf) as Hvf.
  assert (Hp : 0 < 10 ^ Z.of_nat (length f)) by (apply Z.pow_pos_nonneg; lia).
  assert (Hg : 0 < g) by nia. assert (HH : Hour < 2 ^ 53) by done.
  assert (Hvu : value l * unit ≤ 2 ^ 63) by nia.
  set (tail := fracText f +:+ u +:+ s).
  assert (Hstop : stops tail).
  { unfold tail. destruct f as [|d f]; [|done]. specialize (Hhead s). simpl fracText. change ("" +:+ u +:+ s) with (u +:+ s).
    unfold stops. destruct (u +:+ s); [done|]. by destruct Hhead. }
  assert (Hint : leadingInt (text l +:+ tail) 0 = Some (value l, tail)).
  { apply leadingInt_text; [done|done|lia|]. fold (value l). nia. }
  assert (Hpre : bool_decide (String.length tail = String.length (text l +:+ tail)) = false).
  { apply bool_decide_eq_false. rewrite app_length_eq, text_length. destruct l; [done|]. simpl. lia. }
  destruct (parseFraction_text f u unit s Hf Hflen (conj Hu (conj Hune (conj Htake Hhead)))) as [post Hfrac].
  fold tail in Hfrac. fold tail. revert Hint Hpre. set (whole := text l +:+ tail). intros Hint Hpre.
  assert (Hhd : match whole with String c _ => isDigit c = true | EmptyString => False end).
  { unfold whole. destruct Hl; [done|]. by apply isDigit_digit. }
  unfold parseTerm. destruct whole as [|c w]; [done|]. simpl String.length in Hpre. rewrite Hhd, orb_true_r. simpl negb. cbv iota.
  rewrite Hint. cbn [mbind option_bind]. rewrite Hpre, Hfrac, (Htake s Hs), (bool_decide_eq_false_2 _ Hune), Hu.
  simpl andb. cbv beta iota zeta. cbn [mbind option_bind].
  rewrite (proj2 (Z.ltb_ge _ _)) by (apply Z.div_le_lower_bound; lia).
  assert (Hterm : (if 0 <? value f then value l * unit + f64_trunc (f64_mul (f64_of (value f))
    (f64_div (f64_of unit) (f64_of (10 ^ Z.of_nat (length f))))) else value l * unit) = value l * unit + value f * g).
  { destruct (0 <? value f) eqn:E; [|lia]. f_equal. apply scaled_fraction; lia. }
  rewrite Hterm. by rewrite (proj2 (Z.ltb_ge _ _)) by lia.
Qed.

Lemma unitText_intro u unit :
  unitOf u = Some unit → u ≠ "" →
  Forall (λ c, isDigit c = false ∧ byteZ c ≠ 46) (String.list_ascii_of_string u) → unitText u unit.
Proof.
  intros Hu Hne Hc. split_and!; [done|done| |].
  - intros s Hs. clear Hu Hne. revert Hc. induction u as [|c u IH]; intros Hc; [by apply takeUnit_follows|].
    change (String c u +:+ s) with (String c (u +:+ s)). apply Forall_cons in Hc as [[Hd Hp] Hc]. cbn [takeUnit].
    rewrite Hd, (proj2 (Z.eqb_neq _ _) Hp). simpl orb. cbv iota. by rewrite (IH Hc).
  - intros s. destruct u as [|c u]; [done|]. by apply Forall_cons in Hc as [? _].
Qed.

(** A text that reads as one term of value [v] whatever follows. *)
Record Term (s : string) (v : Z) : Prop := {
  term_parse rest : follows rest → parseTerm (s +:+ rest) = Some (v, rest);
  term_head rest : match s +:+ rest with String c _ => isDigit c = true | EmptyString => False end;
  term_nonneg : 0 ≤ v
}.

Lemma Term_intro n frac f k u unit :
  0 ≤ n → frac = fracText f → Forall digit f → (length f ≤ 9)%nat → unitText u unit →
  unit = 10 ^ Z.of_nat k * 10 ^ Z.of_nat (length f) → unit ≤ Hour → n * unit + value f * 10 ^ Z.of_nat k ≤ 2 ^ 63 →
  Term (fmt_d n +:+ frac +:+ u) (n * unit + value f * 10 ^ Z.of_nat k).
Proof.
  intros Hn -> Hf Hlen Hu Eunit Hunit Hb. destruct (fmt_d_text n Hn) as (l & Hl & -> & <- & Hne).
  assert (0 < 10 ^ Z.of_nat k) by (apply Z.pow_pos_nonneg; lia).
  assert (0 < 10 ^ Z.of_nat (length f)) by (apply Z.pow_pos_nonneg; lia).
  pose proof (value_bound f Hf). split.
  - intros rest Hr. rewrite !app_string_assoc. apply (parseTerm_text _ _ _ unit); try done. nia.
  - intros rest. destruct Hl as [|d l Hd Hl]; [done|]. by apply isDigit_digit.
  - nia.
Qed.

(** A whole number with a unit. *)
Lemma Term_whole n u unit : 0 ≤ n → unitText u unit → 0 < unit ≤ Hour → n * unit ≤ 2 ^ 63 → Term (fmt_d n +:+ u) (n * unit).
Proof.
  intros Hn Hu Hunit Hb. destruct (fmt_d_text n Hn) as (l & Hl & -> & <- & Hne). pose proof (value_bound l Hl). split.
  - intros rest Hr. rewrite app_string_assoc. change (u +:+ rest) with (fracText [] +:+ u +:+ rest).
    rewrite (parseTerm_text l [] u unit unit rest); try done.
    + f_equal. f_equal. unfold value at 2. simpl. lia.
    + simpl. lia.
    + simpl. lia.
    + unfold value at 2. simpl. lia.
  - intros rest. destruct Hl as [|d l Hd Hl]; [done|]. by apply isDigit_digit.
  - nia.
Qed.

Definition joined (ts : list (string * Z)) : string := foldr (λ t s, t.1 +:+ s) "" ts.
Definition total (ts : list (string * Z)) : Z := foldr (λ t x, t.2 + x) 0 ts.

Lemma joined_follows ts : Forall (λ t, Term t.1 t.2) ts → follows (joined ts).
Proof. intros [|[s v] ts' Ht _]; [done|]. pose proof (term_head _ _ Ht (joined ts')) as Hh. simpl in *. unfold follows. by destruct (s +:+ joined ts'). Qed.

Lemma total_nonneg ts : Forall (λ t, Term t.1 t.2) ts → 0 ≤ total ts.
Proof. induction 1 as [|[s v] ts Ht _ IH]; simpl; [lia|]. pose proof (term_nonneg _ _ Ht). simpl in *. lia. Qed.

Lemma parseTerms_joined ts n d :
  Forall (λ t, Term t.1 t.2) ts → (String.length (joined ts) ≤ n)%nat → d + total ts ≤ 2 ^ 63 →
  parseTerms n (joined ts) d = Some (d + total ts).
Proof.
  intros Hts. revert n d. induction Hts as [|[s v] ts Ht Hts IH]; intros n d Hn Hd; cbn [joined foldr total] in *.
  { destruct n; simpl; by rewrite Z.add_0_r. }
  fold (joined ts) in *. fold (total ts) in *. simpl fst in *. simpl snd in *.
  pose proof (term_parse _ _ Ht _ (joined_follows ts Hts)) as Hp. pose proof (term_head _ _ Ht (joined ts)) as Hh.
  pose proof (term_nonneg _ _ Ht). pose proof (total_nonneg ts Hts). pose proof (app_length_eq s (joined ts)) as Hlen.
  assert (Hs : (0 < String.length s)%nat).
  { pose proof (term_head _ _ Ht "") as Hh'. rewrite str_app_nil in Hh'. destruct s; [done|]. simpl. lia. }
  destruct (s +:+ joined ts) as [|c t] eqn:Est; [done|]. destruct n as [|n]; [simpl in Hn; lia|]. cbn [parseTerms].
  rewrite Hp. cbn [mbind option_bind]. rewrite (proj2 (Z.ltb_ge _ _)) by lia.
  rewrite IH; [f_equal; lia|lia|lia].
Qed.

(** ** The round trip *)

Lemma unit_ns : unitText "ns" Nanosecond.
Proof. apply unitText_intro; [done|done|]. repeat constructor; vm_compute; discriminate. Qed.
Lemma unit_us : unitText "µs" Microsecond.
Proof. apply unitText_intro; [done|done|]. repeat constructor; vm_compute; discriminate. Qed.
Lemma unit_ms : unitText "ms" Millisecond.
Proof. apply unitText_intro; [done|done|]. repeat constructor; vm_compute; discriminate. Qed.
Lemma unit_s : unitText "s" Second.
Proof. apply unitText_intro; [done|done|]. repeat constructor; vm_compute; discriminate. Qed.
Lemma unit_m : unitText "m" Minute.
Proof. apply unitText_intro; [done|done|]. repeat constructor; vm_compute; discriminate. Qed.
Lemma unit_h : unitText "h" Hour.
Proof. apply unitText_intro; [done|done|]. repeat constructor; vm_compute; discriminate. Qed.

(** A number with a fraction of [prec] digits and its unit. *)
Lemma Term_fraction (prec : nat) u n unit frac v :
  (prec ≤ 9)%nat → 0 ≤ n → 0 ≤ v → unitText u unit → unit = 10 ^ Z.of_nat prec → fst (fmtFrac prec v false "") = frac →
  n * unit + v mod unit ≤ 2 ^ 63 → Term (fmt_d n +:+ frac +:+ u) (n * unit + v mod unit).
Proof.
  intros Hp Hn Hv Hu Eu Ef Hb. destruct (fmtFrac_split prec v Hv) as (f & k & Hf & Hlen & E & Hval).
  rewrite E in Ef. simpl in Ef. subst frac. rewrite <-Eu in Hval. rewrite <-Hval in *. apply (Term_intro n _ f k); try done.
  - lia.
  - rewrite Eu, <-Z.pow_add_r by lia. f_equal. lia.
  - rewrite Eu. transitivity (10 ^ 9); [apply Z.pow_le_mono_r; lia|done].
Qed.

(** A text that is a list of terms of total value [u]. *)
Definition Reads (s : string) (u : Z) : Prop :=
  ∃ ts, s = joined ts ∧ Forall (λ t, Term t.1 t.2) ts ∧ total ts = u ∧ ts ≠ [].

Lemma Reads_term s v : Term s v → Reads s v.
Proof.
  intros Ht. exists [(s, v)]. split_and!; [simpl; by rewrite str_app_nil|by constructor|simpl; lia|done].
Qed.
Lemma Reads_cons s v t w : Term s v → Reads t w → Reads (s +:+ t) (v + w).
Proof. intros Ht (ts & -> & Hts & <- & _). exists ((s, v) :: ts). split_and!; [done|by constructor|done|done]. Qed.

(** Below a second: a number with a fraction of [prec] digits. *)
Lemma Reads_fraction (prec : nat) u ut unit :
  (prec ≤ 9)%nat → 0 ≤ u ≤ 2 ^ 63 → unitText ut unit → unit = 10 ^ Z.of_nat prec →
  Reads (let '(frac, v) := fmtFrac prec u false "" in fmt_d v +:+ frac +:+ ut) u.
Proof.
  intros Hp Hu Hut Eu. destruct (fmtFrac_split prec u ltac:(lia)) as (f & k & _ & _ & E & _).
  assert (0 < unit) by (rewrite Eu; apply Z.pow_pos_nonneg; lia). pose proof (Z.div_mod u unit ltac:(lia)) as Hdm.
  rewrite E, <-Eu. apply Reads_term. replace u with (u / unit * unit + u mod unit) at 2 by lia.
  apply (Term_fraction prec); try done; try lia; [apply Z.div_pos; lia|by rewrite E].
Qed.

Lemma absText_reads u : 0 < u ≤ 2 ^ 63 → Reads (absText u) u.
Proof.
  intros Hu. unfold absText. destruct (u <? Second) eqn:E9.
  { rewrite (proj2 (Z.eqb_neq u 0)) by lia. destruct (u <? Microsecond); [|destruct (u <? Millisecond)].
    - rewrite <-(Z.mul_1_r u) at 2. apply Reads_term, Term_whole; [lia|apply unit_ns|done|lia].
    - by apply (Reads_fraction 3 _ _ Microsecond); [lia|lia|apply unit_us|].
    - by apply (Reads_fraction 6 _ _ Millisecond); [lia|lia|apply unit_ms|]. }
  destruct (fmtFrac_split 9 u ltac:(lia)) as (f & k & _ & _ & E & _). rewrite E. change (10 ^ Z.of_nat 9) with Second. cbv zeta.
  set (secs := u / Second). set (mins := secs / 60). set (hours := mins / 60).
  pose proof (Z.div_mod u Second ltac:(done)) as Du. pose proof (Z.mod_pos_bound u Second ltac:(done)).
  pose proof (Z.div_mod secs 60 ltac:(done)) as Ds. pose proof (Z.mod_pos_bound secs 60 ltac:(done)).
  pose proof (Z.div_mod mins 60 ltac:(done)) as Dm. pose proof (Z.mod_pos_bound mins 60 ltac:(done)).
  fold secs in Du. fold mins in Ds. fold hours in Dm.
  assert (0 ≤ secs) by (apply Z.div_pos; unfold Second; lia).
  assert (0 ≤ mins) by (apply Z.div_pos; lia). assert (0 ≤ hours) by (apply Z.div_pos; lia).
  assert (Hs : Reads (fmt_d (secs mod 60) +:+ fracText f +:+ "s") (secs mod 60 * Second + u mod Second)).
  { apply Reads_term, (Term_fraction 9); try done; try lia; [apply unit_s|by rewrite E|unfold Second in *; lia]. }
  destruct (0 <? mins) eqn:Em.
  2: { change ("" +:+ ?t) with t. replace (secs mod 60 * Second + u mod Second) with u in Hs; [done|]. unfold Second in *. lia. }
  assert (Hm : Reads ((fmt_d (mins mod 60) +:+ "m") +:+ fmt_d (secs mod 60) +:+ fracText f +:+ "s")
    (mins mod 60 * Minute + (secs mod 60 * Second + u mod Second))).
  { apply Reads_cons; [|done]. apply Term_whole; [lia|apply unit_m|done|unfold Minute, Second in *; lia]. }
  destruct (0 <? hours) eqn:Eh.
  - assert (Hh : Reads ((fmt_d hours +:+ "h") +:+ (fmt_d (mins mod 60) +:+ "m") +:+ fmt_d (secs mod 60) +:+ fracText f +:+ "s")
      (hours * Hour + (mins mod 60 * Minute + (secs mod 60 * Second + u mod Second)))).
    { apply Reads_cons; [|done]. apply Term_whole; [lia|apply unit_h|done|unfold Hour, Minute, Second in *; lia]. }
    replace (hours * Hour + _) with u in Hh by (unfold Hour, Minute, Second in *; lia). by rewrite !app_string_assoc in *.
  - change ("" +:+ ?t) with t. by replace (mins mod 60 * Minute + _) with u in Hm by (unfold Minute, Second in *; lia).
Qed.

(** A text of terms starts with a digit and goes on after it. *)
Lemma Reads_head s u : Reads s u → match s with String c t => isDigit c = true ∧ t ≠ "" | EmptyString => False end.
Proof.
  intros ([|[s' v] ts] & -> & Hts & _ & Hne); [done|]. apply Forall_cons in Hts as [Ht Hts].
  pose proof (term_head _ _ Ht (joined ts)) as Hh. pose proof (term_parse _ _ Ht _ (joined_follows ts Hts)) as Hp. simpl in *.
  destruct (s' +:+ joined ts) as [|c t]; [done|]. split; [done|]. intros ->.
  unfold parseTerm in Hp. rewrite Hh, orb_true_r in Hp. simpl negb in Hp. cbv iota in Hp.
  cbn [leadingInt] in Hp. rewrite Hh in Hp. simpl negb in Hp. cbv iota zeta in Hp.
  by destruct (2 ^ 63 / 10 <? 0), (2 ^ 63 <? 0 * 10 + (byteZ c - 48)).
Qed.

Lemma ParseDuration_reads s u (neg : bool) : Reads s u → u ≤ 2 ^ 63 →
  ParseDuration (if neg then "-" +:+ s else s) = (if neg then Some (int64 (- u)) else if 2 ^ 63 - 1 <? u then None else Some u).
Proof.
  intros Hr Hu. pose proof (Reads_head s u Hr) as Hh. destruct Hr as (ts & Es & Hts & <- & _).
  assert (Hp : parseTerms (String.length s) s 0 = Some (total ts)).
  { rewrite Es. rewrite (parseTerms_joined _ _ 0 Hts); [done|done|by rewrite Z.add_0_l]. }
  clear Es. unfold ParseDuration. destruct s as [|c t]; [done|]. destruct Hh as [Hd Ht].
  assert (E0 : bool_decide (String c t = "0") = false) by (apply bool_decide_eq_false; intros E; by injection E as _ ->).
  assert (E1 : bool_decide (String c t = "") = false) by (by apply bool_decide_eq_false).
  destruct neg.
  - change ("-" +:+ String c t) with (String (chr 45) (String c t)). cbv match zeta.
    change (byteZ (chr 45) =? 45) with true. cbv match zeta. by rewrite E0, E1, Hp.
  - unfold isDigit in Hd. rewrite (proj2 (Z.eqb_neq (byteZ c) 45)), (proj2 (Z.eqb_neq (byteZ c) 43)) by lia.
    by rewrite E0, E1, Hp.
Qed.

(** A duration survives its textual form: parsing what [Duration.String] prints
    gives the same duration back, for every 64-bit number of nanoseconds, fractions,
    negative durations and the smallest one included. *)
Lemma ParseDuration_String d : minInt64 ≤ d ≤ maxInt64 → ParseDuration (Duration_String d) = Some d.
Proof.
  intros Hd. unfold minInt64, maxInt64 in Hd. destruct (decide (d = 0)) as [->|Hne]; [vm_compute; reflexivity|].
  pose proof (absText_reads (Z.abs d) ltac:(lia)) as Hr. unfold Duration_String.
  pose proof (ParseDuration_reads _ _ (d <? 0) Hr ltac:(lia)) as Hp. destruct (d <? 0) eqn:Es; rewrite Hp.
  - f_equal. replace (- Z.abs d) with d by lia. unfold int64, wrapS. rewrite Z.mod_small; lia.
  - rewrite (proj2 (Z.ltb_ge _ _)) by lia. f_equal. lia.
Qed.
