(* ===== verification/Numbers.v ===== *)
(** * Numbers and booleans as text (strconv)

    [Atoi], [ParseInt] with base 0 and [ParseBool] as the sources use them, through
    the flag package and the continue tokens of the pager.  An error is [None]. *)
From S2P Require Import Prelude GoText Durations DurationProps.

Local Open Scope Z_scope.

(** ** Parsing *)

Definition lower (b : Z) : Z := Z.lor b 32.

Definition digitVal (c : Ascii.ascii) : option Z :=
  let b := byteZ c in
  if (48 <=? b) && (b <=? 57) then Some (b - 48)
  else if (97 <=? lower b) && (lower b <=? 122) then Some (lower b - 97 + 10)
  else None.

(** The loop of [ParseUint], without its overflow checks: the caller checks the
    range of the unbounded result. *)
Fixpoint parseDigits (base : Z) (base0 : bool) (s : string) (n : Z) : option Z :=
  match s with
  | EmptyString => Some n
  | String c s' =>
      if base0 && (byteZ c =? 95) then parseDigits base base0 s' n
      else match digitVal c with
           | Some d => if d <? base then parseDigits base base0 s' (n * base + d) else None
           | None => None
           end
  end.

(** [underscoreOK] after the prefix; [saw] is the class of the last character. *)
Inductive sawClass := SawStart | SawDigit | SawUnderscore | SawOther.
Fixpoint underscoresOK (hex : bool) (saw : sawClass) (s : string) : bool :=
  match s with
  | EmptyString => match saw with SawUnderscore => false | _ => true end
  | String c s' =>
      let b := byteZ c in
      if (48 <=? b) && (b <=? 57) || hex && (97 <=? lower b) && (lower b <=? 102) then underscoresOK hex SawDigit s'
      else if b =? 95 then match saw with SawDigit => underscoresOK hex SawUnderscore s' | _ => false end
      else match saw with SawUnderscore => false | _ => underscoresOK hex SawOther s' end
  end.
Fixpoint hasUnderscore (s : string) : bool :=
  match s with EmptyString => false | String c s' => (byteZ c =? 95) || hasUnderscore s' end.

(** [ParseUint(s, 0, 64)]: the base from the prefix. *)
Definition parseUint0 (s : string) : option Z :=
  let checked (base : Z) (rest : string) (saw : sawClass) (proper : string) : option Z :=
    if hasUnderscore rest && negb (underscoresOK (base =? 16) saw proper) then None else parseDigits base true rest 0 in
  match s with
  | EmptyString => None
  | String c0 s1 =>
      if byteZ c0 =? 48 then
        match s1 with
        | String c1 s2 =>
            let b := lower (byteZ c1) in
            if bool_decide (s2 ≠ "") && (b =? 98) then checked 2 s2 SawDigit s2
            else if bool_decide (s2 ≠ "") && (b =? 111) then checked 8 s2 SawDigit s2
            else if bool_decide (s2 ≠ "") && (b =? 120) then checked 16 s2 SawDigit s2
            else checked 8 s1 SawStart s
        | EmptyString => Some 0
        end
      else checked 10 s SawStart s
  end.

(** [ParseUint(s, 10, 64)] *)
Definition parseUint10 (s : string) : option Z :=
  if bool_decide (s = "") then None else parseDigits 10 false s 0.

(** The sign and the range of [ParseInt] with 64 bits. *)
Definition parseSigned (unsigned : string → option Z) (s : string) : option Z :=
  let '(neg, body) :=
    match s with
    | String c s' => if byteZ c =? 45 then (true, s') else if byteZ c =? 43 then (false, s') else (false, s)
    | EmptyString => (false, s)
    end in
  match unsigned body with
  | None => None
  | Some n =>
      let v := if neg : bool then - n else n in
      if (minInt64 <=? v) && (v <=? maxInt64) then Some v else None
  end.

Definition Atoi : string → option Z := parseSigned parseUint10.
Definition ParseInt0 : string → option Z := parseSigned parseUint0.

Definition ParseBool (s : string) : option bool :=
  if decide (s ∈ ["1"; "t"; "T"; "TRUE"; "true"; "True"]) then Some true
  else if decide (s ∈ ["0"; "f"; "F"; "FALSE"; "false"; "False"]) then Some false
  else None.

(** Values checked against the strconv tests. *)
Example parse_examples :
  (Atoi <$> ["0"; "-0"; "+7"; "12345"; "012345"; "-98765432100"; "9223372036854775808"; "12345x"; "1_2"; ""; "-"]) =
    [Some 0; Some 0; Some 7; Some 12345; Some 12345; Some (-98765432100); None; None; None; None; None] ∧
  (ParseInt0 <$> ["0"; "0377"; "0x12ab"; "-0xdeadbeef"; "0b101"; "0o17"; "1_000"; "1__0"; "_1"; "0x_1"; "0_7"; "08"; "0x"]) =
    [Some 0; Some 255; Some 4779; Some (-3735928559); Some 5; Some 15; Some 1000; None; None; Some 1; Some 7; None; None].
Proof. split; vm_compute; reflexivity. Qed.

(** ** What [fmt_d] prints is read back *)

Lemma digitVal_digit d : digit d → digitVal (chr (48 + d)) = Some d.
Proof. intros Hd. unfold digitVal. rewrite (byteZ_digit d Hd). unfold digit in Hd. rewrite (proj2 (andb_true_iff _ _)) by lia. f_equal. lia. Qed.

Lemma parseDigits_text base0 l x : Forall digit l → parseDigits 10 base0 (text l) x = Some (foldl step x l).
Proof.
  intros Hl. revert x. induction Hl as [|d l Hd _ IH]; intros x; [done|]. cbn [text parseDigits].
  rewrite (digitVal_digit d Hd), (byteZ_digit d Hd). unfold digit in Hd. rewrite (proj2 (Z.eqb_neq _ 95)), andb_false_r by lia.
  rewrite (proj2 (Z.ltb_lt _ _)) by lia. apply IH.
Qed.
Lemma hasUnderscore_text l : Forall digit l → hasUnderscore (text l) = false.
Proof.
  induction 1 as [|d l Hd _ IH]; [done|]. cbn [text hasUnderscore]. rewrite (byteZ_digit d Hd), IH. unfold digit in Hd.
  by rewrite (proj2 (Z.eqb_neq _ 95)) by lia.
Qed.

Lemma parseUint10_fmt v : 0 ≤ v → parseUint10 (fmt_d v) = Some v.
Proof.
  intros (l & Hl & -> & Hv & Hne)%fmt_d_text. unfold parseUint10. rewrite bool_decide_eq_false_2 by (by destruct l).
  rewrite (parseDigits_text _ _ _ Hl). unfold value in Hv. by rewrite Hv.
Qed.
Lemma parseUint0_fmt v : 0 ≤ v → parseUint0 (fmt_d v) = Some v.
Proof.
  intros Hv. destruct (decide (v = 0)) as [->|Hne]; [done|].
  destruct (fmt_d_lead v ltac:(lia)) as (d & l & Hl & Hd & -> & Ev). inversion Hl as [|? ? Hd9 Hl']; subst. unfold parseUint0. cbn [text].
  rewrite (byteZ_digit d Hd9), (proj2 (Z.eqb_neq _ 48)) by lia. change (String (chr (48 + d)) (text l)) with (text (d :: l)).
  rewrite (hasUnderscore_text _ Hl). simpl andb. cbv iota. by rewrite (parseDigits_text _ _ _ Hl).
Qed.

Lemma parseSigned_fmt unsigned v :
  (∀ v, 0 ≤ v → unsigned (fmt_d v) = Some v) → minInt64 ≤ v ≤ maxInt64 → parseSigned unsigned (fmt_d v) = Some v.
Proof.
  intros Hu Hv. unfold parseSigned. destruct (decide (0 ≤ v)) as [Hp|Hn].
  - pose proof (Hu v Hp) as E. destruct (fmt_d_text v Hp) as (l & Hl & Et & _ & Hne). rewrite Et in *.
    destruct l as [|d l]; [done|]. inversion Hl as [|? ? Hd _]; subst. cbn [text] in *. rewrite (byteZ_digit d Hd). unfold digit in Hd.
    rewrite (proj2 (Z.eqb_neq _ 45)), (proj2 (Z.eqb_neq _ 43)) by lia. rewrite E. by rewrite (proj2 (andb_true_iff _ _)) by lia.
  - pose proof (Hu (- v) ltac:(lia)) as E. destruct v as [|p|p]; [lia|lia|].
    change (fmt_d (Z.neg p)) with (String (chr 45) (fmt_d (Z.pos p))). cbv match. change (byteZ (chr 45) =? 45) with true.
    change (- Z.neg p) with (Z.pos p) in E. cbv match. rewrite E. cbv match zeta. change (- Z.pos p) with (Z.neg p).
    rewrite (proj2 (Z.leb_le _ _)), (proj2 (Z.leb_le _ _)) by apply Hv. done.
Qed.

Lemma Atoi_fmt v : minInt64 ≤ v ≤ maxInt64 → Atoi (fmt_d v) = Some v.
Proof. apply parseSigned_fmt, parseUint10_fmt. Qed.
Lemma ParseInt0_fmt v : minInt64 ≤ v ≤ maxInt64 → ParseInt0 (fmt_d v) = Some v.
Proof. apply parseSigned_fmt, parseUint0_fmt. Qed.
Lemma ParseBool_fmt b : ParseBool (fmt_t b) = Some b.
Proof. by destruct b. Qed.
