(* ===== verification/Scanner.v ===== *)
(** * The scanner: targets and policies (internal/scanner/scanner.go)

    The environment of a scan cycle and the stages that read it: compiling the
    policies (with the compile cache), the namespace label inventory, the scan
    scope, listing targets within the shared budget, and the evidence snapshot.

    Workers run concurrently in the source.  They share only the target budget and
    the API, so each worker's calls are modelled one worker after the other, with
    every answer of the API and of the budget arbitrary ([SReserve]; the budget
    itself is [reserve] below), the order in which results arrive given by the
    environment ([SOrder]) and the number of jobs handed out before a cancelled
    context stops the producer as well ([SDispatched]).  [SOrder] also gives the
    iteration order of Go maps where the source ranges over one. *)
From S2P Require Import Prelude GoText ApiTypes Discovery Policy GoErrors Prog KubeTypes Collector Analyzers Diagnosis Durations.

Local Open Scope prog_scope.

Definition observationRefresh : Duration := (5 * Minute)%Z.
Definition retentionAnnotation : string := "safety.exitguard.io/resolved-incident-ttl".

(** [Config] *)
Record Config := mkConfig {
  cfg_Interval : Duration;
  cfg_Timeout : Duration;
  cfg_ResourceWorkers : Z;
  cfg_DiagnosisWorkers : Z;
  cfg_PageSize : Z;
  cfg_MaxTargets : Z
}.

(** ** Environment *)

Inductive sev :=
  | SLastResult
  | SSnapshot
  | SListPolicies
  | SGetPolicy (name : string)
  | SUpdatePolicyStatus (policy : TerminationPolicy)
  | SListMeta (gvr : GroupVersionResource) (limit : Z) (continue : string)
  | SListIncidents
  | SGetIncident (name : string)
  | SCreateIncident (incident : DeletionIncident)
  | SPatchIncident (base current : DeletionIncident)
  | SUpdateIncident (incident : DeletionIncident)
  | SDeleteIncident (incident : DeletionIncident)
  | SListAPIServices
  | SListMutatingWebhooks
  | SListValidatingWebhooks
  | SGetCRD (name : string)
  | SGetService (key : NamespacedName)
  | SListEndpointSlices (namespace name : string)
  | SGetDeployment (key : NamespacedName)
  | SGetStatefulSet (key : NamespacedName)
  | SGetDaemonSet (key : NamespacedName)
  | SReserve (uid : UID)
  | SDiagnosis (e : dev)
  | SCtxErr
  | SOrder (n : nat)
  | SDispatched (n : nat)
  | SMetric (name label : string) (value : Z)
  | SDiverge
  | SPanic.

Definition sresp (e : sev) : Type :=
  match e with
  (** the time of the last success, if the catalog reports one *)
  | SLastResult => option Time
  | SSnapshot => Snapshot
  | SListPolicies => ExternalError + list TerminationPolicy
  | SGetPolicy _ => ExternalError + TerminationPolicy
  | SUpdatePolicyStatus _ | SCreateIncident _ | SDeleteIncident _ => option ExternalError
  | SListMeta _ _ _ => ExternalError + MetadataList
  | SListIncidents => ExternalError + list DeletionIncident
  | SGetIncident _ => ExternalError + DeletionIncident
  (** a patch or an update returns the object as the server stored it *)
  | SPatchIncident _ _ | SUpdateIncident _ => ExternalError + DeletionIncident
  | SListAPIServices => ExternalError + list APIService
  | SListMutatingWebhooks | SListValidatingWebhooks => ExternalError + list WebhookConfiguration
  | SGetCRD _ => ExternalError + CustomResourceDefinition
  | SGetService _ => ExternalError + ObjectMeta
  | SListEndpointSlices _ _ => ExternalError + list EndpointSlice
  | SGetDeployment _ | SGetStatefulSet _ => ExternalError + Workload
  | SGetDaemonSet _ => ExternalError + DaemonSet
  | SReserve _ => bool
  | SDiagnosis e => dresp e
  | SCtxErr => bool
  | SOrder _ => list nat
  | SDispatched _ => nat
  | SMetric _ _ _ => unit
  | SDiverge | SPanic => Empty_set
  end%type.

Abbreviation SP := (prog sresp).

Definition sdiverge {A} : SP A := Do SDiverge (λ r : sresp SDiverge, match r with end).
Definition spanic {A} : SP A := Do SPanic (λ r : sresp SPanic, match r with end).

(** A diagnosis runs inside a scan. *)
Fixpoint diagnosisProg {A} (p : prog dresp A) : SP A :=
  match p with
  | Ret a => Ret a
  | Do e k => Do (SDiagnosis e : sev) (λ r : sresp (SDiagnosis e), diagnosisProg (k r))
  end.

(** [errors.Join] onto an accumulated error. *)
Definition joinTo (err : option error) (e : option error) : option error :=
  match e with None => err | Some _ => errors_Join [err; e] end.

(** A list in an order the environment chooses. *)
Definition arrange {A} (order : list nat) (l : list A) : list A :=
  if decide (order ≡ₚ seq 0 (length l)) then omap (λ i, l !! i) order else l.
Definition inSomeOrder {A} (l : list A) : SP (list A) :=
  order ← call (SOrder (length l)); mret (arrange (order : list nat) l).

(** More functions of k8s.io/apimachinery: classifications of
    pkg/api/errors and [types.NamespacedName.String]. *)
Class ScannerLibs := {
  NamespacedName_String : NamespacedName → string;
  IsRequestEntityTooLargeError : error → bool;
  IsForbidden : error → bool;
  IsMethodNotSupported : error → bool
}.

(** [retry.RetryOnConflict] of client-go given a closure that keeps captured
    variables [V] between its calls and leaves them behind; documented as for
    [RetryOnConflict]. *)
Fixpoint retryClosure {V : Type} `{ApiErrors} (n : nat) (v : V) (fn : V → SP (V * option error))
    : SP (V * option error) :=
  '(v', err) ← fn v;
  match n with
  | O => mret (v', err)
  | S n' => if errIs IsConflict err then retryClosure n' v' fn else mret (v', err)
  end.
Class RetryClosures := {
  RetryClosure : ∀ {V : Type}, V → (V → SP (V * option error)) → SP (V * option error)
}.
Class RetryClosureLaws `{ApiErrors, !RetryClosures} : Prop := {
  RetryClosure_retries : ∃ n, ∀ (V : Type) (v : V) fn, RetryClosure v fn = retryClosure n v fn
}.

(** ** Pure helpers *)

Definition incidentName (uid : UID) : string := "deletion-" +:+ uid.
Definition objectIdentity (namespace name : string) : string := namespace +:+ String (chr 0) name.
Definition policyUID (ref : option PolicyReference) : UID :=
  match ref with None => "" | Some r => pr_UID r end.

(** The condition of a type: the last one listed. *)
Definition conditionsByType (current : list Condition) : gmap string Condition :=
  foldl (λ m c, <[c_Type c := c]> m) ∅ current.
Definition with_transition (c : Condition) (t : Time) : Condition :=
  mkCondition (c_Type c) (c_Status c) (c_ObservedGeneration c) t (c_Reason c) (c_Message c).
Definition preserveConditionTransitions (current desired : list Condition) : list Condition :=
  let byType := conditionsByType current in
  (λ d, match byType !! c_Type d with
        | Some previous =>
            if bool_decide (c_Status previous = c_Status d)
            then with_transition d (c_LastTransitionTime previous) else d
        | None => d
        end) <$> desired.

Definition diagnosisConditions (result : DiagnosisResult) (now : Time) : list Condition :=
  let '(visibleStatus, visibleReason) :=
    if negb (res_TargetFound result) then (ConditionFalse, "TargetAbsent")
    else if negb (res_UIDMatches result) then (ConditionFalse, "TargetReplaced")
    else (ConditionTrue, "TargetObserved") in
  let '(completeStatus, completeReason) :=
    if negb (res_DiagnosisComplete result) then (ConditionFalse, "DiagnosisIncomplete")
    else (ConditionTrue, "DiagnosisComplete") in
  [mkCondition "DiagnosisComplete" completeStatus 0 now completeReason "";
   mkCondition "TargetVisible" visibleStatus 0 now visibleReason ""].

(** ** The target budget *)

Record targetBudget := mkTargetBudget { tb_maximum : Z; tb_reserved : gset UID }.

Definition reserve (b : targetBudget) (uid : UID) : bool * targetBudget :=
  if bool_decide (uid ∈ tb_reserved b) then (true, b)
  else if bool_decide (tb_maximum b ≤ Z.of_nat (size (tb_reserved b)))%Z then (false, b)
  else (true, mkTargetBudget (tb_maximum b) ({[uid]} ∪ tb_reserved b)).

(** ** Compiled policies *)

Definition policyCompileCacheKey : Type := UID * string.
Record policyCompileCacheEntry := mkCacheEntry {
  ce_generation : Z;
  ce_spec : TerminationPolicySpec;
  ce_compiled : CompiledPolicy;
  ce_status : TerminationPolicyStatus
}.
Record compiledPolicies := mkCompiledPolicies {
  cp_items : list CompiledPolicy;
  cp_byUID : gmap UID CompiledPolicy
}.

Definition selectWinning (p : compiledPolicies) (target : Target) : option CompiledPolicy :=
  find (λ candidate, Match (Some candidate) target) (cp_items p).

(** The order of [compilePolicies]: priority first, then name. *)
Definition policyLess (a b : CompiledPolicy) : bool :=
  if negb (bool_decide (p_priority a = p_priority b)) then bool_decide (p_priority b < p_priority a)%Z
  else str_lt (p_name a) (p_name b).

(** The parts of the runner that cycles share. *)
Record runnerState := mkRunnerState {
  rs_policyCatalog : list Resource;
  rs_policyCompileCache : gmap policyCompileCacheKey policyCompileCacheEntry
}.

Definition zero_ObjectMeta : ObjectMeta := mkObjectMeta "" "" "" "" 0 0 None None ∅ ∅ [] [].
Definition zero_TerminationPolicy : TerminationPolicy :=
  mkTerminationPolicy zero_ObjectMeta
    (mkTerminationPolicySpec 0 [] 0 (mkDiagnosisPolicy false false 0 0) [] (mkRemediationPolicy "" [] false 0)
       (mkRetentionPolicy 0))
    (mkTerminationPolicyStatus 0 [] None 0).

Definition with_conditions (st : TerminationPolicyStatus) (cs : list Condition) : TerminationPolicyStatus :=
  mkTerminationPolicyStatus (tpst_ObservedGeneration st) cs (tpst_LastValidatedTime st)
    (tpst_ResolvedResourceCount st).

(** The status of a cached compilation, validated again now. *)
Definition revalidated (st : TerminationPolicyStatus) (now : Time) : TerminationPolicyStatus :=
  mkTerminationPolicyStatus (tpst_ObservedGeneration st) ((λ c, with_transition c now) <$> tpst_Conditions st)
    (Some now) (tpst_ResolvedResourceCount st).

Global Instance Version_eq_dec : EqDecision Version.
Proof. solve_decision. Defined.
Global Instance Resource_eq_dec : EqDecision Resource.
Proof. solve_decision. Defined.

Definition namespacesGVR : GroupVersionResource := mkGVR "" "v1" "namespaces".

(** The error of [listResourceVersion]: the sentinel [errTargetBound], or one of
    the API. *)
Inductive listError := ErrTargetBound | ErrListing (err : error).
Definition listError_error (e : listError) : error :=
  match e with ErrTargetBound => ErrNew "scan target bound exceeded" | ErrListing err => err end.

Record trackedTargets := mkTracked { tt_uids : gset UID; tt_identities : gset string }.

(** [observation], [resourceCoverage] and the result of one list job. *)
Record observation := mkObservation {
  ob_target : TargetReference; ob_policy : CompiledPolicy; ob_meta : ObjectMeta }.
Record resourceCoverage := mkCoverage {
  rc_success : bool;
  rc_allUIDs : gset UID;
  rc_selectedUIDs : gset UID;
  rc_identities : gmap string UID
}.
Record listed := mkListed {
  ls_resource : Resource; ls_version : Version; ls_items : list ObjectMeta; ls_err : option listError }.

Section scanner.
Context `{SchemaOps, UnicodeTables, LabelOps, KubeNames, DiagnosisNames, ApiErrors, ScannerLibs, RetryClosures}.
Context (config : Config).

Definition metric (name label : string) (value : Z) : SP unit := call (SMetric name label value).

(** ** Policies *)

Definition updatePolicyStatus (current : TerminationPolicy) (desired : TerminationPolicyStatus)
    : SP (option error) :=
  let name := om_Name (tp_Meta current) in
  r ← RetryClosure (Some current, desired) (λ '(current, desired),
    orElse
      (match current with
       | Some p => mret (inr p)
       | None =>
           r ← call (SGetPolicy name);
           match r with
           | inl x => mret (inl ((Some zero_TerminationPolicy, desired), Some (ErrExternal x)))
           | inr p => mret (inr p)
           end
       end)
      (λ current,
        let desired := with_conditions desired
          (preserveConditionTransitions (tpst_Conditions (tp_Status current)) (tpst_Conditions desired)) in
        if bool_decide (tp_Status current = desired) then mret ((Some current, desired), None)
        else
          r ← call (SUpdatePolicyStatus (mkTerminationPolicy (tp_Meta current) (tp_Spec current) desired));
          mret ((None, desired), ErrExternal <$> (r : option ExternalError))));
  mret (snd r).

(** One policy through the cache. *)
Definition cachedCompile (cache : gmap policyCompileCacheKey policyCompileCacheEntry) (catalog : Snapshot)
    (now : Time) (policy : TerminationPolicy) : policyCompileCacheEntry :=
  let compile :=
    let '(compiled, status) := Compile (Some policy) catalog now in
    mkCacheEntry (om_Generation (tp_Meta policy)) (tp_Spec policy) compiled status in
  match cache !! (om_UID (tp_Meta policy), om_Name (tp_Meta policy)) with
  | None => compile
  | Some entry =>
      if negb (bool_decide (ce_generation entry = om_Generation (tp_Meta policy))) ||
         negb (bool_decide (ce_spec entry = tp_Spec policy))
      then compile
      else mkCacheEntry (ce_generation entry) (ce_spec entry) (ce_compiled entry) (revalidated (ce_status entry) now)
  end.

(** The loop of [compilePolicies]: the next cache, the compiled policies by UID
    and the ready ones. *)
Fixpoint compileLoop (cache : gmap policyCompileCacheKey policyCompileCacheEntry) (catalog : Snapshot)
    (now : Time) (policies : list TerminationPolicy)
    (nextCache : gmap policyCompileCacheKey policyCompileCacheEntry) (byUID : gmap UID CompiledPolicy)
    (items : list CompiledPolicy)
    : SP (error + (gmap policyCompileCacheKey policyCompileCacheEntry * gmap UID CompiledPolicy * list CompiledPolicy)) :=
  match policies with
  | [] => mret (inr (nextCache, byUID, items))
  | policy :: policies' =>
      let entry := cachedCompile cache catalog now policy in
      let nextCache := <[(om_UID (tp_Meta policy), om_Name (tp_Meta policy)) := entry]> nextCache in
      err ← updatePolicyStatus policy (ce_status entry);
      match err with
      | Some e => mret (inl e)
      | None =>
          let compiled := ce_compiled entry in
          compileLoop cache catalog now policies' nextCache (<[p_uid compiled := compiled]> byUID)
            (if Ready (Some compiled) then items ++ [compiled] else items)
      end
  end.

Definition compilePolicies (st : runnerState) (catalog : Snapshot) (now : Time)
    : SP (error + (compiledPolicies * runnerState)) :=
  r ← call SListPolicies;
  match r with
  | inl x => mret (inl (ErrWrap "list termination policies: " (ErrExternal x)))
  | inr list =>
      let catalogResources := Snapshot_Resources catalog in
      let cache := if bool_decide (rs_policyCatalog st = catalogResources) then rs_policyCompileCache st else ∅ in
      res ← compileLoop cache catalog now list ∅ ∅ [];
      match res with
      | inl err => mret (inl err)
      | inr (nextCache, byUID, items) =>
          metric "exitguard_scanner_policies" "true" (Z.of_nat (length items)) ;;
          metric "exitguard_scanner_policies" "false" (Z.of_nat (length list) - Z.of_nat (length items)) ;;
          mret (inr (mkCompiledPolicies (sort_by policyLess items) byUID, mkRunnerState catalogResources nextCache))
      end
  end.

(** ** Namespace labels *)

Fixpoint labelPages (fuel : nat) (continueToken : string) (labels : gmap string (gmap string string))
    : SP (error + gmap string (gmap string string)) :=
  match fuel with
  | O => sdiverge
  | S fuel =>
      r ← call (SListMeta namespacesGVR (cfg_PageSize config) continueToken);
      match r with
      | inl x => mret (inl (ErrWrap "list namespace metadata: " (ErrExternal x)))
      | inr list =>
          let labels := foldl (λ m item, <[om_Name item := om_Labels item]> m) labels (ml_Items list) in
          if decide (ml_Continue list = "") then mret (inr labels)
          else labelPages fuel (ml_Continue list) labels
      end
  end.

Definition namespaceLabels (fuel : nat) : SP (error + gmap string (gmap string string)) := labelPages fuel "" ∅.

(** ** The evidence snapshot *)

Definition addServices (configurations : list WebhookConfiguration) (keys : gset (string * string))
    : gset (string * string) :=
  foldl (λ keys configuration,
    foldl (λ keys webhook,
      match wcc_Service (wh_ClientConfig webhook) with
      | None => keys
      | Some reference => {[(sr_Namespace reference, sr_Name reference)]} ∪ keys
      end) keys (wc_Webhooks configuration)) keys configurations.

Definition isCRDTarget (target : TargetReference) : bool :=
  bool_decide (tr_APIGroup target = apiextensions_GroupName) &&
  bool_decide (tr_Resource target = "customresourcedefinitions").

(** The loop over the observations: owners and conversion services. *)
Fixpoint snapshotTargets (observations : list observation) (keys : gset (string * string))
    (owners : gset ControllerReference) : SP (error + (gset (string * string) * gset ControllerReference)) :=
  match observations with
  | [] => mret (inr (keys, owners))
  | observed :: observations' =>
      let owners := foldl (λ m owner, {[owner]} ∪ m) owners (FinalizerOwners (Some (ob_policy observed))) in
      if isCRDTarget (ob_target observed) then
        r ← call (SGetCRD (tr_Name (ob_target observed)));
        match r with
        | inl x =>
            if negb (IsNotFound (ErrExternal x))
            then mret (inl (ErrWrap ("get conversion webhook for " +:+ tr_Name (ob_target observed) +:+ ": ") (ErrExternal x)))
            else snapshotTargets observations' keys owners
        | inr crd =>
            match crd_Conversion crd with
            | Some conversion =>
                match conv_Webhook conversion with
                | Some None => spanic
                | Some (Some clientConfig) =>
                    match wcc_Service clientConfig with
                    | Some service =>
                        snapshotTargets observations' ({[(sr_Namespace service, sr_Name service)]} ∪ keys) owners
                    | None => snapshotTargets observations' keys owners
                    end
                | None => snapshotTargets observations' keys owners
                end
            | None => snapshotTargets observations' keys owners
            end
        end
      else snapshotTargets observations' keys owners
  end.

(** The loop over the service keys. *)
Fixpoint snapshotServices (keys : list (string * string)) (services : list ObjectMeta)
    (slices : list EndpointSlice) : SP (error + (list ObjectMeta * list EndpointSlice)) :=
  match keys with
  | [] => mret (inr (services, slices))
  | key :: keys' =>
      r ← call (SGetService key);
      match r with
      | inl x =>
          if IsNotFound (ErrExternal x) then snapshotServices keys' services slices
          else mret (inl (ErrWrap ("get webhook Service " +:+ NamespacedName_String key +:+ ": ") (ErrExternal x)))
      | inr service =>
          r ← call (SListEndpointSlices key.1 key.2);
          match r with
          | inl x =>
              mret (inl (ErrWrap ("list EndpointSlices for Service " +:+ NamespacedName_String key +:+ ": ") (ErrExternal x)))
          | inr endpoints => snapshotServices keys' (services ++ [service]) (slices ++ endpoints)
          end
      end
  end.

Record owned := mkOwned { ow_Deployments : list Workload; ow_StatefulSets : list Workload; ow_DaemonSets : list DaemonSet }.

(** The loop over the finalizer owners. *)
Fixpoint snapshotOwners (owners : list ControllerReference) (o : owned) : SP (error + owned) :=
  match owners with
  | [] => mret (inr o)
  | owner :: owners' =>
      let key := (cr_Namespace owner, cr_Name owner) in
      let failed kind x :=
        mret (inl (ErrWrap ("get finalizer owner " +:+ kind +:+ " " +:+ NamespacedName_String key +:+ ": ") (ErrExternal x))) in
      if decide (cr_Kind owner = "Deployment") then
        r ← call (SGetDeployment key);
        match r with
        | inr w => snapshotOwners owners' (mkOwned (ow_Deployments o ++ [w]) (ow_StatefulSets o) (ow_DaemonSets o))
        | inl x => if negb (IsNotFound (ErrExternal x)) then failed "Deployment" x else snapshotOwners owners' o
        end
      else if decide (cr_Kind owner = "StatefulSet") then
        r ← call (SGetStatefulSet key);
        match r with
        | inr w => snapshotOwners owners' (mkOwned (ow_Deployments o) (ow_StatefulSets o ++ [w]) (ow_DaemonSets o))
        | inl x => if negb (IsNotFound (ErrExternal x)) then failed "StatefulSet" x else snapshotOwners owners' o
        end
      else if decide (cr_Kind owner = "DaemonSet") then
        r ← call (SGetDaemonSet key);
        match r with
        | inr w => snapshotOwners owners' (mkOwned (ow_Deployments o) (ow_StatefulSets o) (ow_DaemonSets o ++ [w]))
        | inl x => if negb (IsNotFound (ErrExternal x)) then failed "DaemonSet" x else snapshotOwners owners' o
        end
      else snapshotOwners owners' o
  end.

Definition diagnosisSnapshot (catalog : Snapshot) (labels : gmap string (gmap string string))
    (observations : gmap UID observation) : SP (error + DiagnosisSnapshot) :=
  let failed {A} x : SP (error + A) := mret (inl (ErrWrap "build diagnosis snapshot: " (ErrExternal x))) in
  r ← call SListAPIServices;
  match r with inl x => failed x | inr apiServices =>
  r ← call SListMutatingWebhooks;
  match r with inl x => failed x | inr mutating =>
  r ← call SListValidatingWebhooks;
  match r with inl x => failed x | inr validating =>
  observed ← inSomeOrder (map_to_list observations).*2;
  res ← snapshotTargets observed (addServices validating (addServices mutating ∅)) ∅;
  match res with inl err => mret (inl err) | inr (serviceKeys, owners) =>
  keys ← inSomeOrder (elements serviceKeys);
  res ← snapshotServices (sort_by (λ a b, str_lt (NamespacedName_String a) (NamespacedName_String b)) keys) [] [];
  match res with inl err => mret (inl err) | inr (services, slices) =>
  ordered ← inSomeOrder (elements owners);
  res ← snapshotOwners ordered (mkOwned [] [] []);
  match res with inl err => mret (inl err) | inr o =>
  mret (inr (mkDiagnosisSnapshot catalog apiServices mutating validating services slices
               (ow_Deployments o) (ow_StatefulSets o) (ow_DaemonSets o) labels))
  end end end end end end.

(** ** The scan scope *)

Definition incidentGroupResource (incident : DeletionIncident) : GroupResource :=
  mkGR (tr_APIGroup (dis_Target (inc_Spec incident))) (tr_Resource (dis_Target (inc_Spec incident))).
Definition incidentIdentity (incident : DeletionIncident) : string :=
  objectIdentity (tr_Namespace (dis_Target (inc_Spec incident))) (tr_Name (dis_Target (inc_Spec incident))).
Definition incidentUID (incident : DeletionIncident) : UID := tr_UID (dis_Target (inc_Spec incident)).
Definition resolved (incident : DeletionIncident) : bool :=
  bool_decide (di_Phase (inc_Status incident) = IncidentPhaseResolved).

(** The resources that ready policies select. *)
Definition selectedResources (catalog : Snapshot) (policies : compiledPolicies) : gmap GroupResource Resource :=
  foldl (λ m policy,
    foldl (λ m gr,
      match Resolve catalog gr with Some resource => <[gr := resource]> m | None => m end)
      m (ResolvedGroupResources (Some policy))) ∅ (cp_items policies).

(** One incident: its resource is scanned too, and its target is tracked. *)
Definition trackIncident (catalog : Snapshot)
    (st : gmap GroupResource Resource * gmap GroupResource trackedTargets) (incident : DeletionIncident)
    : gmap GroupResource Resource * gmap GroupResource trackedTargets :=
  let '(selected, tracked) := st in
  if resolved incident then st
  else
    let gr := incidentGroupResource incident in
    match Resolve catalog gr with
    | None => st
    | Some resource =>
        let entry := default (mkTracked ∅ ∅) (tracked !! gr) in
        (<[gr := resource]> selected,
         <[gr := mkTracked ({[incidentUID incident]} ∪ tt_uids entry)
                           ({[incidentIdentity incident]} ∪ tt_identities entry)]> tracked)
    end.

Definition resourcesToScan (catalog : Snapshot) (policies : compiledPolicies)
    : SP (error + (list Resource * gmap GroupResource trackedTargets * list DeletionIncident)) :=
  r ← call SListIncidents;
  match r with
  | inl x => mret (inl (ErrWrap "list incidents for scan scope: " (ErrExternal x)))
  | inr incidents =>
      let '(selected, tracked) := foldl (trackIncident catalog) (selectedResources catalog policies, ∅) incidents in
      resources ← inSomeOrder (map_to_list selected).*2;
      mret (inr (sort_by resourceLess resources, tracked, incidents))
  end.

(** ** Listing targets *)

Section listing.
Context (policies : compiledPolicies) (labels : gmap string (gmap string string)).

Definition policyTarget (resource : Resource) (version : Version) (item : ObjectMeta) : Target :=
  mkTarget (r_GroupResource resource) (v_Namespaced version) (om_Namespace item) (om_Labels item)
    (default ∅ (labels !! om_Namespace item)).

(** An item that a policy selects and that is being deleted. *)
Definition selectedDeleting (resource : Resource) (version : Version) (item : ObjectMeta) : bool :=
  match om_DeletionTimestamp item with
  | None => false
  | Some _ =>
      match selectWinning policies (policyTarget resource version item) with Some _ => true | None => false end
  end.
Definition isTracked (tracked : trackedTargets) (item : ObjectMeta) : bool :=
  bool_decide (om_UID item ∈ tt_uids tracked) ||
  bool_decide (objectIdentity (om_Namespace item) (om_Name item) ∈ tt_identities tracked).

(** The items of one page: the retained ones, and whether the budget was
    exhausted. *)
Fixpoint retainItems (resource : Resource) (version : Version) (tracked : trackedTargets)
    (items retained : list ObjectMeta) : SP (list ObjectMeta * bool) :=
  match items with
  | [] => mret (retained, false)
  | item :: items' =>
      let selected := selectedDeleting resource version item in
      if negb selected && negb (isTracked tracked item)
      then retainItems resource version tracked items' retained
      else
        reserved ← (if selected then call (SReserve (om_UID item)) else mret true);
        if negb reserved then mret (retained, true)
        else retainItems resource version tracked items' (retained ++ [item])
  end.

Fixpoint targetPages (fuel : nat) (resource : Resource) (version : Version) (tracked : trackedTargets)
    (continueToken : string) (retained : list ObjectMeta) : SP (list ObjectMeta * option listError) :=
  match fuel with
  | O => sdiverge
  | S fuel =>
      r ← call (SListMeta (WithVersion (r_GroupResource resource) (v_Version version)) (cfg_PageSize config) continueToken);
      match r with
      | inl x => mret ([], Some (ErrListing (ErrExternal x)))
      | inr list =>
          '(retained, bound) ← retainItems resource version tracked (ml_Items list) retained;
          if bound : bool then mret (retained, Some ErrTargetBound)
          else if decide (ml_Continue list = "") then mret (retained, None)
          else targetPages fuel resource version tracked (ml_Continue list) retained
      end
  end.

Definition listResourceVersion (fuel : nat) (resource : Resource) (version : Version) (tracked : trackedTargets)
    : SP (list ObjectMeta * option listError) := targetPages fuel resource version tracked "" [].

(** The loop over versions of [listResource]. *)
Fixpoint listResourceVersions (fuel : nat) (resource : Resource) (tracked : trackedTargets)
    (versions : list Version) (lastUnavailable : option listError)
    : SP (list ObjectMeta * Version * option listError) :=
  match versions with
  | [] => mret ([], r_PreferredVersion resource, lastUnavailable)
  | version :: versions' =>
      '(items, err) ← listResourceVersion fuel resource version tracked;
      match err with
      | None | Some ErrTargetBound => mret (items, version, err)
      | Some (ErrListing e) =>
          if negb (IsNotFound e) && negb (IsGone e) then mret ([], version, err)
          else listResourceVersions fuel resource tracked versions' err
      end
  end.

Definition listResource (fuel : nat) (resource : Resource) (tracked : trackedTargets)
    : SP (list ObjectMeta * Version * option listError) :=
  listResourceVersions fuel resource tracked
    (OrderedVersions resource (v_Version (r_PreferredVersion resource))) None.

(** The list jobs. *)
Fixpoint listJobs (fuel : nat) (tracked : gmap GroupResource trackedTargets) (resources : list Resource)
    : SP (list listed) :=
  match resources with
  | [] => mret []
  | resource :: resources' =>
      '(items, version, err) ← listResource fuel resource (default (mkTracked ∅ ∅) (tracked !! r_GroupResource resource));
      rest ← listJobs fuel tracked resources';
      mret (mkListed resource version items err :: rest)
  end.

(** One retained item: the coverage of its resource and the observations. *)
Definition collectItem (l : listed) (st : resourceCoverage * gmap UID observation) (item : ObjectMeta)
    : resourceCoverage * gmap UID observation :=
  let '(state, observations) := st in
  let state := mkCoverage (rc_success state) ({[om_UID item]} ∪ rc_allUIDs state) (rc_selectedUIDs state)
                 (<[objectIdentity (om_Namespace item) (om_Name item) := om_UID item]> (rc_identities state)) in
  match selectWinning policies (policyTarget (ls_resource l) (ls_version l) item) with
  | None => (state, observations)
  | Some winner =>
      let state := mkCoverage (rc_success state) (rc_allUIDs state) ({[om_UID item]} ∪ rc_selectedUIDs state)
                     (rc_identities state) in
      match om_DeletionTimestamp item, observations !! om_UID item with
      | None, _ | _, Some _ => (state, observations)
      | Some _, None =>
          (state, <[om_UID item :=
             mkObservation (metadataReference (selectedResource (ls_resource l) (ls_version l)) item) winner item]>
             observations)
      end
  end.

Definition listResult (err : error) : string :=
  if IsForbidden err then "forbidden"
  else if IsNotFound err || IsMethodNotSupported err then "unsupported"
  else "error".

Record collected := mkCollected {
  ct_observations : gmap UID observation;
  ct_coverage : gmap GroupResource resourceCoverage;
  ct_errs : list error;
  ct_truncated : bool
}.

(** The loop over the results. *)
Fixpoint collectResults (results : list listed) (st : collected) : SP collected :=
  match results with
  | [] => mret st
  | l :: results' =>
      let gr := r_GroupResource (ls_resource l) in
      let state := mkCoverage (match ls_err l with None => true | Some _ => false end) ∅ ∅ ∅ in
      let gather errs truncated :=
        let '(state, observations) := foldl (collectItem l) (state, ct_observations st) (ls_items l) in
        mkCollected observations (<[gr := state]> (ct_coverage st)) errs truncated in
      match ls_err l with
      | None =>
          metric "exitguard_scanner_resource_lists_total" "success" 1 ;;
          collectResults results' (gather (ct_errs st) (ct_truncated st))
      | Some e =>
          metric "exitguard_scanner_resource_lists_total" (listResult (listError_error e)) 1 ;;
          let errs := ct_errs st ++
            [ErrWrap ("list " +:+ GroupResource_String gr +:+ ": ") (listError_error e)] in
          match e with
          | ErrListing _ =>
              collectResults results'
                (mkCollected (ct_observations st) (<[gr := state]> (ct_coverage st)) errs (ct_truncated st))
          | ErrTargetBound => collectResults results' (gather errs true)
          end
      end
  end.

Definition failedCoverage (state : resourceCoverage) : resourceCoverage :=
  mkCoverage false (rc_allUIDs state) (rc_selectedUIDs state) (rc_identities state).

Definition listTargets (fuel : nat) (catalog : Snapshot)
    : SP (gmap UID observation * gmap GroupResource resourceCoverage * option (list DeletionIncident) * option error) :=
  res ← resourcesToScan catalog policies;
  match res with
  | inl err => mret (∅, ∅, None, Some err)
  | inr (resources, tracked, incidents) =>
      k ← call (SDispatched (length resources));
      results ← listJobs fuel tracked (take k resources);
      results ← inSomeOrder results;
      st ← collectResults results (mkCollected ∅ ∅ [] false);
      let '(coverage, errs) :=
        if ct_truncated st
        then (failedCoverage <$> ct_coverage st,
              ct_errs st ++ [ErrNew ("scan target bound " +:+ fmt_d (cfg_MaxTargets config) +:+ " exceeded")])
        else (ct_coverage st, ct_errs st) in
      mret (ct_observations st, coverage, Some incidents, errors_Join (Some <$> errs))
  end.
End listing.
End scanner.
