(* ===== verification/Incidents.v ===== *)
(** * The scanner: incidents (internal/scanner/scanner.go, cycle.go)

    Writing diagnoses to incidents, the incident lifecycle, the degraded path that
    withdraws evidence, and the scan cycle that composes the stages. *)
From S2P Require Import Prelude GoText ApiTypes Discovery Policy GoErrors Prog KubeTypes Collector Analyzers Diagnosis Durations Scanner.

Local Open Scope prog_scope.

Definition zero_IncidentStatus : DeletionIncidentStatus :=
  mkDeletionIncidentStatus "" None None None None None None "" zero_TargetSnapshot [] [] [].
Definition zero_DeletionIncident : DeletionIncident :=
  mkDeletionIncident zero_ObjectMeta
    (mkDeletionIncidentSpec (mkTargetReference "" "" "" "" "" "" "") 0) zero_IncidentStatus.

Definition with_incident_status (i : DeletionIncident) (st : DeletionIncidentStatus) : DeletionIncident :=
  mkDeletionIncident (inc_Meta i) (inc_Spec i) st.

Definition with_annotation (i : DeletionIncident) (k v : string) : DeletionIncident :=
  let m := inc_Meta i in
  mkDeletionIncident
    (mkObjectMeta (om_Name m) (om_Namespace m) (om_UID m) (om_ResourceVersion m) (om_Generation m)
       (om_CreationTimestamp m) (om_DeletionTimestamp m) (om_DeletionGracePeriodSeconds m) (om_Labels m)
       (<[k := v]> (om_Annotations m)) (om_Finalizers m) (om_OwnerReferences m))
    (inc_Spec i) (inc_Status i).

Section incidents.
Context `{SchemaOps, UnicodeTables, LabelOps, KubeNames, DiagnosisNames, ApiErrors, ScannerLibs, RetryClosures}.
Context (config : Config).

Definition sGetIncident (name : string) : SP (error + DeletionIncident) :=
  r ← call (SGetIncident name);
  mret (match (r : ExternalError + DeletionIncident) with inl x => inl (ErrExternal x) | inr i => inr i end).
Definition sUpdateIncident (i : DeletionIncident) : SP (option error) :=
  r ← call (SUpdateIncident i);
  mret (match (r : ExternalError + DeletionIncident) with inl x => Some (ErrExternal x) | inr _ => None end).

(** A closure without captured variables. *)
Definition retrying (fn : SP (option error)) : SP (option error) :=
  r ← RetryClosure tt (λ _, err ← fn; mret (tt, err)); mret (snd r).

(** ** Single incidents *)

(** The status [failIncidentDiagnosis] writes. *)
Definition failedStatus (current : DeletionIncident) (now : Time) (reason message : string) : DeletionIncidentStatus :=
  let st := inc_Status current in
  let generation := om_Generation (inc_Meta current) in
  mkDeletionIncidentStatus IncidentPhaseDiagnosisFailed (di_ActivePolicyRef st) (di_DeletionTimestamp st)
    (di_LastObservedTime st) None None (di_ResolvedTime st) (di_ResolutionReason st) zero_TargetSnapshot [] []
    (preserveConditionTransitions (di_Conditions st)
       [mkCondition "DiagnosisComplete" ConditionFalse generation now reason message;
        mkCondition "TargetVisible" ConditionUnknown generation now reason
          "target visibility is unknown because current evidence is incomplete"]).

Definition failIncidentDiagnosis (name : string) (now : Time) (reason message : string) : SP (option error) :=
  retrying (
    res ← sGetIncident name;
    match res with
    | inl err => mret (IgnoreNotFound err)
    | inr current =>
        if resolved current then mret None
        else
          let st := failedStatus current now reason message in
          if bool_decide (inc_Status current = st) then mret None
          else sUpdateIncident (with_incident_status current st)
    end).

(** The status [resolveIncident] writes: the last actions are kept for audit. *)
Definition resolvedStatus (current : DeletionIncident) (reason : string) (now : Time) : DeletionIncidentStatus :=
  let st := inc_Status current in
  mkDeletionIncidentStatus IncidentPhaseResolved (di_ActivePolicyRef st) (di_DeletionTimestamp st)
    (di_LastObservedTime st) (di_ActionEvidenceTime st) (di_ActionEvidenceExpiresTime st) (Some now) reason
    (di_TargetSnapshot st) (di_Findings st) (di_RecommendedActions st)
    [mkCondition "TargetVisible" ConditionFalse (om_Generation (inc_Meta current)) now reason
       "target is no longer an active monitored deletion"].

Definition resolveIncident (name reason : string) (now : Time) : SP (option error) :=
  retrying (
    res ← sGetIncident name;
    match res with
    | inl err => mret (IgnoreNotFound err)
    | inr current =>
        if resolved current then mret None
        else sUpdateIncident (with_incident_status current (resolvedStatus current reason now))
    end).

(** ** Persisting a diagnosis *)

(** When the action evidence was established and when it expires. *)
Definition evidenceWindow (current : DeletionIncidentStatus) (result : DiagnosisResult) (now : Time)
    : option Time * option Time :=
  if res_DiagnosisComplete result && bool_decide (res_Actions result ≠ []) then
    let refreshLead := Z.max (cfg_Interval config) (cfg_Timeout config) in
    let actionsChanged := negb (bool_decide (di_RecommendedActions current = res_Actions result)) in
    let renew := (Some now, Some (Time_Add now (int64 (cfg_Timeout config + int64 (2 * cfg_Interval config))))) in
    match di_ActionEvidenceTime current, di_ActionEvidenceExpiresTime current with
    | Some t, Some expires =>
        if actionsChanged || bool_decide (Time_Sub expires now ≤ refreshLead)%Z then renew
        else (Some t, Some expires)
    | _, _ => renew
    end
  else (None, None).

(** The status [persistDiagnosis] aims at. *)
Definition desiredStatus (observed : observation) (result : DiagnosisResult) (now : Time)
    (current : DeletionIncidentStatus) : DeletionIncidentStatus :=
  let policy := ob_policy observed in
  let '(evidenceTime, evidenceExpires) := evidenceWindow current result now in
  mkDeletionIncidentStatus
    (if res_DiagnosisComplete result then IncidentPhaseActive else IncidentPhaseDiagnosisFailed)
    (Some (mkPolicyReference (p_name policy) (p_uid policy) (p_generation policy)))
    (om_DeletionTimestamp (ob_meta observed))
    (match di_LastObservedTime current with
     | None => Some now
     | Some t => if bool_decide (observationRefresh ≤ Time_Sub now t)%Z then Some now else Some t
     end)
    evidenceTime evidenceExpires None ""
    (res_TargetSnapshot result) (res_Findings result) (res_Actions result)
    (preserveConditionTransitions (di_Conditions current) (diagnosisConditions result now)).

Definition retentionText (observed : observation) : string :=
  Duration_String (set_ResolvedIncidentTTL (p_settings (ob_policy observed))).

(** The variables that the attempts of [persistDiagnosis] capture: the pointer
    [current], whether it is the object of the scan-scope list that [existing]
    points to, that object as it stands, and [metricsDirty].  The attempts write
    through [current], so the list that the lifecycle reads later changes too. *)
Record attemptState := mkAttemptState {
  pa_current : option DeletionIncident;
  pa_aliased : bool;
  pa_listed : option DeletionIncident;
  pa_dirty : bool
}.

(** The object of the list after a write through a pointer to [i]. *)
Definition written (aliased : bool) (listed : option DeletionIncident) (i : DeletionIncident) : option DeletionIncident :=
  if aliased then Some i else listed.

(** One attempt at the status. *)
Definition persistAttempt (name : string) (observed : observation) (result : DiagnosisResult) (now : Time)
    (v : attemptState) : SP (attemptState * option error) :=
  let dirty := pa_dirty v in
  orElse
    (match pa_current v with
     | Some i => mret (inr (i, pa_aliased v))
     | None =>
         res ← sGetIncident name;
         match res with
         | inl err => mret (inl (mkAttemptState (Some zero_DeletionIncident) false (pa_listed v) dirty, Some err))
         | inr i => mret (inr (i, false))
         end
     end)
  (λ '(current, aliased),
  let retention := retentionText observed in
  orElse
    (if bool_decide (default "" (om_Annotations (inc_Meta current) !! retentionAnnotation) = retention)
     then mret (inr (current, pa_listed v))
     else
       let annotated := with_annotation current retentionAnnotation retention in
       r ← call (SPatchIncident current annotated);
       match r with
       | inl x => mret (inl (mkAttemptState None false (written aliased (pa_listed v) annotated) dirty, Some (ErrExternal x)))
       | inr patched => mret (inr (patched, written aliased (pa_listed v) patched))
       end)
  (λ '(current, listed),
  let desired := desiredStatus observed result now (inc_Status current) in
  if bool_decide (inc_Status current = desired) then mret (mkAttemptState (Some current) aliased listed dirty, None)
  else
    let dirty := dirty || negb (bool_decide (di_Phase (inc_Status current) = di_Phase desired)) in
    let updated := with_incident_status current desired in
    r ← call (SUpdateIncident updated);
    match r with
    | inl x => mret (mkAttemptState None false (written aliased listed updated) dirty, Some (ErrExternal x))
    | inr stored => mret (mkAttemptState None false (written aliased listed stored) dirty, None)
    end)).

(** The retries and the fallback when the evidence does not fit the object; also
    the object of the list afterwards. *)
Definition persistStatus (name : string) (observed : observation) (result : DiagnosisResult) (now : Time)
    (v : attemptState) : SP (bool * option error * option DeletionIncident) :=
  '(v, err) ← RetryClosure v (persistAttempt name observed result now);
  if errIs IsRequestEntityTooLargeError err then
    fallbackErr ← failIncidentDiagnosis name now "EvidenceTooLarge"
      "diagnostic evidence exceeded the Kubernetes object size limit";
    mret (true, errors_Join [err; fallbackErr], pa_listed v)
  else mret (pa_dirty v, err, pa_listed v).

Definition newIncident (name : string) (observed : observation) (now : Time) : DeletionIncident :=
  mkDeletionIncident
    (mkObjectMeta name "" "" "" 0 0 None None ∅ {[retentionAnnotation := retentionText observed]} [] [])
    (mkDeletionIncidentSpec (ob_target observed) now) zero_IncidentStatus.

(** [persistDiagnosis]: whether the incident list became stale, the error, and the
    object [existing] afterwards. *)
Definition persistDiagnosis (observed : observation) (result : DiagnosisResult)
    (existing : option DeletionIncident) (now : Time) : SP (bool * option error * option DeletionIncident) :=
  let name := incidentName (tr_UID (ob_target observed)) in
  let known incident dirty :=
    if negb (bool_decide (incidentUID incident = tr_UID (ob_target observed)))
    then mret (dirty, Some (ErrNew ("incident " +:+ name +:+ " belongs to different target UID")), existing)
    else if negb (res_TargetFound result)
    then err ← resolveIncident name "TargetAbsent" now; mret (true, err, existing)
    else if negb (res_UIDMatches result)
    then err ← resolveIncident name "TargetReplaced" now; mret (true, err, existing)
    else persistStatus name observed result now
           (mkAttemptState (Some incident) (bool_decide (is_Some existing)) existing dirty) in
  let created := persistStatus name observed result now (mkAttemptState None false None true) in
  match existing with
  | Some incident => known incident false
  | None =>
      res ← sGetIncident name;
      match res with
      | inr incident => known incident true
      | inl err =>
          if IsNotFound err then
            if negb (res_TargetFound result) || negb (res_UIDMatches result) || negb (res_ThresholdElapsed result)
            then mret (false, None, None)
            else
              r ← call (SCreateIncident (newIncident name observed now));
              match r with
              | Some x => if negb (IsAlreadyExists (ErrExternal x)) then mret (false, Some (ErrExternal x), None) else created
              | None => created
              end
          else mret (false, Some err, None)
      end
  end.

(** ** Diagnosing the observed targets *)

Definition sortedUIDs (observations : gmap UID observation) : list UID :=
  sort_by str_lt (map_to_list observations).*1.

(** [knownIncidents]: the pointers into the list, as positions; the last one for a
    UID wins. *)
Definition knownIncidents (l : list DeletionIncident) : gmap UID nat :=
  foldl (λ m k, match l !! k with Some incident => <[incidentUID incident := k]> m | None => m end)
    ∅ (seq 0 (length l)).

(** The result that stands for a diagnosis that failed. *)
Definition failedDiagnosis (observed : observation) (now : Time) : DiagnosisResult :=
  let thresholdElapsed :=
    match om_DeletionTimestamp (ob_meta observed) with
    | None => false
    | Some t => negb (Time_Before now (Time_Add t (set_TerminationAge (p_settings (ob_policy observed)))))
    end in
  mkDiagnosisResult true true thresholdElapsed false zero_TargetSnapshot [] [].

(** One diagnosis job; [incidents] is the shared list, which the job may change. *)
Definition diagnoseTarget (fuel : nat) (observed : observation) (snapshot : DiagnosisSnapshot)
    (known : gmap UID nat) (incidents : list DeletionIncident) (now : Time)
    : SP (bool * option error * list DeletionIncident) :=
  '(result, diagnoseErr) ←
    diagnosisProg (Diagnose fuel true (ob_target observed) (Some (ob_policy observed)) snapshot now);
  let result := match diagnoseErr with Some _ => failedDiagnosis observed now | None => result end in
  let pointer := known !! tr_UID (ob_target observed) in
  '(dirty, persistErr, listed) ← persistDiagnosis observed result (pointer ≫= λ k, incidents !! k) now;
  let incidents :=
    match pointer with
    | Some k => match listed with Some i => <[k := i]> incidents | None => incidents end
    | None => incidents
    end in
  match errors_Join [diagnoseErr; persistErr] with
  | Some err =>
      metric "exitguard_scanner_diagnoses_total" "error" 1 ;;
      mret (dirty, Some (ErrWrap ("diagnose " +:+ incidentName (tr_UID (ob_target observed)) +:+ ": ") err), incidents)
  | None =>
      metric "exitguard_scanner_diagnoses_total" "success" 1 ;;
      mret (dirty, None, incidents)
  end.

Fixpoint diagnoseJobs (fuel : nat) (jobs : list observation) (snapshot : DiagnosisSnapshot)
    (known : gmap UID nat) (incidents : list DeletionIncident) (now : Time)
    : SP (bool * list error * list DeletionIncident) :=
  match jobs with
  | [] => mret (false, [], incidents)
  | observed :: jobs' =>
      '(dirty, err, incidents) ← diagnoseTarget fuel observed snapshot known incidents now;
      '(dirty', errs, incidents) ← diagnoseJobs fuel jobs' snapshot known incidents now;
      mret (dirty || dirty', match err with Some e => e :: errs | None => errs end, incidents)
  end.

Inductive incidentViewChange := incidentViewUnchanged | incidentViewInvalidated.

(** [diagnoseTargets]: the change of the view, the error, and the list afterwards. *)
Definition diagnoseTargets (fuel : nat) (observations : gmap UID observation) (snapshot : DiagnosisSnapshot)
    (incidents : option (list DeletionIncident)) (now : Time)
    : SP (incidentViewChange * option error * option (list DeletionIncident)) :=
  let jobs := omap (λ uid, observations !! uid) (sortedUIDs observations) in
  let shared := default [] incidents in
  k ← call (SDispatched (length jobs));
  '(dirty, errs, shared) ← diagnoseJobs fuel (take k jobs) snapshot (knownIncidents shared) shared now;
  errs ← inSomeOrder errs;
  mret (if dirty : bool then incidentViewInvalidated else incidentViewUnchanged,
        errors_Join (Some <$> errs), (λ _, shared) <$> incidents).

(** ** Incident lifecycle *)

(** [incidentRetention]; [None] when no retention is known. *)
Definition incidentRetention (incident : DeletionIncident) (policies : compiledPolicies) : option Duration :=
  let annotated :=
    let value := default "" (om_Annotations (inc_Meta incident) !! retentionAnnotation) in
    if bool_decide (value = "") then None
    else match ParseDuration value with
         | Some parsed => if bool_decide (0 < parsed)%Z then Some parsed else None
         | None => None
         end in
  match cp_byUID policies !! policyUID (di_ActivePolicyRef (inc_Status incident)) with
  | Some policy =>
      let ttl := set_ResolvedIncidentTTL (p_settings policy) in
      if bool_decide (0 < ttl)%Z then Some ttl else annotated
  | None => annotated
  end.

(** What the lifecycle does with an incident. *)
Inductive lifecycle :=
  | LifecycleKeep
  | LifecycleDelete
  | LifecycleResolve (reason : string)
  | LifecycleFail.

Definition lifecycleOf (observations : gmap UID observation) (coverage : gmap GroupResource resourceCoverage)
    (catalog : Snapshot) (policies : compiledPolicies) (now : Time) (incident : DeletionIncident) : lifecycle :=
  if resolved incident then
    match incidentRetention incident policies, di_ResolvedTime (inc_Status incident) with
    | Some retention, Some resolvedTime =>
        if negb (Time_Before now (Time_Add resolvedTime retention)) then LifecycleDelete else LifecycleKeep
    | _, _ => LifecycleKeep
    end
  else if bool_decide (is_Some (observations !! incidentUID incident)) then LifecycleKeep
  else match Resolve catalog (incidentGroupResource incident) with
  | None => LifecycleResolve "ResourceTypeRemoved"
  | Some _ =>
    match coverage !! incidentGroupResource incident with
    | None => LifecycleKeep
    | Some state =>
      if negb (rc_success state) then LifecycleFail
      else if negb (bool_decide (incidentUID incident ∈ rc_allUIDs state)) then
        match rc_identities state !! incidentIdentity incident with
        | Some currentUID =>
            if negb (bool_decide (currentUID = incidentUID incident)) then LifecycleResolve "TargetReplaced"
            else LifecycleResolve "TargetAbsent"
        | None => LifecycleResolve "TargetAbsent"
        end
      else if negb (bool_decide (incidentUID incident ∈ rc_selectedUIDs state))
      then LifecycleResolve "PolicyNoLongerMatches"
      else LifecycleResolve "TargetNoLongerDeleting"
    end
  end.

(** The calls for one incident: the change of the view and the error. *)
Definition applyLifecycle (action : lifecycle) (incident : DeletionIncident) (now : Time)
    : SP (incidentViewChange * option error) :=
  let name := om_Name (inc_Meta incident) in
  match action with
  | LifecycleKeep => mret (incidentViewUnchanged, None)
  | LifecycleDelete =>
      r ← call (SDeleteIncident incident);
      mret (incidentViewInvalidated,
            match (r : option ExternalError) with
            | Some x => if negb (IsNotFound (ErrExternal x)) then Some (ErrExternal x) else None
            | None => None
            end)
  | LifecycleResolve reason => err ← resolveIncident name reason now; mret (incidentViewInvalidated, err)
  | LifecycleFail =>
      err ← failIncidentDiagnosis name now "ResourceListFailed" "resource coverage is incomplete";
      mret (incidentViewInvalidated, err)
  end.

Definition orChange (a b : incidentViewChange) : incidentViewChange :=
  match a with incidentViewInvalidated => a | incidentViewUnchanged => b end.

Fixpoint lifecycleLoop (observations : gmap UID observation) (coverage : gmap GroupResource resourceCoverage)
    (catalog : Snapshot) (policies : compiledPolicies) (now : Time) (incidents : list DeletionIncident)
    (change : incidentViewChange) (errs : list error) : SP (incidentViewChange * option error) :=
  match incidents with
  | [] => mret (change, errors_Join (Some <$> errs))
  | incident :: incidents' =>
      '(c, err) ← applyLifecycle (lifecycleOf observations coverage catalog policies now incident) incident now;
      lifecycleLoop observations coverage catalog policies now incidents' (orChange change c)
        (match err with Some e => errs ++ [e] | None => errs end)
  end.

Definition reconcileLifecycle (observations : gmap UID observation) (coverage : gmap GroupResource resourceCoverage)
    (catalog : Snapshot) (policies : compiledPolicies) (incidents : option (list DeletionIncident)) (now : Time)
    : SP (incidentViewChange * option error) :=
  orElse
    (match incidents with
     | Some l => mret (inr l)
     | None =>
         r ← call SListIncidents;
         match r with
         | inl x => mret (inl (incidentViewUnchanged, Some (ErrWrap "list incidents: " (ErrExternal x))))
         | inr l => mret (inr l)
         end
     end)
    (λ l, lifecycleLoop observations coverage catalog policies now l incidentViewUnchanged []).

(** ** The degraded path *)

Fixpoint failLoop (incidents : list DeletionIncident) (now : Time) (reason message : string) (errs : list error)
    : SP (option error) :=
  match incidents with
  | [] => mret (errors_Join (Some <$> errs))
  | incident :: incidents' =>
      if resolved incident then failLoop incidents' now reason message errs
      else
        err ← failIncidentDiagnosis (om_Name (inc_Meta incident)) now reason message;
        failLoop incidents' now reason message (match err with Some e => errs ++ [e] | None => errs end)
  end.

Definition failActiveIncidentDiagnoses (now : Time) (reason message : string) : SP (option error) :=
  r ← call SListIncidents;
  match r with
  | inl x => mret (Some (ErrWrap "list incidents to block stale remediation: " (ErrExternal x)))
  | inr incidents => failLoop incidents now reason message []
  end.

Definition phaseCount (incidents : list DeletionIncident) (phase : IncidentPhase) : Z :=
  Z.of_nat (length (filter (λ i, di_Phase (inc_Status i) = phase) incidents)).

Definition updateIncidentMetrics (incidents : option (list DeletionIncident)) : SP unit :=
  orElse
    (match incidents with
     | Some l => mret (inr l)
     | None =>
         r ← call SListIncidents;
         match r with inl _ => mret (inl tt) | inr l => mret (inr l) end
     end)
    (λ l,
      metric "exitguard_scanner_incidents" IncidentPhaseActive (phaseCount l IncidentPhaseActive) ;;
      metric "exitguard_scanner_incidents" IncidentPhaseDiagnosisFailed (phaseCount l IncidentPhaseDiagnosisFailed) ;;
      metric "exitguard_scanner_incidents" IncidentPhaseResolved (phaseCount l IncidentPhaseResolved)).

(** ** The scan cycle *)

Inductive incidentViewState := incidentViewUnavailable | incidentViewFresh | incidentViewStale.
Record incidentView := mkIncidentView { iv_list : option (list DeletionIncident); iv_state : incidentViewState }.

Definition install (list : option (list DeletionIncident)) : incidentView :=
  mkIncidentView list (match list with None => incidentViewUnavailable | Some _ => incidentViewFresh end).
Definition view_apply (v : incidentView) (change : incidentViewChange) : incidentView :=
  match change with
  | incidentViewInvalidated => mkIncidentView (iv_list v) incidentViewStale
  | incidentViewUnchanged => v
  end.
Definition metricList (v : incidentView) : option (list DeletionIncident) :=
  match iv_state v with incidentViewFresh => iv_list v | _ => None end.

(** [degraded]: withdraw the evidence of every active incident. *)
Definition degraded (now : Time) (view : incidentView) (accumulated err : option error) (reason message : string)
    : SP (option error) :=
  degradedErr ← failActiveIncidentDiagnoses now reason message;
  updateIncidentMetrics (metricList (view_apply view incidentViewInvalidated)) ;;
  mret (errors_Join [joinTo accumulated err; degradedErr]).

Abbreviation noView := (mkIncidentView None incidentViewUnavailable).

(** [run]; the runner state is kept for the next cycle. *)
Definition cycle_run (fuel : nat) (st : runnerState) (now : Time) : SP (option error * runnerState) :=
  last ← call SLastResult;
  if bool_decide (default false (Time_IsZero <$> (last : option Time)) = true) then
    err ← degraded now noView None (Some (ErrNew "discovery catalog has no successful snapshot"))
      "DiscoveryUnavailable" "discovery has no complete snapshot";
    mret (err, st)
  else
  catalog ← call SSnapshot;
  metric "exitguard_scanner_catalog_resources" "" (Z.of_nat (Snapshot_Len catalog)) ;;
  res ← compilePolicies st catalog now;
  match res with
  | inl e =>
      err ← degraded now noView None (Some e) "PolicyCompilationFailed" "current policies could not be compiled";
      mret (err, st)
  | inr (policies, st) =>
  res ← namespaceLabels config fuel;
  match res with
  | inl e =>
      err ← degraded now noView None (Some e) "NamespaceInventoryFailed" "namespace label inventory is incomplete";
      mret (err, st)
  | inr labels =>
  '(observations, coverage, incidents, e) ← listTargets config policies labels fuel catalog;
  let view := install incidents in
  let accumulated := joinTo None e in
  timedOut ← (match e with Some _ => call SCtxErr | None => mret false end);
  if timedOut : bool then
    err ← degraded now view accumulated None "ScanTimedOut" "the current scan did not complete";
    mret (err, st)
  else
  res ← (if bool_decide (0 < size observations) then diagnosisSnapshot catalog labels observations
         else mret (inr (mkDiagnosisSnapshot catalog [] [] [] [] [] [] [] [] labels)));
  match res with
  | inl e =>
      err ← degraded now view accumulated (Some e) "SnapshotFailed" "diagnosis snapshot is incomplete";
      mret (err, st)
  | inr snapshot =>
  '(diagnosisChange, e, shared) ← diagnoseTargets fuel observations snapshot (iv_list view) now;
  let view := view_apply (mkIncidentView shared (iv_state view)) diagnosisChange in
  let accumulated := joinTo accumulated e in
  timedOut ← (match e with Some _ => call SCtxErr | None => mret false end);
  if timedOut : bool then
    err ← degraded now view accumulated None "ScanTimedOut" "the current scan did not complete";
    mret (err, st)
  else
  '(lifecycleChange, e) ← reconcileLifecycle observations coverage catalog policies (iv_list view) now;
  updateIncidentMetrics (metricList (view_apply view lifecycleChange)) ;;
  mret (joinTo accumulated e, st)
  end end end.

(** ** The coordinator *)

(** [NewCoordinator]: which dependencies are given, and the bounds. *)
Definition NewCoordinator (reader writer metadataClient catalog engine : bool) : error + Config :=
  if negb reader || negb writer || negb metadataClient || negb catalog || negb engine
  then inl (ErrNew "scanner reader, writer, metadata client, catalog, and diagnosis engine are required")
  else if bool_decide (cfg_Interval config ≤ 0)%Z || bool_decide (cfg_Timeout config ≤ 0)%Z ||
          bool_decide (cfg_ResourceWorkers config ≤ 0)%Z || bool_decide (cfg_DiagnosisWorkers config ≤ 0)%Z ||
          bool_decide (cfg_PageSize config ≤ 0)%Z || bool_decide (cfg_MaxTargets config ≤ 0)%Z
  then inl (ErrNew "scanner bounds must be positive")
  else inr config.

(** [RunCycle]; [busy] tells whether another cycle holds the mutex. *)
Definition RunCycle (fuel : nat) (busy : bool) (st : runnerState) (now : Time) : SP (option error * runnerState) :=
  if busy then
    metric "exitguard_scanner_cycles_total" "overlap_skipped" 1 ;;
    mret (Some (ErrNew "scanner cycle already running"), st)
  else cycle_run fuel st now.
End incidents.
