(* ===== verification/ScannerProps.v ===== *)
(** * Properties of the scanner's stages

    The scan's first-match policy choice is the reference choice of the policy
    engine, the compile cache is transparent, and the target budget is a bound. *)
From S2P Require Import Prelude GoText ApiTypes Discovery Policy GoErrors Prog KubeTypes Collector Analyzers Diagnosis Durations Scanner.

Local Open Scope prog_scope.

(** ** The policy order *)

Lemma policyLess_outranks a b : policyLess a b = true ↔ outranks a b.
Proof.
  unfold policyLess, outranks. case_bool_decide as E; simpl.
  - rewrite E. split; [by right; split|]. intros [?|[_ ?]]; [lia|done].
  - rewrite bool_decide_eq_true. split; [by left|]. intros [?|[? _]]; [done|lia].
Qed.

Global Instance policyLess_weak : StrictWeak policyLess.
Proof.
  split.
  - intros x. apply not_true_iff_false. rewrite policyLess_outranks. apply outranks_irrefl.
  - intros x y z Hxz%Is_true_true. apply policyLess_outranks in Hxz.
    rewrite !Is_true_true, !policyLess_outranks. unfold outranks in *.
    destruct (decide (p_priority y < p_priority x)%Z); [by left; left|].
    destruct (decide (p_priority z < p_priority y)%Z); [by right; left|].
    destruct Hxz as [?|[Ep Hn]]; [lia|].
    destruct (str_lt_cotrans (p_name x) (p_name y) (p_name z)) as [Hl|Hl]; [by rewrite Hn| |];
      apply Is_true_true in Hl; [left|right]; right; (split; [lia|done]).
  - intros x y Hxy%Is_true_true. apply not_true_iff_false. rewrite policyLess_outranks in *. intros Hyx.
    by apply (outranks_irrefl x), (outranks_trans x y x).
Qed.

(** Policies neither of which outranks the other have the same name. *)
Lemma outranks_total a b : ¬ outranks a b → ¬ outranks b a → p_name a = p_name b.
Proof.
  unfold outranks. intros Hab Hba. destruct (decide (p_priority a = p_priority b)) as [E|E].
  - apply str_lt_total; apply not_true_iff_false; intros Hlt; [apply Hab|apply Hba]; right; by split.
  - exfalso. destruct (decide (p_priority b < p_priority a)%Z); [apply Hab; by left|apply Hba; left; lia].
Qed.

Lemma StronglySorted_middle {A} (R : A → A → Prop) l1 x l2 y :
  StronglySorted R (l1 ++ x :: l2) → y ∈ l2 → R x y.
Proof.
  induction l1 as [|a l1 IH]; simpl; inversion 1 as [|? ? Hs Hall]; subst; [|by apply IH].
  rewrite Forall_forall in Hall. apply Hall.
Qed.

(** The first match of a list. *)
Lemma find_first {A} (f : A → bool) (l : list A) :
  match find f l with
  | None => ∀ x, x ∈ l → f x = false
  | Some x => f x = true ∧ ∃ l1 l2, l = l1 ++ x :: l2 ∧ ∀ y, y ∈ l1 → f y = false
  end.
Proof.
  induction l as [|a l IH]; simpl; [set_solver|]. destruct (f a) eqn:Ea.
  - split; [done|]. exists [], l. split; [done|]. set_solver.
  - destruct (find f l) as [x|].
    + destruct IH as (? & l1 & l2 & -> & Hl). split; [done|]. exists (a :: l1), l2. split; [done|].
      intros y [->|?]%elem_of_cons; [done|by apply Hl].
    + intros x [->|?]%elem_of_cons; [done|by apply IH].
Qed.

(** Everything is permitted: for specifications that only have a postcondition. *)
Abbreviation anything := (λ (_ : list (event sresp)) (_ : sev), True).

Lemma spec_anything {A} (p : prog sresp A) h : spec anything p h (λ _ _, True).
Proof. revert h. induction p as [a|e k IH]; intros h; simpl; [done|]. split; [done|]. intros r. apply IH. Qed.

Section stages.
Context `{SchemaOps, UnicodeTables, LabelOps, KubeNames, DiagnosisNames, ApiErrors, ScannerLibs, RetryClosures}.

Lemma Match_ready p target : Match (Some p) target = true → Ready (Some p) = true.
Proof. unfold Match. by destruct (Ready (Some p)). Qed.

(** The first match among the sorted ready policies is a winner among all. *)
Lemma find_sorted_winner compiled target :
  winnerOf (Some <$> compiled) target
    (find (λ c, Match (Some c) target) (sort_by policyLess (filter (λ c, Ready (Some c) = true) compiled))).
Proof.
  set (items := sort_by policyLess _).
  assert (Hitems : ∀ c, c ∈ items ↔ Ready (Some c) = true ∧ c ∈ compiled)
    by (intros c; unfold items; by rewrite elem_of_sort_by, list_elem_of_filter).
  assert (Hsome : ∀ c, Some c ∈ Some <$> compiled ↔ c ∈ compiled) by (intros c; rewrite list_elem_of_fmap; naive_solver).
  pose proof (find_first (λ candidate, Match (Some candidate) target) items) as Hf.
  destruct (find _ items) as [c|]; simpl; setoid_rewrite Hsome.
  - destruct Hf as (Hm & l1 & l2 & Hsplit & Hl1).
    assert (Hci : c ∈ items) by (rewrite Hsplit; set_solver). apply Hitems in Hci as [_ Hcc].
    split_and!; [done|done|]. intros d Hd Hmd.
    assert (Hdi : d ∈ items) by (apply Hitems; split; [by eapply Match_ready|done]).
    rewrite Hsplit in Hdi. apply elem_of_app in Hdi as [Hdi|Hdi]; [by rewrite Hl1 in Hmd|].
    apply elem_of_cons in Hdi as [->|Hdi]; [apply outranks_irrefl|].
    assert (Hss : StronglySorted (le_of policyLess) items) by (apply sort_by_strongly_sorted, _).
    rewrite Hsplit in Hss. apply (StronglySorted_middle _ _ _ _ d) in Hss; [|done].
    unfold le_of in Hss. by rewrite <-not_true_iff_false, policyLess_outranks in Hss.
  - intros d Hd. apply not_true_iff_false. intros Hmd. rewrite Hf in Hmd; [done|].
    apply Hitems. split; [by eapply Match_ready|done].
Qed.

(** ** The compile cache *)

(** The compilation of a policy does not depend on its status and, but for the
    validation time, not on when it happens. *)
Lemma Compile_congr src src' catalog now now' :
  om_UID (tp_Meta src) = om_UID (tp_Meta src') → om_Name (tp_Meta src) = om_Name (tp_Meta src') →
  om_Generation (tp_Meta src) = om_Generation (tp_Meta src') → tp_Spec src = tp_Spec src' →
  fst (Compile (Some src) catalog now) = fst (Compile (Some src') catalog now') ∧
  revalidated (snd (Compile (Some src) catalog now)) now' = snd (Compile (Some src') catalog now').
Proof.
  intros Hu Hn Hg Hs. unfold Compile. rewrite Hu, Hn, Hg, Hs. split; [done|]. unfold revalidated, validationStatus. simpl.
  f_equal. unfold condition. by repeat case_match.
Qed.

(** Every entry is the compilation, at some time, of a policy with its key,
    generation and specification. *)
Definition CacheOk (catalog : Snapshot) (cache : gmap policyCompileCacheKey policyCompileCacheEntry) : Prop :=
  ∀ uid name entry, cache !! (uid, name) = Some entry →
    ∃ src t, om_UID (tp_Meta src) = uid ∧ om_Name (tp_Meta src) = name ∧
      om_Generation (tp_Meta src) = ce_generation entry ∧ tp_Spec src = ce_spec entry ∧
      Compile (Some src) catalog t = (ce_compiled entry, ce_status entry).

(** What compiling afresh would give. *)
Definition freshEntry (catalog : Snapshot) (now : Time) (policy : TerminationPolicy) : policyCompileCacheEntry :=
  let '(compiled, status) := Compile (Some policy) catalog now in
  mkCacheEntry (om_Generation (tp_Meta policy)) (tp_Spec policy) compiled status.

Lemma cachedCompile_fresh catalog cache now policy :
  CacheOk catalog cache → cachedCompile cache catalog now policy = freshEntry catalog now policy.
Proof.
  intros Hok. unfold cachedCompile, freshEntry.
  destruct (Compile (Some policy) catalog now) as [compiled status] eqn:Ec.
  destruct (cache !! _) as [entry|] eqn:El; [|done].
  destruct (negb _ || negb _) eqn:Eg; [done|]. bool_prop.
  destruct (Hok _ _ _ El) as (src & t & Hu & Hn & Hgen & Hspec & Hsrc).
  destruct (Compile_congr src policy catalog t now) as [Hc Hst]; [done|done|congruence|congruence|].
  rewrite Hsrc, Ec in Hc, Hst. simpl in Hc, Hst. rewrite Hst, Hc. congruence.
Qed.

Lemma freshEntry_ok catalog now policy cache :
  CacheOk catalog cache →
  CacheOk catalog (<[(om_UID (tp_Meta policy), om_Name (tp_Meta policy)) := freshEntry catalog now policy]> cache).
Proof.
  intros Hok uid name entry. rewrite lookup_insert_Some. intros [[[= <- <-] <-]|[_ Hl]]; [|by apply Hok].
  exists policy, now. unfold freshEntry. destruct (Compile (Some policy) catalog now). done.
Qed.

(** What [compilePolicies] returns without a cache. *)
Definition compileAll (catalog : Snapshot) (now : Time) (policies : list TerminationPolicy) : compiledPolicies :=
  let compiled := (λ p, fst (Compile (Some p) catalog now)) <$> policies in
  mkCompiledPolicies (sort_by policyLess (filter (λ c, Ready (Some c) = true) compiled))
    (foldl (λ m c, <[p_uid c := c]> m) ∅ compiled).

(** The cache of the runner belongs to the catalog it remembers. *)
Definition RunnerOk (st : runnerState) : Prop :=
  ∀ catalog, SnapshotOk catalog → rs_policyCatalog st = Snapshot_Resources catalog →
    CacheOk catalog (rs_policyCompileCache st).

Lemma initial_runner_ok : RunnerOk (mkRunnerState [] ∅).
Proof. intros catalog _ _ uid name entry. simpl. by rewrite lookup_empty. Qed.

Lemma Snapshot_Resources_inj s1 s2 :
  SnapshotOk s1 → SnapshotOk s2 → Snapshot_Resources s1 = Snapshot_Resources s2 → s1 = s2.
Proof.
  intros H1' H2' E. unfold Snapshot_Resources in E. rewrite !cloneResources_id in E.
  rewrite <-(newSnapshot_id s1), <-(newSnapshot_id s2) by done. by rewrite E.
Qed.

Lemma compileLoop_spec cache catalog now policies nextCache byUID items h :
  CacheOk catalog cache → CacheOk catalog nextCache →
  spec anything (compileLoop cache catalog now policies nextCache byUID items) h (λ _ r,
    match r with
    | inl _ => True
    | inr (nextCache', byUID', items') =>
        let compiled := (λ p, fst (Compile (Some p) catalog now)) <$> policies in
        CacheOk catalog nextCache' ∧ byUID' = foldl (λ m c, <[p_uid c := c]> m) byUID compiled ∧
        items' = items ++ filter (λ c, Ready (Some c) = true) compiled
    end).
Proof.
  intros Hcache. revert nextCache byUID items h.
  induction policies as [|policy policies IH]; intros nextCache byUID items h Hnext; cbn [compileLoop]; cbv zeta.
  { apply spec_return. rewrite app_nil_r. done. }
  rewrite (cachedCompile_fresh catalog cache now policy Hcache).
  eapply spec_call; [apply spec_anything|]. intros h1 [e|] _; [done|].
  eapply spec_mono; [by apply IH, freshEntry_ok|]. intros h2 [e|[[nextCache' byUID'] items']]; [done|].
  intros (Hc & -> & ->). split; [done|].
  assert (Ef : ce_compiled (freshEntry catalog now policy) = fst (Compile (Some policy) catalog now))
    by (unfold freshEntry; by destruct (Compile _ _ _)).
  rewrite Ef, fmap_cons. split; [done|]. rewrite filter_cons.
  destruct (Ready (Some (fst (Compile (Some policy) catalog now)))) eqn:Er; simpl.
  - rewrite <-app_assoc. done.
  - done.
Qed.

Lemma compilePolicies_spec st catalog now h :
  RunnerOk st → SnapshotOk catalog →
  spec anything (compilePolicies st catalog now) h (λ h' r,
    match r with
    | inl _ => True
    | inr (policies, st') =>
        (∃ l, policies = compileAll catalog now l ∧ evt SListPolicies (inr l : sresp SListPolicies) ∈ h') ∧ RunnerOk st'
    end).
Proof.
  intros Hst Hcat. unfold compilePolicies. apply spec_event; [done|]. intros [x|l]; [done|]. cbv zeta.
  set (h0 := evt SListPolicies (inr l : sresp SListPolicies) :: h).
  assert (Hin : ∀ A (p : prog sresp A), spec anything p h0 (λ h' _, evt SListPolicies (inr l : sresp SListPolicies) ∈ h')).
  { intros A p. assert (Hm : ∀ h1, evt SListPolicies (inr l : sresp SListPolicies) ∈ h1 →
      spec anything p h1 (λ h' _, evt SListPolicies (inr l : sresp SListPolicies) ∈ h')).
    { induction p as [a|e k IHp]; intros h1 Hh; simpl; [done|]. split; [done|]. intros r. apply IHp. by right. }
    apply Hm. by left. }
  eapply spec_call; [apply spec_conj; [apply compileLoop_spec|apply Hin]|].
  - case_bool_decide as E; [by apply Hst|]. intros uid name entry. by rewrite lookup_empty.
  - intros uid name entry. by rewrite lookup_empty.
  - intros h1 [e|[[nextCache byUID] items]] [Hr Hh]; [done|]. destruct Hr as (Hc & -> & ->). simpl app.
    split; [done|]. intros r1. simpl. split; [done|]. intros r2. simpl. split.
    + exists l. split; [done|]. by right; right.
    + intros catalog' Hok' E'. simpl in E'. apply Snapshot_Resources_inj in E'; [|done|done]. by subst.
Qed.
End stages.

(** ** Retries *)

Section retries.
Context `{ApiErrors, !RetryClosures, !RetryClosureLaws}.

(** Retrying preserves a specification that each attempt re-establishes, given what
    the attempt leaves in the variables it captures. *)
Lemma spec_RetryClosure (J : list (event sresp) → sev → Prop) {V} (v : V) fn h (Q : list (event sresp) → V * option error → Prop) (I : V → list (event sresp) → Prop) :
  I v h →
  (∀ v h, I v h → spec J (fn v) h (λ h' r, (errIs IsConflict (snd r) = true → I (fst r) h') ∧ Q h' r)) →
  spec J (RetryClosure v fn) h Q.
Proof.
  intros Hi Hfn. destruct RetryClosure_retries as [n Hn]. rewrite Hn. clear Hn.
  revert v h Hi. induction n as [|n IH]; intros v h Hi; simpl; (eapply spec_call; [by apply Hfn|]).
  - by intros h' [v' err] [_ Hq].
  - intros h' [v' err] [Hc Hq]. simpl in Hc. destruct (errIs IsConflict err); [by apply IH, Hc|done].
Qed.

(** An attempt that performs nothing and succeeds is not repeated. *)
Lemma RetryClosure_quiet {V} (v : V) (fn : V → SP (V * option error)) : fn v = mret (v, None) → RetryClosure v fn = mret (v, None).
Proof. intros E. destruct RetryClosure_retries as [n Hn]. rewrite Hn. by destruct n; simpl; rewrite E. Qed.
End retries.

(** ** Properties *)

Section properties.
Context `{SchemaOps, UnicodeTables, LabelOps, KubeNames, DiagnosisNames, ApiErrors, ScannerLibs, RetryClosures}.

(** The scan's choice is the policy engine's: taking the first match in the
    list of ready policies sorted by descending priority and then name gives the
    same winner as the reference [SelectWinning] over all compiled policies,
    whenever policy names are distinct, as the API guarantees. *)
Theorem selectWinning_reference catalog now policies target :
  NoDup ((λ p, om_Name (tp_Meta p)) <$> policies) →
  selectWinning (compileAll catalog now policies) target =
  SelectWinning ((λ p, Some (fst (Compile (Some p) catalog now))) <$> policies) target.
Proof.
  intros Hnd. set (compile := λ p, fst (Compile (Some p) catalog now)).
  assert (Hnames : ∀ a b, a ∈ compile <$> policies → b ∈ compile <$> policies → p_name a = p_name b → a = b).
  { intros a b (pa & -> & Ha)%list_elem_of_fmap (pb & -> & Hb)%list_elem_of_fmap En.
    change (om_Name (tp_Meta pa) = om_Name (tp_Meta pb)) in En. f_equal.
    induction policies as [|q qs IH]; [by apply elem_of_nil in Ha|].
    rewrite fmap_cons, NoDup_cons in Hnd. destruct Hnd as [Hq Hnd].
    apply elem_of_cons in Ha as [->|Ha], Hb as [->|Hb]; [done| | |by apply IH];
      exfalso; apply Hq, list_elem_of_fmap; eauto. }
  change ((λ p, Some (fst (Compile (Some p) catalog now))) <$> policies) with ((Some ∘ compile) <$> policies).
  rewrite list_fmap_compose. pose proof (SelectWinning_winner (Some <$> (compile <$> policies)) target) as Hw.
  pose proof (find_sorted_winner (compile <$> policies) target) as Hf. fold compile in Hf.
  change (selectWinning _ target) with
    (find (λ c, Match (Some c) target) (sort_by policyLess (filter (λ c, Ready (Some c) = true) (compile <$> policies)))).
  assert (Hsome : ∀ c, Some c ∈ Some <$> (compile <$> policies) ↔ c ∈ compile <$> policies)
    by (intros c; rewrite list_elem_of_fmap; naive_solver).
  destruct (find _ _) as [c|], (SelectWinning _ target) as [w|]; simpl in Hf, Hw.
  2: { destruct Hf as (Hc & Hmc & _). by rewrite Hw in Hmc. }
  2: { destruct Hw as (Hc & Hmc & _). by rewrite Hf in Hmc. }
  2: done.
  destruct Hf as (Hc & Hmc & Hmaxc), Hw as (Hw & Hmw & Hmaxw). f_equal. apply Hnames; [by apply Hsome..|].
  apply outranks_total; [by apply Hmaxw|by apply Hmaxc].
Qed.

(** C30: the compile cache is transparent: from a runner whose cache belongs to the
    catalog it remembers (as the initial one does), against a well-formed catalog,
    the policies of a cycle are exactly those that compiling every listed policy
    afresh gives, and the runner keeps the invariant; an unchanged catalog, key,
    generation and specification never yield a stale policy. *)
Theorem compilePolicies_cached st catalog now tr r :
  RunnerOk st → SnapshotOk catalog → runs (compilePolicies st catalog now) tr r →
  match r with
  | inl _ => True
  | inr (policies, st') =>
      (∃ l, policies = compileAll catalog now l ∧ evt SListPolicies (inr l : sresp SListPolicies) ∈ tr) ∧
      RunnerOk st'
  end.
Proof.
  intros Hst Hcat Hr. destruct (spec_sound _ _ _ _ _ _ (compilePolicies_spec st catalog now [] Hst Hcat) Hr) as [Hq _].
  rewrite app_nil_r in Hq. destruct r as [e|[policies st']]; [done|]. destruct Hq as [(l & -> & Hin) Hok].
  split; [|done]. exists l. split; [done|]. by rewrite elem_of_reverse in Hin.
Qed.

(** The state of the budget after a sequence of reservations, and what each got. *)
Fixpoint reservations (b : targetBudget) (uids : list UID) : list (UID * bool) * targetBudget :=
  match uids with
  | [] => ([], b)
  | uid :: uids' =>
      let '(granted, b) := reserve b uid in
      let '(rest, b) := reservations b uids' in ((uid, granted) :: rest, b)
  end.

Lemma reservations_inv maximum uids b :
  tb_maximum b = maximum → (Z.of_nat (size (tb_reserved b)) ≤ Z.max 0 maximum)%Z →
  let '(granted, b') := reservations b uids in
  tb_maximum b' = maximum ∧ tb_reserved b ⊆ tb_reserved b' ∧
  (Z.of_nat (size (tb_reserved b')) ≤ Z.max 0 maximum)%Z ∧
  (∀ uid, uid ∈ tb_reserved b ∨ (uid, true) ∈ granted ↔ uid ∈ tb_reserved b') ∧
  (∀ uid, (uid, false) ∈ granted → uid ∉ tb_reserved b' ∧ Z.of_nat (size (tb_reserved b')) = Z.max 0 maximum).
Proof.
  revert b. induction uids as [|uid uids IH]; intros b Hmax Hsize; cbn [reservations].
  { split_and!; set_solver. }
  unfold reserve. case_bool_decide as Hin; [|case_bool_decide as Hfull].
  - specialize (IH b Hmax Hsize). destruct (reservations b uids) as [granted b'].
    destruct IH as (? & Hsub & ? & Hg & Hf). split_and!; [done|done|done| |].
    + intros u. rewrite elem_of_cons, <-Hg. set_solver.
    + intros u [[=]|Hu]%elem_of_cons. by apply Hf.
  - specialize (IH b Hmax Hsize). destruct (reservations b uids) as [granted b'].
    destruct IH as (? & Hsub & Hs & Hg & Hf).
    assert (Hge : (size (tb_reserved b) ≤ size (tb_reserved b'))%nat) by (by apply subseteq_size).
    assert (Esz : tb_reserved b' = tb_reserved b).
    { symmetry. apply leibniz_equiv, set_subseteq_size_equiv; [done|lia]. }
    split_and!; [done|done|done| |].
    + intros u. rewrite elem_of_cons, <-Hg. set_solver.
    + intros u [[= ->]|Hu]%elem_of_cons; [|by apply Hf]. rewrite Esz. split; [done|]. rewrite Esz in Hs. lia.
  - specialize (IH (mkTargetBudget (tb_maximum b) ({[uid]} ∪ tb_reserved b))).
    assert (Hs' : size ({[uid]} ∪ tb_reserved b) = S (size (tb_reserved b)))
      by (rewrite size_union, size_singleton by set_solver; lia).
    cbn [tb_reserved tb_maximum] in *. rewrite Hs' in IH.
    destruct (reservations _ uids) as [granted b']. destruct IH as (? & Hsub & ? & Hg & Hf); [done|lia|].
    split_and!; [done|set_solver|done| |].
    + intros u. rewrite elem_of_cons, <-Hg. set_solver.
    + intros u [[=]|Hu]%elem_of_cons. by apply Hf.
Qed.
(** C31: the target budget is a bound under any interleaving of the workers: at most
    the configured number of distinct targets is ever admitted, the admitted ones
    are exactly the reserved ones, a target that was admitted is admitted again,
    and a refusal means the budget is full. *)
Theorem targetBudget_bound maximum uids :
  let '(granted, b) := reservations (mkTargetBudget maximum ∅) uids in
  (Z.of_nat (size (tb_reserved b)) ≤ Z.max 0 maximum)%Z ∧
  (∀ uid, (uid, true) ∈ granted ↔ uid ∈ tb_reserved b) ∧
  (∀ uid, (uid, false) ∈ granted → uid ∉ tb_reserved b ∧ Z.of_nat (size (tb_reserved b)) = Z.max 0 maximum).
Proof.
  pose proof (reservations_inv maximum uids (mkTargetBudget maximum ∅) eq_refl) as Hinv.
  destruct (reservations _ _) as [granted b].
  destruct Hinv as (_ & _ & Hs & Hg & Hf); [cbn [tb_reserved]; rewrite size_empty; lia|].
  split_and!; [done| |done]. intros uid. rewrite <-Hg. set_solver.
Qed.
End properties.
