(* ===== verification/IncidentProps.v ===== *)
(** * Properties of incident statuses

    What [persistDiagnosis] gets accepted by the API is derived from its runs; it is
    stable under the next diagnosis with the same outcome, and the retention that it
    records is read back unchanged. *)
From S2P Require Import Prelude GoText ApiTypes Discovery Policy GoErrors Prog KubeTypes Collector Analyzers Diagnosis Durations DurationProps Scanner Incidents ScannerProps.

Local Open Scope prog_scope.

Section properties.
Context `{SchemaOps, UnicodeTables, LabelOps, KubeNames, DiagnosisNames, ApiErrors, ScannerLibs, !RetryClosures, !RetryClosureLaws}.
Context (config : Config).

(** ** Stability *)

Lemma conditionsByType_lookup l c :
  NoDup (c_Type <$> l) → c ∈ l → conditionsByType l !! c_Type c = Some c.
Proof.
  induction l as [|x l IH] using rev_ind; [by intros _ ?%elem_of_nil|]. rewrite fmap_app. intros (Hl & Hd & _)%NoDup_app Hc.
  unfold conditionsByType in *. rewrite foldl_app. simpl. apply elem_of_app in Hc as [Hc|Hc%list_elem_of_singleton].
  - rewrite lookup_insert_ne; [by apply IH|]. intros E. apply (Hd (c_Type c)); [by apply list_elem_of_fmap_2|rewrite <-E; by left].
  - subst c. by rewrite lookup_insert_eq.
Qed.

(** The same condition, but for the time of its last transition. *)
Definition sameCondition (a b : Condition) : Prop := ∀ t, with_transition a t = with_transition b t.

Lemma preserve_stable current desired desired' :
  NoDup (c_Type <$> desired) → Forall2 sameCondition desired desired' →
  let stored := preserveConditionTransitions current desired in
  preserveConditionTransitions stored desired' = stored.
Proof.
  cbv zeta. intros Hnd Hsame. unfold preserveConditionTransitions at 2 3. cbv zeta.
  set (f := λ d, match _ with Some _ => _ | None => _ end). assert (Hf : ∀ d, f d = with_transition d (c_LastTransitionTime (f d))).
  { intros d. unfold f. repeat case_match; by destruct d. }
  assert (Ht : c_Type <$> (f <$> desired) = c_Type <$> desired).
  { rewrite <-list_fmap_compose. apply list_fmap_ext. intros _ d _. simpl. by rewrite Hf. }
  unfold preserveConditionTransitions. cbv zeta.
  assert (Hl : ∀ d, d ∈ desired → conditionsByType (f <$> desired) !! c_Type d = Some (f d)).
  { intros d Hd. replace (c_Type d) with (c_Type (f d)) by (by rewrite Hf). apply conditionsByType_lookup; [by rewrite Ht|by apply list_elem_of_fmap_2]. }
  clearbody f. clear Ht Hnd. revert Hl. generalize (conditionsByType (f <$> desired)). intros m Hl.
  induction Hsame as [|d d' l l' Hd Hs IH]; [done|]. cbn [fmap list_fmap]. f_equal; [|apply IH; intros x Hx; apply Hl; by right].
  assert (Et : c_Type d' = c_Type d) by (by pose proof (f_equal c_Type (Hd 0%Z))).
  assert (Es : c_Status d' = c_Status d) by (by pose proof (f_equal c_Status (Hd 0%Z))).
  rewrite Et, (Hl d) by (by left). rewrite bool_decide_eq_true_2 by (by rewrite Hf, Es). by rewrite <-Hd, <-Hf.
Qed.

Lemma preserve_diagnosisConditions current result now now' :
  let stored := preserveConditionTransitions current (diagnosisConditions result now) in
  preserveConditionTransitions stored (diagnosisConditions result now') = stored.
Proof.
  apply preserve_stable; unfold diagnosisConditions; repeat case_match; simplify_eq.
  all: first [by apply (bool_decide_unpack _)|by repeat constructor].
Qed.

Lemma evidenceWindow_stable current result now now' :
  let '(t, e) := evidenceWindow config current result now in
  (∀ expires, e = Some expires → (Z.max (cfg_Interval config) (cfg_Timeout config) < Time_Sub expires now')%Z) →
  ∀ st, di_RecommendedActions st = res_Actions result → di_ActionEvidenceTime st = t → di_ActionEvidenceExpiresTime st = e →
  evidenceWindow config st result now' = (t, e).
Proof.
  unfold evidenceWindow. destruct (res_DiagnosisComplete result && _); [|done]. cbv zeta.
  set (lead := Z.max _ _).
  assert (Hgo : ∀ t e : Time, (lead < Time_Sub e now')%Z → ∀ st, di_RecommendedActions st = res_Actions result →
    di_ActionEvidenceTime st = Some t → di_ActionEvidenceExpiresTime st = Some e →
    match di_ActionEvidenceTime st, di_ActionEvidenceExpiresTime st with
    | Some t, Some expires =>
        if negb (bool_decide (di_RecommendedActions st = res_Actions result)) || bool_decide (Time_Sub expires now' ≤ lead)%Z
        then (Some now', Some (Time_Add now' (int64 (cfg_Timeout config + int64 (2 * cfg_Interval config)))))
        else (Some t, Some expires)
    | _, _ => (Some now', Some (Time_Add now' (int64 (cfg_Timeout config + int64 (2 * cfg_Interval config)))))
    end = (Some t, Some e)).
  { intros t e Hl st Ha -> ->. rewrite (bool_decide_eq_true_2 _ Ha), bool_decide_eq_false_2 by lia. done. }
  repeat case_match; simplify_eq; intros Hl st Ha Ht He; apply Hgo; auto.
Qed.

(** The next diagnosis with the same result aims at the status that is there. *)
Lemma desiredStatus_stable observed result now now' current t :
  let st := desiredStatus config observed result now current in
  di_LastObservedTime st = Some t → (Time_Sub now' t < observationRefresh)%Z →
  (∀ expires, di_ActionEvidenceExpiresTime st = Some expires →
     (Z.max (cfg_Interval config) (cfg_Timeout config) < Time_Sub expires now')%Z) →
  desiredStatus config observed result now' st = st.
Proof.
  cbv zeta. intros Ht Hlt He. pose proof (evidenceWindow_stable current result now now') as Hw. unfold desiredStatus in *.
  destruct (evidenceWindow config current result now) as [et ee]. simpl in Ht, He. simpl.
  rewrite (Hw He) by done. rewrite preserve_diagnosisConditions, Ht. f_equal.
  by rewrite bool_decide_eq_false_2 by lia.
Qed.
(** ** What a diagnosis writes *)

(** The incident as [persistDiagnosis] leaves it: [persistDiagnosis_persisted] below
    derives this from its runs. *)
Definition persisted (observed : observation) (result : DiagnosisResult) (now : Time) (base : DeletionIncident) : DeletionIncident :=
  with_incident_status (with_annotation base retentionAnnotation (retentionText observed))
    (desiredStatus config observed result now (inc_Status base)).

(** The API stores what it accepts: a patch leaves the retention annotation that it
    sets, and a status update the status it carries and the annotations of the
    object (it is refused with a conflict when they have changed meanwhile). *)
Definition storesWrites (x : event sresp) : Prop :=
  match x with
  | existT e r =>
      match e return sresp e → Prop with
      | SPatchIncident _ w => λ r, match r with inr i => om_Annotations (inc_Meta i) !! retentionAnnotation = om_Annotations (inc_Meta w) !! retentionAnnotation | inl _ => True end
      | SUpdateIncident w => λ r, match r with inr i => inc_Status i = inc_Status w ∧ om_Annotations (inc_Meta i) = om_Annotations (inc_Meta w) | inl _ => True end
      | _ => λ _, True
      end r
  end.

Abbreviation accepted w stored := (evt (SUpdateIncident w) (inr stored : sresp (SUpdateIncident _))).

(** The status updates accepted so far are those of this diagnosis. *)
Definition Written (observed : observation) (result : DiagnosisResult) (now : Time) (h : list (event sresp)) : Prop :=
  Forall storesWrites h → ∀ w stored, accepted w stored ∈ h → ∃ base, w = persisted observed result now base.

Definition acceptedUpdate (x : event sresp) : bool :=
  match x with
  | existT e r =>
      match e return sresp e → bool with
      | SUpdateIncident _ => λ r, match r with inr _ => true | inl _ => false end
      | _ => λ _, false
      end r
  end.
Definition Unwritten (h : list (event sresp)) : Prop := ∀ w stored, accepted w stored ∉ h.

Lemma Unwritten_cons x h : acceptedUpdate x = false → Unwritten h → Unwritten (x :: h).
Proof. intros Hx Hu w stored [<-|?%Hu]%elem_of_cons; [discriminate Hx|done]. Qed.

Lemma retentionText_nonempty observed : retentionText observed ≠ "".
Proof.
  assert (Hr : ∀ a b : string, b ≠ "" → a +:+ b ≠ "") by (by intros []).
  unfold retentionText, Duration_String. case_match; [done|]. unfold absText.
  repeat case_match; try done; repeat (first [done|apply Hr]).
Qed.

Lemma persisted_annotated observed result now i :
  default "" (om_Annotations (inc_Meta i) !! retentionAnnotation) = retentionText observed →
  with_incident_status i (desiredStatus config observed result now (inc_Status i)) = persisted observed result now i.
Proof.
  intros Ha. pose proof (retentionText_nonempty observed) as Hn. unfold persisted. f_equal.
  destruct (om_Annotations (inc_Meta i) !! retentionAnnotation) as [v|] eqn:E; simpl in Ha; [subst v|congruence].
  unfold with_annotation. rewrite insert_id by done. by destruct i as [[]].
Qed.

Lemma spec_sGetIncident_quiet name h (Q : list (event sresp) → error + DeletionIncident → Prop) :
  Unwritten h → (∀ h' r, Unwritten h' → Q h' r) → spec anything (sGetIncident name) h Q.
Proof. intros Hu Hq. split; [done|]. intros [x|i]; apply Hq; by apply Unwritten_cons. Qed.

(** One attempt leaves everything unwritten, or succeeds with the write of this
    diagnosis. *)
Lemma persistAttempt_writes name observed result now v h :
  Unwritten h →
  spec anything (persistAttempt config name observed result now v) h (λ h' r,
    Unwritten h' ∨ (snd r = None ∧ Written observed result now h')).
Proof.
  intros Hu. unfold persistAttempt. eapply (spec_orElse _ (λ h' r, Unwritten h')).
  { destruct (pa_current v); [done|].
    eapply spec_call; [by apply (spec_sGetIncident_quiet _ _ (λ h _, Unwritten h))|]. by intros h1 []. }
  { by left. }
  intros h1 [current aliased] Hu1. cbv zeta.
  eapply (spec_orElse _ (λ h' r, Unwritten h' ∧ match r with inl b => True | inr (i, _) =>
    Forall storesWrites h' → default "" (om_Annotations (inc_Meta i) !! retentionAnnotation) = retentionText observed end)).
  { case_bool_decide; [done|]. split; [done|].
    intros [x|i]; (split; [by apply Unwritten_cons|]); [done|].
    intros [Hs _]%Forall_cons. simpl in Hs. rewrite Hs. simpl. by rewrite lookup_insert_eq. }
  { intros h2 b [? _]. by left. }
  intros h2 [i listed] [Hu2 Ha]. case_bool_decide; [by left|]. split; [done|].
  intros [x|stored]; [left; by apply Unwritten_cons|].
  right. split; [done|]. intros [_ Hs]%Forall_cons w s Hin. exists i.
  apply elem_of_cons in Hin as [Hin|[]%Hu2]. rewrite <-persisted_annotated by auto.
  by apply (f_equal projT1) in Hin as [= ->].
Qed.

Lemma persistStatus_writes name observed result now v h :
  Unwritten h →
  spec anything (persistStatus config name observed result now v) h (λ h' r, r.1.2 = None → Written observed result now h').
Proof.
  intros Hu. unfold persistStatus. eapply spec_call.
  { apply (spec_RetryClosure _ _ _ _ (λ h' r, snd r = None → Written observed result now h') (λ _ h', Unwritten h')); [done|].
    intros w h1 Hu1. eapply spec_mono; [by apply persistAttempt_writes|].
    intros h2 [w' err] [Hn|[E Hw]]; simpl in *; [split; [done|]|by subst]. by intros _ _ ?? []%Hn. }
  intros h1 [w err] Hw. destruct (errIs _ err) eqn:Ee; [|done].
  eapply spec_call; [apply spec_anything|]. intros h2 e _. destruct err as [err|]; [|by vm_compute in Ee].
  simpl. unfold errors_Join. simpl. by destruct e.
Qed.

(** Whatever the API answers, the only status update that a successful
    [persistDiagnosis] of a live target gets accepted is [persisted]. *)
Lemma persistDiagnosis_persisted observed result existing now tr r :
  res_TargetFound result = true → res_UIDMatches result = true →
  runs (persistDiagnosis config observed result existing now) tr r → r.1.2 = None → Forall storesWrites tr →
  ∀ w stored, accepted w stored ∈ tr → ∃ base, w = persisted observed result now base.
Proof.
  intros Hf Hm Hr He Hs w stored Hin.
  assert (Hspec : spec anything (persistDiagnosis config observed result existing now) [] (λ h' r, r.1.2 = None → Written observed result now h')).
  { assert (Hk : ∀ h v, Unwritten h → spec anything (persistStatus config (incidentName (tr_UID (ob_target observed))) observed result now v) h
      (λ h' r, r.1.2 = None → Written observed result now h')) by (intros; by apply persistStatus_writes).
    assert (Hn : ∀ h, Unwritten h → Written observed result now h) by (intros h Hu _ ?? []%Hu).
    assert (Hu : Unwritten []) by (by intros ?? ?%elem_of_nil).
    unfold persistDiagnosis. cbv zeta. rewrite Hf, Hm. simpl negb. cbv iota.
    destruct existing as [i|]; [by destruct (negb _); [|apply Hk]|].
    eapply spec_call; [by apply (spec_sGetIncident_quiet _ _ (λ h _, Unwritten h))|].
    intros h1 [err|i] Hu1.
    - destruct (IsNotFound err); [|by intros]. destruct (_ || _); [by intros _; apply Hn|]. split; [done|].
      intros y. assert (Hu2 := Hu1). eapply Unwritten_cons in Hu2; [|exact (eq_refl false : acceptedUpdate (existT (SCreateIncident _) y) = false)].
      destruct y as [x|]; [|by apply Hk]. cbn. destruct (negb _); [by intros|by apply Hk].
    - destruct (negb _); [by intros|]. by apply Hk. }
  destruct (spec_sound _ _ _ _ _ _ Hspec Hr) as [Hq _]. rewrite app_nil_r in Hq.
  eapply (Hq He); [by apply Forall_reverse|by rewrite elem_of_reverse].
Qed.

(** ** Quiescence *)

(** C38: a diagnosis that changes nothing writes nothing.  Take a run of
    [persistDiagnosis] for a live target that succeeds against an API that stores what
    it accepts; its accepted status update, if any, is [persisted].  When the target
    is diagnosed again with the same result on the incident so stored, less than
    [observationRefresh] after the recorded observation time, and with evidence, if it
    has any, that outlasts the scan interval and timeout, then [persistDiagnosis]
    performs no request at all: it leaves the incident, condition transition times
    included, and the metrics flag as they are, and succeeds. *)
Theorem persist_quiescent observed result existing now now' tr r w stored t :
  res_TargetFound result = true → res_UIDMatches result = true →
  runs (persistDiagnosis config observed result existing now) tr r → r.1.2 = None → Forall storesWrites tr →
  evt (SUpdateIncident w) (inr stored : sresp (SUpdateIncident w)) ∈ tr →
  incidentUID stored = tr_UID (ob_target observed) →
  di_LastObservedTime (inc_Status stored) = Some t → (Time_Sub now' t < observationRefresh)%Z →
  (∀ expires, di_ActionEvidenceExpiresTime (inc_Status stored) = Some expires →
     (Z.max (cfg_Interval config) (cfg_Timeout config) < Time_Sub expires now')%Z) →
  (∃ base, w = persisted observed result now base) ∧
  persistDiagnosis config observed result (Some stored) now' = mret (false, None, Some stored).
Proof.
  intros Hf Hm Hr He Hs Hin Hu Ht Hlt Hev.
  destruct (persistDiagnosis_persisted _ _ _ _ _ _ Hf Hm Hr He Hs _ _ Hin) as [base ->]. split; [by exists base|].
  rewrite Forall_forall in Hs. destruct (Hs _ Hin) as [Est Ean]. clear Hs Hin Hr.
  unfold persistDiagnosis, persistStatus. cbv zeta. rewrite bool_decide_eq_true_2, Hf, Hm by done. simpl negb. cbv iota.
  rewrite RetryClosure_quiet; [done|].
  unfold persistAttempt, orElse. cbn [pa_dirty pa_current pa_aliased pa_listed]. simpl.
  rewrite Ean. simpl. rewrite lookup_insert_eq. simpl. rewrite bool_decide_eq_true_2 by done. simpl.
  rewrite (bool_decide_eq_true_2 (_ = desiredStatus _ _ _ _ _)); [done|]. symmetry. rewrite Est in *. by eapply desiredStatus_stable.
Qed.

(** ** Retention *)

Lemma retention_reads_back i observed policies :
  let ttl := set_ResolvedIncidentTTL (p_settings (ob_policy observed)) in
  (0 < ttl ≤ maxInt64)%Z →
  om_Annotations (inc_Meta i) !! retentionAnnotation = Some (retentionText observed) →
  cp_byUID policies !! policyUID (di_ActivePolicyRef (inc_Status i)) = None →
  incidentRetention i policies = Some ttl.
Proof.
  cbv zeta. intros Hb Ha Hp. unfold incidentRetention. cbv zeta. rewrite Hp, Ha. simpl. unfold retentionText.
  assert (Hr : ParseDuration (Duration_String (set_ResolvedIncidentTTL (p_settings (ob_policy observed)))) =
    Some (set_ResolvedIncidentTTL (p_settings (ob_policy observed)))) by (apply ParseDuration_String; unfold minInt64; lia).
  rewrite (bool_decide_eq_false_2 (_ = "")); [|intros E; rewrite E in Hr; discriminate Hr].
  rewrite Hr, bool_decide_eq_true_2 by lia. done.
Qed.

(** C21: the retention outlives its policy: the annotation that [persistDiagnosis]
    writes is read back as exactly the policy's retention, to the nanosecond, once
    the policy is gone from the active ones; so an incident that is resolved later is
    deleted by the first lifecycle pass at or after its resolution time plus that
    retention, and not before. *)
Theorem retention_outlives_policy observed result written_at base reason resolved_at observations coverage catalog policies now :
  let ttl := set_ResolvedIncidentTTL (p_settings (ob_policy observed)) in
  let persistedIncident := persisted observed result written_at base in
  let i := with_incident_status persistedIncident (resolvedStatus persistedIncident reason resolved_at) in
  (0 < ttl ≤ maxInt64)%Z → cp_byUID policies !! p_uid (ob_policy observed) = None →
  lifecycleOf observations coverage catalog policies now i =
    if bool_decide (Time_Add resolved_at ttl ≤ now)%Z then LifecycleDelete else LifecycleKeep.
Proof.
  cbv zeta. intros Hb Hp. set (i := with_incident_status _ _).
  assert (Hr : incidentRetention i policies = Some (set_ResolvedIncidentTTL (p_settings (ob_policy observed)))).
  { apply retention_reads_back; [done|simpl; by rewrite lookup_insert_eq|].
    unfold i, persisted, desiredStatus. simpl. by destruct (evidenceWindow _ _ _ _). }
  unfold lifecycleOf. rewrite Hr. change (resolved i) with true. cbv iota. unfold i. simpl. unfold Time_Before.
  do 2 case_bool_decide; simpl; (done || lia).
Qed.
End properties.
