(* ===== verification/ScanListing.v ===== *)
(** * What the scanner lists

    Page chains of the scan's listings, what a list job retains, and what the
    coverage and the observations collected from the jobs mean. *)
From S2P Require Import Prelude GoText ApiTypes Discovery Policy GoErrors Prog KubeTypes Collector Analyzers Diagnosis DiagnosisSafety Durations Scanner.

Local Open Scope prog_scope.

Abbreviation shist := (list (event sresp)).
Definition slisted (gvr : GroupVersionResource) (limit : Z) (continue : string) (l : MetadataList) : event sresp :=
  evt (SListMeta gvr limit continue) (inr l).

(** Following the continue tokens from [token], the listing reached its last page. *)
Inductive ScanPages (h : shist) (gvr : GroupVersionResource) : string → list ObjectMeta → Prop :=
  | scan_last limit token l :
      slisted gvr limit token l ∈ h → ml_Continue l = "" → ScanPages h gvr token (ml_Items l)
  | scan_more limit token l items :
      slisted gvr limit token l ∈ h → ml_Continue l ≠ "" → ScanPages h gvr (ml_Continue l) items →
      ScanPages h gvr token (ml_Items l ++ items).

Lemma ScanPages_mono h h' gvr token items :
  extends h h' → ScanPages h gvr token items → ScanPages h' gvr token items.
Proof. intros He. induction 1; [eapply scan_last|eapply scan_more]; try done; by eapply extends_elem. Qed.

(** Pages that ask for another one, in the scan's own listings and in those of the
    diagnoses it runs. *)
Definition scanNonfinal (x : event sresp) : bool :=
  match x with
  | existT e r =>
      match e return sresp e → bool with
      | SListMeta _ _ _ => λ r, match r with inr l => negb (bool_decide (ml_Continue l = "")) | inl _ => false end
      | SDiagnosis e' => λ r, nonfinal (evt e' r)
      | _ => λ _, false
      end r
  end.
Definition scanPages (h : shist) : nat := length (filter (λ x, scanNonfinal x = true) h).

(** Events that neither change the cluster nor give up. *)
Definition benign (e : sev) : bool :=
  match e with
  | SCreateIncident _ | SPatchIncident _ _ | SUpdateIncident _ | SDeleteIncident _
  | SDiagnosis _ | SDiverge | SPanic => false
  | _ => true
  end.

(** Some page of a listing had the item. *)
Definition ScanListed (h : shist) (gvr : GroupVersionResource) (item : ObjectMeta) : Prop :=
  ∃ limit token l, slisted gvr limit token l ∈ h ∧ item ∈ ml_Items l.
Lemma ScanListed_mono h h' gvr item : extends h h' → ScanListed h gvr item → ScanListed h' gvr item.
Proof. intros He (a & b & l & Hin & Hi). exists a, b, l. split; [by eapply extends_elem|done]. Qed.

Lemma elem_snoc {A} (x y : A) l : x ∈ l ++ [y] ↔ x ∈ l ∨ x = y.
Proof. by rewrite elem_of_app, list_elem_of_singleton. Qed.

Section listing.
Context `{SchemaOps, UnicodeTables, LabelOps, KubeNames, DiagnosisNames, ApiErrors, ScannerLibs, RetryClosures}.
Context (config : Config) (fuel : nat).

(** Any discipline that permits reads and bookkeeping, and giving up after [fuel]
    continue tokens. *)
Context (J : shist → sev → Prop).
Hypothesis J_benign : ∀ h e, benign e = true → J h e.
Hypothesis J_diverge : ∀ h, fuel ≤ scanPages h → J h SDiverge.

Lemma scanPages_extends h h' : extends h h' → scanPages h ≤ scanPages h'.
Proof. intros [l ->]. unfold scanPages. rewrite filter_app, length_app. lia. Qed.

Lemma scanPages_more gvr limit token (l : MetadataList) h :
  ml_Continue l ≠ "" → scanPages (slisted gvr limit token l :: h) = S (scanPages h).
Proof.
  intros Hc. unfold scanPages. rewrite filter_cons_True; [done|]. simpl. by rewrite bool_decide_eq_false_2.
Qed.

(** *** Namespace labels *)

Definition labelsOf (items : list ObjectMeta) : gmap string (gmap string string) :=
  foldl (λ m item, <[om_Name item := om_Labels item]> m) ∅ items.

Lemma labelPages_spec n token labels h :
  fuel ≤ scanPages h + n →
  spec J (labelPages config n token labels) h (λ h' r, extends h h' ∧
    match r with
    | inl _ => True
    | inr labels' => ∃ items, ScanPages h' namespacesGVR token items ∧
        labels' = foldl (λ m item, <[om_Name item := om_Labels item]> m) labels items
    end).
Proof using J_benign J_diverge.
  revert token labels h. induction n as [|n IH]; intros token labels h Hn; cbn [labelPages].
  { split; [apply J_diverge; lia|]. intros []. }
  apply spec_event; [by apply J_benign|]. intros [x|l]; [apply spec_return; split; [ext_solve|done]|]. cbv zeta.
  destruct (decide (ml_Continue l = "")) as [Ec|Ec].
  - apply spec_return. split; [ext_solve|]. exists (ml_Items l). split; [|done]. eapply scan_last; [by left|done].
  - eapply spec_mono; [apply IH; pose proof (scanPages_more namespacesGVR (cfg_PageSize config) token l h Ec) as Hp;
      unfold slisted in Hp; rewrite Hp; lia|].
    intros h' r [He Hr]. split; [ext_solve|]. destruct r as [e|labels']; [done|]. destruct Hr as (items & Hp & ->).
    exists (ml_Items l ++ items). split; [|by rewrite foldl_app].
    eapply scan_more; [eapply extends_elem; [exact He|by left]|done|done].
Qed.

(** *** List jobs *)

Section job.
Context (policies : compiledPolicies) (labels : gmap string (gmap string string)).

Definition keep (resource : Resource) (version : Version) (tracked : trackedTargets) (item : ObjectMeta) : Prop :=
  selectedDeleting policies labels resource version item || isTracked tracked item = true.
Global Instance keep_dec resource version tracked item : Decision (keep resource version tracked item).
Proof. unfold keep. apply _. Defined.

Lemma retainItems_spec resource version tracked items retained h :
  spec J (retainItems policies labels resource version tracked items retained) h (λ h' '(retained', bound),
    extends h h' ∧ scanPages h' = scanPages h ∧ (∀ i, i ∈ retained' → i ∈ retained ∨ i ∈ items) ∧
    (bound = false → retained' = retained ++ filter (keep resource version tracked) items)).
Proof using J_benign J_diverge.
  revert retained h. induction items as [|item items IH]; intros retained h; cbn [retainItems]; cbv zeta.
  { apply spec_return. split_and!; [ext_solve|done|by left|]. by rewrite app_nil_r. }
  destruct (negb _ && negb _) eqn:Ek.
  { bool_prop. eapply spec_mono; [apply IH|]. intros h' [retained' bound] (He & Hn & Hin & Hb).
    split_and!; [done|done|intros i Hi; rewrite elem_of_cons; naive_solver|].
    intros E. rewrite (Hb E), filter_cons_False; [done|]. unfold keep. by rewrite orb_true_iff; intros [?|?]; congruence. }
  assert (Hk : keep resource version tracked item).
  { unfold keep. destruct (selectedDeleting _ _ _ _ _); [done|]. by destruct (isTracked _ _). }
  assert (Hrest : ∀ h1, extends h h1 → scanPages h1 = scanPages h →
    spec J (retainItems policies labels resource version tracked items (retained ++ [item])) h1 (λ h' '(retained', bound),
      extends h h' ∧ scanPages h' = scanPages h ∧ (∀ i, i ∈ retained' → i ∈ retained ∨ i ∈ item :: items) ∧
      (bound = false → retained' = retained ++ filter (keep resource version tracked) (item :: items)))).
  { intros h1 He1 Hn1. eapply spec_mono; [apply IH|]. intros h' [retained' bound] (He & Hn & Hin & Hb).
    split_and!; [ext_solve|congruence| |].
    { intros i Hi. rewrite elem_of_cons. destruct (Hin i Hi) as [[?| ->]%elem_snoc|?]; auto. }
    intros E. rewrite (Hb E), filter_cons_True by done. by rewrite <-app_assoc. }
  destruct (selectedDeleting _ _ _ _ _).
  - apply spec_event; [by apply J_benign|]. intros [|]; simpl; [by apply Hrest; [ext_solve|]|]. split_and!; [ext_solve|done|by left|done].
  - simpl. by apply Hrest.
Qed.

Lemma targetPages_spec n resource version tracked token retained h :
  fuel ≤ scanPages h + n →
  spec J (targetPages config policies labels n resource version tracked token retained) h (λ h' '(retained', err),
    extends h h' ∧ (∀ i, i ∈ retained' → i ∈ retained ∨ ScanListed h' (resourceGVR resource version) i) ∧
    (err = None → ∃ items, ScanPages h' (resourceGVR resource version) token items ∧
      retained' = retained ++ filter (keep resource version tracked) items)).
Proof using J_benign J_diverge.
  revert token retained h. induction n as [|n IH]; intros token retained h Hn; cbn [targetPages].
  { split; [apply J_diverge; lia|]. intros []. }
  apply spec_event; [by apply J_benign|].
  intros [x|l]; [apply spec_return; split_and!; [ext_solve|intros i Hi; by apply elem_of_nil in Hi|done]|].
  eapply spec_call; [apply retainItems_spec|]. cbv beta. intros h1 [retained1 bound] (He1 & Hp1 & Hin1 & Hb).
  assert (Hin : slisted (resourceGVR resource version) (cfg_PageSize config) token l ∈ h1)
    by (eapply extends_elem; [exact He1|by left]).
  assert (Hret : ∀ h', extends h1 h' → ∀ i, i ∈ retained1 → i ∈ retained ∨ ScanListed h' (resourceGVR resource version) i).
  { intros h' He i Hi. destruct (Hin1 i Hi) as [?|Hl]; [by left|right]. eexists _, _, l. split; [by eapply extends_elem|done]. }
  destruct bound; [apply spec_return; split_and!; [ext_solve|by apply Hret|done]|]. specialize (Hb eq_refl).
  destruct (decide (ml_Continue l = "")) as [Ec|Ec].
  - apply spec_return. split_and!; [ext_solve|by apply Hret|]. intros _. exists (ml_Items l). split; [by eapply scan_last|done].
  - eapply spec_mono; [apply IH; rewrite Hp1;
      pose proof (scanPages_more (resourceGVR resource version) (cfg_PageSize config) token l h Ec) as Hp;
      unfold slisted, resourceGVR in Hp; rewrite Hp; lia|].
    intros h' [retained' err] (He & Hl & Hr). split_and!; [ext_solve| |].
    { intros i Hi. destruct (Hl i Hi) as [?|?]; [by apply Hret|by right]. }
    intros E. destruct (Hr E) as (items & Hpg & ->).
    exists (ml_Items l ++ items). split; [eapply scan_more; [by eapply extends_elem|done|done]|].
    by rewrite Hb, filter_app, app_assoc.
Qed.

(** A list job returns items that were listed; without an error it saw every page
    of one version and retained exactly the items that are selected and deleting,
    or tracked. *)
Definition JobDone (h : shist) (tracked : trackedTargets) (l : listed) : Prop :=
  (∀ i, i ∈ ls_items l → ScanListed h (resourceGVR (ls_resource l) (ls_version l)) i) ∧
  (ls_err l = None → ∃ items, ScanPages h (resourceGVR (ls_resource l) (ls_version l)) "" items ∧
     ls_items l = filter (keep (ls_resource l) (ls_version l) tracked) items).

Lemma JobDone_mono h h' tracked l : extends h h' → JobDone h tracked l → JobDone h' tracked l.
Proof.
  intros He [Hl Hj]. split; [intros i Hi; eapply ScanListed_mono; [exact He|by apply Hl]|].
  intros E. destruct (Hj E) as (items & Hp & ->). exists items. split; [by eapply ScanPages_mono|done].
Qed.
Lemma JobDone_failed h tracked resource version e : JobDone h tracked (mkListed resource version [] (Some e)).
Proof. split; [intros i Hi; by apply elem_of_nil in Hi|intros [=]]. Qed.

Lemma listResourceVersions_spec resource tracked versions last h :
  (versions ≠ [] ∨ last ≠ None) →
  spec J (listResourceVersions config policies labels fuel resource tracked versions last) h
    (λ h' '(items, version, err), extends h h' ∧ JobDone h' tracked (mkListed resource version items err)).
Proof using J_benign J_diverge.
  revert last h. induction versions as [|v versions IH]; intros last h Hne; cbn [listResourceVersions].
  { apply spec_return. split; [ext_solve|]. destruct last as [e|]; [apply JobDone_failed|naive_solver]. }
  unfold listResourceVersion. eapply spec_call; [apply targetPages_spec; lia|]. cbv beta.
  intros h1 [items err] (He & Hl & Hr).
  assert (Hlist : ∀ i, i ∈ items → ScanListed h1 (resourceGVR resource v) i).
  { intros i Hi. destruct (Hl i Hi) as [Hn|?]; [by apply elem_of_nil in Hn|done]. }
  destruct err as [[|e]|].
  - apply spec_return. split; [done|]. split; [done|intros [=]].
  - destruct (negb _ && negb _); [apply spec_return; split; [done|apply JobDone_failed]|].
    eapply spec_mono; [apply IH; by right|]. intros h' [[items' v'] err'] [He' Hj]. split; [ext_solve|done].
  - apply spec_return. split; [done|]. split; [done|]. intros _. destruct (Hr eq_refl) as (all & Hp & ->). by exists all.
Qed.

Lemma listJobs_spec tracked resources h :
  spec J (listJobs config policies labels fuel tracked resources) h (λ h' results, extends h h' ∧
    (∀ r, r ∈ resources → ∃ l, l ∈ results ∧ ls_resource l = r) ∧
    ∀ l, l ∈ results → ls_resource l ∈ resources ∧
      JobDone h' (default (mkTracked ∅ ∅) (tracked !! r_GroupResource (ls_resource l))) l).
Proof using J_benign J_diverge.
  revert h. induction resources as [|r resources IH]; intros h; cbn [listJobs].
  { apply spec_return. split; [ext_solve|]. split; intros l Hl; by apply elem_of_nil in Hl. }
  unfold listResource. eapply spec_call; [apply listResourceVersions_spec; left; apply OrderedVersions_nonempty|].
  cbv beta. intros h1 [[items version] err] [He Hj].
  eapply spec_call; [apply IH|]. cbv beta. intros h2 results (He2 & Hall & Hres). apply spec_return. split; [ext_solve|]. split.
  { intros r' [->|(l & ? & ?)%Hall]%elem_of_cons; [eexists; split; [by left|done]|exists l; split; [by right|done]]. }
  intros l [->|Hl]%elem_of_cons; [split; [by left|by eapply JobDone_mono]|].
  destruct (Hres l Hl). split; [by right|done].
Qed.

(** *** Collecting the results *)

(** The item [i] of the job was observed as [o]. *)
Definition ObservedItem (l : listed) (i : ObjectMeta) (o : observation) : Prop :=
  i ∈ ls_items l ∧ is_Some (om_DeletionTimestamp i) ∧ ∃ w,
    selectWinning policies (policyTarget labels (ls_resource l) (ls_version l) i) = Some w ∧
    o = mkObservation (metadataReference (selectedResource (ls_resource l) (ls_version l)) i) w i.

(** What the coverage of a job says of its items, given the observations. *)
Record CoverageOf (l : listed) (items : list ObjectMeta) (obs : gmap UID observation) (s : resourceCoverage) : Prop := {
  cov_all uid : uid ∈ rc_allUIDs s ↔ ∃ i, i ∈ items ∧ om_UID i = uid;
  cov_selected uid : uid ∈ rc_selectedUIDs s ↔ ∃ i, i ∈ items ∧ om_UID i = uid ∧
    is_Some (selectWinning policies (policyTarget labels (ls_resource l) (ls_version l) i));
  cov_identity k uid : rc_identities s !! k = Some uid →
    ∃ i, i ∈ items ∧ objectIdentity (om_Namespace i) (om_Name i) = k ∧ om_UID i = uid;
  cov_deleting i : i ∈ items → is_Some (om_DeletionTimestamp i) →
    is_Some (selectWinning policies (policyTarget labels (ls_resource l) (ls_version l) i)) →
    is_Some (obs !! om_UID i)
}.

Lemma CoverageOf_weaken l items obs obs' s :
  (∀ uid, is_Some (obs !! uid) → is_Some (obs' !! uid)) → CoverageOf l items obs s → CoverageOf l items obs' s.
Proof. intros Hobs []. split; try done. eauto. Qed.

Lemma CoverageOf_success l items obs s b :
  CoverageOf l items obs s →
  CoverageOf l items obs (mkCoverage b (rc_allUIDs s) (rc_selectedUIDs s) (rc_identities s)).
Proof. intros []. by split. Qed.

Lemma collectItem_spec l items item s obs :
  CoverageOf l items obs s → item ∈ ls_items l →
  let '(s', obs') := collectItem policies labels l (s, obs) item in
  rc_success s' = rc_success s ∧ CoverageOf l (items ++ [item]) obs' s' ∧
  (∀ uid, is_Some (obs !! uid) → is_Some (obs' !! uid)) ∧
  (∀ uid o, obs' !! uid = Some o → obs !! uid = Some o ∨ ∃ i, ObservedItem l i o ∧ om_UID i = uid).
Proof.
  intros [Ha Hs Hi Hd] Hitem. unfold collectItem.
  assert (Hall : ∀ uid, uid ∈ {[om_UID item]} ∪ rc_allUIDs s ↔ ∃ i, i ∈ items ++ [item] ∧ om_UID i = uid).
  { intros uid. rewrite elem_of_union, elem_of_singleton, Ha. set_solver. }
  assert (Hid : ∀ k uid, <[objectIdentity (om_Namespace item) (om_Name item) := om_UID item]> (rc_identities s) !! k = Some uid →
    ∃ i, i ∈ items ++ [item] ∧ objectIdentity (om_Namespace i) (om_Name i) = k ∧ om_UID i = uid).
  { intros k uid. rewrite lookup_insert_Some. intros [[<- <-]|[_ Hl]]; [exists item; set_solver|].
    destruct (Hi k uid Hl) as (i & ? & ?). exists i. set_solver. }
  destruct (selectWinning policies _) as [w|] eqn:Ew.
  2: { split_and!; [done| |done|by left]. split; simpl; [done| |done|].
       - intros uid. rewrite Hs. split; [intros (i & ? & ?); exists i; set_solver|].
         intros (i & [?| ->]%elem_snoc & ? & Hw); [by exists i|by rewrite Ew in Hw; destruct Hw].
       - intros i [?| ->]%elem_snoc ? Hw; [by apply Hd|by rewrite Ew in Hw; destruct Hw]. }
  assert (Hsel : ∀ uid, uid ∈ {[om_UID item]} ∪ rc_selectedUIDs s ↔ ∃ i, i ∈ items ++ [item] ∧ om_UID i = uid ∧
    is_Some (selectWinning policies (policyTarget labels (ls_resource l) (ls_version l) i))).
  { intros uid. rewrite elem_of_union, elem_of_singleton, Hs. split.
    - intros [->|(i & ? & ? & ?)]; [exists item; rewrite Ew; set_solver|exists i; set_solver].
    - intros (i & [?| ->]%elem_snoc & ? & ?); [right; by exists i|by left]. }
  destruct (om_DeletionTimestamp item) as [t|] eqn:Et.
  2: { split_and!; [done| |done|by left]. split; simpl; [done|done|done|].
       intros i [?| ->]%elem_snoc Ht ?; [by apply Hd|by rewrite Et in Ht; destruct Ht]. }
  destruct (obs !! om_UID item) as [o|] eqn:Eo.
  - split_and!; [done| |done|by left]. split; simpl; [done|done|done|].
    intros i [?| ->]%elem_snoc ? ?; [by apply Hd|by rewrite Eo].
  - assert (Hmono : ∀ x uid, is_Some (obs !! uid) → is_Some (<[om_UID item := x]> obs !! uid))
      by (intros x uid ?; rewrite lookup_insert_is_Some'; by right).
    split_and!; [done| |by apply Hmono|].
    + split; simpl; [done|done|done|]. intros i [?| ->]%elem_snoc ? ?; [by apply Hmono, Hd|].
      rewrite lookup_insert_eq. by eexists.
    + intros uid o. rewrite lookup_insert_Some. intros [[<- <-]|[_ ?]]; [right|by left].
      exists item. split; [|done]. split; [done|]. split; [by eexists|]. by exists w.
Qed.

Lemma collectItems_spec l items done s obs :
  CoverageOf l done obs s → (∀ i, i ∈ items → i ∈ ls_items l) →
  let '(s', obs') := foldl (collectItem policies labels l) (s, obs) items in
  rc_success s' = rc_success s ∧ CoverageOf l (done ++ items) obs' s' ∧
  (∀ uid, is_Some (obs !! uid) → is_Some (obs' !! uid)) ∧
  (∀ uid o, obs' !! uid = Some o → obs !! uid = Some o ∨ ∃ i, ObservedItem l i o ∧ om_UID i = uid).
Proof.
  revert done s obs. induction items as [|item items IH]; intros dn s obs Hc Hi; cbn [foldl].
  { rewrite app_nil_r. split_and!; [done|done|done|by left]. }
  pose proof (collectItem_spec l dn item s obs Hc (Hi item ltac:(by left))) as H1'.
  destruct (collectItem policies labels l (s, obs) item) as [s1 obs1]. destruct H1' as (E1 & Hc1 & Hm1 & Ho1).
  specialize (IH (dn ++ [item]) s1 obs1 Hc1 ltac:(intros i ?; apply Hi; by right)).
  destruct (foldl _ (s1, obs1) items) as [s2 obs2]. destruct IH as (E2 & Hc2 & Hm2 & Ho2).
  rewrite <-app_assoc in Hc2. split_and!; [congruence|done|eauto|].
  intros uid o Ho. destruct (Ho2 uid o Ho) as [?|?]; [by apply Ho1|by right].
Qed.

(** What the collected state means, given the jobs seen so far. *)
Record CollectedOk (results : list listed) (st : collected) : Prop := {
  col_coverage gr s : ct_coverage st !! gr = Some s → rc_success s = true → ∃ l, l ∈ results ∧
    r_GroupResource (ls_resource l) = gr ∧ ls_err l = None ∧ CoverageOf l (ls_items l) (ct_observations st) s;
  col_observed uid o : ct_observations st !! uid = Some o → ∃ l i, l ∈ results ∧ ObservedItem l i o ∧ om_UID i = uid;
  col_seen l : l ∈ results → is_Some (ct_coverage st !! r_GroupResource (ls_resource l));
  col_clean : ct_errs st = [] → ct_truncated st = false ∧
    ∀ gr s, ct_coverage st !! gr = Some s → rc_success s = true
}.

Lemma covered_insert (m : gmap GroupResource resourceCoverage) (done : list listed) l s :
  (∀ l, l ∈ done → is_Some (m !! r_GroupResource (ls_resource l))) →
  ∀ l', l' ∈ done ++ [l] → is_Some (<[r_GroupResource (ls_resource l) := s]> m !! r_GroupResource (ls_resource l')).
Proof.
  intros Hm l' [Hl'| ->]%elem_snoc; [apply lookup_insert_is_Some'; right; by apply Hm|]. rewrite lookup_insert_eq. by eexists.
Qed.

Lemma CollectedOk_extend done l st errs truncated :
  CollectedOk done st → (errs = [] → ls_err l = None ∧ ct_errs st = [] ∧ truncated = ct_truncated st) →
  let gr := r_GroupResource (ls_resource l) in
  let '(s, obs) := foldl (collectItem policies labels l)
    (mkCoverage (match ls_err l with None => true | Some _ => false end) ∅ ∅ ∅, ct_observations st) (ls_items l) in
  CollectedOk (done ++ [l]) (mkCollected obs (<[gr := s]> (ct_coverage st)) errs truncated).
Proof.
  intros [Hc Ho Hse Hcl] Herr gr. set (s0 := mkCoverage _ ∅ ∅ ∅).
  assert (H0' : CoverageOf l [] (ct_observations st) s0).
  { split; simpl; [set_solver..| |]; [intros k uid; by rewrite lookup_empty|set_solver]. }
  pose proof (collectItems_spec l (ls_items l) [] s0 (ct_observations st) H0' ltac:(done)) as Hi.
  destruct (foldl _ _ _) as [s obs]. destruct Hi as (Es & Hcov & Hm & Hobs). simpl in Hcov. split; simpl.
  - intros gr' s'. rewrite lookup_insert_Some. intros [[<- <-]|[_ Hl]] Hs.
    + exists l. split_and!; [set_solver|done| |done]. rewrite Es in Hs. simpl in Hs. by destruct (ls_err l).
    + destruct (Hc gr' s' Hl Hs) as (l' & ? & ? & ? & Hcov'). exists l'. split_and!; [set_solver|done|done|].
      by eapply CoverageOf_weaken.
  - intros uid o Hl. destruct (Hobs uid o Hl) as [Hold|(i & Hi & ?)].
    + destruct (Ho uid o Hold) as (l' & i & ? & ? & ?). exists l', i. set_solver.
    + exists l, i. set_solver.
  - by apply covered_insert.
  - intros E. destruct (Herr E) as (El & E' & ->). destruct (Hcl E') as [? Hall]. split; [done|].
    intros gr' s'. rewrite lookup_insert_Some. intros [[_ <-]|[_ Hl]]; [|by eapply Hall]. rewrite Es. unfold s0. simpl. by rewrite El.
Qed.

Lemma CollectedOk_failed done l st errs truncated s :
  CollectedOk done st → rc_success s = false → errs ≠ [] →
  CollectedOk (done ++ [l])
    (mkCollected (ct_observations st) (<[r_GroupResource (ls_resource l) := s]> (ct_coverage st)) errs truncated).
Proof.
  intros [Hc Ho Hse _] Hs Hne. split; simpl; [| |by apply covered_insert|done].
  - intros gr' s'. rewrite lookup_insert_Some. intros [[<- <-]|[_ Hl]] Hs'; [congruence|].
    destruct (Hc gr' s' Hl Hs') as (l' & ? & ?). exists l'. set_solver.
  - intros uid o Hl. destruct (Ho uid o Hl) as (l' & i & ? & ?). exists l', i. set_solver.
Qed.

Lemma collectResults_spec results done st h :
  CollectedOk done st →
  spec J (collectResults policies labels results st) h (λ h' st', extends h h' ∧ CollectedOk (done ++ results) st').
Proof using J_benign J_diverge.
  revert done st h. induction results as [|l results IH]; intros dn st h Hok; cbn [collectResults]; cbv zeta.
  { apply spec_return. split; [ext_solve|by rewrite app_nil_r]. }
  assert (Hnext : ∀ st1 h1, CollectedOk (dn ++ [l]) st1 → extends h h1 →
    spec J (collectResults policies labels results st1) h1 (λ h' st', extends h h' ∧ CollectedOk (dn ++ l :: results) st')).
  { intros st1 h1 Hok1 He1. eapply spec_mono; [by apply IH|]. intros h' st' [He Hc]. split; [ext_solve|].
    by rewrite <-app_assoc in Hc. }
  pose proof (λ errs truncated He, CollectedOk_extend dn l st errs truncated Hok He) as Hext. cbv zeta in Hext.
  destruct (ls_err l) as [[|e]|] eqn:Ee.
  - apply spec_event; [by apply J_benign|]. intros []. specialize (Hext (ct_errs st ++ [ErrWrap ("list " +:+ GroupResource_String
      (r_GroupResource (ls_resource l)) +:+ ": ") (listError_error ErrTargetBound)]) true ltac:(by intros []%app_nil)).
    destruct (foldl _ _ _) as [s obs]. apply Hnext; [exact Hext|ext_solve].
  - apply spec_event; [by apply J_benign|]. intros []. apply Hnext; [apply CollectedOk_failed; [done|done|by intros []%app_nil]|ext_solve].
  - apply spec_event; [by apply J_benign|]. intros []. specialize (Hext (ct_errs st) (ct_truncated st) ltac:(done)).
    destruct (foldl _ _ _) as [s obs]. apply Hnext; [exact Hext|ext_solve].
Qed.

(** *** The scan scope *)

Lemma trackIncidents_tracked catalog incidents st :
  let '(_, tracked) := foldl (trackIncident catalog) st incidents in
  (∀ gr e, st.2 !! gr = Some e → ∃ e', tracked !! gr = Some e' ∧
     tt_uids e ⊆ tt_uids e' ∧ tt_identities e ⊆ tt_identities e') ∧
  ∀ inc, inc ∈ incidents → resolved inc = false → is_Some (Resolve catalog (incidentGroupResource inc)) →
    ∃ e, tracked !! incidentGroupResource inc = Some e ∧ incidentUID inc ∈ tt_uids e ∧
      incidentIdentity inc ∈ tt_identities e.
Proof.
  revert st. induction incidents as [|inc incidents IH]; intros [sel tr]; cbn [foldl].
  { split; [|set_solver]. intros gr e ?. by exists e. }
  specialize (IH (trackIncident catalog (sel, tr) inc)).
  destruct (foldl _ _ _) as [sel' tr']. destruct IH as [Hmono Hin].
  assert (Hstep : (∀ gr e, tr !! gr = Some e → ∃ e', (trackIncident catalog (sel, tr) inc).2 !! gr = Some e' ∧
      tt_uids e ⊆ tt_uids e' ∧ tt_identities e ⊆ tt_identities e') ∧
    (resolved inc = false → is_Some (Resolve catalog (incidentGroupResource inc)) →
      ∃ e, (trackIncident catalog (sel, tr) inc).2 !! incidentGroupResource inc = Some e ∧
        incidentUID inc ∈ tt_uids e ∧ incidentIdentity inc ∈ tt_identities e)).
  { unfold trackIncident. destruct (resolved inc); [split; [|done]; intros gr e ?; by exists e|].
    destruct (Resolve catalog _) as [r|]; [|split; [|by intros _ []]; intros gr e ?; by exists e]. simpl. split.
    - intros gr e Hl. destruct (decide (incidentGroupResource inc = gr)) as [<-|Hne].
      + rewrite lookup_insert_eq, Hl. eexists. split; [done|]. set_solver.
      + rewrite lookup_insert_ne by done. by exists e.
    - intros _ _. rewrite lookup_insert_eq. eexists. split; [done|]. set_solver. }
  destruct Hstep as [Hs1 Hs2]. split.
  - intros gr e Hl. destruct (Hs1 gr e Hl) as (e1 & Hl1 & ? & ?). destruct (Hmono gr e1 Hl1) as (e2 & ? & ? & ?).
    exists e2. set_solver.
  - intros i [->|Hi]%elem_of_cons Hr Hres; [|by apply Hin]. destruct (Hs2 Hr Hres) as (e1 & Hl1 & ? & ?).
    destruct (Hmono _ e1 Hl1) as (e2 & ? & ? & ?). exists e2. set_solver.
Qed.

(** The resources in the scope of a scan: those ready policies select and those of
    unresolved incidents, as far as the catalog knows them. *)
Definition InScope (catalog : Snapshot) (incidents : list DeletionIncident) (gr : GroupResource) : Prop :=
  (∃ p, p ∈ cp_items policies ∧ gr ∈ ResolvedGroupResources (Some p)) ∨
  ∃ inc, inc ∈ incidents ∧ resolved inc = false ∧ incidentGroupResource inc = gr.

Lemma foldl_resolved catalog grs (m : gmap GroupResource Resource) gr :
  (∀ gr r, m !! gr = Some r → Resolve catalog gr = Some r) →
  let m' := foldl (λ m gr, match Resolve catalog gr with Some resource => <[gr := resource]> m | None => m end) m grs in
  (∀ gr r, m' !! gr = Some r → Resolve catalog gr = Some r) ∧
  (is_Some (Resolve catalog gr) → is_Some (m !! gr) ∨ gr ∈ grs → is_Some (m' !! gr)).
Proof.
  revert m. induction grs as [|g grs IH]; intros m Hm; cbn [foldl]; [split; [done|]; intros _ [?|Hn]; [done|by apply elem_of_nil in Hn]|].
  set (m1 := match Resolve catalog g with Some _ => _ | None => m end).
  assert (Hm1 : ∀ gr r, m1 !! gr = Some r → Resolve catalog gr = Some r).
  { unfold m1. destruct (Resolve catalog g) as [res|] eqn:Eg; [|done]. intros gr' r. rewrite lookup_insert_Some. intros [[<- <-]|[_ ?]]; [done|by apply Hm]. }
  destruct (IH m1 Hm1) as [Ha Hb]. split; [done|]. intros Hr Hin. apply Hb; [done|].
  rewrite elem_of_cons in Hin. destruct (decide (g = gr)) as [->|Hne]; [left|].
  - unfold m1. destruct Hr as [r ->]. rewrite lookup_insert_eq. by eexists.
  - destruct Hin as [Hi|[->|?]]; [left|done|by right]. unfold m1. destruct (Resolve catalog g); [|done].
    by rewrite lookup_insert_ne.
Qed.

Lemma selectedResources_scope catalog gr :
  (∀ gr r, selectedResources catalog policies !! gr = Some r → Resolve catalog gr = Some r) ∧
  (is_Some (Resolve catalog gr) → (∃ p, p ∈ cp_items policies ∧ gr ∈ ResolvedGroupResources (Some p)) →
   is_Some (selectedResources catalog policies !! gr)).
Proof.
  unfold selectedResources.
  assert (Hgen : ∀ (ps : list CompiledPolicy) (m : gmap GroupResource Resource), (∀ gr r, m !! gr = Some r → Resolve catalog gr = Some r) →
    let m' := foldl (λ m policy, foldl (λ m gr, match Resolve catalog gr with Some resource => <[gr := resource]> m | None => m end)
      m (ResolvedGroupResources (Some policy))) m ps in
    (∀ gr r, m' !! gr = Some r → Resolve catalog gr = Some r) ∧
    (is_Some (Resolve catalog gr) → is_Some (m !! gr) ∨ (∃ p, p ∈ ps ∧ gr ∈ ResolvedGroupResources (Some p)) → is_Some (m' !! gr))).
  { induction ps as [|p ps IH]; intros m Hm; cbn [foldl].
    { split; [done|]. intros _ [?|(p & Hn & _)]; [done|by apply elem_of_nil in Hn]. }
    destruct (foldl_resolved catalog (ResolvedGroupResources (Some p)) m gr Hm) as [Ha Hb].
    destruct (IH _ Ha) as [Ha' Hb']. split; [done|]. intros Hr Hin. apply Hb'; [done|].
    destruct Hin as [?|(q & [->|Hq]%elem_of_cons & Hg)]; [left; apply Hb; auto..|right; eauto]. }
  destruct (Hgen (cp_items policies) ∅) as [Ha Hb]; [intros ? ?; by rewrite lookup_empty|]. split; [done|]. auto.
Qed.

Lemma trackIncidents_selected catalog incidents st gr :
  (∀ gr r, st.1 !! gr = Some r → Resolve catalog gr = Some r) →
  let '(selected, _) := foldl (trackIncident catalog) st incidents in
  (∀ gr r, selected !! gr = Some r → Resolve catalog gr = Some r) ∧
  (is_Some (Resolve catalog gr) → is_Some (st.1 !! gr) ∨
     (∃ inc, inc ∈ incidents ∧ resolved inc = false ∧ incidentGroupResource inc = gr) → is_Some (selected !! gr)).
Proof.
  revert st. induction incidents as [|inc incidents IH]; intros [sel tr] Hm; cbn [foldl].
  { split; [done|]. intros _ [?|(i & Hn & _)]; [done|by apply elem_of_nil in Hn]. }
  assert (Hm1 : ∀ gr r, (trackIncident catalog (sel, tr) inc).1 !! gr = Some r → Resolve catalog gr = Some r).
  { unfold trackIncident. destruct (resolved inc); [done|]. destruct (Resolve catalog (incidentGroupResource inc)) as [res|] eqn:Eg; [|done].
    simpl. intros gr' r. rewrite lookup_insert_Some. intros [[<- <-]|[_ ?]]; [done|by apply Hm]. }
  specialize (IH _ Hm1). destruct (foldl _ _ _) as [selected tracked]. destruct IH as [Ha Hb]. split; [done|].
  intros Hr Hin. apply Hb; [done|]. unfold trackIncident.
  destruct Hin as [Hi|(i & [->|Hi]%elem_of_cons & Hres & <-)]; [left| |right; eauto].
  - simpl in Hi. destruct (resolved inc); [done|]. destruct (Resolve catalog (incidentGroupResource inc)); [|done].
    simpl. apply lookup_insert_is_Some'. by right.
  - left. rewrite Hres. destruct Hr as [r ->]. simpl. rewrite lookup_insert_eq. by eexists.
Qed.

(** ** What the scan observed *)

(** The target was listed while being deleted, and this policy won it. *)
Definition ScanObserved (h : shist) (o : observation) : Prop :=
  ∃ resource version i w, ScanListed h (resourceGVR resource version) i ∧ is_Some (om_DeletionTimestamp i) ∧
    selectWinning policies (policyTarget labels resource version i) = Some w ∧
    o = mkObservation (metadataReference (selectedResource resource version) i) w i.

(** A successful coverage: one version was listed to the last page, and the
    coverage describes what was retained of it; unresolved incidents were tracked. *)
Definition Surveyed (h : shist) (catalog : Snapshot) (incidents : list DeletionIncident) (gr : GroupResource)
    (obs : gmap UID observation) (s : resourceCoverage) : Prop :=
  ∃ l tracked all, r_GroupResource (ls_resource l) = gr ∧
    ScanPages h (resourceGVR (ls_resource l) (ls_version l)) "" all ∧
    ls_items l = filter (keep (ls_resource l) (ls_version l) tracked) all ∧ CoverageOf l (ls_items l) obs s ∧
    ∀ inc, inc ∈ incidents → resolved inc = false → incidentGroupResource inc = gr → is_Some (Resolve catalog gr) →
      incidentUID inc ∈ tt_uids tracked ∧ incidentIdentity inc ∈ tt_identities tracked.

Lemma elem_of_arrange {A} order (l : list A) x : x ∈ arrange order l ↔ x ∈ l.
Proof.
  unfold arrange. case_decide as Hp; [|done]. rewrite list_elem_of_omap, list_elem_of_lookup. split.
  - intros (i & _ & Hi). eauto.
  - intros (i & Hi). exists i. split; [|done]. rewrite Hp, elem_of_seq. apply lookup_lt_Some in Hi. lia.
Qed.

Lemma spec_inSomeOrder {A} (l : list A) h :
  spec J (inSomeOrder l) h (λ h' l', extends h h' ∧ scanPages h' = scanPages h ∧ ∀ x, x ∈ l' ↔ x ∈ l).
Proof using J_benign.
  split; [by apply J_benign|]. intros order. simpl. split_and!; [ext_solve|done|]. intros x. apply elem_of_arrange.
Qed.

(** The outcome of [listTargets]. *)
Record TargetsListed (h : shist) (catalog : Snapshot) (obs : gmap UID observation)
    (coverage : gmap GroupResource resourceCoverage) (incidents : option (list DeletionIncident)) : Prop := {
  tl_incidents incs : incidents = Some incs → evt SListIncidents (inr incs : sresp SListIncidents) ∈ h;
  tl_observed uid o : obs !! uid = Some o → ScanObserved h o ∧ tr_UID (ob_target o) = uid;
  tl_coverage gr s : coverage !! gr = Some s → rc_success s = true →
    ∃ incs, incidents = Some incs ∧ Surveyed h catalog incs gr obs s
}.

(** No worker pool was cut short: every job was handed out. *)
Definition dispatchedAll (x : event sresp) : Prop :=
  match x with
  | existT e r =>
      match e return sresp e → Prop with
      | SDispatched n => λ k, n ≤ k
      | _ => λ _, True
      end r
  end.

(** Without an error, every resource in the scope was covered. *)
Definition ScopeCovered (h : shist) (catalog : Snapshot) (coverage : gmap GroupResource resourceCoverage)
    (incidents : option (list DeletionIncident)) : Prop :=
  ∃ incs, incidents = Some incs ∧ (∀ gr s, coverage !! gr = Some s → rc_success s = true) ∧
    (Forall dispatchedAll h → ∀ gr r, InScope catalog incs gr → Resolve catalog gr = Some r →
       is_Some (coverage !! r_GroupResource r)).

Lemma listTargets_spec catalog h :
  spec J (listTargets config policies labels fuel catalog) h (λ h' '(obs, coverage, incidents, err),
    extends h h' ∧ TargetsListed h' catalog obs coverage incidents ∧
    (err = None → ScopeCovered h' catalog coverage incidents)).
Proof using J_benign J_diverge.
  unfold listTargets, resourcesToScan. apply spec_bind, spec_event; [by apply J_benign|]. intros [x|incs].
  { apply spec_return, spec_return. split_and!; [ext_solve| |done]. split; [done|..]; intros ? ?; by rewrite lookup_empty. }
  pose proof (trackIncidents_tracked catalog incs (selectedResources catalog policies, ∅)) as Htr.
  assert (Hscope : let '(selected, _) := foldl (trackIncident catalog) (selectedResources catalog policies, ∅) incs in
    ∀ gr r, InScope catalog incs gr → Resolve catalog gr = Some r → selected !! gr = Some r).
  { pose proof (λ gr, trackIncidents_selected catalog incs (selectedResources catalog policies, ∅) gr
      (proj1 (selectedResources_scope catalog gr))) as Hsel. destruct (foldl _ _ _) as [selected tracked].
    intros gr r Hin Hr. destruct (Hsel gr) as [Hval Hex]. destruct Hex as [r' Hr']; [by eexists| |].
    - destruct Hin as [?|?]; [left|by right]. apply selectedResources_scope; [by eexists|done].
    - rewrite Hr'. f_equal. apply Hval in Hr'. congruence. }
  destruct (foldl _ _ _) as [selected tracked]. destruct Htr as [_ Htr].
  eapply spec_call; [apply spec_inSomeOrder|]. cbv beta. intros h1 resources (He1 & _ & Hperm). apply spec_return.
  set (sorted := sort_by resourceLess resources).
  assert (Hsorted : ∀ gr r, InScope catalog incs gr → Resolve catalog gr = Some r → r ∈ sorted).
  { intros gr r Hin Hr. unfold sorted. rewrite sort_by_perm. apply Hperm, list_elem_of_fmap. exists (gr, r). split; [done|].
    apply elem_of_map_to_list. by apply Hscope. }
  apply spec_event; [by apply J_benign|]. intros k.
  eapply spec_call; [apply listJobs_spec|]. cbv beta. intros h2 results (He2 & Hrun & Hjobs).
  eapply spec_call; [apply spec_inSomeOrder|]. cbv beta. intros h3 results' (He3 & _ & Hres).
  eapply spec_call; [apply (collectResults_spec _ [])|].
  { split; simpl; try (intros ? ?; by rewrite lookup_empty); [intros l Hl; by apply elem_of_nil in Hl|].
    intros _. split; [done|]. intros ? ?. by rewrite lookup_empty. }
  cbv beta. intros h4 st [He4 [Hcov Hobs Hseen Hclean]]. rewrite app_nil_l in Hcov, Hobs, Hseen.
  assert (Hext : extends h2 h4) by ext_solve.
  assert (Hjob : ∀ l, l ∈ results' → JobDone h4 (default (mkTracked ∅ ∅) (tracked !! r_GroupResource (ls_resource l))) l).
  { intros l Hl%Hres. eapply JobDone_mono; [exact Hext|]. by apply Hjobs. }
  assert (Hpost : ∀ coverage : gmap GroupResource resourceCoverage,
    (∀ gr s, coverage !! gr = Some s → rc_success s = true → ct_coverage st !! gr = Some s) →
    TargetsListed h4 catalog (ct_observations st) coverage (Some incs)).
  { intros coverage Hsub. split.
    - intros l [= <-]. eapply extends_elem; [|by left]. ext_solve.
    - intros uid o Ho. destruct (Hobs uid o Ho) as (l & i & Hl & (Hi & Hd & w & Hw & ->) & <-). split; [|done].
      exists (ls_resource l), (ls_version l), i, w. split_and!; try done. by apply (Hjob l Hl).
    - intros gr s Hs Hsucc. exists incs. split; [done|].
      destruct (Hcov gr s (Hsub gr s Hs Hsucc) Hsucc) as (l & Hl & <- & Herr & HC).
      destruct (Hjob l Hl) as [_ Hd]. destruct (Hd Herr) as (all & Hp & Hit).
      eexists l, _, all. split_and!; [done|done|exact Hit|done|].
      intros inc Hin Hr Hgr Hresv. rewrite <-Hgr in Hresv. destruct (Htr inc Hin Hr Hresv) as (e & He & ? & ?).
      rewrite <-Hgr, He. done. }
  destruct (ct_truncated st) eqn:Etr; apply spec_return; (split_and!; [ext_solve|apply Hpost|]).
  - intros gr s. rewrite lookup_fmap. destruct (ct_coverage st !! gr); [|done]. by intros [= <-].
  - by intros []%errors_Join_none%app_nil.
  - done.
  - intros E%errors_Join_none. destruct (Hclean E) as [_ Hsucc]. exists incs. split_and!; [done|done|].
    intros Hd gr r Hin Hr. specialize (Hsorted gr r Hin Hr).
    assert (Hk : length sorted ≤ k).
    { rewrite Forall_forall in Hd. apply (Hd (evt (SDispatched (length sorted)) k)). eapply extends_elem; [|by left]. ext_solve. }
    rewrite <-(take_ge sorted k Hk) in Hsorted. destruct (Hrun r Hsorted) as (l & Hl & <-). by apply Hseen, Hres.
Qed.
End job.
End listing.
