(* ===== verification/ScanSafety.v ===== *)
(** * Safety of the scan cycle

    What a scan cycle may write to incidents, whatever the API answers and in
    whatever order: evidence only from a diagnosis of this cycle, resolution only
    on complete listings or on what a diagnosis read, deletion only after the
    retention, and withdrawal of the evidence when a cycle cannot complete.  And what
    a cycle without an error has done: its whole scope listed, every observed target
    diagnosed and stored, every other incident settled. *)
From S2P Require Import Prelude GoText ApiTypes Discovery Policy GoErrors Prog KubeTypes Collector Analyzers Diagnosis DiagnosisSafety Durations Scanner Incidents ScannerProps ScanListing.

Local Open Scope prog_scope.

(** An event of a diagnosis as an event of the scan. *)
Definition liftEvent (x : event dresp) : event sresp :=
  match x with existT e r => evt (SDiagnosis e) (r : sresp (SDiagnosis e)) end.

Section safety.
Context `{SchemaOps, UnicodeTables, LabelOps, KubeNames, DiagnosisNames, ApiErrors, ScannerLibs, !RetryClosures, !RetryClosureLaws}.
Context (config : Config) (fuel : nat) (now : Time).

Abbreviation gotIncident name i := (evt (SGetIncident name) (inr i : sresp (SGetIncident _))).

(** ** What the writes rest on *)

(** The catalog, the compiled policies and the labels of this cycle. *)
Definition CycleData (h : shist) (catalog : Snapshot) (policies : compiledPolicies)
    (labels : gmap string (gmap string string)) : Prop :=
  evt SSnapshot (catalog : sresp SSnapshot) ∈ h ∧
  (SnapshotOk catalog → ∃ l, policies = compileAll catalog now l ∧
     evt SListPolicies (inr l : sresp SListPolicies) ∈ h) ∧
  ∃ items, ScanPages h namespacesGVR "" items ∧ labels = labelsOf items.

(** The result is that of a diagnosis of the observed target in this cycle. *)
Definition Concluded (h : shist) (observed : observation) (result : DiagnosisResult) : Prop :=
  ∃ snapshot dh, (∀ x, x ∈ dh → liftEvent x ∈ h) ∧
    (Dismissed dh (ob_target observed) (Some (ob_policy observed)) now result None ∨
     res_TargetFound result = true ∧ res_UIDMatches result = true ∧ res_ThresholdElapsed result = true ∧
     Analyzed dh (ob_target observed) (Some (ob_policy observed)) snapshot now result).

(** The result is that of such a diagnosis, or stands for one that failed. *)
Definition Diagnosed (h : shist) (observed : observation) (result : DiagnosisResult) : Prop :=
  ∃ catalog policies labels, CycleData h catalog policies labels ∧ ScanObserved policies labels h observed ∧
    (result = failedDiagnosis observed now ∨ Concluded h observed result).

(** An incident as it was read: by GET, in a list, or returned by a patch.  (A GET
    that fails with a conflict would leave an empty object behind for the retry.) *)
Definition SRead (h : shist) (i : DeletionIncident) : Prop :=
  (∃ name, gotIncident name i ∈ h) ∨
  (∃ l, evt SListIncidents (inr l : sresp SListIncidents) ∈ h ∧ i ∈ l) ∨
  (∃ b c, evt (SPatchIncident b c) (inr i : sresp (SPatchIncident _ _)) ∈ h) ∨
  (i = zero_DeletionIncident ∧ ∃ name x, evt (SGetIncident name) (inl x : sresp (SGetIncident _)) ∈ h ∧
     IsConflict (ErrExternal x) = true).

(** An incident as the scan-scope list may hold it: the diagnoses write through
    pointers into the list. *)
Definition SHeld (h : shist) (i : DeletionIncident) : Prop :=
  SRead h i ∨ (∃ w, evt (SUpdateIncident w) (inr i : sresp (SUpdateIncident _)) ∈ h) ∨
  ∃ base observed, SRead h base ∧ i = with_annotation base retentionAnnotation (retentionText observed).

(** The API answers a write with the object it stored; the specification of an
    incident is immutable (api/v1alpha1/deletionincident_types.go). *)
Definition keepsSpec (x : event sresp) : Prop :=
  match x with
  | existT e r =>
      match e return sresp e → Prop with
      | SPatchIncident _ w | SUpdateIncident w => λ r, match r with inr i => inc_Spec i = inc_Spec w | inl _ => True end
      | _ => λ _, True
      end r
  end.

(** The incident is that of the observed target: it names the target's UID, or it was
    got under the name that is derived from the UID.  (The third case is again the
    empty object that a GET leaves behind when it fails with a conflict.) *)
Definition OwnIncident (h : shist) (observed : observation) (i : DeletionIncident) : Prop :=
  let uid := tr_UID (ob_target observed) in
  incidentUID i = uid ∨
  (∃ got, gotIncident (incidentName uid) got ∈ h ∧ inc_Spec i = inc_Spec got) ∨
  (inc_Spec i = inc_Spec zero_DeletionIncident ∧
   ∃ x, evt (SGetIncident (incidentName uid)) (inl x : sresp (SGetIncident _)) ∈ h ∧ IsConflict (ErrExternal x) = true).

(** The same, given that writes keep the specification. *)
Definition Owned (h : shist) (observed : observation) (i : DeletionIncident) : Prop :=
  Forall keepsSpec h → OwnIncident h observed i.

(** What a complete listing of the incident's resource showed. *)
Definition ResolveEvidence (h : shist) (catalog : Snapshot) (policies : compiledPolicies)
    (labels : gmap string (gmap string string)) (incident : DeletionIncident) (reason : string) : Prop :=
  (reason = "ResourceTypeRemoved" ∧ Resolve catalog (incidentGroupResource incident) = None) ∨
  ∃ resource version all,
    let winner i := selectWinning policies (policyTarget labels resource version i) in
    let same i := om_UID i = incidentUID incident in
    r_GroupResource resource = incidentGroupResource incident ∧
    ScanPages h (resourceGVR resource version) "" all ∧
    ((reason = "TargetAbsent" ∧ ∀ i, i ∈ all → ¬ same i) ∨
     (reason = "TargetReplaced" ∧ (∀ i, i ∈ all → ¬ same i) ∧
        ∃ i, i ∈ all ∧ objectIdentity (om_Namespace i) (om_Name i) = incidentIdentity incident) ∨
     (reason = "PolicyNoLongerMatches" ∧ (∃ i, i ∈ all ∧ same i) ∧ ∀ i, i ∈ all → same i → winner i = None) ∨
     (reason = "TargetNoLongerDeleting" ∧ (∃ i, i ∈ all ∧ same i ∧ is_Some (winner i)) ∧
        ∀ i, i ∈ all → same i → is_Some (winner i) → om_DeletionTimestamp i = None)).

(** Why an incident that was read as [current] is resolved. *)
Definition ResolveCause (h : shist) (current : DeletionIncident) (reason : string) : Prop :=
  (∃ catalog policies labels incident incs,
     CycleData h catalog policies labels ∧ evt SListIncidents (inr incs : sresp SListIncidents) ∈ h ∧
     incident ∈ incs ∧ resolved incident = false ∧ gotIncident (om_Name (inc_Meta incident)) current ∈ h ∧
     ResolveEvidence h catalog policies labels incident reason) ∨
  (∃ observed result, Diagnosed h observed result ∧
     gotIncident (incidentName (tr_UID (ob_target observed))) current ∈ h ∧
     ((reason = "TargetAbsent" ∧ res_TargetFound result = false) ∨
      (reason = "TargetReplaced" ∧ res_TargetFound result = true ∧ res_UIDMatches result = false))).

(** The reasons for which the scanner resolves an incident. *)
Definition resolutionReasons : list string :=
  ["ResourceTypeRemoved"; "TargetAbsent"; "TargetReplaced"; "PolicyNoLongerMatches"; "TargetNoLongerDeleting"].

(** The statuses a cycle may write. *)
Inductive IncidentWrite (h : shist) : DeletionIncident → Prop :=
  | write_failed current name reason message :
      gotIncident name current ∈ h → resolved current = false →
      IncidentWrite h (with_incident_status current (failedStatus current now reason message))
  | write_resolved current name reason :
      gotIncident name current ∈ h → reason ∈ resolutionReasons → resolved current = false → (Forall keepsSpec h → ResolveCause h current reason) →
      IncidentWrite h (with_incident_status current (resolvedStatus current reason now))
  | write_diagnosis current observed result :
      SRead h current → Owned h observed current → Diagnosed h observed result →
      res_TargetFound result = true → res_UIDMatches result = true →
      IncidentWrite h (with_incident_status current (desiredStatus config observed result now (inc_Status current))).

Definition IncidentCreate (h : shist) (i : DeletionIncident) : Prop :=
  ∃ observed result, Diagnosed h observed result ∧ res_TargetFound result = true ∧
    res_UIDMatches result = true ∧ res_ThresholdElapsed result = true ∧
    i = newIncident (incidentName (tr_UID (ob_target observed))) observed now.

Definition IncidentDelete (h : shist) (i : DeletionIncident) : Prop :=
  ∃ catalog policies labels retention resolvedTime,
    CycleData h catalog policies labels ∧ SHeld h i ∧ resolved i = true ∧ incidentRetention i policies = Some retention ∧
    di_ResolvedTime (inc_Status i) = Some resolvedTime ∧ (Time_Add resolvedTime retention ≤ now)%Z.

(** What the code may do after the history [h]. *)
Definition spermitted (h : shist) (e : sev) : Prop :=
  match e with
  | SUpdateIncident i => IncidentWrite h i
  | SCreateIncident i => IncidentCreate h i
  | SDeleteIncident i => IncidentDelete h i
  | SPatchIncident base current =>
      SRead h base ∧ ∃ observed, current = with_annotation base retentionAnnotation (retentionText observed)
  | SDiagnosis DDiverge | SDiverge => fuel ≤ scanPages h
  | SDiagnosis DPanic => False
  | SPanic => ∃ name crd conversion, evt (SGetCRD name) (inr crd : sresp (SGetCRD _)) ∈ h ∧
      crd_Conversion crd = Some conversion ∧ conv_Webhook conversion = Some None
  | _ => True
  end.
Abbreviation J := spermitted.

Lemma J_benign h e : benign e = true → J h e.
Proof. by destruct e. Qed.
Lemma J_diverge h : fuel ≤ scanPages h → J h SDiverge.
Proof. done. Qed.

(** ** The facts survive as the history grows *)

Lemma CycleData_mono h h' catalog policies labels :
  extends h h' → CycleData h catalog policies labels → CycleData h' catalog policies labels.
Proof.
  intros He (? & Hp & items & ? & ?). split_and!; [by eapply extends_elem| |].
  - intros Hok. destruct (Hp Hok) as (l & -> & ?). exists l. split; [done|by eapply extends_elem].
  - exists items. split; [by eapply ScanPages_mono|done].
Qed.
Lemma ScanObserved_mono h h' policies labels o :
  extends h h' → ScanObserved policies labels h o → ScanObserved policies labels h' o.
Proof. intros He (r & v & i & w & ? & Hrest). exists r, v, i, w. split; [by eapply ScanListed_mono|done]. Qed.
Lemma Concluded_mono h h' observed result : extends h h' → Concluded h observed result → Concluded h' observed result.
Proof.
  intros He (snapshot & dh & Hin & Hd). exists snapshot, dh. split; [|done].
  intros x Hx. eapply extends_elem; [exact He|by apply Hin].
Qed.
Lemma Diagnosed_mono h h' observed result : extends h h' → Diagnosed h observed result → Diagnosed h' observed result.
Proof.
  intros He (catalog & policies & labels & Hc & Ho & Hr). exists catalog, policies, labels.
  split_and!; [by eapply CycleData_mono|by eapply ScanObserved_mono|].
  destruct Hr as [?|?]; [by left|right; by eapply Concluded_mono].
Qed.
Lemma SRead_mono h h' i : extends h h' → SRead h i → SRead h' i.
Proof.
  intros He [[n Hg]|[(l & Hl & ?)|[(b & c & Hp)|(-> & n & x & Hg & ?)]]]; [left|right; left|right; right; left|right; right; right].
  - exists n. by eapply extends_elem.
  - exists l. split; [by eapply extends_elem|done].
  - exists b, c. by eapply extends_elem.
  - split; [done|]. exists n, x. split; [by eapply extends_elem|done].
Qed.

Lemma SHeld_mono h h' i : extends h h' → SHeld h i → SHeld h' i.
Proof.
  intros He [?|[[w ?]|(b & o & ? & ->)]]; [left; by eapply SRead_mono|right; left|right; right].
  - exists w. by eapply extends_elem.
  - exists b, o. split; [by eapply SRead_mono|done].
Qed.
Lemma keepsSpec_mono h h' : extends h h' → Forall keepsSpec h' → Forall keepsSpec h.
Proof. intros [l ->] [_ ?]%Forall_app. done. Qed.

Lemma Owned_mono h h' observed i : extends h h' → Owned h observed i → Owned h' observed i.
Proof.
  intros He Ho Hk. destruct (Ho (keepsSpec_mono _ _ He Hk)) as [?|[(g & ? & ?)|(? & x & ? & ?)]]; [by left|right; left|right; right].
  - exists g. split; [by eapply extends_elem|done].
  - split; [done|]. exists x. split; [by eapply extends_elem|done].
Qed.
Lemma Owned_spec h observed i j : (Forall keepsSpec h → inc_Spec j = inc_Spec i) → Owned h observed i → Owned h observed j.
Proof.
  intros Hs Ho Hk. specialize (Hs Hk). unfold OwnIncident, incidentUID in *. rewrite Hs. by apply Ho.
Qed.

(** ** Retries *)

Lemma spec_retrying (fn : SP (option error)) h (Q : shist → option error → Prop) :
  (∀ h', extends h h' → spec J fn h' (λ h'' err, extends h' h'' ∧ Q h'' err)) → spec J (retrying fn) h Q.
Proof.
  intros Hfn. unfold retrying.
  eapply spec_call; [apply (spec_RetryClosure _ _ _ _ (λ h' r, Q h' (snd r)) (λ _ h', extends h h'))|].
  - ext_solve.
  - intros [] h1 He1. eapply spec_call; [by apply Hfn|]. intros h2 err [He2 Hq]. apply spec_return. split; [ext_solve|done].
  - intros h' [v err] Hq. done.
Qed.

Lemma spec_sGetIncident name h (Q : shist → error + DeletionIncident → Prop) :
  (∀ x, Q (evt (SGetIncident name) (inl x : sresp (SGetIncident _)) :: h) (inl (ErrExternal x))) →
  (∀ i, Q (gotIncident name i :: h) (inr i)) → spec J (sGetIncident name) h Q.
Proof. intros Hl Hr. split; [done|]. intros [x|i]; simpl; [apply Hl|apply Hr]. Qed.

Lemma spec_sUpdateIncident i h (Q : shist → option error → Prop) :
  IncidentWrite h i →
  (∀ x, Q (evt (SUpdateIncident i) (inl x : sresp (SUpdateIncident _)) :: h) (Some (ErrExternal x))) →
  (∀ stored, Q (evt (SUpdateIncident i) (inr stored : sresp (SUpdateIncident _)) :: h) None) →
  spec J (sUpdateIncident i) h Q.
Proof. intros Hw Hl Hr. split; [done|]. intros [x|stored]; [apply Hl|apply Hr]. Qed.

(** ** Single incidents *)

(** A status from which all evidence is gone, and which says why: nothing in it can
    be approved or executed. *)
Record NoEvidence (reason message : string) (st : DeletionIncidentStatus) : Prop := {
  ne_phase : di_Phase st = IncidentPhaseDiagnosisFailed;
  ne_findings : di_Findings st = [];
  ne_actions : di_RecommendedActions st = [];
  ne_window : di_ActionEvidenceTime st = None ∧ di_ActionEvidenceExpiresTime st = None;
  ne_snapshot : di_TargetSnapshot st = mkTargetSnapshot "" [] [];
  ne_condition : ∃ c, c ∈ di_Conditions st ∧ c_Type c = "DiagnosisComplete" ∧ c_Status c = ConditionFalse ∧
    c_Reason c = reason ∧ c_Message c = message
}.

(** How withdrawing the evidence of an incident can succeed: the incident is gone, it
    was read resolved or without evidence, or it was stored without evidence. *)
Definition Withdrawn (h : shist) (name reason message : string) : Prop :=
  (∃ x, evt (SGetIncident name) (inl x : sresp (SGetIncident _)) ∈ h ∧ IsNotFound (ErrExternal x) = true) ∨
  ∃ current, gotIncident name current ∈ h ∧
    (resolved current = true ∨ NoEvidence reason message (inc_Status current) ∨
     ∃ w stored, evt (SUpdateIncident w) (inr stored : sresp (SUpdateIncident _)) ∈ h ∧
       inc_Meta w = inc_Meta current ∧ inc_Spec w = inc_Spec current ∧ NoEvidence reason message (inc_Status w)).

Lemma failedStatus_noEvidence current reason message : NoEvidence reason message (failedStatus current now reason message).
Proof.
  split; try done. unfold failedStatus, preserveConditionTransitions. cbv zeta. cbn [di_Conditions fmap list_fmap].
  eexists. split; [by left|]. by repeat case_match.
Qed.

Lemma Withdrawn_mono h h' name reason message :
  extends h h' → Withdrawn h name reason message → Withdrawn h' name reason message.
Proof.
  intros He [(x & ? & ?)|(c & ? & Hc)]; [left; exists x; split; [by eapply extends_elem|done]|right; exists c].
  split; [by eapply extends_elem|]. destruct Hc as [?|[?|(w & i & ? & ?)]]; [by left|by right; left|right; right].
  exists w, i. split; [by eapply extends_elem|done].
Qed.

Lemma failIncidentDiagnosis_spec name reason message h :
  spec J (failIncidentDiagnosis name now reason message) h (λ h' err, extends h h' ∧
    (err = None → Withdrawn h' name reason message)).
Proof.
  apply spec_retrying. intros h1 He1. apply spec_bind, spec_sGetIncident.
  { intros x. apply spec_return. split_and!; [ext_solve|ext_solve|]. unfold IgnoreNotFound.
    destruct (IsNotFound _) eqn:En; [|done]. intros _. left. exists x. split; [by left|done]. }
  intros i. destruct (resolved i) eqn:Er.
  { apply spec_return. split_and!; [ext_solve|ext_solve|]. intros _. right. exists i. split; [by left|by left]. }
  cbv zeta. case_bool_decide as Es.
  { apply spec_return. split_and!; [ext_solve|ext_solve|]. intros _. right. exists i. split; [by left|].
    right; left. rewrite Es. apply failedStatus_noEvidence. }
  apply spec_sUpdateIncident; [eapply write_failed; [by left|done]| |].
  { intros x. split_and!; [ext_solve|ext_solve|done]. }
  intros stored. split_and!; [ext_solve|ext_solve|].
  intros _. right. exists i. split; [by right; left|]. right; right. eexists _, stored.
  split_and!; [by left|done|done|apply failedStatus_noEvidence].
Qed.

(** How resolving an incident can succeed. *)
Definition Settled (h : shist) (name reason : string) : Prop :=
  (∃ x, evt (SGetIncident name) (inl x : sresp (SGetIncident _)) ∈ h ∧ IsNotFound (ErrExternal x) = true) ∨
  ∃ current, gotIncident name current ∈ h ∧
    (resolved current = true ∨
     ∃ stored, evt (SUpdateIncident (with_incident_status current (resolvedStatus current reason now)))
       (inr stored : sresp (SUpdateIncident _)) ∈ h).

Lemma Settled_mono h h' name reason : extends h h' → Settled h name reason → Settled h' name reason.
Proof.
  intros He [(x & ? & ?)|(c & ? & Hc)]; [left; exists x; split; [by eapply extends_elem|done]|right; exists c].
  split; [by eapply extends_elem|]. destruct Hc as [?|[i ?]]; [by left|right; exists i; by eapply extends_elem].
Qed.

Lemma resolveIncident_spec name reason h :
  reason ∈ resolutionReasons →
  (∀ h' current, extends h h' → gotIncident name current ∈ h' → Forall keepsSpec h' → ResolveCause h' current reason) →
  spec J (resolveIncident name reason now) h (λ h' err, extends h h' ∧ (err = None → Settled h' name reason)).
Proof.
  intros Hreason Hcause. apply spec_retrying. intros h1 He1. apply spec_bind, spec_sGetIncident.
  { intros x. apply spec_return. split_and!; [ext_solve|ext_solve|]. unfold IgnoreNotFound.
    destruct (IsNotFound _) eqn:En; [|done]. intros _. left. exists x. split; [by left|done]. }
  intros i. destruct (resolved i) eqn:Er.
  { apply spec_return. split_and!; [ext_solve|ext_solve|]. intros _. right. exists i. split; [by left|by left]. }
  apply spec_sUpdateIncident.
  - eapply write_resolved; [by left|done|done|]. apply Hcause; [ext_solve|by left].
  - intros x. split_and!; [ext_solve|ext_solve|done].
  - intros stored. split_and!; [ext_solve|ext_solve|]. intros _. right. exists i. split; [by right; left|].
    right. exists stored. by left.
Qed.

(** ** Persisting a diagnosis *)

(** What holds of the object of the list that was [listed0] at first: if it is
    resolved it was read or stored so, and its specification is as it was. *)
Record ListedOk (h : shist) (listed0 listed : option DeletionIncident) : Prop := {
  lo_held i : listed = Some i → resolved i = true → SHeld h i;
  lo_spec : Forall keepsSpec h → inc_Spec <$> listed = inc_Spec <$> listed0
}.

(** What the attempts keep true of their variables. *)
Record AttemptOk (h : shist) (observed : observation) (listed0 : option DeletionIncident) (v : attemptState) : Prop := {
  ao_current i : pa_current v = Some i → SRead h i ∧ Owned h observed i;
  ao_aliased : pa_aliased v = true → pa_listed v = pa_current v;
  ao_listed : ListedOk h listed0 (pa_listed v)
}.

Lemma ListedOk_mono h h' listed0 listed : extends h h' → ListedOk h listed0 listed → ListedOk h' listed0 listed.
Proof.
  intros He [Hl Hs]. split.
  - intros i Hi Hr. eapply SHeld_mono; [exact He|by apply Hl].
  - intros Hk. apply Hs. by eapply keepsSpec_mono.
Qed.
Lemma AttemptOk_mono h h' observed listed0 v : extends h h' → AttemptOk h observed listed0 v → AttemptOk h' observed listed0 v.
Proof.
  intros He [Hc Ha Hl]. split; [|done|by eapply ListedOk_mono]. intros i Hi. destruct (Hc i Hi).
  split; [by eapply SRead_mono|by eapply Owned_mono].
Qed.

Lemma written_ok h listed0 listed current aliased i :
  ListedOk h listed0 listed → (aliased = true → listed = Some current) →
  (resolved i = true → SHeld h i) → (Forall keepsSpec h → inc_Spec i = inc_Spec current) →
  ListedOk h listed0 (written aliased listed i).
Proof.
  intros Hl Ha Hr Hs. destruct aliased; [|done]. specialize (Ha eq_refl). subst listed. destruct Hl as [_ Hl]. split.
  - by intros j [= <-].
  - intros Hk. rewrite <-(Hl Hk). simpl. by rewrite (Hs Hk).
Qed.

Lemma desired_unresolved observed result current :
  resolved (with_incident_status current (desiredStatus config observed result now (inc_Status current))) = false.
Proof. unfold resolved, desiredStatus. simpl. destruct (evidenceWindow _ _ _ _). simpl. by destruct (res_DiagnosisComplete result). Qed.

(** How a diagnosis is recorded: the status of the incident is, or becomes, the one
    that the diagnosis gives. *)
Definition Recorded (h : shist) (observed : observation) (result : DiagnosisResult) : Prop :=
  ∃ current, SRead h current ∧ Owned h observed current ∧
    let desired := desiredStatus config observed result now (inc_Status current) in
    (inc_Status current = desired ∨
     ∃ stored, evt (SUpdateIncident (with_incident_status current desired)) (inr stored : sresp (SUpdateIncident _)) ∈ h).

Lemma Recorded_mono h h' observed result : extends h h' → Recorded h observed result → Recorded h' observed result.
Proof.
  intros He (c & ? & ? & Hc). exists c. split; [by eapply SRead_mono|]. split; [by eapply Owned_mono|].
  destruct Hc as [?|[i ?]]; [by left|right]. exists i. by eapply extends_elem.
Qed.

Lemma persistAttempt_spec name observed result listed0 v h :
  name = incidentName (tr_UID (ob_target observed)) → Diagnosed h observed result → res_TargetFound result = true → res_UIDMatches result = true →
  AttemptOk h observed listed0 v →
  spec J (persistAttempt config name observed result now v) h (λ h' r, extends h h' ∧
    ListedOk h' listed0 (pa_listed (fst r)) ∧ (errIs IsConflict (snd r) = true → AttemptOk h' observed listed0 (fst r)) ∧
    (snd r = None → Recorded h' observed result)).
Proof.
  intros Hname Hd Hf Hu [Hc Ha Hl]. destruct v as [current aliased listed dirty]. simpl in *. unfold persistAttempt. cbn [pa_dirty pa_current pa_aliased pa_listed].
  eapply (spec_orElse _ (λ h' r, extends h h' ∧ ListedOk h' listed0 listed ∧ match r with
    | inl r => ListedOk h' listed0 (pa_listed (fst r)) ∧ (errIs IsConflict (snd r) = true → AttemptOk h' observed listed0 (fst r)) ∧
        snd r ≠ None
    | inr (i, a) => SRead h' i ∧ Owned h' observed i ∧ (a = true → listed = Some i)
    end)).
  { destruct current as [i|]; [apply spec_return; destruct (Hc i eq_refl); by split_and!; [ext_solve|..]|].
    assert (Hl' : ∀ x, ListedOk (x :: h) listed0 listed) by (intros x; eapply ListedOk_mono; [|exact Hl]; ext_solve).
    apply spec_bind, spec_sGetIncident; intros y; apply spec_return; (split; [ext_solve|]).
    - split_and!; [apply Hl'|apply Hl'| |done]. simpl. intros E. split; [|done|apply Hl']. intros i [= <-]. split.
      + right; right; right. split; [done|]. exists name, y. split; [by left|done].
      + intros _. right; right. split; [done|]. exists y. rewrite <-Hname. split; [by left|done].
    - split_and!; [apply Hl'| | |done]; [left; exists name; by left|].
      intros _. right; left. exists y. rewrite <-Hname. split; [by left|done]. }
  { intros h' r (? & _ & ? & ? & Hne). by split_and!. }
  intros h1 [i a] (He1 & Hl1 & Hi & Hown & Hal). cbv beta iota zeta.
  eapply (spec_orElse _ (λ h' r, extends h h' ∧ match r with
    | inl r => ListedOk h' listed0 (pa_listed (fst r)) ∧ (errIs IsConflict (snd r) = true → AttemptOk h' observed listed0 (fst r)) ∧
        snd r ≠ None
    | inr (i, l) => SRead h' i ∧ Owned h' observed i ∧ (a = true → l = Some i) ∧ ListedOk h' listed0 l
    end)).
  { case_bool_decide; [apply spec_return; split_and!; done|].
    apply spec_event; [split; [done|by exists observed]|].
    intros [x|i']; apply spec_return; (split; [ext_solve|]); set (h2 := evt _ _ :: h1).
    all: assert (He2 : extends h1 h2) by (unfold h2; ext_solve); pose proof (ListedOk_mono _ _ _ _ He2 Hl1) as Hl2.
    - assert (Hw : ListedOk h2 listed0 (written a listed (with_annotation i retentionAnnotation (retentionText observed)))).
      { apply (written_ok _ _ _ i); [done|done| |done]. intros _. right; right. exists i, observed. split; [by eapply SRead_mono|done]. }
      split_and!; [done| |done]. intros _. by split.
    - assert (Hp : SRead h2 i') by (right; right; left; eexists _, _; by left).
      assert (Hsp : Forall keepsSpec h2 → inc_Spec i' = inc_Spec i).
      { intros Hk. apply Forall_cons in Hk as [Hk _]. simpl in Hk. by rewrite Hk. }
      split_and!; [done|eapply Owned_spec; [exact Hsp|by eapply Owned_mono]|by intros ->|].
      apply (written_ok _ _ _ i); [done|done|by left|done]. }
  { intros h' r (? & ? & ? & Hne). by split_and!. }
  intros h2 [i2 l2] (He2 & Hi2 & Hown2 & Hal2 & Hl2). cbv beta iota zeta. case_bool_decide as Es.
  { apply spec_return. split_and!; [done|done|done|]. intros _. exists i2. split_and!; [done|done|by left]. }
  apply spec_event; [apply write_diagnosis; [done|done|by eapply Diagnosed_mono|done|done]|].
  intros [x|stored]; apply spec_return; (split; [ext_solve|]); set (h3 := evt _ _ :: h2).
  all: assert (He3 : extends h2 h3) by (unfold h3; ext_solve); pose proof (ListedOk_mono _ _ _ _ He3 Hl2) as Hl3.
  - assert (Hw : ListedOk h3 listed0 (written a l2 (with_incident_status i2 (desiredStatus config observed result now (inc_Status i2))))).
    { apply (written_ok _ _ _ i2); [done|done| |done]. by rewrite desired_unresolved. }
    split_and!; [done| |done]. intros _. by split.
  - split_and!; [|done|intros _; exists i2; split_and!; [by eapply SRead_mono|by eapply Owned_mono|right; eexists; by left]]. apply (written_ok _ _ _ i2); [done|done| |].
    + intros _. right; left. eexists. by left.
    + intros Hk. apply Forall_cons in Hk as [Hk _]. by rewrite Hk.
Qed.

Lemma persistStatus_spec name observed result listed0 v h :
  name = incidentName (tr_UID (ob_target observed)) → Diagnosed h observed result → res_TargetFound result = true → res_UIDMatches result = true →
  AttemptOk h observed listed0 v →
  spec J (persistStatus config name observed result now v) h (λ h' r, extends h h' ∧ ListedOk h' listed0 r.2 ∧
    (r.1.2 = None → Recorded h' observed result)).
Proof.
  intros Hname Hd Hf Hu Hc. unfold persistStatus.
  eapply spec_call; [apply (spec_RetryClosure _ _ _ _ (λ h' r, extends h h' ∧ ListedOk h' listed0 (pa_listed (fst r)) ∧
      (snd r = None → Recorded h' observed result))
    (λ v h', extends h h' ∧ AttemptOk h' observed listed0 v))|].
  - split; [ext_solve|done].
  - intros w h1 [He1 Hv]. eapply spec_mono; [apply persistAttempt_spec; try done; by eapply Diagnosed_mono|].
    intros h2 [w' err] (He2 & Hl & Hr & Hrec). split; [|split_and!; [ext_solve|done|done]]. intros E. split; [ext_solve|by apply Hr].
  - intros h1 [w err] (He1 & Hl & Hrec). destruct (errIs _ err) eqn:Ee; [|by apply spec_return].
    eapply spec_call; [apply failIncidentDiagnosis_spec|]. intros h2 e [He2 _]. apply spec_return.
    split_and!; [ext_solve|by eapply ListedOk_mono|]. destruct err as [err|]; [|by vm_compute in Ee].
    simpl. unfold errors_Join. simpl. by destruct e.
Qed.

(** What a diagnosis without an error did to the incident of its target. *)
Definition Processed (h : shist) (observed : observation) (result : DiagnosisResult) : Prop :=
  let name := incidentName (tr_UID (ob_target observed)) in
  if negb (res_TargetFound result) then Settled h name "TargetAbsent"
  else if negb (res_UIDMatches result) then Settled h name "TargetReplaced"
  else Recorded h observed result ∨
    (res_ThresholdElapsed result = false ∧
     ∃ x, evt (SGetIncident name) (inl x : sresp (SGetIncident _)) ∈ h ∧ IsNotFound (ErrExternal x) = true).

Lemma Processed_mono h h' observed result : extends h h' → Processed h observed result → Processed h' observed result.
Proof.
  intros He. unfold Processed. destruct (negb _); [by apply Settled_mono|]. destruct (negb _); [by apply Settled_mono|].
  intros [?|(? & x & ? & ?)]; [left; by eapply Recorded_mono|right]. split; [done|]. exists x. split; [by eapply extends_elem|done].
Qed.

Lemma Processed_absent h observed result :
  res_TargetFound result = false → Settled h (incidentName (tr_UID (ob_target observed))) "TargetAbsent" → Processed h observed result.
Proof. intros Ef Hs. unfold Processed. by rewrite Ef. Qed.
Lemma Processed_replaced h observed result :
  res_TargetFound result = true → res_UIDMatches result = false →
  Settled h (incidentName (tr_UID (ob_target observed))) "TargetReplaced" → Processed h observed result.
Proof. intros Ef Eu Hs. unfold Processed. by rewrite Ef, Eu. Qed.
Lemma Processed_recorded h observed result :
  res_TargetFound result = true → res_UIDMatches result = true → Recorded h observed result → Processed h observed result.
Proof. intros Ef Eu Hs. unfold Processed. rewrite Ef, Eu. by left. Qed.
Lemma Processed_missing h observed result x :
  evt (SGetIncident (incidentName (tr_UID (ob_target observed)))) (inl x : sresp (SGetIncident _)) ∈ h →
  IsNotFound (ErrExternal x) = true →
  negb (res_TargetFound result) || negb (res_UIDMatches result) || negb (res_ThresholdElapsed result) = true →
  Processed h observed result.
Proof.
  intros Hx Hn Hf. unfold Processed. destruct (res_TargetFound result); [|left; by exists x].
  destruct (res_UIDMatches result); [|left; by exists x]. right. split; [by destruct (res_ThresholdElapsed result)|by exists x].
Qed.

Lemma persistDiagnosis_spec observed result existing h :
  Diagnosed h observed result → (∀ i, existing = Some i → SRead h i) →
  spec J (persistDiagnosis config observed result existing now) h (λ h' r, extends h h' ∧ ListedOk h' existing r.2 ∧
    (r.1.2 = None → Processed h' observed result)).
Proof.
  intros Hd Hex. unfold persistDiagnosis. cbv zeta. set (name := incidentName _).
  assert (Hsame : ∀ h1, extends h h1 → ListedOk h1 existing existing).
  { intros h1 He1. split; [|done]. intros i Hi _. left. eapply SRead_mono; [exact He1|by apply Hex]. }
  assert (Hknown : ∀ h1 i dirty, extends h h1 → SRead h1 i → (is_Some existing → existing = Some i) →
    spec J (if negb (bool_decide (incidentUID i = tr_UID (ob_target observed)))
      then mret (dirty, Some (ErrNew ("incident " +:+ name +:+ " belongs to different target UID")), existing)
      else if negb (res_TargetFound result) then err ← resolveIncident name "TargetAbsent" now; mret (true, err, existing)
      else if negb (res_UIDMatches result) then err ← resolveIncident name "TargetReplaced" now; mret (true, err, existing)
      else persistStatus config name observed result now
             (mkAttemptState (Some i) (bool_decide (is_Some existing)) existing dirty)) h1
      (λ h' r, extends h h' ∧ ListedOk h' existing r.2 ∧ (r.1.2 = None → Processed h' observed result))).
  { intros h1 i dirty He1 Hi Hei. destruct (negb (bool_decide _)) eqn:Euid; [apply spec_return; split_and!; [done|by apply Hsame|done]|].
    assert (Hown : Owned h1 observed i) by (bool_prop; intros _; by left).
    assert (Hresolve : ∀ reason, (reason = "TargetAbsent" ∧ res_TargetFound result = false) ∨
        (reason = "TargetReplaced" ∧ res_TargetFound result = true ∧ res_UIDMatches result = false) →
      (∀ h', Settled h' name reason → Processed h' observed result) →
      spec J (err ← resolveIncident name reason now; mret (true, err, existing)) h1
        (λ h' r, extends h h' ∧ ListedOk h' existing r.2 ∧ (r.1.2 = None → Processed h' observed result))).
    { intros reason Hreason Hpr. eapply spec_call; [apply resolveIncident_spec|].
      { unfold resolutionReasons. destruct Hreason as [[-> _]|[-> _]]; set_solver. }
      - intros h2 current He2 Hg _. right. exists observed, result. split_and!; [|done|done].
        eapply Diagnosed_mono; [|exact Hd]. ext_solve.
      - intros h2 e [He2 Hset]. apply spec_return. split_and!; [ext_solve|apply Hsame; ext_solve|]. intros E. apply Hpr, Hset, E. }
    destruct (res_TargetFound result) eqn:Ef; simpl negb; cbv iota.
    2: { apply Hresolve; [by left|]. intros h2. by apply Processed_absent. }
    destruct (res_UIDMatches result) eqn:Eu; simpl negb; cbv iota.
    2: { apply Hresolve; [by right|]. intros h2. by apply Processed_replaced. }
    eapply spec_mono; [eapply (persistStatus_spec _ _ _ existing); [done|by eapply Diagnosed_mono|done|done|]|].
    - split; simpl; [by intros j [= <-]| |by apply Hsame]. intros Hb. apply bool_decide_eq_true in Hb. by apply Hei.
    - intros h2 r (He2 & Hl & Hrec). split_and!; [ext_solve|done|]. intros E. by apply Processed_recorded, Hrec. }
  destruct existing as [i|]; [apply Hknown; [ext_solve|by apply Hex|done]|].
  apply spec_bind, spec_sGetIncident.
  2: { intros i. apply Hknown; [ext_solve| |by intros [??]]. left. exists name. by left. }
  intros x. destruct (IsNotFound _) eqn:En; [|apply spec_return; split_and!; [ext_solve|apply Hsame; ext_solve|done]].
  destruct (negb _ || negb _ || negb _) eqn:Eflags.
  { apply spec_return. split_and!; [ext_solve|apply Hsame; ext_solve|]. intros _. by eapply Processed_missing; [left|..]. }
  bool_prop.
  set (h1 := evt (SGetIncident name) _ :: h). assert (Hd1 : Diagnosed h1 observed result) by (eapply Diagnosed_mono; [|done]; ext_solve).
  apply spec_event; [by exists observed, result|]. intros r.
  assert (Hp : spec J (persistStatus config name observed result now (mkAttemptState None false None true))
    (evt (SCreateIncident (newIncident name observed now)) r :: h1)
    (λ h' r, extends h h' ∧ ListedOk h' None r.2 ∧ (r.1.2 = None → Processed h' observed result))).
  { eapply spec_mono; [apply (persistStatus_spec _ _ _ None); [done|eapply Diagnosed_mono; [|exact Hd1]; ext_solve|done|done|by repeat split]|].
    intros h2 r2 (He2 & Hl2 & Hrec). unfold h1 in He2. split_and!; [ext_solve|done|]. intros E.
    apply Processed_recorded; [done|done|by apply Hrec]. }
  destruct r as [e|]; [|done].
  destruct (negb (IsAlreadyExists _)); [apply spec_return; unfold h1; split_and!; [ext_solve|apply Hsame; ext_solve|done]|done].
Qed.

(** ** Diagnosing *)

Lemma scanNonfinal_lift x : scanNonfinal (liftEvent x) = nonfinal x.
Proof. by destruct x. Qed.

Lemma scanPages_lift dh h : nonfinalPages dh ≤ scanPages ((liftEvent <$> dh) ++ h).
Proof.
  unfold nonfinalPages, scanPages. induction dh as [|x dh IH]; [simpl; lia|].
  rewrite fmap_cons. change ((?y :: ?l) ++ h) with (y :: (l ++ h)). rewrite !filter_cons.
  destruct (decide (nonfinal x = true)), (decide (scanNonfinal (liftEvent x) = true)); simpl; try lia.
  exfalso. rewrite scanNonfinal_lift in *. done.
Qed.

Lemma diagnosisProg_spec {A} (p : prog dresp A) dh h0 Q :
  spec (dpermitted fuel) p dh Q →
  spec J (diagnosisProg p) ((liftEvent <$> dh) ++ h0) (λ h' a, ∃ dh', h' = (liftEvent <$> dh') ++ h0 ∧ Q dh' a).
Proof.
  revert dh. induction p as [a|e k IH]; intros dh Hp; simpl in *; [by exists dh|].
  destruct Hp as [He Hk]. split.
  - destruct e; simpl in *; try done. pose proof (scanPages_lift dh h0). lia.
  - intros r. apply (IH r (evt e r :: dh)), Hk.
Qed.

(** The shared list after the jobs for the targets [done], relative to the list
    that was read: only the objects of those targets may differ. *)
Definition SharedOk (h : shist) (incs : list DeletionIncident) (done : UID → Prop) (l : list DeletionIncident) : Prop :=
  length l = length incs ∧
  ∀ k i, l !! k = Some i → incs !! k = Some i ∨
    ∃ i0, incs !! k = Some i0 ∧ done (incidentUID i0) ∧ ListedOk h (Some i0) (Some i).

Lemma SharedOk_mono h h' incs (P P' : UID → Prop) l :
  extends h h' → (∀ uid, P uid → P' uid) → SharedOk h incs P l → SharedOk h' incs P' l.
Proof.
  intros He HP [Hlen Hl]. split; [done|]. intros k i Hi.
  destruct (Hl k i Hi) as [?|(i0 & ? & ? & ?)]; [by left|right].
  exists i0. split_and!; [done|by apply HP|by eapply ListedOk_mono].
Qed.

(** The pointers lead to objects of the target. *)
Definition KnownOk (incs : list DeletionIncident) (known : gmap UID nat) : Prop :=
  ∀ uid k, known !! uid = Some k → ∃ i, incs !! k = Some i ∧ incidentUID i = uid.

Lemma knownIncidents_ok incs : KnownOk incs (knownIncidents incs).
Proof.
  unfold knownIncidents. assert (Hgen : ∀ ks m, KnownOk incs m →
    KnownOk incs (foldl (λ m k, match incs !! k with Some incident => <[incidentUID incident := k]> m | None => m end) m ks)).
  { induction ks as [|k ks IH]; intros m Hm; simpl; [done|]. apply IH. destruct (incs !! k) as [i|] eqn:Ei; [|done].
    intros uid j [[<- <-]|[_ ?]]%lookup_insert_Some; [by exists i|by apply Hm]. }
  apply Hgen. intros uid k. by rewrite lookup_empty.
Qed.

(** The target was diagnosed without an error and the result reached its incident. *)
Definition TargetDone (h : shist) (observed : observation) : Prop :=
  ∃ result, Concluded h observed result ∧ Processed h observed result.
Lemma TargetDone_mono h h' observed : extends h h' → TargetDone h observed → TargetDone h' observed.
Proof. intros He (r & ? & ?). exists r. split; [by eapply Concluded_mono|by eapply Processed_mono]. Qed.

Lemma diagnoseTarget_spec observed snapshot known incs (P : UID → Prop) l h catalog policies labels :
  CycleData h catalog policies labels → ScanObserved policies labels h observed →
  KnownOk incs known → (∀ i, i ∈ incs → SRead h i) → SharedOk h incs P l → ¬ P (tr_UID (ob_target observed)) →
  spec J (diagnoseTarget config fuel observed snapshot known l now) h (λ h' r, extends h h' ∧
    SharedOk h' incs (λ uid, uid = tr_UID (ob_target observed) ∨ P uid) r.2 ∧ (r.1.2 = None → TargetDone h' observed)).
Proof.
  intros Hc Ho Hk Hincs Hl Hn. unfold diagnoseTarget.
  eapply spec_call; [apply (diagnosisProg_spec _ [] h), Diagnose_spec|]. intros h1 [result derr] (dh & -> & Hq).
  assert (He1 : extends h ((liftEvent <$> dh) ++ h)) by (by eexists).
  set (h1 := (liftEvent <$> dh) ++ h) in *. cbv zeta.
  assert (Hconc : derr = None → Concluded h1 observed result).
  { intros ->. exists snapshot, dh. split; [|destruct Hq as [?|(_ & ?)]; [by left|by right]].
    intros x Hx. unfold h1. apply elem_of_app. left. by apply list_elem_of_fmap_2. }
  assert (Hd : Diagnosed h1 observed (match derr with Some _ => failedDiagnosis observed now | None => result end)).
  { exists catalog, policies, labels. split_and!; [by eapply CycleData_mono|by eapply ScanObserved_mono|].
    destruct derr as [e|]; [by left|right; by apply Hconc]. }
  assert (Hpt : ∀ k i, known !! tr_UID (ob_target observed) = Some k → l !! k = Some i →
    incs !! k = Some i ∧ incidentUID i = tr_UID (ob_target observed)).
  { intros k i Hkn Hi. destruct (Hk _ _ Hkn) as (i0 & Hi0 & Hu). destruct Hl as [_ Hl].
    destruct (Hl k i Hi) as [Hi'|(i1 & Hi1 & HP & _)]; [by simplify_eq|]. simplify_eq. by rewrite Hu in HP. }
  set (pointer := known !! _). eapply spec_call; [apply persistDiagnosis_spec; [exact Hd|]|].
  { intros i Hi. apply bind_Some in Hi as (k & Hkn & Hi). destruct (Hpt k i Hkn Hi) as [Hi' _].
    eapply SRead_mono; [exact He1|]. apply Hincs. by eapply list_elem_of_lookup_2. }
  intros h2 [[dirty perr] listed] (He2 & Hlo & Hproc). simpl in Hlo, Hproc.
  assert (Hdone : ∀ x, SharedOk (x :: h2) incs (λ uid, uid = tr_UID (ob_target observed) ∨ P uid)
    (match pointer with Some k => match listed with Some i => <[k := i]> l | None => l end | None => l end)).
  { intros x. assert (He3 : extends h2 (x :: h2)) by ext_solve. assert (He : extends h (x :: h2)) by ext_solve.
    assert (Hold : SharedOk (x :: h2) incs (λ uid, uid = tr_UID (ob_target observed) ∨ P uid) l)
      by (eapply SharedOk_mono; [exact He| |exact Hl]; by right).
    destruct pointer as [k|] eqn:Ek; [|done]. destruct listed as [i|]; [|done].
    destruct Hold as [Hlen Hold]. split; [by rewrite length_insert|]. intros k' i'.
    rewrite list_lookup_insert_Some. intros [(<- & <- & Hlt)|[_ ?]]; [right|by apply Hold].
    destruct (lookup_lt_is_Some_2 l k Hlt) as [i0 Ei0]. simpl in Hlo. rewrite Ei0 in Hlo.
    destruct (Hpt k i0 Ek Ei0) as [? ?]. exists i0. split_and!; [done|by left|exact (ListedOk_mono _ _ _ _ He3 Hlo)]. }
  destruct (errors_Join _) as [e|] eqn:Ej; apply spec_event; try done; intros []; apply spec_return;
    (split_and!; [ext_solve|exact (Hdone _)|]); [done|]. intros _. destruct derr, perr; try discriminate Ej.
  exists result. split; [eapply Concluded_mono; [|by apply Hconc]|eapply Processed_mono; [|by apply Hproc]]; ext_solve.
Qed.

Lemma diagnoseJobs_spec jobs snapshot known incs (P : UID → Prop) l h catalog policies labels :
  CycleData h catalog policies labels → (∀ o, o ∈ jobs → ScanObserved policies labels h o) →
  KnownOk incs known → (∀ i, i ∈ incs → SRead h i) → SharedOk h incs P l →
  NoDup ((λ o, tr_UID (ob_target o)) <$> jobs) → (∀ o, o ∈ jobs → ¬ P (tr_UID (ob_target o))) →
  spec J (diagnoseJobs config fuel jobs snapshot known l now) h (λ h' r, extends h h' ∧
    SharedOk h' incs (λ uid, P uid ∨ ∃ o, o ∈ jobs ∧ tr_UID (ob_target o) = uid) r.2 ∧
    (r.1.2 = [] → ∀ o, o ∈ jobs → TargetDone h' o)).
Proof.
  revert P l h. induction jobs as [|o jobs IH]; intros P l h Hc Ho Hk Hincs Hl Hnd Hn; cbn [diagnoseJobs].
  { apply spec_return. split_and!; [ext_solve| |intros _ o Ho'; by apply elem_of_nil in Ho'].
    eapply SharedOk_mono; [|by left|exact Hl]. ext_solve. }
  rewrite fmap_cons in Hnd. apply NoDup_cons in Hnd as [Hfresh Hnd].
  eapply spec_call; [eapply diagnoseTarget_spec; [exact Hc|apply Ho; by left|done|done|exact Hl|apply Hn; by left]|].
  intros h1 [[dirty err] l1] (He1 & Hl1 & Hd1). simpl in Hl1, Hd1.
  eapply spec_call; [eapply (IH _ l1)|].
  - by eapply CycleData_mono.
  - intros o' Ho'. eapply ScanObserved_mono; [exact He1|]. apply Ho. by right.
  - done.
  - intros i Hi. eapply SRead_mono; [exact He1|by apply Hincs].
  - exact Hl1.
  - done.
  - intros o' Ho' [E|HP]; [|by apply (Hn o'); [right|]]. apply Hfresh. rewrite <-E. apply list_elem_of_fmap. by exists o'.
  - intros h2 [[dirty' errs] l2] (He2 & Hl2 & Hd2). simpl in Hl2, Hd2. apply spec_return. split_and!; [ext_solve| |]; simpl.
    + eapply SharedOk_mono; [|..|exact Hl2]; [ext_solve|]. intros uid [[->|?]|(o' & ? & <-)]; [right|by left|right].
      * exists o. split; [by left|done].
      * exists o'. split; [by right|done].
    + intros E. destruct err as [e|]; [discriminate E|]. intros o' [->|Ho']%elem_of_cons; [|by apply Hd2].
      eapply TargetDone_mono; [exact He2|by apply Hd1].
Qed.

(** After the diagnoses, an object of the list for which nothing was observed is as
    it was read, and one that is resolved was read or stored so. *)
Definition SharedRead (h : shist) (obs : gmap UID observation) (incidents shared : option (list DeletionIncident)) : Prop :=
  match incidents, shared with
  | Some incs, Some l =>
      (∀ i, i ∈ l → (resolved i = true → SHeld h i) ∧ (Forall keepsSpec h → obs !! incidentUID i = None → i ∈ incs)) ∧
      (∀ i, i ∈ incs → obs !! incidentUID i = None → i ∈ l)
  | None, None => True
  | _, _ => False
  end.

Lemma SharedRead_mono h h' obs incidents shared :
  extends h h' → SharedRead h obs incidents shared → SharedRead h' obs incidents shared.
Proof.
  intros He. destruct incidents, shared; try done. intros [Hs Hs']. split; [|done]. intros i Hi. destruct (Hs i Hi) as [Hheld Hin]. split.
  - intros Hr. eapply SHeld_mono; [exact He|by apply Hheld].
  - intros Hk. apply Hin. by eapply keepsSpec_mono.
Qed.

Lemma sortedUIDs_jobs (obs : gmap UID observation) n :
  (∀ uid o, obs !! uid = Some o → tr_UID (ob_target o) = uid) →
  NoDup ((λ o, tr_UID (ob_target o)) <$> take n (omap (λ uid, obs !! uid) (sortedUIDs obs))).
Proof.
  intros Hk. rewrite fmap_take. apply (sublist_NoDup _ (sortedUIDs obs)).
  - unfold sortedUIDs. rewrite (sort_by_perm str_lt). apply NoDup_fst_map_to_list.
  - etransitivity; [apply sublist_take|]. induction (sortedUIDs obs) as [|uid l IH]; [done|]. cbn.
    destruct (obs !! uid) as [o|] eqn:Eo; simpl; [rewrite (Hk uid o Eo); by apply sublist_skip|by apply sublist_cons].
Qed.

Lemma diagnoseTargets_spec obs snapshot incidents coverage h catalog policies labels :
  CycleData h catalog policies labels → TargetsListed policies labels h catalog obs coverage incidents →
  spec J (diagnoseTargets config fuel obs snapshot incidents now) h (λ h' r, extends h h' ∧ SharedRead h' obs incidents r.2 ∧
    (r.1.2 = None → Forall dispatchedAll h' → ∀ uid o, obs !! uid = Some o → TargetDone h' o)).
Proof.
  intros Hc Ht. unfold diagnoseTargets. cbv zeta. apply spec_event; [done|]. intros k. set (incs := default [] incidents).
  set (h0 := evt _ _ :: h). assert (He0 : extends h h0) by (unfold h0; ext_solve).
  assert (Hincs : ∀ i, i ∈ incs → SRead h0 i).
  { intros i Hi. unfold incs in Hi. destruct incidents as [l|] eqn:El; [|by apply elem_of_nil in Hi].
    right; left. exists l. split; [|done]. eapply extends_elem; [exact He0|by apply (tl_incidents _ _ _ _ _ _ _ Ht)]. }
  assert (Hjob : ∀ n o, o ∈ take n (omap (λ uid, obs !! uid) (sortedUIDs obs)) → ∃ uid, obs !! uid = Some o).
  { intros n o Ho. apply subseteq_take, list_elem_of_omap in Ho as (uid & _ & Ho). by exists uid. }
  eapply spec_call; [eapply (diagnoseJobs_spec _ _ _ incs (λ _, False))|].
  - by eapply CycleData_mono.
  - intros o (uid & Ho)%Hjob. eapply ScanObserved_mono; [exact He0|]. by apply (tl_observed _ _ _ _ _ _ _ Ht) in Ho as [? _].
  - apply knownIncidents_ok.
  - done.
  - split; [done|by left].
  - apply sortedUIDs_jobs. intros uid o Ho. by apply (tl_observed _ _ _ _ _ _ _ Ht) in Ho as [_ ?].
  - intros o _ [].
  - intros h1 [[dirty errs] l] (He1 & Hl & Hdone). simpl in Hl, Hdone. eapply spec_call; [apply spec_inSomeOrder, J_benign|].
    intros h2 errs' (He2 & _ & Hperm). apply spec_return. assert (He : extends h0 h2) by ext_solve. split_and!; [ext_solve| |]; simpl.
    2: { intros E%errors_Join_none Hdisp uid o Ho. eapply TargetDone_mono; [exact He2|]. apply Hdone.
         - destruct errs as [|e errs]; [done|]. exfalso. subst errs'. apply (elem_of_nil e), Hperm. by left.
         - set (jobs := omap _ _) in *. assert (Hk : length jobs ≤ k).
           { rewrite Forall_forall in Hdisp. apply (Hdisp (evt (SDispatched (length jobs)) k)). eapply extends_elem; [exact He|by left]. }
           rewrite (take_ge jobs k Hk). apply list_elem_of_omap. exists uid. split; [|done]. unfold sortedUIDs.
           rewrite (sort_by_perm str_lt). apply list_elem_of_fmap. exists (uid, o). split; [done|by apply elem_of_map_to_list]. }
    destruct incidents as [incs'|]; [|done]. simpl in *. subst incs. destruct Hl as [Hlen Hl]. split.
    2: { intros i (j & Hi)%list_elem_of_lookup_1 Hnone. destruct (lookup_lt_is_Some_2 l j) as [i' Hi'].
         { rewrite Hlen. by eapply lookup_lt_Some. }
         destruct (Hl j i' Hi') as [Hi0|(i0 & Hi0 & [[]|(o & Ho & Eo)] & _)]; [|exfalso].
         - simplify_eq. by eapply list_elem_of_lookup_2.
         - simplify_eq. destruct (Hjob _ _ Ho) as (uid & Hobs). pose proof (tl_observed _ _ _ _ _ _ _ Ht _ _ Hobs) as [_ Eu].
           rewrite <-Eo, Eu in Hnone. congruence. }
    intros i (j & Hi)%list_elem_of_lookup_1. destruct (Hl j i Hi) as [Hi0|(i0 & Hi0 & [[]|(o & Ho & Eo)] & Hok)].
    + apply list_elem_of_lookup_2 in Hi0. split; [|done]. intros _. left. eapply SRead_mono; [exact He|by apply Hincs].
    + destruct (ListedOk_mono _ _ _ _ He2 Hok) as [Hheld Hspec]. split; [by apply Hheld|]. intros Hks Hnone.
      specialize (Hspec Hks). injection Hspec as Hspec. destruct (Hjob _ _ Ho) as (uid & Hobs).
      pose proof (tl_observed _ _ _ _ _ _ _ Ht _ _ Hobs) as [_ Eu]. unfold incidentUID in *. rewrite Hspec, <-Eo, Eu in Hnone. congruence.
Qed.

(** ** The lifecycle *)

Lemma lifecycleOf_unobserved obs coverage catalog policies inc reason :
  lifecycleOf obs coverage catalog policies now inc = LifecycleResolve reason →
  resolved inc = false ∧ obs !! incidentUID inc = None.
Proof.
  unfold lifecycleOf. destruct (resolved inc); [by repeat case_match|]. case_bool_decide as Ho; [done|]. intros _.
  split; [done|]. destruct (obs !! _); [|done]. by destruct Ho.
Qed.

Lemma lifecycleOf_resolve obs coverage catalog policies labels incidents inc reason h :
  TargetsListed policies labels h catalog obs coverage incidents → (∀ incs, incidents = Some incs → inc ∈ incs) →
  lifecycleOf obs coverage catalog policies now inc = LifecycleResolve reason →
  resolved inc = false ∧ ResolveEvidence h catalog policies labels inc reason.
Proof.
  intros Ht Hin. unfold lifecycleOf. destruct (resolved inc) eqn:Er; [by repeat case_match|].
  case_bool_decide as Eobs; [done|]. destruct (Resolve catalog _) as [r|] eqn:Eres.
  2: { intros [= <-]. split; [done|]. by left. }
  destruct (coverage !! _) as [s|] eqn:Ecov; [|done]. destruct (rc_success s) eqn:Es; simpl negb; cbv iota; [|done].
  destruct (tl_coverage _ _ _ _ _ _ _ Ht _ _ Ecov Es) as (incs & Hincs & l & tracked & all & Hgr & Hp & Hit & Hcov & Htr).
  destruct (Htr inc (Hin incs Hincs) Er eq_refl ltac:(by eexists)) as [Hu _]. clear Htr.
  assert (Hkeep : ∀ i, i ∈ all → om_UID i = incidentUID inc → i ∈ ls_items l).
  { intros i Hi Ei. rewrite Hit. apply list_elem_of_filter. split; [|done]. unfold keep, isTracked.
    rewrite Ei, (bool_decide_eq_true_2 _ Hu). by rewrite orb_true_r. }
  assert (Hall : ∀ i, i ∈ ls_items l → i ∈ all) by (intros i; rewrite Hit; by intros [_ ?]%list_elem_of_filter).
  intros Hl. split; [done|]. right. exists (ls_resource l), (ls_version l), all. cbv zeta. split_and!; [done|done|].
  destruct (bool_decide (incidentUID inc ∈ rc_allUIDs s)) eqn:Eall; bool_prop; simpl negb in Hl; cbv iota in Hl.
  - apply (cov_all _ _ _ _ _ _ Hcov) in Eall as (i0 & Hi0 & E0).
    destruct (bool_decide (incidentUID inc ∈ rc_selectedUIDs s)) eqn:Esel; bool_prop; injection Hl as <-.
    + do 3 right. split; [done|]. apply (cov_selected _ _ _ _ _ _ Hcov) in Esel as (i & Hi & Ei & Hw). split; [by exists i; auto|].
      intros j Hj Ej Hwj. destruct (om_DeletionTimestamp j) eqn:Edt; [exfalso|done]. apply Eobs. rewrite <-Ej.
      apply (cov_deleting _ _ _ _ _ _ Hcov); [by apply Hkeep|by rewrite Edt|done].
    + do 2 right. left. split; [done|]. split; [by exists i0; auto|]. intros j Hj Ej.
      destruct (selectWinning _ _) eqn:Ew; [exfalso|done]. apply Esel, (cov_selected _ _ _ _ _ _ Hcov).
      exists j. rewrite Ew. auto.
  - assert (Hnone : ∀ i, i ∈ all → om_UID i ≠ incidentUID inc).
    { intros i Hi Ei. apply Eall, (cov_all _ _ _ _ _ _ Hcov). exists i. auto. }
    destruct (rc_identities s !! _) as [uid|] eqn:Eid; [|injection Hl as <-; by left].
    destruct (negb (bool_decide _)); injection Hl as <-; [right; left|by left]. split_and!; [done|done|].
    apply (cov_identity _ _ _ _ _ _ Hcov) in Eid as (i & Hi & Ei & _). exists i. auto.
Qed.

(** What is known of the incidents the lifecycle goes over. *)
Definition LifecycleInput (h : shist) (obs : gmap UID observation) (incidents : option (list DeletionIncident))
    (incs : list DeletionIncident) (inc : DeletionIncident) : Prop :=
  (∀ l, incidents = Some l → l = incs) ∧ evt SListIncidents (inr incs : sresp SListIncidents) ∈ h ∧
  (resolved inc = true → SHeld h inc) ∧ (Forall keepsSpec h → obs !! incidentUID inc = None → inc ∈ incs).

(** What the lifecycle did with an incident, if it reports no error. *)
Definition Handled (h : shist) (action : lifecycle) (inc : DeletionIncident) : Prop :=
  let name := om_Name (inc_Meta inc) in
  match action with
  | LifecycleKeep => True
  | LifecycleDelete => ∃ r : sresp (SDeleteIncident inc), evt (SDeleteIncident inc) r ∈ h ∧
      ∀ x, r = Some x → IsNotFound (ErrExternal x) = true
  | LifecycleResolve reason => Settled h name reason
  | LifecycleFail => Withdrawn h name "ResourceListFailed" "resource coverage is incomplete"
  end.
Lemma Handled_mono h h' action inc : extends h h' → Handled h action inc → Handled h' action inc.
Proof.
  intros He. destruct action as [| |reason|]; simpl; [done| |by apply Settled_mono|by apply Withdrawn_mono].
  intros (r & ? & ?). exists r. split; [by eapply extends_elem|done].
Qed.

Lemma lifecycleOf_reason obs coverage catalog policies inc reason :
  lifecycleOf obs coverage catalog policies now inc = LifecycleResolve reason → reason ∈ resolutionReasons.
Proof.
  unfold lifecycleOf, resolutionReasons. repeat case_match; try done; intros [= <-]; set_solver.
Qed.

Lemma applyLifecycle_spec obs coverage catalog policies labels incidents inc incs h :
  CycleData h catalog policies labels → TargetsListed policies labels h catalog obs coverage incidents →
  LifecycleInput h obs incidents incs inc →
  ∀ h1, extends h h1 →
  spec J (applyLifecycle (lifecycleOf obs coverage catalog policies now inc) inc now) h1 (λ h' r, extends h1 h' ∧
    (r.2 = None → Handled h' (lifecycleOf obs coverage catalog policies now inc) inc)).
Proof.
  intros Hc Ht (Hsame & Hlist & Hheld & Hin) h1 He1. unfold applyLifecycle. cbv zeta.
  destruct (lifecycleOf _ _ _ _ _ _) as [| |reason|] eqn:El.
  - apply spec_return. split; [ext_solve|done].
  - apply spec_event; [|intros r; apply spec_return; split; [ext_solve|]].
    2: { intros Er. exists r. split; [by left|]. intros x ->. simpl in Er. by destruct (IsNotFound (ErrExternal x)). }
    revert El. unfold lifecycleOf.
    destruct (resolved inc) eqn:Er; [|by repeat case_match].
    destruct (incidentRetention inc policies) as [ret|] eqn:Eret; [|done].
    destruct (di_ResolvedTime _) as [t|] eqn:Et; [|done]. destruct (negb _) eqn:Eb; [|done]. intros _. bool_prop.
    unfold Time_Before in Eb. apply bool_decide_eq_false in Eb.
    exists catalog, policies, labels, ret, t. split_and!; try done.
    + by eapply CycleData_mono.
    + eapply SHeld_mono; [exact He1|by apply Hheld].
    + lia.
  - destruct (lifecycleOf_unobserved _ _ _ _ _ _ El) as [Hr Hobs].
    eapply spec_call; [apply resolveIncident_spec; [by eapply lifecycleOf_reason|]
      |intros h2 e [He2 Hs]; apply spec_return; split; [ext_solve|exact Hs]].
    intros h2 current He2 Hg Hks. left. exists catalog, policies, labels, inc, incs.
    assert (He : extends h h2) by ext_solve.
    assert (Hi : inc ∈ incs) by (apply Hin; [by eapply keepsSpec_mono|done]).
    split_and!; try done; [by eapply CycleData_mono|by eapply extends_elem|].
    destruct (lifecycleOf_resolve _ _ _ _ _ _ _ _ _ Ht ltac:(intros l Hl; by rewrite (Hsame l Hl)) El) as [_ Hev].
    destruct Hev as [?|(resource & version & all & ? & Hp & Hrest)]; [by left|right].
    exists resource, version, all. split_and!; [done|by eapply ScanPages_mono|done].
  - eapply spec_call; [apply failIncidentDiagnosis_spec|]. intros h2 e [He2 Hw]. apply spec_return. split; [ext_solve|exact Hw].
Qed.

Lemma lifecycleLoop_spec obs coverage catalog policies labels incidents incs l change errs h :
  CycleData h catalog policies labels → TargetsListed policies labels h catalog obs coverage incidents →
  (∀ i, i ∈ l → LifecycleInput h obs incidents incs i) →
  ∀ h1, extends h h1 →
  spec J (lifecycleLoop obs coverage catalog policies now l change errs) h1 (λ h' r, extends h1 h' ∧
    (r.2 = None → errs = [] ∧ ∀ i, i ∈ l → Handled h' (lifecycleOf obs coverage catalog policies now i) i)).
Proof.
  intros Hc Ht. revert change errs. induction l as [|i l IH]; intros change errs Hl h1 He1; cbn [lifecycleLoop].
  { apply spec_return. split; [ext_solve|]. intros E%errors_Join_none. split; [done|]. intros i Hi. by apply elem_of_nil in Hi. }
  eapply spec_call; [eapply applyLifecycle_spec; try done; apply Hl; by left|]. intros h2 [c err] [He2 Hh2]. simpl in Hh2.
  eapply spec_mono; [apply IH; [intros j Hj; apply Hl; by right|ext_solve]|]. intros h3 r [He3 Hh3]. split; [ext_solve|].
  intros E. destruct (Hh3 E) as [Ee Hall]. destruct err as [e|]; [by destruct errs|]. split; [done|].
  intros j [->|Hj]%elem_of_cons; [eapply Handled_mono; [exact He3|by apply Hh2]|by apply Hall].
Qed.

Lemma TargetsListed_mono h h' policies labels catalog obs coverage incidents :
  extends h h' → TargetsListed policies labels h catalog obs coverage incidents →
  TargetsListed policies labels h' catalog obs coverage incidents.
Proof.
  intros He [Hi Ho Hc]. split.
  - intros incs ?. eapply extends_elem; [exact He|by apply Hi].
  - intros uid o Hl. destruct (Ho uid o Hl). split; [by eapply ScanObserved_mono|done].
  - intros gr s Hl Hs. destruct (Hc gr s Hl Hs) as (incs & ? & l & tracked & all & ? & Hp & Hrest). exists incs. split; [done|].
    exists l, tracked, all. split_and!; [done|by eapply ScanPages_mono|apply Hrest..].
Qed.

Lemma reconcileLifecycle_spec obs coverage catalog policies labels incidents shared h :
  CycleData h catalog policies labels → TargetsListed policies labels h catalog obs coverage incidents →
  SharedRead h obs incidents shared →
  spec J (reconcileLifecycle obs coverage catalog policies shared now) h (λ h' r, extends h h' ∧
    (r.2 = None → ∀ incs i, incidents = Some incs → i ∈ incs → obs !! incidentUID i = None →
       Handled h' (lifecycleOf obs coverage catalog policies now i) i)).
Proof.
  intros Hc Ht Hs. unfold reconcileLifecycle.
  eapply (spec_orElse _ (λ h' r, extends h h' ∧ match r with
    | inl r => r.2 ≠ None
    | inr l => (∃ incs, ∀ i, i ∈ l → LifecycleInput h' obs incidents incs i) ∧
        ∀ incs i, incidents = Some incs → i ∈ incs → obs !! incidentUID i = None → i ∈ l
    end)).
  - destruct incidents as [incs|], shared as [l|]; try done.
    + apply spec_return. destruct Hs as [Hs Hs']. split_and!; [ext_solve| |by intros incs' i [= <-]; apply Hs'].
      exists incs. intros i Hi. destruct (Hs i Hi) as [Hheld Hin].
      split_and!; [by intros l' [= ->]|by apply (tl_incidents _ _ _ _ _ _ _ Ht)|done|done].
    + apply spec_event; [done|]. intros [x|l]; apply spec_return; (split; [ext_solve|]); [done|]. split; [|done].
      exists l. intros i Hi. split_and!; [done|by left| |done]. intros _. left. right; left. exists l. split; [by left|done].
  - intros h' b [He Hb]. done.
  - intros h' l (He & (incs & Hl) & Hin). eapply spec_mono; [eapply (lifecycleLoop_spec _ _ _ _ labels incidents incs l _ _ h')|].
    + by eapply CycleData_mono.
    + by eapply TargetsListed_mono.
    + done.
    + ext_solve.
    + intros h2 r [He2 Hh]. split; [ext_solve|]. intros E incs' i Ei Hi Hn. destruct (Hh E) as [_ Hall]. by eapply Hall, Hin.
Qed.

(** ** The degraded path *)

Lemma failLoop_spec incidents reason message errs h :
  spec J (failLoop incidents now reason message errs) h (λ h' err, extends h h' ∧
    (err = None → errs = [] ∧ ∀ i, i ∈ incidents → resolved i = false → Withdrawn h' (om_Name (inc_Meta i)) reason message)).
Proof.
  revert errs h. induction incidents as [|i incidents IH]; intros errs h; cbn [failLoop].
  { apply spec_return. split; [ext_solve|]. intros E%errors_Join_none. split; [done|]. set_solver. }
  destruct (resolved i) eqn:Er.
  { eapply spec_mono; [apply IH|]. intros h' err [He Hw]. split; [done|]. intros E. destruct (Hw E) as [? Hall].
    split; [done|]. intros j [->|Hj]%elem_of_cons Hr; [congruence|by apply Hall]. }
  eapply spec_call; [apply failIncidentDiagnosis_spec|]. intros h1 err [He1 Hw1].
  eapply spec_mono; [apply IH|]. intros h2 err2 [He2 Hw2]. split; [ext_solve|]. intros E.
  destruct (Hw2 E) as [Herrs Hall]. destruct err as [e|]; [by destruct errs|]. split; [done|].
  intros j [->|Hj]%elem_of_cons Hr; [|by apply Hall]. eapply Withdrawn_mono; [exact He2|by apply Hw1].
Qed.

(** Every unresolved incident of a list read in this history was withdrawn. *)
Definition AllWithdrawn (h : shist) (reason message : string) : Prop :=
  ∃ l, evt SListIncidents (inr l : sresp SListIncidents) ∈ h ∧
    ∀ i, i ∈ l → resolved i = false → Withdrawn h (om_Name (inc_Meta i)) reason message.

Lemma failActiveIncidentDiagnoses_spec reason message h :
  spec J (failActiveIncidentDiagnoses now reason message) h (λ h' err, extends h h' ∧
    (err = None → AllWithdrawn h' reason message)).
Proof.
  apply spec_event; [done|]. intros [x|l]; [apply spec_return; split; [ext_solve|done]|].
  eapply spec_mono; [apply failLoop_spec|]. intros h' err [He Hw]. split; [ext_solve|]. intros E. destruct (Hw E) as [_ Hall].
  exists l. split; [eapply extends_elem; [exact He|by left]|done].
Qed.

Lemma updateIncidentMetrics_spec incidents h :
  spec J (updateIncidentMetrics incidents) h (λ h' _, extends h h').
Proof.
  unfold updateIncidentMetrics.
  eapply (spec_orElse _ (λ h' (r : unit + list DeletionIncident), extends h h')); [|done|].
  - destruct incidents; [apply spec_return; ext_solve|]. apply spec_event; [done|]. intros [x|l]; apply spec_return; ext_solve.
  - intros h' l He. do 3 (split; [done|]; intros []). simpl. ext_solve.
Qed.

Lemma degraded_spec view accumulated err reason message h :
  spec J (degraded now view accumulated err reason message) h (λ h' r, extends h h' ∧
    (r = None → joinTo accumulated err = None)).
Proof.
  unfold degraded. eapply spec_call; [apply failActiveIncidentDiagnoses_spec|]. intros h1 e [He1 _].
  eapply spec_call; [apply updateIncidentMetrics_spec|]. intros h2 [] He2. apply spec_return. split; [ext_solve|].
  by destruct (joinTo accumulated err).
Qed.

(** ** The stages that read *)

Lemma updatePolicyStatus_spec current desired h :
  spec J (updatePolicyStatus current desired) h (λ h' _, extends h h').
Proof.
  unfold updatePolicyStatus. cbv zeta.
  eapply spec_call; [apply (spec_RetryClosure _ _ _ _ (λ h' _, extends h h') (λ _ h', extends h h')); [ext_solve|]|].
  2: { intros h' r He. by apply spec_return. }
  intros [c d] h1 He1. eapply spec_mono; [|intros h2 r He2; split; [intros _; exact He2|exact He2]].
  eapply (spec_orElse _ (λ h' (_ : (option TerminationPolicy * TerminationPolicyStatus) * option error + TerminationPolicy), extends h h')).
  - destruct c as [p|]; [by apply spec_return|]. apply spec_event; [done|]. intros [x|p]; apply spec_return; ext_solve.
  - done.
  - intros h2 p He2. cbv zeta. case_bool_decide; [by apply spec_return|].
    apply spec_event; [done|]. intros r. apply spec_return. ext_solve.
Qed.

Lemma compileLoop_extends cache catalog policies nextCache byUID items h :
  spec J (compileLoop cache catalog now policies nextCache byUID items) h (λ h' _, extends h h').
Proof.
  revert nextCache byUID items h. induction policies as [|p policies IH]; intros; cbn [compileLoop]; [apply spec_return; ext_solve|].
  cbv zeta. eapply spec_call; [apply updatePolicyStatus_spec|]. intros h1 [e|] He1; [by apply spec_return|].
  eapply spec_mono; [apply IH|]. intros h2 r He2. ext_solve.
Qed.

Lemma compilePolicies_extends st0 catalog h : spec J (compilePolicies st0 catalog now) h (λ h' _, extends h h').
Proof.
  apply spec_event; [done|]. intros [x|l]; [apply spec_return; ext_solve|]. cbv zeta.
  eapply spec_call; [apply compileLoop_extends|]. intros h1 [e|[[nc by_uid] items]] He1; [apply spec_return; ext_solve|].
  do 2 (split; [done|]; intros []). simpl. ext_solve.
Qed.

Lemma snapshotTargets_spec observations keys owners h :
  spec J (snapshotTargets observations keys owners) h (λ h' _, extends h h').
Proof.
  revert keys owners h. induction observations as [|o observations IH]; intros keys owners h; cbn [snapshotTargets]; cbv zeta.
  { apply spec_return. ext_solve. }
  assert (Hrest : ∀ keys owners h1, extends h h1 → spec J (snapshotTargets observations keys owners) h1 (λ h' _, extends h h')).
  { intros keys' owners' h1 He1. eapply spec_mono; [apply IH|]. intros h2 r He2. ext_solve. }
  destruct (isCRDTarget _); [|apply Hrest; ext_solve]. apply spec_event; [done|]. intros [x|crd].
  { destruct (negb (IsNotFound _)); [apply spec_return; ext_solve|apply Hrest; ext_solve]. }
  destruct (crd_Conversion crd) as [conversion|] eqn:Econv; [|apply Hrest; ext_solve].
  destruct (conv_Webhook conversion) as [[config'|]|] eqn:Ew; [| |apply Hrest; ext_solve].
  - destruct (wcc_Service config'); apply Hrest; ext_solve.
  - split; [|intros []]. eexists _, crd, conversion. split_and!; [by left|done|done].
Qed.

Lemma snapshotServices_spec keys services slices h :
  spec J (snapshotServices keys services slices) h (λ h' _, extends h h').
Proof.
  revert services slices h. induction keys as [|key keys IH]; intros services slices h; cbn [snapshotServices].
  { apply spec_return. ext_solve. }
  apply spec_event; [done|]. intros [x|service].
  - destruct (IsNotFound _); [|apply spec_return; ext_solve]. eapply spec_mono; [apply IH|]. intros h2 r He2. ext_solve.
  - apply spec_event; [done|]. intros [x|endpoints]; [apply spec_return; ext_solve|].
    eapply spec_mono; [apply IH|]. intros h2 r He2. ext_solve.
Qed.

Lemma snapshotOwners_spec owners o h : spec J (snapshotOwners owners o) h (λ h' _, extends h h').
Proof.
  revert o h. induction owners as [|owner owners IH]; intros o h; cbn [snapshotOwners]; cbv zeta.
  { apply spec_return. ext_solve. }
  assert (Hrest : ∀ o h1, extends h h1 → spec J (snapshotOwners owners o) h1 (λ h' _, extends h h')).
  { intros o' h1 He1. eapply spec_mono; [apply IH|]. intros h2 r He2. ext_solve. }
  repeat (case_decide; [apply spec_event; [done|]; intros [x|w];
    [destruct (negb (IsNotFound _)); [apply spec_return; ext_solve|apply Hrest; ext_solve]|apply Hrest; ext_solve]|]).
  apply Hrest. ext_solve.
Qed.

Lemma diagnosisSnapshot_spec catalog labels observations h :
  spec J (diagnosisSnapshot catalog labels observations) h (λ h' _, extends h h').
Proof.
  unfold diagnosisSnapshot. cbv zeta.
  do 3 (apply spec_event; [done|]; intros [?|?]; [apply spec_return; ext_solve|]).
  eapply spec_call; [apply spec_inSomeOrder, J_benign|]. intros h1 observed (He1 & _).
  eapply spec_call; [apply snapshotTargets_spec|]. intros h2 [e|[serviceKeys owners]] He2; [apply spec_return; ext_solve|].
  eapply spec_call; [apply spec_inSomeOrder, J_benign|]. intros h3 keys (He3 & _).
  eapply spec_call; [apply snapshotServices_spec|]. intros h4 [e|[services slices]] He4; [apply spec_return; ext_solve|].
  eapply spec_call; [apply spec_inSomeOrder, J_benign|]. intros h5 ordered (He5 & _).
  eapply spec_call; [apply snapshotOwners_spec|]. intros h6 [e|o] He6; apply spec_return; ext_solve.
Qed.

(** ** The cycle *)

Context (st : runnerState).
Hypothesis runner_ok : RunnerOk st.

Lemma compilePolicies_data catalog h :
  spec J (compilePolicies st catalog now) h (λ h' r, extends h h' ∧ (SnapshotOk catalog →
    match r with
    | inl _ => True
    | inr (policies, st') =>
        (∃ l, policies = compileAll catalog now l ∧ evt SListPolicies (inr l : sresp SListPolicies) ∈ h') ∧ RunnerOk st'
    end)).
Proof.
  apply spec_assume; [apply compilePolicies_extends|]. intros Hok. eexists. by apply compilePolicies_spec.
Qed.

(** What a cycle without an error achieved. *)
Definition CycleComplete (h : shist) : Prop :=
  ∃ catalog policies labels (obs : gmap UID observation) (incs : list DeletionIncident),
    CycleData h catalog policies labels ∧ evt SListIncidents (inr incs : sresp SListIncidents) ∈ h ∧
    (* every resource in the scope was listed to its last page, and every object there
       that is being deleted and won by a policy was observed *)
    (∀ gr r, InScope policies catalog incs gr → Resolve catalog gr = Some r →
       ∃ resource version all, r_GroupResource resource = r_GroupResource r ∧
         ScanPages h (resourceGVR resource version) "" all ∧
         ∀ i, i ∈ all → is_Some (om_DeletionTimestamp i) →
           is_Some (selectWinning policies (policyTarget labels resource version i)) → is_Some (obs !! om_UID i)) ∧
    (* every observed target was diagnosed and the result reached its incident *)
    (∀ uid o, obs !! uid = Some o → tr_UID (ob_target o) = uid ∧ ScanObserved policies labels h o ∧ TargetDone h o) ∧
    (* every other incident was settled, or deleted if its retention had elapsed *)
    (SnapshotOk catalog → ∀ inc, inc ∈ incs → obs !! incidentUID inc = None →
       if resolved inc then
         ∀ retention t, incidentRetention inc policies = Some retention → di_ResolvedTime (inc_Status inc) = Some t →
           (Time_Add t retention ≤ now)%Z → Handled h LifecycleDelete inc
       else ∃ reason, Settled h (om_Name (inc_Meta inc)) reason).

(** The outcome of the lifecycle when every resource in the scope was covered. *)
Lemma lifecycle_settles h (obs : gmap UID observation) (coverage : gmap GroupResource resourceCoverage) catalog policies incs inc :
  SnapshotOk catalog →
  (∀ gr s, coverage !! gr = Some s → rc_success s = true) →
  (∀ gr r, InScope policies catalog incs gr → Resolve catalog gr = Some r → is_Some (coverage !! r_GroupResource r)) →
  inc ∈ incs → obs !! incidentUID inc = None →
  Handled h (lifecycleOf obs coverage catalog policies now inc) inc →
  if resolved inc then
    ∀ retention t, incidentRetention inc policies = Some retention → di_ResolvedTime (inc_Status inc) = Some t →
      (Time_Add t retention ≤ now)%Z → Handled h LifecycleDelete inc
  else ∃ reason, Settled h (om_Name (inc_Meta inc)) reason.
Proof.
  intros Hok Hsucc Hcov Hin Hobs Hh. unfold lifecycleOf in Hh. destruct (resolved inc) eqn:Er.
  - intros ret t Eret Et Hle. rewrite Eret, Et in Hh. unfold Time_Before in Hh. rewrite bool_decide_eq_false_2 in Hh by lia. done.
  - rewrite bool_decide_eq_false_2 in Hh by (rewrite Hobs; by intros []).
    destruct (Resolve catalog (incidentGroupResource inc)) as [r|] eqn:Eres; [|by eexists].
    assert (Egr : r_GroupResource r = incidentGroupResource inc) by (by apply (so_resolve _ Hok) in Eres as [_ ?]).
    destruct (Hcov (incidentGroupResource inc) r) as [s Hs]; [right; by exists inc|done|]. rewrite Egr in Hs. rewrite Hs in Hh.
    rewrite (Hsucc _ _ Hs) in Hh. simpl negb in Hh. cbv iota in Hh.
    repeat case_match; by eexists.
Qed.

Lemma Surveyed_observed h catalog policies labels incs obs gr s :
  Surveyed policies labels h catalog incs gr obs s →
  ∃ resource version all, r_GroupResource resource = gr ∧ ScanPages h (resourceGVR resource version) "" all ∧
    ∀ i, i ∈ all → is_Some (om_DeletionTimestamp i) →
      is_Some (selectWinning policies (policyTarget labels resource version i)) → is_Some (obs !! om_UID i).
Proof.
  intros (l & tracked & all & Hgr & Hp & Hit & Hcov & _). exists (ls_resource l), (ls_version l), all. split_and!; [done|done|].
  intros i Hi Hd Hw. apply (cov_deleting _ _ _ _ _ _ Hcov); [|done|done]. rewrite Hit. apply list_elem_of_filter. split; [|done].
  unfold keep, selectedDeleting. destruct Hd as [t ->], Hw as [w ->]. done.
Qed.

Lemma joinTo_none acc e : joinTo acc e = None ↔ acc = None ∧ e = None.
Proof. by destruct acc, e; split; [|intros []| |intros []| |intros []| |intros []]. Qed.

(** The catalogs that were read are well-formed. *)
Definition CatalogsOk (h : shist) : Prop := ∀ s, evt SSnapshot (s : sresp SSnapshot) ∈ h → SnapshotOk s.
Lemma CatalogsOk_down h h' : extends h h' → CatalogsOk h' → CatalogsOk h.
Proof. intros He Hc s Hs. apply Hc. by eapply extends_elem. Qed.

(** What holds at the end of a cycle. *)
Definition CycleEnd (h h' : shist) (r : option error * runnerState) : Prop :=
  extends h h' ∧ (CatalogsOk h' → RunnerOk r.2) ∧ (r.1 = None → Forall dispatchedAll h' → CycleComplete h').

Lemma cycle_run_spec h : spec J (cycle_run config fuel st now) h (CycleEnd h).
Proof.
  assert (Hdeg : ∀ h1 view acc err reason message (st' : runnerState), extends h h1 → (CatalogsOk h1 → RunnerOk st') → joinTo acc err ≠ None →
    spec J (err ← degraded now view acc err reason message; mret (err, st')) h1 (CycleEnd h)).
  { intros h1 view acc err reason message st' He1 Hst Hne. eapply spec_call; [apply degraded_spec|].
    intros h2 e [He2 Hn]. apply spec_return. split_and!; [ext_solve| |intros E; by destruct (Hne (Hn E))].
    intros Hc. apply Hst. by eapply CatalogsOk_down. }
  unfold cycle_run. apply spec_event; [done|]. intros last. case_bool_decide; [apply Hdeg; [ext_solve|done|done]|].
  apply spec_event; [done|]. intros catalog. split; [done|]. intros []. simpl prog_bind.
  set (h1 := evt (SMetric _ _ _) _ :: _).
  assert (Hsnap : evt SSnapshot (catalog : sresp SSnapshot) ∈ h1) by (right; by left).
  assert (He1 : extends h h1) by (unfold h1; ext_solve). clearbody h1.
  eapply spec_call; [apply compilePolicies_data|].
  intros h2 [e|[policies st']] [He2 Hpol]; [apply Hdeg; [ext_solve|done|done]|].
  assert (Hst : ∀ h', extends h2 h' → CatalogsOk h' → RunnerOk st').
  { intros h' He' Hc. apply Hpol, Hc. eapply extends_elem; [|exact Hsnap]. ext_solve. }
  eapply spec_call; [eapply (labelPages_spec config fuel J J_benign J_diverge); lia|].
  intros h3 [e|labels] [He3 Hlab]; [apply Hdeg; [ext_solve|by apply Hst|done]|]. destruct Hlab as (items & Hpages & Elab).
  assert (Hcyc : CycleData h3 catalog policies labels).
  { split_and!; [eapply extends_elem; [|exact Hsnap]; ext_solve| |by exists items].
    intros Hok. destruct (Hpol Hok) as [(l & -> & Hl) _]. exists l. split; [done|by eapply extends_elem]. }
  eapply spec_call; [apply (listTargets_spec config fuel J J_benign J_diverge)|].
  intros h4 [[[obs coverage] incidents] e4] (He4 & Ht & Hscope). cbv zeta.
  assert (Hctx : ∀ (e : option error) h5, spec J (match e with Some _ => call SCtxErr | None => mret false end : SP bool) h5
    (λ h' b, extends h5 h' ∧ (b = true → e ≠ None))).
  { intros [?|] h5; [split; [done|]; intros b; simpl; split; [ext_solve|done]|apply spec_return; split; [ext_solve|done]]. }
  eapply spec_call; [apply Hctx|]. intros h5 [|] [He5 Hb5]; [apply Hdeg; [ext_solve|apply Hst; ext_solve|intros [[_ E]%joinTo_none _]%joinTo_none; by destruct (Hb5 eq_refl)]|].
  eapply (spec_call _ (λ h' _, extends h5 h')).
  { case_bool_decide; [apply diagnosisSnapshot_spec|apply spec_return; ext_solve]. }
  intros h6 [e6|snapshot] He6; [apply Hdeg; [ext_solve|apply Hst; ext_solve|by intros []%joinTo_none]|].
  assert (He46 : extends h4 h6) by ext_solve. assert (He36 : extends h3 h6) by ext_solve.
  eapply spec_call; [eapply diagnoseTargets_spec; [eapply CycleData_mono; [exact He36|exact Hcyc]|eapply TargetsListed_mono; [exact He46|exact Ht]]|].
  intros h7 [[change e7] shared] (He7 & Hsh & Hdone). simpl in Hsh, Hdone. eapply spec_call; [apply Hctx|].
  intros h8 [|] [He8 Hb8]; [apply Hdeg; [ext_solve|apply Hst; ext_solve|intros [[_ E]%joinTo_none _]%joinTo_none; by destruct (Hb8 eq_refl)]|].
  assert (He48 : extends h4 h8) by ext_solve. assert (He38 : extends h3 h8) by ext_solve.
  eapply (spec_call _ (λ h' r, extends h8 h' ∧ (r.2 = None → ∀ incs i, incidents = Some incs → i ∈ incs →
    obs !! incidentUID i = None → Handled h' (lifecycleOf obs coverage catalog policies now i) i))).
  { replace (iv_list (view_apply (mkIncidentView shared (iv_state (install incidents))) change)) with shared by (by destruct change).
    eapply reconcileLifecycle_spec; [eapply CycleData_mono; [exact He38|exact Hcyc]|eapply TargetsListed_mono; [exact He48|exact Ht]|].
    exact (SharedRead_mono _ _ _ _ _ He8 Hsh). }
  intros h9 [change' e9] [He9 Hh9]. simpl in Hh9. eapply spec_call; [apply updateIncidentMetrics_spec|]. intros h10 [] He10.
  apply spec_return. split_and!; [ext_solve|apply Hst; ext_solve|]. simpl. intros E Hdisp.
  apply joinTo_none in E as [[[_ ->]%joinTo_none ->]%joinTo_none ->].
  destruct (Hscope eq_refl) as (incs & -> & Hsucc & Hcov).
  clear He48 He38. assert (He7' : extends h7 h10) by ext_solve. clear He36. assert (He4' : extends h4 h10) by ext_solve.
  assert (He3' : extends h3 h10) by (by transitivity h4).
  assert (Hdown : ∀ h', extends h' h10 → Forall dispatchedAll h') by (intros h' [l ->]; by apply Forall_app in Hdisp as [_ ?]).
  specialize (Hcov (Hdown _ He4')). specialize (Hdone eq_refl (Hdown _ He7')). pose proof (TargetsListed_mono _ _ _ _ _ _ _ _ He4' Ht) as Ht'.
  exists catalog, policies, labels, obs, incs. split_and!.
  - by eapply CycleData_mono.
  - by apply (tl_incidents _ _ _ _ _ _ _ Ht').
  - intros gr r Hin Hr. destruct (Hcov gr r Hin Hr) as [s Hs].
    destruct (tl_coverage _ _ _ _ _ _ _ Ht' _ _ Hs (Hsucc _ _ Hs)) as (incs' & _ & Hsurv). by eapply Surveyed_observed.
  - intros uid o Ho. destruct (tl_observed _ _ _ _ _ _ _ Ht' _ _ Ho) as [? ?]. split_and!; [done|done|].
    eapply TargetDone_mono; [exact He7'|by eapply Hdone].
  - intros Hok inc Hin Hn. eapply lifecycle_settles; try done.
    eapply Handled_mono; [exact He10|by eapply Hh9].
Qed.

Lemma cycle_next tr e k : steps (cycle_run config fuel st now) tr (Do e k) → J (reverse tr) e.
Proof. intros Hs. pose proof (spec_next _ _ _ _ _ _ _ (cycle_run_spec []) Hs) as Hj. by rewrite app_nil_r in Hj. Qed.

(** ** Properties *)

(** When action evidence is valid: it was established now, for one timeout and two
    intervals, or it is that of the status read, for the same actions and with more
    than a cycle left. *)
Definition EvidenceValid (current : DeletionIncidentStatus) (actions : list RemediationAction) (t expires : Time) : Prop :=
  (t = now ∧ expires = Time_Add now (int64 (cfg_Timeout config + int64 (2 * cfg_Interval config)))) ∨
  (di_ActionEvidenceTime current = Some t ∧ di_ActionEvidenceExpiresTime current = Some expires ∧
   di_RecommendedActions current = actions ∧
   (Z.max (cfg_Interval config) (cfg_Timeout config) < Time_Sub expires now)%Z).

Lemma evidenceWindow_valid current result :
  res_DiagnosisComplete result = true → res_Actions result ≠ [] →
  ∃ t expires, evidenceWindow config current result now = (Some t, Some expires) ∧
    EvidenceValid current (res_Actions result) t expires.
Proof.
  intros Hc Ha. unfold evidenceWindow. rewrite Hc, (bool_decide_eq_true_2 _ Ha). simpl.
  assert (Hnew : EvidenceValid current (res_Actions result) now
    (Time_Add now (int64 (cfg_Timeout config + int64 (2 * cfg_Interval config))))) by (by left).
  destruct (di_ActionEvidenceTime current) as [t|] eqn:Et; [|by eexists _, _].
  destruct (di_ActionEvidenceExpiresTime current) as [e|] eqn:Ee; [|by eexists _, _].
  destruct (negb _ || _) eqn:Er; [by eexists _, _|]. bool_prop. exists t, e. split; [done|]. right. split_and!; try done. lia.
Qed.

(** The actions come from a complete diagnosis of this cycle, which read the target
    with its own UID and overdue, and each is justified by what that diagnosis read. *)
Definition ActionsJustified (h : shist) (observed : observation) (actions : list RemediationAction) : Prop :=
  ∃ snapshot dh, (∀ x, x ∈ dh → liftEvent x ∈ h) ∧ ∀ a, a ∈ actions →
    ∃ gvr object deleted, ReadAs dh (ob_target observed) gvr object ∧ GetUID object = tr_UID (ob_target observed) ∧
      GetDeletionTimestamp object = Some deleted ∧
      Time_Before now (Time_Add deleted (set_TerminationAge (p_settings (ob_policy observed)))) = false ∧
      Justified dh (pinVersion (mkRequest (ob_target observed) (ob_policy observed) snapshot now) gvr) object a.

Lemma Diagnosed_actions h observed result :
  Diagnosed h observed result → res_Actions result ≠ [] →
  res_DiagnosisComplete result = true ∧ ActionsJustified h observed (res_Actions result).
Proof.
  intros (catalog & policies & labels & _ & _ & [->|(snapshot & dh & Hdh & Hr)]) Ha; [done|].
  destruct Hr as [(_ & _ & E & _)|(_ & _ & _ & p & gvr & o & dt & Ep & _ & Hread & Hu & Hdt & Hage & Hj & _)]; [done|].
  injection Ep as <-. destruct (res_Actions result) as [|a l] eqn:El; [done|].
  split; [apply (Hj a); by left|]. exists snapshot, dh. split; [done|]. intros b Hb. exists gvr, o, dt. by destruct (Hj b Hb).
Qed.

(** What backs the status written to an incident that stays unresolved. *)
Definition EvidenceBacked (h : shist) (i : DeletionIncident) : Prop :=
  let status := inc_Status i in
  (di_RecommendedActions status = [] ∧ di_ActionEvidenceTime status = None ∧ di_ActionEvidenceExpiresTime status = None) ∨
  (di_Phase status = IncidentPhaseActive ∧
   ∃ catalog policies labels observed current t expires,
     CycleData h catalog policies labels ∧ ScanObserved policies labels h observed ∧
     SRead h current ∧ inc_Spec i = inc_Spec current ∧ inc_Meta i = inc_Meta current ∧ Owned h observed i ∧
     ActionsJustified h observed (di_RecommendedActions status) ∧
     di_ActivePolicyRef status =
       Some (mkPolicyReference (p_name (ob_policy observed)) (p_uid (ob_policy observed)) (p_generation (ob_policy observed))) ∧
     di_ActionEvidenceTime status = Some t ∧ di_ActionEvidenceExpiresTime status = Some expires ∧
     EvidenceValid (inc_Status current) (di_RecommendedActions status) t expires).

Lemma update_backed h i : J h (SUpdateIncident i) → resolved i = false → EvidenceBacked h i.
Proof.
  intros Hw Hr. simpl in Hw.
  inversion Hw as [current name reason message Hg Hc|current name reason Hg Hreason Hc Hcause|current observed result Hread Hown Hd Hf Hu]; subst i.
  - by left.
  - by vm_compute in Hr.
  - unfold EvidenceBacked. cbv zeta. unfold desiredStatus. destruct (decide (res_Actions result = [])) as [Ea|Ea].
    { left. unfold evidenceWindow. rewrite (bool_decide_eq_false_2 (res_Actions result ≠ [])) by (intros Hn; by apply Hn).
      rewrite andb_false_r. simpl. done. }
    right. destruct (Diagnosed_actions _ _ _ Hd Ea) as [Hcomp Hjust].
    destruct (evidenceWindow_valid (inc_Status current) result Hcomp Ea) as (t & e & -> & Hv).
    simpl. rewrite Hcomp. split; [done|]. destruct Hd as (catalog & policies & labels & Hcy & Hob & _).
    exists catalog, policies, labels, observed, current, t, e. by split_and!.
Qed.

(** C3: what a scan cycle publishes is backed by evidence of that cycle: a status it
    writes to an incident that stays unresolved either has no actions and no
    evidence window, or it is Active, its actions come from a complete diagnosis in
    this cycle of a target that was listed while being deleted, under the policy
    that won it, each action is justified by what that diagnosis read, the status
    pins that policy's revision, and the evidence window is fresh or still valid for
    the same actions.  The incident is that of the target: it names the target's UID
    or was got under the name derived from it (writes keep the immutable
    specification). *)
Theorem cycle_publishes_evidence tr i k :
  steps (cycle_run config fuel st now) tr (Do (SUpdateIncident i) k) → resolved i = false → EvidenceBacked (reverse tr) i.
Proof. intros Hs. apply update_backed, (cycle_next _ _ _ Hs). Qed.

(** C4: an incident is resolved only for a reason the cycle established: its
    resource type is gone from the catalog; or its resource was listed along the
    continue tokens to the last page and the target is not there (and something
    else bears its name, if replaced), or is there but no policy selects it, or is
    selected but not being deleted; or the diagnosis of the target found it absent
    or replaced.  The incident was unresolved when read, and its actions are kept.
    (The specification of incidents is immutable, so the API answers a write with the
    specification written.) *)
Theorem cycle_resolves_justified tr i k :
  steps (cycle_run config fuel st now) tr (Do (SUpdateIncident i) k) → resolved i = true → Forall keepsSpec tr →
  ∃ current reason, i = with_incident_status current (resolvedStatus current reason now) ∧
    resolved current = false ∧ ResolveCause (reverse tr) current reason.
Proof.
  intros Hs Hr Hks. apply Forall_reverse in Hks. pose proof (cycle_next _ _ _ Hs) as Hw. simpl in Hw.
  inversion Hw as [current name reason message Hg Hc|current name reason Hg Hreason Hc Hcause|current observed result Hread Hown Hd Hf Hu]; subst i.
  - by vm_compute in Hr.
  - exists current, reason. split_and!; [done|done|by apply Hcause].
  - unfold resolved, desiredStatus in Hr. simpl in Hr. destruct (evidenceWindow _ _ _ _). simpl in Hr.
    by destruct (res_DiagnosisComplete result).
Qed.

(** C17: an incident is created only for a target that this cycle listed while being
    deleted and then diagnosed as present, with its own UID and overdue; and one is
    deleted only if it was read, or stored by this cycle, as resolved and its
    retention, from the active policy or else from its annotation, has elapsed. *)
Theorem cycle_creates_and_deletes tr e k :
  steps (cycle_run config fuel st now) tr (Do e k) →
  match e with
  | SCreateIncident i => IncidentCreate (reverse tr) i
  | SDeleteIncident i => IncidentDelete (reverse tr) i
  | _ => True
  end.
Proof. intros Hs. pose proof (cycle_next _ _ _ Hs) as Hw. by destruct e. Qed.

(** C29: the only way a cycle can crash is a CRD whose conversion has a webhook
    without a client configuration, and it fails to end only against a server that
    hands out at least [fuel] continue tokens. *)
Theorem cycle_crashes_only tr e k :
  steps (cycle_run config fuel st now) tr (Do e k) →
  match e with
  | SPanic => ∃ name crd conversion, evt (SGetCRD name) (inr crd : sresp (SGetCRD _)) ∈ tr ∧
      crd_Conversion crd = Some conversion ∧ conv_Webhook conversion = Some None
  | SDiagnosis DPanic => False
  | SDiverge | SDiagnosis DDiverge => fuel ≤ scanPages tr
  | _ => True
  end.
Proof.
  intros Hs. pose proof (cycle_next _ _ _ Hs) as Hw.
  assert (Hp : scanPages (reverse tr) = scanPages tr) by (unfold scanPages; by rewrite reverse_Permutation).
  destruct e as [| | | | | | | | | | | | | | | | | | | | | |d| | | | | |]; try done.
  - destruct d; simpl in *; [done|done|lia|done].
  - simpl in *. lia.
  - destruct Hw as (name & crd & conversion & Hin & ? & ?). exists name, crd, conversion. by rewrite elem_of_reverse in Hin.
Qed.

(** C5: a cycle that reports no error did its whole work, provided its context did not
    end before the jobs were handed out: every resource the policies or the incidents
    put in its scope was listed along the continue tokens to the last page; every
    object there that is being deleted and that a policy wins was observed; every
    observed target was diagnosed and the outcome stored in its incident; and every
    other incident was resolved, or, if resolved and past its retention, deleted. *)
Theorem cycle_success_complete tr st' :
  runs (cycle_run config fuel st now) tr (None, st') → Forall dispatchedAll tr → CycleComplete (reverse tr).
Proof.
  intros Hr Hd. destruct (spec_sound _ _ _ _ _ _ (cycle_run_spec []) Hr) as [(_ & _ & Hq) _].
  rewrite app_nil_r in Hq. apply Hq; [done|by apply Forall_reverse].
Qed.
End safety.

Section withdrawal.
Context `{SchemaOps, UnicodeTables, LabelOps, KubeNames, DiagnosisNames, ApiErrors, !RetryClosures, !RetryClosureLaws}.
Context (now : Time).

(** C20: when a cycle cannot complete, the evidence is withdrawn: if the degraded
    path reports no error, every incident it listed as unresolved is gone, was
    found resolved, or was read or stored with a failed diagnosis that gives the
    reason of this path and has no findings, no actions, no evidence window and no
    target snapshot. *)
Theorem degraded_withdraws reason message tr :
  runs (failActiveIncidentDiagnoses now reason message) tr None → AllWithdrawn (reverse tr) reason message.
Proof.
  intros Hr. destruct (spec_sound _ _ _ _ _ _ (failActiveIncidentDiagnoses_spec (mkConfig 0 0 0 0 0 0) 0 now reason message []) Hr) as [[_ Hq] _].
  rewrite app_nil_r in Hq. by apply Hq.
Qed.
End withdrawal.
