(* ===== verification/ScanExamples.v ===== *)
(** * A concrete cluster for the scan cycle

    One cycle against an API with a widget stuck in deletion, an incident whose pod
    is gone and a resolved incident past its retention: the hypotheses of the scan
    theorems hold there, and the cycle creates, publishes, resolves and deletes. *)
From S2P Require Import Prelude GoText ApiTypes Discovery Policy GoErrors Prog KubeTypes Collector Analyzers Diagnosis DiagnosisSafety Durations Scanner Incidents ScannerProps IncidentProps ScanListing ScanSafety.

Local Open Scope prog_scope.

Module ExampleScan.
Export ExampleDiagnosis.

#[export] Instance scannerLibs : ScannerLibs := {|
  NamespacedName_String key := key.1 +:+ "/" +:+ key.2;
  IsRequestEntityTooLargeError := reasonIs "RequestEntityTooLarge";
  IsForbidden := reasonIs "Forbidden";
  IsMethodNotSupported := reasonIs "MethodNotAllowed" |}.
#[export] Instance retryClosures : RetryClosures := {| RetryClosure := λ V v fn, retryClosure 4 v fn |}.
#[export] Instance retryClosureLaws : RetryClosureLaws.
Proof. constructor. by exists 4. Qed.

Definition config : Config := mkConfig Minute Minute 2 2 10 10.
Definition now : Time := ExamplePolicy.now.
Definition start : runnerState := mkRunnerState [] ∅.

Definition namespaceMeta : ObjectMeta := mkObjectMeta "team" "" "ns-uid" "9" 0 0 None None {["tier" := "dev"]} ∅ [] [].
Definition widgetMeta : ObjectMeta :=
  mkObjectMeta "w1" "team" "widget-uid" "7" 0 0 (Some 0%Z) None {["app" := "demo"]} ∅ ["example.io/cleanup"] [].
Definition widgetObject : Unstructured :=
  mkUnstructured widgetMeta (inr None) (inl (mkExternalError "not a namespace" "" 0 None false))
    (inl (mkExternalError "not a CRD" "" 0 None false)).
Definition notFound : ExternalError := mkExternalError "not found" "NotFound" 404 None false.

Definition incidentFor (name : string) (phase : IncidentPhase) (resolvedAt : option Time) : DeletionIncident :=
  mkDeletionIncident (mkObjectMeta name "" (name +:+ "-uid") "1" 1 0 None None ∅ ∅ [] [])
    (mkDeletionIncidentSpec (mkTargetReference "" "v1" "pods" "Pod" "team" "p1" "pod-uid") 0)
    (mkDeletionIncidentStatus phase (Some (mkPolicyReference "widgets" "policy-uid" 3)) None None None None
       resolvedAt "" zero_TargetSnapshot [] [] []).
Definition gone : DeletionIncident := incidentFor "gone" IncidentPhaseActive None.
Definition old : DeletionIncident := incidentFor "old" IncidentPhaseResolved (Some 0%Z).

Definition diagnosisAnswer (e : dev) : option (dresp e) :=
  match e return option (dresp e) with
  | DGet _ _ _ => Some (inr widgetObject)
  | DList _ _ _ _ => Some (inr (mkMetadataList [] ""))
  | DDiverge | DPanic => None
  end.

(** The state is the incident that was created. *)
Definition handle (s : option DeletionIncident) (e : sev) : option (sresp e * option DeletionIncident) :=
  match e return option (sresp e * option DeletionIncident) with
  | SLastResult => Some (Some now, s)
  | SSnapshot => Some (ExampleSchema.snapshot, s)
  | SListPolicies => Some (inr [source], s)
  | SGetPolicy _ => Some (inr source, s)
  | SUpdatePolicyStatus _ => Some (None, s)
  | SListMeta gvr _ _ =>
      Some (inr (mkMetadataList
        (if decide (gvr_Resource gvr = "namespaces") then [namespaceMeta]
         else if decide (gvr_Resource gvr = "widgets") then [widgetMeta] else []) ""), s)
  | SListIncidents => Some (inr [gone; old], s)
  | SGetIncident name =>
      Some (if decide (name = "gone") then inr gone
            else match s with Some i => inr i | None => inl notFound end, s)
  | SCreateIncident i => Some (None, Some i)
  | SPatchIncident _ i => Some (inr i, s)
  | SUpdateIncident i => Some (inr i, s)
  | SDeleteIncident _ => Some (None, s)
  | SListAPIServices => Some (inr [], s)
  | SListMutatingWebhooks => Some (inr [], s)
  | SListValidatingWebhooks => Some (inr [], s)
  | SGetCRD _ => Some (inl notFound, s)
  | SGetService _ => Some (inl notFound, s)
  | SListEndpointSlices _ _ => Some (inr [], s)
  | SGetDeployment _ => Some (inl notFound, s)
  | SGetStatefulSet _ => Some (inl notFound, s)
  | SGetDaemonSet _ => Some (inl notFound, s)
  | SReserve _ => Some (true, s)
  | SDiagnosis e => (λ r, (r, s)) <$> diagnosisAnswer e
  | SCtxErr => Some (false, s)
  | SOrder n => Some (seq 0 n, s)
  | SDispatched n => Some (n, s)
  | SMetric _ _ _ => Some (tt, s)
  | SDiverge | SPanic => None
  end.

Abbreviation cycle := (cycle_run config 10 start now).

(** The points of the cycle that the theorems speak of. *)
Definition publishes (e : sev) : bool :=
  match e with
  | SUpdateIncident i => negb (resolved i) && bool_decide (di_RecommendedActions (inc_Status i) ≠ [])
  | _ => false
  end.
Definition resolves (e : sev) : bool := match e with SUpdateIncident i => resolved i | _ => false end.
Definition deletes (e : sev) : bool := match e with SDeleteIncident _ => true | _ => false end.
Definition panics (e : sev) : bool := match e with SPanic => true | _ => false end.

Lemma handle_keepsSpec s e r s' : handle s e = Some (r, s') → keepsSpec (evt e r).
Proof. destruct e; simpl; try done; by intros [= <-]. Qed.

Lemma example_publishes : ∃ tr e k, steps cycle tr (Do e k) ∧ publishes e = true ∧ Forall keepsSpec tr.
Proof. apply (reaches_steps handle _ _ _ None handle_keepsSpec). vm_compute. reflexivity. Qed.
Lemma example_resolves : ∃ tr e k, steps cycle tr (Do e k) ∧ resolves e = true ∧ Forall keepsSpec tr.
Proof. apply (reaches_steps handle _ _ _ None handle_keepsSpec). vm_compute. reflexivity. Qed.
Lemma example_deletes : ∃ tr e k, steps cycle tr (Do e k) ∧ deletes e = true ∧ Forall keepsSpec tr.
Proof. apply (reaches_steps handle _ _ _ None handle_keepsSpec). vm_compute. reflexivity. Qed.

(** The diagnosis of a widget whose incident is listed as resolved long ago writes
    through the list, so the lifecycle of the same cycle does not delete it. *)
Definition returned : DeletionIncident :=
  mkDeletionIncident (inc_Meta old)
    (mkDeletionIncidentSpec (mkTargetReference "example.io" "v1" "widgets" "WidgetV1" "team" "w1" "widget-uid") 0)
    (inc_Status old).
Definition returnHandle (s : option DeletionIncident) (e : sev) : option (sresp e * option DeletionIncident) :=
  match e return option (sresp e * option DeletionIncident) with
  | SListIncidents => Some (inr [returned], s)
  | e => handle s e
  end.
Definition reactivated (tr : list (event sresp)) (r : option error * runnerState) : bool :=
  existsb (λ x, publishes (projT1 x)) tr && negb (existsb (λ x, deletes (projT1 x)) tr).
Example example_reactivates : completes returnHandle reactivated cycle None = true.
Proof. vm_compute. reflexivity. Qed.

(** The cycle completes without an error, with every job handed out. *)
Definition allDispatched (x : event sresp) : bool :=
  match x with
  | existT e r =>
      match e return sresp e → bool with
      | SDispatched n => λ k, bool_decide (n ≤ k)
      | _ => λ _, true
      end r
  end.
Lemma allDispatched_all tr : forallb allDispatched tr = true → Forall dispatchedAll tr.
Proof.
  rewrite <-Is_true_true, forallb_True. intros Hx. eapply Forall_impl; [exact Hx|]. clear. intros [e r] Hx. by destruct e; try exact I; apply bool_decide_unpack in Hx.
Qed.
Definition succeeds (tr : list (event sresp)) (r : option error * runnerState) : bool :=
  forallb allDispatched tr && match r.1 with None => true | Some _ => false end.
Lemma example_succeeds : ∃ tr r, runs cycle tr r ∧ succeeds tr r = true.
Proof. apply (completes_runs handle _ _ None). vm_compute. reflexivity. Qed.

(** The context ends right after the listing: no diagnosis is handed out, no worker
    reports an error, and the cycle reports success although the widget was observed
    and never diagnosed; its incident, still active, keeps its evidence. *)
Definition stuck : DeletionIncident :=
  mkDeletionIncident (inc_Meta gone) (inc_Spec returned) (inc_Status gone).
Definition cutHandle (s : bool) (e : sev) : option (sresp e * bool) :=
  match e return option (sresp e * bool) with
  | SListIncidents => Some (inr [stuck], s)
  | SListAPIServices => Some (inr [], true)
  | SDispatched n => Some (if s then 0 else n, s)
  | SCtxErr => Some (s, s)
  | e => match handle None e with Some (r, _) => Some (r, s) | None => None end
  end.
Definition undiagnosed (tr : list (event sresp)) (r : option error * runnerState) : bool :=
  bool_decide (r.1 = None) &&
  negb (existsb (λ x, match projT1 x with SDiagnosis _ | SUpdateIncident _ => true | _ => false end) tr).
Example cut_short_reports_success : completes cutHandle undiagnosed cycle false = true.
Proof. vm_compute. reflexivity. Qed.

(** A cluster whose CRD is being deleted and names a conversion webhook without a
    client configuration. *)
Definition crdGR : GroupResource := mkGR "apiextensions.k8s.io" "customresourcedefinitions".
Definition crdCatalog : Snapshot :=
  newSnapshot [mkResource crdGR (mkVersion "v1" "CustomResourceDefinition" false ["get"; "list"]) []].
Definition crdPolicy : TerminationPolicy :=
  mkTerminationPolicy meta
    (mkTerminationPolicySpec 7 [mkTargetRule ["apiextensions.k8s.io"] ["customresourcedefinitions"] None None []]
       (10 * Minute) (mkDiagnosisPolicy true true 500 500) [] (mkRemediationPolicy RiskLow [] false (15 * Minute))
       (mkRetentionPolicy (60 * Minute)))
    (mkTerminationPolicyStatus 0 [] None 0).
Definition crdMeta : ObjectMeta := mkObjectMeta "widgets.example.io" "" "crd-uid" "3" 0 0 (Some 0%Z) None ∅ ∅ [] [].
Definition brokenConversion : CustomResourceDefinition :=
  mkCRD crdMeta "example.io" "widgets" "Widget" [] (Some (mkCRDConversion "Webhook" (Some None))).

Definition crdHandle (s : option DeletionIncident) (e : sev) : option (sresp e * option DeletionIncident) :=
  match e return option (sresp e * option DeletionIncident) with
  | SSnapshot => Some (crdCatalog, s)
  | SListPolicies => Some (inr [crdPolicy], s)
  | SListMeta gvr _ _ =>
      Some (inr (mkMetadataList (if decide (gvr_Resource gvr = "customresourcedefinitions") then [crdMeta] else []) ""), s)
  | SListIncidents => Some (inr [], s)
  | SGetCRD _ => Some (inr brokenConversion, s)
  | e => handle s e
  end.
Lemma example_panics : ∃ tr e k, steps cycle tr (Do e k) ∧ panics e = true.
Proof.
  destruct (reaches_steps crdHandle panics (λ _, True) cycle None) as (tr & e & k & ? & ? & _);
    [done|vm_compute; reflexivity|eauto].
Qed.

(** Withdrawing the evidence of the incident that is still active. *)
Definition quiet (tr : list (event sresp)) (r : option error) : bool :=
  match r with None => true | Some _ => false end.
Lemma example_withdraws : ∃ tr r,
  runs (failActiveIncidentDiagnoses now "ScanTimedOut" "late") tr r ∧ quiet tr r = true.
Proof. apply (completes_runs handle _ _ None). vm_compute. reflexivity. Qed.

(** A policy with the same targets and a lower priority. *)
Definition backup : TerminationPolicy :=
  mkTerminationPolicy (mkObjectMeta "backup" "" "backup-uid" "1" 1 0 None None ∅ ∅ [] [])
    (mkTerminationPolicySpec 1 [rule] (10 * Minute) (mkDiagnosisPolicy true true 500 500) []
       (mkRemediationPolicy RiskLow [] false (15 * Minute)) (mkRetentionPolicy (60 * Minute)))
    (mkTerminationPolicyStatus 0 [] None 0).

(** Policies compiled with an empty cache. *)
Definition compiled (tr : list (event sresp)) (r : error + (compiledPolicies * runnerState)) : bool :=
  match r with inr (p, _) => bool_decide (length (cp_items p) = 1) | inl _ => false end.
Lemma example_compiles : ∃ tr r,
  runs (compilePolicies start ExampleSchema.snapshot now) tr r ∧ compiled tr r = true.
Proof. apply (completes_runs handle _ _ None). vm_compute. reflexivity. Qed.

(** The widget as observed, and the diagnosis of its finalizer. *)
Definition observedWidget : observation := mkObservation (dis_Target (inc_Spec returned)) policy widgetMeta.
Definition cleanup : DiagnosisResult := mkDiagnosisResult true true true true zero_TargetSnapshot [] [].

(** A diagnosis that recommends an action, persisted by an API that stores what it
    accepts. *)
Definition removal : RemediationAction :=
  mkRemediationAction "action-1" ActionRemoveResourceFinalizer RiskMedium (ob_target observedWidget) "example.io/cleanup"
    true "" "7" "".
Definition actionable : DiagnosisResult := mkDiagnosisResult true true true true zero_TargetSnapshot [] [removal].
Definition echo (s : unit) (e : sev) : option (sresp e * unit) :=
  match e return option (sresp e * unit) with
  | SPatchIncident _ w => Some (inr w, s)
  | SUpdateIncident w => Some (inr w, s)
  | _ => None
  end.
Definition actionableIncident : DeletionIncident := persisted config observedWidget actionable now returned.
Definition persistTrace : list (event sresp) :=
  let annotated := with_annotation returned retentionAnnotation (retentionText observedWidget) in
  [evt (SPatchIncident returned annotated) (inr annotated : sresp (SPatchIncident _ _));
   evt (SUpdateIncident actionableIncident) (inr actionableIncident : sresp (SUpdateIncident _))].
Lemma example_persists :
  runs (persistDiagnosis config observedWidget actionable (Some returned) now) persistTrace (true, None, Some actionableIncident).
Proof. apply (eval_runs echo _ tt _ _ tt). vm_compute. reflexivity. Qed.
End ExampleScan.

(** ** Witnesses *)

Section witnesses.
Import ExampleScan.

Lemma cycle_publishes_evidence_witness : ∃ tr i k,
  steps cycle tr (Do (SUpdateIncident i) k) ∧ resolved i = false ∧
  di_Phase (inc_Status i) = IncidentPhaseActive ∧
  ∃ observed, ActionsJustified now (reverse tr) observed (di_RecommendedActions (inc_Status i)).
Proof.
  destruct example_publishes as (tr & e & k & Hs & Hp & _). destruct e; try discriminate Hp.
  unfold publishes in Hp. bool_prop. exists tr, incident, k. split; [exact Hs|]. split; [done|].
  destruct (cycle_publishes_evidence config 10 now start initial_runner_ok tr incident k Hs) as [(Ha & _)|(Hph & Hrest)];
    [done|done|].
  destruct Hrest as (_ & _ & _ & observed & _ & _ & _ & _ & _ & _ & _ & _ & _ & Hj & _). split; [exact Hph|]. by exists observed.
Defined.

Lemma cycle_resolves_justified_witness : ∃ tr i k current reason,
  steps cycle tr (Do (SUpdateIncident i) k) ∧ resolved i = true ∧
  resolved current = false ∧ ResolveCause now (reverse tr) current reason.
Proof.
  destruct example_resolves as (tr & e & k & Hs & Hp & Hks). destruct e; try discriminate Hp.
  destruct (cycle_resolves_justified config 10 now start initial_runner_ok tr incident k Hs Hp Hks) as (c & r & _ & Hc & Hr).
  exists tr, incident, k, c, r. split; [exact Hs|]. split; [exact Hp|]. split; [exact Hc|exact Hr].
Defined.

Lemma cycle_creates_and_deletes_witness : ∃ tr i k,
  steps cycle tr (Do (SDeleteIncident i) k) ∧ IncidentDelete now (reverse tr) i.
Proof.
  destruct example_deletes as (tr & e & k & Hs & Hp & _). destruct e; try discriminate Hp.
  exists tr, incident, k. split; [exact Hs|].
  exact (cycle_creates_and_deletes config 10 now start initial_runner_ok tr _ k Hs).
Defined.

Lemma cycle_crashes_only_witness : ∃ tr k,
  steps cycle tr (Do SPanic k) ∧
  ∃ name crd conversion, evt (SGetCRD name) (inr crd : sresp (SGetCRD _)) ∈ tr ∧
    crd_Conversion crd = Some conversion ∧ conv_Webhook conversion = Some None.
Proof.
  destruct example_panics as (tr & e & k & Hs & Hp). destruct e; try discriminate Hp.
  exists tr, k. split; [exact Hs|]. exact (cycle_crashes_only config 10 now start initial_runner_ok tr _ k Hs).
Defined.

Lemma cycle_success_complete_witness : ∃ tr st',
  runs cycle tr (None, st') ∧ Forall dispatchedAll tr ∧ CycleComplete config now (reverse tr).
Proof.
  destruct example_succeeds as (tr & [[e|] st'] & Hr & Hc); unfold succeeds in Hc; bool_prop; [done|].
  exists tr, st'. assert (Hd : Forall dispatchedAll tr) by (apply allDispatched_all; by bool_prop).
  split; [exact Hr|]. split; [exact Hd|].
  exact (cycle_success_complete config 10 now start initial_runner_ok tr st' Hr Hd).
Defined.

Lemma degraded_withdraws_witness : ∃ tr,
  runs (failActiveIncidentDiagnoses now "ScanTimedOut" "late") tr None ∧
  AllWithdrawn (reverse tr) "ScanTimedOut" "late".
Proof.
  destruct example_withdraws as (tr & [r|] & Hr & Hq); [discriminate Hq|]. exists tr. split; [exact Hr|].
  exact (degraded_withdraws now "ScanTimedOut" "late" tr Hr).
Defined.

Lemma selectWinning_reference_witness :
  selectWinning (compileAll ExampleSchema.snapshot now [backup; source]) target =
  SelectWinning [Some (fst (Compile (Some backup) ExampleSchema.snapshot now)); Some policy] target ∧
  p_name <$> selectWinning (compileAll ExampleSchema.snapshot now [backup; source]) target = Some "widgets".
Proof.
  split; [|vm_compute; reflexivity].
  apply (selectWinning_reference ExampleSchema.snapshot now [backup; source] target). apply (bool_decide_unpack _). vm_compute. exact I.
Defined.

Lemma compilePolicies_cached_witness : ∃ tr policies st',
  runs (compilePolicies start ExampleSchema.snapshot now) tr (inr (policies, st')) ∧
  length (cp_items policies) = 1 ∧ RunnerOk st'.
Proof.
  destruct example_compiles as (tr & r & Hr & Hc). destruct r as [err|[policies st']]; [discriminate Hc|].
  unfold compiled in Hc. bool_prop. exists tr, policies, st'. split; [exact Hr|]. split; [done|].
  apply (compilePolicies_cached start ExampleSchema.snapshot now tr _ initial_runner_ok snapshot_ok Hr).
Defined.

Lemma persist_quiescent_witness :
  di_ActionEvidenceExpiresTime (inc_Status actionableIncident) = Some (Time_Add now (3 * Minute)) ∧
  persistDiagnosis config observedWidget actionable (Some actionableIncident) (Time_Add now Minute) =
    mret (false, None, Some actionableIncident).
Proof.
  split; [vm_compute; reflexivity|].
  apply (persist_quiescent config observedWidget actionable (Some returned) now (Time_Add now Minute) persistTrace
    (true, None, Some actionableIncident) actionableIncident actionableIncident now).
  - reflexivity.
  - reflexivity.
  - exact example_persists.
  - reflexivity.
  - repeat constructor.
  - right. left.
  - reflexivity.
  - reflexivity.
  - vm_compute; reflexivity.
  - intros expires E. vm_compute in E. injection E as <-. vm_compute. reflexivity.
Defined.

Lemma retention_outlives_policy_witness :
  lifecycleOf ∅ ∅ ExampleSchema.snapshot (mkCompiledPolicies [] ∅) (Time_Add now (60 * Minute))
    (with_incident_status (persisted config observedWidget cleanup now gone)
       (resolvedStatus (persisted config observedWidget cleanup now gone) "TargetAbsent" now)) = LifecycleDelete.
Proof.
  pose proof (retention_outlives_policy config observedWidget cleanup now gone "TargetAbsent" now ∅ ∅
    ExampleSchema.snapshot (mkCompiledPolicies [] ∅) (Time_Add now (60 * Minute))) as Hw. cbv zeta in Hw.
  rewrite Hw; [vm_compute; reflexivity|split; [vm_compute; reflexivity|vm_compute; discriminate]|apply lookup_empty].
Defined.
End witnesses.
