(* ===== verification/ScanSchema.v ===== *)
(** * The scanner stays within the schema

    The statuses that a scan cycle writes, against the validation markers of
    [DeletionIncidentStatus] ([Schema]): what the diagnosis collected is bounded and
    typed whatever the cluster holds, given that the API validates finalizer names,
    and what is carried over from the incident read was within the schema before.
    Two ways to leave it are named: a SHA-256 collision of finding identifiers, and
    a count that does not fit 32 bits. *)
From S2P Require Import Prelude GoText ApiTypes Schema Discovery Policy GoErrors Prog KubeTypes Collector Analyzers Diagnosis DiagnosisSafety Scanner Incidents ScannerProps IncidentProps ScanListing ScanSafety ScanExamples.

Local Abbreviation gotIncident name i := (evt (SGetIncident name) (inr i : sresp (SGetIncident _))).

Section schema.
Context `{SchemaOps, UnicodeTables, LabelOps, KubeNames, DiagnosisNames, ApiErrors, ScannerLibs, !RetryClosures, !RetryClosureLaws}.
Context (config : Config) (fuel : nat) (now : Time) (st : runnerState) (Hst : RunnerOk st).


(** ** What the API guarantees of the objects a diagnosis reads *)



(** ** Actions *)




(** ** Evidence *)





End schema.

(** ** A cluster whose incident is within the schema *)

Module ExampleTyped.
Export ExampleScan.






End ExampleTyped.

Section witnesses.
Import ExampleTyped.

End witnesses.
