(* ===== verification/Coordinator.v ===== *)
(** * The scanner's lifetime (internal/scanner/scanner.go, Coordinator)

    The coordinator runs one cycle at once and one per tick, keeping the runner's
    caches from cycle to cycle.  Against catalogs as the discovery component
    publishes them, every event of its lifetime is an event of a single cycle that
    started from coherent caches, so what is proved of one cycle holds throughout. *)
From S2P Require Import Prelude GoText ApiTypes Discovery Policy GoErrors Prog KubeTypes Collector Analyzers Diagnosis DiagnosisSafety Durations Scanner Incidents ScannerProps ScanListing ScanSafety ScanExamples.

Local Open Scope prog_scope.

(** ** The loop *)

Section coordinator.
Context `{SchemaOps, UnicodeTables, LabelOps, KubeNames, DiagnosisNames, ApiErrors, ScannerLibs, !RetryClosures}.
Context (config : Config) (fuel : nat).

(** [runTimedCycle]: the outcome is counted and one duration observed.  The error is
    logged only; the loop is the one caller of [RunCycle], so the mutex is free. *)
Definition runTimedCycle (st : runnerState) (now : Time) : SP runnerState :=
  '(err, st) ← RunCycle config fuel false st now;
  metric "exitguard_scanner_cycles_total" (match err with None => "success" | Some _ => "error" end) 1 ;;
  metric "exitguard_scanner_cycle_duration_seconds" "" 1 ;;
  mret st.

(** The [for] loop of [Start]: [ticks] are the times at which the ticker fires
    before the context is cancelled. *)
Fixpoint tickLoop (ticks : list Time) (st : runnerState) : SP runnerState :=
  match ticks with
  | [] => mret st
  | now :: ticks' => st ← runTimedCycle st now; tickLoop ticks' st
  end.

(** [Start], from the runner that [NewCoordinator] builds. *)
Definition Coordinator_Start (now : Time) (ticks : list Time) : SP (option error) :=
  st ← runTimedCycle (mkRunnerState [] ∅) now;
  tickLoop ticks st ;;
  mret None.
End coordinator.

(** ** Interrupted runs of a sequence *)

Section sequences.
Context {E : Type} {R : E → Type}.

Lemma steps_inv {A} (p : prog R A) tr p' :
  steps p tr p' →
  match p with
  | Ret _ => tr = [] ∧ p' = p
  | Do e k => (tr = [] ∧ p' = p) ∨ ∃ r tr', tr = evt e r :: tr' ∧ steps (k r) tr' p'
  end.
Proof. destruct 1 as [p|e k r tr p]; [destruct p; auto|right; eauto]. Qed.
Lemma runs_inv {A} (p : prog R A) tr a :
  runs p tr a →
  match p with
  | Ret b => tr = [] ∧ a = b
  | Do e k => ∃ r tr', tr = evt e r :: tr' ∧ runs (k r) tr' a
  end.
Proof. destruct 1; eauto. Qed.

Definition pending {A} (p : prog R A) : option E := match p with Ret _ => None | Do e _ => Some e end.

(** A point inside [p ≫= f] is a point inside [p], or [p] has returned. *)
Lemma steps_bind {A B} (p : prog R A) (f : A → prog R B) tr e k :
  steps (p ≫= f) tr (Do e k) →
  (∃ k', steps p tr (Do e k')) ∨
  ∃ tr1 tr2 a, tr = tr1 ++ tr2 ∧ runs p tr1 a ∧ steps (f a) tr2 (Do e k).
Proof.
  revert tr. induction p as [a|e0 k0 IH]; intros tr Hs; unfold mbind, prog_mbind in *; simpl in *.
  - right. exists [], tr, a. split_and!; [done|constructor|done].
  - apply steps_inv in Hs as [[-> E0]|(r & tr' & -> & Hs')].
    + apply (f_equal pending) in E0. injection E0 as ->. left. eexists. constructor.
    + destruct (IH r tr' Hs') as [[k' Hk]|(tr1 & tr2 & a & -> & Hr & Hf)].
      * left. exists k'. by constructor.
      * right. exists (evt e0 r :: tr1), tr2, a. split_and!; [done|by constructor|done].
Qed.

Lemma runs_bind {A B} (p : prog R A) (f : A → prog R B) tr b :
  runs (p ≫= f) tr b → ∃ tr1 tr2 a, tr = tr1 ++ tr2 ∧ runs p tr1 a ∧ runs (f a) tr2 b.
Proof.
  revert tr. induction p as [a|e0 k0 IH]; intros tr Hr; unfold mbind, prog_mbind in *; simpl in *.
  - exists [], tr, a. split_and!; [done|constructor|done].
  - apply runs_inv in Hr as (r & tr' & -> & Hr').
    destruct (IH _ _ Hr') as (tr1 & tr2 & a & -> & Ha & Hf). exists (evt e0 r :: tr1), tr2, a. split_and!; [done|by constructor|done].
Qed.
End sequences.

(** ** Every cycle of a lifetime *)

(** A catalog that the discovery component published. *)
Definition PublishedCatalog `{SchemaOps, UnicodeTables} (s : Snapshot) : Prop :=
  ∃ interval answers, (0 ≤ interval)%Z ∧ s = Catalog_Snapshot (fst (Start (NewCatalog interval) true answers)).

Lemma PublishedCatalog_ok `{SchemaOps, UnicodeTables} s : PublishedCatalog s → SnapshotOk s.
Proof.
  intros (interval & answers & Hi & ->). pose proof (Start_ok interval answers Hi) as Hs.
  destruct (Start _ _ _) as [c err]. destruct Hs as (_ & _ & Hok & E). simpl. by rewrite E.
Qed.

(** The events of the coordinator itself. *)
Definition coordinatorMetric (e : sev) : bool :=
  match e with
  | SMetric name _ _ =>
      bool_decide (name = "exitguard_scanner_cycles_total") || bool_decide (name = "exitguard_scanner_cycle_duration_seconds")
  | _ => false
  end.

Section lifetime.
Context `{SchemaOps, UnicodeTables, LabelOps, KubeNames, DiagnosisNames, ApiErrors, ScannerLibs, !RetryClosures, !RetryClosureLaws}.
Context (config : Config) (fuel : nat).

(** The event belongs to a cycle, run at one of the times from coherent caches. *)
Definition InCycle (times : list Time) (tr : list (event sresp)) (e : sev) : Prop :=
  coordinatorMetric e = true ∨
  ∃ before current st now k, tr = before ++ current ∧ now ∈ times ∧ RunnerOk st ∧
    steps (cycle_run config fuel st now) current (Do e k).

Lemma InCycle_app times times' before tr e :
  times ⊆ times' → InCycle times tr e → InCycle times' (before ++ tr) e.
Proof.
  intros Ht [?|(b & c & st & now & k & -> & Hn & Hok & Hs)]; [by left|]. right.
  exists (before ++ b), c, st, now, k. split_and!; [by rewrite app_assoc|by apply Ht|done|done].
Qed.

Lemma metrics_steps {A} l1 l2 v (a : A) tr e k :
  steps (metric "exitguard_scanner_cycles_total" l1 v ;; metric "exitguard_scanner_cycle_duration_seconds" l2 v ;; mret a) tr (Do e k) →
  coordinatorMetric e = true.
Proof.
  intros [[_ E]|([] & tr' & -> & Hs)]%steps_inv; [by apply (f_equal pending) in E as [= ->]|].
  apply steps_inv in Hs as [[_ E]|([] & tr'' & -> & [_ E]%steps_inv)]; [by apply (f_equal pending) in E as [= ->]|done].
Qed.

Lemma runTimedCycle_steps st now tr e k :
  RunnerOk st → steps (runTimedCycle config fuel st now) tr (Do e k) → InCycle [now] tr e.
Proof.
  intros Hok [[k' Hs]|(tr1 & tr2 & [err st'] & -> & _ & Hm)]%steps_bind; [|left; by eapply metrics_steps].
  right. exists [], tr, st, now, k'. split_and!; [done|by left|done|exact Hs].
Qed.

Lemma runTimedCycle_ok st now tr st' :
  RunnerOk st → runs (runTimedCycle config fuel st now) tr st' → CatalogsOk tr → RunnerOk st'.
Proof.
  intros Hok (tr1 & tr2 & [err st1] & -> & Hr & Hm)%runs_bind Hc.
  apply runs_inv in Hm as ([] & tr3 & -> & ([] & tr4 & -> & [-> ->]%runs_inv)%runs_inv).
  destruct (spec_sound _ _ _ _ _ _ (cycle_run_spec config fuel now st Hok []) Hr) as [(_ & Hst & _) _].
  apply Hst. rewrite app_nil_r. intros s Hs. apply Hc. rewrite elem_of_reverse in Hs. apply elem_of_app. by left.
Qed.

Lemma CatalogsOk_app tr1 tr2 : CatalogsOk (tr1 ++ tr2) → CatalogsOk tr1 ∧ CatalogsOk tr2.
Proof. intros Hc. split; intros s Hs; apply Hc, elem_of_app; auto. Qed.

Lemma tickLoop_steps ticks st tr e k :
  RunnerOk st → CatalogsOk tr → steps (tickLoop config fuel ticks st) tr (Do e k) → InCycle ticks tr e.
Proof.
  revert st tr. induction ticks as [|now ticks IH]; intros st tr Hok Hc Hs; cbn [tickLoop] in Hs.
  { by apply steps_inv in Hs as [_ ?]. }
  apply steps_bind in Hs as [[k' Hs]|(tr1 & tr2 & st' & -> & Hr & Hs)].
  - apply (InCycle_app [now] _ []); [set_solver|by eapply runTimedCycle_steps].
  - apply CatalogsOk_app in Hc as [Hc1 Hc2]. apply (InCycle_app ticks); [set_solver|].
    eapply IH; [by eapply runTimedCycle_ok|done|exact Hs].
Qed.

Lemma Start_steps now ticks tr e k :
  CatalogsOk tr → steps (Coordinator_Start config fuel now ticks) tr (Do e k) → InCycle (now :: ticks) tr e.
Proof.
  intros Hc [[k' Hs]|(tr1 & tr2 & st' & -> & Hr & Hs)]%steps_bind.
  - apply (InCycle_app [now] _ []); [set_solver|]. eapply runTimedCycle_steps; [apply initial_runner_ok|exact Hs].
  - apply CatalogsOk_app in Hc as [Hc1 Hc2]. apply (InCycle_app ticks); [set_solver|].
    assert (Hok : RunnerOk st') by (eapply runTimedCycle_ok; [apply initial_runner_ok|done..]).
    apply steps_bind in Hs as [[k' Hs]|(tr3 & tr4 & ? & -> & _ & [_ ?]%steps_inv)]; [by eapply tickLoop_steps|done].
Qed.

(** C8: over the whole life of the scanner, with catalogs as the discovery component
    publishes them, whatever the API answers and however cycles fail: every event is
    one of the two metrics of the coordinator, or an event of a single cycle, run at
    the time of its tick from a runner whose compile cache is coherent; and a status
    written to an incident that stays unresolved is backed by evidence of that cycle
    alone, never by what an earlier cycle saw. *)
Theorem scanner_lifetime now ticks tr e k :
  steps (Coordinator_Start config fuel now ticks) tr (Do e k) →
  (∀ s, evt SSnapshot (s : sresp SSnapshot) ∈ tr → PublishedCatalog s) →
  coordinatorMetric e = true ∨
  ∃ before current st now' k', tr = before ++ current ∧ now' ∈ now :: ticks ∧ RunnerOk st ∧
    steps (cycle_run config fuel st now') current (Do e k') ∧
    ∀ i, e = SUpdateIncident i → resolved i = false → EvidenceBacked config now' (reverse current) i.
Proof.
  intros Hs Hp. assert (Hc : CatalogsOk tr) by (intros s Hin; by apply PublishedCatalog_ok, Hp).
  destruct (Start_steps _ _ _ _ _ Hc Hs) as [?|(before & current & st & now' & k' & -> & Hn & Hok & Hcy)]; [by left|].
  right. exists before, current, st, now', k'. split_and!; [done|done|done|done|]. intros i ->.
  apply (update_backed config fuel), (cycle_next config fuel now' st Hok _ _ _ Hcy).
Qed.
End lifetime.

(** ** A lifetime of two cycles *)

Section witnesses.
Import ExampleScan.

Lemma example_published : PublishedCatalog ExampleSchema.snapshot.
Proof.
  exists 1%Z, [(inr (ExampleSchema.groups, ExampleSchema.lists), now)]. split; [done|]. vm_compute. reflexivity.
Qed.

(** Discovery has no result at the first cycle; the second one publishes. *)
Definition lifeHandle (s : bool * option DeletionIncident) (e : sev) : option (sresp e * (bool * option DeletionIncident)) :=
  match e return option (sresp e * (bool * option DeletionIncident)) with
  | SLastResult => Some (Some (if s.1 then now else 0%Z), (true, s.2))
  | e => match handle s.2 e with Some (r, i) => Some (r, (s.1, i)) | None => None end
  end.
Definition publishedCatalog (x : event sresp) : Prop :=
  match x with
  | existT e r => match e return sresp e → Prop with SSnapshot => λ s, PublishedCatalog s | _ => λ _, True end r
  end.
Lemma lifeHandle_published s e r s' : lifeHandle s e = Some (r, s') → publishedCatalog (evt e r).
Proof. destruct e; simpl; try done. intros [= <- _]. apply example_published. Qed.

Abbreviation life := (Coordinator_Start config 10 1%Z [now]).
Lemma example_life : ∃ tr e k, steps life tr (Do e k) ∧ publishes e = true ∧ Forall publishedCatalog tr.
Proof. apply (reaches_steps lifeHandle _ _ _ (false, None) lifeHandle_published). vm_compute. reflexivity. Qed.

Lemma scanner_lifetime_witness : ∃ tr i k current,
  steps life tr (Do (SUpdateIncident i) k) ∧ di_RecommendedActions (inc_Status i) ≠ [] ∧
  ∃ now', EvidenceBacked config now' (reverse current) i.
Proof.
  destruct example_life as (tr & e & k & Hs & Hp & Hc). destruct e; try discriminate Hp.
  unfold publishes in Hp. bool_prop.
  destruct (scanner_lifetime config 10 1%Z [now] tr _ k Hs) as [Hm|(before & current & st & now' & k' & _ & _ & _ & _ & Hb)].
  - intros s Hin. exact (proj1 (Forall_forall _ _) Hc _ Hin).
  - discriminate Hm.
  - exists tr, incident, k, current. split; [exact Hs|]. split; [done|]. exists now'. by apply Hb.
Defined.
End witnesses.
