(* ===== verification/EndToEnd.v ===== *)
(** * From the scan to the change

    The scanner and the executor meet only in the cluster: the scanner writes the
    status of incidents, the executor reads it.  Every change that the executor makes
    is traced back to a cycle in a run of the scanner, whose events contain the
    diagnosis that justified it and which wrote the status that the executor read. *)
From S2P Require Import Prelude GoText ApiTypes Discovery Policy GoErrors Prog Json KubeTypes Executor ExecutorSafety Collector Analyzers Diagnosis DiagnosisSafety Durations Scanner Incidents ScannerProps ScanListing ScanSafety ScanExamples Coordinator.

Local Open Scope prog_scope.

Section trace.
Context `{SchemaOps, UnicodeTables, LabelOps, KubeNames, DiagnosisNames, ApiErrors, CaseTables, ScannerLibs,
  !RetryClosures, !RetryClosureLaws, ExecutorEnv, !RetryOps resp, !RetryLaws resp}.
Context (config : Config) (fuel : nat).

(** The scanner, in some life of its process, wrote this incident. *)
Definition ScannerWrote (w : DeletionIncident) : Prop :=
  ∃ now ticks tr k, steps (Coordinator_Start config fuel now ticks) tr (Do (SUpdateIncident w) k) ∧
    ∀ s, evt SSnapshot (s : sresp SSnapshot) ∈ tr → PublishedCatalog s.

(** What the cluster guarantees of the incidents it serves: their status is one that
    the scanner, the only writer that its roles admit (config/default,
    config/remediation, config/rbac), wrote, or it has none yet. *)
Definition ServedStatus (i : DeletionIncident) : Prop :=
  inc_Status i = zero_IncidentStatus ∨ ∃ w, ScannerWrote w ∧ inc_Status i = inc_Status w.

(** What a cycle of the scanner established before it wrote the status of [w], when
    it ran at [now'] and its events so far were [cyc]: it listed the target being
    deleted, under the policy revision [policyRef]; its diagnosis read the target with
    its own UID and overdue and justifies the action; and the incident it writes is
    that of the target. *)
Definition EstablishedBy (now' : Time) (cyc : list (event sresp)) (w : DeletionIncident)
    (policyRef : PolicyReference) (action : RemediationAction) (t expires : Time) : Prop :=
  let h := reverse cyc in
  ∃ catalog policies labels observed current,
    CycleData now' h catalog policies labels ∧ ScanObserved policies labels h observed ∧
    action ∈ di_RecommendedActions (inc_Status w) ∧
    ActionsJustified now' h observed (di_RecommendedActions (inc_Status w)) ∧
    policyRef = mkPolicyReference (p_name (ob_policy observed)) (p_uid (ob_policy observed)) (p_generation (ob_policy observed)) ∧
    SRead h current ∧ Owned h observed w ∧
    EvidenceValid config now' (inc_Status current) (di_RecommendedActions (inc_Status w)) t expires.

(** The status of the incident [i] goes back to a scan: a life of the scanner's
    process, whose catalogs are those that discovery publishes, came to the write of
    an incident with this status in one of its cycles, which had established the
    action. *)
Definition Established (i : DeletionIncident) (policyRef : PolicyReference) (action : RemediationAction)
    (t expires : Time) : Prop :=
  ∃ now ticks before cyc st now' w k k',
    steps (Coordinator_Start config fuel now ticks) (before ++ cyc) (Do (SUpdateIncident w) k) ∧
    (∀ s, evt SSnapshot (s : sresp SSnapshot) ∈ before ++ cyc → PublishedCatalog s) ∧
    now' ∈ now :: ticks ∧ steps (cycle_run config fuel st now') cyc (Do (SUpdateIncident w) k') ∧
    inc_Status i = inc_Status w ∧ EstablishedBy now' cyc w policyRef action t expires.

Lemma served_established i id a policyRef now :
  ServedStatus i → di_Phase (inc_Status i) = IncidentPhaseActive → di_ActivePolicyRef (inc_Status i) = Some policyRef →
  findAction (di_RecommendedActions (inc_Status i)) id = Some a → actionEvidenceCurrent (inc_Status i) now = true →
  ∃ t expires, (t ≤ expires)%Z ∧ (now < expires)%Z ∧ Established i policyRef a t expires.
Proof.
  intros [E|(w & (now0 & ticks & tr & k & Hs & Hp) & E)] Hph Href Hf Hev; rewrite E in *; [done|].
  apply findAction_elem in Hf as [Hin _].
  assert (Hc : CatalogsOk tr) by (intros s Hin'; by apply PublishedCatalog_ok, Hp).
  destruct (Start_steps _ _ _ _ _ _ _ Hc Hs) as [?|(before & cyc & st & now' & k' & -> & Hn & Hok & Hcy)]; [done|].
  assert (Hr : resolved w = false) by (unfold resolved; by rewrite bool_decide_eq_false_2 by (by rewrite Hph)).
  pose proof (update_backed config fuel now' _ _ (cycle_next config fuel now' st Hok _ _ _ Hcy) Hr) as [(Ea & _)|(_ & Hb)].
  { rewrite Ea in Hin. by apply elem_of_nil in Hin. }
  destruct Hb as (catalog & policies & labels & observed & current & t & expires & Hcd & Hob & Hrd & _ & _ & Hown & Hj & Hpr & Et & Ee & Hv).
  unfold actionEvidenceCurrent in Hev. rewrite Et, Ee in Hev. unfold Time_Before in Hev. bool_prop.
  exists t, expires. split; [lia|]. split; [done|].
  exists now0, ticks, before, cyc, st, now', w, k, k'. split_and!; try done.
  exists catalog, policies, labels, observed, current. split_and!; try done. congruence.
Qed.

Context (request : NamespacedName) (maxAttempts : Z).

(** C6: from the scan to the change: provided the incidents that the cluster serves
    carry statuses that the scanner wrote, every mutating call of the executor carries
    out an action of an incident that it read, and whose status a cycle of the scanner
    wrote: in the events of that cycle the target was listed while being deleted and
    won by a policy, and its diagnosis read it with its own UID and overdue and
    justifies this very action; the evidence has not expired by the executor's clock;
    the executor compiled that policy in the same revision; and the object it changes
    has the UID and the resource version that the diagnosis recorded in the action. *)
Theorem mutation_traced_to_scan tr e k :
  steps (Reconcile maxAttempts request) tr (Do e k) → mutates e = true →
  (∀ name i, did (EGetIncident name) (inr i) ∈ tr → ServedStatus i) →
  ∃ name incident action policyRef source current gvr dryRun now t expires,
    did (EGetIncident name) (inr incident) ∈ tr ∧ action ∈ di_RecommendedActions (inc_Status incident) ∧
    ActionCall action current gvr dryRun e ∧
    GetUID current = tr_UID (ra_Target action) ∧ GetResourceVersion current = ra_PreconditionResourceVersion action ∧
    did ENow now ∈ tr ∧ (t ≤ expires)%Z ∧ (now < expires)%Z ∧
    did (EGetPolicy (pr_Name policyRef)) (inr source) ∈ tr ∧
    om_UID (tp_Meta source) = pr_UID policyRef ∧ om_Generation (tp_Meta source) = pr_Generation policyRef ∧
    Established incident policyRef action t expires.
Proof.
  intros Hs Hm Hserved. pose proof (Reconcile_next _ _ _ _ _ Hs) as Hp.
  assert (Ha : Authorized request maxAttempts (reverse tr) e) by (by destruct e). clear Hp.
  destruct Ha as (_ & approval & incident & locked & action & ref & policy & expires & _ & _ & Hci & Hpol & _ & _ & [Ht]).
  destruct Ht as (current & gvr & _ & _ & Hu & Hrv & _ & Hcall).
  destruct (cp_source _ _ _ _ _ Hpol) as (src & cat & t0 & Hsrc & Hsu & Hsg & _).
  assert (Hin : ∀ x, x ∈ sinceLock (reverse tr) → x ∈ tr) by (intros x Hx%since_sub; by rewrite elem_of_reverse in Hx).
  destruct (ci_evidence _ _ _ _ _ _ _ Hci) as (now & Hnow & Hev).
  destruct (served_established locked (ras_ActionID (ap_Spec approval)) action ref now) as (t & exp & Hle & Hlt & Hest);
    [eapply Hserved, Hin, (ci_read _ _ _ _ _ _ _ Hci)|by apply Hci|by apply Hci|by apply Hci|exact Hev|].
  pose proof (ci_action _ _ _ _ _ _ _ Hci) as Hact. apply findAction_elem in Hact as [Hact _].
  eexists _, locked, action, ref, src, current, gvr, (ras_DryRun (ap_Spec approval)), now, t, exp.
  split_and!; try done; first [by apply Hin|eapply Hin, (ci_read _ _ _ _ _ _ _ Hci)].
Qed.
End trace.

(** ** A change that goes back to a scan *)

Module ExampleSystem.
Export ExampleScan.
#[export] Existing Instance ExampleCluster.executorEnv.
#[export] Existing Instance ExampleCluster.retryOps.
#[export] Existing Instance ExampleCluster.retryLaws.

Abbreviation life := (Coordinator_Start config 10 1%Z [now]).
(** The incident that the second cycle of the example publishes. *)
Definition published : DeletionIncident := Eval vm_compute in
  match until lifeHandle publishes life (false, None) with
  | Some (_, Do (SUpdateIncident i) _) => i
  | _ => zero_DeletionIncident
  end.
Definition publishesIt (e : sev) : bool :=
  match e with SUpdateIncident i => bool_decide (inc_Status i = inc_Status published) | _ => false end.

Lemma example_wrote : ∃ w, ScannerWrote config 10 w ∧ inc_Status w = inc_Status published.
Proof.
  destruct (reaches_steps lifeHandle publishesIt publishedCatalog life (false, None) lifeHandle_published)
    as (tr & e & k & Hs & Hp & Hc); [vm_compute; reflexivity|].
  destruct e; try discriminate Hp. unfold publishesIt in Hp. bool_prop. exists incident. split; [|done].
  exists 1%Z, [now], tr, k. split; [exact Hs|]. intros s Hin. exact (proj1 (Forall_forall _ _) Hc _ Hin).
Qed.

(** The cluster serves its status; the approval asks for its first action. *)
Definition served : DeletionIncident :=
  mkDeletionIncident (ExampleCluster.objectMeta "inc" "inc-uid" "1" 0) (inc_Spec published) (inc_Status published).
Definition approved : RemediationApproval :=
  mkRemediationApproval (ExampleCluster.objectMeta "ok" "ok-uid" "1" (now - Minute)%Z)
    (mkRemediationApprovalSpec (mkObjectIdentityReference "inc" "inc-uid")
       (default "" (ra_ID <$> head (di_RecommendedActions (inc_Status published)))) false "ticket")
    zero_ApprovalStatus.
Definition serve (s : unit) (e : ev) : option (resp e * unit) :=
  match e return option (resp e * unit) with
  | EGetApproval _ => Some (inr approved, tt)
  | EGetIncident _ => Some (inr served, tt)
  | e => ExampleCluster.handle s e
  end.
Definition servesScan (x : event resp) : Prop :=
  match x with
  | existT e r =>
      match e return resp e → Prop with
      | EGetIncident _ => λ r, match r with inr i => i = served | inl _ => True end
      | _ => λ _, True
      end r
  end.
Lemma serve_scan s e r s' : serve s e = Some (r, s') → servesScan (evt e r).
Proof. destruct e; simpl; try done. by intros [= <-]. Qed.
Lemma example_traced : ∃ tr e k,
  steps (Reconcile 3 ("", "ok")) tr (Do e k) ∧ mutates e = true ∧ Forall servesScan tr.
Proof. apply (reaches_steps serve _ _ _ tt serve_scan). vm_compute. reflexivity. Qed.
End ExampleSystem.

Section witnesses.
Import ExampleSystem.

Lemma mutation_traced_to_scan_witness : ∃ tr e k,
  steps (Reconcile 3 ("", "ok")) tr (Do e k) ∧ mutates e = true ∧
  ∃ incident action policyRef t expires, Established config 10 incident policyRef action t expires.
Proof.
  destruct example_traced as (tr & e & k & Hs & Hm & Hsv). exists tr, e, k. split; [exact Hs|]. split; [exact Hm|].
  destruct (mutation_traced_to_scan config 10 ("", "ok") 3 tr e k Hs Hm)
    as (_ & incident & action & ref & _ & _ & _ & _ & _ & t & expires & _ & _ & _ & _ & _ & _ & _ & _ & _ & _ & _ & Hest).
  - intros name i Hin. pose proof (proj1 (Forall_forall _ _) Hsv _ Hin) as Hi. simpl in Hi. subst i.
    right. destruct example_wrote as (w & Hw & Ew). exists w. split; [exact Hw|]. by rewrite Ew.
  - exists incident, action, ref, t, expires. exact Hest.
Defined.
End witnesses.
