(* ===== verification/Counters.v ===== *)
(** * The performance harness: counters and counting clients
    (internal/perftest/counters.go, client.go)

    Operation counters with atomic 64-bit cells, the check of exact counts, and the
    wrappers that count the calls of a controller-runtime client.  A pointer to
    counters may be nil; the wrapped client is a parameter. *)
From S2P Require Import Prelude GoText GoErrors.

Local Open Scope Z_scope.

(** ** Operations *)

(** [Operation], a [uint8] *)
Abbreviation Operation := Z (only parsing).
Definition DiscoveryRequest : Operation := 0.
Definition MetadataList : Operation := 1.
Definition MetadataPage : Operation := 2.
Definition TypedGet : Operation := 3.
Definition DynamicGet : Operation := 4.
Definition TypedList : Operation := 5.
Definition DynamicList : Operation := 6.
Definition IncidentList : Operation := 7.
Definition PolicyList : Operation := 8.
Definition Create : Operation := 9.
Definition Update : Operation := 10.
Definition Patch : Operation := 11.
Definition StatusWrite : Operation := 12.
Definition Delete : Operation := 13.
Definition Finalizer : Operation := 14.
Definition DryRun : Operation := 15.
Definition Retry : Operation := 16.
Definition Write : Operation := 17.
Definition Mismatch : Operation := 18.
Definition operationCount : Operation := 19.

Definition operationNames : list string :=
  ["discovery_request"; "metadata_list"; "metadata_page"; "typed_get"; "dynamic_get"; "typed_list"; "dynamic_list";
   "incident_list"; "policy_list"; "create"; "update"; "patch"; "status_write"; "delete"; "finalizer"; "dry_run";
   "retry"; "write"; "mismatch"].

Definition Operation_String (o : Operation) : string :=
  if operationCount <=? o then "operation_" +:+ fmt_d o else default "" (operationNames !! Z.to_nat o).

(** The operations below [n], in order: what a loop over them visits. *)
Definition operationsTo (n : Operation) : list Operation := seqZ 0 n.

(** ** Counters *)

(** The cells of [Counters] and of its [Snapshot]: one number per operation. *)
Abbreviation cells := (list Z) (only parsing).
Definition noCells : cells := replicate (Z.to_nat operationCount) 0.
Definition cell (values : cells) (o : Operation) : Z := default 0 (values !! Z.to_nat o).

Definition Snapshot_Value (s : cells) (o : Operation) : Z := if operationCount <=? o then 0 else cell s o.

Definition Snapshot_Total (s : cells) : Z := foldl (λ total o, int64 (total + cell s o)) 0 (operationsTo Mismatch).

Definition Snapshot_Delta (s earlier : cells) : cells :=
  (λ o, int64 (cell s o - cell earlier o)) <$> operationsTo operationCount.

(** A pointer to counters: [None] is nil. *)
Abbreviation Counters := (option (list Z)) (only parsing).

Definition Counters_Add (c : Counters) (o : Operation) (count : Z) : Counters :=
  match c with
  | None => None
  | Some values =>
      if operationCount <=? o then Some values else Some (alter (λ v, int64 (v + count)) (Z.to_nat o) values)
  end.
Definition Counters_Record (c : Counters) (o : Operation) : Counters := Counters_Add c o 1.

Definition Counters_Value (c : Counters) (o : Operation) : Z :=
  match c with
  | None => 0
  | Some values => if operationCount <=? o then 0 else cell values o
  end.

Definition Counters_Snapshot (c : Counters) : cells :=
  match c with
  | None => noCells
  | Some values => cell values <$> operationsTo operationCount
  end.

Definition Counters_Reset (c : Counters) : Counters :=
  match c with None => None | Some _ => Some ((λ _, 0) <$> operationsTo operationCount) end.

(** [Check]: the error and the counters afterwards. *)
Definition Counters_Check (c : Counters) (expected : gmap Operation Z) : option error * Counters :=
  let actual := Counters_Snapshot c in
  let problems :=
    omap (λ o, let want := default 0 (expected !! o) in
               let got := Snapshot_Value actual o in
               if got =? want then None
               else Some (Operation_String o +:+ "=" +:+ fmt_d got +:+ ", want " +:+ fmt_d want))
      (operationsTo Mismatch) in
  match problems with
  | [] => (None, c)
  | _ => (Some (ErrNew ("operation count mismatch: " +:+ strings_Join problems "; ")), Counters_Record c Mismatch)
  end.

(** ** Counting clients *)

(** The list types that the wrappers tell apart. *)
Inductive ObjectList := DeletionIncidentList | TerminationPolicyList | OtherList.

Definition listOperation (list : ObjectList) : Operation :=
  match list with
  | DeletionIncidentList => IncidentList
  | TerminationPolicyList => PolicyList
  | OtherList => TypedList
  end.

(** The calls of a client; the arguments stand for keys, objects, patches and options,
    which the wrappers hand on unchanged. *)
Inductive subresourceMethod := SubGet | SubCreate | SubUpdate | SubPatch | SubApply.
Inductive clientMethod :=
  | MGet
  | MList (list : ObjectList)
  | MApply
  | MCreate
  | MDelete
  | MUpdate
  | MPatch
  | MDeleteAllOf
  | MStatus (m : subresourceMethod)
  | MSubResource (name : string) (m : subresourceMethod).

Section client.
Context {Args Result World : Type}.
(** The wrapped client: it acts on the world and answers. *)
Variable delegate : clientMethod → Args → World → Result * World.

(** [recordWrite] *)
Definition recordWrite (c : Counters) (status : bool) (o : Operation) : Counters :=
  Counters_Record (if status then Counters_Record c StatusWrite else Counters_Record c o) Write.

(** What [countingSubresource] records before it delegates. *)
Definition countSubresource (c : Counters) (status : bool) (m : subresourceMethod) : Counters :=
  match m with
  | SubGet => Counters_Record c TypedGet
  | SubCreate => recordWrite c status Create
  | SubUpdate => recordWrite c status Update
  | SubPatch => recordWrite c status Patch
  | SubApply => recordWrite c status Patch
  end.

(** What [countingClient] records before it delegates. *)
Definition countCall (c : Counters) (m : clientMethod) : Counters :=
  match m with
  | MGet => Counters_Record c TypedGet
  | MList list => Counters_Record c (listOperation list)
  | MApply => Counters_Record (Counters_Record c Patch) Write
  | MCreate => Counters_Record (Counters_Record c Create) Write
  | MDelete => Counters_Record (Counters_Record c Delete) Write
  | MUpdate => Counters_Record (Counters_Record c Update) Write
  | MPatch => Counters_Record (Counters_Record c Patch) Write
  | MDeleteAllOf => Counters_Record (Counters_Record c Delete) Write
  | MStatus m => countSubresource c true m
  | MSubResource name m => countSubresource c (bool_decide (name = "status")) m
  end.

(** A call through [NewCountingClient]: [Status] delegates to the subresource of
    that name. *)
Definition countingClient (m : clientMethod) (args : Args) (s : Counters * World) : Result * (Counters * World) :=
  let c := countCall s.1 m in
  let m' := match m with MStatus sub => MSubResource "status" sub | _ => m end in
  let '(r, w) := delegate m' args s.2 in
  (r, (c, w)).

(** A call through [NewCountingReader]. *)
Inductive readerMethod := RGet | RList (list : ObjectList).
Definition countingReader (m : readerMethod) (args : Args) (s : Counters * World) : Result * (Counters * World) :=
  let c := Counters_Record s.1 (match m with RGet => TypedGet | RList list => listOperation list end) in
  let '(r, w) := delegate (match m with RGet => MGet | RList list => MList list end) args s.2 in
  (r, (c, w)).
End client.

(** ** Properties *)

Lemma int64_add_l a b : int64 (int64 a + b) = int64 (a + b).
Proof.
  unfold int64, wrapS. f_equal. replace ((a + 2 ^ (64 - 1)) mod 2 ^ 64 - 2 ^ (64 - 1) + b + 2 ^ (64 - 1))
    with ((a + 2 ^ (64 - 1)) mod 2 ^ 64 + b) by lia. rewrite Z.add_mod_idemp_l by done. f_equal. lia.
Qed.
Lemma int64_shift v k : int64 (v + k * 2 ^ 64) = int64 v.
Proof.
  unfold int64, wrapS. f_equal. replace (v + k * 2 ^ 64 + 2 ^ (64 - 1)) with (v + 2 ^ (64 - 1) + k * 2 ^ 64) by lia.
  by rewrite Z.mod_add.
Qed.
Lemma int64_repr v : ∃ k, int64 v = v + k * 2 ^ 64.
Proof.
  unfold int64, wrapS. exists (- ((v + 2 ^ (64 - 1)) / 2 ^ 64)). pose proof (Z.div_mod (v + 2 ^ (64 - 1)) (2 ^ 64)). lia.
Qed.
Lemma int64_sum5 a b x d e : int64 (int64 a + int64 b + int64 x + int64 d + int64 e) = int64 (a + b + x + d + e).
Proof.
  destruct (int64_repr a) as [ka ->], (int64_repr b) as [kb ->], (int64_repr x) as [kx ->], (int64_repr d) as [kd ->], (int64_repr e) as [ke ->].
  rewrite <-(int64_shift (a + b + x + d + e) (ka + kb + kx + kd + ke)). f_equal. lia.
Qed.
Lemma int64_small v : minInt64 ≤ v ≤ maxInt64 → int64 v = v.
Proof. unfold minInt64, maxInt64, int64, wrapS. intros Hv. rewrite Z.mod_small; lia. Qed.

(** Counters have one cell for each operation. *)
Definition CountersOk (c : Counters) : Prop := ∀ values, c = Some values → length values = Z.to_nat operationCount.

Definition validOp (o : Operation) : Prop := 0 ≤ o < operationCount.

Lemma noCells_ok : CountersOk (Some noCells).
Proof. by intros ? [= <-]. Qed.
Lemma Add_ok c o n : CountersOk c → CountersOk (Counters_Add c o n).
Proof.
  intros Hc values. destruct c as [v|]; simpl; [|done]. destruct (operationCount <=? o); intros [= <-]; [by apply Hc|].
  rewrite length_alter. by apply Hc.
Qed.

Lemma cell_alter values f o o' :
  length values = Z.to_nat operationCount → validOp o → validOp o' →
  cell (alter f (Z.to_nat o) values) o' = if decide (o = o') then f (cell values o') else cell values o'.
Proof.
  unfold validOp. intros Hl Ho Ho'. unfold cell. destruct (decide (o = o')) as [->|Hne].
  - rewrite list_lookup_alter_eq. destruct (lookup_lt_is_Some_2 values (Z.to_nat o')) as [v ->]; [|done]. rewrite Hl. lia.
  - by rewrite list_lookup_alter_ne by lia.
Qed.

Lemma Value_Add values o n o' :
  length values = Z.to_nat operationCount → validOp o' → 0 ≤ o →
  Counters_Value (Counters_Add (Some values) o n) o' =
    if decide (o = o') then int64 (cell values o' + n) else cell values o'.
Proof.
  intros Hl Ho' Ho. pose proof Ho' as [H0 H1]. simpl. destruct (Z.leb_spec operationCount o).
  - simpl. rewrite (proj2 (Z.leb_gt _ _)) by lia. by rewrite decide_False by lia.
  - simpl. rewrite (proj2 (Z.leb_gt _ _)) by lia. by rewrite cell_alter by (done || by split).
Qed.

(** The number that a sequence of additions gives an operation. *)
Definition added (o : Operation) (adds : list (Operation * Z)) : Z :=
  foldr (λ a total, (if decide (a.1 = o) then a.2 else 0) + total) 0 adds.
Definition addAll (c : Counters) (adds : list (Operation * Z)) : Counters :=
  foldl (λ c a, Counters_Add c a.1 a.2) c adds.

Lemma Value_addAll values adds o :
  length values = Z.to_nat operationCount → validOp o → Forall (λ a, 0 ≤ a.1) adds →
  minInt64 ≤ cell values o ≤ maxInt64 →
  Counters_Value (addAll (Some values) adds) o = int64 (cell values o + added o adds).
Proof.
  intros Hl Ho Hadds. revert values Hl. induction Hadds as [|[o1 n] adds H1 _ IH]; intros values Hl Hb.
  - unfold added. cbn [addAll foldl foldr]. rewrite Z.add_0_r, int64_small by done. destruct Ho. simpl. by rewrite (proj2 (Z.leb_gt _ _)) by lia.
  - change (addAll (Some values) ((o1, n) :: adds)) with (addAll (Counters_Add (Some values) o1 n) adds).
    change (added o ((o1, n) :: adds)) with ((if decide (o1 = o) then n else 0) + added o adds).
    simpl in H1. pose proof (Add_ok (Some values) o1 n) as Hok. pose proof (Value_Add values o1 n o Hl Ho H1) as Hv.
    destruct (Counters_Add (Some values) o1 n) as [values'|] eqn:Ea; [|simpl in Ea; by destruct (operationCount <=? o1)].
    assert (Hl' : length values' = Z.to_nat operationCount) by (apply Hok; [by intros ? [= <-]|done]).
    assert (Ec : cell values' o = Counters_Value (Some values') o).
    { destruct Ho. simpl. by rewrite (proj2 (Z.leb_gt _ _)) by lia. }
    assert (Hb' : minInt64 ≤ cell values' o ≤ maxInt64).
    { rewrite Ec, Hv. case_decide; [|done]. unfold int64, wrapS, minInt64, maxInt64.
      pose proof (Z.mod_pos_bound (cell values o + n + 2 ^ (64 - 1)) (2 ^ 64)). lia. }
    rewrite (IH values' Hl' Hb'), Ec, Hv. case_decide; [rewrite int64_add_l|]; f_equal; lia.
Qed.

Lemma elem_of_operationsTo n o : o ∈ operationsTo n ↔ 0 ≤ o < n.
Proof. unfold operationsTo. rewrite elem_of_seqZ. lia. Qed.

Lemma Snapshot_Value_of c o : validOp o → Snapshot_Value (Counters_Snapshot c) o = Counters_Value c o.
Proof.
  intros [H0 H1]. unfold Snapshot_Value. rewrite (proj2 (Z.leb_gt _ _)) by lia. destruct c as [values|]; cbn [Counters_Snapshot Counters_Value].
  - rewrite (proj2 (Z.leb_gt _ _)) by lia. unfold cell at 1, operationsTo. rewrite list_lookup_fmap, lookup_seqZ_lt by lia.
    simpl. f_equal. lia.
  - unfold cell, noCells. rewrite lookup_replicate_2 by (unfold operationCount in *; lia). done.
Qed.

Lemma omap_nil {A B} (f : A → option B) l : omap f l = [] ↔ ∀ x, x ∈ l → f x = None.
Proof.
  split.
  - intros E x Hx. destruct (f x) as [y|] eqn:Ef; [|done]. assert (Hy : y ∈ omap f l) by (apply list_elem_of_omap; eauto).
    rewrite E in Hy. by apply elem_of_nil in Hy.
  - induction l as [|x l IH]; intros Hn; [done|]. simpl. rewrite (Hn x) by (by left). apply IH. intros y Hy. apply Hn. by right.
Qed.

(** C: [Check] accepts exactly the expected counts: it returns no error, and changes
    nothing, if and only if every operation but the mismatch bookkeeping has the
    expected count (zero where none is given); otherwise it reports an error and
    counts one mismatch, and no other counter changes. *)
Theorem Counters_Check_iff c expected :
  CountersOk c →
  (fst (Counters_Check c expected) = None ↔ ∀ o, 0 ≤ o < Mismatch → Counters_Value c o = default 0 (expected !! o)) ∧
  (fst (Counters_Check c expected) = None → snd (Counters_Check c expected) = c) ∧
  (fst (Counters_Check c expected) ≠ None → ∀ o, validOp o → c ≠ None →
     Counters_Value (snd (Counters_Check c expected)) o =
       if decide (o = Mismatch) then int64 (Counters_Value c o + 1) else Counters_Value c o).
Proof.
  intros Hok. unfold Counters_Check. cbv zeta. set (f := λ o, if _ =? _ then None else _).
  assert (Hf : omap f (operationsTo Mismatch) = [] ↔ ∀ o, 0 ≤ o < Mismatch → Counters_Value c o = default 0 (expected !! o)).
  { rewrite omap_nil. setoid_rewrite elem_of_operationsTo. split; intros Hall o Ho; specialize (Hall o Ho);
      (assert (Hv : validOp o) by (unfold validOp, operationCount, Mismatch in *; lia)).
    - unfold f in Hall. rewrite (Snapshot_Value_of _ _ Hv) in Hall. by destruct (Z.eqb_spec (Counters_Value c o) (default 0 (expected !! o))).
    - unfold f. rewrite (Snapshot_Value_of _ _ Hv), Hall. by rewrite Z.eqb_refl. }
  destruct (omap f (operationsTo Mismatch)) as [|p l] eqn:Ep; (split; [by rewrite <-Hf|]); (split; [done|]); [done|].
  intros _ o Ho Hc. destruct c as [values|]; [|done]. cbn [snd]. unfold Counters_Record.
  rewrite Value_Add by (done || by apply Hok). destruct Ho as [H0 H1]. cbn [Counters_Value]. rewrite (proj2 (Z.leb_gt _ _)) by lia.
  destruct (decide (o = Mismatch)) as [->|Hne]; [done|]. by rewrite decide_False by (intros E; by apply Hne).
Qed.

Lemma Counters_Check_iff_witness :
  fst (Counters_Check (Counters_Record (Some noCells) Write) {[Write := 1]}) = None ∧
  fst (Counters_Check (Counters_Record (Some noCells) Write) ∅) ≠ None.
Proof.
  assert (Hok : CountersOk (Counters_Record (Some noCells) Write)) by (apply Add_ok, noCells_ok).
  split.
  - apply (Counters_Check_iff _ {[Write := 1]} Hok). intros o Ho. unfold Mismatch in Ho.
    assert (Hin : o ∈ seqZ 0 18) by (apply elem_of_seqZ; lia). revert o Ho Hin. clear.
    intros o _ Hin. vm_compute in Hin. repeat (apply elem_of_cons in Hin as [->|Hin]; [vm_compute; reflexivity|]).
    by apply elem_of_nil in Hin.
  - intros E. pose proof (proj1 (proj1 (Counters_Check_iff _ ∅ Hok)) E Write) as Hv. vm_compute in Hv. discriminate Hv. by split.
Defined.

(** ** What the counting client counts *)

(** The operations that one call adds to. *)
Definition countedAs (m : clientMethod) : list Operation :=
  let sub status (m : subresourceMethod) :=
    match m with
    | SubGet => [TypedGet]
    | SubCreate => [if status : bool then StatusWrite else Create; Write]
    | SubUpdate => [if status then StatusWrite else Update; Write]
    | SubPatch | SubApply => [if status then StatusWrite else Patch; Write]
    end in
  match m with
  | MGet => [TypedGet]
  | MList list => [listOperation list]
  | MCreate => [Create; Write]
  | MUpdate => [Update; Write]
  | MPatch | MApply => [Patch; Write]
  | MDelete | MDeleteAllOf => [Delete; Write]
  | MStatus m => sub true m
  | MSubResource name m => sub (bool_decide (name = "status")) m
  end.

(** The calls that may change the cluster. *)
Definition mutates (m : clientMethod) : bool :=
  match m with
  | MGet | MList _ | MStatus SubGet | MSubResource _ SubGet => false
  | _ => true
  end.

Section counting.
Context {Args Result World : Type}.
Context (delegate : clientMethod → Args → World → Result * World).

(** A sequence of calls: the answers and the final state. *)
Fixpoint calls {S} (step : clientMethod → Args → S → Result * S) (l : list (clientMethod * Args)) (s : S) : list Result * S :=
  match l with
  | [] => ([], s)
  | (m, args) :: l' =>
      let '(r, s) := step m args s in
      let '(rs, s) := calls step l' s in (r :: rs, s)
  end.

(** [Status] is the subresource of that name. *)
Definition unwrapped (m : clientMethod) : Args → World → Result * World :=
  delegate (match m with MStatus sub => MSubResource "status" sub | _ => m end).

Lemma countCall_records c m : countCall c m = foldl Counters_Record c (countedAs m).
Proof. by destruct m as [| | | | | | | |[]|? []]; simpl; unfold recordWrite; try case_bool_decide. Qed.

Lemma calls_counted l c w :
  calls (countingClient delegate) l (c, w) =
    let direct := calls unwrapped l w in (direct.1, (foldl Counters_Record c (l.*1 ≫= countedAs), direct.2)).
Proof.
  cbv zeta. revert c w. induction l as [|[m args] l IH]; intros c w; [done|]. cbn [calls fmap list_fmap fst snd mbind list_bind].
  unfold countingClient at 1. cbv zeta. cbn [fst snd]. change (delegate _ args w) with (unwrapped m args w).
  destruct (unwrapped m args w) as [r w']. rewrite IH, foldl_app, <-countCall_records.
  by destruct (calls unwrapped l w') as [rs' w''].
Qed.

(** The number of times an operation occurs. *)
Definition occurrences (o : Operation) (ops : list Operation) : Z := Z.of_nat (length (filter (o =.) ops)).

Lemma records_added c ops : foldl Counters_Record c ops = addAll c ((λ o, (o, 1)) <$> ops).
Proof. unfold addAll. revert c. induction ops as [|o ops IH]; intros c; [done|]. cbn [foldl fmap list_fmap]. apply IH. Qed.
Lemma added_occurrences o ops : added o ((λ o, (o, 1)) <$> ops) = occurrences o ops.
Proof.
  unfold occurrences. induction ops as [|o' ops IH]; [done|]. rewrite fmap_cons. unfold added in *. cbn [foldr fst snd]. rewrite IH, filter_cons.
  destruct (decide (o' = o)) as [->|Hne]; [rewrite decide_True by done; simpl; lia|rewrite decide_False by (by intros ->); lia].
Qed.
Lemma countedAs_nonneg m : Forall (λ o, 0 ≤ o) (countedAs m).
Proof. destruct m as [|[]| | | | | | |[]|? []]; simpl; try case_bool_decide; repeat constructor; done. Qed.

Lemma Value_calls ms o :
  validOp o → Counters_Value (foldl Counters_Record (Some noCells) (ms ≫= countedAs)) o = int64 (occurrences o (ms ≫= countedAs)).
Proof.
  intros Ho. rewrite records_added, Value_addAll, added_occurrences.
  - f_equal. unfold cell, noCells. destruct Ho. rewrite lookup_replicate_2 by (unfold operationCount in *; lia). done.
  - done.
  - done.
  - apply Forall_fmap, Forall_bind. apply Forall_true. intros m. apply (Forall_impl _ _ _ (countedAs_nonneg m)). done.
  - unfold cell, noCells. destruct Ho. by rewrite lookup_replicate_2 by (unfold operationCount in *; lia).
Qed.

(** Each mutating call is one write of exactly one kind, and each other call is one
    read. *)
Lemma occurrences_balance ms :
  let n o := occurrences o (ms ≫= countedAs) in
  n Write = Z.of_nat (length (filter mutates ms)) ∧
  n Write = n Create + n Update + n Patch + n Delete + n StatusWrite ∧
  n TypedGet + n TypedList + n IncidentList + n PolicyList = Z.of_nat (length ms) - n Write.
Proof.
  cbv zeta. unfold occurrences. induction ms as [|m ms IH]; [done|]. cbn [mbind list_bind]. rewrite !filter_app, !length_app, !Nat2Z.inj_add.
  rewrite filter_cons. destruct IH as (IH1 & IH2 & IH3).
  destruct m as [|[]| | | | | | |[]|? []]; cbn [countedAs listOperation mutates]; try case_bool_decide.
  all: simpl; lia.
Qed.

(** The counting client is transparent and exact: any sequence of calls through it
    gives the answers, and leaves the cluster, that the wrapped client gives directly;
    and from fresh counters the write counter is the number of calls that may change
    the cluster, of which each is counted as exactly one of create, update, patch,
    delete and status write, and every other call as exactly one get or list (modulo
    the 64 bits of a counter). *)
Theorem countingClient_exact l w :
  let '(answers, (c, w')) := calls (countingClient delegate) l (Some noCells, w) in
  (answers, w') = calls unwrapped l w ∧
  Counters_Value c Write = int64 (Z.of_nat (length (filter mutates l.*1))) ∧
  Counters_Value c Write = int64 (Counters_Value c Create + Counters_Value c Update + Counters_Value c Patch +
                                  Counters_Value c Delete + Counters_Value c StatusWrite) ∧
  int64 (Counters_Value c Write + Counters_Value c TypedGet + Counters_Value c TypedList +
         Counters_Value c IncidentList + Counters_Value c PolicyList) = int64 (Z.of_nat (length l)).
Proof.
  rewrite calls_counted. cbv zeta. destruct (calls unwrapped l w) as [answers w']. cbn [fst snd].
  destruct (occurrences_balance l.*1) as (H1 & H2 & H3). rewrite !Value_calls by (by split).
  split_and!; [done|by f_equal| |].
  - by rewrite int64_sum5, <-H2.
  - rewrite int64_sum5. f_equal. rewrite length_fmap in H3. lia.
Qed.
End counting.
