(* ===== verification/Pager.v ===== *)
(** * The performance harness: pages and fixtures
    (internal/perftest/pagination.go, fixtures.go)

    The pager serves a fixture in pages along continue tokens, as the scanner's
    page loops consume them; the fixtures are deterministic names and checksums. *)
From S2P Require Import Prelude GoText ApiTypes GoErrors Durations DurationProps Numbers Counters.

Local Open Scope Z_scope.

Definition continuePrefix : string := "offset:".

(** [strings.CutPrefix] *)
Fixpoint CutPrefix (s prefix : string) {struct prefix} : option string :=
  match prefix, s with
  | EmptyString, _ => Some s
  | String p prefix', String c s' => if Ascii.eqb c p then CutPrefix s' prefix' else None
  | String _ _, EmptyString => None
  end.

Lemma CutPrefix_inv s prefix rest : CutPrefix s prefix = Some rest → s = prefix +:+ rest.
Proof.
  revert s. induction prefix as [|q prefix IH]; intros s; simpl; [by intros [= ->]|]. destruct s as [|c s]; [done|].
  destruct (Ascii.eqb_spec c q) as [->|]; [|done]. intros E%IH. by rewrite E.
Qed.

(** [Pager] *)
Record Pager (T : Type) := mkPager {
  pg_Items : list T;
  pg_PageSize : Z;
  pg_ListOperation : Operation
}.
Arguments mkPager {T}. Arguments pg_Items {T}. Arguments pg_PageSize {T}. Arguments pg_ListOperation {T}.

(** A page, an error, or the panic of a slice expression out of range. *)
Inductive page (T : Type) :=
  | PageItems (items : list T) (token : string)
  | PageError (err : error)
  | PagePanic.
Arguments PageItems {T}. Arguments PageError {T}. Arguments PagePanic {T}.

Section pager.
Context `{UnicodeTables} {T : Type}.

Definition Pager_Validate (p : Pager T) : option error :=
  if pg_PageSize p <=? 0 then Some (ErrNew "page size must be positive")
  else if operationCount <=? pg_ListOperation p
  then Some (ErrNew ("invalid list operation " +:+ fmt_d (pg_ListOperation p)))
  else None.

Definition pageOffset (token : string) (length : Z) : error + Z :=
  if bool_decide (token = "") then inr 0
  else
    let invalid := inl (ErrNew ("invalid continue token " +:+ fmt_q token)) in
    match CutPrefix token continuePrefix with
    | None => invalid
    | Some value =>
        match Atoi value with
        | None => invalid
        | Some offset => if (offset <=? 0) || (length <=? offset) then invalid else inr offset
        end
    end.

(** [Page]: the counters are shared through a pointer, so they are threaded. *)
Definition Page (p : Pager T) (c : Counters) (token : string) (requestedLimit : Z) : page T * Counters :=
  let c := Counters_Record (Counters_Record c (pg_ListOperation p)) MetadataPage in
  let len := Z.of_nat (length (pg_Items p)) in
  (match Pager_Validate p with
   | Some err => PageError err
   | None =>
   match pageOffset token len with
   | inl err => PageError err
   | inr start =>
       let pageSize := if (0 <? requestedLimit) && (requestedLimit <? pg_PageSize p) then requestedLimit else pg_PageSize p in
       let end_ := Z.min (int64 (start + pageSize)) len in
       if end_ <? start then PagePanic
       else
         let items := take (Z.to_nat (end_ - start)) (drop (Z.to_nat start) (pg_Items p)) in
         PageItems items (if end_ =? len then "" else continuePrefix +:+ fmt_d end_)
   end end, c).

(** A client that follows the continue tokens; [None] if [n] pages are not enough
    or a page cannot be served. *)
Fixpoint walk (n : nat) (p : Pager T) (c : Counters) (token : string) (limit : Z) : option (list (list T)) * Counters :=
  match n with
  | O => (None, c)
  | S n' =>
      match Page p c token limit with
      | (PageItems items next, c) =>
          if bool_decide (next = "") then (Some [items], c)
          else let '(rest, c) := walk n' p c next limit in (cons items <$> rest, c)
      | (_, c) => (None, c)
      end
  end.
End pager.

(** ** Fixtures *)

(** [Scale] *)
Record Scale := mkScale {
  sc_Name : string; sc_Policies : Z; sc_Resources : Z; sc_Objects : Z; sc_PageSize : Z }.

Definition Scale_Validate `{UnicodeTables} (s : Scale) : option error :=
  if bool_decide (sc_Name s = "") then Some (ErrNew "scale name is required")
  else if (sc_Policies s <=? 0) || (sc_Resources s <=? 0) || (sc_Objects s <=? 0) || (sc_PageSize s <=? 0)
  then Some (ErrNew ("scale " +:+ fmt_q (sc_Name s) +:+ " dimensions must be positive"))
  else None.

(** [time.Date] in UTC for a date that is in range. *)
Definition daysBeforeMonth (leap : bool) (month : Z) : Z :=
  nth (Z.to_nat (month - 1)) [0; 31; 59; 90; 120; 151; 181; 212; 243; 273; 304; 334] 0 +
  (if leap && (2 <? month) then 1 else 0).
Definition Date_UTC (year month day hour min sec nsec : Z) : Time :=
  let y := year - 1 in
  let leap := (year mod 4 =? 0) && (negb (year mod 100 =? 0) || (year mod 400 =? 0)) in
  let days := 365 * y + y / 4 - y / 100 + y / 400 + daysBeforeMonth leap month + (day - 1) in
  (((days * 24 + hour) * 60 + min) * 60 + sec) * Second + nsec.
Definition FixedNow : Time := Date_UTC 2026 1 2 3 4 5 0.

(** [fmt.Sprintf("%06d", index)]: zeros after the sign up to six characters. *)
Definition fmt_06d (index : Z) : string :=
  let digits := fmt_d (Z.abs index) in
  let width := if index <? 0 then 5%nat else 6%nat in
  (if index <? 0 then "-" else "") +:+
    text (replicate (width - String.length digits)%nat 0) +:+ digits.

Definition Fixture_Name (prefix : string) (index : Z) : string := prefix +:+ "-" +:+ fmt_06d index.
Definition Fixture_UID (prefix : string) (index : Z) : UID := Fixture_Name prefix index.
Definition ResourceVersion (index : Z) : string := fmt_d (int64 (index + 1)).
Definition SortedStrings (values : list string) : list string := sort_strings values.

(** FNV-1a with 64 bits (hash/fnv). *)
Definition fnv_offset : Z := 14695981039346656037.
Definition fnv_prime : Z := 1099511628211.
Fixpoint fnv_Write (hash : Z) (s : string) : Z :=
  match s with
  | EmptyString => hash
  | String c s' => fnv_Write ((Z.lxor hash (byteZ c) * fnv_prime) mod 2 ^ 64) s'
  end.
Definition Checksum (parts : list string) : Z :=
  foldl (λ hash part, fnv_Write (fnv_Write hash part) (String (chr 0) "")) fnv_offset parts.

(** Values of the FNV-1a test suite and of the calendar. *)
Example fixture_examples :
  (fnv_Write fnv_offset <$> [""; "a"; "foobar"]) = [14695981039346656037; 12638187200555641996; 9625390261332436968] ∧
  Date_UTC 1970 1 1 0 0 0 0 = 62135596800 * Second ∧ FixedNow = (62135596800 + 1767323045) * Second ∧
  Fixture_Name "policy" 42 = "policy-000042" ∧ Fixture_Name "x" (-7) = "x--00007" ∧ Fixture_Name "x" 1234567 = "x-1234567".
Proof. split_and!; vm_compute; reflexivity. Qed.

(** ** Properties *)

Section properties.
Context `{UnicodeTables} {T : Type} (p : Pager T) (limit : Z).

Definition len : Z := Z.of_nat (length (pg_Items p)).
(** The page size that is used. *)
Definition size : Z := if (0 <? limit) && (limit <? pg_PageSize p) then limit else pg_PageSize p.
(** The token of an offset. *)
Definition tokenOf (start : Z) : string := if start =? 0 then "" else continuePrefix +:+ fmt_d start.

Hypothesis valid : Pager_Validate p = None.
Hypothesis fits : len + pg_PageSize p ≤ maxInt64.

Lemma PageSize_pos : 0 < pg_PageSize p.
Proof using valid. unfold Pager_Validate in valid. by destruct (Z.leb_spec (pg_PageSize p) 0). Qed.
Lemma size_pos : 0 < size ≤ pg_PageSize p.
Proof using valid.
  pose proof PageSize_pos. unfold size.
  destruct (Z.ltb_spec 0 limit), (Z.ltb_spec limit (pg_PageSize p)); simpl; lia.
Qed.

Lemma pageOffset_token start : 0 ≤ start → start = 0 ∨ start < len → pageOffset (tokenOf start) len = inr start.
Proof using valid fits.
  intros H0 Hs. pose proof PageSize_pos. unfold pageOffset, tokenOf. destruct (Z.eqb_spec start 0) as [->|Hne]; [done|].
  rewrite bool_decide_eq_false_2 by done. change (CutPrefix (continuePrefix +:+ fmt_d start) continuePrefix) with (Some (fmt_d start)).
  cbv match zeta. rewrite Atoi_fmt by (unfold minInt64; lia).
  rewrite (proj2 (Z.leb_gt _ _)), (proj2 (Z.leb_gt _ _)) by lia. done.
Qed.

(** One page from an offset. *)
Lemma Page_at c start : 0 ≤ start → start = 0 ∨ start < len →
  let next := Z.min (start + size) len in
  Page p c (tokenOf start) limit =
    (PageItems (take (Z.to_nat (next - start)) (drop (Z.to_nat start) (pg_Items p))) (if next =? len then "" else tokenOf next),
     Counters_Record (Counters_Record c (pg_ListOperation p)) MetadataPage).
Proof using valid fits.
  cbv zeta. intros H0 Hs. pose proof size_pos as Hsz. unfold Page. cbv zeta. rewrite valid. fold len. rewrite (pageOffset_token _ H0 Hs). 
  assert (0 ≤ len) by (unfold len; lia).
  change (if (0 <? limit) && (limit <? pg_PageSize p) then limit else pg_PageSize p) with size.
  rewrite int64_small by (unfold minInt64; lia). rewrite (proj2 (Z.ltb_ge (Z.min (start + size) len) start)) by lia. destruct (Z.eqb_spec (Z.min (start + size) len) len); [done|].
  unfold tokenOf. by rewrite (proj2 (Z.eqb_neq (Z.min (start + size) len) 0)) by lia.
Qed.

Definition recordPage (c : Counters) : Counters := Counters_Record (Counters_Record c (pg_ListOperation p)) MetadataPage.

Lemma walk_from n c start : 0 ≤ start → start = 0 ∨ start < len → Z.max 1 (len - start) ≤ Z.of_nat n * size →
  ∃ pages, walk n p c (tokenOf start) limit = (Some pages, Nat.iter (length pages) recordPage c) ∧
    concat pages = drop (Z.to_nat start) (pg_Items p) ∧ Forall (λ items, Z.of_nat (length items) ≤ size) pages ∧
    (Z.of_nat (length pages) - 1) * size < Z.max 1 (len - start) ≤ Z.of_nat (length pages) * size.
Proof using valid fits.
  pose proof size_pos as Hsz. revert c start. induction n as [|n IH]; intros c start H0 Hs Hn; [lia|].
  cbn [walk]. rewrite (Page_at c start H0 Hs). fold (recordPage c). set (next := Z.min (start + size) len).
  assert (Hlen : 0 ≤ len) by (unfold len; lia).
  assert (Hitems : Z.of_nat (length (take (Z.to_nat (next - start)) (drop (Z.to_nat start) (pg_Items p)))) ≤ size)
    by (rewrite length_take; unfold next; lia).
  destruct (Z.eqb_spec next len) as [E|Hne].
  - rewrite bool_decide_eq_true_2 by done. eexists [_]. split_and!; [done| |by constructor| |].
    + simpl. rewrite app_nil_r. apply take_ge. rewrite length_drop, E. unfold len. lia.
    + simpl. lia.
    + simpl. unfold next in E. lia.
  - assert (En : tokenOf next ≠ "") by (unfold tokenOf; rewrite (proj2 (Z.eqb_neq next 0)) by (unfold next in *; lia); done).
    rewrite bool_decide_eq_false_2 by done.
    destruct (IH (recordPage c) next) as (pages & -> & Hc & Hall & Hk1 & Hk2); [unfold next in *; lia..|].
    eexists (_ :: pages). split_and!.
    + simpl. f_equal. by rewrite <-Nat.iter_succ, Nat.iter_succ_r.
    + simpl. rewrite Hc. replace (Z.to_nat next) with (Z.to_nat start + Z.to_nat (next - start))%nat by (unfold next in *; lia).
      by rewrite <-drop_drop, take_drop.
    + by constructor.
    + simpl length. unfold next in *. lia.
    + simpl length. unfold next in *. lia.
Qed.

(** C40: paging is complete and ends: for a valid pager whose offsets fit in 64 bits,
    a client that follows the continue tokens with any page limit gets every item
    once and in order, in pages no longer than the limit, after exactly the number
    of pages that the page size requires (at least one), each of them counted once;
    one step more than there are items is always enough. *)
Theorem Pager_walk c n :
  (length (pg_Items p) < n)%nat →
  ∃ pages, walk n p c "" limit = (Some pages, Nat.iter (length pages) recordPage c) ∧
    concat pages = pg_Items p ∧ Forall (λ items, Z.of_nat (length items) ≤ size) pages ∧
    (Z.of_nat (length pages) - 1) * size < Z.max 1 len ≤ Z.of_nat (length pages) * size.
Proof using valid fits.
  intros Hn. pose proof size_pos. assert (0 ≤ len) by (unfold len; lia).
  destruct (walk_from n c 0) as (pages & Hw & Hc & Hall & Hk); [lia|by left| |].
  - rewrite Z.sub_0_r. unfold len. nia.
  - exists pages. rewrite Z.sub_0_r in Hk. rewrite drop_0 in Hc. done.
Qed.
End properties.

(** ** Tokens that are not the pager's own, and pages beyond 64 bits *)

Section errors.
Context `{UnicodeTables} {T : Type}.

(** The offset that a token stands for. *)
Definition TokenAt (p : Pager T) (token : string) (start : Z) : Prop :=
  start = 0 ∧ token = "" ∨ 0 < start < len p ∧ ∃ text, token = continuePrefix +:+ text ∧ Atoi text = Some start.

(** The answer to a page request. *)
Definition PageAnswer (p : Pager T) (token : string) (limit : Z) (invalid : option error) (r : page T) : Prop :=
  match r with
  | PageItems items next => invalid = None ∧
      ∃ start, TokenAt p token start ∧
        items = take (Z.to_nat (size p limit)) (drop (Z.to_nat start) (pg_Items p)) ∧
        (next = "" ↔ len p ≤ start + size p limit)
  | PageError err => invalid = Some err ∨
      invalid = None ∧ token ≠ "" ∧ err = ErrNew ("invalid continue token " +:+ fmt_q token)
  | PagePanic => False
  end.

Lemma slice_answer (p : Pager T) token limit start :
  Pager_Validate p = None → len p + pg_PageSize p ≤ maxInt64 → TokenAt p token start →
  let stop := Z.min (int64 (start + size p limit)) (len p) in
  PageAnswer p token limit None
    (if stop <? start then PagePanic
     else PageItems (take (Z.to_nat (stop - start)) (drop (Z.to_nat start) (pg_Items p)))
            (if stop =? len p then "" else continuePrefix +:+ fmt_d stop)).
Proof.
  intros Ev Hf Ht. cbv zeta. pose proof (size_pos p limit Ev) as Hsz. assert (Hl : 0 ≤ len p) by (unfold len; lia).
  assert (H0 : 0 ≤ start ∧ (start = 0 ∨ start < len p)) by (destruct Ht as [[-> _]|[? _]]; lia).
  rewrite int64_small by (unfold minInt64; lia). rewrite (proj2 (Z.ltb_ge _ start)) by lia.
  split; [done|]. exists start. split_and!; [done| |].
  - destruct (Z.le_gt_cases (start + size p limit) (len p)); [f_equal; lia|].
    rewrite !take_ge; [done|rewrite length_drop; unfold len in *; lia..].
  - destruct (Z.eqb_spec (Z.min (start + size p limit) (len p)) (len p)); [split; [lia|done]|split; [done|lia]].
Qed.

(** A page request is answered for every token and limit: an invalid pager or a
    token that is not an offset inside the items gives an error, an offset inside
    them gives the items from there on, and the slice never panics as long as the
    offsets fit in 64 bits; whatever the answer, the request was counted. *)
Theorem Page_total (p : Pager T) c token limit :
  len p + pg_PageSize p ≤ maxInt64 →
  snd (Page p c token limit) = recordPage p c ∧
  PageAnswer p token limit (Pager_Validate p) (fst (Page p c token limit)).
Proof.
  intros Hf. split; [done|]. unfold Page. cbv zeta. cbn [fst]. destruct (Pager_Validate p) as [err|] eqn:Ev; [by left|].
  fold (len p). change (if (0 <? limit) && (limit <? pg_PageSize p) then limit else pg_PageSize p) with (size p limit).
  unfold pageOffset. case_bool_decide as Et; [apply slice_answer; [done..|by left]|]. cbv zeta.
  destruct (CutPrefix token continuePrefix) as [value|] eqn:Ec; [|by right].
  destruct (Atoi value) as [offset|] eqn:Ea; [|by right].
  destruct (Z.leb_spec offset 0), (Z.leb_spec (len p) offset); simpl; try by right.
  apply slice_answer; [done..|]. right. split; [lia|]. exists value. split; [|done]. by apply CutPrefix_inv.
Qed.
End errors.

(** ** Examples *)

Section examples.
#[local] Instance noTables : UnicodeTables := {| table_IsPrint := λ _, false |}.
Definition fivePods : Pager string := mkPager ["a"; "b"; "c"; "d"; "e"] 2 MetadataList.

Lemma Pager_walk_witness : ∃ pages,
  walk 6 fivePods (Some noCells) "" 0 = (Some pages, Nat.iter (length pages) (recordPage fivePods) (Some noCells)) ∧
  concat pages = ["a"; "b"; "c"; "d"; "e"].
Proof.
  destruct (Pager_walk fivePods 0 eq_refl ltac:(vm_compute; discriminate) (Some noCells) 6) as (pages & Hw & Hc & _);
    [simpl; lia|]. by exists pages.
Defined.

Lemma Page_total_witness :
  PageAnswer fivePods "offset:x" 0 None (fst (Page fivePods None "offset:x" 0)) ∧
  fst (Page fivePods None "offset:4" 0) = PageItems ["e"] "".
Proof.
  split; [|vm_compute; reflexivity].
  exact (proj2 (Page_total fivePods None "offset:x" 0 ltac:(vm_compute; discriminate))).
Defined.

(** Beyond 64 bits the offset of the end wraps: a valid pager with the largest page
    size panics on its own kind of token. *)
Example Page_overflow_panics :
  let p := mkPager ["a"; "b"] maxInt64 MetadataList in
  Pager_Validate p = None ∧ fst (Page p None "offset:1" 0) = PagePanic.
Proof. split; vm_compute; reflexivity. Qed.
End examples.
