(* ===== verification/Options.v ===== *)
(** * Process options and the entry point (internal/options/options.go, cmd/main.go)

    The options with their defaults, their flags (with the parsing of the flag
    package) and their validation, and [run] as a program: it parses the arguments,
    validates, builds the clients and the manager, registers the selected component
    and starts.  What controller-runtime and client-go do is the environment. *)
From S2P Require Import Prelude GoText Durations DurationProps Numbers GoErrors Prog Discovery Executor Scanner Incidents.

Local Open Scope prog_scope.

Definition ComponentScanner : string := "scanner".
Definition ComponentExecutor : string := "executor".

(** [Options] *)
Record Options := mkOptions {
  o_Component : string;
  o_MetricsBindAddress : string;
  o_MetricsSecure : bool;
  o_HealthProbeBindAddress : string;
  o_LeaderElect : bool;
  o_ScanInterval : Duration;
  o_DiscoveryRefreshInterval : Duration;
  o_ScanTimeout : Duration;
  o_ResourceWorkers : Z;
  o_DiagnosisWorkers : Z;
  o_MetadataPageSize : Z;
  o_MaxQueuedTargets : Z;
  o_MaxRemediationAttempts : Z
}.

(** [New] *)
Definition Options_New : Options :=
  mkOptions ComponentScanner ":8443" true ":8081" true (30 * Second) (5 * Minute) (2 * Minute) 4 8 500 10000 5.

Definition LeaderElectionID (o : Options) : string := o_Component o +:+ ".safety.exitguard.io".

Section validate.
Context `{UnicodeTables}.

(** [Validate]: the accumulated errors, in the order of the checks. *)
Definition problems (o : Options) : list error :=
  let check (failed : bool) (err : error) : list error := if failed then [err] else [] in
  check (negb (bool_decide (o_Component o = ComponentScanner)) && negb (bool_decide (o_Component o = ComponentExecutor)))
    (ErrNew ("component must be " +:+ fmt_q ComponentScanner +:+ " or " +:+ fmt_q ComponentExecutor +:+ ", got " +:+
             fmt_q (o_Component o))) ++
  check (bool_decide (o_MetricsBindAddress o = "")) (ErrNew "metrics-bind-address must not be empty") ++
  check (bool_decide (o_HealthProbeBindAddress o = "")) (ErrNew "health-probe-bind-address must not be empty") ++
  check (bool_decide (o_ScanInterval o ≤ 0)%Z) (ErrNew "scan-interval must be positive") ++
  check (bool_decide (o_DiscoveryRefreshInterval o ≤ 0)%Z) (ErrNew "discovery-refresh-interval must be positive") ++
  check (bool_decide (o_ScanTimeout o ≤ 0)%Z) (ErrNew "scan-timeout must be positive") ++
  check (bool_decide (o_ResourceWorkers o ≤ 0)%Z) (ErrNew "resource-workers must be positive") ++
  check (bool_decide (o_DiagnosisWorkers o ≤ 0)%Z) (ErrNew "diagnosis-workers must be positive") ++
  check (bool_decide (o_MetadataPageSize o ≤ 0)%Z) (ErrNew "metadata-page-size must be positive") ++
  check (bool_decide (o_MaxQueuedTargets o ≤ 0)%Z) (ErrNew "max-queued-targets must be positive") ++
  check (bool_decide (o_MaxRemediationAttempts o ≤ 0)%Z || bool_decide (5 < o_MaxRemediationAttempts o)%Z)
    (ErrNew "max-remediation-attempts must be between 1 and 5").

Definition Validate (o : Options) : option error := errors_Join (Some <$> problems o).
End validate.

(** ** Command-line flags *)

(** A flag of the flag package: its name, whether it may stand without a value, and
    [Set], which fails on a value it cannot parse. *)
Record flagDef := mkFlag { fl_name : string; fl_isBool : bool; fl_Set : string → Options → option Options }.

Definition stringFlag (name : string) (set : string → Options → Options) : flagDef :=
  mkFlag name false (λ s o, Some (set s o)).
Definition boolFlag (name : string) (set : bool → Options → Options) : flagDef :=
  mkFlag name true (λ s o, (λ v, set v o) <$> ParseBool s).
Definition durationFlag (name : string) (set : Duration → Options → Options) : flagDef :=
  mkFlag name false (λ s o, (λ v, set v o) <$> ParseDuration s).
Definition intFlag (name : string) (set : Z → Options → Options) : flagDef :=
  mkFlag name false (λ s o, (λ v, set v o) <$> ParseInt0 s).

(** [Bind] *)
Definition Bind : list flagDef :=
  [stringFlag "component" (λ v o, mkOptions v (o_MetricsBindAddress o) (o_MetricsSecure o) (o_HealthProbeBindAddress o) (o_LeaderElect o) (o_ScanInterval o) (o_DiscoveryRefreshInterval o) (o_ScanTimeout o) (o_ResourceWorkers o) (o_DiagnosisWorkers o) (o_MetadataPageSize o) (o_MaxQueuedTargets o) (o_MaxRemediationAttempts o));
   stringFlag "metrics-bind-address" (λ v o, mkOptions (o_Component o) v (o_MetricsSecure o) (o_HealthProbeBindAddress o) (o_LeaderElect o) (o_ScanInterval o) (o_DiscoveryRefreshInterval o) (o_ScanTimeout o) (o_ResourceWorkers o) (o_DiagnosisWorkers o) (o_MetadataPageSize o) (o_MaxQueuedTargets o) (o_MaxRemediationAttempts o));
   boolFlag "metrics-secure" (λ v o, mkOptions (o_Component o) (o_MetricsBindAddress o) v (o_HealthProbeBindAddress o) (o_LeaderElect o) (o_ScanInterval o) (o_DiscoveryRefreshInterval o) (o_ScanTimeout o) (o_ResourceWorkers o) (o_DiagnosisWorkers o) (o_MetadataPageSize o) (o_MaxQueuedTargets o) (o_MaxRemediationAttempts o));
   stringFlag "health-probe-bind-address" (λ v o, mkOptions (o_Component o) (o_MetricsBindAddress o) (o_MetricsSecure o) v (o_LeaderElect o) (o_ScanInterval o) (o_DiscoveryRefreshInterval o) (o_ScanTimeout o) (o_ResourceWorkers o) (o_DiagnosisWorkers o) (o_MetadataPageSize o) (o_MaxQueuedTargets o) (o_MaxRemediationAttempts o));
   boolFlag "leader-elect" (λ v o, mkOptions (o_Component o) (o_MetricsBindAddress o) (o_MetricsSecure o) (o_HealthProbeBindAddress o) v (o_ScanInterval o) (o_DiscoveryRefreshInterval o) (o_ScanTimeout o) (o_ResourceWorkers o) (o_DiagnosisWorkers o) (o_MetadataPageSize o) (o_MaxQueuedTargets o) (o_MaxRemediationAttempts o));
   durationFlag "scan-interval" (λ v o, mkOptions (o_Component o) (o_MetricsBindAddress o) (o_MetricsSecure o) (o_HealthProbeBindAddress o) (o_LeaderElect o) v (o_DiscoveryRefreshInterval o) (o_ScanTimeout o) (o_ResourceWorkers o) (o_DiagnosisWorkers o) (o_MetadataPageSize o) (o_MaxQueuedTargets o) (o_MaxRemediationAttempts o));
   durationFlag "discovery-refresh-interval" (λ v o, mkOptions (o_Component o) (o_MetricsBindAddress o) (o_MetricsSecure o) (o_HealthProbeBindAddress o) (o_LeaderElect o) (o_ScanInterval o) v (o_ScanTimeout o) (o_ResourceWorkers o) (o_DiagnosisWorkers o) (o_MetadataPageSize o) (o_MaxQueuedTargets o) (o_MaxRemediationAttempts o));
   durationFlag "scan-timeout" (λ v o, mkOptions (o_Component o) (o_MetricsBindAddress o) (o_MetricsSecure o) (o_HealthProbeBindAddress o) (o_LeaderElect o) (o_ScanInterval o) (o_DiscoveryRefreshInterval o) v (o_ResourceWorkers o) (o_DiagnosisWorkers o) (o_MetadataPageSize o) (o_MaxQueuedTargets o) (o_MaxRemediationAttempts o));
   intFlag "resource-workers" (λ v o, mkOptions (o_Component o) (o_MetricsBindAddress o) (o_MetricsSecure o) (o_HealthProbeBindAddress o) (o_LeaderElect o) (o_ScanInterval o) (o_DiscoveryRefreshInterval o) (o_ScanTimeout o) v (o_DiagnosisWorkers o) (o_MetadataPageSize o) (o_MaxQueuedTargets o) (o_MaxRemediationAttempts o));
   intFlag "diagnosis-workers" (λ v o, mkOptions (o_Component o) (o_MetricsBindAddress o) (o_MetricsSecure o) (o_HealthProbeBindAddress o) (o_LeaderElect o) (o_ScanInterval o) (o_DiscoveryRefreshInterval o) (o_ScanTimeout o) (o_ResourceWorkers o) v (o_MetadataPageSize o) (o_MaxQueuedTargets o) (o_MaxRemediationAttempts o));
   intFlag "metadata-page-size" (λ v o, mkOptions (o_Component o) (o_MetricsBindAddress o) (o_MetricsSecure o) (o_HealthProbeBindAddress o) (o_LeaderElect o) (o_ScanInterval o) (o_DiscoveryRefreshInterval o) (o_ScanTimeout o) (o_ResourceWorkers o) (o_DiagnosisWorkers o) v (o_MaxQueuedTargets o) (o_MaxRemediationAttempts o));
   intFlag "max-queued-targets" (λ v o, mkOptions (o_Component o) (o_MetricsBindAddress o) (o_MetricsSecure o) (o_HealthProbeBindAddress o) (o_LeaderElect o) (o_ScanInterval o) (o_DiscoveryRefreshInterval o) (o_ScanTimeout o) (o_ResourceWorkers o) (o_DiagnosisWorkers o) (o_MetadataPageSize o) v (o_MaxRemediationAttempts o));
   intFlag "max-remediation-attempts" (λ v o, mkOptions (o_Component o) (o_MetricsBindAddress o) (o_MetricsSecure o) (o_HealthProbeBindAddress o) (o_LeaderElect o) (o_ScanInterval o) (o_DiscoveryRefreshInterval o) (o_ScanTimeout o) (o_ResourceWorkers o) (o_DiagnosisWorkers o) (o_MetadataPageSize o) (o_MaxQueuedTargets o) v)].

(** The flags that the logging and configuration packages add to the command line:
    whether a name is known, may stand without a value, and accepts a value. *)
Class ForeignFlags := { foreignFlag : string → option (bool * (string → bool)) }.

(** [FlagSet.Parse] *)
Inductive parsed :=
  | Parsed (o : Options) (rest : list string)
  | ParseFailed
  | ParseHelp.

(** The name and the value of an argument, split at the first [=] after the first
    character. *)
Fixpoint cutValue (s : string) : string * option string :=
  match s with
  | EmptyString => ("", None)
  | String c s' => if byteZ c =? 61 then ("", Some s') else let '(n, v) := cutValue s' in (String c n, v)
  end%Z.
Definition cutName (name : string) : string * option string :=
  match name with
  | EmptyString => ("", None)
  | String c s' => let '(n, v) := cutValue s' in (String c n, v)
  end.

(** What an argument is: the end of the flags, their terminator, a malformed flag, or
    a flag. *)
Inductive argument := NotFlag | Terminator | BadSyntax | FlagArg (name : string) (value : option string).
Definition classify (s : string) : argument :=
  let flag (name : string) : argument :=
    match name with
    | EmptyString => BadSyntax
    | String c _ => if (byteZ c =? 45) || (byteZ c =? 61) then BadSyntax else let '(n, v) := cutName name in FlagArg n v
    end%Z in
  match s with
  | String c0 (String c1 s2 as s1) =>
      if negb (byteZ c0 =? 45)%Z then NotFlag
      else if (byteZ c1 =? 45)%Z then (if decide (s2 = "") then Terminator else flag s2)
      else flag s1
  | _ => NotFlag
  end.

Section flags.
Context `{ForeignFlags}.

(** A flag by its name: whether it may stand without a value, and its effect. *)
Definition formal (name : string) : option (bool * (string → Options → option Options)) :=
  match list_find (λ f, fl_name f = name) Bind with
  | Some (_, f) => Some (fl_isBool f, fl_Set f)
  | None =>
      match foreignFlag name with
      | Some (isBool, accepts) => Some (isBool, λ s o, if accepts s : bool then Some o else None)
      | None => None
      end
  end.

Fixpoint parseFlags (args : list string) (o : Options) : parsed :=
  match args with
  | [] => Parsed o []
  | s :: args' =>
      match classify s with
      | NotFlag => Parsed o args
      | Terminator => Parsed o args'
      | BadSyntax => ParseFailed
      | FlagArg name value =>
          match formal name with
          | None => if bool_decide (name = "help") || bool_decide (name = "h") then ParseHelp else ParseFailed
          | Some (isBool, set) =>
              match value, args' with
              | Some v, _ => match set v o with Some o => parseFlags args' o | None => ParseFailed end
              | None, [] =>
                  if isBool : bool then match set "true" o with Some o => Parsed o [] | None => ParseFailed end
                  else ParseFailed
              | None, v :: args'' =>
                  if isBool : bool then match set "true" o with Some o => parseFlags args' o | None => ParseFailed end
                  else match set v o with Some o => parseFlags args'' o | None => ParseFailed end
              end
          end
      end
  end.
End flags.

(** ** The entry point *)

(** What the process does outside the repository's own code.  [MArgs] reads the
    arguments of the process; a manager gets the options it is built with. *)
Inductive mev :=
  | MArgs
  | MLog (failure : option error) (message : string)
  | MAddToScheme (group : string)
  | MGetConfig
  | MNewManager (metricsAddress : string) (secure filtered : bool) (healthAddress : string) (leaderElection : bool)
      (leaderElectionID : string)
  | MAddHealthz
  | MAddReadyz
  | MDiscoveryClient
  | MAddCatalog (catalog : Catalog)
  | MDynamicClient
  | MMetadataClient
  | MAddCoordinator (config : Config)
  | MKubeClient
  | MSetupReconciler (maxAttempts : Z)
  | MStart.

Definition mresp (e : mev) : Type :=
  match e with
  | MArgs => list string
  | MLog _ _ => unit
  | _ => option ExternalError
  end.

Abbreviation MP := (prog mresp).

(** A fallible step of the setup: on failure the error is logged and the process
    exits with 1. *)
Definition setup (e : MP (option ExternalError)) (prefix message : string) (k : MP Z) : MP Z :=
  r ← e;
  match r with
  | Some x => call (MLog (Some (if decide (prefix = "") then ErrExternal x else ErrWrap prefix (ErrExternal x))) message) ;; mret 1%Z
  | None => k
  end.

Definition scannerConfig (o : Options) : Config :=
  mkConfig (o_ScanInterval o) (o_ScanTimeout o) (o_ResourceWorkers o) (o_DiagnosisWorkers o)
    (o_MetadataPageSize o) (o_MaxQueuedTargets o).

(** [newScheme], with the logging of [run] on failure. *)
Definition newScheme (k : MP Z) : MP Z :=
  setup (call (MAddToScheme "clientgo")) "register Kubernetes scheme: " "register API schemes"
  (setup (call (MAddToScheme "apiextensions")) "register apiextensions scheme: " "register API schemes"
  (setup (call (MAddToScheme "apiregistration")) "register apiregistration scheme: " "register API schemes"
  (setup (call (MAddToScheme "safety")) "register safety API scheme: " "register API schemes" k))).

Section run.
Context `{UnicodeTables, ForeignFlags}.

(** The [switch] over the component. *)
Definition registerComponent (o : Options) (k : MP Z) : MP Z :=
  if decide (o_Component o = ComponentScanner) then
    setup (call MMetadataClient) "" "create metadata client"
    (match NewCoordinator (scannerConfig o) true true true true true with
     | inl err => call (MLog (Some err) "create scanner") ;; mret 1%Z
     | inr config => setup (call (MAddCoordinator config)) "" "register scanner" k
     end)
  else if decide (o_Component o = ComponentExecutor) then
    setup (call MKubeClient) "" "create Kubernetes client"
    (match NewReconciler true true true true true true (o_MaxRemediationAttempts o) with
     | inl err => call (MLog (Some err) "create executor") ;; mret 1%Z
     | inr maxAttempts => setup (call (MSetupReconciler maxAttempts)) "" "register executor" k
     end)
  else k.

(** [run]: the exit code.  The command line's flag set exits the process on an error
    (2) or a request for help (0). *)
Definition run : MP Z :=
  args ← call MArgs;
  match parseFlags args Options_New with
  | ParseFailed => mret 2%Z
  | ParseHelp => mret 0%Z
  | Parsed o _ =>
  match Validate o with
  | Some err => call (MLog (Some err) "invalid options") ;; mret 2%Z
  | None =>
      newScheme (
      setup (call MGetConfig) "" "load Kubernetes REST config" (
      setup (call (MNewManager (o_MetricsBindAddress o) (o_MetricsSecure o) (o_MetricsSecure o)
        (o_HealthProbeBindAddress o) (o_LeaderElect o) (LeaderElectionID o))) "" "create manager" (
      setup (call MAddHealthz) "" "register health check" (
      setup (call MAddReadyz) "" "register readiness check" (
      setup (call MDiscoveryClient) "" "create discovery client" (
      setup (call (MAddCatalog (NewCatalog (o_DiscoveryRefreshInterval o)))) "" "register discovery catalog" (
      setup (call MDynamicClient) "" "create dynamic client" (
      registerComponent o (
      call (MLog None "starting component") ;;
      setup (call MStart) "" ("run " +:+ o_Component o +:+ " component") (mret 0%Z))))))))))
  end end.
End run.

(** ** Properties *)

Section properties.
Context `{UnicodeTables, ForeignFlags}.

(** The options that are accepted. *)
Record OptionsOk (o : Options) : Prop := {
  ok_component : o_Component o = ComponentScanner ∨ o_Component o = ComponentExecutor;
  ok_addresses : o_MetricsBindAddress o ≠ "" ∧ o_HealthProbeBindAddress o ≠ "";
  ok_intervals : (0 < o_ScanInterval o ∧ 0 < o_DiscoveryRefreshInterval o ∧ 0 < o_ScanTimeout o)%Z;
  ok_workers : (0 < o_ResourceWorkers o ∧ 0 < o_DiagnosisWorkers o)%Z;
  ok_bounds : (0 < o_MetadataPageSize o ∧ 0 < o_MaxQueuedTargets o)%Z;
  ok_attempts : (1 ≤ o_MaxRemediationAttempts o ≤ 5)%Z
}.

(** The integers are those of the machine. *)
Definition fits (z : Z) : Prop := (minInt64 ≤ z ≤ maxInt64)%Z.
Definition OptionsFit (o : Options) : Prop :=
  (fits (o_ScanInterval o) ∧ fits (o_DiscoveryRefreshInterval o) ∧ fits (o_ScanTimeout o)) ∧
  fits (o_ResourceWorkers o) ∧ fits (o_DiagnosisWorkers o) ∧ fits (o_MetadataPageSize o) ∧
  fits (o_MaxQueuedTargets o) ∧ fits (o_MaxRemediationAttempts o).

(** The arguments that ask for given options. *)
Definition argsFor (o : Options) : list string :=
  ["--component=" +:+ o_Component o;
   "--metrics-bind-address=" +:+ o_MetricsBindAddress o;
   "--metrics-secure=" +:+ fmt_t (o_MetricsSecure o);
   "--health-probe-bind-address=" +:+ o_HealthProbeBindAddress o;
   "--leader-elect=" +:+ fmt_t (o_LeaderElect o);
   "--scan-interval=" +:+ Duration_String (o_ScanInterval o);
   "--discovery-refresh-interval=" +:+ Duration_String (o_DiscoveryRefreshInterval o);
   "--scan-timeout=" +:+ Duration_String (o_ScanTimeout o);
   "--resource-workers=" +:+ fmt_d (o_ResourceWorkers o);
   "--diagnosis-workers=" +:+ fmt_d (o_DiagnosisWorkers o);
   "--metadata-page-size=" +:+ fmt_d (o_MetadataPageSize o);
   "--max-queued-targets=" +:+ fmt_d (o_MaxQueuedTargets o);
   "--max-remediation-attempts=" +:+ fmt_d (o_MaxRemediationAttempts o)].

Lemma cutValue_app n v : Forall (λ c, byteZ c ≠ 61%Z) (String.list_ascii_of_string n) → cutValue (n +:+ String (chr 61) v) = (n, Some v).
Proof.
  induction n as [|c n IH]; simpl; [done|]. intros (Hc & Hn)%Forall_cons. rewrite (proj2 (Z.eqb_neq _ _) Hc).
  change (String.append n (String (chr 61) v)) with (n +:+ String (chr 61) v). by rewrite IH.
Qed.

(** One argument of the form [--name=value]. *)
Lemma parseFlags_arg c name v set o args :
  (byteZ c ≠ 45 ∧ byteZ c ≠ 61)%Z → Forall (λ c, byteZ c ≠ 61%Z) (String.list_ascii_of_string name) →
  formal (String c name) = Some set →
  parseFlags (("--" +:+ String c name +:+ "=" +:+ v) :: args) o =
    match set.2 v o with Some o => parseFlags args o | None => ParseFailed end.
Proof.
  intros [Hc1 Hc2] Hn Hf. destruct set as [isBool set]. cbn [parseFlags].
  assert (E : classify ("--" +:+ String c name +:+ "=" +:+ v) = FlagArg (String c name) (Some v)).
  { change ("--" +:+ String c name +:+ "=" +:+ v) with (String (chr 45) (String (chr 45) (String c (name +:+ String (chr 61) v)))).
    unfold classify. change (byteZ (chr 45) =? 45)%Z with true. cbn [negb]. cbv match. rewrite decide_False by done.
    rewrite (proj2 (Z.eqb_neq _ _) Hc1), (proj2 (Z.eqb_neq _ _) Hc2). cbn [orb cutName]. by rewrite cutValue_app. }
  rewrite E, Hf. by destruct args.
Qed.

(** The first argument is consumed by its flag. *)
Ltac flag_step :=
  match goal with
  | |- parseFlags ((?lit +:+ ?v) :: ?args) ?o = _ =>
      let n := eval vm_compute in (String.substring 2 (String.length lit - 3) lit) in
      match n with
      | String ?c ?name =>
          let E := fresh in
          pose proof (parseFlags_arg c name v _ o args ltac:(vm_compute; split; discriminate)
            ltac:(apply (bool_decide_unpack _); vm_compute; exact I) eq_refl) as E;
          change (String.append "--" (String.append (String c name) (String.append "=" v))) with (lit +:+ v) in E;
          rewrite E; clear E; cbn [id compose prod_map fst snd fl_Set stringFlag boolFlag durationFlag intFlag
            o_Component o_MetricsBindAddress o_MetricsSecure o_HealthProbeBindAddress o_LeaderElect o_ScanInterval
            o_DiscoveryRefreshInterval o_ScanTimeout o_ResourceWorkers o_DiagnosisWorkers o_MetadataPageSize o_MaxQueuedTargets
            o_MaxRemediationAttempts]
      end
  end.

Ltac flag_read :=
  cbn [fmap option_fmap option_map o_Component o_MetricsBindAddress o_MetricsSecure o_HealthProbeBindAddress o_LeaderElect o_ScanInterval
    o_DiscoveryRefreshInterval o_ScanTimeout o_ResourceWorkers o_DiagnosisWorkers o_MetadataPageSize o_MaxQueuedTargets
    o_MaxRemediationAttempts].

(** C39: every option can be set from the command line: for options whose numbers fit
    the machine, one argument for each of them, with its value printed as Go prints
    durations, integers and booleans, is parsed back to exactly those options,
    whatever the values before. *)
Theorem flags_roundtrip o o0 : OptionsFit o → parseFlags (argsFor o) o0 = Parsed o [].
Proof.
  intros ((Hd1 & Hd2 & Hd3) & Hn1 & Hn2 & Hn3 & Hn4 & Hn5). unfold argsFor.
  do 3 flag_step. rewrite ParseBool_fmt. flag_read. do 2 flag_step. rewrite ParseBool_fmt. flag_read.
  flag_step. rewrite (ParseDuration_String _ Hd1). flag_read. flag_step. rewrite (ParseDuration_String _ Hd2). flag_read.
  flag_step. rewrite (ParseDuration_String _ Hd3). flag_read. flag_step. rewrite (ParseInt0_fmt _ Hn1). flag_read.
  flag_step. rewrite (ParseInt0_fmt _ Hn2). flag_read. flag_step. rewrite (ParseInt0_fmt _ Hn3). flag_read.
  flag_step. rewrite (ParseInt0_fmt _ Hn4). flag_read. flag_step. rewrite (ParseInt0_fmt _ Hn5). flag_read.
  by destruct o.
Qed.

Lemma check_nil (b : bool) (err : error) : (if b then [err] else []) = [] ↔ b = false.
Proof. by destruct b. Qed.

(** The requirements that options may violate, each with its report. *)
Inductive Violation (o : Options) : error → Prop :=
  | bad_component :
      o_Component o ≠ ComponentScanner → o_Component o ≠ ComponentExecutor →
      Violation o (ErrNew ("component must be " +:+ fmt_q ComponentScanner +:+ " or " +:+ fmt_q ComponentExecutor +:+
                           ", got " +:+ fmt_q (o_Component o)))
  | bad_metrics : o_MetricsBindAddress o = "" → Violation o (ErrNew "metrics-bind-address must not be empty")
  | bad_probe : o_HealthProbeBindAddress o = "" → Violation o (ErrNew "health-probe-bind-address must not be empty")
  | bad_interval : (o_ScanInterval o ≤ 0)%Z → Violation o (ErrNew "scan-interval must be positive")
  | bad_refresh : (o_DiscoveryRefreshInterval o ≤ 0)%Z →
      Violation o (ErrNew "discovery-refresh-interval must be positive")
  | bad_timeout : (o_ScanTimeout o ≤ 0)%Z → Violation o (ErrNew "scan-timeout must be positive")
  | bad_resource_workers : (o_ResourceWorkers o ≤ 0)%Z → Violation o (ErrNew "resource-workers must be positive")
  | bad_diagnosis_workers : (o_DiagnosisWorkers o ≤ 0)%Z → Violation o (ErrNew "diagnosis-workers must be positive")
  | bad_page_size : (o_MetadataPageSize o ≤ 0)%Z → Violation o (ErrNew "metadata-page-size must be positive")
  | bad_targets : (o_MaxQueuedTargets o ≤ 0)%Z → Violation o (ErrNew "max-queued-targets must be positive")
  | bad_attempts : ¬ (1 ≤ o_MaxRemediationAttempts o ≤ 5)%Z →
      Violation o (ErrNew "max-remediation-attempts must be between 1 and 5").

Lemma elem_of_check (b : bool) (x e : error) : e ∈ (if b then [x] else []) ↔ b = true ∧ e = x.
Proof. destruct b; set_solver. Qed.

Lemma problems_violations o e : e ∈ problems o ↔ Violation o e.
Proof.
  unfold problems. cbv zeta. rewrite !elem_of_app, !elem_of_check.
  rewrite !andb_true_iff, !orb_true_iff, !negb_true_iff, !bool_decide_eq_true, !bool_decide_eq_false. split.
  - intros Hc. repeat destruct Hc as [Hc|Hc]; destruct Hc as [Hc ->]; try (by constructor); [|].
    + by apply bad_component; destruct Hc.
    + apply bad_attempts. lia.
  - intros [Hs He| | | | | | | | | |Ha]; [by left|..].
    all: try (by repeat (first [left; split; done | right]; try done)).
    do 10 right. split; [lia|done].
Qed.

(** The reports are different texts, whatever the component is called. *)
Lemma check_sublist (b : bool) (x : error) l k : sublist l k → sublist ((if b then [x] else []) ++ l) (x :: k).
Proof. destruct b; simpl; by constructor. Qed.

Lemma check_last (b : bool) (x : error) : sublist (if b then [x] else []) [x].
Proof. destruct b; [done|apply sublist_nil_l]. Qed.

Lemma problems_nodup o : NoDup (problems o).
Proof.
  eapply sublist_NoDup; [|unfold problems; cbv zeta; do 10 (apply check_sublist); apply check_last].
  apply NoDup_cons. split; [rewrite !not_elem_of_cons; split_and!; try discriminate; apply not_elem_of_nil|].
  apply (NoDup_fmap_1 Error_text). decide_now.
Qed.

Lemma Validate_ok o : Validate o = None ↔ OptionsOk o.
Proof.
  unfold Validate. rewrite errors_Join_none. unfold problems. cbv zeta. rewrite !app_nil, !check_nil.
  rewrite !andb_false_iff, !orb_false_iff, !negb_false_iff, !bool_decide_eq_true, !bool_decide_eq_false, !Z.nle_gt, !Z.nlt_ge.
  split; [intros (?&?&?&?&?&?&?&?&?&?&?&?); split; naive_solver lia|intros [? [] (?&?&?) [] [] ?]; split_and!; try done; lia].
Qed.

(** C36: [Validate] accepts exactly the options whose component is known, whose
    addresses are given and whose intervals, workers, page size, target bound and
    attempt bound are in range; otherwise the error it returns joins exactly the
    reports of the violated requirements: all of them, and each once. *)
Theorem Validate_iff o :
  (Validate o = None ↔ OptionsOk o) ∧
  (∀ err, Validate o = Some err → ∃ errs, err = ErrJoin errs ∧ NoDup errs ∧ ∀ e, e ∈ errs ↔ Violation o e).
Proof.
  split; [apply Validate_ok|]. intros err. unfold Validate, errors_Join. rewrite omap_id_Some.
  destruct (problems o) as [|e l] eqn:E; [done|]. intros [= <-]. exists (e :: l). rewrite <-E.
  split_and!; [done|apply problems_nodup|apply problems_violations].
Qed.

Lemma NewCoordinator_ok o :
  OptionsOk o → NewCoordinator (scannerConfig o) true true true true true = inr (scannerConfig o).
Proof. intros [_ _ (? & ? & ?) [] [] ?]. unfold NewCoordinator, scannerConfig. simpl. by rewrite !bool_decide_eq_false_2 by lia. Qed.
Lemma NewReconciler_ok o :
  OptionsOk o → NewReconciler true true true true true true (o_MaxRemediationAttempts o) = inr (o_MaxRemediationAttempts o).
Proof. intros [_ _ _ _ _ ?]. unfold NewReconciler. simpl. by rewrite !bool_decide_eq_false_2 by lia. Qed.

(** Valid options are enough for every component: the scanner coordinator and the
    executor are constructed without an error from them, the catalog's loop does not
    refuse its interval, and the two components never share a leader lease. *)
Theorem valid_options_construct o (hs : SchemaOps) :
  Validate o = None →
  NewCoordinator (scannerConfig o) true true true true true = inr (scannerConfig o) ∧
  NewReconciler true true true true true true (o_MaxRemediationAttempts o) = inr (o_MaxRemediationAttempts o) ∧
  (∀ ticks, snd (Start (NewCatalog (o_DiscoveryRefreshInterval o)) true ticks) = None) ∧
  (∀ o', Validate o' = None → LeaderElectionID o = LeaderElectionID o' → o_Component o = o_Component o').
Proof.
  intros Hv. apply Validate_ok in Hv. pose proof Hv as [Hc _ (? & ? & ?) _ _ _]. split_and!.
  - by apply NewCoordinator_ok.
  - by apply NewReconciler_ok.
  - intros ticks. unfold Start, NewCatalog. simpl. rewrite decide_False by lia. by rewrite bool_decide_eq_false_2 by lia.
  - intros o' Ho'. apply Validate_ok in Ho' as [Hc' _ _ _ _ _]. unfold LeaderElectionID.
    by destruct Hc as [-> | ->], Hc' as [-> | ->].
Qed.

(** What the process may do after a history: it touches nothing before the options
    are valid, it registers only the component they select, configured by them, and
    it starts only with that component registered. *)
Abbreviation mhist := (list (event mresp)).
Definition Accepted (h : mhist) (o : Options) : Prop :=
  (∃ args rest, evt MArgs (args : mresp MArgs) ∈ h ∧ parseFlags args Options_New = Parsed o rest) ∧ OptionsOk o.
Definition Registered (h : mhist) (o : Options) : Prop :=
  (o_Component o = ComponentScanner ∧ evt (MAddCoordinator (scannerConfig o)) None ∈ h) ∨
  (o_Component o = ComponentExecutor ∧ evt (MSetupReconciler (o_MaxRemediationAttempts o)) None ∈ h).

Definition mpermitted (h : mhist) (e : mev) : Prop :=
  match e with
  | MArgs | MLog _ _ => True
  | MAddCoordinator config => ∃ o, Accepted h o ∧ o_Component o = ComponentScanner ∧ config = scannerConfig o
  | MSetupReconciler n => ∃ o, Accepted h o ∧ o_Component o = ComponentExecutor ∧ n = o_MaxRemediationAttempts o
  | MStart => ∃ o, Accepted h o ∧ Registered h o
  | _ => ∃ o, Accepted h o
  end.

(** The outcome: 2 only for a command line that cannot be parsed or invalid options,
    0 only on a request for help or after the manager ran. *)
Definition Outcome (h : mhist) (code : Z) : Prop :=
  (∃ args, h = [evt MArgs (args : mresp MArgs)] ∧
     (code = 2%Z ∧ parseFlags args Options_New = ParseFailed ∨ code = 0%Z ∧ parseFlags args Options_New = ParseHelp)) ∨
  (code = 2%Z ∧ ∃ args o rest err, h = [evt (MLog (Some err) "invalid options") tt; evt MArgs (args : mresp MArgs)] ∧
     parseFlags args Options_New = Parsed o rest ∧ Validate o = Some err) ∨
  (code = 1%Z ∧ ∃ o err message h', h = evt (MLog (Some err) message) tt :: h' ∧ Accepted h o) ∨
  (code = 0%Z ∧ evt MStart None ∈ h ∧ ∃ o, Accepted h o ∧ Registered h o).

Lemma Accepted_cons h x o : Accepted h o → Accepted (x :: h) o.
Proof. intros [(args & rest & ? & ?) ?]. split; [|done]. exists args, rest. split; [by right|done]. Qed.
Lemma Registered_cons h x o : Registered h o → Registered (x :: h) o.
Proof. intros [[? ?]|[? ?]]; [left|right]; (split; [done|by right]). Qed.

(** The rule for one step of the setup. *)
Lemma spec_setup o (p : MP (option ExternalError)) prefix message k h :
  spec mpermitted p h (λ h' r, Accepted h' o ∧ (r = None → spec mpermitted k h' Outcome)) →
  spec mpermitted (setup p prefix message k) h Outcome.
Proof.
  intros Hp. eapply spec_call; [exact Hp|]. intros h' [x|] [Ha Hk]; [|by apply Hk].
  split; [done|]. intros []. right; right; left. split; [done|]. eexists o, _, _, _. split; [done|by apply Accepted_cons].
Qed.

Lemma registerComponent_spec o k h :
  Accepted h o → (∀ h', Accepted h' o → Registered h' o → spec mpermitted k h' Outcome) →
  spec mpermitted (registerComponent o k) h Outcome.
Proof.
  intros Ha Hk. pose proof Ha as [_ Hok]. pose proof (ok_component o Hok) as Hc. unfold registerComponent.
  destruct (decide _) as [Es|Es]; [|rewrite decide_True by naive_solver].
  - apply (spec_setup o). split; [by exists o|]. intros r. split; [by apply Accepted_cons|]. intros ->.
    rewrite (NewCoordinator_ok o Hok). apply (spec_setup o).
    split; [exists o; split_and!; [by apply Accepted_cons|done|done]|].
    intros r. split; [by do 2 apply Accepted_cons|]. intros ->.
    apply Hk; [by do 2 apply Accepted_cons|]. left. split; [done|by left].
  - apply (spec_setup o). split; [by exists o|]. intros r. split; [by apply Accepted_cons|]. intros ->.
    rewrite (NewReconciler_ok o Hok). apply (spec_setup o).
    split; [exists o; split_and!; [by apply Accepted_cons|naive_solver|done]|].
    intros r. split; [by do 2 apply Accepted_cons|]. intros ->.
    apply Hk; [by do 2 apply Accepted_cons|]. right. split; [naive_solver|by left].
Qed.

Lemma run_spec : spec mpermitted run [] Outcome.
Proof.
  apply spec_event; [done|]. intros args. destruct (parseFlags args Options_New) as [o rest| |] eqn:Ep.
  2: { left. exists args. split; [done|by left]. }
  2: { left. exists args. split; [done|by right]. }
  destruct (Validate o) as [err|] eqn:Ev.
  { split; [done|]. intros []. right; left. split; [done|]. by exists args, o, rest, err. }
  apply Validate_ok in Ev. set (h0 := [evt _ _]). assert (Ha : Accepted h0 o) by (split; [exists args, rest; split; [by left|done]|done]). clearbody h0.
  unfold newScheme.
  assert (Hstep : ∀ (e : mev) (Q : list (event mresp) → mresp e → Prop) h, Accepted h o → (Accepted h o → mpermitted h e) →
    (∀ h' r, Accepted h' o → Accepted h' o ∧ Q h' r) → spec mpermitted (call e) h (λ h' r, Accepted h' o ∧ Q h' r)).
  { intros e Q h Hh Hp Hq. split; [by apply Hp|]. intros r. apply Hq. by apply Accepted_cons. }
  do 11 (apply (spec_setup o), Hstep; [done|by exists o|]; clear h0 Ha; intros h0 ? Ha; split; [done|intros _]).
  apply registerComponent_spec; [done|]. intros h1 Ha1 Hr1. split; [done|]. intros []. apply (spec_setup o).
  split; [exists o; split; [by apply Accepted_cons|by apply Registered_cons]|]. intros ?. split; [by do 2 apply Accepted_cons|]. intros ->.
  do 3 right. split_and!; [done|by left|]. exists o. split; [by do 2 apply Accepted_cons|by do 2 apply Registered_cons].
Qed.

(** C37: the entry point acts only on valid options: no client, manager or component
    is created before the options are accepted, only the selected component is
    registered and with the bounds the options give, the manager starts only after
    that registration succeeded; and the exit code is 2 exactly for arguments that
    cannot be parsed or invalid options (nothing else done), 1 for a reported failure
    with valid options, and 0 on a request for help or after the manager ran. *)
Theorem run_registers_selected tr code :
  runs run tr code →
  Outcome (reverse tr) code ∧
  (∀ pre e r post, tr = pre ++ evt e r :: post → mpermitted (reverse pre) e).
Proof.
  intros Hr. destruct (spec_sound _ _ _ _ _ _ run_spec Hr) as [Hq Hj]. rewrite app_nil_r in Hq. split; [done|].
  intros pre e r post E. specialize (Hj pre e r post E). by rewrite app_nil_r in Hj.
Qed.
End properties.

(** ** Examples *)

Module ExampleProcess.
Export ExampleSchema.
#[export] Instance noForeignFlags : ForeignFlags := {| foreignFlag := λ _, None |}.
(** An environment in which every step succeeds with the given arguments. *)
Definition handle (args : list string) (s : unit) (e : mev) : option (mresp e * unit) :=
  match e return option (mresp e * unit) with
  | MArgs => Some (args, tt)
  | MLog _ _ => Some (tt, tt)
  | _ => Some (None, tt)
  end.
Definition executorArgs : list string := ["--component=executor"; "-metrics-secure"; "--max-remediation-attempts"; "3"].
Definition starts (tr : list (event mresp)) (code : Z) : bool := bool_decide (code = 0%Z) && bool_decide (length tr = 16).
Example example_defaults : Validate Options_New = None.
Proof. vm_compute. reflexivity. Qed.
Lemma example_starts : ∃ tr code, runs run tr code ∧ starts tr code = true.
Proof. apply (completes_runs (handle executorArgs) _ _ tt). vm_compute. reflexivity. Qed.
End ExampleProcess.

Section witnesses.
Import ExampleProcess.

Lemma valid_options_construct_witness :
  Validate Options_New = None ∧
  NewCoordinator (scannerConfig Options_New) true true true true true = inr (scannerConfig Options_New).
Proof.
  split; [exact example_defaults|]. exact (proj1 (valid_options_construct Options_New _ example_defaults)).
Defined.

Lemma run_registers_selected_witness : ∃ tr, runs run tr 0%Z ∧ Outcome (reverse tr) 0%Z.
Proof.
  destruct example_starts as (tr & code & Hr & Hc). unfold starts in Hc. bool_prop. subst code. exists tr.
  split; [exact Hr|]. exact (proj1 (run_registers_selected tr _ Hr)).
Defined.

Lemma flags_roundtrip_witness : parseFlags (argsFor Options_New) Options_New = Parsed Options_New [].
Proof.
  apply (flags_roundtrip Options_New Options_New). repeat split; vm_compute; discriminate.
Defined.
End witnesses.

(** Arguments as the flag package reads them: a value may follow its flag, a boolean
    flag stands alone, flags end at the first other argument or at [--], and a bad
    value or an unknown flag fails. *)
Section flag_examples.
Import ExampleProcess.
Definition readArgs (args : list string) : option (string * Z * Duration * list string) :=
  match parseFlags args Options_New with
  | Parsed o rest => Some (o_Component o, o_ResourceWorkers o, o_ScanInterval o, rest)
  | _ => None
  end.
Example parse_arguments :
  (readArgs <$> [["-component"; "executor"; "-leader-elect"; "x"; "-scan-interval=1s"]; ["--resource-workers=0x10"; "--"; "-h"];
                 ["--scan-interval"; "1.5m"]; ["--resource-workers=ten"]; ["--unknown"]; ["---"]; ["--resource-workers"]]) =
  [Some ("executor", 4%Z, (30 * Second)%Z, ["x"; "-scan-interval=1s"]); Some ("scanner", 16%Z, (30 * Second)%Z, ["-h"]);
   Some ("scanner", 4%Z, (90 * Second)%Z, []); None; None; None; None].
Proof. vm_compute. reflexivity. Qed.
End flag_examples.
