(* ===== verification/GoHeap.v ===== *)
(** * Go values in memory

    The other files read a Go record as a value, with a pointer as an [option]
    and a slice as a list.  That hides sharing, which is what a deep copy is
    about, so this file gives the memory its own model: a heap of blocks,
    pointers into the interior of a block (a field of a struct, an element of an
    array), slices as headers over a backing array, maps as blocks of their own.
    A Go type is a [ty]; [view] follows every pointer of a value of that type and
    gives the tree the program sees, nil told apart from empty.

    The last sections are the logic of copying routines: what it means for a
    routine to copy a value of some type from one address to another, and one
    rule per idiom of the generated code. *)
From S2P Require Import Prelude.

(** Notations for heap programs, in a scope of their own. *)
Declare Scope heap_scope.
Delimit Scope heap_scope with heap.

(** ** Memory *)

Abbreviation loc := positive (only parsing).

(** Strings, integers and booleans: immutable, copied by assignment. *)
Inductive scalar := SString (s : string) | SInt (z : Z) | SBool (b : bool).

(** One step into a block: a field of a struct or an element of an array. *)
Inductive step := Field (f : string) | Index (i : nat).

(** The address of a variable: a block and the path to a part of it. *)
Definition addr : Type := loc * list step.

Inductive val :=
  | VScalar (s : scalar)
  | VNil                                      (* nil pointer, slice or map *)
  | VPtr (a : addr)
  | VSlice (a : addr) (off len : nat)         (* header over the array at [a] *)
  | VMap (a : addr)
  | VStruct (fs : list (string * val))
  | VArray (vs : list val)                    (* a backing array *)
  | VTable (kvs : list (string * val)).       (* the contents of a map *)

Abbreviation heap := (gmap positive val) (only parsing).

Global Instance step_eq_dec : EqDecision step.
Proof. solve_decision. Defined.
Global Instance scalar_eq_dec : EqDecision scalar.
Proof. solve_decision. Defined.

(** [&a.f] and [&a[i]] *)
Definition fieldOf (a : addr) (f : string) : addr := (a.1, a.2 ++ [Field f]).
Definition elemOf (a : addr) (i : nat) : addr := (a.1, a.2 ++ [Index i]).
Notation "a .> f" := (fieldOf a f) (at level 2, left associativity, format "a .> f") : heap_scope.
Open Scope heap_scope.

(** The field of a struct, by name. *)
Fixpoint assoc {A} (f : string) (fs : list (string * A)) : option A :=
  match fs with
  | [] => None
  | (g, v) :: fs => if decide (f = g) then Some v else assoc f fs
  end.

Fixpoint assoc_alter {A} (h : A → A) (f : string) (fs : list (string * A)) : list (string * A) :=
  match fs with
  | [] => []
  | (g, v) :: fs => if decide (f = g) then (g, h v) :: fs else (g, v) :: assoc_alter h f fs
  end.

(** Read and replace the part of a value at a path. *)
Fixpoint get (p : list step) (v : val) : option val :=
  match p, v with
  | [], _ => Some v
  | Field f :: p, VStruct fs => assoc f fs ≫= get p
  | Index i :: p, VArray vs => vs !! i ≫= get p
  | _, _ => None
  end.

Fixpoint put (p : list step) (w v : val) : val :=
  match p, v with
  | [], _ => w
  | Field f :: p, VStruct fs => VStruct (assoc_alter (put p w) f fs)
  | Index i :: p, VArray vs => VArray (alter (put p w) i vs)
  | _, _ => v
  end.

Definition load (h : heap) (a : addr) : option val := h !! a.1 ≫= get a.2.
Definition upd (a : addr) (w : val) (h : heap) : heap := alter (put a.2 w) a.1 h.

(** ** Programs over the heap

    [None] is the runtime panic of a nil dereference or an index out of range. *)
Definition M (A : Type) : Type := heap → option (A * heap).
Global Instance M_ret : MRet M := λ A x h, Some (x, h).
Global Instance M_bind : MBind M := λ A B f m h,
  match m h with Some (x, h') => f x h' | None => None end.

(** [*a] as a value, and [*a = w] *)
Definition deref (a : addr) : M val := λ h, (λ v, (v, h)) <$> load h a.
Definition store (a : addr) (w : val) : M unit := λ h,
  match load h a with Some _ => Some (tt, upd a w h) | None => None end.

(** [*dst = *src] *)
Definition assign (dst src : addr) : M unit := v ← deref src; store dst v.

(** The block a pointer, slice or map refers to; a nil pointer panics. *)
Definition asPtr (v : val) : M addr := λ h,
  match v with VPtr a => Some (a, h) | _ => None end.
Definition asSlice (v : val) : M (addr * nat * nat) := λ h,
  match v with VSlice a off len => Some ((a, off, len), h) | _ => None end.

Definition alloc (v : val) : M addr := λ h,
  let l := fresh (dom h) in Some ((l, []), <[l := v]> h).

Definition isNil (v : val) : bool := match v with VNil => true | _ => false end.

(** ** Types *)

(** A scalar type carries its zero value. *)
Inductive ty :=
  | TScalar (z : scalar)
  | TPtr (T : ty)
  | TSlice (T : ty)
  | TMap (T : ty)
  | TStruct (fts : list (string * ty)).

Definition TString : ty := TScalar (SString "").
Definition TInt : ty := TScalar (SInt 0).
Definition TBool : ty := TScalar (SBool false).

Section ty_ind.
Variable P : ty → Prop.
Hypotheses (HS : ∀ z, P (TScalar z)) (HP : ∀ T, P T → P (TPtr T))
  (HL : ∀ T, P T → P (TSlice T)) (HM : ∀ T, P T → P (TMap T))
  (HR : ∀ fts, Forall (λ ft, P ft.2) fts → P (TStruct fts)).
Fixpoint ty_nested_ind (T : ty) : P T :=
  match T with
  | TScalar z => HS z
  | TPtr T => HP T (ty_nested_ind T)
  | TSlice T => HL T (ty_nested_ind T)
  | TMap T => HM T (ty_nested_ind T)
  | TStruct fts => HR fts
      ((fix go fts := match fts return Forall (λ ft, P ft.2) fts with
        | [] => Forall_nil_2 _
        | ft :: fts => Forall_cons_2 _ ft fts (ty_nested_ind ft.2) (go fts)
        end) fts)
  end.
End ty_ind.

(** The zero value of a type, what [new] and [make] fill memory with. *)
Fixpoint zero (T : ty) : val :=
  match T with
  | TScalar z => VScalar z
  | TPtr _ | TSlice _ | TMap _ => VNil
  | TStruct fts => VStruct (map (λ ft, (ft.1, zero ft.2)) fts)
  end.

(** [new(T)] and [make([]T, n)] *)
Definition new (T : ty) : M val := a ← alloc (zero T); mret (VPtr a).
Definition make (T : ty) (n : nat) : M val :=
  a ← alloc (VArray (replicate n (zero T))); mret (VSlice a 0 n).

(** What the program sees of a value: the tree below it. *)
Inductive tree :=
  | ScalarT (s : scalar)
  | NilT
  | PtrT (t : tree)
  | SliceT (ts : list tree)
  | MapT (kts : list (string * tree))
  | StructT (fts : list (string * tree)).

(** Apply a reading to each entry of a list of named values. *)
Definition viewEntries {A} (f : val → option A) (kvs : list (string * val)) :
  option (list (string * A)) :=
  mapM (λ kv, t ← f kv.2; Some (kv.1, t)) kvs.

(** Apply the reading of each field's type to the field. *)
Definition viewFields (rd : ty → val → option tree) :
  list (string * ty) → list (string * val) → option (list (string * tree)) :=
  fix go fts fvs :=
    match fts, fvs with
    | [], [] => Some []
    | (f, T) :: fts, (g, v) :: fvs =>
        if decide (f = g) then t ← rd T v; ts ← go fts fvs; Some ((f, t) :: ts) else None
    | _, _ => None
    end.

Fixpoint view (T : ty) (h : heap) (v : val) : option tree :=
  match T, v with
  | TScalar _, VScalar s => Some (ScalarT s)
  | TPtr _, VNil | TSlice _, VNil | TMap _, VNil => Some NilT
  | TPtr T, VPtr a => w ← load h a; PtrT <$> view T h w
  | TSlice T, VSlice a off len =>
      w ← load h a;
      match w with
      | VArray vs =>
          if decide (off + len ≤ length vs)
          then SliceT <$> mapM (view T h) (take len (drop off vs)) else None
      | _ => None
      end
  | TMap T, VMap a =>
      w ← load h a;
      match w with VTable kvs => MapT <$> viewEntries (view T h) kvs | _ => None end
  | TStruct fts, VStruct fvs =>
      StructT <$> viewFields (λ T v, view T h v) fts fvs
  | _, _ => None
  end.

(** A type whose values hold no reference. *)
Fixpoint flat (T : ty) : bool :=
  match T with
  | TScalar _ => true
  | TStruct fts => forallb (λ ft, flat ft.2) fts
  | _ => false
  end.

(** ** Idioms of the generated copies *)

(** [if *in != nil { body }] *)
Definition whenNonNil (inp : addr) (body : M unit) : M unit :=
  v ← deref inp; if isNil v then mret tt else body.

(** [*out = new(T)] and then a copy of [**in] into [**out] *)
Definition copyPointer (T : ty) (into : addr → addr → M unit) (inp out : addr) : M unit :=
  whenNonNil inp (
    p ← new T; store out p;;
    s ← deref inp ≫= asPtr; d ← deref out ≫= asPtr; into s d).

(** [*out = ( *in).DeepCopy()] *)
Definition copyPointerBy (deepCopy : val → M val) (inp out : addr) : M unit :=
  whenNonNil inp (v ← deref inp; r ← deepCopy v; store out r).

(** [for i := i0; i < i0 + n; i++ { into(&( *in)[i], &( *out)[i]) }] *)
Fixpoint rangeCopy (into : addr → addr → M unit) (i n : nat) (inp out : addr) : M unit :=
  match n with
  | O => mret tt
  | S n =>
      s ← deref inp ≫= asSlice; d ← deref out ≫= asSlice;
      into (elemOf s.1.1 (s.1.2 + i)) (elemOf d.1.1 (d.1.2 + i));;
      rangeCopy into (S i) n inp out
  end.

(** The built-in [copy( *out, *in)]: the shorter of the two lengths. *)
Definition goCopy (inp out : addr) : M unit :=
  s ← deref inp ≫= asSlice; d ← deref out ≫= asSlice;
  rangeCopy (λ s d, assign d s) 0 (min s.2 d.2) inp out.

(** [*out = make([]T, len( *in)); fill] *)
Definition copySliceBy (T : ty) (fill : nat → addr → addr → M unit) (inp out : addr) : M unit :=
  whenNonNil inp (
    s ← deref inp ≫= asSlice; r ← make T s.2; store out r;; fill s.2 inp out).

Definition copySlice (T : ty) (into : addr → addr → M unit) : addr → addr → M unit :=
  copySliceBy T (λ n, rangeCopy into 0 n).
Definition copySliceFlat (T : ty) : addr → addr → M unit :=
  copySliceBy T (λ _, goCopy).

(** ** Lemmas: paths *)

Lemma assoc_alter_eq {A} (g : A → A) f fs : assoc f (assoc_alter g f fs) = g <$> assoc f fs.
Proof. induction fs as [|[k v] fs IH]; simpl; [done|]. by repeat (case_decide; simpl). Qed.

Lemma assoc_alter_ne {A} (g : A → A) f f' fs :
  f ≠ f' → assoc f' (assoc_alter g f fs) = assoc f' fs.
Proof.
  intros. induction fs as [|[k v] fs IH]; simpl; [done|].
  repeat (case_decide; simpl); congruence.
Qed.

Lemma assoc_alter_names {A} (g : A → A) f fs : (assoc_alter g f fs).*1 = fs.*1.
Proof.
  induction fs as [|[k v] fs IH]; simpl; [done|]. case_decide; csimpl; [done|]. by f_equal.
Qed.

Lemma assoc_alter_compose {A} (g g' : A → A) f fs v :
  assoc f fs = Some v → assoc_alter g f (assoc_alter g' f fs) = assoc_alter (g ∘ g') f fs.
Proof.
  intros. induction fs as [|[k w] fs IH]; simpl in *; [done|].
  repeat (case_decide; simpl); try done. f_equal. auto.
Qed.

Lemma assoc_alter_ext {A} (g g' : A → A) f fs :
  (∀ v, assoc f fs = Some v → g v = g' v) → assoc_alter g f fs = assoc_alter g' f fs.
Proof.
  intros Hg. induction fs as [|[k w] fs IH]; simpl in *; [done|].
  case_decide; [by rewrite Hg|]. f_equal. auto.
Qed.

Lemma get_app p q v : get (p ++ q) v = get p v ≫= get q.
Proof.
  revert v. induction p as [|[f|i] p IH]; intros v; simpl; [by destruct v| |]; destruct v; simpl; try done.
  - destruct (assoc f fs); simpl; [apply IH|done].
  - destruct (vs !! i); simpl; [apply IH|done].
Qed.

Lemma get_put p v x w : get p v = Some x → get p (put p w v) = Some w.
Proof.
  revert v. induction p as [|[f|i] p IH]; intros v; simpl; [by intros| |]; destruct v; simpl; try done.
  - rewrite assoc_alter_eq. destruct (assoc f fs); simpl; [apply IH|done].
  - rewrite list_lookup_alter_eq. destruct (vs !! i); simpl; [apply IH|done].
Qed.

Lemma put_put p v x w w' : get p v = Some x → put p w (put p w' v) = put p w v.
Proof.
  revert v. induction p as [|[f|i] p IH]; intros v; simpl; [by intros| |]; destruct v; simpl; try done.
  - destruct (assoc f fs) as [u|] eqn:E; simpl; [|done]. intros Hu. f_equal.
    erewrite assoc_alter_compose by done. apply assoc_alter_ext. intros u' Hu'. simplify_eq. by apply IH.
  - destruct (vs !! i) as [u|] eqn:E; simpl; [|done]. intros Hu. f_equal.
    apply list_eq. intros j. destruct (decide (i = j)) as [<-|];
      [|by rewrite !list_lookup_alter_ne].
    rewrite !list_lookup_alter_eq, E. simpl. by rewrite IH.
Qed.

Lemma put_get p v x : get p v = Some x → put p x v = v.
Proof.
  revert v. induction p as [|[f|i] p IH]; intros v; simpl; [by intros [= ->]| |];
    destruct v; simpl; try done.
  - destruct (assoc f fs) as [u|] eqn:E; simpl; [|done]. intros Hu. f_equal.
    revert E. induction fs as [|[k y] fs IHf]; simpl; [done|].
    case_decide; [intros [= ->]; by rewrite IH|]. intros. f_equal. auto.
  - destruct (vs !! i) as [u|] eqn:E; simpl; [|done]. intros Hu. f_equal.
    apply list_eq. intros j. destruct (decide (i = j)) as [<-|];
      [|by rewrite list_lookup_alter_ne].
    rewrite list_lookup_alter_eq, E. simpl. by rewrite IH.
Qed.

Lemma put_app p q v x w : get p v = Some x → put (p ++ q) w v = put p (put q w x) v.
Proof.
  revert v. induction p as [|[f|i] p IH]; intros v; simpl; [by intros [= ->]| |];
    destruct v; simpl; try done.
  - destruct (assoc f fs) as [u|] eqn:E; simpl; [|done]. intros Hu. f_equal.
    apply assoc_alter_ext. intros u' Hu'. simplify_eq. by apply IH.
  - destruct (vs !! i) as [u|] eqn:E; simpl; [|done]. intros Hu. f_equal.
    apply list_eq. intros j. destruct (decide (i = j)) as [<-|];
      [|by rewrite !list_lookup_alter_ne].
    rewrite !list_lookup_alter_eq, E. simpl. by rewrite IH.
Qed.

(** ** Lemmas: heaps *)

Lemma load_mono h h' a v : h ⊆ h' → load h a = Some v → load h' a = Some v.
Proof.
  unfold load. intros Hsub. destruct (h !! a.1) as [b|] eqn:E; simpl; [|done].
  by rewrite (lookup_weaken _ _ _ _ E Hsub).
Qed.

Lemma load_dom h a v : load h a = Some v → is_Some (h !! a.1).
Proof. unfold load. destruct (h !! a.1); simpl; [by eexists|done]. Qed.

Lemma load_upd_eq h a v w : load h a = Some v → load (upd a w h) a = Some w.
Proof.
  unfold load, upd. rewrite lookup_alter_eq. destruct (h !! a.1); simpl; [|done]. apply get_put.
Qed.

Lemma upd_same h a v : load h a = Some v → upd a v h = h.
Proof.
  unfold load, upd. intros Hl. apply alter_id. intros b Hb. rewrite Hb in Hl. by apply put_get.
Qed.

Lemma load_upd_ne h a b w : a.1 ≠ b.1 → load (upd a w h) b = load h b.
Proof. intros. unfold load, upd. by rewrite lookup_alter_ne. Qed.

Lemma load_field h a f fs :
  load h a = Some (VStruct fs) → load h (a.>f) = assoc f fs.
Proof.
  unfold load, fieldOf. simpl. destruct (h !! a.1) as [b|]; simpl; [|done].
  rewrite get_app. intros ->. simpl. by destruct (assoc f fs) as [[]|].
Qed.

Lemma load_elem h a i vs : load h a = Some (VArray vs) → load h (elemOf a i) = vs !! i.
Proof.
  unfold load, elemOf. simpl. destruct (h !! a.1) as [b|]; simpl; [|done].
  rewrite get_app. intros ->. simpl. by destruct (vs !! i) as [[]|].
Qed.

Lemma load_delete h a l v : load (delete l h) a = Some v → a.1 ≠ l ∧ load h a = Some v.
Proof.
  intros Hl. split; [|by eapply load_mono; [apply delete_subseteq|]].
  intros <-. unfold load in Hl. by rewrite lookup_delete_eq in Hl.
Qed.

Lemma upd_upd_field h a f w v fs :
  load h a = Some v →
  upd (a.>f) w (upd a (VStruct fs) h) = upd a (VStruct (assoc_alter (λ _, w) f fs)) h.
Proof.
  unfold load, upd, fieldOf. simpl. intros Hl. rewrite alter_alter_eq.
  apply alter_ext. intros b Hb. rewrite Hb in Hl. simpl in *.
  erewrite put_app by (by eapply get_put). erewrite put_put by done. done.
Qed.

Lemma upd_union h hn a v w : load h a = Some v → upd a w (h ∪ hn) = upd a w h ∪ hn.
Proof.
  intros [b Hb]%load_dom. apply map_eq. intros k. unfold upd.
  destruct (decide (a.1 = k)) as [<-|Hne].
  - rewrite lookup_alter_eq, !lookup_union, lookup_alter_eq, Hb. by destruct (hn !! a.1).
  - by rewrite lookup_alter_ne, !lookup_union, lookup_alter_ne by done.
Qed.

Lemma upd_disjoint h hn a w : hn ##ₘ upd a w h ↔ hn ##ₘ h.
Proof. unfold upd. rewrite !map_disjoint_dom. by rewrite dom_alter_L. Qed.

Lemma delete_upd h a w : delete a.1 (upd a w h) = delete a.1 h.
Proof. unfold upd. apply delete_alter_eq. Qed.

(** ** Lemmas: views *)

Lemma mapM_mono {A B} (f g : A → option B) l k :
  Forall (λ x, ∀ y, f x = Some y → g x = Some y) l → mapM f l = Some k → mapM g l = Some k.
Proof.
  rewrite !mapM_Some. intros Hfg Hk. revert Hfg. induction Hk; inversion 1; constructor; auto.
Qed.

(** One field of a struct: its name, its reading. *)
Definition FieldView (h : heap) (ft : string * ty) (fv : string * val) (tt : string * tree) : Prop :=
  ft.1 = fv.1 ∧ ft.1 = tt.1 ∧ view ft.2 h fv.2 = Some tt.2.

Lemma viewFields_Some h fts fvs tts :
  viewFields (λ T v, view T h v) fts fvs = Some tts ↔ Forall3 (FieldView h) fts fvs tts.
Proof.
  split.
  - revert fvs tts. induction fts as [|[f T] fts IH]; intros [|[g v] fvs] tts; simpl; try done.
    + intros [= <-]. constructor.
    + case_decide; [|done]. intros (t & Ht & (ts & Hts & [= <-])%bind_Some)%bind_Some.
      constructor; [done|]. by apply IH.
  - induction 1 as [|[f T] [g v] [k t] fts fvs tts (Hf & Hk & Ht) _ IH]; simpl in *; [done|].
    subst. rewrite decide_True by done. by rewrite Ht, IH.
Qed.

Lemma view_struct fts h v tr :
  view (TStruct fts) h v = Some tr ↔
  ∃ fvs tts, v = VStruct fvs ∧ tr = StructT tts ∧ Forall3 (FieldView h) fts fvs tts.
Proof.
  split.
  - destruct v; simpl; try done. intros (tts & Htts & ->)%fmap_Some.
    eexists _, _. split; [done|]. split; [done|]. by apply viewFields_Some.
  - intros (fvs & tts & -> & -> & H). simpl. apply fmap_Some. exists tts. split; [|done].
    by apply viewFields_Some.
Qed.

(** A larger heap shows the same tree. *)
Lemma view_mono T h h' v t : h ⊆ h' → view T h v = Some t → view T h' v = Some t.
Proof.
  intros Hsub. revert v t. induction T as [z|T IH|T IH|T IH|fts IH] using ty_nested_ind; intros v t.
  - by destruct v.
  - destruct v; simpl; try done. intros (w & Hw & Ht)%bind_Some.
    rewrite (load_mono _ _ _ _ Hsub Hw). simpl. apply fmap_Some in Ht as (t' & Ht & ->).
    by rewrite (IH _ _ Ht).
  - destruct v; simpl; try done. intros (w & Hw & Ht)%bind_Some.
    rewrite (load_mono _ _ _ _ Hsub Hw). simpl. destruct w; try done. case_decide; [|done].
    apply fmap_Some in Ht as (ts & Ht & ->). apply fmap_Some. exists ts. split; [|done].
    eapply mapM_mono; [|done]. apply Forall_forall. auto.
  - destruct v; simpl; try done. intros (w & Hw & Ht)%bind_Some.
    rewrite (load_mono _ _ _ _ Hsub Hw). simpl. destruct w; try done.
    apply fmap_Some in Ht as (ts & Ht & ->). apply fmap_Some. exists ts. split; [|done].
    eapply mapM_mono; [|done]. apply Forall_forall. intros [k x] _ [k' y].
    intros (t' & Ht' & [= -> ->])%bind_Some. simpl in *. by rewrite (IH _ _ Ht').
  - rewrite !view_struct. intros (fvs & tts & -> & -> & H). eexists _, _. do 2 (split; [done|]).
    induction H as [|ft fv tt fts fvs tts (?&?&?) _ IHH]; [constructor|].
    inversion IH; subst. constructor; [|by apply IHH]. split_and!; auto.
Qed.

(** A flat value shows the same tree in every heap. *)
Lemma view_flat T h v t : flat T = true → view T h v = Some t → view T ∅ v = Some t.
Proof.
  revert v t. induction T as [z|T IH|T IH|T IH|fts IH] using ty_nested_ind; intros v t; simpl flat;
    intros Hflat; [by destruct v|done..|].
  rewrite !view_struct. intros (fvs & tts & -> & -> & H). eexists _, _. do 2 (split; [done|]).
  induction H as [|ft fv tt fts fvs tts (?&?&?) _ IHH]; [constructor|].
  simpl in Hflat. apply andb_true_iff in Hflat as [??].
  inversion IH; subst. constructor; [|by apply IHH]. split_and!; auto.
Qed.

(** ** What a copy is *)

(** [f src dst] copies a value of type [T]: it succeeds, what is stored at [dst]
    shows the tree that [src] showed, that tree lies in memory that was not
    allocated before ([view] finds it in [hn] alone), and apart from the variable
    at [dst] the old memory is as it was.  The destination lies in a block that
    the source does not use. *)
Definition Copies (T : ty) (f : addr → addr → M unit) : Prop :=
  ∀ h src dst v w t, src.1 ≠ dst.1 →
    load h src = Some v → load h dst = Some w → view T (delete dst.1 h) v = Some t →
    ∃ v' hn, f src dst h = Some (tt, upd dst v' h ∪ hn) ∧ hn ##ₘ h ∧ view T hn v' = Some t.

(** The same of a destination that already holds a shallow copy of the source. *)
Definition Refreshes (T : ty) (f : addr → addr → M unit) : Prop :=
  ∀ h src dst v t, src.1 ≠ dst.1 →
    load h src = Some v → load h dst = Some v → view T (delete dst.1 h) v = Some t →
    ∃ v' hn, f src dst h = Some (tt, upd dst v' h ∪ hn) ∧ hn ##ₘ h ∧ view T hn v' = Some t.

(** [f v] returns a pointer to a copy of the variable [v] points to, nil for nil,
    and leaves the old memory alone. *)
Definition CopiesPtr (T : ty) (f : val → M val) : Prop :=
  ∀ h v t, view (TPtr T) h v = Some t →
    ∃ v' hn, f v h = Some (v', h ∪ hn) ∧ hn ##ₘ h ∧ view (TPtr T) hn v' = Some t.

(** ** Lemmas: running heap programs *)

Lemma bind_step {A B} (m : M A) (f : A → M B) h x h' :
  m h = Some (x, h') → (m ≫= f) h = f x h'.
Proof. intros E. unfold mbind, M_bind. by rewrite E. Qed.

Lemma deref_step {B} a v (f : val → M B) h : load h a = Some v → (deref a ≫= f) h = f v h.
Proof. intros E. apply bind_step. unfold deref. by rewrite E. Qed.

Lemma store_step {B} a v w (f : unit → M B) h :
  load h a = Some v → (store a w ≫= f) h = f tt (upd a w h).
Proof. intros E. apply bind_step. unfold store. by rewrite E. Qed.

Lemma store_run a v w h : load h a = Some v → store a w h = Some (tt, upd a w h).
Proof. intros E. unfold store. by rewrite E. Qed.

Lemma assign_run dst src v w h :
  load h src = Some v → load h dst = Some w → assign dst src h = Some (tt, upd dst v h).
Proof. intros Hs Hd. unfold assign. rewrite (deref_step _ _ _ _ Hs). by eapply store_run. Qed.

Lemma new_step T h :
  ∃ l, h !! l = None ∧
    ∀ B (f : val → M B), (new T ≫= f) h = f (VPtr (l, [])) (<[l := zero T]> h).
Proof. exists (fresh (dom h)). split; [|done]. apply not_elem_of_dom, is_fresh. Qed.

Lemma make_step T n h :
  ∃ l, h !! l = None ∧ ∀ B (f : val → M B),
    (make T n ≫= f) h = f (VSlice (l, []) 0 n) (<[l := VArray (replicate n (zero T))]> h).
Proof. exists (fresh (dom h)). split; [|done]. apply not_elem_of_dom, is_fresh. Qed.

Lemma bind_ret_tt (m : M unit) h : (m ≫= λ _, mret tt) h = m h.
Proof. unfold mbind, M_bind. by destruct (m h) as [[[] h']|]. Qed.

(** ** Rules for the idioms *)

Lemma Copies_Refreshes T f : Copies T f → Refreshes T f.
Proof. intros Hf h src dst v t. eauto. Qed.

(** [*out = *in] of a flat type *)
Lemma assign_Copies T : flat T = true → Copies T (λ src dst, assign dst src).
Proof.
  intros Hflat h src dst v w t Hne Hs Hd Ht. exists v, ∅. rewrite map_union_empty.
  split; [by eapply assign_run|]. split; [apply map_disjoint_empty_l|]. by eapply view_flat.
Qed.

(** The nil case, shared by the idioms: the shallow copy is already nil. *)
Lemma whenNonNil_Refreshes T (body : addr → addr → M unit) :
  (∀ h, view T h VNil = Some NilT) →
  (∀ h src dst v t, v ≠ VNil → src.1 ≠ dst.1 →
     load h src = Some v → load h dst = Some v → view T (delete dst.1 h) v = Some t →
     ∃ v' hn, body src dst h = Some (tt, upd dst v' h ∪ hn) ∧ hn ##ₘ h ∧ view T hn v' = Some t) →
  Refreshes T (λ src dst, whenNonNil src (body src dst)).
Proof.
  intros Hnil Hbody h src dst v t Hne Hs Hd Ht. unfold whenNonNil.
  rewrite (deref_step _ _ _ _ Hs).
  destruct (isNil v) eqn:Ev; [|by apply (Hbody h src dst v t); [by intros ->|..]].
  destruct v; try done. exists VNil, ∅. rewrite map_union_empty, (upd_same _ _ _ Hd).
  split; [done|]. split; [apply map_disjoint_empty_l|]. rewrite Hnil in *. done.
Qed.

(** A copy into a fresh block [l], seen from the variable that will refer to it:
    the old heap with the variable updated, and the new memory. *)
Lemma fresh_block_upd h dst l b p w x :
  h !! l = None → load h dst = Some x →
  upd dst p (<[l := b]> h) = upd dst p h ∪ {[l := b]} ∧
  upd (l, []) w (upd dst p h ∪ {[l := b]}) = upd dst p h ∪ {[l := w]}.
Proof.
  intros Hl Hd. pose proof (load_dom _ _ _ Hd) as [y Hy].
  assert (l ≠ dst.1) by congruence. split.
  - rewrite <-(upd_union _ _ _ _ _ Hd). f_equal.
    rewrite insert_union_singleton_l, map_union_comm; [done|]. by apply map_disjoint_singleton_l_2.
  - unfold upd at 1. simpl. apply map_eq. intros k. destruct (decide (l = k)) as [<-|].
    + unfold upd. rewrite lookup_alter_eq, !lookup_union, lookup_alter_ne, Hl, !lookup_singleton_eq by done. done.
    + by rewrite lookup_alter_ne, !lookup_union, !lookup_singleton_ne by done.
Qed.

Lemma deref_asPtr {B} a b (f : addr → M B) h :
  load h a = Some (VPtr b) → ((deref a ≫= asPtr) ≫= f) h = f b h.
Proof. intros E. apply bind_step. by rewrite (deref_step _ _ _ _ E). Qed.

Lemma deref_asSlice {B} a b off len (f : addr * nat * nat → M B) h :
  load h a = Some (VSlice b off len) → ((deref a ≫= asSlice) ≫= f) h = f (b, off, len) h.
Proof. intros E. apply bind_step. by rewrite (deref_step _ _ _ _ E). Qed.

(** What a routine still reads once its destination has been changed and new
    memory added. *)
Section after.
Context (h hn : heap) (dst : addr) (p : val).

Lemma load_after a v : a.1 ≠ dst.1 → load h a = Some v → load (upd dst p h ∪ hn) a = Some v.
Proof.
  intros Hne Ha. eapply load_mono; [apply map_union_subseteq_l|]. by rewrite load_upd_ne.
Qed.

Lemma load_after_dst x : load h dst = Some x → load (upd dst p h ∪ hn) dst = Some p.
Proof. intros Hd. eapply load_mono; [apply map_union_subseteq_l|]. by eapply load_upd_eq. Qed.

Lemma delete_after_sub l :
  h !! l = None ∨ l = dst.1 → delete dst.1 h ⊆ delete l (upd dst p h ∪ hn).
Proof.
  intros Hl. apply map_subseteq_spec. intros k x [Hk Hx]%lookup_delete_Some.
  rewrite lookup_delete_ne by (destruct Hl; congruence).
  apply lookup_union_Some_l. unfold upd. by rewrite lookup_alter_ne.
Qed.
End after.

(** [*out = new(T)] and a copy into it *)
Lemma copyPointer_Refreshes T f : Copies T f → Refreshes (TPtr T) (copyPointer T f).
Proof.
  intros Hf. apply whenNonNil_Refreshes; [done|].
  intros h src dst v t Hv Hne Hs Hd Ht. destruct v as [| |a| | | | |]; try done. clear Hv.
  simpl in Ht. apply bind_Some in Ht as (w & Hw & (t' & Ht & ->)%fmap_Some).
  apply load_delete in Hw as [Ha Hw].
  destruct (new_step T h) as (l & Hl & ->).
  assert (Hal : a.1 ≠ l) by (intros <-; by destruct (load_dom _ _ _ Hw); congruence).
  assert (Hdl : load (<[l := zero T]> h) dst = Some (VPtr a)).
  { eapply load_mono; [|done]. by apply insert_subseteq. }
  rewrite (store_step _ _ _ _ _ Hdl).
  destruct (fresh_block_upd h dst l (zero T) (VPtr (l, [])) (zero T) _ Hl Hd) as [-> _].
  set (h2 := upd dst (VPtr (l, [])) h ∪ {[l := zero T]}).
  rewrite (deref_asPtr src a) by by apply load_after.
  rewrite (deref_asPtr dst (l, [])) by by eapply load_after_dst.
  destruct (Hf h2 a (l, []) w (zero T) t') as (v' & hn & -> & Hdis & Hview); simpl.
  - done.
  - by apply load_after.
  - unfold h2. rewrite map_union_comm by by apply map_disjoint_sym, upd_disjoint, map_disjoint_singleton_l_2.
    eapply load_mono; [apply map_union_subseteq_l|]. unfold load. simpl. by rewrite lookup_singleton_eq.
  - eapply view_mono; [|done]. apply delete_after_sub. by left.
  - exists (VPtr (l, [])), ({[l := v']} ∪ hn).
    destruct (fresh_block_upd h dst l (zero T) (VPtr (l, [])) v' _ Hl Hd) as [_ Hupd].
    unfold h2 in *. rewrite Hupd, (assoc_L (∪)).
    apply map_disjoint_union_r in Hdis as [Hdis1 Hdis2]. split; [done|]. split.
    + apply map_disjoint_union_l_2; [by apply map_disjoint_singleton_l_2|].
      by apply (upd_disjoint h hn dst (VPtr (l, []))).
    + simpl. unfold load. simpl. rewrite lookup_union, lookup_singleton_eq.
      rewrite (map_disjoint_Some_r _ _ l (zero T) Hdis2) by by rewrite lookup_singleton_eq. simpl.
      erewrite view_mono; [done| |done]. apply map_union_subseteq_r.
      apply map_disjoint_singleton_l_2. eapply map_disjoint_Some_r; [done|]. by rewrite lookup_singleton_eq.
Qed.

(** [*out = ( *in).DeepCopy()] *)
Lemma copyPointerBy_Refreshes T f : CopiesPtr T f → Refreshes (TPtr T) (copyPointerBy f).
Proof.
  intros Hf. apply whenNonNil_Refreshes; [done|].
  intros h src dst v t _ Hne Hs Hd Ht. rewrite (deref_step _ _ _ _ Hs).
  destruct (Hf h v t) as (v' & hn & Hrun & Hdis & Hview).
  { eapply view_mono; [apply delete_subseteq|done]. }
  exists v', hn. rewrite (bind_step _ _ _ _ _ Hrun), <-(upd_union _ _ _ _ _ Hd).
  split_and!; [|done..]. eapply store_run, load_mono; [apply map_union_subseteq_l|done].
Qed.

Lemma asPtr_step {B} a (f : addr → M B) h : (asPtr (VPtr a) ≫= f) h = f a h.
Proof. done. Qed.

(** The generated [DeepCopy]: nil for nil, else a fresh variable filled by
    [DeepCopyInto]. *)
Definition deepCopy (T : ty) (into : addr → addr → M unit) (inp : val) : M val :=
  if isNil inp then mret VNil
  else out ← new T; s ← asPtr inp; d ← asPtr out; into s d;; mret out.

Lemma deepCopy_CopiesPtr T f : Copies T f → CopiesPtr T (deepCopy T f).
Proof.
  intros Hf h v t Ht. unfold deepCopy.
  destruct v as [| |a| | | | |]; simpl in Ht; try done; simpl.
  { simplify_eq. exists VNil, ∅. rewrite map_union_empty.
    split_and!; [done|apply map_disjoint_empty_l|done]. }
  apply bind_Some in Ht as (w & Hw & (t' & Ht & ->)%fmap_Some).
  destruct (new_step T h) as (l & Hl & ->).
  assert (Hal : a.1 ≠ l) by (intros <-; by destruct (load_dom _ _ _ Hw); congruence).
  rewrite !asPtr_step.
  destruct (Hf (<[l := zero T]> h) a (l, []) w (zero T) t') as (v' & hn & Hrun & Hdis & Hview); simpl.
  - done.
  - eapply load_mono; [|done]. by apply insert_subseteq.
  - unfold load. simpl. by rewrite lookup_insert_eq.
  - by rewrite delete_insert_id.
  - apply map_disjoint_insert_r in Hdis as [Hl' Hdis].
    exists (VPtr (l, [])), (<[l := v']> hn). rewrite (bind_step _ _ _ _ _ Hrun). split_and!.
    + unfold mret, M_ret, upd. simpl. do 2 f_equal. apply map_eq. intros k.
      destruct (decide (l = k)) as [<-|].
      * by rewrite !lookup_union, lookup_alter_eq, !lookup_insert_eq, Hl', Hl.
      * by rewrite !lookup_union, lookup_alter_ne, !lookup_insert_ne.
    + by apply map_disjoint_insert_l_2.
    + simpl. unfold load. simpl. rewrite lookup_insert_eq. simpl.
      erewrite view_mono; [done| |done]. by apply insert_subseteq.
Qed.

(** ** Slices

    The loop fills the new array [l] from left to right; [done] holds the copies
    made so far, [hn] the memory they brought. *)
Section range.
Context (T : ty) (f : addr → addr → M unit) (Hf : Copies T f).
Context (h : heap) (src dst a : addr) (off : nat) (vs : list val) (ts : list tree) (l : loc).
Context (Hne : src.1 ≠ dst.1) (Hd : load h dst = Some (VSlice a off (length ts)))
  (Hs : load h src = Some (VSlice a off (length ts)))
  (Ha : load (delete dst.1 h) a = Some (VArray vs)) (Hl : h !! l = None)
  (Hts : ∀ i t, ts !! i = Some t →
     ∃ v, vs !! (off + i) = Some v ∧ view T (delete dst.1 h) v = Some t).

Definition filling (don : list val) (m : nat) (hn : heap) : heap :=
  upd dst (VSlice (l, []) 0 (length ts)) h ∪ <[l := VArray (don ++ replicate m (zero T))]> hn.

Lemma filling_lookup don m hn : filling don m hn !! l = Some (VArray (don ++ replicate m (zero T))).
Proof using Hl.
  unfold filling, upd. rewrite lookup_union, lookup_insert_eq.
  assert (dst.1 ≠ l ∨ dst.1 = l) as [Hk|<-] by (destruct (decide (dst.1 = l)); auto).
  - by rewrite lookup_alter_ne, Hl.
  - by rewrite lookup_alter_eq, Hl.
Qed.

(** Storing the next element, and adding the memory its copy brought. *)
Lemma filling_next don m hn hn' v' :
  hn' !! l = None →
  upd (l, [Index (length don)]) v' (filling don (S m) hn) ∪ hn'
    = filling (don ++ [v']) m (hn ∪ hn').
Proof using Hl Hne.
  intros Hl'. apply map_eq. intros k. destruct (decide (l = k)) as [<-|Hk].
  - rewrite filling_lookup. unfold upd. simpl.
    rewrite lookup_union, lookup_alter_eq, filling_lookup, Hl'. simpl. do 2 f_equal.
    rewrite alter_app_r_alt, Nat.sub_diag by lia. simpl. by rewrite <-(assoc_L (++)).
  - unfold upd at 1, filling. simpl. rewrite lookup_union, lookup_alter_ne by done.
    rewrite !lookup_union, !lookup_insert_ne by done. rewrite lookup_union.
    by destruct (upd dst (VSlice (l, []) 0 (length ts)) h !! k), (hn !! k), (hn' !! k).
Qed.

Lemma rangeCopy_step don m hn ts1 t ts2 :
  ts = ts1 ++ t :: ts2 → length don = length ts1 → hn ##ₘ h → hn !! l = None →
  ∃ v' hn', f (elemOf a (off + length ts1)) (elemOf (l, []) (0 + length ts1)) (filling don (S m) hn)
      = Some (tt, filling (don ++ [v']) m (hn ∪ hn')) ∧
    hn ∪ hn' ##ₘ h ∧ (hn ∪ hn') !! l = None ∧ hn ⊆ hn ∪ hn' ∧
    view T (hn ∪ hn') v' = Some t.
Proof using Hf Hne Ha Hl Hts.
  intros Hsplit Hlen Hdis Hfresh.
  destruct (Hts (length ts1) t) as (v & Hv & Hview).
  { rewrite Hsplit. by apply list_lookup_middle. }
  apply load_delete in Ha as [Had Hah].
  destruct (Hf (filling don (S m) hn) (elemOf a (off + length ts1)) (l, [Index (length ts1)])
              v (zero T) t) as (v' & hn' & Hrun & Hdis' & Hv'); simpl.
  - intros Hal. pose proof (load_dom _ _ _ Hah) as [x Hx]. by rewrite Hal, Hl in Hx.
  - erewrite load_elem; [done|]. by apply load_after.
  - unfold load. simpl. rewrite filling_lookup. simpl.
    rewrite <-Hlen, lookup_app_r, Nat.sub_diag by done. done.
  - eapply view_mono; [|done]. apply delete_after_sub. by left.
  - assert (Hl' : hn' !! l = None) by (eapply map_disjoint_Some_r; [done|apply filling_lookup]).
    unfold filling in Hdis' at 1. apply map_disjoint_union_r in Hdis' as [Hd1 Hd2].
    apply upd_disjoint in Hd1. apply map_disjoint_insert_r in Hd2 as [_ Hd2].
    exists v', hn'. unfold elemOf at 2. simpl. rewrite Hrun, <-Hlen, filling_next by done. split_and!.
    + done.
    + by apply map_disjoint_union_l_2.
    + by rewrite lookup_union, Hfresh, Hl'.
    + apply map_union_subseteq_l.
    + eapply view_mono; [|done]. by apply map_union_subseteq_r.
Qed.

Lemma rangeCopy_run ts1 ts2 don hn :
  ts = ts1 ++ ts2 → length don = length ts1 → hn ##ₘ h → hn !! l = None →
  Forall2 (λ v t, view T hn v = Some t) don ts1 →
  ∃ vs' hn', rangeCopy f (length ts1) (length ts2) src dst (filling don (length ts2) hn)
      = Some (tt, filling vs' 0 hn') ∧
    hn' ##ₘ h ∧ hn' !! l = None ∧ Forall2 (λ v t, view T hn' v = Some t) vs' ts.
Proof using Hf Hne Hd Hs Ha Hl Hts.
  revert ts1 don hn. induction ts2 as [|t ts2 IH]; intros ts1 don hn Hsplit Hlen Hdis Hfresh Hdone.
  - exists don, hn. rewrite app_nil_r in Hsplit. subst ts1. done.
  - simpl rangeCopy.
    destruct (rangeCopy_step don (length ts2) hn ts1 t ts2) as (v' & hn' & Hrun & Hdis' & Hl' & Hsub & Hv');
      [done..|].
    rewrite (deref_asSlice src a off (length ts)) by by apply load_after.
    rewrite (deref_asSlice dst (l, []) 0 (length ts)) by by eapply load_after_dst.
    simpl fst. simpl snd. simpl length. rewrite (bind_step _ _ _ _ _ Hrun).
    destruct (IH (ts1 ++ [t]) (don ++ [v']) (hn ∪ hn')) as (vs' & hn'' & Hrun' & ?).
    + by rewrite Hsplit, <-(assoc_L (++)).
    + rewrite !length_app. simpl. lia.
    + done.
    + done.
    + apply Forall2_app; [|by repeat constructor].
      eapply Forall2_impl; [done|]. intros x y Hxy. by eapply view_mono.
    + exists vs', hn''. rewrite length_app, Nat.add_1_r in Hrun'. by rewrite Hrun'.
Qed.
End range.

(** The elements of a slice and their readings. *)
Lemma slice_elements T h vs off len ts i t :
  mapM (view T h) (take len (drop off vs)) = Some ts → ts !! i = Some t →
  ∃ v, vs !! (off + i) = Some v ∧ view T h v = Some t.
Proof.
  rewrite mapM_Some. intros Hts Ht. destruct (Forall2_lookup_r _ _ _ _ _ Hts Ht) as (v & Hv & ?).
  apply lookup_take_Some in Hv as [Hv _]. rewrite lookup_drop in Hv. eauto.
Qed.

Lemma copySliceBy_Refreshes T f (fill : nat → addr → addr → M unit) :
  Copies T f →
  (∀ n src dst h a off b, load h src = Some (VSlice a off n) → load h dst = Some (VSlice b 0 n) →
     fill n src dst h = rangeCopy f 0 n src dst h) →
  Refreshes (TSlice T) (copySliceBy T fill).
Proof.
  intros Hf Hfill. apply whenNonNil_Refreshes; [done|].
  intros h src dst v t Hv Hne Hs Hd Ht. destruct v as [| | |a off len| | | |]; try done. clear Hv.
  simpl in Ht. apply bind_Some in Ht as (w & Hw & Ht). destruct w as [| | | | | |vs|]; try done.
  case_decide as Hlen; [|done]. apply fmap_Some in Ht as (ts & Ht & ->).
  assert (length ts = len) as <-.
  { pose proof (length_mapM _ _ _ Ht) as E. rewrite length_take, length_drop in E. lia. }
  rewrite (deref_asSlice src a off (length ts)) by done. simpl.
  destruct (make_step T (length ts) h) as (l & Hl & ->).
  set (b := VArray (replicate (length ts) (zero T))).
  assert (Hdl : load (<[l := b]> h) dst = Some (VSlice a off (length ts))).
  { eapply load_mono; [|done]. by apply insert_subseteq. }
  rewrite (store_step _ _ _ _ _ Hdl).
  destruct (fresh_block_upd h dst l b (VSlice (l, []) 0 (length ts)) b _ Hl Hd) as [-> _].
  rewrite (Hfill _ _ _ _ a off (l, [])); [|by apply load_after|by eapply load_after_dst].
  destruct (rangeCopy_run T f Hf h src dst a off vs ts l Hne Hd Hs Hw Hl
    (λ i t, slice_elements _ _ _ _ _ _ _ _ Ht) [] ts [] ∅) as (vs' & hn & Hrun & Hdis & Hl' & Hvs);
    [done..|apply map_disjoint_empty_l|done|constructor|].
  unfold filling in Hrun. rewrite insert_empty in Hrun. simpl app in Hrun. rewrite app_nil_r in Hrun.
  eexists (VSlice (l, []) 0 (length ts)), (<[l := VArray vs']> hn).
  split; [done|]. split; [by apply map_disjoint_insert_l_2|].
  simpl. unfold load. simpl. rewrite lookup_insert_eq. simpl.
  pose proof (Forall2_length _ _ _ Hvs) as Hlen'. rewrite decide_True by lia.
  apply fmap_Some. exists ts. split; [|done]. rewrite drop_0, take_ge, mapM_Some by lia.
  eapply Forall2_impl; [done|]. intros x y Hxy. eapply view_mono; [|exact Hxy]. by apply insert_subseteq.
Qed.

(** [*out = make([]T, len( *in))] and [DeepCopyInto] of each element *)
Lemma copySlice_Refreshes T f : Copies T f → Refreshes (TSlice T) (copySlice T f).
Proof. intros Hf. by apply copySliceBy_Refreshes with f. Qed.

(** [*out = make([]T, len( *in)); copy( *out, *in)] of a flat element type *)
Lemma copySliceFlat_Refreshes T : flat T = true → Refreshes (TSlice T) (copySliceFlat T).
Proof.
  intros Hflat. apply copySliceBy_Refreshes with (λ s d, assign d s); [by apply assign_Copies|].
  intros n src dst h a off b Hs Hd. unfold goCopy.
  rewrite (deref_asSlice _ _ _ _ _ _ Hs), (deref_asSlice _ _ _ _ _ _ Hd). simpl. by rewrite Nat.min_id.
Qed.

(** ** Structs

    A generated [DeepCopyInto] assigns the whole struct and then gives some fields
    a copy of their own.  [Progress done hk]: the fields in [done] have theirs, the
    others still hold the shallow copy. *)
Lemma Forall3_names hx fts vs tts : Forall3 (FieldView hx) fts vs tts → vs.*1 = fts.*1.
Proof. induction 1 as [|??????(E&_&_) _ IH]; csimpl; [done|]. by rewrite IH, E. Qed.

Lemma Forall3_names_tree hx fts vs tts : Forall3 (FieldView hx) fts vs tts → tts.*1 = fts.*1.
Proof. induction 1 as [|??????(_&E&_) _ IH]; csimpl; [done|]. by rewrite IH, E. Qed.

Lemma assoc_In {A} f (fs : list (string * A)) x : assoc f fs = Some x → In (f, x) fs.
Proof.
  induction fs as [|[k y] fs IH]; simpl; [done|]. case_decide; [|auto]. intros [= ->]. subst. auto.
Qed.

Lemma assoc_fresh {A} k (fs : list (string * A)) f x : k ∉ fs.*1 → assoc f fs = Some x → f ≠ k.
Proof.
  intros Hk Hf ->. apply Hk, list_elem_of_fmap. exists (k, x). split; [done|].
  by apply list_elem_of_In, assoc_In.
Qed.

(** A struct with distinct field names is read field by field. *)
Lemma FieldView_assoc hx fts vs tts :
  NoDup fts.*1 → vs.*1 = fts.*1 → tts.*1 = fts.*1 →
  (∀ f T v t, assoc f fts = Some T → assoc f vs = Some v → assoc f tts = Some t →
     view T hx v = Some t) →
  Forall3 (FieldView hx) fts vs tts.
Proof.
  revert vs tts. induction fts as [|[f T] fts IH]; intros [|[g v] vs] [|[k t] tts]; csimpl; try done.
  { constructor. }
  intros [Hf Hnd]%NoDup_cons [= -> Evs] [= -> Ets] Hview. constructor.
  - split_and!; [done..|]. apply (Hview f); simpl; by rewrite decide_True.
  - apply IH; [done..|]. intros f' T' v' t' HT Hv Ht.
    assert (f' ≠ f) by by eapply assoc_fresh. apply (Hview f'); by rewrite decide_False.
Qed.

Section struct.
Context (fts : list (string * ty)) (h : heap) (src dst : addr).
Context (fvs : list (string * val)) (tts : list (string * tree)).

Definition Progress (don : list string) (hk : heap) : Prop :=
  ∃ cur hn, hk = upd dst (VStruct cur) h ∪ hn ∧ hn ##ₘ h ∧ cur.*1 = fvs.*1 ∧
    ∀ f v, assoc f cur = Some v →
      if decide (f ∈ don)
      then ∃ T t, assoc f fts = Some T ∧ assoc f tts = Some t ∧ view T hn v = Some t
      else assoc f fvs = Some v.

(** From this point on, [m] completes the copy. *)
Definition Completes (hk : heap) (m : M unit) : Prop :=
  ∃ v' hn, m hk = Some (tt, upd dst v' h ∪ hn) ∧ hn ##ₘ h ∧
    view (TStruct fts) hn v' = Some (StructT tts).

Context (Hne : src.1 ≠ dst.1) (Hs : load h src = Some (VStruct fvs)).
Context (w : val) (Hd : load h dst = Some w).
Context (Hv : Forall3 (FieldView (delete dst.1 h)) fts fvs tts) (Hnd : NoDup fts.*1).

Lemma assoc_FieldView hx vs f T :
  Forall3 (FieldView hx) fts vs tts → assoc f fts = Some T →
  ∃ v t, assoc f vs = Some v ∧ assoc f tts = Some t ∧ view T hx v = Some t.
Proof using.
  clear. induction 1 as [|[k T'] [k' v] [k'' t] fts fvs tts (E & E' & Ht) _ IH]; simpl in *; [done|].
  subst. case_decide; [|apply IH]. intros [= ->]. eauto.
Qed.

Lemma assoc_names {A B} (xs : list (string * A)) (ys : list (string * B)) f x :
  xs.*1 = ys.*1 → assoc f xs = Some x → is_Some (assoc f ys).
Proof using.
  clear. revert ys. induction xs as [|[k y] xs IH]; intros [|[k' z] ys]; csimpl; try done.
  intros [= -> E]. case_decide; [eauto|by apply IH].
Qed.

Lemma Progress_start : Progress [] (upd dst (VStruct fvs) h).
Proof using.
  exists fvs, ∅. rewrite map_union_empty. split_and!; [done|apply map_disjoint_empty_l|done|].
  intros f v Hf. case_decide as Hin; [by apply not_elem_of_nil in Hin|done].
Qed.

(** One field gets its copy. *)
Lemma field_step T g f don hk k :
  Refreshes T g → assoc f fts = Some T → f ∉ don →
  (∀ hk', Progress (f :: don) hk' → Completes hk' k) →
  Progress don hk → Completes hk (g (src.>f) (dst.>f) ;; k).
Proof using Hne Hs Hd Hv Hnd.
  intros Hg Hf Hdon Hk (cur & hn & -> & Hdis & Hnames & Hcur).
  destruct (assoc_FieldView _ _ _ _ Hv Hf) as (v & t & Hfv & Ht & Hview).
  destruct (assoc_names fvs cur f v) as [c Hc]; [done..|].
  pose proof (Hcur f c Hc) as Hcv. rewrite decide_False in Hcv by done.
  assert (c = v) as -> by congruence.
  set (hk := upd dst (VStruct cur) h ∪ hn).
  assert (Hdst : load hk dst = Some (VStruct cur)) by by eapply load_after_dst.
  destruct (Hg hk (src.>f) (dst.>f) v t) as (v' & hn' & Hrun & Hdis' & Hv'); simpl.
  - done.
  - rewrite (load_field _ _ _ fvs); [done|]. by apply load_after.
  - by rewrite (load_field _ _ _ cur).
  - eapply view_mono; [|done]. apply delete_after_sub. by right.
  - destruct (Hk (upd dst (VStruct (assoc_alter (λ _, v') f cur)) h ∪ (hn ∪ hn'))) as (u & hf & Hfin).
    + apply map_disjoint_union_r in Hdis' as [Hd1%upd_disjoint Hd2].
      exists (assoc_alter (λ _, v') f cur), (hn ∪ hn'). split_and!.
      * done.
      * by apply map_disjoint_union_l_2.
      * by rewrite assoc_alter_names.
      * intros f' x. destruct (decide (f = f')) as [<-|Hff].
        -- rewrite assoc_alter_eq, Hc, decide_True by set_solver. intros [= <-].
           exists T, t. split_and!; [done..|]. eapply view_mono; [|done]. by apply map_union_subseteq_r.
        -- rewrite assoc_alter_ne by done. intros Hx. specialize (Hcur f' x Hx).
           destruct (decide (f' ∈ don)) as [Hin|Hin].
           ++ rewrite decide_True by set_solver. destruct Hcur as (T' & t' & ? & ? & ?).
              exists T', t'. split_and!; [done..|]. eapply view_mono; [|done]. apply map_union_subseteq_l.
           ++ by rewrite decide_False by set_solver.
    + exists u, hf. rewrite (bind_step _ _ _ _ _ Hrun). unfold hk.
      rewrite (upd_union (upd dst (VStruct cur) h) hn (dst.>f) v) by
        (by rewrite (load_field _ _ _ cur) by by eapply load_upd_eq).
      by rewrite (upd_upd_field _ _ _ _ _ _ Hd), <-(assoc_L (∪)).
Qed.

(** Every field has its copy, or needs none. *)
Lemma struct_done don hk :
  forallb (λ ft, bool_decide (ft.1 ∈ don) || flat ft.2) fts = true →
  Progress don hk → Completes hk (mret tt).
Proof using Hv Hnd.
  intros Hall (cur & hn & -> & Hdis & Hnames & Hcur).
  exists (VStruct cur), hn. split; [done|]. split; [done|]. apply view_struct.
  exists cur, tts. do 2 (split; [done|]). apply FieldView_assoc; [done|..].
  { by rewrite Hnames, (Forall3_names _ _ _ _ Hv). }
  { by rewrite (Forall3_names_tree _ _ _ _ Hv). }
  intros f T v t HT Hfc Htt. specialize (Hcur f v Hfc).
  case_decide as Hin; [destruct Hcur as (?&?&?&?&?); by simplify_eq|].
  destruct (assoc_FieldView _ _ _ _ Hv HT) as (v0 & t0 & Hv0 & Ht0 & Hview). simplify_eq.
  rewrite forallb_forall in Hall. specialize (Hall (f, T) (assoc_In _ _ _ HT)). simpl in Hall.
  rewrite bool_decide_false in Hall by done.
  eapply view_mono; [apply map_empty_subseteq|]. by eapply view_flat.
Qed.

(** The same with the last field's step at the end. *)
Lemma field_last T g f don hk :
  Refreshes T g → assoc f fts = Some T → f ∉ don →
  forallb (λ ft, bool_decide (ft.1 ∈ f :: don) || flat ft.2) fts = true →
  Progress don hk → Completes hk (g (src.>f) (dst.>f)).
Proof using Hne Hs Hd Hv Hnd.
  intros Hg Hf Hdon Hall Hp.
  destruct (field_step T g f don hk (mret tt)) as (v' & hn & Hrun & ?); [done..| |done|].
  - intros hk'. by apply struct_done.
  - exists v', hn. by rewrite bind_ret_tt in Hrun.
Qed.
End struct.

(** ** Rules for the body of a [DeepCopyInto]

    [Finishes fts don body]: run after the shallow assignment and the copies of
    the fields [don], [body] completes the copy of the struct. *)
Definition Finishes (fts : list (string * ty)) (don : list string) (body : addr → addr → M unit) : Prop :=
  ∀ h src dst fvs tts w hk, src.1 ≠ dst.1 →
    load h src = Some (VStruct fvs) → load h dst = Some w →
    Forall3 (FieldView (delete dst.1 h)) fts fvs tts → NoDup fts.*1 →
    Progress fts h dst fvs tts don hk → Completes fts h dst tts hk (body src dst).

(** The fields that still share memory with the source. *)
Definition remaining (fts : list (string * ty)) (don : list string) : list (string * ty) :=
  filter (λ ft, bool_decide (ft.1 ∈ don) || flat ft.2 = false) fts.

Lemma remaining_nil fts don :
  remaining fts don = [] → forallb (λ ft, bool_decide (ft.1 ∈ don) || flat ft.2) fts = true.
Proof.
  intros E. apply forallb_forall. intros ft Hft%list_elem_of_In.
  destruct (bool_decide (ft.1 ∈ don) || flat ft.2) eqn:Eb; [done|]. exfalso.
  assert (ft ∈ remaining fts don) as H by by apply list_elem_of_filter.
  rewrite E in H. by apply not_elem_of_nil in H.
Qed.

Lemma Finishes_step fts don f T g k :
  assoc f fts = Some T → Refreshes T g → bool_decide (f ∈ don) = false →
  Finishes fts (f :: don) k → Finishes fts don (λ s d, g (s.>f) (d.>f);; k s d).
Proof.
  intros Hf Hg Hdon%bool_decide_eq_false Hk h src dst fvs tts w hk Hne Hs Hd Hv Hnd Hp.
  eapply field_step; eauto.
Qed.

Lemma Finishes_last fts don f T g :
  assoc f fts = Some T → Refreshes T g → bool_decide (f ∈ don) = false →
  remaining fts (f :: don) = [] → Finishes fts don (λ s d, g (s.>f) (d.>f)).
Proof.
  intros Hf Hg Hdon%bool_decide_eq_false Hr%remaining_nil h src dst fvs tts w hk Hne Hs Hd Hv Hnd Hp.
  eapply field_last; eauto.
Qed.

(** [out.f = in.f] of a flat type *)
Lemma Finishes_assign fts don f T k :
  assoc f fts = Some T → flat T = true → bool_decide (f ∈ don) = false →
  Finishes fts (f :: don) k → Finishes fts don (λ s d, assign (d.>f) (s.>f);; k s d).
Proof.
  intros Hf Hflat Hdon Hk.
  apply (Finishes_step fts don f T (λ s d, assign d s)); [done| |done..].
  by apply Copies_Refreshes, assign_Copies.
Qed.

Lemma Finishes_assign_last fts don f T :
  assoc f fts = Some T → flat T = true → bool_decide (f ∈ don) = false →
  remaining fts (f :: don) = [] → Finishes fts don (λ s d, assign (d.>f) (s.>f)).
Proof.
  intros Hf Hflat Hdon Hr. apply (Finishes_last fts don f T (λ s d, assign d s)); [done| |done..].
  by apply Copies_Refreshes, assign_Copies.
Qed.

(** [*out = *in] and then the rest of the body *)
Lemma struct_Copies fts body :
  bool_decide (NoDup fts.*1) = true → Finishes fts [] body →
  Copies (TStruct fts) (λ s d, assign d s;; body s d).
Proof.
  intros Hnd%bool_decide_eq_true Hbody h src dst v w t Hne Hs Hd Ht.
  apply view_struct in Ht as (fvs & tts & -> & -> & Hv).
  rewrite (bind_step _ _ _ _ _ (assign_run _ _ _ _ _ Hs Hd)).
  eapply (Hbody h src dst fvs tts w); eauto. apply Progress_start.
Qed.

Create HintDb copies.
#[export] Hint Constants Opaque : copies.
#[export] Hint Resolve copyPointer_Refreshes copyPointerBy_Refreshes copySlice_Refreshes
  copySliceFlat_Refreshes deepCopy_CopiesPtr assign_Copies : copies.
#[export] Hint Extern 5 (Refreshes _ _) => apply Copies_Refreshes : copies.
#[export] Hint Extern 1 (flat _ = true) => reflexivity : copies.

(** Prove that a generated [DeepCopyInto] copies: one rule per statement. *)
Ltac struct_copy into :=
  unfold into;
  lazymatch goal with
  | |- Copies _ (λ s d, assign d s) => apply assign_Copies; solve [eauto with copies]
  | |- _ => apply struct_Copies; [reflexivity|];
      repeat lazymatch goal with
      | |- Finishes _ _ (λ s d, assign (@?a s d) (@?b s d) ≫= @?k s d) =>
          eapply Finishes_assign; [reflexivity|solve [eauto with copies]|reflexivity|]
      | |- Finishes _ _ (λ s d, @?m s d ≫= @?k s d) =>
          eapply Finishes_step; [reflexivity|solve [eauto with copies]|reflexivity|]
      | |- Finishes _ _ (λ s d, assign (@?a s d) (@?b s d)) =>
          eapply Finishes_assign_last;
            [reflexivity|solve [eauto with copies]|reflexivity|reflexivity]
      | |- Finishes _ _ _ =>
          eapply Finishes_last; [reflexivity|solve [eauto with copies]|reflexivity|reflexivity]
      end
  end.

(** ** What a caller may rely on *)

(** After a deep copy, writes through the copy never show in the original, and
    writes to the original never show in the copy: whatever [h'] the program
    reaches by changing only memory the copy brought, the original reads as
    before, and whatever it reaches by changing only memory that existed before,
    the copy reads as before. *)
Lemma CopiesPtr_isolated T f h v t :
  CopiesPtr T f → view (TPtr T) h v = Some t →
  ∃ v' h1, f v h = Some (v', h1) ∧ view (TPtr T) h1 v' = Some t ∧ view (TPtr T) h1 v = Some t ∧
    (∀ h', (∀ l, l ∈ dom h → h' !! l = h1 !! l) → view (TPtr T) h' v = Some t) ∧
    (∀ h', (∀ l, l ∉ dom h → h' !! l = h1 !! l) → view (TPtr T) h' v' = Some t).
Proof.
  intros Hf Ht. destruct (Hf h v t Ht) as (v' & hn & Hrun & Hdis & Hview).
  exists v', (h ∪ hn). split_and!.
  - done.
  - eapply view_mono; [|exact Hview]. by apply map_union_subseteq_r.
  - eapply view_mono; [|exact Ht]. apply map_union_subseteq_l.
  - intros h' Hh'. eapply view_mono; [|exact Ht]. apply map_subseteq_spec. intros l x Hx.
    rewrite Hh' by by eapply elem_of_dom_2. by apply lookup_union_Some_l.
  - intros h' Hh'. eapply view_mono; [|exact Hview]. apply map_subseteq_spec. intros l x Hx.
    rewrite Hh'; [by apply lookup_union_Some_r|].
    apply not_elem_of_dom. by eapply map_disjoint_Some_l.
Qed.
