(* ===== verification/DeepCopy.v ===== *)
(** * The generated deep copies

    [api/v1alpha1/zz_generated.deepcopy.go], in the memory model of [GoHeap]: for
    each API type its layout ([_ty], from the struct declarations), its
    [DeepCopyInto] and [DeepCopy], and for the six root types [DeepCopyObject].  A
    statement of the source is a statement here; the five shapes that controller-gen
    emits for a field (assignment, [DeepCopyInto] of an embedded struct, a pointer, a
    slice of structs, a slice of flat elements) are the idioms of [GoHeap].  Where
    the source rebinds [in] and [out] to a field, the addresses are spelled out.

    The Kubernetes metadata types and their copies are not part of the repository:
    [MetaV1] holds them as parameters and [MetaV1Ok] says that they copy.

    The executor and the scanner compare or patch against such copies (the base of a
    merge patch, the status before a change, the status cache entry handed to a
    second caller), which is sound because a copy shares no memory with its source:
    the theorem of this file. *)
From S2P Require Import Prelude GoHeap.

(** ** Kubernetes metadata *)

Record MetaV1 := mkMetaV1 {
  TypeMeta_ty : ty;
  Duration_ty : ty;
  ObjectMeta_ty : ty;
  ListMeta_ty : ty;
  Time_ty : ty;
  Condition_ty : ty;
  LabelSelector_ty : ty;
  ObjectMeta_DeepCopyInto : addr → addr → M unit;
  ListMeta_DeepCopyInto : addr → addr → M unit;
  Time_DeepCopyInto : addr → addr → M unit;
  Time_DeepCopy : val → M val;
  Condition_DeepCopyInto : addr → addr → M unit;
  LabelSelector_DeepCopyInto : addr → addr → M unit
}.

(** Documented behaviour: type metadata and durations hold no reference, and the
    metadata types copy deeply. *)
Class MetaV1Ok (mv : MetaV1) : Prop := {
  TypeMeta_flat : flat (TypeMeta_ty mv) = true;
  Duration_flat : flat (Duration_ty mv) = true;
  ObjectMeta_Copies : Copies (ObjectMeta_ty mv) (ObjectMeta_DeepCopyInto mv);
  ListMeta_Copies : Copies (ListMeta_ty mv) (ListMeta_DeepCopyInto mv);
  Time_Copies : Copies (Time_ty mv) (Time_DeepCopyInto mv);
  Time_CopiesPtr : CopiesPtr (Time_ty mv) (Time_DeepCopy mv);
  Condition_Copies : Copies (Condition_ty mv) (Condition_DeepCopyInto mv);
  LabelSelector_Copies : Copies (LabelSelector_ty mv) (LabelSelector_DeepCopyInto mv)
}.
#[export] Hint Resolve TypeMeta_flat Duration_flat ObjectMeta_Copies ListMeta_Copies Time_Copies
  Time_CopiesPtr Condition_Copies LabelSelector_Copies : copies.

(** ** The generated routines *)
Section generated.
Context (mv : MetaV1).

(** *** ControllerReference *)
Definition ControllerReference_ty : ty := TStruct [
  ("APIVersion", TString); ("Kind", TString); ("Namespace", TString); ("Name", TString)].
Definition ControllerReference_DeepCopyInto (inp out : addr) : M unit :=
  assign out inp.
Definition ControllerReference_DeepCopy (inp : val) : M val :=
  deepCopy ControllerReference_ty ControllerReference_DeepCopyInto inp.

(** *** DiagnosisPolicy *)
Definition DiagnosisPolicy_ty : ty := TStruct [
  ("CheckAPIServices", TBool); ("CheckWebhooks", TBool); ("MaxNamespaceObjects", TInt);
   ("MaxCRDInstances", TInt)].
Definition DiagnosisPolicy_DeepCopyInto (inp out : addr) : M unit :=
  assign out inp.
Definition DiagnosisPolicy_DeepCopy (inp : val) : M val :=
  deepCopy DiagnosisPolicy_ty DiagnosisPolicy_DeepCopyInto inp.

(** *** FinalizerOwner *)
Definition FinalizerOwner_ty : ty := TStruct [
  ("Finalizer", TString); ("ControllerRef", ControllerReference_ty)].
Definition FinalizerOwner_DeepCopyInto (inp out : addr) : M unit :=
  assign out inp;;
  assign out.>"ControllerRef" inp.>"ControllerRef".
Definition FinalizerOwner_DeepCopy (inp : val) : M val :=
  deepCopy FinalizerOwner_ty FinalizerOwner_DeepCopyInto inp.

(** *** ObjectIdentityReference *)
Definition ObjectIdentityReference_ty : ty := TStruct [
  ("Name", TString); ("UID", TString)].
Definition ObjectIdentityReference_DeepCopyInto (inp out : addr) : M unit :=
  assign out inp.
Definition ObjectIdentityReference_DeepCopy (inp : val) : M val :=
  deepCopy ObjectIdentityReference_ty ObjectIdentityReference_DeepCopyInto inp.

(** *** PolicyReference *)
Definition PolicyReference_ty : ty := TStruct [
  ("Name", TString); ("UID", TString); ("Generation", TInt)].
Definition PolicyReference_DeepCopyInto (inp out : addr) : M unit :=
  assign out inp.
Definition PolicyReference_DeepCopy (inp : val) : M val :=
  deepCopy PolicyReference_ty PolicyReference_DeepCopyInto inp.

(** *** TargetReference *)
Definition TargetReference_ty : ty := TStruct [
  ("APIGroup", TString); ("Version", TString); ("Resource", TString); ("Kind", TString);
   ("Namespace", TString); ("Name", TString); ("UID", TString)].
Definition TargetReference_DeepCopyInto (inp out : addr) : M unit :=
  assign out inp.
Definition TargetReference_DeepCopy (inp : val) : M val :=
  deepCopy TargetReference_ty TargetReference_DeepCopyInto inp.

(** *** RemediationAction *)
Definition RemediationAction_ty : ty := TStruct [
  ("ID", TString); ("Type", TString); ("Risk", TString); ("Target", TargetReference_ty);
   ("Finalizer", TString); ("Eligible", TBool); ("IneligibleReason", TString);
   ("PreconditionResourceVersion", TString); ("Reason", TString)].
Definition RemediationAction_DeepCopyInto (inp out : addr) : M unit :=
  assign out inp;;
  assign out.>"Target" inp.>"Target".
Definition RemediationAction_DeepCopy (inp : val) : M val :=
  deepCopy RemediationAction_ty RemediationAction_DeepCopyInto inp.

(** *** Finding *)
Definition Finding_ty : ty := TStruct [
  ("ID", TString); ("Type", TString); ("Message", TString);
   ("ResourceRef", TPtr TargetReference_ty); ("Finalizer", TString); ("APIService", TString);
   ("Webhook", TString); ("ControllerRef", TPtr ControllerReference_ty); ("Count", TPtr TInt);
   ("Truncated", TBool)].
Definition Finding_DeepCopyInto (inp out : addr) : M unit :=
  assign out inp;;
  copyPointer TargetReference_ty (λ s d, assign d s) inp.>"ResourceRef" out.>"ResourceRef";;
  copyPointer ControllerReference_ty (λ s d, assign d s) inp.>"ControllerRef" out.>"ControllerRef";;
  copyPointer TInt (λ s d, assign d s) inp.>"Count" out.>"Count".
Definition Finding_DeepCopy (inp : val) : M val :=
  deepCopy Finding_ty Finding_DeepCopyInto inp.

(** *** TargetSnapshot *)
Definition TargetSnapshot_ty : ty := TStruct [
  ("ResourceVersion", TString); ("MetadataFinalizers", TSlice TString);
   ("NamespaceFinalizers", TSlice TString)].
Definition TargetSnapshot_DeepCopyInto (inp out : addr) : M unit :=
  assign out inp;;
  copySliceFlat TString inp.>"MetadataFinalizers" out.>"MetadataFinalizers";;
  copySliceFlat TString inp.>"NamespaceFinalizers" out.>"NamespaceFinalizers".
Definition TargetSnapshot_DeepCopy (inp : val) : M val :=
  deepCopy TargetSnapshot_ty TargetSnapshot_DeepCopyInto inp.

(** *** RemediationPolicy *)
Definition RemediationPolicy_ty : ty := TStruct [
  ("MaxRisk", TString); ("AllowedFinalizers", TSlice TString); ("AllowNamespaceForce", TBool);
   ("ApprovalTTL", Duration_ty mv)].
Definition RemediationPolicy_DeepCopyInto (inp out : addr) : M unit :=
  assign out inp;;
  copySliceFlat TString inp.>"AllowedFinalizers" out.>"AllowedFinalizers";;
  assign out.>"ApprovalTTL" inp.>"ApprovalTTL".
Definition RemediationPolicy_DeepCopy (inp : val) : M val :=
  deepCopy RemediationPolicy_ty RemediationPolicy_DeepCopyInto inp.

(** *** RetentionPolicy *)
Definition RetentionPolicy_ty : ty := TStruct [
  ("ResolvedIncidentTTL", Duration_ty mv)].
Definition RetentionPolicy_DeepCopyInto (inp out : addr) : M unit :=
  assign out inp;;
  assign out.>"ResolvedIncidentTTL" inp.>"ResolvedIncidentTTL".
Definition RetentionPolicy_DeepCopy (inp : val) : M val :=
  deepCopy RetentionPolicy_ty RetentionPolicy_DeepCopyInto inp.

(** *** TargetRule *)
Definition TargetRule_ty : ty := TStruct [
  ("APIGroups", TSlice TString); ("Resources", TSlice TString);
   ("NamespaceSelector", TPtr (LabelSelector_ty mv));
   ("ObjectSelector", TPtr (LabelSelector_ty mv)); ("ExcludedNamespaces", TSlice TString)].
Definition TargetRule_DeepCopyInto (inp out : addr) : M unit :=
  assign out inp;;
  copySliceFlat TString inp.>"APIGroups" out.>"APIGroups";;
  copySliceFlat TString inp.>"Resources" out.>"Resources";;
  copyPointer (LabelSelector_ty mv) (LabelSelector_DeepCopyInto mv) inp.>"NamespaceSelector" out.>"NamespaceSelector";;
  copyPointer (LabelSelector_ty mv) (LabelSelector_DeepCopyInto mv) inp.>"ObjectSelector" out.>"ObjectSelector";;
  copySliceFlat TString inp.>"ExcludedNamespaces" out.>"ExcludedNamespaces".
Definition TargetRule_DeepCopy (inp : val) : M val :=
  deepCopy TargetRule_ty TargetRule_DeepCopyInto inp.

(** *** TerminationPolicySpec *)
Definition TerminationPolicySpec_ty : ty := TStruct [
  ("Priority", TInt); ("TargetRules", TSlice TargetRule_ty); ("TerminationAge", Duration_ty mv);
   ("Diagnosis", DiagnosisPolicy_ty); ("FinalizerOwners", TSlice FinalizerOwner_ty);
   ("Remediation", RemediationPolicy_ty); ("Retention", RetentionPolicy_ty)].
Definition TerminationPolicySpec_DeepCopyInto (inp out : addr) : M unit :=
  assign out inp;;
  copySlice TargetRule_ty TargetRule_DeepCopyInto inp.>"TargetRules" out.>"TargetRules";;
  assign out.>"TerminationAge" inp.>"TerminationAge";;
  assign out.>"Diagnosis" inp.>"Diagnosis";;
  copySliceFlat FinalizerOwner_ty inp.>"FinalizerOwners" out.>"FinalizerOwners";;
  RemediationPolicy_DeepCopyInto inp.>"Remediation" out.>"Remediation";;
  assign out.>"Retention" inp.>"Retention".
Definition TerminationPolicySpec_DeepCopy (inp : val) : M val :=
  deepCopy TerminationPolicySpec_ty TerminationPolicySpec_DeepCopyInto inp.

(** *** TerminationPolicyStatus *)
Definition TerminationPolicyStatus_ty : ty := TStruct [
  ("ObservedGeneration", TInt); ("Conditions", TSlice (Condition_ty mv));
   ("LastValidatedTime", TPtr (Time_ty mv)); ("ResolvedResourceCount", TInt)].
Definition TerminationPolicyStatus_DeepCopyInto (inp out : addr) : M unit :=
  assign out inp;;
  copySlice (Condition_ty mv) (Condition_DeepCopyInto mv) inp.>"Conditions" out.>"Conditions";;
  copyPointerBy (Time_DeepCopy mv) inp.>"LastValidatedTime" out.>"LastValidatedTime".
Definition TerminationPolicyStatus_DeepCopy (inp : val) : M val :=
  deepCopy TerminationPolicyStatus_ty TerminationPolicyStatus_DeepCopyInto inp.

(** *** TerminationPolicy *)
Definition TerminationPolicy_ty : ty := TStruct [
  ("TypeMeta", TypeMeta_ty mv); ("ObjectMeta", ObjectMeta_ty mv);
   ("Spec", TerminationPolicySpec_ty); ("Status", TerminationPolicyStatus_ty)].
Definition TerminationPolicy_DeepCopyInto (inp out : addr) : M unit :=
  assign out inp;;
  assign out.>"TypeMeta" inp.>"TypeMeta";;
  ObjectMeta_DeepCopyInto mv inp.>"ObjectMeta" out.>"ObjectMeta";;
  TerminationPolicySpec_DeepCopyInto inp.>"Spec" out.>"Spec";;
  TerminationPolicyStatus_DeepCopyInto inp.>"Status" out.>"Status".
Definition TerminationPolicy_DeepCopy (inp : val) : M val :=
  deepCopy TerminationPolicy_ty TerminationPolicy_DeepCopyInto inp.
Definition TerminationPolicy_DeepCopyObject (inp : val) : M (option val) :=
  c ← TerminationPolicy_DeepCopy inp; if isNil c then mret None else mret (Some c).

(** *** TerminationPolicyList *)
Definition TerminationPolicyList_ty : ty := TStruct [
  ("TypeMeta", TypeMeta_ty mv); ("ListMeta", ListMeta_ty mv);
   ("Items", TSlice TerminationPolicy_ty)].
Definition TerminationPolicyList_DeepCopyInto (inp out : addr) : M unit :=
  assign out inp;;
  assign out.>"TypeMeta" inp.>"TypeMeta";;
  ListMeta_DeepCopyInto mv inp.>"ListMeta" out.>"ListMeta";;
  copySlice TerminationPolicy_ty TerminationPolicy_DeepCopyInto inp.>"Items" out.>"Items".
Definition TerminationPolicyList_DeepCopy (inp : val) : M val :=
  deepCopy TerminationPolicyList_ty TerminationPolicyList_DeepCopyInto inp.
Definition TerminationPolicyList_DeepCopyObject (inp : val) : M (option val) :=
  c ← TerminationPolicyList_DeepCopy inp; if isNil c then mret None else mret (Some c).

(** *** DeletionIncidentSpec *)
Definition DeletionIncidentSpec_ty : ty := TStruct [
  ("Target", TargetReference_ty); ("FirstObservedTime", Time_ty mv)].
Definition DeletionIncidentSpec_DeepCopyInto (inp out : addr) : M unit :=
  assign out inp;;
  assign out.>"Target" inp.>"Target";;
  Time_DeepCopyInto mv inp.>"FirstObservedTime" out.>"FirstObservedTime".
Definition DeletionIncidentSpec_DeepCopy (inp : val) : M val :=
  deepCopy DeletionIncidentSpec_ty DeletionIncidentSpec_DeepCopyInto inp.

(** *** DeletionIncidentStatus *)
Definition DeletionIncidentStatus_ty : ty := TStruct [
  ("Phase", TString); ("ActivePolicyRef", TPtr PolicyReference_ty);
   ("DeletionTimestamp", TPtr (Time_ty mv)); ("LastObservedTime", TPtr (Time_ty mv));
   ("ActionEvidenceTime", TPtr (Time_ty mv)); ("ActionEvidenceExpiresTime", TPtr (Time_ty mv));
   ("ResolvedTime", TPtr (Time_ty mv)); ("ResolutionReason", TString);
   ("TargetSnapshot", TargetSnapshot_ty); ("Findings", TSlice Finding_ty);
   ("RecommendedActions", TSlice RemediationAction_ty); ("Conditions", TSlice (Condition_ty mv))].
Definition DeletionIncidentStatus_DeepCopyInto (inp out : addr) : M unit :=
  assign out inp;;
  copyPointer PolicyReference_ty (λ s d, assign d s) inp.>"ActivePolicyRef" out.>"ActivePolicyRef";;
  copyPointerBy (Time_DeepCopy mv) inp.>"DeletionTimestamp" out.>"DeletionTimestamp";;
  copyPointerBy (Time_DeepCopy mv) inp.>"LastObservedTime" out.>"LastObservedTime";;
  copyPointerBy (Time_DeepCopy mv) inp.>"ActionEvidenceTime" out.>"ActionEvidenceTime";;
  copyPointerBy (Time_DeepCopy mv) inp.>"ActionEvidenceExpiresTime" out.>"ActionEvidenceExpiresTime";;
  copyPointerBy (Time_DeepCopy mv) inp.>"ResolvedTime" out.>"ResolvedTime";;
  TargetSnapshot_DeepCopyInto inp.>"TargetSnapshot" out.>"TargetSnapshot";;
  copySlice Finding_ty Finding_DeepCopyInto inp.>"Findings" out.>"Findings";;
  copySliceFlat RemediationAction_ty inp.>"RecommendedActions" out.>"RecommendedActions";;
  copySlice (Condition_ty mv) (Condition_DeepCopyInto mv) inp.>"Conditions" out.>"Conditions".
Definition DeletionIncidentStatus_DeepCopy (inp : val) : M val :=
  deepCopy DeletionIncidentStatus_ty DeletionIncidentStatus_DeepCopyInto inp.

(** *** DeletionIncident *)
Definition DeletionIncident_ty : ty := TStruct [
  ("TypeMeta", TypeMeta_ty mv); ("ObjectMeta", ObjectMeta_ty mv);
   ("Spec", DeletionIncidentSpec_ty); ("Status", DeletionIncidentStatus_ty)].
Definition DeletionIncident_DeepCopyInto (inp out : addr) : M unit :=
  assign out inp;;
  assign out.>"TypeMeta" inp.>"TypeMeta";;
  ObjectMeta_DeepCopyInto mv inp.>"ObjectMeta" out.>"ObjectMeta";;
  DeletionIncidentSpec_DeepCopyInto inp.>"Spec" out.>"Spec";;
  DeletionIncidentStatus_DeepCopyInto inp.>"Status" out.>"Status".
Definition DeletionIncident_DeepCopy (inp : val) : M val :=
  deepCopy DeletionIncident_ty DeletionIncident_DeepCopyInto inp.
Definition DeletionIncident_DeepCopyObject (inp : val) : M (option val) :=
  c ← DeletionIncident_DeepCopy inp; if isNil c then mret None else mret (Some c).

(** *** DeletionIncidentList *)
Definition DeletionIncidentList_ty : ty := TStruct [
  ("TypeMeta", TypeMeta_ty mv); ("ListMeta", ListMeta_ty mv); ("Items", TSlice DeletionIncident_ty)].
Definition DeletionIncidentList_DeepCopyInto (inp out : addr) : M unit :=
  assign out inp;;
  assign out.>"TypeMeta" inp.>"TypeMeta";;
  ListMeta_DeepCopyInto mv inp.>"ListMeta" out.>"ListMeta";;
  copySlice DeletionIncident_ty DeletionIncident_DeepCopyInto inp.>"Items" out.>"Items".
Definition DeletionIncidentList_DeepCopy (inp : val) : M val :=
  deepCopy DeletionIncidentList_ty DeletionIncidentList_DeepCopyInto inp.
Definition DeletionIncidentList_DeepCopyObject (inp : val) : M (option val) :=
  c ← DeletionIncidentList_DeepCopy inp; if isNil c then mret None else mret (Some c).

(** *** RemediationApprovalSpec *)
Definition RemediationApprovalSpec_ty : ty := TStruct [
  ("IncidentRef", ObjectIdentityReference_ty); ("ActionID", TString); ("DryRun", TBool);
   ("Reason", TString)].
Definition RemediationApprovalSpec_DeepCopyInto (inp out : addr) : M unit :=
  assign out inp;;
  assign out.>"IncidentRef" inp.>"IncidentRef".
Definition RemediationApprovalSpec_DeepCopy (inp : val) : M val :=
  deepCopy RemediationApprovalSpec_ty RemediationApprovalSpec_DeepCopyInto inp.

(** *** RemediationAttempt *)
Definition RemediationAttempt_ty : ty := TStruct [
  ("Time", Time_ty mv); ("ActionType", TString); ("DryRun", TBool);
   ("ResourceVersionBefore", TString); ("ResourceVersionAfter", TString); ("Result", TString);
   ("ErrorReason", TString); ("Message", TString)].
Definition RemediationAttempt_DeepCopyInto (inp out : addr) : M unit :=
  assign out inp;;
  Time_DeepCopyInto mv inp.>"Time" out.>"Time".
Definition RemediationAttempt_DeepCopy (inp : val) : M val :=
  deepCopy RemediationAttempt_ty RemediationAttempt_DeepCopyInto inp.

(** *** RemediationApprovalStatus *)
Definition RemediationApprovalStatus_ty : ty := TStruct [
  ("Phase", TString); ("Result", TString); ("ObservedGeneration", TInt);
   ("StartedTime", TPtr (Time_ty mv)); ("CompletedTime", TPtr (Time_ty mv));
   ("Action", TPtr RemediationAction_ty); ("Attempts", TSlice RemediationAttempt_ty);
   ("Conditions", TSlice (Condition_ty mv))].
Definition RemediationApprovalStatus_DeepCopyInto (inp out : addr) : M unit :=
  assign out inp;;
  copyPointerBy (Time_DeepCopy mv) inp.>"StartedTime" out.>"StartedTime";;
  copyPointerBy (Time_DeepCopy mv) inp.>"CompletedTime" out.>"CompletedTime";;
  copyPointer RemediationAction_ty (λ s d, assign d s) inp.>"Action" out.>"Action";;
  copySlice RemediationAttempt_ty RemediationAttempt_DeepCopyInto inp.>"Attempts" out.>"Attempts";;
  copySlice (Condition_ty mv) (Condition_DeepCopyInto mv) inp.>"Conditions" out.>"Conditions".
Definition RemediationApprovalStatus_DeepCopy (inp : val) : M val :=
  deepCopy RemediationApprovalStatus_ty RemediationApprovalStatus_DeepCopyInto inp.

(** *** RemediationApproval *)
Definition RemediationApproval_ty : ty := TStruct [
  ("TypeMeta", TypeMeta_ty mv); ("ObjectMeta", ObjectMeta_ty mv);
   ("Spec", RemediationApprovalSpec_ty); ("Status", RemediationApprovalStatus_ty)].
Definition RemediationApproval_DeepCopyInto (inp out : addr) : M unit :=
  assign out inp;;
  assign out.>"TypeMeta" inp.>"TypeMeta";;
  ObjectMeta_DeepCopyInto mv inp.>"ObjectMeta" out.>"ObjectMeta";;
  assign out.>"Spec" inp.>"Spec";;
  RemediationApprovalStatus_DeepCopyInto inp.>"Status" out.>"Status".
Definition RemediationApproval_DeepCopy (inp : val) : M val :=
  deepCopy RemediationApproval_ty RemediationApproval_DeepCopyInto inp.
Definition RemediationApproval_DeepCopyObject (inp : val) : M (option val) :=
  c ← RemediationApproval_DeepCopy inp; if isNil c then mret None else mret (Some c).

(** *** RemediationApprovalList *)
Definition RemediationApprovalList_ty : ty := TStruct [
  ("TypeMeta", TypeMeta_ty mv); ("ListMeta", ListMeta_ty mv);
   ("Items", TSlice RemediationApproval_ty)].
Definition RemediationApprovalList_DeepCopyInto (inp out : addr) : M unit :=
  assign out inp;;
  assign out.>"TypeMeta" inp.>"TypeMeta";;
  ListMeta_DeepCopyInto mv inp.>"ListMeta" out.>"ListMeta";;
  copySlice RemediationApproval_ty RemediationApproval_DeepCopyInto inp.>"Items" out.>"Items".
Definition RemediationApprovalList_DeepCopy (inp : val) : M val :=
  deepCopy RemediationApprovalList_ty RemediationApprovalList_DeepCopyInto inp.
Definition RemediationApprovalList_DeepCopyObject (inp : val) : M (option val) :=
  c ← RemediationApprovalList_DeepCopy inp; if isNil c then mret None else mret (Some c).
(** Every generated [DeepCopy] with the layout of its type. *)
Definition generated : list (ty * (val → M val)) :=
  [(ControllerReference_ty, ControllerReference_DeepCopy);
   (DiagnosisPolicy_ty, DiagnosisPolicy_DeepCopy);
   (FinalizerOwner_ty, FinalizerOwner_DeepCopy);
   (ObjectIdentityReference_ty, ObjectIdentityReference_DeepCopy);
   (PolicyReference_ty, PolicyReference_DeepCopy);
   (TargetReference_ty, TargetReference_DeepCopy);
   (RemediationAction_ty, RemediationAction_DeepCopy);
   (Finding_ty, Finding_DeepCopy);
   (TargetSnapshot_ty, TargetSnapshot_DeepCopy);
   (RemediationPolicy_ty, RemediationPolicy_DeepCopy);
   (RetentionPolicy_ty, RetentionPolicy_DeepCopy);
   (TargetRule_ty, TargetRule_DeepCopy);
   (TerminationPolicySpec_ty, TerminationPolicySpec_DeepCopy);
   (TerminationPolicyStatus_ty, TerminationPolicyStatus_DeepCopy);
   (TerminationPolicy_ty, TerminationPolicy_DeepCopy);
   (TerminationPolicyList_ty, TerminationPolicyList_DeepCopy);
   (DeletionIncidentSpec_ty, DeletionIncidentSpec_DeepCopy);
   (DeletionIncidentStatus_ty, DeletionIncidentStatus_DeepCopy);
   (DeletionIncident_ty, DeletionIncident_DeepCopy);
   (DeletionIncidentList_ty, DeletionIncidentList_DeepCopy);
   (RemediationApprovalSpec_ty, RemediationApprovalSpec_DeepCopy);
   (RemediationAttempt_ty, RemediationAttempt_DeepCopy);
   (RemediationApprovalStatus_ty, RemediationApprovalStatus_DeepCopy);
   (RemediationApproval_ty, RemediationApproval_DeepCopy);
   (RemediationApprovalList_ty, RemediationApprovalList_DeepCopy)].

(** The root types as [runtime.Object]s; [None] is the nil interface. *)
Definition generatedObjects : list (ty * (val → M (option val))) :=
  [(TerminationPolicy_ty, TerminationPolicy_DeepCopyObject);
   (TerminationPolicyList_ty, TerminationPolicyList_DeepCopyObject);
   (DeletionIncident_ty, DeletionIncident_DeepCopyObject);
   (DeletionIncidentList_ty, DeletionIncidentList_DeepCopyObject);
   (RemediationApproval_ty, RemediationApproval_DeepCopyObject);
   (RemediationApprovalList_ty, RemediationApprovalList_DeepCopyObject)].

(** ** Each routine copies *)
Context `{!MetaV1Ok mv}.

Lemma ControllerReference_Copies : Copies ControllerReference_ty ControllerReference_DeepCopyInto.
Proof. struct_copy ControllerReference_DeepCopyInto. Qed.
Local Hint Resolve ControllerReference_Copies : copies.

Lemma DiagnosisPolicy_Copies : Copies DiagnosisPolicy_ty DiagnosisPolicy_DeepCopyInto.
Proof. struct_copy DiagnosisPolicy_DeepCopyInto. Qed.
Local Hint Resolve DiagnosisPolicy_Copies : copies.

Lemma FinalizerOwner_Copies : Copies FinalizerOwner_ty FinalizerOwner_DeepCopyInto.
Proof. struct_copy FinalizerOwner_DeepCopyInto. Qed.
Local Hint Resolve FinalizerOwner_Copies : copies.

Lemma ObjectIdentityReference_Copies : Copies ObjectIdentityReference_ty ObjectIdentityReference_DeepCopyInto.
Proof. struct_copy ObjectIdentityReference_DeepCopyInto. Qed.
Local Hint Resolve ObjectIdentityReference_Copies : copies.

Lemma PolicyReference_Copies : Copies PolicyReference_ty PolicyReference_DeepCopyInto.
Proof. struct_copy PolicyReference_DeepCopyInto. Qed.
Local Hint Resolve PolicyReference_Copies : copies.

Lemma TargetReference_Copies : Copies TargetReference_ty TargetReference_DeepCopyInto.
Proof. struct_copy TargetReference_DeepCopyInto. Qed.
Local Hint Resolve TargetReference_Copies : copies.

Lemma RemediationAction_Copies : Copies RemediationAction_ty RemediationAction_DeepCopyInto.
Proof. struct_copy RemediationAction_DeepCopyInto. Qed.
Local Hint Resolve RemediationAction_Copies : copies.

Lemma Finding_Copies : Copies Finding_ty Finding_DeepCopyInto.
Proof. struct_copy Finding_DeepCopyInto. Qed.
Local Hint Resolve Finding_Copies : copies.

Lemma TargetSnapshot_Copies : Copies TargetSnapshot_ty TargetSnapshot_DeepCopyInto.
Proof. struct_copy TargetSnapshot_DeepCopyInto. Qed.
Local Hint Resolve TargetSnapshot_Copies : copies.

Lemma RemediationPolicy_Copies : Copies RemediationPolicy_ty RemediationPolicy_DeepCopyInto.
Proof. struct_copy RemediationPolicy_DeepCopyInto. Qed.
Local Hint Resolve RemediationPolicy_Copies : copies.

(** Retention is assigned as a whole by the specification that holds it. *)
Lemma RetentionPolicy_flat : flat RetentionPolicy_ty = true.
Proof using MetaV1Ok0. simpl. by rewrite Duration_flat. Qed.
Local Hint Resolve RetentionPolicy_flat : copies.

Lemma RetentionPolicy_Copies : Copies RetentionPolicy_ty RetentionPolicy_DeepCopyInto.
Proof. struct_copy RetentionPolicy_DeepCopyInto. Qed.
Local Hint Resolve RetentionPolicy_Copies : copies.

Lemma TargetRule_Copies : Copies TargetRule_ty TargetRule_DeepCopyInto.
Proof. struct_copy TargetRule_DeepCopyInto. Qed.
Local Hint Resolve TargetRule_Copies : copies.

Lemma TerminationPolicySpec_Copies : Copies TerminationPolicySpec_ty TerminationPolicySpec_DeepCopyInto.
Proof. struct_copy TerminationPolicySpec_DeepCopyInto. Qed.
Local Hint Resolve TerminationPolicySpec_Copies : copies.

Lemma TerminationPolicyStatus_Copies : Copies TerminationPolicyStatus_ty TerminationPolicyStatus_DeepCopyInto.
Proof. struct_copy TerminationPolicyStatus_DeepCopyInto. Qed.
Local Hint Resolve TerminationPolicyStatus_Copies : copies.

Lemma TerminationPolicy_Copies : Copies TerminationPolicy_ty TerminationPolicy_DeepCopyInto.
Proof. struct_copy TerminationPolicy_DeepCopyInto. Qed.
Local Hint Resolve TerminationPolicy_Copies : copies.

Lemma TerminationPolicyList_Copies : Copies TerminationPolicyList_ty TerminationPolicyList_DeepCopyInto.
Proof. struct_copy TerminationPolicyList_DeepCopyInto. Qed.
Local Hint Resolve TerminationPolicyList_Copies : copies.

Lemma DeletionIncidentSpec_Copies : Copies DeletionIncidentSpec_ty DeletionIncidentSpec_DeepCopyInto.
Proof. struct_copy DeletionIncidentSpec_DeepCopyInto. Qed.
Local Hint Resolve DeletionIncidentSpec_Copies : copies.

Lemma DeletionIncidentStatus_Copies : Copies DeletionIncidentStatus_ty DeletionIncidentStatus_DeepCopyInto.
Proof. struct_copy DeletionIncidentStatus_DeepCopyInto. Qed.
Local Hint Resolve DeletionIncidentStatus_Copies : copies.

Lemma DeletionIncident_Copies : Copies DeletionIncident_ty DeletionIncident_DeepCopyInto.
Proof. struct_copy DeletionIncident_DeepCopyInto. Qed.
Local Hint Resolve DeletionIncident_Copies : copies.

Lemma DeletionIncidentList_Copies : Copies DeletionIncidentList_ty DeletionIncidentList_DeepCopyInto.
Proof. struct_copy DeletionIncidentList_DeepCopyInto. Qed.
Local Hint Resolve DeletionIncidentList_Copies : copies.

Lemma RemediationApprovalSpec_Copies : Copies RemediationApprovalSpec_ty RemediationApprovalSpec_DeepCopyInto.
Proof. struct_copy RemediationApprovalSpec_DeepCopyInto. Qed.
Local Hint Resolve RemediationApprovalSpec_Copies : copies.

Lemma RemediationAttempt_Copies : Copies RemediationAttempt_ty RemediationAttempt_DeepCopyInto.
Proof. struct_copy RemediationAttempt_DeepCopyInto. Qed.
Local Hint Resolve RemediationAttempt_Copies : copies.

Lemma RemediationApprovalStatus_Copies : Copies RemediationApprovalStatus_ty RemediationApprovalStatus_DeepCopyInto.
Proof. struct_copy RemediationApprovalStatus_DeepCopyInto. Qed.
Local Hint Resolve RemediationApprovalStatus_Copies : copies.

Lemma RemediationApproval_Copies : Copies RemediationApproval_ty RemediationApproval_DeepCopyInto.
Proof. struct_copy RemediationApproval_DeepCopyInto. Qed.
Local Hint Resolve RemediationApproval_Copies : copies.

Lemma RemediationApprovalList_Copies : Copies RemediationApprovalList_ty RemediationApprovalList_DeepCopyInto.
Proof. struct_copy RemediationApprovalList_DeepCopyInto. Qed.
Local Hint Resolve RemediationApprovalList_Copies : copies.

(** One entry of the table. *)
Lemma CopiesPtr_cons T f l :
  Copies T f → Forall (λ Tf, CopiesPtr Tf.1 Tf.2) l →
  Forall (λ Tf, CopiesPtr Tf.1 Tf.2) ((T, deepCopy T f) :: l).
Proof using. intros Hf Hl. constructor; [by apply deepCopy_CopiesPtr|done]. Qed.

Lemma generated_CopiesPtr : Forall (λ Tf, CopiesPtr Tf.1 Tf.2) generated.
Proof using MetaV1Ok0.
  apply (CopiesPtr_cons _ _ _ ControllerReference_Copies).
  apply (CopiesPtr_cons _ _ _ DiagnosisPolicy_Copies).
  apply (CopiesPtr_cons _ _ _ FinalizerOwner_Copies).
  apply (CopiesPtr_cons _ _ _ ObjectIdentityReference_Copies).
  apply (CopiesPtr_cons _ _ _ PolicyReference_Copies).
  apply (CopiesPtr_cons _ _ _ TargetReference_Copies).
  apply (CopiesPtr_cons _ _ _ RemediationAction_Copies).
  apply (CopiesPtr_cons _ _ _ Finding_Copies).
  apply (CopiesPtr_cons _ _ _ TargetSnapshot_Copies).
  apply (CopiesPtr_cons _ _ _ RemediationPolicy_Copies).
  apply (CopiesPtr_cons _ _ _ RetentionPolicy_Copies).
  apply (CopiesPtr_cons _ _ _ TargetRule_Copies).
  apply (CopiesPtr_cons _ _ _ TerminationPolicySpec_Copies).
  apply (CopiesPtr_cons _ _ _ TerminationPolicyStatus_Copies).
  apply (CopiesPtr_cons _ _ _ TerminationPolicy_Copies).
  apply (CopiesPtr_cons _ _ _ TerminationPolicyList_Copies).
  apply (CopiesPtr_cons _ _ _ DeletionIncidentSpec_Copies).
  apply (CopiesPtr_cons _ _ _ DeletionIncidentStatus_Copies).
  apply (CopiesPtr_cons _ _ _ DeletionIncident_Copies).
  apply (CopiesPtr_cons _ _ _ DeletionIncidentList_Copies).
  apply (CopiesPtr_cons _ _ _ RemediationApprovalSpec_Copies).
  apply (CopiesPtr_cons _ _ _ RemediationAttempt_Copies).
  apply (CopiesPtr_cons _ _ _ RemediationApprovalStatus_Copies).
  apply (CopiesPtr_cons _ _ _ RemediationApproval_Copies).
  apply (CopiesPtr_cons _ _ _ RemediationApprovalList_Copies).
  apply Forall_nil_2.
Qed.

(** A [DeepCopyObject] returns the copy, and the nil interface (not an interface
    holding a nil pointer) for nil. *)
Definition WrapsCopy (T : ty) (g : val → M (option val)) : Prop :=
  ∃ f, (T, f) ∈ generated ∧
    g = (λ inp, c ← f inp; if isNil c then mret None else mret (Some c)).

Lemma generatedObjects_wrap : Forall (λ Tg, WrapsCopy Tg.1 Tg.2) generatedObjects.
Proof using.
  assert (Hin : ∀ T f, In (T, f) generated → WrapsCopy T (λ inp, c ← f inp; if isNil c then mret None else mret (Some c))).
  { intros T f Hin. exists f. split; [by apply list_elem_of_In|done]. }
  unfold generatedObjects.
  rewrite !Forall_cons, Forall_nil. split_and!; [..|done]; apply Hin; simpl; tauto.
Qed.
End generated.

Lemma CopiesPtr_nil T h v t : view (TPtr T) h v = Some t → (t = NilT ↔ v = VNil).
Proof.
  destruct v; simpl; try done; [naive_solver|].
  intros (w & _ & (? & _ & ->)%fmap_Some)%bind_Some. done.
Qed.

(** ** The copies share nothing with their source *)

(** C15: every generated [DeepCopy] of a well-formed value returns, and what it
    returns reads like the source, while writes through the copy (any change to
    memory that did not exist before the call) never show in the source and writes
    to the source never show in the copy; nil is copied to nil.  [DeepCopyObject]
    of the root types returns the same copy, and the nil interface exactly for
    nil. *)
Theorem deep_copies_isolated (mv : MetaV1) (Hmv : MetaV1Ok mv) h v t :
  (∀ T f, (T, f) ∈ generated mv → view (TPtr T) h v = Some t →
     ∃ v' h1, f v h = Some (v', h1) ∧ (v' = VNil ↔ v = VNil) ∧
       view (TPtr T) h1 v' = Some t ∧
       (∀ h', (∀ l, l ∈ dom h → h' !! l = h1 !! l) → view (TPtr T) h' v = Some t) ∧
       (∀ h', (∀ l, l ∉ dom h → h' !! l = h1 !! l) → view (TPtr T) h' v' = Some t)) ∧
  (∀ T g, (T, g) ∈ generatedObjects mv → view (TPtr T) h v = Some t →
     ∃ f, (T, f) ∈ generated mv ∧
     ∃ v' h1, f v h = Some (v', h1) ∧
       g v h = Some (if isNil v then None else Some v', h1)).
Proof.
  pose proof (generated_CopiesPtr mv) as Hgen. rewrite Forall_forall in Hgen.
  split.
  - intros T f Hin Ht.
    destruct (CopiesPtr_isolated T f h v t (Hgen _ Hin) Ht) as (v' & h1 & Hrun & Hc & Hs & Hi1 & Hi2).
    exists v', h1. split_and!; [done| |done..].
    by rewrite <-(CopiesPtr_nil _ _ _ _ Hc), <-(CopiesPtr_nil _ _ _ _ Ht).
  - intros T g Hin Ht. pose proof (generatedObjects_wrap mv) as Hobj.
    rewrite Forall_forall in Hobj. destruct (Hobj _ Hin) as (f & Hf & Hg). simpl in Hg.
    destruct (CopiesPtr_isolated T f h v t (Hgen _ Hf) Ht) as (v' & h1 & Hrun & Hc & _).
    exists f. split; [done|]. exists v', h1. split; [done|].
    rewrite Hg, (bind_step _ _ _ _ _ Hrun).
    assert (v' = VNil ↔ v = VNil) as Hnil
      by (by rewrite <-(CopiesPtr_nil _ _ _ _ Hc), <-(CopiesPtr_nil _ _ _ _ Ht)).
    assert (isNil v' = isNil v) as -> by (destruct v, v'; naive_solver).
    by destruct (isNil v).
Qed.

(** A concrete metadata library: object metadata with its finalizers, conditions
    with their transition time, selectors with their expressions. *)
Module ExampleMeta.
Definition objectMeta : ty := TStruct [("Name", TString); ("Finalizers", TSlice TString)].
Definition time : ty := TStruct [("Time", TInt)].
Definition condition : ty := TStruct [("Type", TString); ("LastTransitionTime", time)].
Definition selector : ty := TStruct [("MatchExpressions", TSlice TString)].
Definition listMeta : ty := TStruct [("ResourceVersion", TString)].

Definition objectMetaInto (inp out : addr) : M unit :=
  assign out inp;; copySliceFlat TString inp.>"Finalizers" out.>"Finalizers".
Definition selectorInto (inp out : addr) : M unit :=
  assign out inp;; copySliceFlat TString inp.>"MatchExpressions" out.>"MatchExpressions".
Definition flatInto (inp out : addr) : M unit := assign out inp.

Definition mv : MetaV1 := mkMetaV1
  (TStruct [("Kind", TString); ("APIVersion", TString)]) (TStruct [("Duration", TInt)])
  objectMeta listMeta time condition selector
  objectMetaInto flatInto flatInto (deepCopy time flatInto) flatInto selectorInto.

Lemma objectMeta_Copies : Copies objectMeta objectMetaInto.
Proof. struct_copy objectMetaInto. Qed.
Lemma selector_Copies : Copies selector selectorInto.
Proof. struct_copy selectorInto. Qed.
Lemma flat_Copies T : flat T = true → Copies T flatInto.
Proof. apply assign_Copies. Qed.

Lemma mv_ok : MetaV1Ok mv.
Proof.
  split; simpl; try reflexivity;
    first [apply objectMeta_Copies | apply selector_Copies | by apply flat_Copies
          | apply deepCopy_CopiesPtr; by apply flat_Copies].
Qed.

(** An incident status in memory: one finding, whose resource reference is a
    pointer to a third block. *)
Definition h : heap :=
  {[ 1 := put [Field "Findings"] (VSlice (2, []) 0 1) (zero (DeletionIncidentStatus_ty mv));
     2 := VArray [put [Field "ResourceRef"] (VPtr (3, [])) (zero Finding_ty)];
     3 := put [Field "Name"] (VScalar (SString "blocker")) (zero TargetReference_ty) ]}%positive.
Definition status : val := VPtr (1%positive, []).
Definition statusTree : tree := default NilT (view (TPtr (DeletionIncidentStatus_ty mv)) h status).

(** The copy changed through its own memory: the referenced name is overwritten. *)
Example copy_written :
  match DeletionIncidentStatus_DeepCopy mv status h with
  | Some (VPtr a, h1) =>
      r ← load h1 (a.>"Findings");
      match r with
      | VSlice b 0 1 =>
          p ← load h1 ((elemOf b 0).>"ResourceRef");
          match p with
          | VPtr c => Some (bool_decide (c.1 = 3%positive),
                            load (upd (c.>"Name") (VScalar (SString "changed")) h1) (3%positive, [Field "Name"]))
          | _ => None
          end
      | _ => None
      end
  | _ => None
  end = Some (false, Some (VScalar (SString "blocker"))).
Proof. vm_compute. reflexivity. Qed.
End ExampleMeta.

Lemma deep_copies_isolated_witness :
  view (TPtr (DeletionIncidentStatus_ty ExampleMeta.mv)) ExampleMeta.h ExampleMeta.status
    = Some ExampleMeta.statusTree ∧
  ∃ v' h1, DeletionIncidentStatus_DeepCopy ExampleMeta.mv ExampleMeta.status ExampleMeta.h = Some (v', h1) ∧
    view (TPtr (DeletionIncidentStatus_ty ExampleMeta.mv)) h1 v' = Some ExampleMeta.statusTree.
Proof.
  assert (Hv : view (TPtr (DeletionIncidentStatus_ty ExampleMeta.mv)) ExampleMeta.h ExampleMeta.status
    = Some ExampleMeta.statusTree) by (vm_compute; reflexivity).
  split; [exact Hv|].
  destruct (deep_copies_isolated ExampleMeta.mv ExampleMeta.mv_ok ExampleMeta.h ExampleMeta.status
              ExampleMeta.statusTree) as [Hcopy _].
  destruct (Hcopy (DeletionIncidentStatus_ty ExampleMeta.mv) (DeletionIncidentStatus_DeepCopy ExampleMeta.mv))
    as (v' & h1 & Hrun & _ & Hc & _).
  - apply list_elem_of_In. simpl. tauto.
  - exact Hv.
  - exists v', h1. split; [exact Hrun | exact Hc].
Defined.
